(* ===== verification/_CoqProject ===== *)
-Q . S2P
Prelude.v
Codec.v
WireTypes.v
Crc.v
Wire.v
Types.v
StreamTracker.v
DlsnTracker.v
DlsnSpec.v
DlsnPlan.v
IntervalMap.v
ReadRoute.v
RouteSpec.v
Replica.v
ReplicaSpec.v
ReplicaRun.v
ReplicaApplied.v
Cluster.v
ClusterSpec.v
ClusterRun.v
Delivery.v
Client.v
ClientSpec.v
ClientRun.v
ClientTrace.v
PeerCodec.v
WireTyped.v
Raft.v
RaftSpec.v
RaftRun.v
LogStore.v
Watchdog.v
Conn.v
TcpServer.v
WireClient.v
Remote.v
RemoteRead.v
RemotePeer.v
RemoteSession.v
ServerRun.v
RemoteRun.v
ClusterServer.v
ClusterServerRun.v
ClusterServerInv.v
AsyncConn.v
AsyncInv.v
AsyncLive.v
AsyncWire.v
AsyncTerm.v
AsyncRun.v
RingProxy.v
SessionMgr.v
Builder.v
RaftState.v
RaftService.v
Driver.v
Sockets.v
Gate.v
RefServer.v
Harness.v
HarnessRun.v
CommitWorker.v
Listeners.v
System.v
SystemSpec.v
SystemInv.v
SystemRun.v
