(* ===== verification/Prelude.v ===== *)
(** * craft_client: a verification development (root file)

    craft_client is the client side of CRAFT, a quorum-replicated block volume, with an
    in-process cluster to run it against, a wire protocol and TCP servers and proxies for a
    remote one, and a replica whose cold path runs on raft.  All paths below are under [src/].

    ** The program

    A client ([src/client.cpp]) gives every write a number, the dLSN, sends it to every member
    and acknowledges it once a quorum has it.  A tracker ([src/dlsn_tracker.cpp]) keeps the fate
    of each dLSN, the resolved frontier and the highest acknowledged dLSN, and plans reads; a
    route map ([src/read_route_map.hpp]) knows which member misses which bytes.  A write that
    failed on a quorum is settled by a resolution round.  A member is a replica
    ([src/mem/replica.cpp]): a journal, an index of what is applied, a commit frontier and a term
    that fences old sessions.  Login, resolution and logout are the cold path, run by the
    in-process transport ([src/mem/cluster.cpp]) or by raft ([src/raft/]).  The client reaches a
    member directly ([src/local.cpp]) or through a proxy ([src/net/tcp_replica.cpp]) and the wire
    ([src/wire.cpp]) to a server ([src/net/tcp_server.cpp], [src/net/cluster_server.cpp]).

    ** Files

    - [Prelude]: results and their early return, machine integers, the tactics and hints, and
      generic lemmas.  [Codec]: packed structs as codecs.
    - Wire.  [WireTypes] (include/craft/wire.hpp), [Crc] and [Wire] (src/wire.cpp), [WireTyped],
      [Types] (include/craft/types.hpp, status.hpp), [PeerCodec] (src/peer_codec.cpp).
    - Client.  [StreamTracker] and [IntervalMap] (interfaces of the third-party containers, each
      with a concrete instance), [DlsnTracker] with [DlsnSpec] and [DlsnPlan], [Gate] (the
      resolution gate of src/dlsn_tracker.hpp), [ReadRoute] with [RouteSpec], [Client] with
      [ClientSpec], [ClientRun] and [ClientTrace].
    - Replica and cluster.  [Replica] with [ReplicaSpec], [ReplicaRun] (runs that leave
      committed dLSNs alone) and [ReplicaApplied] (all runs), [Cluster] with [ClusterSpec] and
      [ClusterRun], [Delivery] (the transport's timers and threads).
    - Raft.  [Raft] (src/raft/raft_replica.cpp, src/replica_mgr.cpp) with [RaftSpec] and
      [RaftRun], [LogStore] (in_memory_log_store.cpp), [RaftState] (raft_state_manager.cpp,
      src/helper.hpp), [RaftService] (raft_service.cpp, raft_state_machine.hpp), [CommitWorker]
      (the worker thread of raft_replica.cpp), [Watchdog] (src/watchdog.cpp).
    - Network, blocking.  [Conn] and [Sockets] (src/net/conn.cpp), [TcpServer], [WireClient]
      (wire_client.cpp, tcp_replica.cpp, tcp_peer.cpp), [Remote], [RemoteRead], [RemotePeer],
      [RemoteSession], [RemoteRun] and [ServerRun] (client and server put together),
      [ClusterServer] with [ClusterServerRun] and [ClusterServerInv], [Listeners] (its acceptor
      and connection threads and [stop]).
    - Network, on the caller's ring.  [AsyncConn] (async_conn.cpp) with [AsyncInv], [AsyncLive],
      [AsyncWire], [AsyncTerm] and [AsyncRun]; [RingProxy] (the on-ring tier of tcp_replica.cpp);
      [SessionMgr] (session_mgr.cpp and the proxy's hop and shutdown).
    - Construction and tools.  [Builder] (tcp_cluster.cpp, tcp_set.hpp, src/local.cpp), [Driver]
      (tools/craft_test_driver/craft_wire.py and volumes.py), [RefServer]
      (tools/craft_reference_tcp_srv.cpp), [Harness] with [HarnessRun] (the rest of
      tools/craft_test_driver: the processes, the disk, the tests, [main.py]).
    - Client and cluster together.  [System] runs the client of [Client] against the members of
      [Cluster]: its events are the client's accesses to its tracker and router, the legs of a
      write that reach a member, get lost or time out and still arrive, reads, keep-alives,
      rounds of resolution and injected faults, in any order.  [SystemSpec] has the invariant
      between the two sides, [SystemInv] that every event keeps it, [SystemRun] the theorems.

    A component's state is a record with the class's fields and each member function is one
    definition with its name.  A function that holds a lock throughout is one transformer;
    where the code releases a lock, suspends, or makes separate atomic accesses, the definition
    is cut there and a step relation interleaves the pieces.  Errors are values of [result];
    [option] is used where the code would be undefined or an argument runs out.

    ** What the theorems show

    - End to end ([SystemRun]): in every run of a session, a read that the client plans and routes
      returns for each block the payload of the last write acknowledged for it, or of a later one
      of the session, when the member it chose serves it at once or any number of events later.
      The composition assumes what the sources say they leave out: a member that was down comes
      back without writes the others never saw ([no_tails], and the guard of the round event:
      the comments of [src/mem/cluster.hpp] name the resync as absent); and two orders of events
      without which the code is wrong, each with the run that shows it: no write overtakes a
      round ([resolution_voids_acked_write]), and no other verb of the client runs between the
      planning of a read and the choice of its member ([read_race]).
    - The client: a write succeeds exactly if a quorum acked it and always returns; reads are
      planned so that no open write shows and no acknowledged one is hidden; a member the router
      accepts has the last acknowledged write of each byte, but for what a fold moves while it
      looks ([eligible_race]), and the fold itself is exact; the tracker implements an abstract
      session; the gate loses no wakeup; a resolution leg ends.
    - The replica, under any operations: the index is exact, reads are exact against what was
      committed and the journal above it, what is served of committed dLSNs never changes, also
      where the journal does ([committed_rewrite]).  The cold path: a login covers every write a
      quorum holds and fences the terms before; a resolution round decides every slot and voids
      no such write.
    - Raft: the raft-backed replica refines the plain one, its login covers, its rounds converge;
      the log store refines a log; the term and the vote survive a restart where there is a
      directory to keep them; the group of a volume is created by exactly the calls meant; the
      watchdog fires exactly.
    - The wire: framing round-trips and tolerates any cut of the stream, decoding is typed,
      scatter plans stay in bounds, CRC32C equals its bit-serial definition.
    - The network: a verb, a read and a login over TCP are those of the replica behind the server;
      a peer's catch-up is that of reading the journals of the peers whose calls go through;
      whatever bytes arrive, the replica moves by its own operations.  On the ring, a reply
      reaches the request with its id, nested resumptions end, and on a bound connection the
      tier agrees with the blocking one; in a session begun with nothing outstanding no request
      is stranded unless the pump finds the ring full, and while no send fails requests go out
      whole.  Descriptors and rings have one owner each.  After a proxy's shutdown fence nothing
      of it is left on the admin thread.
    - Threads and programs: stopping the cluster server joins every thread in a bounded number of
      steps if its wake-up connections go through; the commit worker runs every task once and in
      order; a signal stops the reference server.  The test driver's packed request creates the
      volume the server would for a direct call, its command lines start the servers its
      configuration names, and a run of it ends: on a Ctrl-C that falls while it sleeps or waits
      with every server and disk gone, and on an error with every process untouched.
    - Where the code does something else than it means to, a theorem exhibits the run:
      [eligible_race], [read_race], [login_loses_acked_write], [resolution_voids_acked_write],
      [committed_rewrite], [full_write_not_fetched], [stale_logout_ends_session],
      [stale_send_interleaves], [exhausted_pump_strands], [refused_helo_tiers],
      [hop_outlives_fence], [failed_poke_hangs], [vote_forgotten], [signal_missed],
      [cut_line_missed], [unrecorded_server_leaks], [cleanup_kills_itself] and others.

    ** Bounds and fuel

    Integers are [Z] with the wrap of their width written out ([u16], [u32], [u64]); sizes that
    cannot reach their width are [nat].  Loops over a range of dLSNs take the length of the range
    as fuel ([compute_loop], [retire_loop], [stats_loop], [apply_loop]), a scatter write the bytes
    plus the buffers left; each turn moves forward by at least one, and the theorems on
    [compute], [retire_upto], [stats] and [apply_up_to] give the result of the whole range, so
    the fuel does not run out.  The ring connection's resumptions run for [weight] steps
    ([resumptions_end]), the admin thread for [thread_work] turns ([stop_drains]).  The driver's
    loops that wait for the disk take the passes that fit before their deadline plus the length
    of the log by then ([log_fuel], [device_fuel]), which is enough for every log that only grows
    ([wait_ready_ends]); its endless loop takes one pass a second up to the Ctrl-C.  Verbs that
    wait take the awaited answers as a list and return once it holds an answer that ends them.

    ** Third-party code

    The stream tracker, the interval map, the JSON and msgpack library, raft's buffers and log
    entries, and the options library of the reference server are type classes of their
    documented laws, each with an instance used by the witnesses.  What the consensus library, the peers, the kernel, the clock and the ring answer
    are arguments or events of a step relation.

    ** Not modelled

    - Weak memory: the atomics that are not sequentially consistent are taken in one order.
    - Logging and counters that are only logged: the round-trip statistics of tcp_replica.cpp.
    - Real time, which is the step relation's choice, or the clock of [Harness].
    - A round of resolution interleaved with writes in [System]: the round is one event there,
      and [resolution_voids_acked_write] has the interleaving that breaks the claim.
    - A request made from within [fail_all] of the ring connection, but for the reconnect that is
      undefined there ([nested_reconnect_undefined]).
    - A Ctrl-C of the test driver outside its sleeps and waits, but for the one in
      [unrecorded_server_leaks]; the fio child, which [subprocess.run] itself kills and reaps.
    - Parsing of the replica configuration file (src/replica_mgr.cpp) and of the driver's command
      line and JSON file: library calls, whose results are arguments.
    - conanfile.py and the tests.
    - craft_replica.hpp, craft_peer.hpp and the public headers: declarations only. *)

From stdpp Require Export base list list_numbers numbers gmap sorting.

(** ** Results

    [sisl::result<T>] / [std::expected<T, E>]: a value or an error.  The code tests
    [has_value()] and returns early with [std::unexpected]; the notation below is that
    early return. *)

Inductive result (E A : Type) : Type :=
| Ok (a : A)
| Err (e : E).
Arguments Ok {E A} a.
Arguments Err {E A} e.

Declare Scope craft_scope.
Delimit Scope craft_scope with craft.

Notation "'let?' x := c1 'in' c2" :=
  (match c1 with
   | Ok x => c2
   | Err e => Err e
   end)
  (at level 10, x pattern, c1 at level 200, c2 at level 200) : craft_scope.

#[export] Instance result_eq_dec {E A} `{EqDecision E, EqDecision A} :
  EqDecision (result E A).
Proof. solve_decision. Defined.

Definition is_ok {E A} (r : result E A) : bool :=
  match r with Ok _ => true | Err _ => false end.

(** ** Machine integers

    An unsigned w-bit integer is a [Z] in [0, 2^w); arithmetic that the code performs on
    [uint16_t]/[uint32_t]/[uint64_t] is reduced with [wrap]. *)

Definition wrap (w : Z) (z : Z) : Z := z `mod` 2 ^ w.
Definition u16 : Z → Z := wrap 16.
Definition u32 : Z → Z := wrap 32.
Definition u64 : Z → Z := wrap 64.

Definition in_u (w z : Z) : Prop := (0 ≤ z < 2 ^ w)%Z.
Definition in_i64 (z : Z) : Prop := (- 2 ^ 63 ≤ z < 2 ^ 63)%Z.

(** The two's complement reading of a 64-bit pattern. *)
Definition to_i64 (z : Z) : Z :=
  if decide (z < 2 ^ 63)%Z then z else (z - 2 ^ 64)%Z.

Lemma wrap_small w z : in_u w z → wrap w z = z.
Proof. unfold wrap, in_u. intros. by apply Z.mod_small. Qed.

Lemma wrap_in_u w z : (0 ≤ w)%Z → in_u w (wrap w z).
Proof. intros. apply Z.mod_pos_bound, Z.pow_pos_nonneg; lia. Qed.

Lemma to_i64_wrap z : in_i64 z → to_i64 (z `mod` 2 ^ 64) = z.
Proof.
  unfold in_i64, to_i64. intros Hz. destruct (decide (0 ≤ z)%Z).
  - rewrite Z.mod_small by lia. rewrite decide_True by lia. done.
  - assert (z `mod` 2 ^ 64 = z + 2 ^ 64)%Z as ->.
    { symmetry. apply (Z.mod_unique_pos _ _ (-1)); lia. }
    rewrite decide_False by lia. lia.
Qed.

(** [static_cast<int32_t>]. *)
Definition to_i32 (z : Z) : Z := (let u := wrap 32 z in if u <? 2 ^ 31 then u else u - 2 ^ 32)%Z.
Definition in_i32 (z : Z) : Prop := (- 2 ^ 31 ≤ z < 2 ^ 31)%Z.
#[export] Instance in_i32_dec z : Decision (in_i32 z).
Proof. unfold in_i32. apply _. Defined.
Lemma to_i32_small z : in_i32 z → to_i32 z = z.
Proof.
  unfold to_i32, in_i32, wrap. intros Hz. destruct (decide (0 ≤ z)%Z).
  - rewrite Z.mod_small by lia. by rewrite (proj2 (Z.ltb_lt _ _)) by lia.
  - assert (z `mod` 2 ^ 32 = z + 2 ^ 32)%Z as -> by (symmetry; apply (Z.mod_unique_pos _ _ (-1)); lia).
    rewrite (proj2 (Z.ltb_ge _ _)) by lia. lia.
Qed.

(** ** Bytes *)

Definition byte_ok (b : Z) : Prop := (0 ≤ b < 2 ^ 8)%Z.
Definition bytes_ok (bs : list Z) : Prop := Forall byte_ok bs.

#[global] Instance in_u_dec w z : Decision (in_u w z).
Proof. unfold in_u. apply _. Defined.
#[global] Instance in_i64_dec z : Decision (in_i64 z).
Proof. unfold in_i64. apply _. Defined.
#[global] Instance byte_ok_dec b : Decision (byte_ok b).
Proof. unfold byte_ok. apply _. Defined.
#[global] Instance bytes_ok_dec bs : Decision (bytes_ok bs).
Proof. unfold bytes_ok. apply _. Defined.

(** Discharges a closed decidable goal by evaluating its decision procedure. *)
Ltac by_eval :=
  first [ refine (bool_decide_unpack _ _); vm_compute; exact I
        | reflexivity | discriminate | lia ].

(** Object representation of an unsigned integer of [n] bytes on the little-endian host
    the sources require ([static_assert(std::endian::native == std::endian::little)]). *)
Definition le_bytes (n : nat) (z : Z) : list Z := Z_to_little_endian (Z.of_nat n) 8 z.
Definition le_value (bs : list Z) : Z := little_endian_to_Z 8 bs.

Lemma length_le_bytes n z : length (le_bytes n z) = n.
Proof.
  pose proof (length_Z_to_little_endian (Z.of_nat n) 8 z ltac:(lia)).
  unfold le_bytes. lia.
Qed.

Lemma le_bytes_ok n z : bytes_ok (le_bytes n z).
Proof. apply Z_to_little_endian_bound; lia. Qed.

Lemma le_value_bytes n z : le_value (le_bytes n z) = (z `mod` 2 ^ (Z.of_nat n * 8))%Z.
Proof. apply little_endian_to_Z_to_little_endian; lia. Qed.

Lemma le_bytes_value bs : bytes_ok bs → le_bytes (length bs) (le_value bs) = bs.
Proof. intros. by apply Z_to_little_endian_to_Z. Qed.

(** ** Inclusive integer ranges: [for (int64_t d = lo; d <= hi; ++d)] *)

Definition range (lo hi : Z) : list Z := seqZ lo (hi - lo + 1).

Lemma elem_of_range lo hi d : d ∈ range lo hi ↔ (lo ≤ d ≤ hi)%Z.
Proof. unfold range. rewrite elem_of_seqZ. lia. Qed.

Lemma range_nil lo hi : (hi < lo)%Z → range lo hi = [].
Proof. intros. apply seqZ_nil. lia. Qed.

Lemma range_cons lo hi : (lo ≤ hi)%Z → range lo hi = lo :: range (lo + 1) hi.
Proof.
  intros. unfold range. rewrite seqZ_cons by lia. f_equal. f_equal; lia.
Qed.

Lemma range_app lo mid hi : (lo ≤ mid + 1)%Z → (mid ≤ hi)%Z → range lo hi = range lo mid ++ range (mid + 1)%Z hi.
Proof.
  intros. unfold range. replace (hi - lo + 1)%Z with ((mid - lo + 1) + (hi - (mid + 1) + 1))%Z by lia.
  rewrite seqZ_app by lia. f_equal. f_equal. lia.
Qed.

Lemma NoDup_range lo hi : NoDup (range lo hi).
Proof. apply NoDup_seqZ. Qed.

Lemma length_range lo hi : length (range lo hi) = Z.to_nat (hi - lo + 1).
Proof. apply length_seqZ. Qed.

(** ** Lists *)

Lemma list_filter_ext_in {A} (P Q : A → Prop) `{!∀ x, Decision (P x), !∀ x, Decision (Q x)}
    (l : list A) :
  (∀ x, x ∈ l → P x ↔ Q x) → filter P l = filter Q l.
Proof.
  induction l as [|x l IH]; intros HPQ; [done|].
  rewrite !filter_cons. rewrite IH by (intros; apply HPQ; by right).
  assert (P x ↔ Q x) as Hx by (apply HPQ; left).
  destruct (decide (P x)), (decide (Q x)); tauto.
Qed.

Lemma filter_all {A} (P : A → Prop) `{!∀ x, Decision (P x)} (l : list A) :
  (∀ x, x ∈ l → P x) → filter P l = l.
Proof.
  induction l as [|x l IH]; intros HP; [done|].
  rewrite filter_cons, decide_True by (apply HP; left). f_equal. apply IH. intros. apply HP. by right.
Qed.

Lemma StronglySorted_fst_filter {A} (R : Z → Z → Prop) (P : Z * A → Prop)
    `{!∀ p, Decision (P p)} (l : list (Z * A)) :
  StronglySorted R l.*1 → StronglySorted R (filter P l).*1.
Proof.
  induction l as [|p l IH]; intros Hs; [constructor|].
  inversion Hs as [|? ? Hs' Hall]; subst. rewrite filter_cons. case_decide; [|auto].
  simpl. constructor; [auto|]. rewrite Forall_forall in Hall |- *.
  intros i (q & -> & [_ Hq]%list_elem_of_filter)%list_elem_of_fmap.
  apply Hall. by apply list_elem_of_fmap_2.
Qed.

(** Distinct keys in weakly ascending order are strictly ascending. *)
Lemma StronglySorted_fst_lt {A} (l : list (Z * A)) :
  NoDup l.*1 → StronglySorted (λ p q, p.1 ≤ q.1)%Z l → StronglySorted Z.lt l.*1.
Proof.
  induction l as [|x l IH]; intros Hnd Hs; simpl; constructor.
  - inversion Hnd; inversion Hs; auto.
  - inversion Hnd as [|? ? Hx]; inversion Hs as [|? ? ? Hall]; subst.
    apply Forall_fmap, Forall_forall. intros y Hy. rewrite Forall_forall in Hall.
    specialize (Hall y Hy). simpl in *.
    assert (x.1 ≠ y.1); [|lia]. intros Heq. apply Hx. rewrite Heq. by apply list_elem_of_fmap_2.
Qed.

Lemma StronglySorted_filter {A} (R : A → A → Prop) (P : A → Prop) `{!∀ x, Decision (P x)} (l : list A) :
  StronglySorted R l → StronglySorted R (filter P l).
Proof.
  induction 1 as [|x l _ IH Hall]; [constructor|]. rewrite filter_cons. case_decide; [|done].
  constructor; [done|]. rewrite Forall_forall in Hall |- *.
  intros y [_ Hy]%list_elem_of_filter. auto.
Qed.

Lemma StronglySorted_range lo hi : StronglySorted Z.lt (range lo hi).
Proof.
  remember (Z.to_nat (hi - lo + 1)) as n eqn:Hn. revert lo Hn.
  induction n as [|n IH]; intros lo Hn; [rewrite range_nil by lia; constructor|].
  rewrite range_cons by lia. constructor; [apply IH; lia|].
  apply Forall_forall. intros x Hx%elem_of_range. lia.
Qed.

Lemma StronglySorted_lt_NoDup (l : list Z) : StronglySorted Z.lt l → NoDup l.
Proof.
  induction 1 as [|x l _ IH Hall]; constructor; [|done]. intros Hx.
  rewrite Forall_forall in Hall. specialize (Hall x Hx). lia.
Qed.
