(* ===== verification/Codec.v ===== *)
(** * Packed wire structs as codecs

    The sources move every wire struct with [std::memcpy] between a packed,
    little-endian struct and a byte span ([wire::put], [wire::decode] in
    include/craft/wire.hpp; the encoders of src/peer_codec.cpp).  A [codec] is the
    object representation of one such struct: its [sizeof], the bytes it is stored as,
    the value a byte span is read back as, and the range of values a field of that
    width can hold.  Structs are built from their fields in declaration order, so the
    layout is the packed one by construction. *)

From S2P Require Import Prelude.

Record codec (A : Type) : Type := Codec {
  csize : nat;
  enc : A → list Z;
  dec : list Z → A;
  cvalid : A → Prop;
  enc_length : ∀ a, cvalid a → length (enc a) = csize;
  enc_bytes : ∀ a, cvalid a → bytes_ok (enc a);
  dec_enc : ∀ a r, cvalid a → dec (enc a ++ r) = a;
}.
Arguments csize {A} _.
Arguments enc {A} _ _.
Arguments dec {A} _ _.
Arguments cvalid {A} _ _.
Arguments enc_length {A} _ _ _.
Arguments enc_bytes {A} _ _ _.
Arguments dec_enc {A} _ _ _ _.

(** ** Fields *)

(** [uintN_t] of [n] bytes. *)
Program Definition cuint (n : nat) : codec Z :=
  {| csize := n;
     enc z := le_bytes n z;
     dec bs := le_value (take n bs);
     cvalid z := in_u (8 * Z.of_nat n) z |}.
Next Obligation. intros. apply length_le_bytes. Qed.
Next Obligation. intros. apply le_bytes_ok. Qed.
Next Obligation.
  intros n a r Ha. simpl. rewrite take_app_length' by (symmetry; apply length_le_bytes).
  rewrite le_value_bytes. apply Z.mod_small. unfold in_u in Ha.
  by rewrite (Z.mul_comm _ 8).
Qed.

(** [int64_t]. *)
Program Definition cint64 : codec Z :=
  {| csize := 8;
     enc z := le_bytes 8 z;
     dec bs := to_i64 (le_value (take 8 bs));
     cvalid := in_i64 |}.
Next Obligation. intros. apply length_le_bytes. Qed.
Next Obligation. intros. apply le_bytes_ok. Qed.
Next Obligation.
  intros a r Ha. cbv beta. rewrite take_app_length' by (symmetry; apply length_le_bytes).
  rewrite le_value_bytes. by apply to_i64_wrap.
Qed.

(** [std::array<uint8_t, n>] and [uint8_t reserved\[n\]]. *)
Program Definition carray (n : nat) : codec (list Z) :=
  {| csize := n;
     enc a := a;
     dec bs := take n bs;
     cvalid a := length a = n ∧ bytes_ok a |}.
Next Obligation. by intros ? ? [? ?]. Qed.
Next Obligation. by intros ? ? [? ?]. Qed.
Next Obligation. intros n a r [? ?]. simpl. by rewrite take_app_length'. Qed.

(** Two consecutive fields. *)
Program Definition cpair {A B} (ca : codec A) (cb : codec B) : codec (A * B) :=
  {| csize := csize ca + csize cb;
     enc ab := enc ca ab.1 ++ enc cb ab.2;
     dec bs := (dec ca bs, dec cb (drop (csize ca) bs));
     cvalid ab := cvalid ca ab.1 ∧ cvalid cb ab.2 |}.
Next Obligation.
  intros A B ca cb [a b] [Ha Hb]. simpl in *.
  by rewrite length_app, !enc_length.
Qed.
Next Obligation.
  intros A B ca cb [a b] [Ha Hb]. apply Forall_app; split; by apply enc_bytes.
Qed.
Next Obligation.
  intros A B ca cb [a b] r [Ha Hb]. simpl in *. rewrite <-(assoc_L (++)).
  rewrite dec_enc by done.
  rewrite drop_app_length' by (symmetry; by apply enc_length).
  by rewrite dec_enc.
Qed.

(** A struct, given by the tuple of its fields. *)
Program Definition cstruct {A B} (c : codec A) (to : B → A) (from : A → B)
    (Hof : ∀ b, from (to b) = b) : codec B :=
  {| csize := csize c;
     enc b := enc c (to b);
     dec bs := from (dec c bs);
     cvalid b := cvalid c (to b) |}.
Next Obligation. intros. by apply enc_length. Qed.
Next Obligation. intros. by apply enc_bytes. Qed.
Next Obligation. intros A B c to from Hof b r Hb. simpl. by rewrite dec_enc, Hof. Qed.

Abbreviation cu8 := (cuint 1).
Abbreviation cu16 := (cuint 2).
Abbreviation cu32 := (cuint 4).
Abbreviation cu64 := (cuint 8).
Infix "⊗" := cpair (at level 60, right associativity) : craft_scope.

(** ** Arrays of structs: [count] consecutive encodings *)

Definition enc_array {A} (c : codec A) (l : list A) : list Z := l ≫= enc c.

(** [std::memcpy(out.data(), body.data(), count * sizeof(T))]: the [count] structs at
    the front of [bs]. *)
Fixpoint dec_array {A} (c : codec A) (count : nat) (bs : list Z) : list A :=
  match count with
  | O => []
  | S k => dec c bs :: dec_array c k (drop (csize c) bs)
  end.

Section codec_array.
Context {A : Type} (c : codec A).

Lemma length_enc_array l :
  Forall (cvalid c) l → length (enc_array c l) = length l * csize c.
Proof.
  induction 1 as [|a l Ha _ IH]; [done|]. simpl.
  unfold enc_array in *. simpl. by rewrite length_app, enc_length, IH.
Qed.

Lemma enc_array_bytes l : Forall (cvalid c) l → bytes_ok (enc_array c l).
Proof.
  induction 1 as [|a l Ha _ IH]; [constructor|].
  apply Forall_app; split; [by apply enc_bytes|done].
Qed.

Lemma dec_enc_array l r :
  Forall (cvalid c) l → dec_array c (length l) (enc_array c l ++ r) = l.
Proof.
  induction 1 as [|a l Ha _ IH]; [done|].
  unfold enc_array in *. simpl. rewrite <-(assoc_L (++)).
  rewrite dec_enc by done. f_equal.
  by rewrite drop_app_length' by (symmetry; by apply enc_length).
Qed.

Lemma length_dec_array n bs : length (dec_array c n bs) = n.
Proof. revert bs. induction n; intros; simpl; auto. Qed.
End codec_array.

(** ** Validity goals: every field in range *)

Create HintDb wire discriminated.

Ltac solve_valid :=
  repeat match goal with
  | |- cvalid _ _ => simpl
  | |- _ ∧ _ => split
  | |- in_u _ _ => unfold in_u; simpl; try lia
  | |- in_i64 _ => unfold in_i64; simpl; try lia
  end; eauto with wire.

(** Struct sizes and representations stay folded under [simpl]. *)
Arguments csize : simpl never.
Arguments enc : simpl never.
Arguments dec : simpl never.
