(* ===== verification/WireTypes.v ===== *)
(** * craft_wire: packed message structs

    The structs of include/craft/wire.hpp (namespace [craft::wire]), field by field in
    declaration order.  [sizeof] is the packed size; the [static_assert]s of the header
    are [wire_sizes]. *)

From S2P Require Import Prelude Codec.

Local Open Scope craft_scope.

(** [wire::msg_hdr]: 8 bytes on every request and response. *)
Record msg_hdr := Mk_msg_hdr {
  mh_op : Z;
  mh_status : Z;
  mh_request_id : Z;
  mh_body_len : Z;
}.
Definition msg_hdr_codec : codec msg_hdr :=
  cstruct (cu8 ⊗ cu8 ⊗ cu16 ⊗ cu32)
    (λ s, (mh_op s, (mh_status s, (mh_request_id s, mh_body_len s))))
    (λ '(o, (status, (request_id, body_len))), Mk_msg_hdr o status request_id body_len)
    (λ s, ltac:(by destruct s)).

(** [wire::req_hdr]: the client watermarks. *)
Record req_hdr := Mk_req_hdr {
  rh_commit_lsn : Z;
  rh_all_committed_lsn : Z;
}.
Definition req_hdr_codec : codec req_hdr :=
  cstruct (cint64 ⊗ cint64)
    (λ s, (rh_commit_lsn s, rh_all_committed_lsn s))
    (λ '(commit_lsn, all_committed_lsn), Mk_req_hdr commit_lsn all_committed_lsn)
    (λ s, ltac:(by destruct s)).

(** [wire::login_req]. *)
Record login_req := Mk_login_req {
  lq_volume_id : list Z;
  lq_client_token : Z;
}.
Definition login_req_codec : codec login_req :=
  cstruct (carray 16 ⊗ cu64)
    (λ s, (lq_volume_id s, lq_client_token s))
    (λ '(volume_id, client_token), Mk_login_req volume_id client_token)
    (λ s, ltac:(by destruct s)).

(** [wire::login_rsp]. *)
Record login_rsp := Mk_login_rsp {
  lr_term : Z;
  lr_dlsn : Z;
  lr_capacity : Z;
  lr_lba_size : Z;
  lr_max_tx : Z;
  lr_member_count : Z;
  lr_reserved : Z;
  lr_leader_hint : list Z;
}.
Definition login_rsp_codec : codec login_rsp :=
  cstruct (cu64 ⊗ cint64 ⊗ cu64 ⊗ cu32 ⊗ cu32 ⊗ cu32 ⊗ cu32 ⊗ carray 16)
    (λ s, (lr_term s, (lr_dlsn s, (lr_capacity s, (lr_lba_size s, (lr_max_tx s, (lr_member_count s, (lr_reserved s, lr_leader_hint s))))))))
    (λ '(term, (dlsn, (capacity, (lba_size, (max_tx, (member_count, (reserved, leader_hint))))))), Mk_login_rsp term dlsn capacity lba_size max_tx member_count reserved leader_hint)
    (λ s, ltac:(by destruct s)).

(** [wire::helo_req]. *)
Record helo_req := Mk_helo_req {
  hq_volume_id : list Z;
  hq_client_token : Z;
  hq_term : Z;
}.
Definition helo_req_codec : codec helo_req :=
  cstruct (carray 16 ⊗ cu64 ⊗ cu64)
    (λ s, (hq_volume_id s, (hq_client_token s, hq_term s)))
    (λ '(volume_id, (client_token, term)), Mk_helo_req volume_id client_token term)
    (λ s, ltac:(by destruct s)).

(** [wire::write_req]. *)
Record write_req := Mk_write_req {
  wq_hdr : req_hdr;
  wq_dlsn : Z;
  wq_addr : Z;
  wq_len : Z;
}.
Definition write_req_codec : codec write_req :=
  cstruct (req_hdr_codec ⊗ cint64 ⊗ cu64 ⊗ cu64)
    (λ s, (wq_hdr s, (wq_dlsn s, (wq_addr s, wq_len s))))
    (λ '(h, (dlsn, (addr, ln))), Mk_write_req h dlsn addr ln)
    (λ s, ltac:(by destruct s)).

(** [wire::write_rsp]. *)
Record write_rsp := Mk_write_rsp {
  wr_commit_lsn : Z;
  wr_last_append_lsn : Z;
}.
Definition write_rsp_codec : codec write_rsp :=
  cstruct (cint64 ⊗ cint64)
    (λ s, (wr_commit_lsn s, wr_last_append_lsn s))
    (λ '(commit_lsn, last_append_lsn), Mk_write_rsp commit_lsn last_append_lsn)
    (λ s, ltac:(by destruct s)).

(** [wire::read_req]. *)
Record read_req := Mk_read_req {
  rq_hdr : req_hdr;
  rq_read_lsn : Z;
  rq_addr : Z;
  rq_len : Z;
}.
Definition read_req_codec : codec read_req :=
  cstruct (req_hdr_codec ⊗ cint64 ⊗ cu64 ⊗ cu64)
    (λ s, (rq_hdr s, (rq_read_lsn s, (rq_addr s, rq_len s))))
    (λ '(h, (read_lsn, (addr, ln))), Mk_read_req h read_lsn addr ln)
    (λ s, ltac:(by destruct s)).

(** [wire::read_rsp]. *)
Record read_rsp := Mk_read_rsp {
  rr_commit_lsn : Z;
  rr_last_append_lsn : Z;
  rr_extent_count : Z;
  rr_reserved : Z;
}.
Definition read_rsp_codec : codec read_rsp :=
  cstruct (cint64 ⊗ cint64 ⊗ cu32 ⊗ cu32)
    (λ s, (rr_commit_lsn s, (rr_last_append_lsn s, (rr_extent_count s, rr_reserved s))))
    (λ '(commit_lsn, (last_append_lsn, (extent_count, reserved))), Mk_read_rsp commit_lsn last_append_lsn extent_count reserved)
    (λ s, ltac:(by destruct s)).

(** [wire::extent_desc]. *)
Record extent_desc := Mk_extent_desc {
  ed_addr : Z;
  ed_len : Z;
  ed_hole : Z;
  ed_reserved : list Z;
}.
Definition extent_desc_codec : codec extent_desc :=
  cstruct (cu64 ⊗ cu64 ⊗ cu8 ⊗ carray 7)
    (λ s, (ed_addr s, (ed_len s, (ed_hole s, ed_reserved s))))
    (λ '(addr, (ln, (hole, reserved))), Mk_extent_desc addr ln hole reserved)
    (λ s, ltac:(by destruct s)).

(** [wire::keepalive_req]. *)
Record keepalive_req := Mk_keepalive_req {
  kq_hdr : req_hdr;
}.
Definition keepalive_req_codec : codec keepalive_req :=
  cstruct (req_hdr_codec)
    (λ s, kq_hdr s)
    (λ h, Mk_keepalive_req h)
    (λ s, ltac:(by destruct s)).

(** [wire::keepalive_rsp]. *)
Record keepalive_rsp := Mk_keepalive_rsp {
  kr_commit_lsn : Z;
  kr_last_append_lsn : Z;
}.
Definition keepalive_rsp_codec : codec keepalive_rsp :=
  cstruct (cint64 ⊗ cint64)
    (λ s, (kr_commit_lsn s, kr_last_append_lsn s))
    (λ '(commit_lsn, last_append_lsn), Mk_keepalive_rsp commit_lsn last_append_lsn)
    (λ s, ltac:(by destruct s)).

(** [wire::logout_req]. *)
Record logout_req := Mk_logout_req {
  oq_hdr : req_hdr;
}.
Definition logout_req_codec : codec logout_req :=
  cstruct (req_hdr_codec)
    (λ s, oq_hdr s)
    (λ h, Mk_logout_req h)
    (λ s, ltac:(by destruct s)).

(** [wire::resolve_req]. *)
Record resolve_req := Mk_resolve_req {
  vq_hdr : req_hdr;
  vq_upto : Z;
}.
Definition resolve_req_codec : codec resolve_req :=
  cstruct (req_hdr_codec ⊗ cint64)
    (λ s, (vq_hdr s, vq_upto s))
    (λ '(h, upto), Mk_resolve_req h upto)
    (λ s, ltac:(by destruct s)).

(** [wire::resolve_rsp]. *)
Record resolve_rsp := Mk_resolve_rsp {
  vr_resolved_upto : Z;
  vr_empty_count : Z;
  vr_reserved : Z;
}.
Definition resolve_rsp_codec : codec resolve_rsp :=
  cstruct (cint64 ⊗ cu32 ⊗ cu32)
    (λ s, (vr_resolved_upto s, (vr_empty_count s, vr_reserved s)))
    (λ '(resolved_upto, (empty_count, reserved)), Mk_resolve_rsp resolved_upto empty_count reserved)
    (λ s, ltac:(by destruct s)).

(** [wire::volume_create_req]. *)
Record volume_create_req := Mk_volume_create_req {
  cq_volume_id : list Z;
  cq_capacity : Z;
  cq_lba_size : Z;
  cq_member_count : Z;
}.
Definition volume_create_req_codec : codec volume_create_req :=
  cstruct (carray 16 ⊗ cu64 ⊗ cu32 ⊗ cu32)
    (λ s, (cq_volume_id s, (cq_capacity s, (cq_lba_size s, cq_member_count s))))
    (λ '(volume_id, (capacity, (lba_size, member_count))), Mk_volume_create_req volume_id capacity lba_size member_count)
    (λ s, ltac:(by destruct s)).

(** [wire::get_rs_commit_lsn_req]. *)
Record get_rs_commit_lsn_req := Mk_get_rs_commit_lsn_req {
  gq_term : Z;
  gq_is_login : Z;
  gq_reserved : list Z;
}.
Definition get_rs_commit_lsn_req_codec : codec get_rs_commit_lsn_req :=
  cstruct (cu64 ⊗ cu8 ⊗ carray 7)
    (λ s, (gq_term s, (gq_is_login s, gq_reserved s)))
    (λ '(term, (is_login, reserved)), Mk_get_rs_commit_lsn_req term is_login reserved)
    (λ s, ltac:(by destruct s)).

(** [wire::get_rs_commit_lsn_rsp]. *)
Record get_rs_commit_lsn_rsp := Mk_get_rs_commit_lsn_rsp {
  gr_commit_lsn : Z;
  gr_last_append_lsn : Z;
}.
Definition get_rs_commit_lsn_rsp_codec : codec get_rs_commit_lsn_rsp :=
  cstruct (cint64 ⊗ cint64)
    (λ s, (gr_commit_lsn s, gr_last_append_lsn s))
    (λ '(commit_lsn, last_append_lsn), Mk_get_rs_commit_lsn_rsp commit_lsn last_append_lsn)
    (λ s, ltac:(by destruct s)).

(** [wire::fetch_data_req]. *)
Record fetch_data_req := Mk_fetch_data_req {
  fq_lsn_count : Z;
  fq_reserved : Z;
}.
Definition fetch_data_req_codec : codec fetch_data_req :=
  cstruct (cu32 ⊗ cu32)
    (λ s, (fq_lsn_count s, fq_reserved s))
    (λ '(lsn_count, reserved), Mk_fetch_data_req lsn_count reserved)
    (λ s, ltac:(by destruct s)).

(** [wire::fetch_slot_desc]. *)
Record fetch_slot_desc := Mk_fetch_slot_desc {
  fd_lsn : Z;
  fd_lba : Z;
  fd_len : Z;
  fd_byte_len : Z;
  fd_is_empty : Z;
  fd_all_zeros : Z;
  fd_reserved : list Z;
}.
Definition fetch_slot_desc_codec : codec fetch_slot_desc :=
  cstruct (cint64 ⊗ cu64 ⊗ cu32 ⊗ cu64 ⊗ cu8 ⊗ cu8 ⊗ carray 2)
    (λ s, (fd_lsn s, (fd_lba s, (fd_len s, (fd_byte_len s, (fd_is_empty s, (fd_all_zeros s, fd_reserved s)))))))
    (λ '(lsn, (lba, (ln, (byte_len, (is_empty, (all_zeros, reserved)))))), Mk_fetch_slot_desc lsn lba ln byte_len is_empty all_zeros reserved)
    (λ s, ltac:(by destruct s)).

(** [wire::fetch_data_rsp]. *)
Record fetch_data_rsp := Mk_fetch_data_rsp {
  fr_slot_count : Z;
  fr_reserved : Z;
}.
Definition fetch_data_rsp_codec : codec fetch_data_rsp :=
  cstruct (cu32 ⊗ cu32)
    (λ s, (fr_slot_count s, fr_reserved s))
    (λ '(slot_count, reserved), Mk_fetch_data_rsp slot_count reserved)
    (λ s, ltac:(by destruct s)).

(** The packed sizes the header asserts. *)
Lemma wire_sizes :
  csize msg_hdr_codec = 8 ∧ csize req_hdr_codec = 16 ∧ csize login_req_codec = 24 ∧
  csize login_rsp_codec = 56 ∧ csize helo_req_codec = 32 ∧ csize write_req_codec = 40 ∧
  csize write_rsp_codec = 16 ∧ csize read_req_codec = 40 ∧ csize read_rsp_codec = 24 ∧
  csize extent_desc_codec = 24 ∧ csize keepalive_req_codec = 16 ∧
  csize keepalive_rsp_codec = 16 ∧ csize logout_req_codec = 16 ∧
  csize resolve_req_codec = 24 ∧ csize resolve_rsp_codec = 16 ∧
  csize volume_create_req_codec = 32 ∧ csize get_rs_commit_lsn_req_codec = 16 ∧
  csize get_rs_commit_lsn_rsp_codec = 16 ∧ csize fetch_data_req_codec = 8 ∧
  csize fetch_slot_desc_codec = 32 ∧ csize fetch_data_rsp_codec = 8.
Proof. repeat split. Qed.
