(* ===== verification/Crc.v ===== *)
(** * CRC32C

    The digest primitive of src/wire.cpp: the compile-time lookup table
    ([make_crc32c_table]) and the byte-at-a-time loop ([crc32c]).  The reference is the
    bit-serial shift register of the reflected Castagnoli polynomial; the table-driven
    loop is shown equal to it, and the digest is shown to detect every corruption that
    is confined to four consecutive bytes. *)

From S2P Require Import Prelude.

Local Open Scope Z_scope.

(** The reflected polynomial. *)
Definition crc_poly : Z := 0x82F63B78.

(** One turn of the inner loop: [c = (c & 1u) ? (poly ^ (c >> 1)) : (c >> 1)]. *)
Definition crc_step (c : Z) : Z :=
  if Z.land c 1 =? 0 then c ≫ 1 else Z.lxor crc_poly (c ≫ 1).

Fixpoint crc_steps (n : nat) (c : Z) : Z :=
  match n with
  | O => c
  | S k => crc_steps k (crc_step c)
  end.

(** [constexpr std::array<uint32_t, 256> make_crc32c_table()]. *)
Definition make_crc32c_table : list Z := crc_steps 8 <$> seqZ 0 256.

Definition k_crc32c_table : list Z := Eval vm_compute in make_crc32c_table.

(** [k_crc32c_table[(crc ^ b) & 0xFF] ^ (crc >> 8)]. *)
Definition crc_byte (crc b : Z) : Z :=
  Z.lxor (nth (Z.to_nat (Z.land (Z.lxor crc b) 0xFF)) k_crc32c_table 0) (crc ≫ 8).

(** [uint32_t crc32c(std::span<uint8_t const> data)]; [~x] of a [uint32_t] is the
    exclusive or with [0xFFFFFFFF]. *)
Definition crc32c (data : list Z) : Z :=
  Z.lxor 0xFFFFFFFF (foldl crc_byte 0xFFFFFFFF data).

(** Reference: shift every message bit through the register. *)
Definition crc_byte_ref (crc b : Z) : Z := crc_steps 8 (Z.lxor crc b).
Definition crc32c_ref (data : list Z) : Z :=
  Z.lxor 0xFFFFFFFF (foldl crc_byte_ref 0xFFFFFFFF data).

(** The check value of the polynomial: CRC-32C of the ASCII digits 1 to 9. *)
Example crc32c_check : crc32c [49; 50; 51; 52; 53; 54; 55; 56; 57] = 0xE3069283.
Proof. vm_compute. reflexivity. Qed.

(** ** The register is linear *)

Lemma crc_step_odd c : crc_step c = Z.lxor (if Z.odd c then crc_poly else 0) (c ≫ 1).
Proof.
  unfold crc_step. replace (Z.land c 1) with (Z.b2z (Z.odd c)).
  - destruct (Z.odd c); simpl; [done|by rewrite Z.lxor_0_l].
  - rewrite <-Z.bit0_odd. change 1 with (Z.ones 1).
    rewrite Z.land_ones by lia. rewrite Z.bit0_mod. done.
Qed.

Lemma odd_lxor a b : Z.odd (Z.lxor a b) = xorb (Z.odd a) (Z.odd b).
Proof. by rewrite <-!Z.bit0_odd, Z.lxor_spec. Qed.

Lemma crc_step_lxor a b : crc_step (Z.lxor a b) = Z.lxor (crc_step a) (crc_step b).
Proof.
  rewrite !crc_step_odd, odd_lxor, Z.shiftr_lxor.
  apply Z.bits_inj_iff'. intros i Hi. rewrite !Z.lxor_spec.
  destruct (Z.odd a), (Z.odd b); simpl; rewrite ?Z.testbit_0_l;
    destruct (Z.testbit crc_poly i), (Z.testbit (a ≫ 1) i), (Z.testbit (b ≫ 1) i); done.
Qed.

Lemma crc_steps_lxor n a b :
  crc_steps n (Z.lxor a b) = Z.lxor (crc_steps n a) (crc_steps n b).
Proof. revert a b. induction n as [|n IH]; intros; [done|]. simpl. by rewrite crc_step_lxor. Qed.

Lemma crc_steps_add n m c : crc_steps (n + m) c = crc_steps m (crc_steps n c).
Proof. revert c. induction n as [|n IH]; intros; simpl; auto. Qed.

(** Zero bits shift straight through. *)
Lemma crc_steps_shiftl n v : crc_steps n (v ≪ Z.of_nat n) = v.
Proof.
  revert v. induction n as [|n IH]; intros v; [apply Z.shiftl_0_r|]. simpl.
  rewrite crc_step_odd, <-Z.bit0_odd, Z.shiftl_spec_low by lia.
  rewrite Z.lxor_0_l, Z.shiftr_shiftl_l by lia.
  replace (Z.of_nat (S n) - 1) with (Z.of_nat n) by lia. apply IH.
Qed.

Lemma split_low_byte x : x = Z.lxor (Z.land x 0xFF) ((x ≫ 8) ≪ 8).
Proof.
  apply Z.bits_inj_iff'. intros i Hi. change 0xFF with (Z.ones 8).
  rewrite Z.lxor_spec, Z.land_spec, Z.shiftl_spec by lia.
  destruct (decide (i < 8)).
  - rewrite Z.ones_spec_low, (Z.testbit_neg_r _ (i - 8)) by lia.
    by rewrite andb_true_r, xorb_false_r.
  - rewrite Z.ones_spec_high, Z.shiftr_spec by lia.
    replace (i - 8 + 8) with i by lia. by rewrite andb_false_r.
Qed.

Lemma shiftr_byte b : byte_ok b → b ≫ 8 = 0.
Proof. intros. rewrite Z.shiftr_div_pow2 by lia. by apply Z.div_small. Qed.

(** ** The lookup table *)

Lemma crc_table_eq : k_crc32c_table = make_crc32c_table.
Proof. vm_compute. reflexivity. Qed.

Lemma crc_table_lookup i :
  byte_ok i → nth (Z.to_nat i) k_crc32c_table 0 = crc_steps 8 i.
Proof.
  intros Hi. unfold byte_ok in Hi. rewrite crc_table_eq. unfold make_crc32c_table.
  apply nth_lookup_Some. rewrite list_lookup_fmap.
  rewrite lookup_seqZ_lt by lia. by rewrite Z2Nat.id, Z.add_0_l by lia.
Qed.

Lemma land_byte x : byte_ok (Z.land x 0xFF).
Proof.
  change 0xFF with (Z.ones 8). rewrite Z.land_ones by lia.
  apply Z.mod_pos_bound. lia.
Qed.

Lemma crc_byte_equiv crc b : byte_ok b → crc_byte crc b = crc_byte_ref crc b.
Proof.
  intros Hb. unfold crc_byte, crc_byte_ref.
  rewrite crc_table_lookup by apply land_byte.
  rewrite (split_low_byte (Z.lxor crc b)) at 2. rewrite crc_steps_lxor.
  change (crc_steps 8 (_ ≪ 8)) with
    (crc_steps 8 ((Z.lxor crc b ≫ 8) ≪ Z.of_nat 8)).
  rewrite crc_steps_shiftl, Z.shiftr_lxor, (shiftr_byte b), Z.lxor_0_r by done. done.
Qed.

Lemma foldl_crc_equiv data s :
  bytes_ok data → foldl crc_byte s data = foldl crc_byte_ref s data.
Proof.
  intros H. revert s. induction H as [|b data Hb _ IH]; intros s; [done|].
  simpl. by rewrite crc_byte_equiv.
Qed.

(** ** The register is a bijection of 32-bit states *)

Lemma lxor_u32 a b : in_u 32 a → in_u 32 b → in_u 32 (Z.lxor a b).
Proof.
  unfold in_u. intros Ha Hb.
  assert (0 ≤ Z.lxor a b) by (apply Z.lxor_nonneg; lia).
  apply Z.bounded_iff_bits_nonneg'; [lia..|]. intros i Hi. rewrite Z.lxor_spec.
  rewrite Z.bounded_iff_bits_nonneg' in Ha by lia.
  rewrite Z.bounded_iff_bits_nonneg' in Hb by lia.
  by rewrite Ha, Hb.
Qed.

Lemma crc_step_u32 c : in_u 32 c → in_u 32 (crc_step c).
Proof.
  intros Hc. rewrite crc_step_odd. apply lxor_u32; unfold in_u in *.
  - destruct (Z.odd c); unfold crc_poly; lia.
  - rewrite Z.shiftr_div_pow2 by lia. split; [apply Z.div_pos; lia|].
    apply Z.div_lt_upper_bound; lia.
Qed.

Lemma crc_steps_u32 n c : in_u 32 c → in_u 32 (crc_steps n c).
Proof. revert c. induction n; intros; simpl; eauto using crc_step_u32. Qed.

Lemma crc_step_zero c : in_u 32 c → crc_step c = 0 → c = 0.
Proof.
  unfold in_u. intros Hc. rewrite crc_step_odd. intros H0.
  apply Z.lxor_eq in H0. rewrite Z.shiftr_div_pow2 in H0 by lia.
  pose proof (Z.div_mod c 2 ltac:(lia)) as Hdm. change (2 ^ 1) with 2 in H0.
  rewrite Zmod_odd in Hdm. unfold crc_poly in H0. destruct (Z.odd c); lia.
Qed.

Lemma crc_steps_zero n c : in_u 32 c → crc_steps n c = 0 → c = 0.
Proof.
  revert c. induction n as [|n IH]; intros c Hc H0; [done|].
  apply crc_step_zero; [done|]. apply IH; [by apply crc_step_u32|done].
Qed.

Lemma crc_steps_inj n a b :
  in_u 32 a → in_u 32 b → crc_steps n a = crc_steps n b → a = b.
Proof.
  intros Ha Hb Hab. apply Z.lxor_eq. apply (crc_steps_zero n); [by apply lxor_u32|].
  by rewrite crc_steps_lxor, Hab, Z.lxor_nilpotent.
Qed.

(** [m] bytes move the register as if their little-endian value were xored in at once. *)
Lemma foldl_crc_block m s :
  bytes_ok m →
  foldl crc_byte_ref s m = crc_steps (8 * length m) (Z.lxor s (le_value m)).
Proof.
  intros H. revert s. induction H as [|b m Hb Hm IH]; intros s.
  { simpl. by rewrite Z.lxor_0_r. }
  simpl length. rewrite Nat.mul_succ_r, Nat.add_comm, crc_steps_add.
  cbn [foldl]. rewrite IH. f_equal.
  assert (le_value (b :: m) = Z.lxor b (le_value m ≪ 8)) as ->.
  { unfold le_value. simpl. apply Z.bits_inj_iff'. intros i Hi.
    rewrite Z.lor_spec, Z.lxor_spec, Z.shiftl_spec by lia.
    destruct (decide (i < 8)).
    - rewrite (Z.testbit_neg_r _ (i - 8)) by lia. by destruct (Z.testbit b i).
    - assert (Z.testbit b i = false) as ->; [|done].
      unfold byte_ok in Hb. apply (Z.bounded_iff_bits_nonneg 8); lia. }
  rewrite <-Z.lxor_assoc, crc_steps_lxor.
  change (le_value m ≪ 8) with (le_value m ≪ Z.of_nat 8).
  by rewrite crc_steps_shiftl.
Qed.

Lemma foldl_crc_u32 m s : bytes_ok m → in_u 32 s → in_u 32 (foldl crc_byte_ref s m).
Proof.
  intros H. revert s. induction H as [|b m Hb _ IH]; intros s Hs; [done|].
  simpl. apply IH. apply crc_steps_u32, lxor_u32; [done|].
  unfold byte_ok, in_u in *. lia.
Qed.

Lemma foldl_crc_inj m s s' :
  bytes_ok m → in_u 32 s → in_u 32 s' →
  foldl crc_byte_ref s m = foldl crc_byte_ref s' m → s = s'.
Proof.
  intros H. revert s s'. induction H as [|b m Hb _ IH]; intros s s' Hs Hs' Heq; [done|].
  assert (in_u 32 b) by (unfold byte_ok, in_u in *; lia).
  simpl in Heq. apply IH in Heq; [|apply crc_steps_u32, lxor_u32; done..].
  apply crc_steps_inj in Heq; [|by apply lxor_u32..].
  apply (f_equal (λ z, Z.lxor z b)) in Heq.
  by rewrite !Z.lxor_assoc, Z.lxor_nilpotent, !Z.lxor_0_r in Heq.
Qed.

Lemma le_value_inj m m' :
  bytes_ok m → bytes_ok m' → length m = length m' → le_value m = le_value m' → m = m'.
Proof.
  intros Hm Hm' Hlen Heq. rewrite <-(le_bytes_value m), <-(le_bytes_value m') by done.
  by rewrite Hlen, Heq.
Qed.

Lemma le_value_u32 m : bytes_ok m → (length m ≤ 4)%nat → in_u 32 (le_value m).
Proof.
  intros Hm Hlen. pose proof (little_endian_to_Z_bound 8 m ltac:(lia) Hm) as Hb.
  unfold in_u, le_value. split; [lia|]. eapply Z.lt_le_trans; [apply Hb|].
  apply Z.pow_le_mono_r; lia.
Qed.

Lemma crc32c_u32 data : bytes_ok data → in_u 32 (crc32c data).
Proof.
  intros H. unfold crc32c. rewrite foldl_crc_equiv by done.
  apply lxor_u32; [done|]. by apply foldl_crc_u32.
Qed.

(** The table-driven [crc32c] computes the bit-serial CRC-32C of the same bytes, for
    every message. *)
Theorem crc32c_equiv data : bytes_ok data → crc32c data = crc32c_ref data.
Proof. intros. unfold crc32c, crc32c_ref. by rewrite foldl_crc_equiv. Qed.

Lemma crc32c_burst_aux pre m m' post :
  bytes_ok pre → bytes_ok m → bytes_ok m' → bytes_ok post →
  length m = length m' → (length m ≤ 4)%nat → m ≠ m' →
  crc32c (pre ++ m ++ post) ≠ crc32c (pre ++ m' ++ post).
Proof.
  intros Hpre Hm Hm' Hpost Hlen H4 Hne Heq. apply Hne. unfold crc32c in Heq.
  apply (f_equal (Z.lxor 0xFFFFFFFF)) in Heq.
  rewrite <-!Z.lxor_assoc, !Z.lxor_nilpotent, !Z.lxor_0_l in Heq.
  rewrite !foldl_crc_equiv in Heq by by repeat apply Forall_app_2.
  rewrite !foldl_app in Heq.
  set (s := foldl crc_byte_ref 0xFFFFFFFF pre) in Heq.
  assert (in_u 32 s) by (by apply foldl_crc_u32).
  apply foldl_crc_inj in Heq; [|by try apply foldl_crc_u32..].
  rewrite !foldl_crc_block, <-Hlen in Heq by done.
  assert (in_u 32 (le_value m)) by (by apply le_value_u32).
  assert (in_u 32 (le_value m')) by (apply le_value_u32; [done|lia]).
  apply crc_steps_inj in Heq; [|by apply lxor_u32..].
  apply (f_equal (Z.lxor s)) in Heq.
  rewrite <-!Z.lxor_assoc, !Z.lxor_nilpotent, !Z.lxor_0_l in Heq.
  by apply le_value_inj.
Qed.

(** A corruption confined to four consecutive bytes always changes the digest: two
    messages of equal length that differ only inside one such window never share a CRC. *)
Theorem crc32c_burst pre m m' post :
  bytes_ok pre → bytes_ok m → bytes_ok m' → bytes_ok post →
  length m = length m' → (length m ≤ 4)%nat → m ≠ m' →
  crc32c (pre ++ m ++ post) ≠ crc32c (pre ++ m' ++ post).
Proof. apply crc32c_burst_aux. Qed.

Lemma crc32c_equiv_witness :
  bytes_ok [1; 2; 3] ∧ crc32c [1; 2; 3] = crc32c_ref [1; 2; 3].
Proof.
  assert (bytes_ok [1; 2; 3]) as H by (repeat constructor; lia).
  split; [exact H|exact (crc32c_equiv [1; 2; 3] H)].
Defined.

Lemma crc32c_burst_witness :
  crc32c ([7] ++ [1; 2; 3; 4] ++ [9]) ≠ crc32c ([7] ++ [1; 2; 3; 5] ++ [9]).
Proof.
  apply (crc32c_burst [7] [1; 2; 3; 4] [1; 2; 3; 5] [9]);
    [repeat constructor; lia..|reflexivity|simpl; lia|discriminate].
Defined.
