(* ===== verification/Wire.v ===== *)
(** * craft_wire: framing and message bodies

    src/wire.cpp and the non-struct part of include/craft/wire.hpp: the op-code table,
    [frame_message] and [parse_message], the variable-length bodies (members, dLSN lists,
    extent tables), [plan_scatter] and [framed_body_max].

    A [std::span<uint8_t const>] is the list of its bytes; [buf.subspan(off, n)] is
    [subspan off n buf].  Sizes ([size_t], 64 bits) are [nat]: every sum the parser forms
    is at most a few dozen bytes more than a 32-bit length. *)

From S2P Require Import Prelude Codec WireTypes Crc.

Local Open Scope craft_scope.

(** ** Op codes *)

(** [enum class op : uint8_t]. *)
Inductive op :=
| login | op_login_rsp | helo | helo_rsp | write | op_write_rsp | read | op_read_rsp
| keepalive | op_keepalive_rsp | logout | logout_rsp | resolve | op_resolve_rsp
| create_volume | create_volume_rsp | get_rs_commit_lsn | op_get_rs_commit_lsn_rsp
| fetch_data | op_fetch_data_rsp.

Definition op_code (o : op) : Z :=
  match o with
  | login => 1 | op_login_rsp => 2 | helo => 3 | helo_rsp => 4 | write => 5
  | op_write_rsp => 6 | read => 7 | op_read_rsp => 8 | keepalive => 9
  | op_keepalive_rsp => 10 | logout => 11 | logout_rsp => 12 | resolve => 13
  | op_resolve_rsp => 14 | create_volume => 15 | create_volume_rsp => 16
  | get_rs_commit_lsn => 17 | op_get_rs_commit_lsn_rsp => 18 | fetch_data => 19
  | op_fetch_data_rsp => 20
  end%Z.

Definition k_max_op : Z := 20.

(** The table [k] of [op_hdr_size], indexed by op code. *)
Definition op_hdr_table : list nat :=
  [0;
   csize login_req_codec; csize login_rsp_codec;
   csize helo_req_codec; 0;
   csize write_req_codec; csize write_rsp_codec;
   csize read_req_codec; csize read_rsp_codec;
   csize keepalive_req_codec; csize keepalive_rsp_codec;
   csize logout_req_codec; 0;
   csize resolve_req_codec; csize resolve_rsp_codec;
   csize volume_create_req_codec; 0;
   csize get_rs_commit_lsn_req_codec; csize get_rs_commit_lsn_rsp_codec;
   csize fetch_data_req_codec; csize fetch_data_rsp_codec].

Definition op_hdr_size (op_code : Z) : option nat :=
  if (op_code <? 1)%Z || (k_max_op <? op_code)%Z then None
  else op_hdr_table !! Z.to_nat op_code.

Definition is_response (op_code : Z) : bool :=
  (1 <=? op_code)%Z && (op_code <=? k_max_op)%Z && (op_code `mod` 2 =? 0)%Z.

Definition op_allows_body (c : Z) : bool :=
  (c =? op_code write)%Z || (c =? op_code op_login_rsp)%Z || (c =? op_code op_read_rsp)%Z ||
  (c =? op_code op_resolve_rsp)%Z || (c =? op_code create_volume)%Z ||
  (c =? op_code fetch_data)%Z || (c =? op_code op_fetch_data_rsp)%Z.

(** [enum class status : uint8_t]; a received byte outside the enumerators is kept. *)
Inductive status :=
| st_ok | st_stale_term | st_not_leader | st_no_quorum | st_wrong_token
| st_not_eligible | st_replica_down | st_invalid_argument | st_internal
| st_other (b : Z).

Definition status_byte (s : status) : Z :=
  match s with
  | st_ok => 0 | st_stale_term => 1 | st_not_leader => 2 | st_no_quorum => 3
  | st_wrong_token => 4 | st_not_eligible => 5 | st_replica_down => 6
  | st_invalid_argument => 7 | st_internal => 255 | st_other b => b
  end%Z.

(** [static_cast<wire::status>(byte)]. *)
Definition status_of_byte (b : Z) : status :=
  match b with
  | 0 => st_ok | 1 => st_stale_term | 2 => st_not_leader | 3 => st_no_quorum
  | 4 => st_wrong_token | 5 => st_not_eligible | 6 => st_replica_down
  | 7 => st_invalid_argument | 255 => st_internal | _ => st_other b
  end%Z.

(** ** Framing *)

Definition subspan (off n : nat) (buf : list Z) : list Z := take n (drop off buf).

(** [struct digest_cfg]. *)
Record digest_cfg := Mk_digest_cfg { dg_header : bool; dg_data : bool }.
Definition no_digest : digest_cfg := Mk_digest_cfg false false.

Inductive parse_error := incomplete | unknown_op | bad_length | bad_digest.

(** [struct message]: the spans are the bytes they denote. *)
Record message := Mk_message {
  m_hdr : msg_hdr;
  m_op_header : list Z;
  m_body : list Z;
  m_total : nat;
}.

(** Length in bytes of an optional 32-bit digest. *)
Definition digest_len (on : bool) : nat := if on then 4 else 0.

Definition parse_message (buf : list Z) (max_tx : Z) (dg : digest_cfg) :
    result parse_error message :=
  if decide (length buf < csize msg_hdr_codec) then Err incomplete
  else
    let hdr := dec msg_hdr_codec buf in
    match op_hdr_size (mh_op hdr) with
    | None => Err unknown_op
    | Some ohs =>
        if decide (max_tx < mh_body_len hdr)%Z then Err bad_length
        else if (0 <? mh_body_len hdr)%Z && negb (op_allows_body (mh_op hdr))
        then Err bad_length
        else
          let blen := Z.to_nat (mh_body_len hdr) in
          let hdr_end := csize msg_hdr_codec + ohs in
          let body_start := hdr_end + digest_len (dg_header dg) in
          let total := body_start + blen + digest_len (dg_data dg) in
          if decide (length buf < total) then Err incomplete
          else if dg_header dg &&
                  negb (le_value (subspan hdr_end 4 buf) =? crc32c (subspan 0 hdr_end buf))%Z
          then Err bad_digest
          else if dg_data dg &&
                  negb (le_value (subspan (body_start + blen) 4 buf) =?
                        crc32c (subspan body_start blen buf))%Z
          then Err bad_digest
          else Ok (Mk_message hdr (subspan (csize msg_hdr_codec) ohs buf)
                     (subspan body_start blen buf) total)
    end.

(** [wire::put(out, v)] appends the struct's bytes. *)
Definition put {A} (c : codec A) (out : list Z) (v : A) : list Z := out ++ enc c v.

Definition frame_message (out : list Z) (o : op) (status_code request_id : Z)
    (op_header body : list Z) (dg : digest_cfg) : list Z :=
  let h := Mk_msg_hdr (op_code o) status_code request_id (u32 (Z.of_nat (length body))) in
  let start := length out in
  let out := put msg_hdr_codec out h in
  let out := out ++ op_header in
  let out :=
    if dg_header dg
    then put cu32 out (crc32c (subspan start (length out - start) out)) else out in
  let out := out ++ body in
  if dg_data dg then put cu32 out (crc32c body) else out.

(** ** Variable-length bodies *)

(** [struct member]: a replica endpoint in a member list. *)
Record member := Mk_member { wm_id : list Z; wm_addr : list Z }.

Definition put_member (out : list Z) (m : member) : list Z :=
  let out := out ++ wm_id m in
  let out := put cu16 out (u16 (Z.of_nat (length (wm_addr m)))) in
  out ++ wm_addr m.

(** The loop of [decode_members]; [off] is the read offset, [out] the members so far. *)
Fixpoint decode_members_from (body : list Z) (count : nat) (off : nat) (out : list member) :
    option (list member) :=
  match count with
  | O => Some out
  | S count =>
      if decide (length body < off + 16 + csize cu16) then None
      else
        let id := subspan off 16 body in
        let off := off + 16 in
        let alen := Z.to_nat (dec cu16 (drop off body)) in
        let off := off + csize cu16 in
        if decide (length body < off + alen) then None
        else decode_members_from body count (off + alen)
               (out ++ [Mk_member id (subspan off alen body)])
  end.

Definition decode_members (body : list Z) (count : Z) : option (list member) :=
  decode_members_from body (Z.to_nat count) 0 [].

Definition decode_lsns (body : list Z) (count : Z) : option (list Z) :=
  if decide (Z.of_nat (length body) < count * 8)%Z then None
  else Some (dec_array cint64 (Z.to_nat count) body).

Definition decode_extents (body : list Z) (count : Z) : option (list extent_desc) :=
  if decide (Z.of_nat (length body) < count * Z.of_nat (csize extent_desc_codec))%Z then None
  else Some (dec_array extent_desc_codec (Z.to_nat count) body).

(** [struct scatter_plan]: destination offset and length of every data extent and hole. *)
Record scatter_plan := Mk_scatter_plan {
  sp_data : list (Z * Z);
  sp_holes : list (Z * Z);
  sp_ok : bool;
}.

(** The loop of [plan_scatter] over the extents; [uint64_t] sums wrap. *)
Fixpoint plan_scatter_from (extents : list extent_desc) (req_addr req_end : Z)
    (p : scatter_plan) : scatter_plan :=
  match extents with
  | [] => Mk_scatter_plan (sp_data p) (sp_holes p) true
  | e :: es =>
      let e_end := u64 (ed_addr e + ed_len e) in
      if (e_end <? ed_addr e)%Z || (ed_addr e <? req_addr)%Z || (req_end <? e_end)%Z then p
      else
        let off := (ed_addr e - req_addr)%Z in
        let p :=
          if (ed_hole e =? 0)%Z
          then Mk_scatter_plan (sp_data p ++ [(off, ed_len e)]) (sp_holes p) (sp_ok p)
          else Mk_scatter_plan (sp_data p) (sp_holes p ++ [(off, ed_len e)]) (sp_ok p) in
        plan_scatter_from es req_addr req_end p
  end.

Definition plan_scatter (extents : list extent_desc) (req_addr req_len : Z) : scatter_plan :=
  plan_scatter_from extents req_addr (u64 (req_addr + req_len)) (Mk_scatter_plan [] [] false).

(** [constexpr uint32_t framed_body_max(uint32_t payload, uint32_t lba)]. *)
Definition framed_body_max (payload lba : Z) : Z :=
  let blocks := if (lba =? 0)%Z then 0%Z else (u32 (payload + lba - 1) `div` lba)%Z in
  u32 (payload + u32 (blocks * Z.of_nat (csize extent_desc_codec))).

Definition k_default_max_tx : Z := 512 * 1024.

(** ** Framing: the parser inverts the framer *)

Lemma op_code_bound o : (1 ≤ op_code o ≤ 20)%Z.
Proof. destruct o; simpl; lia. Qed.

Lemma op_hdr_size_total c : (1 ≤ c ≤ 20)%Z → is_Some (op_hdr_size c).
Proof.
  intros Hc. unfold op_hdr_size, k_max_op.
  assert ((c <? 1) || (20 <? c) = false)%Z as -> by lia.
  apply lookup_lt_is_Some. simpl. lia.
Qed.

Lemma u32_length (l : list Z) n :
  (Z.of_nat (length l) ≤ n)%Z → in_u 32 n → u32 (Z.of_nat (length l)) = Z.of_nat (length l).
Proof. intros. apply wrap_small. unfold in_u in *. lia. Qed.

(** The parts a frame is made of. *)
Definition frame_hdr (o : op) (st rid : Z) (body : list Z) : msg_hdr :=
  Mk_msg_hdr (op_code o) st rid (Z.of_nat (length body)).

Definition opt_digest (on : bool) (bs : list Z) : list Z :=
  if on then enc cu32 (crc32c bs) else [].

Lemma frame_message_parts out o st rid oh body dg n :
  (Z.of_nat (length body) ≤ n)%Z → in_u 32 n →
  frame_message out o st rid oh body dg =
  out ++ let hb := enc msg_hdr_codec (frame_hdr o st rid body) ++ oh in
         hb ++ opt_digest (dg_header dg) hb ++ body ++ opt_digest (dg_data dg) body.
Proof.
  intros Hb Hn. unfold frame_message, put. rewrite (u32_length _ n) by done.
  fold (frame_hdr o st rid body). cbv zeta.
  set (eh := enc msg_hdr_codec (frame_hdr o st rid body)).
  assert (subspan (length out) (length ((out ++ eh) ++ oh) - length out) ((out ++ eh) ++ oh)
          = eh ++ oh) as ->.
  { unfold subspan. rewrite <-(assoc_L (++)), drop_app_length.
    rewrite take_ge; [done|]. rewrite !length_app. lia. }
  destruct dg as [[] []]; simpl; by rewrite ?app_nil_r, <-?(assoc_L (++)).
Qed.

Lemma length_opt_digest on bs : length (opt_digest on bs) = digest_len on.
Proof. destruct on; [apply length_le_bytes|done]. Qed.

Lemma opt_digest_value bs : bytes_ok bs → le_value (opt_digest true bs) = crc32c bs.
Proof.
  intros H. change (opt_digest true bs) with (le_bytes 4 (crc32c bs)).
  rewrite le_value_bytes. apply Z.mod_small.
  by apply crc32c_u32.
Qed.

Lemma opt_digest_matches on bs :
  bytes_ok bs → on && negb (le_value (opt_digest on bs) =? crc32c bs)%Z = false.
Proof. intros. destruct on; [|done]. by rewrite opt_digest_value, Z.eqb_refl. Qed.

Section framed.
(** A well-formed message: its operation header has the op's size, its body fits the
    transfer limit and is only present where the op carries one. *)
Context (o : op) (st rid : Z) (oh body : list Z) (dg : digest_cfg) (max_tx : Z).
Context (Hoh : op_hdr_size (op_code o) = Some (length oh)).
Context (Hst : byte_ok st) (Hrid : in_u 16 rid).
Context (Hohb : bytes_ok oh) (Hbb : bytes_ok body).
Context (Hmax : (Z.of_nat (length body) ≤ max_tx)%Z) (Hmax32 : in_u 32 max_tx).
Context (Hallow : body = [] ∨ op_allows_body (op_code o) = true).

Local Abbreviation hdr := (frame_hdr o st rid body).
Local Abbreviation hb := (enc msg_hdr_codec hdr ++ oh).

Lemma frame_hdr_valid : cvalid msg_hdr_codec hdr.
Proof.
  pose proof (op_code_bound o). unfold byte_ok, in_u in *.
  simpl. unfold in_u. simpl. repeat split; try lia.
Qed.

Lemma length_hb : length hb = csize msg_hdr_codec + length oh.
Proof.
  rewrite length_app, enc_length; [done|apply frame_hdr_valid].
Qed.

Lemma hb_bytes : bytes_ok hb.
Proof.
  apply Forall_app; split; [apply enc_bytes, frame_hdr_valid|done].
Qed.

(** Where the parser looks for each part. *)
Lemma parse_parts h d rest :
  length h = digest_len (dg_header dg) → length d = digest_len (dg_data dg) →
  parse_message (hb ++ h ++ body ++ d ++ rest) max_tx dg =
  if dg_header dg && negb (le_value h =? crc32c hb)%Z then Err bad_digest
  else if dg_data dg && negb (le_value d =? crc32c body)%Z then Err bad_digest
  else Ok (Mk_message hdr oh body (length (hb ++ h ++ body ++ d))).
Proof.
  intros Hh Hd. unfold parse_message. pose proof length_hb as Hhb.
  rewrite decide_False by (rewrite length_app, Hhb; lia).
  replace (dec msg_hdr_codec (hb ++ h ++ body ++ d ++ rest)) with hdr
    by (rewrite <-(assoc_L (++)); symmetry; apply dec_enc, frame_hdr_valid).
  cbn [mh_op mh_body_len frame_hdr]. rewrite Hoh, decide_False by lia.
  assert (((0 <? Z.of_nat (length body))%Z && negb (op_allows_body (op_code o))) = false) as ->.
  { destruct Hallow as [->| ->]; [done|by rewrite andb_false_r]. }
  cbv zeta. rewrite Nat2Z.id, <-!Hhb, <-Hh, <-Hd.
  rewrite decide_False by (rewrite !length_app; lia).
  unfold subspan. rewrite drop_0, !take_app_length, !drop_app_length.
  rewrite !(assoc_L (++) hb h), <-!length_app.
  replace (drop (length (hb ++ h)) ((hb ++ h) ++ body ++ d ++ rest)) with (body ++ d ++ rest)
    by by rewrite drop_app_length.
  replace (drop (length ((hb ++ h) ++ body)) ((hb ++ h) ++ body ++ d ++ rest)) with (d ++ rest)
    by by rewrite (assoc_L (++) (hb ++ h)), drop_app_length.
  rewrite !take_app_length.
  assert (take (length oh) (drop (csize msg_hdr_codec) ((hb ++ h) ++ body ++ d ++ rest)) = oh) as ->.
  { rewrite <-!(assoc_L (++)), drop_app_length'
      by (symmetry; apply enc_length, frame_hdr_valid).
    by rewrite take_app_length. }
  assert (dg_header dg = true → take 4 (h ++ body ++ d ++ rest) = h) as E1.
  { intros Hon. rewrite Hon in Hh. by apply take_app_length'. }
  assert (dg_data dg = true → take 4 (d ++ rest) = d) as E2.
  { intros Hon. rewrite Hon in Hd. by apply take_app_length'. }
  destruct (dg_header dg), (dg_data dg); simpl;
    rewrite ?E1, ?E2 by done; by rewrite <-!(assoc_L (++)).
Qed.
End framed.

(** ** Framing: what the parser reads *)

Lemma frame_parts_app o st rid oh body dg max_tx rest :
  (Z.of_nat (length body) ≤ max_tx)%Z → in_u 32 max_tx →
  frame_message [] o st rid oh body dg ++ rest =
  let hb := enc msg_hdr_codec (frame_hdr o st rid body) ++ oh in
  hb ++ opt_digest (dg_header dg) hb ++ body ++ opt_digest (dg_data dg) body ++ rest.
Proof.
  intros. rewrite (frame_message_parts _ _ _ _ _ _ _ max_tx) by done.
  rewrite app_nil_l. cbv zeta. by rewrite <-!(assoc_L (++)).
Qed.

(** More bytes never change an answer other than [incomplete]. *)
Lemma parse_message_extend buf more max_tx dg :
  parse_message buf max_tx dg ≠ Err incomplete →
  parse_message (buf ++ more) max_tx dg = parse_message buf max_tx dg.
Proof.
  unfold parse_message. destruct (decide (length buf < csize msg_hdr_codec)) as [|Hlen]; [done|].
  apply Nat.nlt_ge in Hlen.
  rewrite decide_False by (rewrite length_app; lia).
  assert (dec msg_hdr_codec (buf ++ more) = dec msg_hdr_codec buf) as ->.
  { change (csize msg_hdr_codec) with 8 in Hlen. do 8 (destruct buf as [|? buf]; [simpl in Hlen; lia|]). done. }
  destruct (op_hdr_size _) as [ohs|]; [|done].
  case_decide; [done|]. destruct (_ && _); [done|].
  cbv zeta. set (tot := _ + digest_len (dg_data dg)).
  destruct (decide (length buf < tot)) as [|Htot]; [done|]. apply Nat.nlt_ge in Htot.
  rewrite decide_False by (rewrite length_app; lia). intros _. subst tot.
  assert (∀ off n, off + n ≤ length buf → subspan off n (buf ++ more) = subspan off n buf) as Hsub.
  { intros off n Hle. unfold subspan. rewrite drop_app_le by lia.
    apply take_app_le. rewrite length_drop. lia. }
  destruct (dg_header dg), (dg_data dg); cbn [digest_len andb] in *;
    by rewrite !Hsub by lia.
Qed.

Lemma parse_message_total buf max_tx dg m :
  parse_message buf max_tx dg = Ok m → m_total m ≤ length buf.
Proof.
  unfold parse_message. intros H. repeat case_match; try discriminate.
  match type of H with Ok ?x = _ => assert (m = x) as -> by congruence end.
  cbn [m_total]. lia.
Qed.

(** A message is the prefix of its length, and longer than its fixed header. *)
Lemma parse_message_take buf max_tx dg m :
  parse_message buf max_tx dg = Ok m →
  csize msg_hdr_codec ≤ m_total m ∧ parse_message (take (m_total m) buf) max_tx dg = Ok m.
Proof.
  intros H. pose proof (parse_message_total _ _ _ _ H) as Hle.
  assert (csize msg_hdr_codec ≤ m_total m ∧ parse_message (take (m_total m) buf) max_tx dg ≠ Err incomplete) as [Hs Hn].
  2:{ split; [done|]. by rewrite <-(parse_message_extend _ (drop (m_total m) buf) _ _ Hn), take_drop. }
  assert (length (take (m_total m) buf) = m_total m) as Hl by (rewrite length_take; lia).
  unfold parse_message in *. rewrite Hl. destruct (decide (length buf < csize msg_hdr_codec)) as [|Hlen]; [done|].
  assert (csize msg_hdr_codec ≤ m_total m) as Hs.
  { repeat case_match; try discriminate. match type of H with Ok ?x = _ => assert (m = x) as -> by congruence end. cbn [m_total]. lia. }
  split; [done|]. rewrite decide_False by lia.
  assert (dec msg_hdr_codec (take (m_total m) buf) = dec msg_hdr_codec buf) as ->.
  { set (n := m_total m) in *. clearbody n. change (csize msg_hdr_codec) with 8 in *.
    do 8 (destruct buf as [|? buf]; [simpl in Hlen; lia|]; destruct n as [|n]; [lia|]). done. }
  destruct (op_hdr_size _) as [ohs|]; [|done]. case_decide; [done|]. destruct (_ && _); [done|]. cbv zeta in H |- *.
  case_decide; [done|]. destruct (_ && _); [done|]. destruct (_ && _); [done|].
  match type of H with Ok ?x = _ => assert (m = x) as -> by congruence end. cbn [m_total]. rewrite decide_False by lia. by repeat case_match.
Qed.

Lemma parse_frame_message_aux o st rid oh body dg max_tx rest :
  op_hdr_size (op_code o) = Some (length oh) →
  byte_ok st → in_u 16 rid → bytes_ok oh → bytes_ok body →
  (Z.of_nat (length body) ≤ max_tx)%Z → in_u 32 max_tx →
  (body = [] ∨ op_allows_body (op_code o) = true) →
  parse_message (frame_message [] o st rid oh body dg ++ rest) max_tx dg =
  Ok (Mk_message (frame_hdr o st rid body) oh body
        (length (frame_message [] o st rid oh body dg))).
Proof.
  intros Hoh Hst Hrid Hohb Hbb Hmax Hmax32 Hallow.
  rewrite (frame_parts_app _ _ _ _ _ _ max_tx), parse_parts
    by (done || apply length_opt_digest).
  rewrite <-(app_nil_r (frame_message _ _ _ _ _ _ _)), (frame_parts_app _ _ _ _ _ _ max_tx) by done.
  cbv zeta. rewrite app_nil_r.
  by rewrite !opt_digest_matches by (done || by eapply hb_bytes).
Qed.

(** C33: framing is a round trip on a stream: whatever follows a framed message in the
    receive buffer, and whichever digests the connection carries, [parse_message]
    returns exactly the op, status, request id, operation header and body that
    [frame_message] was given, and its [total] is the frame's length. *)
Theorem parse_frame_message o st rid oh body dg max_tx rest :
  op_hdr_size (op_code o) = Some (length oh) →
  byte_ok st → in_u 16 rid → bytes_ok oh → bytes_ok body →
  (Z.of_nat (length body) ≤ max_tx)%Z → in_u 32 max_tx →
  (body = [] ∨ op_allows_body (op_code o) = true) →
  parse_message (frame_message [] o st rid oh body dg ++ rest) max_tx dg =
  Ok (Mk_message (frame_hdr o st rid body) oh body
        (length (frame_message [] o st rid oh body dg))).
Proof. apply parse_frame_message_aux. Qed.

Lemma parse_frame_prefix_aux o st rid oh body dg max_tx buf rest :
  op_hdr_size (op_code o) = Some (length oh) →
  byte_ok st → in_u 16 rid → bytes_ok oh → bytes_ok body →
  (Z.of_nat (length body) ≤ max_tx)%Z → in_u 32 max_tx →
  (body = [] ∨ op_allows_body (op_code o) = true) →
  frame_message [] o st rid oh body dg = buf ++ rest → rest ≠ [] →
  parse_message buf max_tx dg = Err incomplete.
Proof.
  intros Hoh Hst Hrid Hohb Hbb Hmax Hmax32 Hallow Hbuf Hrest.
  pose proof (parse_frame_message_aux o st rid oh body dg max_tx []
                Hoh Hst Hrid Hohb Hbb Hmax Hmax32 Hallow) as Hrt.
  rewrite app_nil_r, Hbuf in Hrt.
  destruct (parse_message buf max_tx dg) as [m|e] eqn:Hp.
  - rewrite (parse_message_extend buf rest max_tx dg), Hp in Hrt by by rewrite Hp.
    injection Hrt as ->.
    apply parse_message_total in Hp. cbn [m_total] in Hp. rewrite length_app in Hp.
    destruct rest; [done|simpl in *; lia].
  - destruct e; [done| |..];
      rewrite (parse_message_extend buf rest max_tx dg), Hp in Hrt by (by rewrite Hp); done.
Qed.

(** A partial frame is never misread: every proper prefix of a framed message parses
    as [incomplete], so the receive loop keeps reading instead of acting on it. *)
Theorem parse_frame_prefix o st rid oh body dg max_tx buf rest :
  op_hdr_size (op_code o) = Some (length oh) →
  byte_ok st → in_u 16 rid → bytes_ok oh → bytes_ok body →
  (Z.of_nat (length body) ≤ max_tx)%Z → in_u 32 max_tx →
  (body = [] ∨ op_allows_body (op_code o) = true) →
  frame_message [] o st rid oh body dg = buf ++ rest → rest ≠ [] →
  parse_message buf max_tx dg = Err incomplete.
Proof. apply parse_frame_prefix_aux. Qed.

(** The data digest protects the payload: a message framed with a data digest whose
    body is altered in flight inside a window of at most four bytes is rejected with
    [bad_digest], never delivered. *)
Theorem parse_corrupt_body o st rid oh pre m m' post hdg max_tx rest :
  op_hdr_size (op_code o) = Some (length oh) →
  byte_ok st → in_u 16 rid → bytes_ok oh →
  bytes_ok pre → bytes_ok m → bytes_ok m' → bytes_ok post →
  length m = length m' → length m ≤ 4 → m ≠ m' →
  let body := pre ++ m ++ post in
  let body' := pre ++ m' ++ post in
  let dg := Mk_digest_cfg hdg true in
  let hb := enc msg_hdr_codec (frame_hdr o st rid body) ++ oh in
  (Z.of_nat (length body) ≤ max_tx)%Z → in_u 32 max_tx →
  op_allows_body (op_code o) = true →
  frame_message [] o st rid oh body dg =
    hb ++ opt_digest hdg hb ++ body ++ opt_digest true body ∧
  parse_message (hb ++ opt_digest hdg hb ++ body' ++ opt_digest true body ++ rest) max_tx dg =
    Err bad_digest.
Proof.
  intros Hoh Hst Hrid Hohb Hpre Hm Hm' Hpost Hlen H4 Hne body body' dg hb Hmax Hmax32 Hallow.
  split; [by rewrite (frame_message_parts _ _ _ _ _ _ _ max_tx)|].
  assert (length body' = length body) as Hl by (unfold body, body'; rewrite !length_app; lia).
  assert (bytes_ok body) by by repeat apply Forall_app_2.
  assert (bytes_ok body') by by repeat apply Forall_app_2.
  assert (hb = enc msg_hdr_codec (frame_hdr o st rid body') ++ oh) as Hhb
    by (unfold hb, frame_hdr; by rewrite Hl).
  rewrite Hhb, parse_parts; try done;
    [|rewrite Hl; done|by right|apply length_opt_digest..].
  cbn [dg dg_header dg_data]. rewrite opt_digest_matches by (rewrite <-Hhb; by eapply hb_bytes).
  rewrite opt_digest_value by done.
  assert ((crc32c body =? crc32c body')%Z = false) as ->; [|done].
  apply Z.eqb_neq. by apply crc32c_burst_aux.
Qed.

(** ** Member lists *)

Definition member_ok (m : member) : Prop :=
  length (wm_id m) = 16 ∧ in_u 16 (Z.of_nat (length (wm_addr m))).

Definition member_bytes (m : member) : list Z :=
  wm_id m ++ enc cu16 (Z.of_nat (length (wm_addr m))) ++ wm_addr m.

Lemma put_member_app out m : member_ok m → put_member out m = out ++ member_bytes m.
Proof.
  intros [_ Ha]. unfold put_member, put, member_bytes, u16.
  rewrite wrap_small by done. by rewrite <-!(assoc_L (++)).
Qed.

Lemma foldl_put_member out ms :
  Forall member_ok ms → foldl put_member out ms = out ++ (ms ≫= member_bytes).
Proof.
  intros H. revert out. induction H as [|m ms Hm _ IH]; intros out; simpl.
  - by rewrite app_nil_r.
  - by rewrite IH, put_member_app, <-(assoc_L (++)).
Qed.

Lemma length_enc_u16 z : length (enc cu16 z) = 2.
Proof. apply length_le_bytes. Qed.

Lemma decode_members_step body n off out m tl :
  member_ok m → drop off body = member_bytes m ++ tl →
  decode_members_from body (S n) off out =
    decode_members_from body n (off + length (member_bytes m)) (out ++ [m])
  ∧ drop (off + length (member_bytes m)) body = tl.
Proof.
  intros [Hid Ha] Hd.
  assert (length body - off = length (member_bytes m ++ tl)) as Hlen
    by by rewrite <-length_drop, Hd.
  assert (drop (off + 16) body = enc cu16 (Z.of_nat (length (wm_addr m))) ++ wm_addr m ++ tl)
    as Hd16.
  { rewrite <-drop_drop, Hd. unfold member_bytes. rewrite <-!(assoc_L (++)).
    by apply drop_app_length'. }
  assert (drop (off + 16 + 2) body = wm_addr m ++ tl) as Hd18.
  { rewrite <-drop_drop, Hd16. apply drop_app_length'. by rewrite length_enc_u16. }
  split; [|by rewrite <-drop_drop, Hd, drop_app_length].
  unfold member_bytes in Hlen |- *. rewrite !length_app, length_enc_u16 in *.
  cbn [decode_members_from]. change (csize cu16) with 2.
  rewrite decide_False by lia. rewrite Hd16, dec_enc, Nat2Z.id by done.
  rewrite decide_False by lia. unfold subspan. rewrite Hd18, take_app_length, Hd.
  unfold member_bytes. rewrite <-!(assoc_L (++)), take_app_length' by done.
  rewrite Hid. f_equal; [lia|]. by destruct m.
Qed.

Lemma decode_members_from_enc ms body off out rest :
  Forall member_ok ms → drop off body = (ms ≫= member_bytes) ++ rest →
  decode_members_from body (length ms) off out = Some (out ++ ms).
Proof.
  intros H. revert off out. induction H as [|m ms Hm _ IH]; intros off out Hd.
  { by rewrite app_nil_r. }
  change ((m :: ms) ≫= member_bytes) with (member_bytes m ++ (ms ≫= member_bytes)) in Hd.
  rewrite <-(assoc_L (++)) in Hd.
  destruct (decode_members_step body (length ms) off out m _ Hm Hd) as [Hs Hd'].
  cbn [length]. rewrite Hs, (IH _ _ Hd'). by rewrite <-(assoc_L (++)).
Qed.

Lemma decode_members_from_inv body n off out ms :
  bytes_ok body → off ≤ length body →
  decode_members_from body n off out = Some ms →
  ∃ new, ms = out ++ new ∧ length new = n ∧ Forall member_ok new ∧
         ∃ rest, drop off body = (new ≫= member_bytes) ++ rest.
Proof.
  intros Hok. revert off out. induction n as [|n IH]; intros off out Hoff H; simpl in H.
  { injection H as <-. exists []. split; [by rewrite app_nil_r|]. eauto. }
  change (csize cu16) with 2 in H.
  destruct (decide (length body < off + 16 + 2)) as [|H1]; [done|].
  set (alen := dec cu16 (drop (off + 16) body)) in H.
  destruct (decide (length body < off + 16 + 2 + Z.to_nat alen)) as [|H2]; [done|].
  apply IH in H as (new & -> & Hlen & Hnew & rest & Hrest); [|lia].
  set (m := Mk_member (subspan off 16 body) (subspan (off + 16 + 2) (Z.to_nat alen) body)).
  assert (bytes_ok (take 2 (drop (off + 16) body))) as Htk
    by (unfold bytes_ok; by apply Forall_take, Forall_drop).
  assert (length (take 2 (drop (off + 16) body)) = 2) as Htl
    by (rewrite length_take, length_drop; lia).
  assert (in_u 16 alen) as Hal.
  { pose proof (little_endian_to_Z_bound 8 _ ltac:(lia) Htk) as Hb.
    rewrite Htl in Hb. exact Hb. }
  assert (length (wm_addr m) = Z.to_nat alen) as Haddr.
  { simpl. unfold subspan. rewrite length_take, length_drop. lia. }
  assert (member_ok m) as Hmok.
  { split; [simpl; unfold subspan; rewrite length_take, length_drop; lia|].
    rewrite Haddr. unfold in_u in *. lia. }
  exists (m :: new). split; [by rewrite <-(assoc_L (++))|]. split; [simpl; lia|].
  split; [by constructor|]. exists rest.
  change ((m :: new) ≫= member_bytes) with (member_bytes m ++ (new ≫= member_bytes)).
  rewrite <-(assoc_L (++)), <-Hrest. unfold member_bytes at 1.
  assert (enc cu16 (Z.of_nat (length (wm_addr m))) = take 2 (drop (off + 16) body)) as ->.
  { rewrite Haddr, Z2Nat.id by (unfold in_u in Hal; lia).
    change (enc cu16 alen) with (le_bytes 2 (le_value (take 2 (drop (off + 16) body)))).
    rewrite <-Htl at 1. by apply le_bytes_value. }
  simpl. unfold subspan. rewrite <-!(assoc_L (++)).
  rewrite <-(take_drop 16 (drop off body)) at 1. f_equal. rewrite drop_drop.
  rewrite <-(take_drop 2 (drop (off + 16) body)) at 1. f_equal. rewrite drop_drop.
  rewrite <-(take_drop (Z.to_nat alen) (drop (off + 16 + 2) body)) at 1. f_equal.
  by rewrite drop_drop.
Qed.

(** The member-list codec accepts exactly the encodings: [decode_members] returns
    [ms] from a body if and only if the body starts with the bytes [put_member] writes
    for [ms]; a truncated or malformed body is rejected and no byte past the body is
    read. *)
Theorem decode_members_spec body ms :
  bytes_ok body →
  decode_members body (Z.of_nat (length ms)) = Some ms ↔
  Forall member_ok ms ∧ ∃ rest, body = foldl put_member [] ms ++ rest.
Proof.
  intros Hok. unfold decode_members. rewrite Nat2Z.id. split.
  - intros H. apply decode_members_from_inv in H as (new & -> & _ & Hnew & rest & Hrest);
      [|done|lia].
    split; [done|]. exists rest. by rewrite foldl_put_member, app_nil_l.
  - intros [Hms [rest ->]]. rewrite foldl_put_member by done.
    by apply (decode_members_from_enc ms _ 0 [] rest).
Qed.

(** ** LSN lists and extent tables *)

(** An LSN body ([resolve]/[write_rsp] gap list) of signed 64-bit numbers decodes to
    the list that was encoded, and a body shorter than its count is rejected. *)
Theorem decode_lsns_enc lsns rest :
  Forall in_i64 lsns →
  decode_lsns (enc_array cint64 lsns ++ rest) (Z.of_nat (length lsns)) = Some lsns
  ∧ ∀ n, n < length (enc_array cint64 lsns) →
      decode_lsns (take n (enc_array cint64 lsns)) (Z.of_nat (length lsns)) = None.
Proof.
  intros H. assert (Forall (cvalid cint64) lsns) as Hv by exact H.
  pose proof (length_enc_array cint64 lsns Hv) as Hl. change (csize cint64) with 8 in Hl.
  unfold decode_lsns. split.
  - rewrite decide_False by (rewrite length_app; lia). rewrite Nat2Z.id.
    by rewrite dec_enc_array.
  - intros n Hn. rewrite decide_True by (rewrite length_take; lia). done.
Qed.

Definition ed_valid (e : extent_desc) : Prop := in_u 64 (ed_addr e) ∧ in_u 64 (ed_len e).

(** The extent lies inside the requested window, as an exact (unwrapped) inequality. *)
Definition ed_inside (req_addr req_len : Z) (e : extent_desc) : bool :=
  (req_addr <=? ed_addr e)%Z && (ed_addr e + ed_len e <=? req_addr + req_len)%Z.

Definition ed_dest (req_addr : Z) (e : extent_desc) : Z * Z :=
  (ed_addr e - req_addr, ed_len e)%Z.

Lemma plan_scatter_guard req_addr req_len e :
  in_u 64 req_addr → in_u 64 req_len → ed_valid e →
  let e_end := u64 (ed_addr e + ed_len e) in
  (e_end <? ed_addr e)%Z || (ed_addr e <? req_addr)%Z ||
    (u64 (req_addr + req_len) <? e_end)%Z = false →
  ed_inside req_addr req_len e = true.
Proof.
  unfold ed_valid, in_u, ed_inside, u64, wrap. intros Ha Hl [He Hn] H.
  apply orb_false_iff in H as [H H3]. apply orb_false_iff in H as [H1 H2].
  apply Z.ltb_ge in H1, H2, H3.
  assert (forall x, 0 <= x < 2 * 2^64 ->
    x mod 2^64 = if decide (x < 2^64) then x else x - 2^64)%Z as Hmod.
  { intros x Hx. case_decide; [apply Z.mod_small; lia|].
    symmetry. apply (Z.mod_unique_pos _ _ 1); lia. }
  rewrite (Hmod (ed_addr e + ed_len e)%Z) in H1, H3 by lia.
  rewrite (Hmod (req_addr + req_len)%Z) in H3 by lia.
  apply andb_true_iff. rewrite !Z.leb_le. repeat case_decide; lia.
Qed.

Lemma plan_scatter_from_dest extents req_addr req_len p :
  in_u 64 req_addr → in_u 64 req_len → Forall ed_valid extents →
  let q := plan_scatter_from extents req_addr (u64 (req_addr + req_len)) p in
  ∃ done, done `prefix_of` extents ∧ Forall (λ e, ed_inside req_addr req_len e = true) done ∧
    sp_data q = sp_data p ++ (ed_dest req_addr <$> filter (λ e, ed_hole e = 0%Z) done) ∧
    sp_holes q = sp_holes p ++ (ed_dest req_addr <$> filter (λ e, ed_hole e ≠ 0%Z) done) ∧
    (sp_ok q = true → sp_ok p = true ∨ done = extents).
Proof.
  intros Ha Hl Hv. revert p. induction Hv as [|e es He _ IH]; intros p; simpl.
  { exists []. simpl. rewrite !app_nil_r. split_and!; auto using prefix_nil. }
  destruct (_ || _ || _) eqn:G.
  { exists []. simpl. rewrite !app_nil_r. split_and!; auto using prefix_nil. }
  apply plan_scatter_guard in G; [|done..].
  destruct (ed_hole e =? 0)%Z eqn:Hh.
  - edestruct IH as (done & Hpre & Hin & Hd & Hho & Hok). exists (e :: done).
    apply Z.eqb_eq in Hh. rewrite filter_cons_True, filter_cons_False by naive_solver.
    rewrite Hd, Hho. simpl. rewrite <-(assoc_L (++)).
    split_and!; [by apply prefix_cons|by constructor|done|done|].
    intros Hq. destruct (Hok Hq) as [ | ->]; auto.
  - edestruct IH as (done & Hpre & Hin & Hd & Hho & Hok). exists (e :: done).
    apply Z.eqb_neq in Hh. rewrite filter_cons_False, filter_cons_True by naive_solver.
    rewrite Hd, Hho. simpl. rewrite <-(assoc_L (++)).
    split_and!; [by apply prefix_cons|by constructor|done|done|].
    intros Hq. destruct (Hok Hq) as [ | ->]; auto.
Qed.

Lemma plan_scatter_from_ok extents req_addr req_len p :
  in_u 64 req_addr → in_u 64 (req_addr + req_len) → (0 ≤ req_len)%Z →
  Forall (λ e, ed_valid e ∧ ed_inside req_addr req_len e = true) extents →
  sp_ok (plan_scatter_from extents req_addr (u64 (req_addr + req_len)) p) = true.
Proof.
  intros Ha Hl Hp Hv. revert p. induction Hv as [|e es [[He Hn] Hin] _ IH]; intros p; simpl.
  { done. }
  unfold ed_inside in Hin. apply andb_true_iff in Hin as [H1 H2].
  apply Z.leb_le in H1, H2. unfold in_u in *.
  destruct (_ || _ || _) eqn:G; [|apply IH].
  unfold u64 in G. rewrite !wrap_small in G by (unfold in_u; lia).
  rewrite !orb_true_iff, !Z.ltb_lt in G. lia.
Qed.

(** C40: [plan_scatter] never plans a copy or a zero fill outside the caller's buffer, for
    any 64-bit addresses (the sums of the source may wrap): every planned pair of offset
    and length lies in [0, req_len], also when the plan is refused. *)
Theorem plan_scatter_in_bounds extents req_addr req_len :
  in_u 64 req_addr → in_u 64 req_len → Forall ed_valid extents →
  let p := plan_scatter extents req_addr req_len in
  Forall (λ '(off, len), 0 ≤ off ∧ 0 ≤ len ∧ off + len ≤ req_len)%Z (sp_data p ++ sp_holes p).
Proof.
  intros Ha Hl Hv p. unfold p, plan_scatter.
  destruct (plan_scatter_from_dest extents req_addr req_len (Mk_scatter_plan [] [] false) Ha Hl Hv)
    as (done & Hpre & Hin & -> & -> & _). simpl.
  assert (Forall ed_valid done) as Hvd.
  { destruct Hpre as [k ->]. by apply Forall_app in Hv as [? _]. }
  rewrite <-fmap_app. apply Forall_fmap, Forall_forall. intros e He.
  assert (e ∈ done) as Hed by (apply elem_of_app in He as [He|He]; by apply list_elem_of_filter in He as [_ ?]).
  rewrite Forall_forall in Hin, Hvd. specialize (Hin e Hed). destruct (Hvd e Hed) as [Hea Hel].
  unfold ed_inside, in_u in *. apply andb_true_iff in Hin as [H1 H2].
  apply Z.leb_le in H1, H2. simpl. lia.
Qed.

(** On a window that does not wrap, [plan_scatter] accepts exactly the tables whose
    extents all lie inside the window, and an accepted plan lists every data extent and
    every hole once, in table order, at its offset in the window. *)
Theorem plan_scatter_spec extents req_addr req_len :
  in_u 64 req_addr → in_u 64 req_len → in_u 64 (req_addr + req_len) →
  Forall ed_valid extents →
  let p := plan_scatter extents req_addr req_len in
  (sp_ok p = true ↔ Forall (λ e, ed_inside req_addr req_len e = true) extents) ∧
  (sp_ok p = true →
     sp_data p = ed_dest req_addr <$> filter (λ e, ed_hole e = 0%Z) extents ∧
     sp_holes p = ed_dest req_addr <$> filter (λ e, ed_hole e ≠ 0%Z) extents).
Proof.
  intros Ha Hl Hs Hv p. unfold p, plan_scatter.
  destruct (plan_scatter_from_dest extents req_addr req_len (Mk_scatter_plan [] [] false) Ha Hl Hv)
    as (done & Hpre & Hin & -> & -> & Hok). simpl in *.
  split; [split|].
  - intros H. destruct (Hok H) as [ | <-]; done.
  - intros H. apply plan_scatter_from_ok; [done..|unfold in_u in Hl; lia|].
    apply Forall_and. done.
  - intros H. destruct (Hok H) as [ | ->]; done.
Qed.

Lemma sum_len_blocks lba (extents : list extent_desc) :
  Forall (λ e, lba ≤ ed_len e)%Z extents →
  (Z.of_nat (length extents) * lba ≤ foldr (λ e acc, ed_len e + acc) 0 extents)%Z.
Proof.
  induction 1 as [|e es He _ IH]; [done|]. cbn [length foldr].
  rewrite Nat2Z.inj_succ. lia.
Qed.

(** [framed_body_max] leaves room for the worst read reply: when its 32-bit sums do
    not overflow, any extent table whose extents are at least a block long and together
    no longer than the payload fits with the data in one body. *)
Theorem framed_body_max_enough payload lba extents :
  in_u 32 payload → (0 < lba)%Z → (payload + lba - 1 < 2 ^ 32)%Z →
  (payload + (payload + lba - 1) `div` lba * 24 < 2 ^ 32)%Z →
  Forall (cvalid extent_desc_codec) extents →
  Forall (λ e, lba ≤ ed_len e)%Z extents →
  (foldr (λ e acc, ed_len e + acc) 0 extents ≤ payload)%Z →
  (Z.of_nat (length (enc_array extent_desc_codec extents))
     + foldr (λ e acc, ed_len e + acc) 0 extents ≤ framed_body_max payload lba)%Z.
Proof.
  intros Hp Hl H1 H2 Hv Hb Hs. unfold in_u in Hp.
  rewrite length_enc_array by done. change (csize extent_desc_codec) with 24.
  unfold framed_body_max. change (Z.of_nat (csize extent_desc_codec)) with 24%Z.
  assert ((lba =? 0) = false)%Z as -> by lia. unfold u32.
  assert (0 ≤ (payload + lba - 1) `div` lba)%Z as Hdiv by (apply Z.div_pos; lia).
  rewrite (wrap_small 32 (payload + lba - 1)) by (unfold in_u; lia).
  rewrite !wrap_small by (unfold in_u in *; rewrite ?wrap_small by (unfold in_u; lia); lia).
  pose proof (sum_len_blocks lba extents Hb) as Hn.
  assert (Z.of_nat (length extents) ≤ (payload + lba - 1) `div` lba)%Z
    by (apply Z.div_le_lower_bound; lia).
  lia.
Qed.

(** ** The theorems at concrete inputs *)

Lemma parse_frame_message_witness :
  let oh := enc keepalive_rsp_codec (Mk_keepalive_rsp 5 7) in
  parse_message (frame_message [] op_keepalive_rsp 0 9 oh [] (Mk_digest_cfg true true) ++ [1]%Z)
    4096 (Mk_digest_cfg true true) =
  Ok (Mk_message (frame_hdr op_keepalive_rsp 0 9 []) oh []
        (length (frame_message [] op_keepalive_rsp 0 9 oh [] (Mk_digest_cfg true true)))).
Proof. intros oh. apply parse_frame_message; first [by left | by_eval]. Defined.

Lemma parse_frame_prefix_witness :
  let oh := enc keepalive_rsp_codec (Mk_keepalive_rsp 5 7) in
  let f := frame_message [] op_keepalive_rsp 0 9 oh [] no_digest in
  parse_message (take 20 f) 4096 no_digest = Err incomplete.
Proof.
  intros oh f.
  apply (parse_frame_prefix op_keepalive_rsp 0 9 oh [] no_digest 4096 _ (drop 20 f));
    first [by left | by_eval | by rewrite take_drop].
Defined.

Lemma parse_corrupt_body_witness :
  let oh := replicate 40 0%Z in
  let body := ([1;2] ++ [3;4] ++ [5])%Z in
  let hb := enc msg_hdr_codec (frame_hdr write 0 1 body) ++ oh in
  parse_message (hb ++ [] ++ ([1;2] ++ [3;6] ++ [5])%Z ++ opt_digest true body ++ []) 4096
    (Mk_digest_cfg false true) = Err bad_digest.
Proof.
  intros oh body hb.
  apply (parse_corrupt_body write 0 1 oh [1;2]%Z [3;4]%Z [3;6]%Z [5]%Z false 4096 []); by_eval.
Defined.

Lemma decode_members_spec_witness :
  let ms := [Mk_member (replicate 16 7) [104;58;49]; Mk_member (replicate 16 9) []]%Z in
  decode_members (foldl put_member [] ms ++ [255]%Z) 2 = Some ms.
Proof.
  intros ms. apply (decode_members_spec (foldl put_member [] ms ++ [255]%Z) ms); [by_eval|].
  split; [repeat constructor; by_eval|]. by exists [255]%Z.
Defined.

Lemma decode_lsns_enc_witness :
  decode_lsns (enc_array cint64 [3; -1; 42] ++ [0])%Z 3 = Some [3; -1; 42]%Z.
Proof. apply (decode_lsns_enc [3; -1; 42]%Z [0]%Z). by_eval. Defined.

Definition scatter_example : list extent_desc :=
  [Mk_extent_desc 4096 512 0 (replicate 7 0%Z); Mk_extent_desc 4608 1024 1 (replicate 7 0%Z)].

Lemma plan_scatter_in_bounds_witness :
  Forall (λ '(off, len), 0 ≤ off ∧ 0 ≤ len ∧ off + len ≤ 2048)%Z
    (sp_data (plan_scatter scatter_example 4096 2048) ++
     sp_holes (plan_scatter scatter_example 4096 2048)).
Proof.
  apply plan_scatter_in_bounds; [by_eval|by_eval|]. repeat constructor; by_eval.
Defined.

Lemma plan_scatter_spec_witness :
  sp_ok (plan_scatter scatter_example 4096 2048) = true ∧
  sp_data (plan_scatter scatter_example 4096 2048) = [(0, 512)]%Z.
Proof.
  destruct (plan_scatter_spec scatter_example 4096 2048) as [Hok Hplan];
    [by_eval..|repeat constructor; by_eval|].
  assert (sp_ok (plan_scatter scatter_example 4096 2048) = true) as H
    by (apply Hok; repeat constructor).
  split; [done|]. destruct (Hplan H) as [-> _]. reflexivity.
Defined.

Lemma framed_body_max_enough_witness :
  (Z.of_nat (length (enc_array extent_desc_codec scatter_example)) + (512 + (1024 + 0))
   ≤ framed_body_max k_default_max_tx 512)%Z.
Proof.
  apply (framed_body_max_enough k_default_max_tx 512 scatter_example);
    first [by_eval | repeat constructor; by_eval].
Defined.
