(* ===== verification/Types.v ===== *)
(** * Client-facing data types and errors

    [include/craft/types.hpp] and the bridge between domain errors and the wire's status
    byte, [include/craft/status.hpp]. *)

From S2P Require Import Prelude Codec WireTypes Wire.
From stdpp Require Import strings.

Local Open Scope craft_scope.
Local Open Scope Z_scope.

(** [peer_id_t], [volume_id_t]: a 16-byte uuid. *)
Definition peer_id_t : Type := list Z.
Definition volume_id_t : Type := list Z.
Definition nil_uuid : peer_id_t := replicate 16 0.

(** A [std::string], as its characters. *)
Definition string_bytes (s : string) : list Z := (λ c, Z.of_nat (Ascii.nat_of_ascii c)) <$> String.list_ascii_of_string s.

(** [struct lsn_pair]. *)
Record lsn_pair := Mk_lsn_pair { lp_commit : Z; lp_last_append : Z }.
Definition lsn_none : lsn_pair := Mk_lsn_pair (-1) (-1).
#[global] Instance lsn_pair_eq_dec : EqDecision lsn_pair.
Proof. solve_decision. Defined.

(** [struct client_hdr]. *)
Record client_hdr := Mk_client_hdr {
  ch_term : Z;
  ch_commit_lsn : Z;
  ch_all_committed_lsn : Z;
  ch_client_token : Z;
}.

(** [struct replica_endpoint] and [struct LoginResult]. *)
Record replica_endpoint := Mk_endpoint { ep_id : peer_id_t; ep_addr : list Z }.
Record LoginResult := Mk_LoginResult {
  lg_members : list replica_endpoint;
  lg_dLSN : Z;
  lg_term : Z;
  lg_lba_size : Z;
  lg_capacity : Z;
  lg_leader_hint : peer_id_t;
  lg_max_tx : Z;
}.

(** [struct io_extent], [struct read_result], [struct resolution_result]. *)
Record io_extent := Mk_io_extent { ie_addr : Z; ie_len : Z; ie_hole : bool }.
#[global] Instance io_extent_eq_dec : EqDecision io_extent.
Proof. solve_decision. Defined.
Record read_result := Mk_read_result { rd_extents : list io_extent; rd_lsns : lsn_pair }.
Record resolution_result := Mk_resolution_result {
  rs_resolved_upto : Z;
  rs_empty_slots : list Z;
}.

(** [ENUM(craft_error, ...)]. *)
Inductive craft_error :=
| STALE_TERM | NOT_LEADER | NO_QUORUM | WRONG_TOKEN | NOT_ELIGIBLE | REPLICA_DOWN
| INTERNAL | NOT_IMPLEMENTED.
#[global] Instance craft_error_eq_dec : EqDecision craft_error.
Proof. solve_decision. Defined.

(** The [std::errc] values the sources make, and any other system error. *)
Inductive errc := invalid_argument | timed_out | not_connected | no_such_file | errc_other (n : Z).
#[global] Instance errc_eq_dec : EqDecision errc.
Proof. solve_decision. Defined.

(** [std::error_condition]: a value of the craft category or of the generic one. *)
Inductive error_condition := ec_craft (e : craft_error) | ec_std (e : errc).
#[global] Instance error_condition_eq_dec : EqDecision error_condition.
Proof. solve_decision. Defined.

Definition to_wire_status (e : error_condition) : status :=
  if decide (e = ec_craft STALE_TERM) then st_stale_term else
  if decide (e = ec_craft NOT_LEADER) then st_not_leader else
  if decide (e = ec_craft NO_QUORUM) then st_no_quorum else
  if decide (e = ec_craft WRONG_TOKEN) then st_wrong_token else
  if decide (e = ec_craft NOT_ELIGIBLE) then st_not_eligible else
  if decide (e = ec_craft REPLICA_DOWN) then st_replica_down else
  if decide (e = ec_std invalid_argument) then st_invalid_argument else
  st_internal.

Definition status_to_error (s : status) : error_condition :=
  match s with
  | st_stale_term => ec_craft STALE_TERM
  | st_not_leader => ec_craft NOT_LEADER
  | st_no_quorum => ec_craft NO_QUORUM
  | st_wrong_token => ec_craft WRONG_TOKEN
  | st_not_eligible => ec_craft NOT_ELIGIBLE
  | st_replica_down => ec_craft REPLICA_DOWN
  | st_invalid_argument => ec_std invalid_argument
  | _ => ec_craft REPLICA_DOWN
  end.

(** The errors that have a status byte of their own. *)
Definition wire_error (e : error_condition) : bool :=
  match e with
  | ec_craft INTERNAL | ec_craft NOT_IMPLEMENTED => false
  | ec_craft _ | ec_std invalid_argument => true
  | ec_std _ => false
  end.

(** An error crosses the wire faithfully: the client decodes the byte a server sends
    for an error to the same error when the error has a status of its own, and to
    [REPLICA_DOWN] otherwise; no error is ever sent as [ok]. *)
Theorem status_bridge e :
  status_to_error (status_of_byte (status_byte (to_wire_status e))) =
    (if wire_error e then e else ec_craft REPLICA_DOWN) ∧
  status_byte (to_wire_status e) ≠ status_byte st_ok.
Proof. by destruct e as [[]|[]]. Qed.
