(* ===== verification/StreamTracker.v ===== *)
(** * The slot window of the dLSN tracker

    [sisl::StreamTracker<T>] is third-party code.  What [src/dlsn_tracker.cpp] relies on
    is the class [StreamTracker]: its operations, three observers (the window base, the
    slot stored at an active index and the completed bit of an index) and the documented
    effect of every operation on them.  [MapTracker] is one concrete tracker that meets
    the interface, so theorems proved against the class can be evaluated. *)

From S2P Require Import Prelude.

Local Open Scope craft_scope.
Local Open Scope Z_scope.

Section interface.
Context {A : Type}.

(** [update(idx, fn)] runs [fn] on the slot at [idx]: [fn] may change the slot and the
    variables it captures (of type [S]), and returns whether the slot is now completed. *)
Definition update_fn (S : Type) : Type := A → S → A * bool * S.

Class StreamTracker (T : Type) := {
  st_new : Z → T;
  st_create : T → Z → A → T;
  st_update {S : Type} : T → Z → update_fn S → S → T * S;
  st_completed_upto : T → Z → Z;
  st_foreach_all_active : T → Z → list (Z * A);
  st_truncate : T → Z → T;

  st_base : T → Z;
  st_slot : T → Z → option A;
  st_done : T → Z → bool;

  (** [StreamTracker(name, start_idx)] bases its empty window at [start_idx + 1]. *)
  st_new_base s : st_base (st_new s) = s + 1;
  st_new_slot s i : st_slot (st_new s) i = None;
  st_new_done s i : st_done (st_new s) i = false;

  (** [create] stores a slot at an index of the window and leaves it not completed. *)
  st_create_base t i a : st_base (st_create t i a) = st_base t;
  st_create_slot t i a j : st_base t ≤ i →
    st_slot (st_create t i a) j = if decide (j = i) then Some a else st_slot t j;
  st_create_done t i a j : st_base t ≤ i → st_slot t i = None →
    st_done (st_create t i a) j = st_done t j;

  (** [update] of an active slot runs the callback once; a [true] result sets the
      completed bit, and the bit is never cleared. *)
  st_update_base {S} t i (f : update_fn S) b : st_base (st_update t i f b).1 = st_base t;
  st_update_active {S} t i (f : update_fn S) b a : st_slot t i = Some a →
    let '(a', completed, b') := f a b in
    (st_update t i f b).2 = b' ∧
    (∀ j, st_slot (st_update t i f b).1 j = if decide (j = i) then Some a' else st_slot t j) ∧
    (∀ j, st_done (st_update t i f b).1 j =
          if decide (j = i) then completed || st_done t j else st_done t j);
  (** [update] below the window base (a truncated slot) does nothing. *)
  st_update_truncated {S} t i (f : update_fn S) b : i < st_base t → st_update t i f b = (t, b);

  (** [completed_upto(h)] is the last index of the completed run that starts at [h], so
      its successor is the first non-completed index at or above [h]; the truncated
      indexes below the base count as completed. *)
  st_upto_ge t h : h - 1 ≤ st_completed_upto t h;
  st_upto_run t h i : h ≤ i ≤ st_completed_upto t h → i < st_base t ∨ st_done t i = true;
  st_upto_base t h : st_base t ≤ st_completed_upto t h + 1;
  st_upto_max t h : st_done t (st_completed_upto t h + 1) = false;

  (** [foreach_all_active(i, fn)] visits the active slots from [i] up, in index order. *)
  st_foreach_elem t i j a :
    (j, a) ∈ st_foreach_all_active t i ↔ i ≤ j ∧ st_slot t j = Some a;
  st_foreach_sorted t i : StronglySorted Z.lt (st_foreach_all_active t i).*1;

  (** [truncate(idx)] drops a part of the window at or below [idx], nothing above. *)
  st_truncate_base t i :
    st_base t ≤ st_base (st_truncate t i) ≤ Z.max (st_base t) (i + 1);
  st_truncate_slot t i j : st_base (st_truncate t i) ≤ j →
    st_slot (st_truncate t i) j = st_slot t j;
  st_truncate_done t i j : st_base (st_truncate t i) ≤ j →
    st_done (st_truncate t i) j = st_done t j;

  (** The window holds no slot and no completed bit below its base, and no completed bit
      without a slot. *)
  st_slot_base t j : is_Some (st_slot t j) → st_base t ≤ j;
  st_done_slot t j : st_done t j = true → is_Some (st_slot t j);
}.
End interface.
Arguments update_fn : clear implicits.
Arguments StreamTracker : clear implicits.

(** ** A tracker over a finite map *)

Module MapTracker.

Record t (A : Type) := Mk_t { base : Z; slots : gmap Z (A * bool) }.
Arguments Mk_t {A}.
Arguments base {A}.
Arguments slots {A}.

Section ops.
Context {A : Type}.
Implicit Types m : t A.

Definition new (s : Z) : t A := Mk_t (s + 1) ∅.
Definition get (m : t A) (i : Z) : option (A * bool) :=
  if decide (base m ≤ i) then slots m !! i else None.
Definition create (m : t A) (i : Z) (a : A) : t A :=
  Mk_t (base m) (<[i := (a, false)]> (slots m)).
Definition update {S} (m : t A) (i : Z) (f : update_fn A S) (b : S) : t A * S :=
  match get m i with
  | Some (a, d) =>
      let '(a', c, b') := f a b in (Mk_t (base m) (<[i := (a', c || d)]> (slots m)), b')
  | None => (m, b)
  end.
Definition slot (m : t A) (i : Z) : option A := fst <$> get m i.
Definition completed (m : t A) (i : Z) : bool :=
  match get m i with Some (_, d) => d | None => false end.
Fixpoint upto (fuel : nat) (m : t A) (h : Z) : Z :=
  match fuel with
  | O => h - 1
  | S fuel => if completed m h then upto fuel m (h + 1) else h - 1
  end.
Definition completed_upto (m : t A) (h : Z) : Z :=
  upto (size (slots m)) m (Z.max h (base m)).
Definition by_index (p q : Z * (A * bool)) : Prop := p.1 ≤ q.1.
#[global] Instance by_index_dec p q : Decision (by_index p q).
Proof. unfold by_index. apply _. Defined.
Definition foreach_all_active (m : t A) (i : Z) : list (Z * A) :=
  (λ p, (p.1, p.2.1)) <$>
    merge_sort by_index (filter (λ p, i ≤ p.1 ∧ base m ≤ p.1) (map_to_list (slots m))).
Definition truncate (m : t A) (i : Z) : t A :=
  let b := Z.max (base m) (i + 1) in Mk_t b (filter (λ p, b ≤ p.1) (slots m)).

Lemma upto_ge fuel m h : h - 1 ≤ upto fuel m h.
Proof.
  revert h. induction fuel as [|fuel IH]; intros h; simpl; [lia|].
  destruct (completed m h); [|lia]. specialize (IH (h + 1)). lia.
Qed.

Lemma upto_run fuel m h i : h ≤ i ≤ upto fuel m h → completed m i = true.
Proof.
  revert h. induction fuel as [|fuel IH]; intros h Hi; simpl in Hi; [lia|].
  destruct (completed m h) eqn:Hc; [|lia].
  destruct (decide (i = h)) as [->|]; [done|]. apply (IH (h + 1)). lia.
Qed.

Lemma upto_stop fuel m h :
  completed m (upto fuel m h + 1) = false ∨ upto fuel m h = h - 1 + Z.of_nat fuel.
Proof.
  revert h. induction fuel as [|fuel IH]; intros h; simpl; [right; lia|].
  destruct (completed m h) eqn:Hc.
  - destruct (IH (h + 1)) as [?|Hu]; [by left|]. right. lia.
  - left. by replace (h - 1 + 1) with h by lia.
Qed.

(** A run as long as the map uses every key, so the index after it is free. *)
Lemma upto_max m h : completed m (completed_upto m h + 1) = false.
Proof.
  unfold completed_upto. generalize (Z.max h (base m)). clear h. intros h.
  destruct (upto_stop (size (slots m)) m h) as [?|Hu]; [done|].
  destruct (completed m (upto (size (slots m)) m h + 1)) eqn:Hc; [|done]. exfalso.
  set (run := list_to_set (range h (upto (size (slots m)) m h + 1)) : gset Z).
  assert (run ⊆ dom (slots m)) as Hsub.
  { intros i Hi. apply elem_of_list_to_set, elem_of_range in Hi.
    assert (completed m i = true) as Hci.
    { destruct (decide (i = upto (size (slots m)) m h + 1)) as [->|]; [done|].
      apply (upto_run (size (slots m)) m h). lia. }
    unfold completed, get in Hci. apply elem_of_dom.
    case_decide; [|done]. destruct (slots m !! i); [eauto|done]. }
  apply subseteq_size in Hsub. unfold run in Hsub.
  rewrite size_list_to_set in Hsub by apply NoDup_range.
  rewrite size_dom, length_range in Hsub. lia.
Qed.

Lemma foreach_elem m i j a :
  (j, a) ∈ foreach_all_active m i ↔ i ≤ j ∧ slot m j = Some a.
Proof.
  unfold foreach_all_active, slot, get. rewrite list_elem_of_fmap. split.
  - intros ([k [x d]] & [= -> ->] & Hk). rewrite merge_sort_Permutation in Hk.
    apply list_elem_of_filter in Hk as [[? ?] Hk%elem_of_map_to_list]. simpl in *.
    rewrite decide_True by done. by rewrite Hk.
  - intros [Hij Hs]. case_decide as Hb; [|done].
    apply fmap_Some in Hs as ([x d] & Hx & ->). exists (j, (x, d)). split; [done|].
    rewrite merge_sort_Permutation. apply list_elem_of_filter. split; [done|].
    by apply elem_of_map_to_list.
Qed.

Lemma foreach_sorted m i : StronglySorted Z.lt (foreach_all_active m i).*1.
Proof.
  unfold foreach_all_active. rewrite <-list_fmap_compose.
  change (fst ∘ _) with (fst : Z * (A * bool) → Z).
  set (l := filter _ _).
  assert (NoDup (merge_sort by_index l).*1) as Hnd.
  { rewrite (merge_sort_Permutation by_index l).
    eapply sublist_NoDup; [apply (NoDup_fst_map_to_list (slots m))|].
    by apply fmap_sublist, sublist_filter. }
  assert (StronglySorted by_index (merge_sort by_index l)) as Hs.
  { apply Sorted_StronglySorted; [intros x y z; unfold by_index; lia|].
    apply Sorted_merge_sort. intros x y. unfold by_index. lia. }
  by apply StronglySorted_fst_lt.
Qed.

#[global] Program Instance tracker : StreamTracker A (t A) := {|
  st_new := new; st_create := create; st_update := @update;
  st_completed_upto := completed_upto; st_foreach_all_active := foreach_all_active;
  st_truncate := truncate; st_base := base; st_slot := slot; st_done := completed |}.
Next Obligation. done. Qed.
Next Obligation. intros s i. unfold slot, get. by case_decide. Qed.
Next Obligation. intros s i. unfold completed, get. by case_decide. Qed.
Next Obligation. done. Qed.
Next Obligation.
  intros m i a j Hb. unfold slot, get, create. simpl. rewrite lookup_insert.
  repeat case_decide; subst; naive_solver lia.
Qed.
Next Obligation.
  intros m i a j Hb Hs. unfold slot, completed, get, create in *. simpl in *.
  rewrite lookup_insert. rewrite decide_True in Hs by done.
  repeat case_decide; subst; try done. by destruct (slots m !! j) as [[]|].
Qed.
Next Obligation.
  intros S m i f b. unfold update. destruct (get m i) as [[a d]|]; [|done].
  by destruct (f a b) as [[]].
Qed.
Next Obligation.
  intros S m i f b a Hs. unfold slot, update in *.
  destruct (get m i) as [[a0 d]|] eqn:Hg; [|done]. injection Hs as ->.
  destruct (f a b) as [[a' c] b']. unfold completed, get in *. simpl.
  destruct (decide (base m ≤ i)) as [Hb|]; [|done].
  split; [done|split]; intros j; rewrite lookup_insert; repeat case_decide; subst;
    try done; try by rewrite Hg.
Qed.
Next Obligation.
  intros S m i f b Hb. unfold update, get. by rewrite decide_False by lia.
Qed.
Next Obligation.
  intros m h. simpl. unfold completed_upto.
  pose proof (upto_ge (size (slots m)) m (Z.max h (base m))). lia.
Qed.
Next Obligation.
  intros m h i Hi. simpl in *. unfold completed_upto in Hi.
  destruct (decide (i < base m)); [by left|]. right. eapply upto_run. split; [|apply Hi]. lia.
Qed.
Next Obligation.
  intros m h. simpl. unfold completed_upto.
  pose proof (upto_ge (size (slots m)) m (Z.max h (base m))). lia.
Qed.
Next Obligation. intros m h. apply upto_max. Qed.
Next Obligation. apply foreach_elem. Qed.
Next Obligation. apply foreach_sorted. Qed.
Next Obligation. intros m i. simpl. lia. Qed.
Next Obligation.
  intros m i j Hj. unfold slot, get, truncate in *. simpl in *.
  rewrite decide_True, decide_True by lia. f_equal.
  rewrite map_lookup_filter. destruct (slots m !! j); simpl; [|done].
  by rewrite option_guard_True.
Qed.
Next Obligation.
  intros m i j Hj. unfold completed, get, truncate in *. simpl in *.
  rewrite decide_True, decide_True by lia.
  rewrite map_lookup_filter. destruct (slots m !! j); simpl; [|done].
  by rewrite option_guard_True.
Qed.
Next Obligation. intros m j. unfold slot, get. case_decide; [done|]. by intros []. Qed.
Next Obligation.
  intros m j. unfold completed, slot. destruct (get m j) as [[]|]; simpl; [eauto|done].
Qed.
End ops.

End MapTracker.
