(* ===== verification/DlsnTracker.v ===== *)
(** * The client's dLSN tracker

    [src/dlsn_tracker.hpp] and [src/dlsn_tracker.cpp]: dLSN assignment, the resolved
    frontier F, the highest acked dLSN Ha, the per-block read planner and the
    resolution-round bookkeeping, over any [StreamTracker].

    The fields of the class are the fields of [dlsn_tracker]; every member function is one
    atomic step of the model except [reserve], whose two accesses (the [fetch_add] and the
    [create]) are separate steps, so that the gap between them is a state of the model.  A
    compare-and-swap loop is its successful iteration. *)

From S2P Require Import Prelude Codec WireTypes Wire Types StreamTracker.

Local Open Scope craft_scope.
Local Open Scope Z_scope.

(** ** Slots *)

Inductive slot_outcome := in_flight | acked | failed | empty.
#[global] Instance slot_outcome_eq_dec : EqDecision slot_outcome.
Proof. solve_decision. Defined.

Definition is_resolved (o : slot_outcome) : bool :=
  match o with acked | empty => true | _ => false end.

Record dlsn_slot := Mk_dlsn_slot { ds_addr : Z; ds_len : Z; ds_outcome : slot_outcome }.
#[global] Instance dlsn_slot_eq_dec : EqDecision dlsn_slot.
Proof. solve_decision. Defined.

Record read_segment := Mk_read_segment { sg_addr : Z; sg_len : Z; sg_H : Z }.
#[global] Instance read_segment_eq_dec : EqDecision read_segment.
Proof. solve_decision. Defined.

Record tracker_stats := Mk_tracker_stats {
  ts_frontier : Z;
  ts_highest_acked : Z;
  ts_issued : Z;
  ts_unresolved_count : nat;
  ts_unresolved_sample : list Z;
  ts_winner_scans : Z;
}.

(** [struct plan_outcome]. *)
Record plan_outcome := Mk_plan_outcome { po_segs : list read_segment; po_failed : bool }.
Definition stall (p : plan_outcome) : bool :=
  match po_segs p with [] => negb (po_failed p) | _ => false end.
Definition degraded (p : plan_outcome) : bool :=
  match po_segs p with [] => po_failed p | _ => false end.
Definition fenced (any_failed : bool) : plan_outcome := Mk_plan_outcome [] any_failed.
Definition one_segment (addr len H : Z) : plan_outcome :=
  Mk_plan_outcome [Mk_read_segment addr len H] false.

Definition k_max_blocks : Z := 4096.
Definition k_max_segments : nat := 8.
Definition k_trunc_batch : Z := 512.
Definition k_scan_cap_floor : Z := 1024.
Definition k_scan_cap_per_inflight : Z := 8.

Definition overlaps (a_off a_len b_off b_len : Z) : bool :=
  (a_off <? u64 (b_off + b_len)) && (b_off <? u64 (a_off + a_len)).

Section tracker.
Context {T : Type} `{ST : !StreamTracker dlsn_slot T}.

Record dlsn_tracker := Mk_tracker {
  next_dlsn_ : Z;
  frontier_ : Z;
  highest_acked_ : Z;
  last_trunc_ : Z;
  winner_scans_ : Z;
  resolve_want_ : Z;
  tracker_ : option T;
  lba_size_ : Z;
  scan_cap_ : Z;
}.

(** The constructor. *)
Definition mk_tracker (max_inflight : Z) : dlsn_tracker :=
  Mk_tracker 0 (-1) (-1) (-1) 0 (-1) None 0
    (Z.max k_scan_cap_floor (k_scan_cap_per_inflight * max_inflight)).

Definition reset_at (st : dlsn_tracker) (login_dlsn lba_size : Z) : dlsn_tracker :=
  Mk_tracker (login_dlsn + 1) login_dlsn login_dlsn login_dlsn (winner_scans_ st) (-1)
    (Some (st_new login_dlsn)) lba_size (scan_cap_ st).

(** The two accesses of [reserve]: [next_dlsn_.fetch_add(1)], then [create].  A tracker
    that is not logged in is dereferenced empty, [None]. *)
Definition reserve_take (st : dlsn_tracker) : Z * dlsn_tracker :=
  (next_dlsn_ st,
   Mk_tracker (next_dlsn_ st + 1) (frontier_ st) (highest_acked_ st) (last_trunc_ st)
     (winner_scans_ st) (resolve_want_ st) (tracker_ st) (lba_size_ st) (scan_cap_ st)).

Definition set_tracker (st : dlsn_tracker) (t : T) : dlsn_tracker :=
  Mk_tracker (next_dlsn_ st) (frontier_ st) (highest_acked_ st) (last_trunc_ st)
    (winner_scans_ st) (resolve_want_ st) (Some t) (lba_size_ st) (scan_cap_ st).

Definition reserve_create (st : dlsn_tracker) (d addr len : Z) : option dlsn_tracker :=
  t ← tracker_ st;
  Some (set_tracker st (st_create t d (Mk_dlsn_slot addr len in_flight))).

Definition reserve (st : dlsn_tracker) (addr len : Z) : option (Z * dlsn_tracker) :=
  let '(d, st) := reserve_take st in
  st ← reserve_create st d addr len;
  Some (d, st).

(** The iteration of [advance_frontier] whose compare-and-swap succeeds. *)
Definition advance_frontier (st : dlsn_tracker) : option dlsn_tracker :=
  t ← tracker_ st;
  let f := frontier_ st in
  let issued := next_dlsn_ st - 1 in
  let nf := Z.min (st_completed_upto t (f + 1)) issued in
  if nf <=? f then Some st
  else
    let lt := last_trunc_ st in
    let '(lt, t) := if k_trunc_batch <=? nf - lt then (nf, st_truncate t nf) else (lt, t) in
    Some (Mk_tracker (next_dlsn_ st) nf (highest_acked_ st) lt (winner_scans_ st)
            (resolve_want_ st) (Some t) (lba_size_ st) (scan_cap_ st)).

(** The callback [resolve] passes to [update]; the flag is [applied]. *)
Definition resolve_slot (oc : slot_outcome) : update_fn dlsn_slot bool := λ s applied,
  if is_resolved (ds_outcome s) then (s, true, applied)
  else (Mk_dlsn_slot (ds_addr s) (ds_len s) oc, is_resolved oc, true).

Definition set_highest_acked (st : dlsn_tracker) (d : Z) : dlsn_tracker :=
  Mk_tracker (next_dlsn_ st) (frontier_ st) (Z.max (highest_acked_ st) d) (last_trunc_ st)
    (winner_scans_ st) (resolve_want_ st) (tracker_ st) (lba_size_ st) (scan_cap_ st).

Definition resolve (st : dlsn_tracker) (dlsn : Z) (oc : slot_outcome) : option dlsn_tracker :=
  t ← tracker_ st;
  let '(t, applied) := st_update t dlsn (resolve_slot oc) false in
  let st := set_tracker st t in
  if negb applied then Some st
  else
    let st := if decide (oc = acked) then set_highest_acked st dlsn else st in
    if is_resolved oc then advance_frontier st else Some st.

Definition set_want (st : dlsn_tracker) (w : Z) : dlsn_tracker :=
  Mk_tracker (next_dlsn_ st) (frontier_ st) (highest_acked_ st) (last_trunc_ st)
    (winner_scans_ st) w (tracker_ st) (lba_size_ st) (scan_cap_ st).

Definition note_resolution_want (st : dlsn_tracker) (upto : Z) : dlsn_tracker :=
  if resolve_want_ st <? upto then set_want st upto else st.

Definition resolution_want (st : dlsn_tracker) : option Z :=
  if resolve_want_ st <? 0 then None else Some (resolve_want_ st).

Definition clear_resolution_want (st : dlsn_tracker) (resolved_upto : Z) : dlsn_tracker :=
  let w := resolve_want_ st in
  if (0 <=? w) && (w <=? resolved_upto) then set_want st (-1) else st.

Definition frontier (st : dlsn_tracker) : Z := frontier_ st.
Definition read_horizon (st : dlsn_tracker) : Z := Z.max (frontier_ st) (highest_acked_ st).

(** ** Scans over the window *)

(** The hop loop of [stats]; at most one iteration per index, so [issued - h + 1] steps. *)
Fixpoint stats_loop (fuel : nat) (t : T) (issued : Z) (sample_limit : nat) (h : Z)
    (count : nat) (sample : list Z) : nat * list Z :=
  match fuel with
  | O => (count, sample)
  | S fuel =>
      if h <=? issued then
        let u := Z.min (st_completed_upto t h) issued + 1 in
        if issued <? u then (count, sample)
        else
          let sample := if decide (length sample < sample_limit)%nat then sample ++ [u] else sample in
          stats_loop fuel t issued sample_limit (u + 1) (S count) sample
      else (count, sample)
  end.

Definition stats (st : dlsn_tracker) (sample_limit : nat) : tracker_stats :=
  match tracker_ st with
  | None => Mk_tracker_stats (frontier_ st) (highest_acked_ st) (-1) 0 [] (winner_scans_ st)
  | Some t =>
      let issued := next_dlsn_ st - 1 in
      let h := frontier_ st + 1 in
      let '(count, sample) := stats_loop (Z.to_nat (issued - h + 1)) t issued sample_limit h 0 [] in
      Mk_tracker_stats (frontier_ st) (highest_acked_ st) issued count sample (winner_scans_ st)
  end.

(** [foreach_all_active(u, ...)] with a callback that stops at once: the slot at [u], if
    the first active index at or above [u] is [u] itself. *)
Definition active_at (t : T) (u : Z) : option dlsn_slot :=
  match st_foreach_all_active t u with
  | (idx, s) :: _ => if decide (idx = u) then Some s else None
  | [] => None
  end.

(** What the scan of [compute] collects. *)
Record scan := Mk_scan { sc_umin : Z; sc_any_failed : bool; sc_any_gap : bool }.

(** One iteration of the scan of [compute] at a non-completed index [u]. *)
Definition scan_hit (t : T) (addr len u : Z) (sc : scan) : scan :=
  match active_at t u with
  | None => Mk_scan (if sc_umin sc <? 0 then u else sc_umin sc) (sc_any_failed sc) true
  | Some sv =>
      if overlaps addr len (ds_addr sv) (ds_len sv) then
        Mk_scan (if sc_umin sc <? 0 then u else sc_umin sc)
          (sc_any_failed sc || bool_decide (ds_outcome sv = failed)) (sc_any_gap sc)
      else sc
  end.

Fixpoint compute_loop (fuel : nat) (t : T) (addr len Ha h : Z) (sc : scan) : scan :=
  match fuel with
  | O => sc
  | S fuel =>
      if h <=? Ha then
        let u := st_completed_upto t h + 1 in
        if Ha <? u then sc
        else if u <? h then sc
        else compute_loop fuel t addr len Ha (u + 1) (scan_hit t addr len u sc)
      else sc
  end.

(** [for (b = b0; b <= b1; ++b)] of [split], on the per-block array [ustar]. *)
Definition mark_block (is_acked : bool) (idx : Z) (b : Z) (ustar : list Z) : list Z :=
  if is_acked then <[Z.to_nat b := -1]> ustar
  else if default 0 (ustar !! Z.to_nat b) <? 0 then <[Z.to_nat b := idx]> ustar
  else ustar.

Definition mark_blocks (is_acked : bool) (idx b0 b1 : Z) (ustar : list Z) : list Z :=
  foldl (λ us b, mark_block is_acked idx b us) ustar (range b0 b1).

(** The callback of [split]'s [foreach_all_active], on one slot at or below [Ha]. *)
Definition split_slot (addr len lba nblk idx : Z) (sv : dlsn_slot) (ustar : list Z) : list Z :=
  if decide (ds_outcome sv = empty) then ustar
  else if negb (overlaps addr len (ds_addr sv) (ds_len sv)) then ustar
  else
    let lo := Z.max addr (ds_addr sv) in
    let hi := Z.min (u64 (addr + len)) (u64 (ds_addr sv + ds_len sv)) in
    let b0 := (lo - addr) `div` lba in
    let b1 := Z.min (nblk - 1) (u64 (hi - 1 - addr) `div` lba) in
    mark_blocks (bool_decide (ds_outcome sv = acked)) idx b0 b1 ustar.

Fixpoint split_scan (addr len lba nblk Ha : Z) (slots : list (Z * dlsn_slot))
    (ustar : list Z) : list Z :=
  match slots with
  | [] => ustar
  | (idx, sv) :: slots =>
      if Ha <? idx then ustar
      else split_scan addr len lba nblk Ha slots (split_slot addr len lba nblk idx sv ustar)
  end.

Definition horizon_of (Ha : Z) (ustar : list Z) (b : nat) : Z :=
  let u := default 0 (ustar !! b) in if u <? 0 then Ha else u - 1.

(** The segment loop of [split], [b] running up to [nblk]; [None] is the early return
    when a ninth segment would be needed. *)
Fixpoint split_segments (todo : nat) (addr lba Ha : Z) (ustar : list Z) (nblk b seg_start : nat)
    (cur : Z) (segs : list read_segment) : option (list read_segment) :=
  match todo with
  | O => Some segs
  | S todo =>
      if bool_decide (b < nblk)%nat && bool_decide (horizon_of Ha ustar b = cur) then
        split_segments todo addr lba Ha ustar nblk (S b) seg_start cur segs
      else if decide (length segs = k_max_segments) then None
      else
        let sg := Mk_read_segment (u64 (addr + Z.of_nat seg_start * lba))
                    (Z.of_nat (b - seg_start) * lba) cur in
        let cur := if decide (b < nblk)%nat then horizon_of Ha ustar b else cur in
        split_segments todo addr lba Ha ustar nblk (S b) b cur (segs ++ [sg])
  end.

Definition split (st : dlsn_tracker) (t : T) (addr len Ha umin : Z) (any_failed : bool) :
    plan_outcome :=
  let lba := lba_size_ st in
  let nblk := if lba =? 0 then 0 else len `div` lba in
  if (nblk =? 0) || (k_max_blocks <? nblk) then fenced any_failed
  else
    let ustar := split_scan addr len lba nblk Ha (st_foreach_all_active t umin)
                   (replicate (Z.to_nat nblk) (-1)) in
    match split_segments (Z.to_nat nblk) addr lba Ha ustar (Z.to_nat nblk) 1 0
            (horizon_of Ha ustar 0) [] with
    | Some segs => Mk_plan_outcome segs false
    | None => fenced any_failed
    end.

Definition count_winner_scan (st : dlsn_tracker) : dlsn_tracker :=
  Mk_tracker (next_dlsn_ st) (frontier_ st) (highest_acked_ st) (last_trunc_ st)
    (winner_scans_ st + 1) (resolve_want_ st) (tracker_ st) (lba_size_ st) (scan_cap_ st).

Definition compute (st : dlsn_tracker) (addr len : Z) : option (plan_outcome * dlsn_tracker) :=
  let F := frontier_ st in
  let Ha := highest_acked_ st in
  if Ha <=? F then Some (one_segment addr len (Z.max F Ha), st)
  else
    t ← tracker_ st;
    let sc := compute_loop (Z.to_nat (Ha - F)) t addr len Ha (F + 1) (Mk_scan (-1) false false) in
    if sc_umin sc <? 0 then Some (one_segment addr len Ha, st)
    else if sc_any_gap sc || (scan_cap_ st <? Ha - sc_umin sc) then
      Some (fenced (sc_any_failed sc), st)
    else Some (split st t addr len Ha (sc_umin sc) (sc_any_failed sc), count_winner_scan st).

(** [plan_read] re-plans at every wake-up of the gate: [obs] are the tracker states it
    observes at its successive calls of [compute].  [None]: still suspended after them. *)
Fixpoint plan_read (obs : list dlsn_tracker) (addr len : Z) :
    option (result error_condition (list read_segment)) :=
  match obs with
  | [] => None
  | st :: obs =>
      '(p, _) ← compute st addr len;
      if stall p then plan_read obs addr len
      else if degraded p then Some (Err (ec_craft NO_QUORUM))
      else Some (Ok (po_segs p))
  end.

(** The loop of [retire_upto]; [on_filled] acts on the caller's state [s].
    [std::binary_search] on the ascending [empties] is membership. *)
Fixpoint retire_loop {S} (fuel : nat) (on_filled : Z → S → S) (empties : list Z) (hi h : Z)
    (st : dlsn_tracker) (s : S) : option (dlsn_tracker * S) :=
  match fuel with
  | O => Some (st, s)
  | Datatypes.S fuel =>
      if h <=? hi then
        t ← tracker_ st;
        let u := Z.min (st_completed_upto t h) hi + 1 in
        if hi <? u then Some (st, s)
        else
          match active_at t u with
          | None => retire_loop fuel on_filled empties hi (u + 1) st s
          | Some _ =>
              if decide (u ∈ empties) then
                st ← resolve st u empty;
                retire_loop fuel on_filled empties hi (u + 1) st s
              else
                let s := on_filled u s in
                st ← resolve st u acked;
                retire_loop fuel on_filled empties hi (u + 1) st s
          end
      else Some (st, s)
  end.

Definition retire_upto {S} (on_filled : Z → S → S) (st : dlsn_tracker) (upto : Z)
    (empties : list Z) (s : S) : option (dlsn_tracker * S) :=
  match tracker_ st with
  | None => Some (st, s)
  | Some _ =>
      let hi := Z.min upto (next_dlsn_ st - 1) in
      let h := frontier_ st + 1 in
      retire_loop (Z.to_nat (hi - h + 1)) on_filled empties hi h st s
  end.
End tracker.
Arguments dlsn_tracker : clear implicits.
