(* ===== verification/DlsnSpec.v ===== *)
(** * What the dLSN tracker promises

    An abstract session: the login watermark, the dLSNs handed out since, and the slot of
    every created one, with nothing truncated and no cached watermark.  [refines] relates
    it to the tracker of [DlsnTracker]: F is the longest resolved prefix of the session, Ha
    its highest acked slot, and the window of the stream tracker agrees with the session.
    Every operation of the tracker is simulated by the session's. *)

From S2P Require Import Prelude Codec WireTypes Wire Types StreamTracker DlsnTracker.

Local Open Scope craft_scope.
Local Open Scope Z_scope.

(** ** The abstract session *)

Record session := Mk_session {
  ss_login : Z;
  ss_next : Z;
  ss_slots : gmap Z dlsn_slot;
}.

Definition slot_ok (sl : dlsn_slot) : Prop :=
  0 ≤ ds_addr sl ∧ 0 < ds_len sl ∧ ds_addr sl + ds_len sl < 2 ^ 64.

Definition resolved_at (s : session) (d : Z) : bool :=
  match ss_slots s !! d with Some sl => is_resolved (ds_outcome sl) | None => false end.

Definition settle (oc : slot_outcome) (sl : dlsn_slot) : dlsn_slot :=
  if is_resolved (ds_outcome sl) then sl else Mk_dlsn_slot (ds_addr sl) (ds_len sl) oc.

Definition spec_take (s : session) : session :=
  Mk_session (ss_login s) (ss_next s + 1) (ss_slots s).
Definition spec_create (s : session) (d addr len : Z) : session :=
  Mk_session (ss_login s) (ss_next s) (<[d := Mk_dlsn_slot addr len in_flight]> (ss_slots s)).
Definition spec_resolve (s : session) (d : Z) (oc : slot_outcome) : session :=
  Mk_session (ss_login s) (ss_next s) (alter (settle oc) d (ss_slots s)).

(** A resolution round retires every created slot of [lo..hi]. *)
Definition verdict (empties : list Z) (d : Z) : slot_outcome :=
  if decide (d ∈ empties) then empty else acked.
Definition spec_retire (s : session) (empties : list Z) (lo hi : Z) : session :=
  Mk_session (ss_login s) (ss_next s)
    (map_imap (λ d sl, Some (if decide (lo ≤ d ≤ hi) then settle (verdict empties d) sl else sl))
       (ss_slots s)).

(** The dLSNs of [lo..hi] that are not resolved, ascending; gaps included. *)
Definition unresolved (s : session) (lo hi : Z) : list Z :=
  filter (λ d, resolved_at s d = false) (range lo hi).

(** The slots a round fills from a holder: unresolved, created and not verdicted Empty. *)
Definition filled (s : session) (empties : list Z) (lo hi : Z) : list Z :=
  filter (λ d, is_Some (ss_slots s !! d) ∧ d ∉ empties) (unresolved s lo hi).

Section refinement.
Context {T : Type} `{ST : !StreamTracker dlsn_slot T}.
Implicit Types (s : session) (st : dlsn_tracker T) (t : T).

(** The relation without the maximality of F, which a resolve breaks until
    [advance_frontier] runs. *)
Record refines_upto s st t : Prop := {
  rf_tracker : tracker_ st = Some t;
  rf_next : next_dlsn_ st = ss_next s;
  rf_base : ss_login s < st_base t ≤ frontier_ st + 1;
  rf_slot i : st_base t ≤ i → st_slot t i = ss_slots s !! i;
  rf_done i : st_base t ≤ i → st_done t i = resolved_at s i;
  rf_dom i sl : ss_slots s !! i = Some sl → ss_login s < i < ss_next s ∧ slot_ok sl;
  rf_front : ss_login s ≤ frontier_ st < ss_next s;
  rf_prefix i : ss_login s < i ≤ frontier_ st → resolved_at s i = true;
  rf_ha i sl : ss_slots s !! i = Some sl → ds_outcome sl = acked → i ≤ highest_acked_ st;
  rf_ha_login : ss_login s ≤ highest_acked_ st;
  rf_ha_acked : highest_acked_ st = ss_login s ∨
    ∃ sl, ss_slots s !! highest_acked_ st = Some sl ∧ ds_outcome sl = acked;
  rf_trunc : last_trunc_ st ≤ frontier_ st;
}.

Definition refines s st : Prop :=
  (∃ t, refines_upto s st t) ∧ resolved_at s (frontier_ st + 1) = false.

Lemma refines_reset st login_dlsn lba_size :
  refines (Mk_session login_dlsn (login_dlsn + 1) ∅) (reset_at st login_dlsn lba_size).
Proof.
  split; [|by unfold resolved_at]. exists (st_new login_dlsn).
  split; simpl; try done; try lia.
  - rewrite st_new_base. lia.
  - intros i _. by rewrite st_new_slot, lookup_empty.
  - intros i _. by rewrite st_new_done.
Qed.

Lemma refines_take s st : refines s st → refines (spec_take s) (reserve_take st).2.
Proof.
  intros [[t []] Hmax]. split; [|done]. exists t.
  split; simpl; try done; try lia.
  intros i sl H. destruct (rf_dom0 i sl H). split; [lia|done].
Qed.

Lemma resolved_at_create s d addr len i :
  ss_slots s !! d = None → resolved_at (spec_create s d addr len) i = resolved_at s i.
Proof.
  intros Hd. unfold resolved_at. simpl. rewrite lookup_insert. case_decide; [|done].
  subst. by rewrite Hd.
Qed.

Lemma refines_create s st d addr len :
  refines s st → ss_login s < d < ss_next s → ss_slots s !! d = None →
  slot_ok (Mk_dlsn_slot addr len in_flight) →
  ∃ st', reserve_create st d addr len = Some st' ∧ refines (spec_create s d addr len) st'.
Proof.
  intros [[t []] Hmax] Hd Hnone Hok. unfold reserve_create. rewrite rf_tracker0. simpl.
  eexists. split; [done|].
  assert (frontier_ st < d) as Hfd.
  { destruct (decide (d ≤ frontier_ st)); [|lia].
    assert (resolved_at s d = true) as H by (apply rf_prefix0; lia).
    unfold resolved_at in H. by rewrite Hnone in H. }
  split; [|by rewrite resolved_at_create].
  eexists. split; simpl; try done.
  - by rewrite st_create_base.
  - intros i. rewrite st_create_base. intros Hi.
    rewrite st_create_slot, lookup_insert by lia.
    destruct (decide (i = d)) as [->|]; [by rewrite decide_True|].
    rewrite decide_False by congruence. auto.
  - intros i. rewrite st_create_base. intros Hi.
    rewrite st_create_done, resolved_at_create by (done || lia || (rewrite rf_slot0; [done|lia])).
    auto.
  - intros i sl. rewrite lookup_insert. case_decide; [intros [= <-]; subst; auto|apply rf_dom0].
  - intros i Hi. rewrite resolved_at_create by done. auto.
  - intros i sl. rewrite lookup_insert. case_decide; [by intros [= <-]|apply rf_ha0].
  - destruct rf_ha_acked0 as [|(sl & Hs & Ha)]; [by left|]. right. exists sl.
    rewrite lookup_insert_ne by congruence. done.
Qed.

(** [advance_frontier] restores maximality; it never moves F past an unresolved slot. *)
Lemma advance_frontier_refines s st t :
  refines_upto s st t →
  ∃ st', advance_frontier st = Some st' ∧ refines s st' ∧
    next_dlsn_ st' = next_dlsn_ st ∧ frontier_ st ≤ frontier_ st' ∧
    highest_acked_ st' = highest_acked_ st.
Proof.
  intros R. pose proof R as []. unfold advance_frontier. rewrite rf_tracker0. simpl.
  set (r := st_completed_upto t (frontier_ st + 1)).
  assert (∀ i, frontier_ st < i ≤ r → resolved_at s i = true) as Hrun.
  { intros i Hi. destruct (st_upto_run t (frontier_ st + 1) i); [lia|lia|].
    rewrite <-rf_done0 by lia. done. }
  assert (resolved_at s (r + 1) = false) as Hstop.
  { pose proof (st_upto_base t (frontier_ st + 1)).
    rewrite <-rf_done0 by lia. apply st_upto_max. }
  assert (∀ i, resolved_at s i = true → i < ss_next s) as Hissued.
  { unfold resolved_at. intros i. destruct (ss_slots s !! i) eqn:Hi; [|done].
    intros _. apply rf_dom0 in Hi. lia. }
  assert (frontier_ st ≤ r) as Hge by (pose proof (st_upto_ge t (frontier_ st + 1)); lia).
  assert (Z.min r (next_dlsn_ st - 1) = r) as ->.
  { destruct (decide (r = frontier_ st)); [lia|].
    specialize (Hissued r (Hrun r ltac:(lia))). lia. }
  destruct (r <=? frontier_ st) eqn:Hle.
  { exists st. split_and!; try done. split; [by exists t|].
    by replace (frontier_ st) with r by lia. }
  assert (∀ i, ss_login s < i ≤ r → resolved_at s i = true) as Hprefix.
  { intros i Hi. destruct (decide (i ≤ frontier_ st)); [apply rf_prefix0|apply Hrun]; lia. }
  assert (r < ss_next s) as Hrn by (apply Hissued, Hprefix; lia).
  destruct (k_trunc_batch <=? r - last_trunc_ st).
  - eexists. split; [done|]. split_and!; simpl; try done. split; [|done].
    exists (st_truncate t r). pose proof (st_truncate_base t r).
    split; simpl; try done; try lia; intros i Hi.
    + rewrite st_truncate_slot by done. apply rf_slot0. lia.
    + rewrite st_truncate_done by done. apply rf_done0. lia.
  - eexists. split; [done|]. split_and!; simpl; try done. split; [|done].
    exists t. split; simpl; try done; lia.
Qed.

(** ** Resolve *)

Lemma lookup_spec_resolve s d oc i :
  ss_slots (spec_resolve s d oc) !! i =
    if decide (d = i) then settle oc <$> ss_slots s !! i else ss_slots s !! i.
Proof. simpl. rewrite lookup_alter. by case_decide; subst. Qed.

Lemma resolved_settle oc sl :
  is_resolved (ds_outcome (settle oc sl)) = is_resolved (ds_outcome sl) || is_resolved oc.
Proof. unfold settle. by destruct (is_resolved (ds_outcome sl)) eqn:H. Qed.

Lemma resolved_at_resolve s d oc sl i :
  ss_slots s !! d = Some sl →
  resolved_at (spec_resolve s d oc) i =
    if decide (i = d) then resolved_at s i || is_resolved oc else resolved_at s i.
Proof.
  intros Hd. unfold resolved_at. rewrite lookup_spec_resolve.
  destruct (decide (d = i)) as [->|]; [|by rewrite decide_False by congruence].
  rewrite Hd, decide_True by done. apply resolved_settle.
Qed.

Lemma spec_resolve_settled s d oc sl :
  ss_slots s !! d = Some sl → is_resolved (ds_outcome sl) = true → spec_resolve s d oc = s.
Proof.
  intros Hd Hr. destruct s as [l n m]. unfold spec_resolve. simpl in *. f_equal.
  apply alter_id. intros sl' Hd'. rewrite Hd in Hd'. injection Hd' as <-.
  unfold settle. by rewrite Hr.
Qed.

Lemma resolved_below_base s st t d sl :
  refines_upto s st t → ss_slots s !! d = Some sl → d < st_base t →
  is_resolved (ds_outcome sl) = true.
Proof.
  intros [] Hd Hb. assert (resolved_at s d = true) as H.
  { apply rf_prefix0. apply rf_dom0 in Hd. lia. }
  unfold resolved_at in H. by rewrite Hd in H.
Qed.

Lemma set_tracker_id st t : tracker_ st = Some t → set_tracker st t = st.
Proof. destruct st. simpl. by intros ->. Qed.

(** The state [resolve] reaches before [advance_frontier], when the outcome applied. *)
Lemma resolve_applied_refines s st t d oc sl :
  refines_upto s st t → ss_slots s !! d = Some sl → st_base t ≤ d →
  is_resolved (ds_outcome sl) = false →
  let t' := (st_update t d (resolve_slot oc) false).1 in
  let st' := set_tracker st t' in
  refines_upto (spec_resolve s d oc)
    (if decide (oc = acked) then set_highest_acked st' d else st') t'.
Proof.
  intros R Hd Hb Hr t' st'. pose proof R as [].
  assert (st_slot t d = Some sl) as Hs by (rewrite rf_slot0; done).
  pose proof (st_update_active t d (resolve_slot oc) false sl Hs) as Hup.
  unfold resolve_slot in Hup at 1. rewrite Hr in Hup. destruct Hup as (_ & Hslot & Hdone).
  assert (settle oc sl = Mk_dlsn_slot (ds_addr sl) (ds_len sl) oc) as Hset
    by (unfold settle; by rewrite Hr).
  assert (∀ i, st_base t ≤ i → st_slot t' i = ss_slots (spec_resolve s d oc) !! i) as Hslot'.
  { intros i Hi. unfold t'. rewrite Hslot, lookup_spec_resolve, rf_slot0 by done.
    destruct (decide (i = d)) as [->|]; [|by rewrite decide_False by congruence].
    by rewrite decide_True, Hd, <-Hset by done. }
  assert (∀ i, st_base t ≤ i → st_done t' i = resolved_at (spec_resolve s d oc) i) as Hdone'.
  { intros i Hi. unfold t'. rewrite Hdone, (resolved_at_resolve s d oc sl), rf_done0 by done.
    case_decide; [apply orb_comm|done]. }
  assert (∀ i sl', ss_slots (spec_resolve s d oc) !! i = Some sl' →
            ss_slots s !! i = Some sl' ∨ i = d ∧ sl' = settle oc sl) as Hcase.
  { intros i sl'. rewrite lookup_spec_resolve. case_decide; [|by left].
    subst. rewrite Hd. intros [= <-]. by right. }
  assert (∀ i sl', ss_slots (spec_resolve s d oc) !! i = Some sl' →
            ss_login s < i < ss_next s ∧ slot_ok sl') as Hdom.
  { intros i sl' Hi. destruct (Hcase i sl' Hi) as [|[-> ->]]; [by apply rf_dom0|].
    rewrite Hset. exact (rf_dom0 d sl Hd). }
  assert (∀ i, ss_login s < i ≤ frontier_ st → resolved_at (spec_resolve s d oc) i = true)
    as Hprefix.
  { intros i Hi. rewrite (resolved_at_resolve s d oc sl) by done.
    rewrite rf_prefix0 by done. by case_decide. }
  assert (∀ sl0, ss_slots s !! highest_acked_ st = Some sl0 → ds_outcome sl0 = acked →
            ss_slots (spec_resolve s d oc) !! highest_acked_ st = Some sl0) as Hkeep.
  { intros sl0 H0 Ha. rewrite lookup_spec_resolve. case_decide as Heq; [|done].
    exfalso. subst. rewrite Hd in H0. injection H0 as ->. by rewrite Ha in Hr. }
  pose proof (st_update_base t d (resolve_slot oc) false) as Hbase. fold t' in Hbase.
  destruct (rf_dom0 d sl Hd) as [Hdr _].
  destruct (decide (oc = acked)) as [->|Hoc];
    (split; unfold set_highest_acked, st' in *; cbn [tracker_ set_tracker next_dlsn_ frontier_
       highest_acked_ last_trunc_ ss_login ss_next spec_resolve];
     rewrite ?Hbase; try done; try lia).
  - intros i sl' Hi Ha. destruct (Hcase i sl' Hi) as [Hi'|[-> _]]; [|lia].
    specialize (rf_ha0 i sl' Hi' Ha). lia.
  - right. destruct (decide (highest_acked_ st ≤ d)) as [Hle|].
    + exists (settle acked sl). rewrite Z.max_r by done. split; [|by rewrite Hset].
      rewrite lookup_spec_resolve, decide_True, Hd by done. done.
    + rewrite Z.max_l by lia. destruct rf_ha_acked0 as [|(sl0 & H0 & Ha)]; [lia|].
      exists sl0. auto.
  - intros i sl' Hi Ha. destruct (Hcase i sl' Hi) as [Hi'|[-> ->]]; [by apply (rf_ha0 i sl')|].
    rewrite Hset in Ha. done.
  - destruct rf_ha_acked0 as [|(sl0 & H0 & Ha)]; [by left|]. right. exists sl0. auto.
Qed.

Lemma resolve_refines s st d oc sl :
  refines s st → ss_slots s !! d = Some sl →
  ∃ st', resolve st d oc = Some st' ∧ refines (spec_resolve s d oc) st' ∧
    next_dlsn_ st' = next_dlsn_ st ∧ frontier_ st ≤ frontier_ st' ∧
    highest_acked_ st ≤ highest_acked_ st'.
Proof.
  intros [[t R] Hmax] Hd. unfold resolve. rewrite (rf_tracker _ _ _ R). simpl.
  destruct (decide (st_base t ≤ d)) as [Hb|Hb].
  2:{ rewrite st_update_truncated by lia. simpl.
      rewrite set_tracker_id by apply R. exists st.
      rewrite (spec_resolve_settled s d oc sl) by
        (done || (eapply resolved_below_base; [done..|lia])).
      split_and!; try done; try lia. split; [by exists t|done]. }
  assert (st_slot t d = Some sl) as Hs by (by rewrite (rf_slot _ _ _ R)).
  pose proof (st_update_active t d (resolve_slot oc) false sl Hs) as Hup.
  destruct (is_resolved (ds_outcome sl)) eqn:Hr.
  - unfold resolve_slot in Hup at 1. rewrite Hr in Hup. destruct Hup as (Hf & Hslot & Hdone).
    rewrite (spec_resolve_settled s d oc sl) by done.
    pose proof (st_update_base t d (resolve_slot oc) false) as Hbase.
    destruct (st_update t d (resolve_slot oc) false) as [t' ap]. simpl in *. subst ap. simpl.
    eexists. split; [done|]. split_and!; simpl; try lia. split; [|done]. exists t'.
    destruct R. split; simpl; rewrite ?Hbase; try done.
    + intros i Hi. rewrite Hslot. destruct (decide (i = d)) as [->|]; [done|auto].
    + intros i Hi. rewrite Hdone. destruct (decide (i = d)) as [->|]; [|auto].
      unfold resolved_at. by rewrite Hd, Hr.
  - pose proof (resolve_applied_refines s st t d oc sl R Hd Hb Hr) as R'.
    unfold resolve_slot in Hup at 1. rewrite Hr in Hup. destruct Hup as (Hf & _ & _).
    destruct (st_update t d (resolve_slot oc) false) as [t' ap]. simpl in *. subst ap. simpl.
    set (st1 := if decide (oc = acked) then _ else _) in *.
    assert (next_dlsn_ st1 = next_dlsn_ st ∧ frontier_ st1 = frontier_ st ∧
            highest_acked_ st ≤ highest_acked_ st1) as (Hn & Hfr & Hh)
      by (unfold st1; case_decide; simpl; lia).
    destruct (is_resolved oc) eqn:Hoc.
    + destruct (advance_frontier_refines _ _ _ R') as (st' & -> & ? & ? & ? & ?).
      exists st'. split_and!; try done; lia.
    + exists st1. split_and!; try done; try lia. split; [by exists t'|].
      rewrite Hfr, (resolved_at_resolve s d oc sl), Hoc, orb_false_r, Hmax by done.
      by case_decide.
Qed.

(** ** Hopping from gap to gap *)

Lemma unresolved_nil s lo hi : hi < lo → unresolved s lo hi = [].
Proof. intros H. unfold unresolved. by rewrite range_nil. Qed.

Lemma unresolved_cons s lo hi :
  lo ≤ hi → unresolved s lo hi =
    if resolved_at s lo then unresolved s (lo + 1) hi else lo :: unresolved s (lo + 1) hi.
Proof.
  intros H. unfold unresolved. rewrite range_cons by done.
  destruct (resolved_at s lo) eqn:Hr.
  - by rewrite filter_cons_False by congruence.
  - by rewrite filter_cons_True.
Qed.

Lemma unresolved_skip s lo mid hi :
  lo ≤ mid → (∀ i, lo ≤ i < mid → resolved_at s i = true) →
  unresolved s lo hi = unresolved s mid hi.
Proof.
  intros Hle. remember (Z.to_nat (mid - lo)) as n eqn:Hn. revert lo Hle Hn.
  induction n as [|n IH]; intros lo Hle Hn Hr; [by replace lo with mid by lia|].
  destruct (decide (lo ≤ hi)) as [Hlo|]; [|by rewrite !unresolved_nil by lia].
  rewrite unresolved_cons, Hr by lia. apply IH; [lia..|]. intros i Hi. apply Hr. lia.
Qed.

Lemma hop_run s st t h i :
  refines_upto s st t → ss_login s < h → h ≤ i ≤ st_completed_upto t h →
  resolved_at s i = true.
Proof.
  intros R Hh Hi. destruct R. destruct (st_upto_run t h i Hi) as [Hb|Hd].
  - apply rf_prefix0. lia.
  - destruct (decide (st_base t ≤ i)); [by rewrite <-rf_done0|apply rf_prefix0; lia].
Qed.

(** The successor of [completed_upto] is the next unresolved dLSN. *)
Lemma hop s st t h hi :
  refines_upto s st t → ss_login s < h →
  let u := st_completed_upto t h + 1 in
  h ≤ u ∧ st_base t ≤ u ∧ resolved_at s u = false ∧
  unresolved s h hi = if decide (u ≤ hi) then u :: unresolved s (u + 1) hi else [].
Proof.
  intros R Hh u. pose proof (st_upto_ge t h). pose proof (st_upto_base t h).
  assert (resolved_at s u = false) as Hu.
  { rewrite <-(rf_done _ _ _ R) by lia. apply st_upto_max. }
  split_and!; [lia|lia|done|].
  rewrite (unresolved_skip s h u) by (lia || (intros i Hi; eapply hop_run; [done..|lia])).
  case_decide; [|by rewrite unresolved_nil by lia].
  rewrite unresolved_cons by done. by rewrite Hu.
Qed.

Lemma active_at_slot t u : active_at t u = st_slot t u.
Proof.
  unfold active_at. pose proof (st_foreach_sorted t u) as Hs.
  destruct (st_foreach_all_active t u) as [|[i a] l] eqn:Hl.
  - destruct (st_slot t u) as [a|] eqn:Hu; [|done].
    assert ((u, a) ∈ st_foreach_all_active t u) as H by (apply st_foreach_elem; auto with lia).
    rewrite Hl in H. by apply not_elem_of_nil in H.
  - assert ((i, a) ∈ st_foreach_all_active t u) as Hi by (rewrite Hl; left).
    apply st_foreach_elem in Hi as [Hge Hia]. case_decide as Heq; [by subst|].
    destruct (st_slot t u) as [b|] eqn:Hu; [|done]. exfalso.
    assert ((u, b) ∈ st_foreach_all_active t u) as H by (apply st_foreach_elem; auto with lia).
    rewrite Hl in H. apply elem_of_cons in H as [[= ? ?]|H]; [by subst|].
    inversion Hs as [|? ? _ Hall]; subst. rewrite Forall_forall in Hall.
    specialize (Hall u (list_elem_of_fmap_2 fst _ _ H)). lia.
Qed.

Lemma active_at_session s st t u :
  refines_upto s st t → st_base t ≤ u → active_at t u = ss_slots s !! u.
Proof. intros R Hb. rewrite active_at_slot. by apply (rf_slot _ _ _ R). Qed.

Lemma stats_loop_spec s st t fuel issued limit h count sample :
  refines_upto s st t → ss_login s < h → (Z.to_nat (issued - h + 1) ≤ fuel)%nat →
  stats_loop fuel t issued limit h count sample =
    ((count + length (unresolved s h issued))%nat,
     sample ++ take (limit - length sample) (unresolved s h issued)).
Proof.
  intros R. revert h count sample.
  induction fuel as [|fuel IH]; intros h count sample Hh Hf; simpl.
  { rewrite unresolved_nil, Nat.add_0_r, take_nil, app_nil_r by lia. done. }
  destruct (h <=? issued) eqn:Hle.
  2:{ rewrite unresolved_nil, Nat.add_0_r, take_nil, app_nil_r by lia. done. }
  destruct (hop s st t h issued R Hh) as (Hhu & _ & _ & Hu).
  destruct (decide (st_completed_upto t h + 1 ≤ issued)) as [Hin|Hout].
  - rewrite Z.min_l by lia. destruct (issued <? _) eqn:Hlt; [lia|].
    rewrite IH, Hu by lia. simpl. f_equal; [lia|].
    destruct (decide (length sample < limit)%nat).
    + rewrite <-(assoc_L (++)), length_app. simpl.
      replace (limit - length sample)%nat with (S (limit - (length sample + 1)))%nat by lia. done.
    + replace (limit - length sample)%nat with O by lia. done.
  - destruct (issued <? _) eqn:Hlt; [|lia]. rewrite Hu. simpl.
    by rewrite Nat.add_0_r, take_nil, app_nil_r.
Qed.

(** ** Retiring a resolution round *)

Lemma lookup_spec_retire s empties lo hi i :
  ss_slots (spec_retire s empties lo hi) !! i =
    (λ sl, if decide (lo ≤ i ≤ hi) then settle (verdict empties i) sl else sl) <$> ss_slots s !! i.
Proof. simpl. rewrite map_lookup_imap. by destruct (ss_slots s !! i). Qed.

Lemma session_eq s s' :
  ss_login s = ss_login s' → ss_next s = ss_next s' →
  (∀ i, ss_slots s !! i = ss_slots s' !! i) → s = s'.
Proof. destruct s, s'. simpl. intros -> -> H. f_equal. by apply map_eq. Qed.

Lemma settle_resolved oc sl : is_resolved (ds_outcome sl) = true → settle oc sl = sl.
Proof. unfold settle. by intros ->. Qed.

Lemma spec_retire_skip s empties lo mid hi :
  (∀ i, lo ≤ i < mid → i ≤ hi → resolved_at s i = true ∨ ss_slots s !! i = None) → lo ≤ mid →
  spec_retire s empties lo hi = spec_retire s empties mid hi.
Proof.
  intros Hr Hle. apply session_eq; [done..|]. intros i. rewrite !lookup_spec_retire.
  destruct (ss_slots s !! i) as [sl|] eqn:Hi; [|done]. simpl. f_equal.
  destruct (decide (lo ≤ i ≤ hi)), (decide (mid ≤ i ≤ hi)); try done; try lia.
  apply settle_resolved. destruct (Hr i) as [H|]; [lia..| |congruence].
  unfold resolved_at in H. by rewrite Hi in H.
Qed.

Lemma spec_retire_step s empties u hi :
  u ≤ hi →
  spec_retire s empties u hi =
    spec_retire (spec_resolve s u (verdict empties u)) empties (u + 1) hi.
Proof.
  intros Hle. apply session_eq; [done..|]. intros i.
  rewrite !lookup_spec_retire, lookup_spec_resolve.
  destruct (ss_slots s !! i) as [sl|] eqn:Hi; [|by destruct (decide (u = i))]. simpl.
  destruct (decide (u = i)) as [->|Hne]; simpl.
  - rewrite decide_True, decide_False by lia. done.
  - f_equal. destruct (decide (u ≤ i ≤ hi)), (decide (u + 1 ≤ i ≤ hi)); try done; lia.
Qed.

Lemma spec_retire_nil s empties lo hi : hi < lo → spec_retire s empties lo hi = s.
Proof.
  intros H. apply session_eq; [done..|]. intros i. rewrite lookup_spec_retire.
  destruct (ss_slots s !! i); [|done]. simpl. by rewrite decide_False by lia.
Qed.

Lemma filled_resolve s empties u oc sl hi :
  ss_slots s !! u = Some sl →
  filled (spec_resolve s u oc) empties (u + 1) hi = filled s empties (u + 1) hi.
Proof.
  intros Hu. unfold filled, unresolved. rewrite !list_filter_filter.
  apply list_filter_ext_in. intros i Hi%elem_of_range.
  rewrite (resolved_at_resolve s u oc sl), lookup_spec_resolve by done.
  rewrite !decide_False by lia. done.
Qed.

Lemma filled_hop s empties h hi u :
  unresolved s h hi = u :: unresolved s (u + 1) hi →
  filled s empties h hi =
    if decide (is_Some (ss_slots s !! u) ∧ u ∉ empties)
    then u :: filled s empties (u + 1) hi else filled s empties (u + 1) hi.
Proof. intros H. unfold filled. by rewrite H, filter_cons. Qed.

Lemma retire_loop_refines {X} (on_filled : Z → X → X) empties hi fuel :
  ∀ s st h x,
  refines s st → ss_login s < h → (Z.to_nat (hi - h + 1) ≤ fuel)%nat →
  ∃ st', retire_loop fuel on_filled empties hi h st x =
           Some (st', foldl (λ x d, on_filled d x) x (filled s empties h hi)) ∧
         refines (spec_retire s empties h hi) st' ∧
         frontier_ st ≤ frontier_ st' ∧ highest_acked_ st ≤ highest_acked_ st'.
Proof.
  induction fuel as [|fuel IH]; intros s st h x R Hh Hf; simpl.
  { exists st. unfold filled. rewrite spec_retire_nil, unresolved_nil by lia.
    split_and!; done || lia. }
  destruct (h <=? hi) eqn:Hle.
  2:{ exists st. unfold filled. rewrite spec_retire_nil, unresolved_nil by lia.
      split_and!; done || lia. }
  pose proof R as [[t Rt] Hmax]. rewrite (rf_tracker _ _ _ Rt). simpl.
  destruct (hop s st t h hi Rt Hh) as (Hhu & Hbu & Hru & Hu).
  set (u := st_completed_upto t h + 1) in *.
  assert (spec_retire s empties h hi = spec_retire s empties u hi) as ->.
  { apply spec_retire_skip; [|done]. intros i Hi _. left. eapply hop_run; [done..|lia]. }
  destruct (decide (u ≤ hi)) as [Hin|Hout].
  2:{ destruct (hi <? _) eqn:Hlt; [|lia]. exists st. unfold filled.
      rewrite Hu, spec_retire_nil by lia. split_and!; done || lia. }
  rewrite Z.min_l by lia. fold u. destruct (hi <? u) eqn:Hlt; [lia|].
  rewrite (active_at_session s st t u), (filled_hop s empties h hi u Hu) by done.
  destruct (ss_slots s !! u) as [sl|] eqn:Hsl.
  2:{ rewrite decide_False by (intros [[? ?] _]; done).
      rewrite (spec_retire_skip s empties u (u + 1)) by
        (lia || (intros i Hi _; right; by replace i with u by lia)).
      apply IH; [done|lia|lia]. }
  rewrite (spec_retire_step s empties u) by done. unfold verdict.
  destruct (decide (u ∈ empties)) as [Hem|Hem].
  - destruct (resolve_refines s st u empty sl R Hsl) as (st1 & -> & R1 & _ & Hf1 & Ha1). simpl.
    rewrite decide_False by (intros [_ ?]; done).
    destruct (IH _ st1 (u + 1) x R1) as (st' & H1 & H2 & H3 & H4); [simpl; lia|lia|].
    exists st'. rewrite (filled_resolve s empties u empty sl) in H1 by done.
    split_and!; [done..|lia|lia].
  - destruct (resolve_refines s st u acked sl R Hsl) as (st1 & -> & R1 & _ & Hf1 & Ha1). simpl.
    rewrite decide_True by eauto.
    destruct (IH _ st1 (u + 1) (on_filled u x) R1) as (st' & H1 & H2 & H3 & H4);
      [simpl; lia|lia|].
    exists st'. rewrite (filled_resolve s empties u acked sl) in H1 by done.
    split_and!; [done..|lia|lia].
Qed.

(** Below F every created slot is resolved, so a round starting at F+1 covers them all. *)
Lemma spec_retire_from_login s st empties hi :
  refines s st →
  spec_retire s empties (frontier_ st + 1) hi = spec_retire s empties (ss_login s + 1) hi.
Proof.
  intros [[t []] _]. symmetry. apply spec_retire_skip; [|lia].
  intros i Hi _. left. apply rf_prefix0. lia.
Qed.

Lemma retire_upto_refines {X} (on_filled : Z → X → X) s st upto empties x :
  refines s st →
  let hi := Z.min upto (ss_next s - 1) in
  ∃ st', retire_upto on_filled st upto empties x =
           Some (st', foldl (λ x d, on_filled d x) x (filled s empties (frontier_ st + 1) hi)) ∧
         refines (spec_retire s empties (ss_login s + 1) hi) st' ∧
         frontier_ st ≤ frontier_ st' ∧ highest_acked_ st ≤ highest_acked_ st'.
Proof.
  intros R hi. pose proof R as [[t Rt] _]. unfold retire_upto.
  rewrite (rf_tracker _ _ _ Rt), (rf_next _ _ _ Rt). fold hi.
  rewrite <-(spec_retire_from_login s st) by done.
  apply retire_loop_refines; [done|pose proof (rf_front _ _ _ Rt); lia|lia].
Qed.
End refinement.

(** ** Runs of a session *)

(** What a client does to its tracker after login.  The accesses of several threads
    interleave: a dLSN taken by one thread may be created after later ones resolved. *)
Inductive tracker_op :=
| op_take
| op_create (d addr len : Z)
| op_resolve (d : Z) (oc : slot_outcome)
| op_retire (upto : Z) (empties : list Z)
| op_want (upto : Z)
| op_clear (upto : Z)
| op_plan (addr len : Z).

Definition spec_op (s : session) (o : tracker_op) : session :=
  match o with
  | op_take => spec_take s
  | op_create d addr len => spec_create s d addr len
  | op_resolve d oc => spec_resolve s d oc
  | op_retire upto empties =>
      spec_retire s empties (ss_login s + 1) (Z.min upto (ss_next s - 1))
  | op_want _ | op_clear _ | op_plan _ _ => s
  end.

(** The discipline of the client: a slot is created once, for a dLSN that was handed out,
    and only a created slot is resolved. *)
Definition op_enabled (s : session) (o : tracker_op) : Prop :=
  match o with
  | op_create d addr len =>
      ss_login s < d < ss_next s ∧ ss_slots s !! d = None ∧
      slot_ok (Mk_dlsn_slot addr len in_flight)
  | op_resolve d _ => is_Some (ss_slots s !! d)
  | _ => True
  end.

Fixpoint spec_run (s : session) (ops : list tracker_op) : session :=
  match ops with [] => s | o :: ops => spec_run (spec_op s o) ops end.

Fixpoint ops_enabled (s : session) (ops : list tracker_op) : Prop :=
  match ops with [] => True | o :: ops => op_enabled s o ∧ ops_enabled (spec_op s o) ops end.

Section runs.
Context {T : Type} `{ST : !StreamTracker dlsn_slot T}.
Implicit Types (s : session) (st : dlsn_tracker T).

Definition impl_op (st : dlsn_tracker T) (o : tracker_op) : option (dlsn_tracker T) :=
  match o with
  | op_take => Some (reserve_take st).2
  | op_create d addr len => reserve_create st d addr len
  | op_resolve d oc => resolve st d oc
  | op_retire upto empties => fst <$> retire_upto (λ _ (x : unit), x) st upto empties tt
  | op_want upto => Some (note_resolution_want st upto)
  | op_clear upto => Some (clear_resolution_want st upto)
  | op_plan addr len => snd <$> compute st addr len
  end.

Fixpoint impl_run (st : dlsn_tracker T) (ops : list tracker_op) : option (dlsn_tracker T) :=
  match ops with [] => Some st | o :: ops => st ← impl_op st o; impl_run st ops end.

(** Operations that change neither the window nor a watermark keep the relation. *)
Lemma refines_frame s st st' :
  next_dlsn_ st' = next_dlsn_ st → frontier_ st' = frontier_ st →
  highest_acked_ st' = highest_acked_ st → last_trunc_ st' = last_trunc_ st →
  tracker_ st' = tracker_ st → refines s st → refines s st'.
Proof.
  intros Hn Hf Hh Hl Ht [[t []] Hm]. split; [|by rewrite Hf]. exists t.
  split; rewrite ?Hn, ?Hf, ?Hh, ?Hl, ?Ht; done.
Qed.

Lemma compute_total s st addr len :
  refines s st → ∃ p st', compute st addr len = Some (p, st') ∧ refines s st' ∧
    frontier_ st' = frontier_ st ∧ highest_acked_ st' = highest_acked_ st.
Proof.
  intros R. pose proof R as [[t Rt] _]. unfold compute. rewrite (rf_tracker _ _ _ Rt). simpl.
  repeat case_match; do 2 eexists; (split_and!; [done| |done|done]);
    try done; by eapply refines_frame; [..|exact R].
Qed.

Lemma op_refines s st o :
  refines s st → op_enabled s o →
  ∃ st', impl_op st o = Some st' ∧ refines (spec_op s o) st' ∧
    frontier_ st ≤ frontier_ st' ∧ highest_acked_ st ≤ highest_acked_ st'.
Proof.
  intros R He. destruct o as [|d addr len|d oc|upto empties|upto|upto|addr len]; simpl in *.
  - exists (reserve_take st).2. split_and!; [done|by apply refines_take|simpl; lia..].
  - destruct He as (Hd & Hn & Hok).
    destruct (refines_create s st d addr len R Hd Hn Hok) as (st' & He & R').
    exists st'. split_and!; [done..| |]; unfold reserve_create in He;
      simplify_option_eq; lia.
  - destruct He as [sl Hsl]. destruct (resolve_refines s st d oc sl R Hsl) as (st' & ? & ? & ? & ? & ?).
    by exists st'.
  - destruct (retire_upto_refines (λ _ (x : unit), x) s st upto empties tt R)
      as (st' & -> & ? & ? & ?). by exists st'.
  - eexists. split; [done|]. unfold note_resolution_want. case_match; [|split_and!; done || lia].
    split_and!; simpl; [by eapply refines_frame; [..|exact R]|lia..].
  - eexists. split; [done|]. unfold clear_resolution_want. case_match; [|split_and!; done || lia].
    split_and!; simpl; [by eapply refines_frame; [..|exact R]|lia..].
  - destruct (compute_total s st addr len R) as (p & st' & -> & R' & Hf & Hh).
    exists st'. split_and!; [done..|lia|lia].
Qed.

Lemma run_refines_aux ops s st :
  refines s st → ops_enabled s ops →
  ∃ st', impl_run st ops = Some st' ∧ refines (spec_run s ops) st' ∧
    frontier_ st ≤ frontier_ st' ∧ highest_acked_ st ≤ highest_acked_ st'.
Proof.
  revert s st. induction ops as [|o ops IH]; intros s st R He; simpl in *.
  { exists st. split_and!; done || lia. }
  destruct He as [Ho He]. destruct (op_refines s st o R Ho) as (st1 & -> & R1 & ? & ?). simpl.
  destruct (IH _ st1 R1 He) as (st' & ? & ? & ? & ?). exists st'. split_and!; done || lia.
Qed.
End runs.

(** ** The contract *)

Lemma spec_op_resolved s o d sl :
  op_enabled s o → ss_slots s !! d = Some sl → is_resolved (ds_outcome sl) = true →
  ss_slots (spec_op s o) !! d = Some sl.
Proof.
  intros He Hd Hr. destruct o as [|d' addr len|d' oc|upto empties|upto|upto|addr len]; try done.
  - simpl. destruct He as (_ & Hn & _). rewrite lookup_insert_ne by congruence. done.
  - unfold spec_op. rewrite lookup_spec_resolve, Hd. case_decide; [|done]. simpl.
    by rewrite settle_resolved.
  - unfold spec_op. rewrite lookup_spec_retire, Hd. simpl. case_decide; [|done].
    by rewrite settle_resolved.
Qed.

Lemma spec_run_resolved s ops d sl :
  ops_enabled s ops → ss_slots s !! d = Some sl → is_resolved (ds_outcome sl) = true →
  ss_slots (spec_run s ops) !! d = Some sl.
Proof.
  revert s. induction ops as [|o ops IH]; intros s He Hd Hr; [done|].
  destruct He as [Ho He]. apply IH; [done| |done]. by apply spec_op_resolved.
Qed.

(** C3: the tracker implements its session.  After a login at [l], whatever the client
    does (in any interleaving of its threads), no operation is undefined, the frontier F
    is the end of the longest resolved prefix of the issued dLSNs, and Ha is the highest
    acked dLSN (or [l]); truncation of the window is invisible. *)
Theorem tracker_refines {T} `{!StreamTracker dlsn_slot T} (st0 : dlsn_tracker T) l lba ops :
  let s0 := Mk_session l (l + 1) ∅ in
  ops_enabled s0 ops →
  let s := spec_run s0 ops in
  ∃ st, impl_run (reset_at st0 l lba) ops = Some st ∧
    next_dlsn_ st = ss_next s ∧
    (∀ d, l < d ≤ frontier st → resolved_at s d = true) ∧
    resolved_at s (frontier st + 1) = false ∧
    (∀ d sl, ss_slots s !! d = Some sl → ds_outcome sl = acked → d ≤ highest_acked_ st) ∧
    (highest_acked_ st = l ∨
       ∃ sl, ss_slots s !! highest_acked_ st = Some sl ∧ ds_outcome sl = acked).
Proof.
  intros s0 He s.
  destruct (run_refines_aux ops s0 (reset_at st0 l lba)) as (st & Hr & [[t R] Hm] & _);
    [apply refines_reset|done|].
  assert (ss_login (spec_run s0 ops) = l) as Hl.
  { clear. assert (ss_login s0 = l) as Hs0 by done. revert Hs0. generalize s0.
    induction ops as [|o ops IH]; intros s1 H1; [done|]. apply IH. by destruct o. }
  exists st. destruct R. rewrite Hl in *. unfold frontier. split_and!; done.
Qed.

(** Within a session the watermarks never move back and a verdict is permanent: once
    a slot is acked or Empty, every later operation (a late leg, a resolution round)
    leaves its outcome alone. *)
Theorem tracker_monotone {T} `{!StreamTracker dlsn_slot T} s (st : dlsn_tracker T) ops :
  refines s st → ops_enabled s ops →
  ∃ st', impl_run st ops = Some st' ∧
    frontier st ≤ frontier st' ∧ highest_acked_ st ≤ highest_acked_ st' ∧
    ∀ d sl t', ss_slots s !! d = Some sl → is_resolved (ds_outcome sl) = true →
      tracker_ st' = Some t' → ∀ sl', st_slot t' d = Some sl' → sl' = sl.
Proof.
  intros R He. destruct (run_refines_aux ops s st R He) as (st' & Hr & [[t R'] _] & ? & ?).
  exists st'. split_and!; try done. intros d sl t' Hd Hres Ht sl' Hsl'.
  rewrite (rf_tracker _ _ _ R') in Ht. injection Ht as <-.
  assert (st_base t ≤ d) as Hb by (apply st_slot_base; eauto).
  rewrite (rf_slot _ _ _ R') in Hsl' by done.
  rewrite (spec_run_resolved s ops d sl He Hd Hres) in Hsl'. congruence.
Qed.

(** [stats] is exact: the count is the number of issued dLSNs above F that are not
    resolved, and the sample lists the lowest of them in ascending order. *)
Theorem stats_exact {T} `{!StreamTracker dlsn_slot T} s (st : dlsn_tracker T) limit :
  refines s st →
  stats st limit =
    let u := unresolved s (frontier_ st + 1) (ss_next s - 1) in
    Mk_tracker_stats (frontier_ st) (highest_acked_ st) (ss_next s - 1)
      (length u) (take limit u) (winner_scans_ st).
Proof.
  intros [[t R] _]. unfold stats. rewrite (rf_tracker _ _ _ R), (rf_next _ _ _ R).
  pose proof (rf_front _ _ _ R).
  rewrite (stats_loop_spec s st t) by (done || lia). simpl. by rewrite Nat.sub_0_r.
Qed.

(** [retire_upto] settles a whole round: it returns, every created slot at or below
    [upto] is resolved afterwards (Empty exactly where the round says so, acked where it
    was filled, unchanged where it was already resolved), slots above are untouched, and
    [on_filled] runs once per filled slot, in ascending order. *)
Theorem retire_upto_spec {T} `{!StreamTracker dlsn_slot T} {X} (on_filled : Z → X → X)
    s (st : dlsn_tracker T) upto empties x :
  refines s st →
  let hi := Z.min upto (ss_next s - 1) in
  ∃ st' s', retire_upto on_filled st upto empties x =
      Some (st', foldl (λ x d, on_filled d x) x (filled s empties (frontier_ st + 1) hi)) ∧
    refines s' st' ∧
    (∀ d, ss_slots s' !! d =
       (λ sl, if is_resolved (ds_outcome sl) || bool_decide (upto < d) then sl
              else Mk_dlsn_slot (ds_addr sl) (ds_len sl)
                     (if decide (d ∈ empties) then empty else acked)) <$> ss_slots s !! d).
Proof.
  intros R hi.
  destruct (retire_upto_refines on_filled s st upto empties x R) as (st' & Hr & R' & _).
  exists st'. eexists. split; [exact Hr|]. split; [exact R'|].
  intros d. rewrite lookup_spec_retire. destruct (ss_slots s !! d) as [sl|] eqn:Hd; [|done].
  destruct R as [[t R] _]. destruct (rf_dom _ _ _ R d sl Hd) as [Hb _]. simpl. f_equal.
  unfold settle, verdict, hi. destruct (bool_decide_reflect (upto < d)).
  - rewrite decide_False by lia. by rewrite orb_true_r.
  - rewrite decide_True by lia. by rewrite orb_false_r.
Qed.

(** ** A session evaluated *)

Ltac enabled_by_eval :=
  vm_compute; repeat (split; [first [exact I | by eexists | repeat split; discriminate]|]);
  exact I.

Section example.
Let st0 : dlsn_tracker (MapTracker.t dlsn_slot) := mk_tracker 16.

(** Three writes; the second one acks first, the first fails and a round fills it. *)
Definition example_ops : list tracker_op :=
  [op_take; op_take; op_create 1 4096 512; op_create 0 0 512; op_resolve 1 acked;
   op_resolve 0 failed; op_want 0; op_take; op_create 2 0 1024; op_retire 1 [];
   op_resolve 0 empty].

Lemma example_enabled : ops_enabled (Mk_session (-1) 0 ∅) example_ops.
Proof. enabled_by_eval. Defined.

Lemma tracker_refines_witness :
  ∃ st, impl_run (reset_at st0 (-1) 512) example_ops = Some st ∧ next_dlsn_ st = 3.
Proof.
  destruct (tracker_refines st0 (-1) 512 example_ops example_enabled) as (st & H & Hn & _).
  by exists st.
Defined.

Lemma tracker_monotone_witness :
  ∃ st', impl_run (reset_at st0 (-1) 512) example_ops = Some st' ∧ -1 ≤ frontier st'.
Proof.
  destruct (tracker_monotone (Mk_session (-1) 0 ∅) (reset_at st0 (-1) 512) example_ops)
    as (st' & ? & ? & _); [apply (refines_reset st0 (-1) 512)|apply example_enabled|].
  by exists st'.
Defined.

(** The session and the tracker after a login at -1 and [ops]. *)
Definition session_after (ops : list tracker_op) : session := spec_run (Mk_session (-1) 0 ∅) ops.
Definition state_after (ops : list tracker_op) : dlsn_tracker (MapTracker.t dlsn_slot) :=
  default st0 (impl_run (reset_at st0 (-1) 512) ops).

Lemma state_after_refines ops :
  ops_enabled (Mk_session (-1) 0 ∅) ops → refines (session_after ops) (state_after ops).
Proof.
  intros He. destruct (run_refines_aux ops (Mk_session (-1) 0 ∅) (reset_at st0 (-1) 512))
    as (st & Hst & R & _); [apply (refines_reset st0 (-1) 512)|done|].
  unfold state_after. by rewrite Hst.
Qed.

(** Before the round dLSN 1 is acked, 0 failed and 2 in flight. *)
Definition example_session : session := session_after (take 9 example_ops).
Definition example_state : dlsn_tracker (MapTracker.t dlsn_slot) :=
  state_after (take 9 example_ops).

Lemma example_refines : refines example_session example_state.
Proof. apply state_after_refines. enabled_by_eval. Qed.

Lemma stats_exact_witness : ts_unresolved_sample (stats example_state 3) = [0; 2].
Proof. rewrite (stats_exact example_session); [reflexivity|apply example_refines]. Defined.

Lemma retire_upto_spec_witness :
  ∃ st', retire_upto (λ d x, x ++ [d]) example_state 9 [2] [] = Some (st', [0]).
Proof.
  destruct (retire_upto_spec (λ d x, x ++ [d]) example_session example_state 9 [2] [])
    as (st' & s' & H & _); [apply example_refines|]. by exists st'.
Defined.
End example.
