(* ===== verification/DlsnPlan.v ===== *)
(** * Read planning

    The planner of [src/dlsn_tracker.cpp] ([compute], [split], [plan_read]) against the
    abstract session of [DlsnSpec]: the segments tile the requested range, no segment's
    horizon exposes a write whose fate is open, and none hides an acknowledged one. *)

From S2P Require Import Prelude Codec WireTypes Wire Types StreamTracker DlsnTracker DlsnSpec.

Local Open Scope craft_scope.
Local Open Scope Z_scope.

(** Byte [x] of the volume lies in the slot's range. *)
Definition covers (sl : dlsn_slot) (x : Z) : Prop := ds_addr sl ≤ x < ds_addr sl + ds_len sl.

(** The segments are consecutive, non-empty and fill [a..e). *)
Fixpoint contiguous (a e : Z) (segs : list read_segment) : Prop :=
  match segs with
  | [] => a = e
  | sg :: segs => sg_addr sg = a ∧ 0 < sg_len sg ∧ contiguous (a + sg_len sg) e segs
  end.

(** Horizon [H] is right for byte [x]: every slot at or below it that is not resolved has a
    known range, and where it covers [x] an acked slot at or below [H] lies above it; and
    every acked slot covering [x] is at or below [H]. *)
Definition horizon_safe (s : session) (H x : Z) : Prop :=
  ∀ d, ss_login s < d ≤ H → resolved_at s d = false →
    ∃ sl, ss_slots s !! d = Some sl ∧
      (covers sl x → ∃ d' sl', d < d' ≤ H ∧ ss_slots s !! d' = Some sl' ∧
                        ds_outcome sl' = acked ∧ covers sl' x).
Definition horizon_fresh (s : session) (H x : Z) : Prop :=
  ∀ d sl, ss_slots s !! d = Some sl → ds_outcome sl = acked → covers sl x → d ≤ H.

Definition plan_ok (s : session) (addr len : Z) (segs : list read_segment) : Prop :=
  contiguous addr (addr + len) segs ∧
  Forall (λ sg, ∀ x, sg_addr sg ≤ x < sg_addr sg + sg_len sg →
            horizon_safe s (sg_H sg) x ∧ horizon_fresh s (sg_H sg) x) segs.

(** Every byte is read at or above the frontier [F] the plan was made at. *)
Definition plan_above (F : Z) (segs : list read_segment) : Prop :=
  Forall (λ sg, ∀ x, sg_addr sg ≤ x < sg_addr sg + sg_len sg → F ≤ sg_H sg) segs.

(** ** The scan of [compute] *)

Definition range_ok (addr len : Z) : Prop := 0 ≤ addr ∧ 0 < len ∧ addr + len < 2 ^ 64.

Lemma overlaps_iff a_off a_len b_off b_len :
  0 ≤ a_off → 0 ≤ a_len → a_off + a_len < 2 ^ 64 →
  0 ≤ b_off → 0 ≤ b_len → b_off + b_len < 2 ^ 64 →
  overlaps a_off a_len b_off b_len = true ↔ a_off < b_off + b_len ∧ b_off < a_off + a_len.
Proof.
  intros. unfold overlaps, u64. rewrite !wrap_small by (unfold in_u; lia).
  by rewrite andb_true_iff, !Z.ltb_lt.
Qed.

Lemma covers_overlaps addr len sl x :
  range_ok addr len → slot_ok sl → addr ≤ x < addr + len → covers sl x →
  overlaps addr len (ds_addr sl) (ds_len sl) = true.
Proof.
  unfold range_ok, slot_ok, covers. intros. apply overlaps_iff; lia.
Qed.

(** An index the scan counts: its range is unknown or meets the request. *)
Definition fences (s : session) (addr len u : Z) : bool :=
  match ss_slots s !! u with
  | None => true
  | Some sv => overlaps addr len (ds_addr sv) (ds_len sv)
  end.

Section scan.
Context {T : Type} `{ST : !StreamTracker dlsn_slot T}.
Implicit Types (s : session) (st : dlsn_tracker T) (t : T).

Lemma compute_loop_fold s st t addr len Ha fuel h sc :
  refines_upto s st t → ss_login s < h → (Z.to_nat (Ha - h + 1) ≤ fuel)%nat →
  compute_loop fuel t addr len Ha h sc =
    foldl (λ sc u, scan_hit t addr len u sc) sc (unresolved s h Ha).
Proof.
  intros R. revert h sc. induction fuel as [|fuel IH]; intros h sc Hh Hf; simpl.
  { by rewrite unresolved_nil by lia. }
  destruct (h <=? Ha) eqn:Hle; [|by rewrite unresolved_nil by lia].
  destruct (hop s st t h Ha R Hh) as (Hhu & _ & _ & Hu). rewrite Hu.
  destruct (decide (st_completed_upto t h + 1 ≤ Ha)).
  - destruct (Ha <? _) eqn:H1; [lia|]. destruct (_ <? h) eqn:H2; [lia|].
    simpl. apply IH; lia.
  - destruct (Ha <? _) eqn:H1; [done|lia].
Qed.

(** The three facts the scan collects over the unresolved indexes [us]: the lowest fencing
    index, whether a fencing slot failed and whether one has no slot yet. *)
Definition failed_hit s (addr len u : Z) : bool :=
  match ss_slots s !! u with
  | Some sv => bool_decide (ds_outcome sv = failed) && overlaps addr len (ds_addr sv) (ds_len sv)
  | None => false
  end.
Definition gap_at s (u : Z) : bool := bool_decide (ss_slots s !! u = None).
Definition first_fence s (addr len : Z) (us : list Z) : option Z :=
  head (filter (λ u, fences s addr len u = true) us).

Lemma scan_fold s st t addr len us sc :
  refines_upto s st t → Forall (λ u, st_base t ≤ u ∧ 0 ≤ u) us →
  foldl (λ sc u, scan_hit t addr len u sc) sc us =
    Mk_scan (if sc_umin sc <? 0 then default (sc_umin sc) (first_fence s addr len us)
             else sc_umin sc)
      (sc_any_failed sc || existsb (failed_hit s addr len) us)
      (sc_any_gap sc || existsb (gap_at s) us).
Proof.
  intros R Hus. revert sc. induction Hus as [|u us [Hb Hu] _ IH]; intros sc; simpl.
  { rewrite !orb_false_r. destruct sc. simpl. by case_match. }
  rewrite IH. unfold scan_hit, first_fence. rewrite (active_at_session s st t u) by done.
  rewrite filter_cons.
  assert (((if sc_umin sc <? 0 then u else sc_umin sc) <? 0) = false) as Hneg
    by (destruct (sc_umin sc <? 0) eqn:H; lia).
  destruct (ss_slots s !! u) as [sv|] eqn:Hs.
  - assert (gap_at s u = false) as -> by (unfold gap_at; by rewrite Hs).
    destruct (overlaps addr len (ds_addr sv) (ds_len sv)) eqn:Ho.
    + assert (failed_hit s addr len u = bool_decide (ds_outcome sv = failed)) as ->
        by (unfold failed_hit; by rewrite Hs, Ho, andb_true_r).
      rewrite decide_True by (unfold fences; by rewrite Hs). simpl.
      rewrite Hneg, orb_assoc. by destruct (sc_umin sc <? 0).
    + assert (failed_hit s addr len u = false) as ->
        by (unfold failed_hit; by rewrite Hs, Ho, andb_false_r).
      rewrite decide_False by (unfold fences; by rewrite Hs, Ho). done.
  - assert (gap_at s u = true) as -> by (unfold gap_at; by rewrite Hs).
    assert (failed_hit s addr len u = false) as -> by (unfold failed_hit; by rewrite Hs).
    rewrite decide_True by (unfold fences; by rewrite Hs). simpl.
    rewrite Hneg, orb_true_r. by destruct (sc_umin sc <? 0).
Qed.

Lemma first_fence_None s addr len us :
  first_fence s addr len us = None → ∀ u, u ∈ us → fences s addr len u = false.
Proof.
  unfold first_fence. intros H%head_None u Hu. destruct (fences s addr len u) eqn:Hf; [|done].
  assert (u ∈ filter (λ u, fences s addr len u = true) us) as Hin
    by (by apply list_elem_of_filter).
  rewrite H in Hin. by apply not_elem_of_nil in Hin.
Qed.

Lemma first_fence_Some s addr len us u :
  StronglySorted Z.lt us → first_fence s addr len us = Some u →
  u ∈ us ∧ ∀ v, v ∈ us → v < u → fences s addr len v = false.
Proof.
  unfold first_fence. intros Hs. induction Hs as [|w us Hs IH Hw]; [done|].
  rewrite filter_cons. destruct (decide _) as [Hf|Hf].
  - intros [= ->]. split; [left|]. intros v [->|Hv]%elem_of_cons Hlt; [lia|].
    rewrite Forall_forall in Hw. specialize (Hw v Hv). lia.
  - intros H. destruct (IH H) as [Hin Hlow]. split; [by right|].
    intros v [->|Hv]%elem_of_cons Hlt; [by destruct (fences s addr len w)|auto].
Qed.

Lemma unresolved_sorted s lo hi : StronglySorted Z.lt (unresolved s lo hi).
Proof. apply StronglySorted_filter, StronglySorted_range. Qed.

Lemma elem_of_unresolved s lo hi d :
  d ∈ unresolved s lo hi ↔ lo ≤ d ≤ hi ∧ resolved_at s d = false.
Proof. unfold unresolved. rewrite list_elem_of_filter, elem_of_range. tauto. Qed.
End scan.

(** ** The per-block winner pass *)

(** Block [b] of a request at [addr] meets the slot's range. *)
Definition block_hit (addr lba b : Z) (sv : dlsn_slot) : bool :=
  (ds_addr sv <? addr + (b + 1) * lba) && (addr + b * lba <? ds_addr sv + ds_len sv).

(** What one slot does to a block's entry, and the pass over one block. *)
Definition mark (idx : Z) (oc : slot_outcome) (u : Z) : Z :=
  match oc with empty => u | acked => -1 | _ => if u <? 0 then idx else u end.
Definition block_star (addr lba b : Z) (slots : list (Z * dlsn_slot)) (u : Z) : Z :=
  foldl (λ u p, if block_hit addr lba b p.2 then mark p.1 (ds_outcome p.2) u else u) u slots.

Lemma length_mark_block a idx b us : length (mark_block a idx b us) = length us.
Proof. unfold mark_block. repeat case_match; by rewrite ?length_insert. Qed.

Lemma length_foldl_mark a idx l us :
  length (foldl (λ us b, mark_block a idx b us) us l) = length us.
Proof.
  revert us. induction l as [|b l IH]; intros us; simpl; [done|].
  by rewrite IH, length_mark_block.
Qed.

Lemma lookup_mark_block a idx b us b' u :
  us !! Z.to_nat b' = Some u → 0 ≤ b → 0 ≤ b' →
  mark_block a idx b us !! Z.to_nat b' =
    Some (if decide (b' = b) then (if a : bool then -1 else if u <? 0 then idx else u) else u).
Proof.
  intros Hu Hb Hb'. pose proof (lookup_lt_Some _ _ _ Hu) as Hlt. unfold mark_block.
  destruct (decide (b' = b)) as [->|Hne].
  - rewrite Hu. simpl. destruct a; [by apply list_lookup_insert_eq|].
    destruct (u <? 0); [by apply list_lookup_insert_eq|done].
  - assert (Z.to_nat b ≠ Z.to_nat b') by lia.
    repeat case_match; rewrite ?list_lookup_insert_ne by done; done.
Qed.

Lemma lookup_mark_blocks a idx l us b u :
  NoDup l → Forall (λ b, 0 ≤ b) l → 0 ≤ b → us !! Z.to_nat b = Some u →
  foldl (λ us b, mark_block a idx b us) us l !! Z.to_nat b =
    Some (if decide (b ∈ l) then (if a : bool then -1 else if u <? 0 then idx else u) else u).
Proof.
  intros Hnd. revert us u. induction Hnd as [|c l Hc _ IH]; intros us u Hl Hb Hu; simpl; [done|].
  inversion Hl as [|? ? Hc0 Hl']; subst.
  rewrite (IH _ _ Hl' Hb (lookup_mark_block a idx c us b u Hu Hc0 Hb)). f_equal.
  destruct (decide (b = c)) as [->|Hne].
  - rewrite decide_False by done. by rewrite decide_True by left.
  - destruct (decide (b ∈ l)); [by rewrite decide_True by (by right)|].
    by rewrite decide_False by (rewrite elem_of_cons; tauto).
Qed.

(** The block interval the callback computes is the set of blocks the slot meets. *)
Lemma block_interval addr len lba nblk sv b :
  range_ok addr len → slot_ok sv → 0 < lba → len = nblk * lba → 0 ≤ b < nblk →
  overlaps addr len (ds_addr sv) (ds_len sv) = true →
  let lo := Z.max addr (ds_addr sv) in
  let hi := Z.min (u64 (addr + len)) (u64 (ds_addr sv + ds_len sv)) in
  b ∈ range ((lo - addr) `div` lba) (Z.min (nblk - 1) (u64 (hi - 1 - addr) `div` lba)) ↔
  block_hit addr lba b sv = true.
Proof.
  intros Hr Hs Hl Hlen Hb Ho lo hi. unfold range_ok, slot_ok in Hr, Hs.
  apply overlaps_iff in Ho; [|lia..].
  unfold hi, lo, u64. rewrite !wrap_small by (unfold in_u; rewrite ?wrap_small by (unfold in_u; lia); lia).
  rewrite elem_of_range. unfold block_hit. rewrite andb_true_iff, !Z.ltb_lt.
  assert (∀ n q, n `div` lba ≤ q ↔ n < (q + 1) * lba) as Hle.
  { intros n q. split; intros H.
    - pose proof (Z.mul_succ_div_gt n lba Hl). nia.
    - assert (n `div` lba < q + 1); [|lia]. apply Z.div_lt_upper_bound; lia. }
  assert (∀ n q, q ≤ n `div` lba ↔ q * lba ≤ n) as Hge.
  { intros n q. split; intros H.
    - pose proof (Z.mul_div_le n lba Hl). nia.
    - apply Z.div_le_lower_bound; lia. }
  rewrite Z.min_glb_iff, Hle, Hge. nia.
Qed.

Lemma split_slot_block addr len lba nblk idx sv us b u :
  range_ok addr len → slot_ok sv → 0 < lba → len = nblk * lba → 0 ≤ b < nblk →
  us !! Z.to_nat b = Some u →
  split_slot addr len lba nblk idx sv us !! Z.to_nat b =
    Some (if block_hit addr lba b sv then mark idx (ds_outcome sv) u else u).
Proof.
  intros Hr Hs Hl Hlen Hb Hu. unfold split_slot.
  destruct (decide (ds_outcome sv = empty)) as [->|Hne]; [by destruct (block_hit _ _ _ _)|].
  destruct (overlaps addr len (ds_addr sv) (ds_len sv)) eqn:Ho; simpl.
  - unfold mark_blocks. rewrite (lookup_mark_blocks _ _ _ _ _ u); [|apply NoDup_range| |lia|done].
    2:{ apply Forall_forall. intros c Hc%elem_of_range.
        assert (0 ≤ (Z.max addr (ds_addr sv) - addr) `div` lba); [apply Z.div_pos; lia|lia]. }
    f_equal. pose proof (block_interval addr len lba nblk sv b Hr Hs Hl Hlen Hb Ho) as Hbi.
    cbv zeta in Hbi. destruct (decide (b ∈ range _ _)) as [Hin|Hout].
    + apply Hbi in Hin as ->. destruct (ds_outcome sv); try done.
    + destruct (block_hit addr lba b sv); [|done]. tauto.
  - assert (block_hit addr lba b sv = false) as ->; [|done].
    destruct (block_hit addr lba b sv) eqn:Hh; [|done]. exfalso.
    unfold block_hit in Hh. rewrite andb_true_iff, !Z.ltb_lt in Hh. unfold range_ok, slot_ok in *.
    assert (overlaps addr len (ds_addr sv) (ds_len sv) = true); [|congruence].
    apply overlaps_iff; [lia..|]. nia.
Qed.

Lemma split_scan_block addr len lba nblk Ha slots us b u :
  range_ok addr len → Forall (λ p, slot_ok p.2) slots → 0 < lba → len = nblk * lba →
  0 ≤ b < nblk → StronglySorted Z.lt slots.*1 → us !! Z.to_nat b = Some u →
  split_scan addr len lba nblk Ha slots us !! Z.to_nat b =
    Some (block_star addr lba b (filter (λ p, p.1 ≤ Ha) slots) u).
Proof.
  intros Hr Hs Hl Hlen Hb Hso. revert us u.
  induction Hs as [|[idx sv] slots Hsv Hall IH]; intros us u Hu; [done|].
  simpl in *. inversion Hso as [|? ? Hso' Hlt]; subst.
  rewrite filter_cons. simpl. destruct (Ha <? idx) eqn:Hgt.
  - rewrite decide_False by lia. assert (filter (λ p, p.1 ≤ Ha) slots = []) as ->; [|done].
    apply elem_of_nil_inv. intros p [? Hp]%list_elem_of_filter.
    rewrite Forall_forall in Hlt. specialize (Hlt p.1 (list_elem_of_fmap_2 fst _ _ Hp)). lia.
  - rewrite decide_True by lia. simpl. apply IH; [done|]. by apply split_slot_block.
Qed.

(** The entry a block ends with ducks under exactly the open slots that no acked slot
    covers: [H] is the horizon it stands for. *)
Definition star_horizon (Ha u : Z) : Z := if u <? 0 then Ha else u - 1.

Record star_ok (addr lba b : Z) (slots : list (Z * dlsn_slot)) (u : Z) : Prop := {
  so_open i sv : (i, sv) ∈ slots → block_hit addr lba b sv = true →
    is_resolved (ds_outcome sv) = false → u < 0 ∨ i < u →
    ∃ j sv', (j, sv') ∈ slots ∧ i < j ∧ block_hit addr lba b sv' = true ∧ ds_outcome sv' = acked;
  so_acked j sv : (j, sv) ∈ slots → block_hit addr lba b sv = true → ds_outcome sv = acked →
    0 ≤ u → j < u;
  so_member : 0 ≤ u → u ∈ slots.*1;
}.

Lemma sorted_snoc_lt (l : list (Z * dlsn_slot)) p :
  StronglySorted Z.lt (l ++ [p]).*1 →
  StronglySorted Z.lt l.*1 ∧ ∀ i sv, (i, sv) ∈ l → i < p.1.
Proof.
  rewrite fmap_app. intros Hs. split; [by apply StronglySorted_app_1_l in Hs|].
  intros i sv Hi. apply (StronglySorted_app_1_elem_of Z.lt l.*1 [p].*1 _ _ Hs);
    [by apply (list_elem_of_fmap_2 fst _ _ Hi)|left].
Qed.

Lemma block_star_ok addr lba b slots :
  StronglySorted Z.lt slots.*1 → Forall (λ i, 0 ≤ i) slots.*1 →
  star_ok addr lba b slots (block_star addr lba b slots (-1)).
Proof.
  induction slots as [|[i0 sv0] slots IH] using rev_ind; intros Hs Hpos.
  { split; simpl; intros; try lia; by apply not_elem_of_nil in H. }
  destruct (sorted_snoc_lt _ _ Hs) as [Hs' Hlt]. simpl in Hlt.
  rewrite fmap_app, Forall_app in Hpos. destruct Hpos as [Hpos Hi0].
  inversion Hi0 as [|? ? Hi0' _]; subst. simpl in Hi0'.
  destruct (IH Hs' Hpos) as [Hopen Hack Hmem]. unfold block_star in *.
  rewrite foldl_app. simpl. set (u := foldl _ _ slots) in *.
  assert (∀ i sv, (i, sv) ∈ slots ++ [(i0, sv0)] ↔ (i, sv) ∈ slots ∨ i = i0 ∧ sv = sv0) as Hin
    by (intros; rewrite elem_of_app, list_elem_of_singleton; intuition congruence).
  assert (∀ z, z ∈ (slots ++ [(i0, sv0)]).*1 ↔ z ∈ slots.*1 ∨ z = i0) as Hin1
    by (intros; rewrite fmap_app, elem_of_app; simpl; by rewrite list_elem_of_singleton).
  assert (∀ i, i ∈ slots.*1 → i < i0) as Hlt1
    by (intros i ([] & -> & ?)%list_elem_of_fmap; eauto).
  destruct (block_hit addr lba b sv0) eqn:Hh; [destruct (ds_outcome sv0) eqn:Hoc; simpl|].
  all: try destruct (u <? 0) eqn:Hu.
  all: split; [intros i sv [Hi|[-> ->]]%Hin Hhit Hop Hr
              |intros j sv [Hj|[-> ->]]%Hin Hhit Hac H0 | intros H0; apply Hin1].
  all: try lia; try congruence; try (by rewrite Hoc in Hop); try (by left; auto with lia);
       try (by right); try (by apply (Hack j sv)); try (by eapply Hlt).
  all: try (destruct (Hopen i sv Hi Hhit Hop) as (j & sv' & Hj & ?);
            [lia|exists j, sv'; split; [apply Hin; by left|done]]).
  all: try (exists i0, sv0; split_and!; [apply Hin; by right|by eapply Hlt|done|done]).
  all: specialize (Hlt1 u (Hmem ltac:(lia))); lia.
Qed.

(** ** The segments of a split plan *)

(** [segs] describe the blocks [s0..nblk): each has a constant horizon [hz]. *)
Fixpoint block_tiles (addr lba : Z) (hz : nat → Z) (nblk s0 : nat) (segs : list read_segment) : Prop :=
  match segs with
  | [] => s0 = nblk
  | sg :: segs => ∃ e, (s0 < e ≤ nblk)%nat ∧
      sg_addr sg = u64 (addr + Z.of_nat s0 * lba) ∧ sg_len sg = Z.of_nat (e - s0) * lba ∧
      (∀ i, (s0 ≤ i < e)%nat → hz i = sg_H sg) ∧ block_tiles addr lba hz nblk e segs
  end.

Lemma split_segments_tiles addr lba Ha ustar nblk todo b s0 cur segs segs' :
  split_segments todo addr lba Ha ustar nblk b s0 cur segs = Some segs' →
  todo = (S nblk - b)%nat → (length segs ≤ k_max_segments)%nat →
  ((s0 < b ≤ nblk)%nat ∧ ∀ i, (s0 ≤ i < b)%nat → horizon_of Ha ustar i = cur) ∨
    (b = S nblk ∧ s0 = nblk) →
  ∃ new, segs' = segs ++ new ∧ (length segs' ≤ k_max_segments)%nat ∧
         block_tiles addr lba (horizon_of Ha ustar) nblk s0 new.
Proof.
  revert b s0 cur segs. induction todo as [|todo IH]; intros b s0 cur segs H Hn Hlen Hcase; simpl in H.
  { injection H as <-. exists []. rewrite app_nil_r. split_and!; simpl; try done. lia. }
  destruct Hcase as [[Hb Hcur]|]; [|lia].
  destruct (bool_decide (b < nblk)%nat && bool_decide (horizon_of Ha ustar b = cur)) eqn:Hg.
  - apply andb_true_iff in Hg as [Hb1%bool_decide_eq_true Hh%bool_decide_eq_true].
    apply IH in H; [done|lia|done|]. left. split; [lia|]. intros i Hi.
    destruct (decide (i = b)) as [->|]; [done|]. apply Hcur. lia.
  - destruct (decide (length segs = k_max_segments)); [done|].
    apply IH in H as (new & -> & Hl & Ht); [|lia|rewrite length_app; simpl; lia|].
    + rewrite <-(assoc_L (++)) in *. eexists. split; [done|]. split; [done|]. simpl.
      exists b. split_and!; done || lia.
    + destruct (decide (b < nblk)%nat); [left|right; lia]. split; [lia|].
      intros i Hi. by replace i with b by lia.
Qed.

Lemma block_tiles_contiguous addr lba hz nblk s0 segs :
  0 < lba → 0 ≤ addr → addr + Z.of_nat nblk * lba < 2 ^ 64 →
  block_tiles addr lba hz nblk s0 segs →
  contiguous (addr + Z.of_nat s0 * lba) (addr + Z.of_nat nblk * lba) segs.
Proof.
  intros Hl Ha Hlen. revert s0. induction segs as [|sg segs IH]; intros s0; simpl; [by intros ->|].
  intros (e & He & -> & -> & _ & Ht). split_and!.
  - apply wrap_small. unfold in_u. nia.
  - nia.
  - apply IH in Ht. rewrite Nat2Z.inj_sub by lia.
    by replace (addr + Z.of_nat s0 * lba + (Z.of_nat e - Z.of_nat s0) * lba)
      with (addr + Z.of_nat e * lba) by lia.
Qed.

Lemma block_tiles_bytes addr lba hz nblk s0 segs sg x :
  0 < lba → 0 ≤ addr → addr + Z.of_nat nblk * lba < 2 ^ 64 →
  block_tiles addr lba hz nblk s0 segs → sg ∈ segs →
  sg_addr sg ≤ x < sg_addr sg + sg_len sg →
  ∃ b, (b < nblk)%nat ∧ hz b = sg_H sg ∧
       addr + Z.of_nat b * lba ≤ x < addr + (Z.of_nat b + 1) * lba.
Proof.
  intros Hl Ha Hlen. revert s0.
  induction segs as [|sg' segs IH]; intros s0 Ht Hsg Hx; [by apply not_elem_of_nil in Hsg|].
  destruct Ht as (e & He & Haddr & Hln & Hhz & Ht).
  apply elem_of_cons in Hsg as [->|Hsg]; [|by eapply IH].
  assert (u64 (addr + Z.of_nat s0 * lba) = addr + Z.of_nat s0 * lba) as Hu
    by (apply wrap_small; unfold in_u; nia).
  rewrite Haddr, Hln, Hu in Hx.
  pose proof (Z.div_mod (x - addr) lba ltac:(lia)) as Hdm.
  pose proof (Z.mod_pos_bound (x - addr) lba Hl) as Hmb.
  set (q := (x - addr) `div` lba) in *.
  assert (Z.of_nat s0 ≤ q < Z.of_nat e) as Hq by nia.
  exists (Z.to_nat q). split_and!; [lia| |nia|nia]. apply Hhz. lia.
Qed.

(** ** Plans are right *)

(** Every slot of the session is aligned to the block size. *)
Definition aligned (s : session) (lba : Z) : Prop :=
  ∀ d sl, ss_slots s !! d = Some sl → (lba | ds_addr sl) ∧ (lba | ds_len sl).

Lemma block_hit_covers addr lba b sl x :
  0 < lba → (lba | addr) → (lba | ds_addr sl) → (lba | ds_len sl) →
  addr + b * lba ≤ x < addr + (b + 1) * lba →
  block_hit addr lba b sl = true ↔ covers sl x.
Proof.
  intros Hl [qa ->] [qs Hs] [ql Hsl] Hx. unfold block_hit, covers. rewrite Hs, Hsl.
  rewrite andb_true_iff, !Z.ltb_lt.
  replace (qa * lba + b * lba) with ((qa + b) * lba) in * by lia.
  replace (qa * lba + (b + 1) * lba) with ((qa + b + 1) * lba) in * by lia.
  replace (qs * lba + ql * lba) with ((qs + ql) * lba) by lia. split.
  - intros [H1%Z.mul_lt_mono_pos_r H2%Z.mul_lt_mono_pos_r]; [|done..].
    assert (qs * lba ≤ (qa + b) * lba) by (apply Z.mul_le_mono_nonneg_r; lia).
    assert ((qa + b + 1) * lba ≤ (qs + ql) * lba) by (apply Z.mul_le_mono_nonneg_r; lia). lia.
  - lia.
Qed.

Section plans.
Context {T : Type} `{ST : !StreamTracker dlsn_slot T}.
Context (s : session) (st : dlsn_tracker T) (t : T) (addr len : Z).
Context (R : refines_upto s st t) (Hrange : range_ok addr len).
Let F := frontier_ st.
Let Ha := highest_acked_ st.

Lemma ha_bound : Ha < ss_next s.
Proof.
  destruct (rf_ha_acked _ _ _ R) as [H|(sl & H & _)]; unfold Ha.
  - rewrite H. pose proof (rf_front _ _ _ R). lia.
  - apply (rf_dom _ _ _ R) in H. lia.
Qed.

Lemma unresolved_above d :
  ss_login s < d → resolved_at s d = false → F < d.
Proof.
  intros Hd Hr. destruct (decide (d ≤ F)); [|lia].
  rewrite (rf_prefix _ _ _ R) in Hr; [done|unfold F in *; lia].
Qed.

Lemma one_segment_safe H :
  Ha ≤ H → (∀ d, ss_login s < d ≤ H → resolved_at s d = false → fences s addr len d = false) →
  plan_ok s addr len [Mk_read_segment addr len H].
Proof.
  intros HH Hf. split; [simpl; unfold range_ok in Hrange; lia|].
  apply Forall_singleton. intros x Hx. simpl in *. split.
  - intros d Hd Hr. specialize (Hf d Hd Hr). unfold fences in Hf.
    destruct (ss_slots s !! d) as [sl|] eqn:Hs; [|done]. exists sl. split; [done|]. intros Hc.
    destruct (rf_dom _ _ _ R d sl Hs) as [_ Hok].
    by rewrite (covers_overlaps addr len sl x) in Hf.
  - intros d sl Hs Hac _. pose proof (rf_ha _ _ _ R d sl Hs Hac). unfold Ha in HH. lia.
Qed.

Section split.
Context (lba umin : Z).
Context (Hlogin : -1 ≤ ss_login s) (Hlba : 0 < lba) (Halign : aligned s lba) (Haddr : (lba | addr)).
Context (Humin : F < umin ≤ Ha).
Context (Hnogap : ∀ d, F < d ≤ Ha → resolved_at s d = false → is_Some (ss_slots s !! d)).
Context (Hlow : ∀ d, F < d ≤ Ha → resolved_at s d = false → d < umin → fences s addr len d = false).

Definition window : list (Z * dlsn_slot) :=
  filter (λ p, p.1 ≤ Ha) (st_foreach_all_active t umin).

Lemma elem_of_window d sl :
  (d, sl) ∈ window ↔ umin ≤ d ≤ Ha ∧ ss_slots s !! d = Some sl.
Proof.
  unfold window. rewrite list_elem_of_filter, st_foreach_elem. simpl.
  pose proof (rf_base _ _ _ R). unfold F in Humin.
  split.
  - intros (Hd & Hu & Hs). rewrite (rf_slot _ _ _ R) in Hs by lia. split; [lia|done].
  - intros ([Hu Hd] & Hs). rewrite (rf_slot _ _ _ R) by lia. done.
Qed.

Lemma window_sorted : StronglySorted Z.lt window.*1.
Proof.
  apply StronglySorted_fst_filter, st_foreach_sorted.
Qed.

Lemma window_star b : star_ok addr lba b window (block_star addr lba b window (-1)).
Proof.
  apply block_star_ok; [apply window_sorted|]. apply Forall_forall.
  intros i ([j sl] & -> & Hj%elem_of_window)%list_elem_of_fmap. simpl.
  pose proof (rf_front _ _ _ R). unfold F in Humin. lia.
Qed.

Lemma star_horizon_right b x :
  addr + b * lba ≤ x < addr + (b + 1) * lba → addr ≤ x < addr + len →
  let H := star_horizon Ha (block_star addr lba b window (-1)) in
  (horizon_safe s H x ∧ horizon_fresh s H x) ∧ F ≤ H.
Proof.
  intros Hb Hx H. destruct (window_star b) as [Hopen Hack Hm].
  assert (∀ d sl, ss_slots s !! d = Some sl → block_hit addr lba b sl = true ↔ covers sl x) as Hcov.
  { intros d sl Hs. destruct (Halign d sl Hs). by apply block_hit_covers. }
  assert (umin - 1 ≤ H ≤ Ha) as HH.
  { unfold H, star_horizon. destruct (_ <? 0) eqn:Hu; [lia|]. apply Z.ltb_ge in Hu.
    apply Hm in Hu as ([i sl] & Heq & Hi%elem_of_window)%list_elem_of_fmap. simpl in Heq. lia. }
  split; [|lia]. split.
  - intros d Hd Hr. assert (F < d) as HFd by (apply unresolved_above; [lia|done]).
    destruct (Hnogap d ltac:(lia) Hr) as [sl Hs]. exists sl. split; [done|]. intros Hc.
    destruct (rf_dom _ _ _ R d sl Hs) as [_ Hok].
    assert (umin ≤ d) as Hud.
    { destruct (decide (d < umin)) as [Hlt|]; [|lia].
      specialize (Hlow d ltac:(lia) Hr Hlt). unfold fences in Hlow. rewrite Hs in Hlow.
      by rewrite (covers_overlaps addr len sl x) in Hlow. }
    destruct (Hopen d sl) as (j & sl' & Hj & Hdj & Hhit & Hac).
    + apply elem_of_window. split; [lia|done].
    + by apply (Hcov d sl).
    + unfold resolved_at in Hr. by rewrite Hs in Hr.
    + unfold H, star_horizon in Hd. destruct (_ <? 0) eqn:Hu; lia.
    + apply elem_of_window in Hj as [Hj Hs']. exists j, sl'. split_and!; try done.
      * destruct (decide (0 ≤ block_star addr lba b window (-1))) as [H0|H0].
        -- assert (j < block_star addr lba b window (-1)) as Hlt
             by (apply (Hack j sl'); [apply elem_of_window; by split|done..]).
           unfold H, star_horizon. destruct (_ <? 0) eqn:Hu; lia.
        -- unfold H, star_horizon. destruct (_ <? 0) eqn:Hu; lia.
      * by apply (Hcov j sl').
  - intros d sl Hs Hac Hc. pose proof (rf_ha _ _ _ R d sl Hs Hac) as Hle. fold Ha in Hle.
    destruct (decide (d < umin)); [lia|].
    destruct (decide (0 ≤ block_star addr lba b window (-1))) as [H0|H0].
    + assert (d < block_star addr lba b window (-1)) as Hlt
        by (apply (Hack d sl); [apply elem_of_window; split; [lia|done]|by apply (Hcov d sl)|done..]).
      unfold H, star_horizon. destruct (_ <? 0) eqn:Hu; lia.
    + unfold H, star_horizon. destruct (_ <? 0) eqn:Hu; lia.
Qed.
End split.

Lemma compute_scan :
    -1 ≤ ss_login s →
    let us := unresolved s (F + 1) Ha in
    compute_loop (Z.to_nat (Ha - F)) t addr len Ha (F + 1) (Mk_scan (-1) false false) =
      Mk_scan (default (-1) (first_fence s addr len us))
        (existsb (failed_hit s addr len) us) (existsb (gap_at s) us).
Proof.
    intros Hl us. pose proof (rf_front _ _ _ R). pose proof (rf_base _ _ _ R).
    rewrite (compute_loop_fold s st t) by (done || unfold F in *; lia).
    rewrite (scan_fold s st t); [done|done|]. apply Forall_forall.
    intros u [Hu _]%elem_of_unresolved. unfold F in Hu. lia.
Qed.

Lemma split_plan_ok umin any_failed p :
    -1 ≤ ss_login s → 0 < lba_size_ st → aligned s (lba_size_ st) →
    (lba_size_ st | addr) → (lba_size_ st | len) → F < umin ≤ Ha →
    (∀ d, F < d ≤ Ha → resolved_at s d = false → is_Some (ss_slots s !! d)) →
    (∀ d, F < d ≤ Ha → resolved_at s d = false → d < umin → fences s addr len d = false) →
    split st t addr len Ha umin any_failed = p → po_segs p ≠ [] →
    plan_ok s addr len (po_segs p) ∧ (length (po_segs p) ≤ k_max_segments)%nat ∧ plan_above F (po_segs p).
Proof.
    set (lba := lba_size_ st). intros Hlogin Hlba Halign Haddr [nblk Hlen] Humin Hnogap Hlow Hp Hne.
    pose proof Hrange as (H0 & H1 & H2). assert (0 < nblk) as Hnblk by nia.
    unfold split in Hp. fold lba in Hp. assert ((lba =? 0) = false) as Hz by lia. rewrite Hz in Hp.
    assert (len `div` lba = nblk) as Hdiv by (rewrite Hlen; apply Z.div_mul; lia).
    rewrite Hdiv in Hp. destruct (_ || _); [by subst p|].
    set (ustar := split_scan _ _ _ _ _ _ _) in Hp.
    destruct (split_segments _ _ _ _ _ _ _ _ _ _) as [segs|] eqn:Hsegs in Hp; [|by subst p].
    subst p. simpl in *. apply split_segments_tiles in Hsegs as (new & -> & Hl8 & Ht);
      [|lia|simpl; lia|left; split; [lia|intros i Hi; by replace i with 0%nat by lia]].
    rewrite app_nil_l in *.
    assert (addr + Z.of_nat (Z.to_nat nblk) * lba < 2 ^ 64) as Hend by lia.
    pose proof (block_tiles_contiguous _ _ _ _ _ _ Hlba H0 Hend Ht) as Hc.
    rewrite Z.mul_0_l, Z.add_0_r, Z2Nat.id, <-Hlen in Hc by lia.
    assert (Forall (λ sg, ∀ x, sg_addr sg ≤ x < sg_addr sg + sg_len sg →
              (horizon_safe s (sg_H sg) x ∧ horizon_fresh s (sg_H sg) x) ∧ F ≤ sg_H sg) new) as Hall.
    { apply Forall_forall. intros sg Hsg x Hx.
      destruct (block_tiles_bytes _ _ _ _ _ _ sg x Hlba H0 Hend Ht Hsg Hx) as (b & Hb & Hhz & Hbx).
      assert (ustar !! b = Some (block_star addr lba (Z.of_nat b) (window umin) (-1))) as Hu.
      { unfold ustar. rewrite <-(Nat2Z.id b) at 1. apply split_scan_block; try done; try lia.
        - apply Forall_forall. intros [d sl] Hd. apply st_foreach_elem in Hd as [Hd Hs]. simpl.
          pose proof (rf_base _ _ _ R). unfold F in Humin.
          rewrite (rf_slot _ _ _ R) in Hs by lia. by destruct (rf_dom _ _ _ R d sl Hs).
        - apply st_foreach_sorted.
        - rewrite Nat2Z.id. apply lookup_replicate. split; [done|lia]. }
      unfold horizon_of in Hhz. rewrite Hu in Hhz. simpl in Hhz. rewrite <-Hhz.
      apply (star_horizon_right lba umin Hlogin Hlba Halign Haddr Humin Hnogap Hlow); [done|].
      nia. }
    split_and!; [split; [exact Hc|]|done|]; (eapply Forall_impl; [exact Hall|]); intros sg Hsg x Hx; destruct (Hsg x Hx); done.
Qed.

Lemma compute_plan_ok p st' :
    -1 ≤ ss_login s → 0 < lba_size_ st → aligned s (lba_size_ st) →
    (lba_size_ st | addr) → (lba_size_ st | len) →
    compute st addr len = Some (p, st') → po_segs p ≠ [] →
    plan_ok s addr len (po_segs p) ∧ (length (po_segs p) ≤ k_max_segments)%nat ∧ plan_above F (po_segs p).
Proof.
    intros Hlogin Hlba Halign Haddr Hlen Hc Hne. unfold compute in Hc. fold F Ha in Hc.
    pose proof (rf_front _ _ _ R) as HF. fold F in HF.
    destruct (Ha <=? F) eqn:HaF.
    { injection Hc as <- <-.
      split_and!; [|simpl; unfold k_max_segments; lia|apply Forall_singleton; simpl; lia].
      apply one_segment_safe; [lia|]. intros d Hd Hr.
      pose proof (unresolved_above d ltac:(lia) Hr). lia. }
    rewrite (rf_tracker _ _ _ R) in Hc. simpl in Hc. rewrite compute_scan in Hc by done.
    set (us := unresolved s (F + 1) Ha) in *. simpl in Hc.
    assert (∀ d, F < d ≤ Ha → resolved_at s d = false → d ∈ us) as Hus
      by (intros d Hd Hr; apply elem_of_unresolved; split; [lia|done]).
    destruct (first_fence s addr len us) as [umin|] eqn:Hff; simpl in Hc.
    - destruct (first_fence_Some s addr len us umin) as [Hin Hlow];
        [apply unresolved_sorted|done|]. apply elem_of_unresolved in Hin as [Hin _].
      destruct (umin <? 0) eqn:Hneg; [lia|].
      destruct (existsb (gap_at s) us) eqn:Hgap; simpl in Hc; [injection Hc as <- _; simpl in Hne; congruence|].
      destruct (scan_cap_ st <? Ha - umin); [injection Hc as <- _; simpl in Hne; congruence|].
      apply (f_equal (fmap fst)) in Hc. simpl in Hc. injection Hc as Hc.
      apply (split_plan_ok umin _ p Hlogin Hlba Halign Haddr Hlen) in Hc; try done; [lia| |].
      + intros d Hd Hr. destruct (ss_slots s !! d) as [sl|] eqn:Hs; [eauto|]. exfalso.
        apply not_true_iff_false in Hgap. apply Hgap, existsb_exists. exists d.
        split; [apply list_elem_of_In; auto|]. unfold gap_at. by rewrite Hs.
      + intros d Hd Hr Hlt. by apply Hlow; [apply Hus|].
    - simpl in Hc. injection Hc as <- <-.
      split_and!; [|simpl; unfold k_max_segments; lia|apply Forall_singleton; simpl; lia].
      apply one_segment_safe; [lia|]. intros d Hd Hr.
      apply (first_fence_None s addr len us Hff), Hus; [|done].
      pose proof (unresolved_above d ltac:(lia) Hr). lia.
Qed.
End plans.

(** ** Segments are runs of blocks *)

Lemma contiguous_within a e segs sg :
  contiguous a e segs → sg ∈ segs → a ≤ sg_addr sg ∧ 0 < sg_len sg ∧ sg_addr sg + sg_len sg ≤ e.
Proof.
  revert a. induction segs as [|sg0 segs IH]; intros a; simpl; [by intros _ ?%elem_of_nil|].
  intros (Ha & Hl & Hc) [->|Hin]%elem_of_cons.
  - assert (∀ l b, contiguous b e l → b ≤ e) as Hle.
    { induction l as [|x l IHl]; intros b; simpl; [lia|]. intros (_ & ? & H%IHl). lia. }
    apply Hle in Hc. lia.
  - destruct (IH _ Hc Hin). lia.
Qed.

Lemma block_tiles_aligned addr lba hz nblk s0 segs sg :
  0 < lba → 0 ≤ addr → addr + Z.of_nat nblk * lba < 2 ^ 64 → (lba | addr) →
  block_tiles addr lba hz nblk s0 segs → sg ∈ segs → (lba | sg_addr sg) ∧ (lba | sg_len sg).
Proof.
  intros Hl Ha Hn [k Hk]. revert s0. induction segs as [|sg0 segs IH]; intros s0; simpl; [by intros _ ?%elem_of_nil|].
  intros (e & He & Hsa & Hsl & _ & Ht) [->|Hin]%elem_of_cons; [|by eapply IH].
  rewrite Hsa, Hsl. unfold u64. rewrite wrap_small by (unfold in_u; nia). split.
  - exists (k + Z.of_nat s0). lia.
  - by exists (Z.of_nat (e - s0)).
Qed.

Lemma compute_aligned {T} `{!StreamTracker dlsn_slot T} (st st' : dlsn_tracker T) addr len p :
  range_ok addr len → 0 < lba_size_ st → (lba_size_ st | addr) → (lba_size_ st | len) →
  compute st addr len = Some (p, st') →
  ∀ sg, sg ∈ po_segs p → (lba_size_ st | sg_addr sg) ∧ (lba_size_ st | sg_len sg).
Proof.
  intros (H0 & H1 & H2) Hlba Ha Hl Hc sg Hsg. unfold compute in Hc.
  destruct (highest_acked_ st <=? frontier_ st).
  { injection Hc as <- _. simpl in Hsg. apply list_elem_of_singleton in Hsg as ->. done. }
  destruct (tracker_ st) as [t|]; simpl in Hc; [|done].
  destruct (_ <? 0). { injection Hc as <- _. simpl in Hsg. apply list_elem_of_singleton in Hsg as ->. done. }
  destruct (_ || _) in Hc; [injection Hc as <- _; by apply elem_of_nil in Hsg|].
  apply (f_equal (fmap fst)) in Hc. simpl in Hc. injection Hc as <-. unfold split in Hsg.
  destruct (_ || _) in Hsg; [by apply elem_of_nil in Hsg|].
  assert ((lba_size_ st =? 0) = false) as Hz by lia. rewrite Hz in Hsg.
  destruct (split_segments _ _ _ _ _ _ _ _ _ _) as [segs|] eqn:Hsegs in Hsg; [|by apply elem_of_nil in Hsg].
  destruct Hl as [nblk Hlen].
  assert (len `div` lba_size_ st = nblk) as Hdiv by (rewrite Hlen; apply Z.div_mul; lia). rewrite Hdiv in Hsegs.
  apply split_segments_tiles in Hsegs as (new & -> & _ & Ht);
    [|nia|simpl; lia|left; split; [nia|intros i Hi; by replace i with 0%nat by lia]].
  simpl in Hsg. eapply block_tiles_aligned; [done|done| |done|exact Ht|done]. nia.
Qed.

(** ** The contract of [plan_read] *)

Section fenced.
Context {T : Type} `{ST : !StreamTracker dlsn_slot T}.

(** A plan with no segment is fenced by an open slot of (F, Ha]: by a failed one when it is
    degraded. *)
Lemma compute_fenced s (st : dlsn_tracker T) addr len p st' :
  refines s st → -1 ≤ ss_login s →
  compute st addr len = Some (p, st') → po_segs p = [] → 0 < lba_size_ st ≤ len →
  ∃ d, frontier_ st < d ≤ highest_acked_ st ∧ resolved_at s d = false ∧
    fences s addr len d = true ∧
    (po_failed p = true → ∃ d' sl, frontier_ st < d' ≤ highest_acked_ st ∧
       ss_slots s !! d' = Some sl ∧ ds_outcome sl = failed ∧
       overlaps addr len (ds_addr sl) (ds_len sl) = true).
Proof.
  intros [[t R] _] Hlogin Hc Hp Hlba. unfold compute in Hc.
  destruct (highest_acked_ st <=? frontier_ st); [by injection Hc as <- _|].
  rewrite (rf_tracker _ _ _ R) in Hc. simpl in Hc.
  rewrite (compute_scan s st t addr len R Hlogin) in Hc.
  set (us := unresolved s (frontier_ st + 1) (highest_acked_ st)) in *. simpl in Hc.
  destruct (first_fence s addr len us) as [umin|] eqn:Hff; simpl in Hc; [|by injection Hc as <- _].
  destruct (first_fence_Some s addr len us umin (unresolved_sorted s _ _) Hff) as [Hin _].
  assert (fences s addr len umin = true) as Hf.
  { unfold first_fence in Hff. apply head_Some_elem_of, list_elem_of_filter in Hff. tauto. }
  apply elem_of_unresolved in Hin as [Hin Hr].
  destruct (umin <? 0); [by injection Hc as <- _|].
  assert (po_failed p = existsb (failed_hit s addr len) us) as Hpf.
  { destruct (_ || _) in Hc; [by injection Hc as <- _|].
    apply (f_equal (fmap fst)) in Hc. simpl in Hc. injection Hc as <-.
    unfold split in *. destruct (_ || _) eqn:Hg; [done|].
    destruct (split_segments _ _ _ _ _ _ _ _ _ _) as [segs|] eqn:Hs; [|done]. exfalso.
    simpl in Hp. subst segs. apply orb_false_iff in Hg as [Hg _].
    assert ((lba_size_ st =? 0) = false) as Hz by lia. rewrite Hz in *.
    apply Z.eqb_neq in Hg. assert (0 ≤ len `div` lba_size_ st) by (apply Z.div_pos; lia).
    apply split_segments_tiles in Hs as (new & Hnil & _ & Ht); [|lia|simpl; lia|].
    - symmetry in Hnil. apply app_nil in Hnil as [_ ->]. simpl in Ht. lia.
    - left. split; [lia|]. intros i Hi. by replace i with 0%nat by lia. }
  exists umin. split_and!; [lia..|done|done|]. rewrite Hpf.
  intros (d' & Hd' & Hfh)%existsb_exists. apply list_elem_of_In, elem_of_unresolved in Hd' as [Hd' _].
  unfold failed_hit in Hfh. destruct (ss_slots s !! d') as [sl|] eqn:Hs; [|done].
  apply andb_true_iff in Hfh as [H1%bool_decide_eq_true H2].
  exists d', sl. split_and!; done || lia.
Qed.
End fenced.

(** The request and the session fit the volume's geometry. *)
Definition geometry {T} (s : session) (st : dlsn_tracker T) (addr len : Z) : Prop :=
  -1 ≤ ss_login s ∧ range_ok addr len ∧ 0 < lba_size_ st ∧ aligned s (lba_size_ st) ∧
  (lba_size_ st | addr) ∧ (lba_size_ st | len).

(** C6: a planned read is safe and fresh.  When [plan_read] returns segments, they tile
    the request with at most eight sub-reads, and for some state it observed every byte
    of every segment is read at a horizon that (a) never lets a replica serve a slot that
    is in flight or failed: such a slot at or below the horizon lies under an acked one;
    and (b) hides no acknowledged write covering the byte. *)
Theorem plan_read_safe {T} `{!StreamTracker dlsn_slot T}
    (obs : list (session * dlsn_tracker T)) addr len segs :
  Forall (λ '(s, st), refines s st ∧ geometry s st addr len) obs →
  plan_read obs.*2 addr len = Some (Ok segs) →
  ∃ s st, (s, st) ∈ obs ∧ plan_ok s addr len segs ∧ (length segs ≤ k_max_segments)%nat.
Proof.
  induction 1 as [|[s st] obs [R (Hl & Hr & Hlba & Hal & Ha & Hn)] _ IH]; simpl; [done|].
  destruct (compute_total s st addr len R) as (p & st' & Hc & _). rewrite Hc. simpl.
  destruct (stall p) eqn:Hst.
  - intros H. destruct (IH H) as (s1 & st1 & ? & ?). exists s1, st1. split; [by right|done].
  - destruct (degraded p) eqn:Hdg; [done|]. intros [= <-]. exists s, st. split; [left|].
    destruct R as [[t R] _].
    destruct (compute_plan_ok s st t addr len R Hr p st') as (? & ? & _); try done.
    intros Hnil. unfold stall, degraded in *. rewrite Hnil in *. by destruct (po_failed p).
Qed.

(** [plan_read] fails only for cause: an error is [NO_QUORUM], and in the state it was
    taken from a write that failed to reach a quorum overlaps the request. *)
Theorem plan_read_error {T} `{!StreamTracker dlsn_slot T}
    (obs : list (session * dlsn_tracker T)) addr len e :
  Forall (λ '(s, st), refines s st ∧ geometry s st addr len) obs →
  plan_read obs.*2 addr len = Some (Err e) →
  e = ec_craft NO_QUORUM ∧
  ∃ s st d sl, (s, st) ∈ obs ∧ frontier_ st < d ≤ highest_acked_ st ∧
    ss_slots s !! d = Some sl ∧ ds_outcome sl = failed ∧
    overlaps addr len (ds_addr sl) (ds_len sl) = true.
Proof.
  induction 1 as [|[s st] obs [R (Hl & Hr & Hlba & Hal & Ha & Hn)] _ IH]; simpl; [done|].
  destruct (compute_total s st addr len R) as (p & st' & Hc & _). rewrite Hc. simpl.
  destruct (stall p) eqn:Hst.
  - intros H. destruct (IH H) as (? & s1 & st1 & d & sl & ? & ?). split; [done|].
    exists s1, st1, d, sl. split; [by right|done].
  - destruct (degraded p) eqn:Hdg; [|done]. intros [= <-]. split; [done|].
    unfold degraded in Hdg. destruct (po_segs p) eqn:Hp; [|done].
    assert (lba_size_ st ≤ len) by (apply Z.divide_pos_le; [unfold range_ok in Hr; lia|done]).
    destruct (compute_fenced s st addr len p st' R Hl Hc Hp) as (d & _ & _ & _ & Hf); [lia|].
    destruct (Hf Hdg) as (d' & sl & ? & ? & ? & ?). exists s, st, d', sl.
    split_and!; done || left || lia.
Qed.

(** [plan_read] makes progress: it only keeps waiting while a dLSN in (F, Ha] that
    overlaps the request (or whose range is not yet known) is unresolved, and with F at or
    above Ha a read never waits. *)
Theorem plan_read_waits {T} `{!StreamTracker dlsn_slot T} s (st : dlsn_tracker T) addr len :
  refines s st → geometry s st addr len →
  plan_read [st] addr len = None →
  ∃ d, frontier_ st < d ≤ highest_acked_ st ∧ resolved_at s d = false ∧
       fences s addr len d = true.
Proof.
  intros R (Hl & Hr & Hlba & Hal & Ha & Hn). simpl.
  destruct (compute_total s st addr len R) as (p & st' & Hc & _). rewrite Hc. simpl.
  destruct (stall p) eqn:Hst; [|by destruct (degraded p)]. intros _.
  unfold stall in Hst. destruct (po_segs p) eqn:Hp; [|done].
  assert (lba_size_ st ≤ len) by (apply Z.divide_pos_le; [unfold range_ok in Hr; lia|done]).
  destruct (compute_fenced s st addr len p st' R Hl Hc Hp) as (d & ? & ? & ? & _); [lia|].
  exists d. split_and!; done || lia.
Qed.

(** ** Plans evaluated *)

Definition slots_aligned (lba : Z) (s : session) : bool :=
  forallb (λ p : Z * dlsn_slot, (ds_addr p.2 `mod` lba =? 0) && (ds_len p.2 `mod` lba =? 0))
    (map_to_list (ss_slots s)).

Lemma slots_aligned_ok lba s : 0 < lba → slots_aligned lba s = true → aligned s lba.
Proof.
  intros Hl Hall d sl Hs. unfold slots_aligned in Hall. rewrite forallb_forall in Hall.
  specialize (Hall (d, sl)). simpl in Hall. rewrite andb_true_iff, !Z.eqb_eq in Hall.
  rewrite <-!Z.mod_divide by lia. apply Hall.
  by apply list_elem_of_In, elem_of_map_to_list.
Qed.

(** dLSN 0 failed, 2 acked, 1 handed out but not created yet. *)
Definition gap_ops : list tracker_op :=
  [op_take; op_take; op_take; op_create 0 0 512; op_create 2 4096 512; op_resolve 2 acked;
   op_resolve 0 failed].

Lemma gap_observed :
  refines (session_after gap_ops) (state_after gap_ops) ∧
  geometry (session_after gap_ops) (state_after gap_ops) 0 1024.
Proof.
  split; [apply state_after_refines; enabled_by_eval|].
  unfold geometry. split_and!; try done; [|by exists 0|by exists 2].
  by apply slots_aligned_ok.
Qed.

(** dLSN 1 is acked at 4096, 0 failed at 0: a read of both takes two horizons. *)
Lemma plan_read_safe_witness :
  ∃ s st, (s, st) ∈ [(example_session, example_state)] ∧
    plan_ok s 0 1024 [Mk_read_segment 0 512 (-1); Mk_read_segment 512 512 1] ∧
    (2 ≤ k_max_segments)%nat.
Proof.
  apply (plan_read_safe [(example_session, example_state)]); [|vm_compute; reflexivity].
  apply Forall_singleton. split; [apply example_refines|].
  unfold geometry. split_and!; try done; [|by exists 0|by exists 2].
  by apply slots_aligned_ok.
Defined.

Lemma plan_read_error_witness :
  ec_craft NO_QUORUM = ec_craft NO_QUORUM ∧
  ∃ s st d sl, (s, st) ∈ [(session_after gap_ops, state_after gap_ops)] ∧
    frontier_ st < d ≤ highest_acked_ st ∧ ss_slots s !! d = Some sl ∧ ds_outcome sl = failed ∧
    overlaps 0 1024 (ds_addr sl) (ds_len sl) = true.
Proof.
  apply (plan_read_error [(session_after gap_ops, state_after gap_ops)]);
    [|vm_compute; reflexivity].
  apply Forall_singleton. apply gap_observed.
Defined.

Lemma plan_read_waits_witness :
  ∃ d, -1 < d ≤ 2 ∧ resolved_at (session_after (take 6 gap_ops)) d = false ∧
       fences (session_after (take 6 gap_ops)) 0 1024 d = true.
Proof.
  apply (plan_read_waits (session_after (take 6 gap_ops)) (state_after (take 6 gap_ops)) 0 1024);
    [apply state_after_refines; enabled_by_eval| |vm_compute; reflexivity].
  unfold geometry. split_and!; try done; [|by exists 0|by exists 2].
  by apply slots_aligned_ok.
Defined.
