(* ===== verification/IntervalMap.v ===== *)
(** * Interval maps

    [boost::icl::interval_map<uint64_t, int64_t, partial_enricher>] is third-party code.
    What [src/read_route_map.hpp] uses of it is the class [IntervalMap], stated pointwise:
    [im_at m x] is the value at key [x].  [PointMap] is a concrete instance. *)

From S2P Require Import Prelude.

Local Open Scope Z_scope.

Class IntervalMap (M : Type) := {
  im_empty : M;
  im_erase : M → Z → Z → M;
  im_set : M → Z → Z → Z → M;
  im_intersects : M → Z → Z → bool;
  im_segments : M → list (Z * Z * Z);
  im_is_empty : M → bool;

  im_at : M → Z → option Z;

  im_at_empty x : im_at im_empty x = None;
  (** [erase([lo, hi))] and [set([lo, hi) -> v)] act on the keys of the interval only. *)
  im_at_erase m lo hi x :
    im_at (im_erase m lo hi) x = if decide (lo ≤ x < hi) then None else im_at m x;
  im_at_set m lo hi v x :
    im_at (im_set m lo hi v) x = if decide (lo ≤ x < hi) then Some v else im_at m x;
  im_intersects_iff m lo hi :
    im_intersects m lo hi = true ↔ ∃ x, lo ≤ x < hi ∧ is_Some (im_at m x);
  (** Iteration visits segments that carry one value each and together hold every key. *)
  im_segments_sound m lo hi v x :
    (lo, hi, v) ∈ im_segments m → lo ≤ x < hi → im_at m x = Some v;
  im_segments_complete m x v :
    im_at m x = Some v → ∃ lo hi, (lo, hi, v) ∈ im_segments m ∧ lo ≤ x < hi;
  im_is_empty_iff m : im_is_empty m = true ↔ ∀ x, im_at m x = None;
}.

(** ** An interval map that stores every key *)

Module PointMap.

Abbreviation t := (gmap Z Z).
Definition erase (m : t) (lo hi : Z) : t := foldr (λ x m, delete x m) m (range lo (hi - 1)).
Definition set (m : t) (lo hi v : Z) : t := foldr (λ x m, <[x := v]> m) m (range lo (hi - 1)).
Definition intersects (m : t) (lo hi : Z) : bool :=
  existsb (λ x, bool_decide (is_Some (m !! x))) (range lo (hi - 1)).
Definition segments (m : t) : list (Z * Z * Z) :=
  (λ p, (p.1, p.1 + 1, p.2)) <$> map_to_list m.
Definition is_empty (m : t) : bool := bool_decide (m = ∅).

Lemma lookup_erase (m : gmap Z Z) (l : list Z) x :
  foldr (λ x (m : gmap Z Z), delete x m) m l !! x = if decide (x ∈ l) then None else m !! x.
Proof.
  induction l as [|y l IH]; simpl; [done|]. destruct (decide (x = y)) as [->|Hne].
  - rewrite lookup_delete_eq. by rewrite decide_True by left.
  - rewrite lookup_delete_ne, IH by done.
    destruct (decide (x ∈ l)); [by rewrite decide_True by (by right)|].
    by rewrite decide_False by (rewrite elem_of_cons; tauto).
Qed.

Lemma lookup_set (m : gmap Z Z) (l : list Z) v x :
  foldr (λ x (m : gmap Z Z), <[x := v]> m) m l !! x = if decide (x ∈ l) then Some v else m !! x.
Proof.
  induction l as [|y l IH]; simpl; [done|]. destruct (decide (x = y)) as [->|Hne].
  - rewrite lookup_insert_eq. by rewrite decide_True by left.
  - rewrite lookup_insert_ne, IH by done.
    destruct (decide (x ∈ l)); [by rewrite decide_True by (by right)|].
    by rewrite decide_False by (rewrite elem_of_cons; tauto).
Qed.

Lemma decide_range {A} lo hi x (a b : A) :
  (if decide (x ∈ range lo (hi - 1)) then a else b) = (if decide (lo ≤ x < hi) then a else b).
Proof.
  destruct (decide (x ∈ range lo (hi - 1))) as [Hin|Hin]; rewrite elem_of_range in Hin.
  - by rewrite decide_True by lia.
  - by rewrite decide_False by lia.
Qed.

#[global] Program Instance interval_map : IntervalMap t := {|
  im_empty := ∅; im_erase := erase; im_set := set; im_intersects := intersects;
  im_segments := segments; im_is_empty := is_empty; im_at := λ m x, m !! x |}.
Next Obligation. intros x. apply lookup_empty. Qed.
Next Obligation. intros m lo hi x. unfold erase. by rewrite lookup_erase, decide_range. Qed.
Next Obligation. intros m lo hi v x. unfold set. by rewrite lookup_set, decide_range. Qed.
Next Obligation.
  intros m lo hi. unfold intersects. rewrite existsb_exists. split.
  - intros (x & Hx%list_elem_of_In%elem_of_range & Hs%bool_decide_eq_true).
    exists x. split; [lia|done].
  - intros (x & Hx & Hs). exists x. split; [|by apply bool_decide_eq_true].
    apply list_elem_of_In, elem_of_range. lia.
Qed.
Next Obligation.
  intros m lo hi v x ([k w] & [= -> -> ->] & Hk%elem_of_map_to_list)%list_elem_of_fmap Hx.
  simpl in *. by replace x with k by lia.
Qed.
Next Obligation.
  intros m x v Hx. exists x, (x + 1). split; [|lia].
  apply list_elem_of_fmap. exists (x, v). split; [done|]. by apply elem_of_map_to_list.
Qed.
Next Obligation.
  intros m. unfold is_empty. rewrite bool_decide_eq_true. split.
  - intros -> x. by rewrite lookup_empty.
  - intros H. apply map_eq. intros x. by rewrite H, lookup_empty.
Qed.
End PointMap.
