(* ===== verification/ReadRoute.v ===== *)
(** * The read route map

    [src/read_route_map.hpp]: the client's view of which member holds which write.  Above
    the folded frontier a [StreamTracker] carries the holder bitset of every dLSN; below it
    one interval map per member carries the byte ranges the member misses.

    Bitsets are 64-bit words as [Z]; the per-member arrays are lists of [k_max_members]
    entries.  Every member function is one atomic step, except [eligible], which reads the
    interval map and the overlay under different locks: [eligible_map] and
    [eligible_overlay] are its two halves.  [std::sort] is not stable: it is any function
    that returns a sorted permutation. *)

From S2P Require Import Prelude Codec WireTypes Wire Types StreamTracker IntervalMap.

Local Open Scope craft_scope.
Local Open Scope Z_scope.

(** [struct route_slot], [struct pending_miss]. *)
Record route_slot := Mk_route_slot {
  rs_dlsn : Z;
  rs_addr : Z;
  rs_len : Z;
  rs_holders : Z;
  rs_completed : Z;
  rs_verdict : Z;
}.
Record pending_miss := Mk_pending_miss { pm_dlsn : Z; pm_held : Z; pm_addr : Z; pm_len : Z }.

Definition kNever : Z := 2 ^ 63 - 1.
Definition k_route_trunc_batch : Z := 512.
Definition k_unsynced : Z := -1.
Definition k_max_members : nat := 16.

Definition bit (i : nat) : Z := Z.shiftl 1 (Z.of_nat i).
Definition mask_of (n : nat) : Z :=
  if decide (64 ≤ n)%nat then 2 ^ 64 - 1 else Z.shiftl 1 (Z.of_nat n) - 1.
(** [std::popcount] of a 64-bit word. *)
Definition popcount (z : Z) : nat := length (filter (λ i, Z.testbit z i = true) (range 0 63)).
Definition route_overlaps (a0 l0 a1 l1 : Z) : bool :=
  (a0 <? u64 (a1 + l1)) && (a1 <? u64 (a0 + l0)).

(** What the fold relies on of [std::sort] with the comparison by dLSN. *)
Class MissSort := {
  sort_misses : list pending_miss → list pending_miss;
  sort_perm l : sort_misses l ≡ₚ l;
  sort_sorted l : StronglySorted (λ x y, pm_dlsn x ≤ pm_dlsn y) (sort_misses l);
}.

Section route.
Context {T M : Type} `{ST : !StreamTracker route_slot T} `{IM : !IntervalMap M} `{MS : !MissSort}.

Record read_route_map := Mk_route {
  overlay_ : option T;
  miss_ : list M;
  synced_ : list Z;
  ka_inflight_ : list bool;
  rr_inflight_ : list bool;
  pending_ : list pending_miss;
  pending_hint_ : Z;
  n_ : nat;
  quorum_ : nat;
  login_dlsn_ : Z;
  all_committed_ : Z;
  folded_ : Z;
  route_trunc_ : Z;
  all_mask_ : Z;
}.

Definition route_init : read_route_map :=
  Mk_route None (replicate k_max_members im_empty) (replicate k_max_members 0)
    (replicate k_max_members false) (replicate k_max_members false) [] kNever 0 1 (-1) (-1) (-1) (-1) 0.

(** [for (i = 0; i < n; ++i) a[i] = v]. *)
Definition fill {A} (n : nat) (v : A) (l : list A) : list A :=
  replicate (Nat.min n (length l)) v ++ drop n l.

Definition route_reset (r : read_route_map) (n : nat) (login_dlsn : Z) : read_route_map :=
  Mk_route (Some (st_new login_dlsn)) (fill n im_empty (miss_ r)) (fill n k_unsynced (synced_ r))
    (fill n false (ka_inflight_ r)) (fill n false (rr_inflight_ r)) [] kNever
    n (n / 2 + 1) login_dlsn k_unsynced login_dlsn login_dlsn (mask_of n).

Definition set_overlay (r : read_route_map) (t : T) (p : list pending_miss) (hint : Z) :
    read_route_map :=
  Mk_route (Some t) (miss_ r) (synced_ r) (ka_inflight_ r) (rr_inflight_ r) p hint
    (n_ r) (quorum_ r) (login_dlsn_ r) (all_committed_ r) (folded_ r) (route_trunc_ r) (all_mask_ r).

Definition route_create (r : read_route_map) (d addr len : Z) : option read_route_map :=
  t ← overlay_ r;
  Some (set_overlay r (st_create t d (Mk_route_slot d addr len 0 0 0)) (pending_ r) (pending_hint_ r)).

(** What the completion callbacks capture of the map: [pending_] and [pending_hint_].
    [push_pending] is the [push_back] and the compare-and-swap minimum of the hint. *)
Definition pending_vars : Type := list pending_miss * Z.
Definition push_pending (s : route_slot) (held : Z) (v : pending_vars) : pending_vars :=
  (v.1 ++ [Mk_pending_miss (rs_dlsn s) held (rs_addr s) (rs_len s)], Z.min v.2 (rs_dlsn s)).

(** The slot after one member's completion. *)
Definition complete_slot (s : route_slot) (b : Z) (is_acked : bool) : route_slot :=
  Mk_route_slot (rs_dlsn s) (rs_addr s) (rs_len s)
    (if is_acked then Z.lor (rs_holders s) b else rs_holders s)
    (Z.lor (rs_completed s) b) (rs_verdict s).

Definition hands_off (quorum : nat) (all_mask held : Z) : bool :=
  bool_decide (quorum ≤ popcount held)%nat && negb (held =? all_mask).

(** The callback of [record_completion]. *)
Definition on_completion (quorum : nat) (all_mask b : Z) (is_acked : bool) :
    update_fn route_slot pending_vars := λ s v,
  let s := complete_slot s b is_acked in
  if rs_completed s =? all_mask then
    (s, true, if hands_off quorum all_mask (rs_holders s) then push_pending s (rs_holders s) v else v)
  else (s, false, v).

Definition record_completion (r : read_route_map) (d : Z) (idx : nat) (is_acked : bool) :
    option read_route_map :=
  t ← overlay_ r;
  let '(t, (p, h)) := st_update t d (on_completion (quorum_ r) (all_mask_ r) (bit idx) is_acked)
                        (pending_ r, pending_hint_ r) in
  Some (set_overlay r t p h).

(** The slot after a resolution round filled it, and the callback of [note_filled]. *)
Definition fill_slot (s : route_slot) (lb : Z) : route_slot :=
  Mk_route_slot (rs_dlsn s) (rs_addr s) (rs_len s) (Z.lor (rs_holders s) lb) (rs_completed s) 1.
Definition on_filled (all_mask lb : Z) : update_fn route_slot pending_vars := λ s v,
  let s := fill_slot s lb in
  (s, false, if rs_holders s =? all_mask then v else push_pending s (rs_holders s) v).

Definition note_filled (r : read_route_map) (d : Z) (leader_idx : nat) : option read_route_map :=
  t ← overlay_ r;
  let '(t, (p, h)) := st_update t d (on_filled (all_mask_ r) (bit leader_idx))
                        (pending_ r, pending_hint_ r) in
  Some (set_overlay r t p h).

(** ** The fold *)

Definition byte_ivl_end (a l : Z) : Z := u64 (a + l).

(** One entry of the batch, applied to every member's interval map. *)
Definition apply_miss (n : nat) (e : pending_miss) (miss : list M) : list M :=
  imap (λ i m,
    if decide (i < n)%nat then
      if Z.land (pm_held e) (bit i) =? 0
      then im_set m (pm_addr e) (byte_ivl_end (pm_addr e) (pm_len e)) (pm_dlsn e)
      else im_erase m (pm_addr e) (byte_ivl_end (pm_addr e) (pm_len e))
    else m) miss.

(** [advance_folded] and [maybe_truncate]. *)
Definition advance_folded (r : read_route_map) (target : Z) : Z := Z.max (folded_ r) target.
Definition maybe_truncate (t : T) (lt target : Z) : T * Z :=
  if k_route_trunc_batch <=? target - lt then (st_truncate t target, target) else (t, lt).

Definition set_fold (r : read_route_map) (t : T) (miss : list M) (p : list pending_miss)
    (hint target : Z) : read_route_map :=
  let '(t, lt) := maybe_truncate t (route_trunc_ r) target in
  Mk_route (Some t) miss (synced_ r) (ka_inflight_ r) (rr_inflight_ r) p hint (n_ r) (quorum_ r)
    (login_dlsn_ r) (all_committed_ r) (advance_folded r target) lt (all_mask_ r).

Definition fold_to (r : read_route_map) (F : Z) : option read_route_map :=
  t ← overlay_ r;
  let cur := folded_ r in
  if F <=? cur then Some r
  else
    let target := Z.min F (st_completed_upto t (cur + 1)) in
    if target <=? cur then Some r
    else if target <? pending_hint_ r then
      Some (set_fold r t (miss_ r) (pending_ r) (pending_hint_ r) target)
    else
      let batch := filter (λ e, pm_dlsn e ≤ target) (pending_ r) in
      let keep := filter (λ e, ¬ pm_dlsn e ≤ target) (pending_ r) in
      let new_hint := foldl (λ h e, Z.min h (pm_dlsn e)) kNever keep in
      let miss := foldl (λ ms e, apply_miss (n_ r) e ms) (miss_ r) (sort_misses batch) in
      Some (set_fold r t miss keep new_hint target).

(** ** Eligibility *)

Definition synced_at (r : read_route_map) (idx : nat) : Z := default k_unsynced (synced_ r !! idx).
Definition miss_at (r : read_route_map) (idx : nat) : M := default im_empty (miss_ r !! idx).

(** Checks (a) and (b) of [eligible]. *)
Definition eligible_map (r : read_route_map) (idx : nat) (addr len : Z) : bool :=
  negb (synced_at r idx <? login_dlsn_ r) &&
  negb (im_intersects (miss_at r idx) addr (byte_ivl_end addr len)).

Definition slot_durable (quorum : nat) (s : route_slot) : bool :=
  bool_decide (quorum ≤ popcount (rs_holders s))%nat || negb (rs_verdict s =? 0).

(** Check (c): the scan of the overlay above the folded frontier. *)
Fixpoint overlay_scan (quorum : nat) (b addr len Hmax : Z) (slots : list (Z * route_slot)) : bool :=
  match slots with
  | [] => true
  | (d, s) :: slots =>
      if Hmax <? d then true
      else if negb (slot_durable quorum s) then overlay_scan quorum b addr len Hmax slots
      else if route_overlaps addr len (rs_addr s) (rs_len s) && (Z.land (rs_holders s) b =? 0)
      then false
      else overlay_scan quorum b addr len Hmax slots
  end.

Definition eligible_overlay (r : read_route_map) (idx : nat) (addr len Hmax : Z) : option bool :=
  t ← overlay_ r;
  Some (overlay_scan (quorum_ r) (bit idx) addr len Hmax (st_foreach_all_active t (folded_ r + 1))).

(** [eligible] when no fold runs between its halves; [r1] and [r2] are the states the
    halves see. *)
Definition eligible_between (r1 r2 : read_route_map) (idx : nat) (addr len Hmax : Z) : option bool :=
  if eligible_map r1 idx addr len then eligible_overlay r2 idx addr len Hmax else Some false.
Definition eligible (r : read_route_map) (idx : nat) (addr len Hmax : Z) : option bool :=
  eligible_between r r idx addr len Hmax.

(** ** Recovery, collapse flags and observers *)

Definition drop_upto (C : Z) (m : M) : M :=
  foldl (λ m '(lo, hi, _), im_erase m lo hi) m
    (filter (λ seg : Z * Z * Z, seg.2 ≤ C) (im_segments m)).

Definition advance_synced (r : read_route_map) (idx : nat) (C : Z) : read_route_map :=
  if C <=? synced_at r idx then r
  else
    let synced := <[idx := C]> (synced_ r) in
    let floor := foldl (λ f i, Z.min f (default k_unsynced (synced !! i)))
                   (default k_unsynced (synced !! 0%nat)) (seq 1 (n_ r - 1)) in
    Mk_route (overlay_ r) (alter (drop_upto C) idx (miss_ r)) synced (ka_inflight_ r)
      (rr_inflight_ r) (pending_ r) (pending_hint_ r) (n_ r) (quorum_ r) (login_dlsn_ r)
      floor (folded_ r) (route_trunc_ r) (all_mask_ r).

Definition set_flags (r : read_route_map) (ka rr : list bool) : read_route_map :=
  Mk_route (overlay_ r) (miss_ r) (synced_ r) ka rr (pending_ r) (pending_hint_ r) (n_ r)
    (quorum_ r) (login_dlsn_ r) (all_committed_ r) (folded_ r) (route_trunc_ r) (all_mask_ r).

Definition try_begin_keepalive (r : read_route_map) (idx : nat) : bool * read_route_map :=
  (negb (default false (ka_inflight_ r !! idx)),
   set_flags r (<[idx := true]> (ka_inflight_ r)) (rr_inflight_ r)).
Definition end_keepalive (r : read_route_map) (idx : nat) : read_route_map :=
  set_flags r (<[idx := false]> (ka_inflight_ r)) (rr_inflight_ r).
Definition try_begin_resolution (r : read_route_map) (idx : nat) : bool * read_route_map :=
  (negb (default false (rr_inflight_ r !! idx)),
   set_flags r (ka_inflight_ r) (<[idx := true]> (rr_inflight_ r))).
Definition end_resolution (r : read_route_map) (idx : nat) : read_route_map :=
  set_flags r (ka_inflight_ r) (<[idx := false]> (rr_inflight_ r)).

Definition folded (r : read_route_map) : Z := folded_ r.
Definition all_committed (r : read_route_map) : Z := all_committed_ r.
Definition caught_up (r : read_route_map) (idx : nat) : bool :=
  negb (synced_at r idx <? login_dlsn_ r) && im_is_empty (miss_at r idx).
End route.
Arguments read_route_map : clear implicits.
