(* ===== verification/RouteSpec.v ===== *)
(** * What the route map promises

    The ghost history of a session: the slot of every dLSN created since login with the
    holders recorded so far ([hist], never truncated), and the misses the folds have
    applied ([app]).  [route_inv] ties them to the map of [ReadRoute]; every operation keeps
    it, and it makes [eligible] sound. *)

From S2P Require Import Prelude Codec WireTypes Wire Types StreamTracker IntervalMap ReadRoute.

Local Open Scope craft_scope.
Local Open Scope Z_scope.

(** ** Bitsets *)

Definition holds (held : Z) (i : nat) : bool := Z.testbit held (Z.of_nat i).
Definition subset (a b : Z) : Prop := ∀ i, Z.testbit a i = true → Z.testbit b i = true.

Lemma bit_spec i j : 0 ≤ j → Z.testbit (bit i) j = bool_decide (j = Z.of_nat i).
Proof.
  intros Hj. unfold bit. rewrite Z.shiftl_spec by done. case_bool_decide as H.
  - subst. by rewrite Z.sub_diag.
  - destruct (decide (j < Z.of_nat i)); [by rewrite (Z.testbit_neg_r 1) by lia|].
    apply Z.bits_above_log2; simpl; lia.
Qed.

Lemma land_bit z i : (Z.land z (bit i) =? 0) = negb (holds z i).
Proof.
  unfold holds. destruct (Z.testbit z (Z.of_nat i)) eqn:Hb; simpl.
  - apply Z.eqb_neq. intros H. apply (f_equal (λ w, Z.testbit w (Z.of_nat i))) in H.
    rewrite Z.land_spec, Hb, bit_spec, bool_decide_eq_true_2, Z.bits_0 in H by lia. done.
  - apply Z.eqb_eq. apply Z.bits_inj'. intros n Hn.
    rewrite Z.land_spec, bit_spec, Z.bits_0 by done.
    case_bool_decide; [subst; by rewrite Hb|by rewrite andb_false_r].
Qed.

Lemma subset_refl a : subset a a.
Proof. by intros i. Qed.

Lemma subset_trans a b c : subset a b → subset b c → subset a c.
Proof. unfold subset. auto. Qed.

Lemma subset_lor a b : subset a (Z.lor a b).
Proof. intros i H. by rewrite Z.lor_spec, H. Qed.

Lemma filter_length_mono {A} (P Q : A → Prop) `{!∀ x, Decision (P x), !∀ x, Decision (Q x)} l :
  (∀ x, P x → Q x) → (length (filter P l) ≤ length (filter Q l))%nat.
Proof.
  intros HPQ. induction l as [|x l IH]; [done|]. rewrite !filter_cons.
  destruct (decide (P x)) as [HP|], (decide (Q x)) as [|HQ]; simpl; try lia.
  by destruct HQ; apply HPQ.
Qed.

Lemma popcount_mono a b : subset a b → (popcount a ≤ popcount b)%nat.
Proof. intros H. apply filter_length_mono. auto. Qed.

Lemma filter_length_add {A} (P Q : A → Prop) `{!∀ x, Decision (P x), !∀ x, Decision (Q x)} l a :
  NoDup l → a ∈ l → ¬ P a → (∀ x, Q x ↔ x = a ∨ P x) →
  length (filter Q l) = S (length (filter P l)).
Proof.
  intros Hnd Ha HPa HQ. induction Hnd as [|x l Hx Hnd IH]; [by apply not_elem_of_nil in Ha|].
  rewrite !filter_cons. apply elem_of_cons in Ha as [<-|Ha].
  - rewrite decide_True, (decide_False (P := P a)) by (done || apply HQ; by left). simpl. f_equal.
    f_equal. apply list_filter_ext_in. intros y Hy. rewrite HQ. split; [|by right].
    intros [->|?]; done.
  - assert (x ≠ a) by congruence. destruct (decide (P x)) as [HP|HP].
    + rewrite decide_True by (apply HQ; by right). simpl. rewrite IH; done.
    + rewrite decide_False by (rewrite HQ; naive_solver). by apply IH.
Qed.

Lemma popcount_add z i :
  (i < 64)%nat → holds z i = false → popcount (Z.lor z (bit i)) = S (popcount z).
Proof.
  intros Hi Hh. unfold popcount. unfold holds in Hh.
  rewrite (list_filter_ext_in (λ j, Z.testbit (Z.lor z (bit i)) j = true)
             (λ j, j = Z.of_nat i ∨ Z.testbit z j = true)).
  - apply (filter_length_add _ _ _ (Z.of_nat i)); [apply NoDup_range|apply elem_of_range; lia| |done].
    by rewrite Hh.
  - intros j Hj%elem_of_range. rewrite Z.lor_spec, bit_spec, orb_true_iff, bool_decide_eq_true by lia. tauto.
Qed.

Lemma holds_lor z i j : holds (Z.lor z (bit i)) j = holds z j || bool_decide (j = i).
Proof.
  unfold holds. rewrite Z.lor_spec, bit_spec by lia. f_equal. apply bool_decide_ext. lia.
Qed.

Lemma mask_bit n i : (n < 64)%nat → Z.testbit (mask_of n) (Z.of_nat i) = bool_decide (i < n)%nat.
Proof.
  intros Hn. unfold mask_of. rewrite decide_False by lia.
  rewrite Z.shiftl_1_l.
  replace (2 ^ Z.of_nat n - 1) with (Z.ones (Z.of_nat n)) by (rewrite Z.ones_equiv; lia).
  destruct (bool_decide_reflect (i < n)%nat).
  - apply Z.ones_spec_low. lia.
  - apply Z.ones_spec_high. lia.
Qed.

Lemma mask_lor_bit n i : (n < 64)%nat → (i < n)%nat → Z.lor (mask_of n) (bit i) = mask_of n.
Proof.
  intros Hn Hi. apply Z.bits_inj'. intros j Hj. rewrite Z.lor_spec, bit_spec by done.
  case_bool_decide; [|by rewrite orb_false_r]. subst.
  by rewrite mask_bit, bool_decide_eq_true_2 by lia.
Qed.

(** ** The invariant *)

Definition rcovers (addr len x : Z) : Prop := addr ≤ x < addr + len.

Record route_ghost := Mk_ghost { hist : gmap Z route_slot; app : list pending_miss }.

Definition slot_complete (all_mask : Z) (s : route_slot) : bool := rs_completed s =? all_mask.
Definition complete_at (all_mask : Z) (h : gmap Z route_slot) (d : Z) : bool :=
  match h !! d with Some s => slot_complete all_mask s | None => false end.

(** A miss entry describes a durable slot of the history and claims no holder the history
    does not have. *)
Definition entry_ok (quorum : nat) (h : gmap Z route_slot) (e : pending_miss) : Prop :=
  ∃ s, h !! pm_dlsn e = Some s ∧ pm_addr e = rs_addr s ∧ pm_len e = rs_len s ∧
       subset (pm_held e) (rs_holders s) ∧ slot_durable quorum s = true.

(** Member [i]'s interval map accounts for every applied miss: the byte is marked with the
    dLSN of the miss or a later one, or an applied entry at least as late that the member
    holds covers it, or the member has reported a commit at or above the miss. *)
Definition miss_ok {M} `{!IntervalMap M} (app : list pending_miss) (m : M) (sync : Z) (i : nat) : Prop :=
  ∀ e x, e ∈ app → holds (pm_held e) i = false → rcovers (pm_addr e) (pm_len e) x →
    (∃ v, im_at m x = Some v ∧ pm_dlsn e ≤ v) ∨
    (∃ e', e' ∈ app ∧ pm_dlsn e ≤ pm_dlsn e' ∧ holds (pm_held e') i = true ∧
           rcovers (pm_addr e') (pm_len e') x) ∨
    pm_dlsn e ≤ sync.

(** The operations a run of the map is made of. *)
Inductive route_op :=
| ro_create (d addr len : Z)
| ro_complete (d : Z) (idx : nat) (is_acked : bool)
| ro_filled (d : Z) (leader : nat)
| ro_fold (F : Z)
| ro_synced (idx : nat) (C : Z)
| ro_flags (ka rr : list bool).

Section invariant.
Context {T M : Type} `{ST : !StreamTracker route_slot T} `{IM : !IntervalMap M} `{MS : !MissSort}.
Implicit Types (g : route_ghost) (r : read_route_map T M) (t : T).

Record route_inv g r t : Prop := {
  ri_overlay : overlay_ r = Some t;
  ri_n : (1 ≤ n_ r ≤ k_max_members)%nat ∧ quorum_ r = (n_ r / 2 + 1)%nat ∧ all_mask_ r = mask_of (n_ r);
  ri_arrays : length (miss_ r) = k_max_members ∧ length (synced_ r) = k_max_members;
  ri_base : login_dlsn_ r < st_base t ≤ folded_ r + 1;
  ri_slot d : st_base t ≤ d → st_slot t d = hist g !! d;
  ri_done d : st_base t ≤ d → st_done t d = complete_at (all_mask_ r) (hist g) d;
  ri_dom d s : hist g !! d = Some s →
    login_dlsn_ r < d < kNever ∧ rs_dlsn s = d ∧ 0 ≤ rs_addr s ∧ 0 ≤ rs_len s ∧
    rs_addr s + rs_len s < 2 ^ 64;
  ri_folded : login_dlsn_ r ≤ folded_ r;
  ri_prefix d : login_dlsn_ r < d ≤ folded_ r → complete_at (all_mask_ r) (hist g) d = true;
  ri_entry e : e ∈ app g ++ pending_ r → entry_ok (quorum_ r) (hist g) e;
  ri_app e : e ∈ app g → pm_dlsn e ≤ folded_ r;
  ri_pending e : e ∈ pending_ r → folded_ r < pm_dlsn e;
  ri_hint e : e ∈ pending_ r → pending_hint_ r ≤ pm_dlsn e;
  ri_owed d s : hist g !! d = Some s → slot_durable (quorum_ r) s = true →
    rs_holders s ≠ all_mask_ r → slot_complete (all_mask_ r) s || negb (rs_verdict s =? 0) = true →
    ∃ e, e ∈ app g ++ pending_ r ∧ pm_dlsn e = d;
  ri_miss i m : (i < n_ r)%nat → miss_ r !! i = Some m → miss_ok (app g) m (synced_at r i) i;
}.

Lemma route_inv_reset r n L :
  (1 ≤ n ≤ k_max_members)%nat → length (miss_ r) = k_max_members →
  length (synced_ r) = k_max_members →
  route_inv (Mk_ghost ∅ []) (route_reset r n L) (st_new L).
Proof.
  intros Hn Hm Hs. split; simpl; try done; try lia.
  - unfold fill. rewrite !length_app, !length_replicate, !length_drop. lia.
  - rewrite st_new_base. lia.
  - intros d _. by rewrite st_new_slot, lookup_empty.
  - intros d _. by rewrite st_new_done.
  - intros e He. by apply not_elem_of_nil in He.
  - intros e He. by apply not_elem_of_nil in He.
  - intros e He. by apply not_elem_of_nil in He.
  - intros e He. by apply not_elem_of_nil in He.
  - intros i m _ _ e x He. by apply not_elem_of_nil in He.
Qed.

Lemma complete_lookup all_mask h d :
  complete_at all_mask h d = true → ∃ s, h !! d = Some s ∧ slot_complete all_mask s = true.
Proof. unfold complete_at. destruct (h !! d); [eauto|done]. Qed.

(** ** Eligibility is sound *)

Lemma overlay_scan_sound quorum b addr len Hmax slots d s :
  overlay_scan quorum b addr len Hmax slots = true →
  StronglySorted Z.lt slots.*1 → (d, s) ∈ slots → d ≤ Hmax → slot_durable quorum s = true →
  route_overlaps addr len (rs_addr s) (rs_len s) = true → (Z.land (rs_holders s) b =? 0) = false.
Proof.
  induction slots as [|[d' s'] slots IH]; intros Hscan Hs Hin Hle Hd Ho;
    [by apply not_elem_of_nil in Hin|].
  simpl in *. inversion Hs as [|? ? Hs' Hall]; subst.
  apply elem_of_cons in Hin as [[= <- <-]|Hin].
  - assert ((Hmax <? d) = false) as Hg by lia. rewrite Hg, Hd in Hscan. simpl in Hscan.
    rewrite Ho in Hscan. simpl in Hscan. by destruct (Z.land (rs_holders s) b =? 0).
  - assert (d' < d) as Hlt.
    { rewrite Forall_forall in Hall. apply Hall. apply (list_elem_of_fmap_2 fst _ _ Hin). }
    assert ((Hmax <? d') = false) as Hg by lia. rewrite Hg in Hscan.
    destruct (slot_durable quorum s'); simpl in Hscan; [|by eapply IH].
    destruct (_ && _); [done|]. by eapply IH.
Qed.

(** Every durable write a read at [Hmax] may need, and where the member stands on it. *)
Definition served (h : gmap Z route_slot) r (i : nat) (d : Z) (s : route_slot) (x : Z) : Prop :=
  holds (rs_holders s) i = true ∨
  (∃ d' s', d < d' ≤ folded_ r ∧ h !! d' = Some s' ∧ slot_durable (quorum_ r) s' = true ∧
     holds (rs_holders s') i = true ∧ rcovers (rs_addr s') (rs_len s') x) ∨
  d ≤ synced_at r i.

Lemma eligible_map_sound g r t i addr len :
  route_inv g r t → (i < n_ r)%nat → 0 ≤ addr → 0 ≤ len → addr + len < 2 ^ 64 →
  eligible_map r i addr len = true →
  login_dlsn_ r ≤ synced_at r i ∧
  ∀ d s x, d ≤ folded_ r → hist g !! d = Some s → slot_durable (quorum_ r) s = true →
    rcovers (rs_addr s) (rs_len s) x → rcovers addr len x → served (hist g) r i d s x.
Proof.
  intros I Hi Ha Hl Hw Hmap. unfold eligible_map in Hmap. apply andb_true_iff in Hmap as [Hsy Hint].
  apply negb_true_iff in Hsy, Hint. split; [lia|]. intros d s x Hf Hs Hdur Hcx Hx.
  destruct (ri_dom _ _ _ I d s Hs) as (Hdr & Hds & H0 & H1 & H2). unfold rcovers in *.
  destruct (holds (rs_holders s) i) eqn:Hh; [by left|]. right.
  assert (complete_at (all_mask_ r) (hist g) d = true) as Hc
    by (apply (ri_prefix _ _ _ I); lia).
  apply complete_lookup in Hc as (s0 & Hs0 & Hc). rewrite Hs in Hs0. injection Hs0 as <-.
  assert (rs_holders s ≠ all_mask_ r) as Hne.
  { intros Heq. destruct (ri_n _ _ _ I) as (Hn & _ & Hmask). unfold holds in Hh.
    rewrite Heq, Hmask, mask_bit, bool_decide_eq_true_2 in Hh by (unfold k_max_members in *; lia). done. }
  destruct (ri_owed _ _ _ I d s Hs Hdur Hne) as (e & He' & Hed); [by rewrite Hc|].
  assert (e ∈ app g) as Happ.
  { apply elem_of_app in He' as [|Hp]; [done|]. apply (ri_pending _ _ _ I) in Hp. lia. }
  destruct (ri_entry _ _ _ I e He') as (s1 & Hs1 & Hea & Hel & Hsub & _).
  rewrite Hed, Hs in Hs1. injection Hs1 as <-.
  destruct (lookup_lt_is_Some_2 (miss_ r) i) as [m Hm].
  { destruct (ri_arrays _ _ _ I) as [-> _]. destruct (ri_n _ _ _ I) as (? & _). lia. }
  destruct (ri_miss _ _ _ I i m Hi Hm e x) as [(v & Hv & _)|[(e' & He1 & Hle & Hh' & Hc')|?]].
  - done.
  - destruct (holds (pm_held e) i) eqn:Hhe; [|done]. apply Hsub in Hhe.
    unfold holds in Hh. congruence.
  - unfold rcovers. rewrite Hea, Hel. lia.
  - exfalso. apply not_true_iff_false in Hint. apply Hint, im_intersects_iff.
    exists x. unfold miss_at, byte_ivl_end, u64. rewrite Hm, wrap_small by (unfold in_u; lia).
    split; [lia|]. simpl. by rewrite Hv.
  - left. destruct (ri_entry _ _ _ I e') as (s' & Hs' & Ha' & Hl' & Hsub' & Hd');
      [apply elem_of_app; by left|].
    exists (pm_dlsn e'), s'. pose proof (ri_app _ _ _ I e' He1).
    assert (pm_dlsn e' ≠ d) as Hned.
    { intros Heq. rewrite Heq, Hs in Hs'. injection Hs' as <-. apply Hsub' in Hh'.
      unfold holds in Hh. congruence. }
    rewrite <-Ha', <-Hl'. split_and!; try done; try lia. by apply Hsub'.
  - right. lia.
Qed.

Lemma eligible_overlay_sound g r t i addr len Hmax d s x :
  route_inv g r t → 0 ≤ addr → 0 ≤ len → addr + len < 2 ^ 64 →
  eligible_overlay r i addr len Hmax = Some true →
  folded_ r < d ≤ Hmax → hist g !! d = Some s → slot_durable (quorum_ r) s = true →
  rcovers (rs_addr s) (rs_len s) x → rcovers addr len x → holds (rs_holders s) i = true.
Proof.
  intros I Ha Hl Hw He Hd Hs Hdur Hcx Hx.
  unfold eligible_overlay in He. rewrite (ri_overlay _ _ _ I) in He. simpl in He. injection He as He.
  destruct (ri_dom _ _ _ I d s Hs) as (Hdr & Hds & H0 & H1 & H2). unfold rcovers in *.
  pose proof (ri_base _ _ _ I) as Hb.
  assert ((Z.land (rs_holders s) (bit i) =? 0) = false) as Hland.
  { eapply (overlay_scan_sound _ _ _ _ _ _ d s He); try done; try lia.
    - apply st_foreach_sorted.
    - apply st_foreach_elem. split; [lia|]. by rewrite (ri_slot _ _ _ I) by lia.
    - unfold route_overlaps, u64. rewrite !wrap_small by (unfold in_u; lia).
      rewrite andb_true_iff, !Z.ltb_lt. lia. }
  rewrite land_bit in Hland. by apply negb_false_iff in Hland.
Qed.

Lemma eligible_sound_aux g r t i addr len Hmax :
  route_inv g r t → (i < n_ r)%nat → 0 ≤ addr → 0 ≤ len → addr + len < 2 ^ 64 →
  eligible r i addr len Hmax = Some true →
  login_dlsn_ r ≤ synced_at r i ∧
  ∀ d s x, d ≤ Hmax → hist g !! d = Some s → slot_durable (quorum_ r) s = true →
    rcovers (rs_addr s) (rs_len s) x → rcovers addr len x → served (hist g) r i d s x.
Proof.
  intros I Hi Ha Hl Hw He. unfold eligible, eligible_between in He.
  destruct (eligible_map r i addr len) eqn:Hmap; [|done].
  destruct (eligible_map_sound g r t i addr len) as [? Hm]; [done..|]. split; [done|].
  intros d s x Hd Hs Hdur Hcx Hx. destruct (decide (d ≤ folded_ r)); [by apply Hm|].
  left. apply (eligible_overlay_sound g r t i addr len Hmax d s x); try done. lia.
Qed.

(** ** Every operation keeps the invariant *)

Lemma durable_mono quorum s s' :
  subset (rs_holders s) (rs_holders s') → rs_verdict s' = rs_verdict s ∨ rs_verdict s' = 1 →
  slot_durable quorum s = true → slot_durable quorum s' = true.
Proof.
  unfold slot_durable. intros Hsub Hv. rewrite !orb_true_iff, !bool_decide_eq_true.
  intros [Hq|Hq]; [left; etrans; [done|by apply popcount_mono]|right].
  destruct Hv as [->| ->]; done.
Qed.

Lemma entry_ok_insert quorum h d s s' e :
  h !! d = Some s → rs_addr s' = rs_addr s → rs_len s' = rs_len s →
  subset (rs_holders s) (rs_holders s') → rs_verdict s' = rs_verdict s ∨ rs_verdict s' = 1 →
  entry_ok quorum h e → entry_ok quorum (<[d := s']> h) e.
Proof.
  intros Hs Ha Hl Hsub Hv (s0 & H0 & Hea & Hel & Hes & Hed).
  destruct (decide (pm_dlsn e = d)) as [Heq|Hne].
  - rewrite Heq, Hs in H0. injection H0 as <-. exists s'. rewrite Heq, lookup_insert_eq.
    split_and!; [done|congruence|congruence|by eapply subset_trans|by eapply durable_mono].
  - exists s0. rewrite lookup_insert_ne by congruence. done.
Qed.

(** One slot above the folded frontier changes; its holders only grow. *)
Lemma route_inv_update g r t t' d s s' p' h' :
  route_inv g r t → hist g !! d = Some s → folded_ r < d →
  rs_dlsn s' = rs_dlsn s → rs_addr s' = rs_addr s → rs_len s' = rs_len s →
  subset (rs_holders s) (rs_holders s') → rs_verdict s' = rs_verdict s ∨ rs_verdict s' = 1 →
  st_base t' = st_base t →
  (∀ j, st_slot t' j = if decide (j = d) then Some s' else st_slot t j) →
  (∀ j, st_done t' j = if decide (j = d) then slot_complete (all_mask_ r) s' else st_done t j) →
  (∀ e, e ∈ pending_ r → e ∈ p') →
  (∀ e, e ∈ p' → e ∈ pending_ r ∨ e = Mk_pending_miss d (rs_holders s') (rs_addr s) (rs_len s) ∧
                                   slot_durable (quorum_ r) s' = true) →
  (∀ e, e ∈ p' → h' ≤ pm_dlsn e) →
  (slot_durable (quorum_ r) s' = true → rs_holders s' ≠ all_mask_ r →
   slot_complete (all_mask_ r) s' || negb (rs_verdict s' =? 0) = true →
   ∃ e, e ∈ app g ++ p' ∧ pm_dlsn e = d) →
  route_inv (Mk_ghost (<[d := s']> (hist g)) (app g)) (set_overlay r t' p' h') t'.
Proof.
  intros I Hs Hfd Hdl Ha Hl Hsub Hv Hbase Hslot Hdone Hkeep Hnew Hhint Howed.
  assert (∀ j, j ≠ d → complete_at (all_mask_ r) (<[d := s']> (hist g)) j =
                       complete_at (all_mask_ r) (hist g) j) as Hcne
    by (intros j Hj; unfold complete_at; by rewrite lookup_insert_ne).
  destruct I. split; simpl; try done; rewrite ?Hbase; try done.
  - intros j Hj. rewrite Hslot. destruct (decide (j = d)) as [->|Hne].
    + by rewrite lookup_insert_eq.
    + rewrite lookup_insert_ne by done. auto.
  - intros j Hj. rewrite Hdone. destruct (decide (j = d)) as [->|Hne].
    + unfold complete_at. by rewrite lookup_insert_eq.
    + rewrite Hcne by done. auto.
  - intros j sj. rewrite lookup_insert. case_decide as Hjd; [|apply ri_dom0].
    intros [= <-]. rewrite Hdl, Ha, Hl. rewrite <-Hjd. by apply ri_dom0.
  - intros j Hj. rewrite Hcne by lia. auto.
  - intros e He. apply elem_of_app in He as [He|He].
    + eapply entry_ok_insert; [done..|]. apply ri_entry0, elem_of_app. by left.
    + destruct (Hnew e He) as [Hp|[-> Hdur]].
      * eapply entry_ok_insert; [done..|]. apply ri_entry0, elem_of_app. by right.
      * exists s'. simpl. rewrite lookup_insert_eq. split_and!; try done. apply subset_refl.
  - intros e He. destruct (Hnew e He) as [Hp|[-> _]]; [by apply ri_pending0|done].
  - intros j sj. rewrite lookup_insert. case_decide as Hjd.
    + intros [= <-]. subst j. done.
    + intros Hj Hd Hh Hc. destruct (ri_owed0 j sj Hj Hd Hh Hc) as (e & He & Hed).
      exists e. split; [|done]. apply elem_of_app. apply elem_of_app in He as [|He]; auto.
Qed.

Lemma route_inv_create g r t d addr len :
  route_inv g r t → login_dlsn_ r < d < kNever → hist g !! d = None →
  0 ≤ addr → 0 ≤ len → addr + len < 2 ^ 64 →
  ∃ r' t', route_create r d addr len = Some r' ∧
    route_inv (Mk_ghost (<[d := Mk_route_slot d addr len 0 0 0]> (hist g)) (app g)) r' t'.
Proof.
  intros I Hd Hnone H0 H1 H2. unfold route_create. rewrite (ri_overlay _ _ _ I). simpl.
  do 2 eexists. split; [done|].
  assert (folded_ r < d) as Hfd.
  { destruct (decide (d ≤ folded_ r)); [|lia].
    destruct (complete_lookup (all_mask_ r) (hist g) d) as (s & Hs & _);
      [apply (ri_prefix _ _ _ I); lia|congruence]. }
  pose proof (ri_base _ _ _ I) as Hb. set (s' := Mk_route_slot d addr len 0 0 0).
  assert (slot_complete (all_mask_ r) s' = false) as Hnc.
  { destruct (ri_n _ _ _ I) as (Hn & _ & ->).
    change ((0 =? mask_of (n_ r)) = false). apply Z.eqb_neq. intros Heq. pose proof (mask_bit (n_ r) 0) as Hm.
    rewrite <-Heq, Z.bits_0, bool_decide_eq_true_2 in Hm by lia.
    assert (false = true) by (apply Hm; unfold k_max_members in Hn; lia). done. }
  assert (slot_durable (quorum_ r) s' = false) as Hnd.
  { unfold slot_durable. simpl. destruct (ri_n _ _ _ I) as (_ & -> & _).
    rewrite bool_decide_eq_false_2; [done|]. change (popcount 0) with 0%nat. lia. }
  assert (∀ j, complete_at (all_mask_ r) (<[d := s']> (hist g)) j =
               complete_at (all_mask_ r) (hist g) j) as Hcj.
  { intros j. unfold complete_at. rewrite lookup_insert. case_decide; [|done]. subst.
    by rewrite Hnone, Hnc. }
  assert (∀ e, entry_ok (quorum_ r) (hist g) e → entry_ok (quorum_ r) (<[d := s']> (hist g)) e) as Hent.
  { intros e (s & Hs & ?). exists s. rewrite lookup_insert_ne by congruence. done. }
  destruct I. split; simpl; try done.
  - by rewrite st_create_base.
  - intros j. rewrite st_create_base. intros Hj. rewrite st_create_slot by lia.
    rewrite lookup_insert. destruct (decide (j = d)) as [->|]; [by rewrite decide_True|].
    rewrite decide_False by congruence. auto.
  - intros j. rewrite st_create_base. intros Hj.
    rewrite st_create_done by (lia || (rewrite ri_slot0 by lia; done)).
    unfold s' in Hcj. rewrite Hcj. auto.
  - intros j sj. rewrite lookup_insert. case_decide as Hjd; [|apply ri_dom0].
    intros [= <-]. simpl. split_and!; lia || done.
  - intros j Hj. unfold s' in Hcj. rewrite Hcj. auto.
  - intros e He. apply Hent; auto.
  - intros j sj. rewrite lookup_insert. case_decide; [|apply ri_owed0].
    intros [= <-]. fold s'. by rewrite Hnd.
Qed.

Lemma route_inv_completion g r t d s idx is_acked :
  route_inv g r t → hist g !! d = Some s → (idx < n_ r)%nat →
  holds (rs_completed s) idx = false →
  ∃ r' t', record_completion r d idx is_acked = Some r' ∧
    route_inv (Mk_ghost (<[d := complete_slot s (bit idx) is_acked]> (hist g)) (app g)) r' t'.
Proof.
  intros I Hs Hi Hnot. unfold record_completion. rewrite (ri_overlay _ _ _ I). simpl.
  destruct (ri_n _ _ _ I) as (Hn & Hq & Hmask). unfold k_max_members in Hn.
  assert (slot_complete (all_mask_ r) s = false) as Hinc.
  { unfold slot_complete. apply Z.eqb_neq. intros Heq. unfold holds in Hnot.
    rewrite Heq, Hmask, mask_bit, bool_decide_eq_true_2 in Hnot by lia. done. }
  assert (folded_ r < d) as Hfd.
  { destruct (decide (d ≤ folded_ r)); [|lia]. destruct (ri_dom _ _ _ I d s Hs) as (? & _).
    destruct (complete_lookup (all_mask_ r) (hist g) d) as (s0 & H0 & Hc);
      [apply (ri_prefix _ _ _ I); lia|]. rewrite Hs in H0. injection H0 as <-. congruence. }
  pose proof (ri_base _ _ _ I) as Hb.
  assert (st_slot t d = Some s) as Hsl by (rewrite (ri_slot _ _ _ I); [done|lia]).
  assert (st_done t d = false) as Hdn
    by (rewrite (ri_done _ _ _ I) by lia; unfold complete_at; by rewrite Hs).
  set (fn := on_completion _ _ _ _). set (v := (pending_ r, pending_hint_ r)).
  pose proof (st_update_active t d fn v s Hsl) as Hup.
  pose proof (st_update_base t d fn v) as Hub.
  set (s' := complete_slot s (bit idx) is_acked) in *.
  assert (fn s v = (s', slot_complete (all_mask_ r) s',
            if slot_complete (all_mask_ r) s' && hands_off (quorum_ r) (all_mask_ r) (rs_holders s')
            then push_pending s' (rs_holders s') v else v)) as Hfn.
  { unfold fn, on_completion, slot_complete. fold s'. by destruct (rs_completed s' =? all_mask_ r). }
  rewrite Hfn in Hup. destruct Hup as (Hv & Hslot & Hdone).
  destruct (st_update t d fn v) as [t' [p h]]. cbn [fst snd] in *.
  exists (set_overlay r t' p h), t'. split; [done|].
  destruct (ri_dom _ _ _ I d s Hs) as (_ & Hds & _).
  assert (subset (rs_holders s) (rs_holders s')) as Hsub
    by (unfold s'; simpl; destruct is_acked; [apply subset_lor|apply subset_refl]).
  eapply (route_inv_update g r t t' d s s'); try done; [by left|..].
  - intros j. rewrite Hdone. case_decide; [|done]. subst. by rewrite Hdn, orb_false_r.
  - destruct (_ && _); injection Hv as -> ->; [|done]. intros e He. apply elem_of_app. by left.
  - destruct (_ && _) eqn:Hg; injection Hv as -> ->; [|by left].
    intros e [He|He%list_elem_of_singleton]%elem_of_app; [by left|right]. subst e.
    apply andb_true_iff in Hg as [_ Hho]. unfold hands_off in Hho.
    split; [simpl; by rewrite Hds|]. unfold slot_durable. apply andb_true_iff in Hho as [Hpc _]. by rewrite Hpc.
  - pose proof (ri_hint _ _ _ I) as Hhint. destruct (_ && _); injection Hv as -> ->; [|done]. simpl.
    intros e [He|He%list_elem_of_singleton]%elem_of_app; [specialize (Hhint e He); lia|].
    subst e. simpl. lia.
  - intros Hdur Hne Hor. destruct (negb (rs_verdict s' =? 0)) eqn:Hver.
    + destruct (ri_owed _ _ _ I d s Hs) as (e & He & Hed).
      * unfold slot_durable. simpl in Hver. rewrite Hver. by rewrite orb_true_r.
      * intros Heq. apply Hne. unfold s'. simpl. destruct is_acked; [|done].
        rewrite Heq, Hmask. apply mask_lor_bit; lia.
      * simpl in Hver. rewrite Hver. by rewrite orb_true_r.
      * exists e. split; [|done]. apply elem_of_app. apply elem_of_app in He as [|He]; [by left|right].
        destruct (_ && _); injection Hv as -> _; [|done]. apply elem_of_app. by left.
    + rewrite orb_false_r in Hor. unfold slot_durable in Hdur. rewrite Hver, orb_false_r in Hdur.
      rewrite Hor in Hv. unfold hands_off in Hv. rewrite Hdur in Hv. cbn [andb] in Hv.
      assert ((rs_holders s' =? all_mask_ r) = false) as Hn' by (by apply Z.eqb_neq).
      rewrite Hn' in Hv. simpl in Hv. injection Hv as -> _.
      eexists. split; [apply elem_of_app; right; apply elem_of_app; right; left|]. done.
Qed.

Lemma route_inv_filled g r t d s leader :
  route_inv g r t → hist g !! d = Some s → (leader < n_ r)%nat → folded_ r < d →
  ∃ r' t', note_filled r d leader = Some r' ∧
    route_inv (Mk_ghost (<[d := fill_slot s (bit leader)]> (hist g)) (app g)) r' t'.
Proof.
  intros I Hs Hi Hfd. unfold note_filled. rewrite (ri_overlay _ _ _ I). simpl.
  pose proof (ri_base _ _ _ I) as Hb.
  assert (st_slot t d = Some s) as Hsl by (rewrite (ri_slot _ _ _ I); [done|lia]).
  assert (st_done t d = slot_complete (all_mask_ r) s) as Hdn
    by (rewrite (ri_done _ _ _ I) by lia; unfold complete_at; by rewrite Hs).
  set (fn := on_filled _ _). set (v := (pending_ r, pending_hint_ r)).
  pose proof (st_update_active t d fn v s Hsl) as Hup.
  pose proof (st_update_base t d fn v) as Hub.
  set (s' := fill_slot s (bit leader)) in *.
  assert (fn s v = (s', false, if rs_holders s' =? all_mask_ r then v
                               else push_pending s' (rs_holders s') v)) as Hfn by done.
  rewrite Hfn in Hup. destruct Hup as (Hv & Hslot & Hdone).
  destruct (st_update t d fn v) as [t' [p h]]. cbn [fst snd] in *.
  exists (set_overlay r t' p h), t'. split; [done|].
  destruct (ri_dom _ _ _ I d s Hs) as (_ & Hds & _).
  assert (slot_durable (quorum_ r) s' = true) as Hdur
    by (unfold slot_durable, s'; simpl; apply orb_true_r).
  eapply (route_inv_update g r t t' d s s'); try done.
  - apply subset_lor.
  - by right.
  - intros j. rewrite Hdone. case_decide; [|done]. by subst.
  - destruct (_ =? _); injection Hv as -> ->; [done|]. intros e He. apply elem_of_app. by left.
  - destruct (_ =? _) eqn:Hg; injection Hv as -> ->; [by left|].
    intros e [He|He%list_elem_of_singleton]%elem_of_app; [by left|right]. subst e.
    split; [simpl; by rewrite Hds|done].
  - pose proof (ri_hint _ _ _ I) as Hhint. destruct (_ =? _); injection Hv as -> ->; [done|]. simpl.
    intros e [He|He%list_elem_of_singleton]%elem_of_app; [specialize (Hhint e He); lia|].
    subst e. simpl. lia.
  - intros _ Hne _. assert ((rs_holders s' =? all_mask_ r) = false) as Hn' by (by apply Z.eqb_neq).
    rewrite Hn' in Hv. injection Hv as -> _.
    eexists. split; [apply elem_of_app; right; apply elem_of_app; right; left|]. done.
Qed.

(** *** The fold *)

Definition member_apply (n : nat) (i : nat) (m : M) (e : pending_miss) : M :=
  if decide (i < n)%nat then
    if Z.land (pm_held e) (bit i) =? 0
    then im_set m (pm_addr e) (byte_ivl_end (pm_addr e) (pm_len e)) (pm_dlsn e)
    else im_erase m (pm_addr e) (byte_ivl_end (pm_addr e) (pm_len e))
  else m.

Lemma lookup_apply_misses n l (ms : list M) i m :
  ms !! i = Some m →
  foldl (λ ms e, apply_miss n e ms) ms l !! i = Some (foldl (member_apply n i) m l).
Proof.
  revert ms m. induction l as [|e l IH]; intros ms m Hm; simpl; [done|].
  apply IH. unfold apply_miss. rewrite list_lookup_imap, Hm. done.
Qed.

Lemma length_apply_misses n l (ms : list M) :
  length (foldl (λ ms e, apply_miss n e ms) ms l) = length ms.
Proof.
  revert ms. induction l as [|e l IH]; intros ms; simpl; [done|].
  rewrite IH. unfold apply_miss. apply length_imap.
Qed.

Definition entry_range (e : pending_miss) : Prop :=
  0 ≤ pm_addr e ∧ 0 ≤ pm_len e ∧ pm_addr e + pm_len e < 2 ^ 64.

Lemma miss_ok_apply n app0 (m : M) sync i e :
  (i < n)%nat → entry_range e → (∀ e', e' ∈ app0 → pm_dlsn e' ≤ pm_dlsn e) →
  miss_ok app0 m sync i → miss_ok (app0 ++ [e]) (member_apply n i m e) sync i.
Proof.
  intros Hi (H0 & H1 & H2) Hle Hok e1 x He1 Hh Hx.
  assert (byte_ivl_end (pm_addr e) (pm_len e) = pm_addr e + pm_len e) as Hend
    by (apply wrap_small; unfold in_u; lia).
  unfold member_apply. rewrite decide_True, land_bit, Hend by done.
  assert (e ∈ app0 ++ [e]) as Hlast by (apply elem_of_app; right; left).
  apply elem_of_app in He1 as [He1|He1%list_elem_of_singleton].
  - destruct (Hok e1 x He1 Hh Hx) as [(v & Hv & Hev)|[(e' & He' & Hl' & Hh' & Hc')|Hs]].
    + specialize (Hle e1 He1). destruct (holds (pm_held e) i) eqn:Hhe; simpl.
      * rewrite im_at_erase. case_decide; [|left; eauto]. right. left. exists e.
        split_and!; done.
      * left. rewrite im_at_set. case_decide; eauto.
    + right. left. exists e'. split_and!; try done. apply elem_of_app. by left.
    + by do 2 right.
  - subst e1. rewrite Hh. simpl. left. rewrite im_at_set, decide_True by done.
    exists (pm_dlsn e). split; [done|lia].
Qed.

Lemma miss_ok_fold n l app0 (m : M) sync i :
  (i < n)%nat → Forall entry_range l → StronglySorted (λ x y, pm_dlsn x ≤ pm_dlsn y) l →
  (∀ e e', e' ∈ app0 → e ∈ l → pm_dlsn e' ≤ pm_dlsn e) →
  miss_ok app0 m sync i → miss_ok (app0 ++ l) (foldl (member_apply n i) m l) sync i.
Proof.
  intros Hi Hr Hs. revert app0 m Hr. induction Hs as [|e l _ IH Hall]; intros app0 m Hr Hle Hok.
  { by rewrite app_nil_r. }
  inversion Hr as [|? ? He Hr']; subst. simpl.
  replace (app0 ++ e :: l) with ((app0 ++ [e]) ++ l) by by rewrite <-(assoc_L (++)).
  apply IH; [done| |].
  - intros e1 e' [He'|He'%list_elem_of_singleton]%elem_of_app He1.
    + apply Hle; [done|by right].
    + subst. rewrite Forall_forall in Hall. auto.
  - apply miss_ok_apply; try done. intros e' He'. apply Hle; [done|left].
Qed.

Lemma min_hint_le l h e :
  e ∈ l → foldl (λ h e, Z.min h (pm_dlsn e)) h l ≤ pm_dlsn e.
Proof.
  revert h. induction l as [|e0 l IH]; intros h He; [by apply not_elem_of_nil in He|]. simpl.
  apply elem_of_cons in He as [->|He]; [|by apply IH].
  clear IH. assert (Z.min h (pm_dlsn e0) ≤ pm_dlsn e0) as H by lia. revert H.
  generalize (Z.min h (pm_dlsn e0)). intros h'. revert h'.
  induction l as [|e1 l IH]; intros h' H; simpl; [done|]. apply IH. lia.
Qed.

Lemma entry_ok_range g r t e : route_inv g r t → entry_ok (quorum_ r) (hist g) e → entry_range e.
Proof.
  intros I (s & Hs & Ha & Hl & _). destruct (ri_dom _ _ _ I _ s Hs) as (_ & _ & ? & ? & ?).
  unfold entry_range. rewrite Ha, Hl. done.
Qed.

(** Moving the frontier to [target] over a complete prefix, with [l] applied and [p] kept. *)
Lemma route_inv_set_fold g r t target l p h :
  route_inv g r t → folded_ r < target →
  (∀ d, folded_ r < d ≤ target → complete_at (all_mask_ r) (hist g) d = true) →
  (∀ e, e ∈ pending_ r ↔ e ∈ l ∨ e ∈ p) →
  StronglySorted (λ x y, pm_dlsn x ≤ pm_dlsn y) l →
  (∀ e, e ∈ l → pm_dlsn e ≤ target) → (∀ e, e ∈ p → target < pm_dlsn e ∧ h ≤ pm_dlsn e) →
  ∃ t', route_inv (Mk_ghost (hist g) (app g ++ l))
          (set_fold r t (foldl (λ ms e, apply_miss (n_ r) e ms) (miss_ r) l) p h target) t'.
Proof.
  intros I Ht Hrun Hsplit Hsort Hl Hp. unfold set_fold.
  destruct (maybe_truncate t (route_trunc_ r) target) as [t' lt] eqn:Htr. exists t'.
  assert (st_base t ≤ st_base t' ≤ Z.max (st_base t) (target + 1) ∧
          (∀ j, st_base t' ≤ j → st_slot t' j = st_slot t j ∧ st_done t' j = st_done t j))
    as [Hbase Hwin].
  { unfold maybe_truncate in Htr. destruct (_ <=? _); injection Htr as <- _; [|split; [lia|done]].
    split; [apply st_truncate_base|]. intros j Hj.
    by rewrite st_truncate_slot, st_truncate_done. }
  assert (advance_folded r target = target) as Hadv by (unfold advance_folded; lia).
  assert (∀ e, e ∈ (app g ++ l) ++ p ↔ e ∈ app g ++ pending_ r) as Hmem.
  { intros e. rewrite !elem_of_app, Hsplit. tauto. }
  pose proof I as []. split; simpl; rewrite ?Hadv; try done; try lia.
  - rewrite length_apply_misses. done.
  - intros j Hj. destruct (Hwin j Hj) as [-> _]. apply ri_slot0. lia.
  - intros j Hj. destruct (Hwin j Hj) as [_ ->]. apply ri_done0. lia.
  - intros j Hj. destruct (decide (j ≤ folded_ r)); [apply ri_prefix0|apply Hrun]; lia.
  - intros e He%Hmem. auto.
  - intros e [He|He]%elem_of_app; [specialize (ri_app0 e He); lia|auto].
  - intros e He. by apply Hp.
  - intros e He. by apply Hp.
  - intros d s Hs Hd Hne Hc. destruct (ri_owed0 d s Hs Hd Hne Hc) as (e & He%Hmem & ?).
    by exists e.
  - intros i m Hi Hm.
    destruct (lookup_lt_is_Some_2 (miss_ r) i) as [m0 Hm0]; [destruct ri_arrays0 as [-> _]; lia|].
    rewrite (lookup_apply_misses _ _ _ i m0 Hm0) in Hm. injection Hm as <-.
    apply miss_ok_fold; try done.
    + apply Forall_forall. intros e He. eapply entry_ok_range; [done|].
      apply ri_entry0, elem_of_app. right. apply Hsplit. by left.
    + intros e e' He' He. specialize (ri_app0 e' He').
      assert (e ∈ pending_ r) as Hep by (apply Hsplit; by left).
      specialize (ri_pending0 e Hep). lia.
    + by apply ri_miss0.
Qed.

Lemma route_inv_fold g r t F :
  route_inv g r t →
  ∃ r' t' l, fold_to r F = Some r' ∧ route_inv (Mk_ghost (hist g) (app g ++ l)) r' t' ∧
    folded_ r ≤ folded_ r' ≤ Z.max (folded_ r) F.
Proof.
  intros I. unfold fold_to. rewrite (ri_overlay _ _ _ I). simpl.
  assert (∃ r' t' l, Some r = Some r' ∧ route_inv (Mk_ghost (hist g) (app g ++ l)) r' t' ∧
    folded_ r ≤ folded_ r' ≤ Z.max (folded_ r) F) as Hid.
  { exists r, t, []. rewrite app_nil_r. destruct g. split_and!; done || lia. }
  destruct (F <=? folded_ r) eqn:HF; [exact Hid|].
  set (target := Z.min F (st_completed_upto t (folded_ r + 1))).
  destruct (target <=? folded_ r) eqn:Ht; [exact Hid|].
  assert (∀ d, folded_ r < d ≤ target → complete_at (all_mask_ r) (hist g) d = true) as Hrun.
  { intros d Hd. pose proof (ri_base _ _ _ I). destruct (st_upto_run t (folded_ r + 1) d); [lia|lia|].
    by rewrite <-(ri_done _ _ _ I) by lia. }
  assert (∀ ms p h, folded_ (set_fold r t ms p h target) = target) as Hfo.
  { intros. unfold set_fold, advance_folded. destruct (maybe_truncate _ _ _). simpl. lia. }
  destruct (target <? pending_hint_ r) eqn:Hh.
  - destruct (route_inv_set_fold g r t target [] (pending_ r) (pending_hint_ r) I) as [t' I'];
      [lia|done| |constructor| | |].
    + intros e. rewrite elem_of_nil. tauto.
    + intros e He. by apply not_elem_of_nil in He.
    + intros e He. pose proof (ri_hint _ _ _ I e He). lia.
    + do 3 eexists. split; [done|]. split; [exact I'|]. rewrite Hfo. lia.
  - set (batch := filter _ _). set (keep := filter (λ e, ¬ _) _).
    destruct (route_inv_set_fold g r t target (sort_misses batch) keep
                (foldl (λ h e, Z.min h (pm_dlsn e)) kNever keep) I) as [t' I'];
      [lia|done| |apply sort_sorted| | |].
    + intros e. rewrite sort_perm. unfold batch, keep. rewrite !list_elem_of_filter.
      destruct (decide (pm_dlsn e ≤ target)); tauto.
    + intros e. rewrite sort_perm. unfold batch. rewrite list_elem_of_filter. tauto.
    + intros e He. split; [|by apply min_hint_le]. unfold keep in He.
      apply list_elem_of_filter in He as [? _]. lia.
    + do 3 eexists. split; [done|]. split; [exact I'|]. rewrite Hfo. lia.
Qed.

(** *** Recovery *)

Lemma im_at_erase_all (l : list (Z * Z * Z)) (m : M) x :
  im_at (foldl (λ m '(lo, hi, _), im_erase m lo hi) m l) x =
    if existsb (λ '(lo, hi, _), (lo <=? x) && (x <? hi)) l then None else im_at m x.
Proof.
  revert m. induction l as [|[[lo hi] v] l IH]; intros m; simpl; [done|].
  rewrite IH, im_at_erase. destruct (existsb _ l); [by rewrite orb_true_r|]. rewrite orb_false_r.
  destruct (decide (lo ≤ x < hi)), (_ && _) eqn:Hb; try done;
    rewrite ?andb_true_iff, ?andb_false_iff, ?Z.leb_le, ?Z.ltb_lt, ?Z.leb_gt, ?Z.ltb_ge in Hb; lia.
Qed.

Lemma miss_ok_drop app0 (m : M) sync C i :
  sync ≤ C → miss_ok app0 m sync i → miss_ok app0 (drop_upto C m) C i.
Proof.
  intros HC Hok e x He Hh Hx.
  destruct (Hok e x He Hh Hx) as [(v & Hv & Hev)|[?|Hs]]; [|by right; left|right; right; lia].
  destruct (decide (v ≤ C)); [right; right; lia|]. left. exists v. split; [|done].
  unfold drop_upto. rewrite im_at_erase_all. destruct (existsb _ _) eqn:Hex; [|done]. exfalso.
  apply existsb_exists in Hex as ([[lo hi] w] & Hin%list_elem_of_In & Hc).
  apply list_elem_of_filter in Hin as [Hw Hin]. simpl in Hw.
  rewrite andb_true_iff, Z.leb_le, Z.ltb_lt in Hc.
  rewrite (im_segments_sound m lo hi w x Hin Hc) in Hv. injection Hv as ->. lia.
Qed.

Lemma route_inv_synced g r t idx C :
  route_inv g r t → (idx < n_ r)%nat → route_inv g (advance_synced r idx C) t.
Proof.
  intros I Hi. unfold advance_synced. destruct (C <=? synced_at r idx) eqn:HC; [done|].
  pose proof I as []. split; simpl; try done.
  - by rewrite length_alter, length_insert.
  - intros i m Hin Hm. unfold synced_at. simpl. destruct (decide (i = idx)) as [->|Hne].
    + rewrite list_lookup_alter_eq in Hm. apply fmap_Some in Hm as (m0 & Hm0 & ->).
      rewrite list_lookup_insert_eq by (destruct ri_arrays0, ri_n0; lia). simpl.
      eapply miss_ok_drop; [|by apply ri_miss0]. lia.
    + rewrite list_lookup_alter_ne in Hm by done. rewrite list_lookup_insert_ne by done.
      by apply ri_miss0.
Qed.

(** ** Reachable maps *)

(** The steps a client takes: it creates a slot for a fresh dLSN, records each member's
    completion once, notes a round's fill while the slot is above the frontier, folds,
    records commit reports, and runs the collapse flags.  [h] is the history of slots. *)
Inductive route_reach (n : nat) (L : Z) : gmap Z route_slot → read_route_map T M → Prop :=
| reach_reset :
    route_reach n L ∅ (route_reset route_init n L)
| reach_create h r r' d addr len :
    route_reach n L h r → L < d < kNever → h !! d = None →
    0 ≤ addr → 0 ≤ len → addr + len < 2 ^ 64 →
    route_create r d addr len = Some r' →
    route_reach n L (<[d := Mk_route_slot d addr len 0 0 0]> h) r'
| reach_complete h r r' d s idx is_acked :
    route_reach n L h r → h !! d = Some s → (idx < n)%nat → holds (rs_completed s) idx = false →
    record_completion r d idx is_acked = Some r' →
    route_reach n L (<[d := complete_slot s (bit idx) is_acked]> h) r'
| reach_filled h r r' d s leader :
    route_reach n L h r → h !! d = Some s → (leader < n)%nat → folded r < d →
    note_filled r d leader = Some r' →
    route_reach n L (<[d := fill_slot s (bit leader)]> h) r'
| reach_fold h r r' F :
    route_reach n L h r → fold_to r F = Some r' → route_reach n L h r'
| reach_synced h r idx C :
    route_reach n L h r → (idx < n)%nat → route_reach n L h (advance_synced r idx C)
| reach_flags h r ka rr :
    route_reach n L h r → route_reach n L h (set_flags r ka rr).

Lemma fold_params r r' F : fold_to r F = Some r' → n_ r' = n_ r ∧ login_dlsn_ r' = login_dlsn_ r.
Proof.
  unfold fold_to, set_fold. intros H. simplify_option_eq. repeat case_match; by simplify_eq.
Qed.

Lemma reach_inv n L h r :
  (1 ≤ n ≤ k_max_members)%nat → route_reach n L h r →
  n_ r = n ∧ login_dlsn_ r = L ∧ ∃ app0 t, route_inv (Mk_ghost h app0) r t.
Proof.
  intros Hn. induction 1 as [|h r r' d addr len _ IH Hd Hnone H0 H1 H2 Hc
    |h r r' d s idx ak _ IH Hs Hi Hnot Hc|h r r' d s ld _ IH Hs Hi Hf Hc
    |h r r' F _ IH Hc|h r idx C _ IH Hi|h r ka rr _ IH].
  - split_and!; [done..|]. exists [], (st_new L). by apply route_inv_reset.
  - destruct IH as (Hrn & HrL & app0 & t & I). rewrite <-HrL in Hd.
    destruct (route_inv_create _ r t d addr len I Hd Hnone H0 H1 H2) as (r1 & t1 & Hc1 & I1).
    rewrite Hc1 in Hc. injection Hc as <-. unfold route_create in Hc1.
    simplify_option_eq. eauto.
  - destruct IH as (Hrn & HrL & app0 & t & I). rewrite <-Hrn in Hi.
    destruct (route_inv_completion _ r t d s idx ak I Hs Hi Hnot) as (r1 & t1 & Hc1 & I1).
    rewrite Hc1 in Hc. injection Hc as <-. unfold record_completion in Hc1.
    simplify_option_eq. repeat case_match; simplify_eq; eauto.
  - destruct IH as (Hrn & HrL & app0 & t & I). rewrite <-Hrn in Hi.
    destruct (route_inv_filled _ r t d s ld I Hs Hi Hf) as (r1 & t1 & Hc1 & I1).
    rewrite Hc1 in Hc. injection Hc as <-. unfold note_filled in Hc1.
    simplify_option_eq. repeat case_match; simplify_eq; eauto.
  - destruct IH as (Hrn & HrL & app0 & t & I).
    destruct (fold_params r r' F Hc) as [-> ->].
    destruct (route_inv_fold _ r t F I) as (r1 & t1 & l & Hc1 & I1 & _).
    rewrite Hc1 in Hc. injection Hc as <-. eauto.
  - destruct IH as (Hrn & HrL & app0 & t & I).
    assert (n_ (advance_synced r idx C) = n_ r ∧ login_dlsn_ (advance_synced r idx C) = login_dlsn_ r)
      as [-> ->] by (unfold advance_synced; by case_match).
    split_and!; [done..|]. exists app0, t. apply route_inv_synced; [done|lia].
  - destruct IH as (Hrn & HrL & app0 & t & I). split_and!; [done..|].
    exists app0, t. destruct I. by split.
Qed.
(** ** Runs of the map *)

(** One checked step of a run, the history included. *)
Definition route_exec1 (n : nat) (L : Z) (hr : gmap Z route_slot * read_route_map T M) (o : route_op) :
    option (gmap Z route_slot * read_route_map T M) :=
  let '(h, r) := hr in
  match o with
  | ro_create d addr len =>
      if decide (L < d < kNever ∧ h !! d = None ∧ 0 ≤ addr ∧ 0 ≤ len ∧ addr + len < 2 ^ 64) then
        r' ← route_create r d addr len; Some (<[d := Mk_route_slot d addr len 0 0 0]> h, r')
      else None
  | ro_complete d idx ak =>
      s ← h !! d;
      if decide ((idx < n)%nat ∧ holds (rs_completed s) idx = false) then
        r' ← record_completion r d idx ak; Some (<[d := complete_slot s (bit idx) ak]> h, r')
      else None
  | ro_filled d leader =>
      s ← h !! d;
      if decide ((leader < n)%nat ∧ folded r < d) then
        r' ← note_filled r d leader; Some (<[d := fill_slot s (bit leader)]> h, r')
      else None
  | ro_fold F => r' ← fold_to r F; Some (h, r')
  | ro_synced idx C => if decide (idx < n)%nat then Some (h, advance_synced r idx C) else None
  | ro_flags ka rr => Some (h, set_flags r ka rr)
  end.

Fixpoint route_exec (n : nat) (L : Z) (hr : gmap Z route_slot * read_route_map T M)
    (ops : list route_op) : option (gmap Z route_slot * read_route_map T M) :=
  match ops with [] => Some hr | o :: ops => hr ← route_exec1 n L hr o; route_exec n L hr ops end.

Lemma route_exec_reach n L h r ops h' r' :
  route_reach n L h r → route_exec n L (h, r) ops = Some (h', r') → route_reach n L h' r'.
Proof.
  revert h r. induction ops as [|o ops IH]; intros h r Hr; cbn [route_exec]; [by intros [= <- <-]|].
  destruct (route_exec1 n L (h, r) o) as [[h1 r1]|] eqn:Ho; [|done]. simpl. apply IH.
  unfold route_exec1 in Ho. destruct o; simplify_option_eq; destruct_and?.
  - by eapply reach_create.
  - by eapply reach_complete.
  - by eapply reach_filled.
  - by eapply reach_fold.
  - by apply reach_synced.
  - by apply reach_flags.
Qed.

(** What a run leaves of a map: the frontier and the commit reports only move up, and a slot
    the frontier has passed is never touched again. *)
Definition route_later (h1 : gmap Z route_slot) r1 (h2 : gmap Z route_slot) r2 : Prop :=
  folded_ r1 ≤ folded_ r2 ∧ (∀ i, synced_at r1 i ≤ synced_at r2 i) ∧
  ∀ d, login_dlsn_ r1 < d ≤ folded_ r1 → h2 !! d = h1 !! d.

Lemma synced_at_le r idx C i : synced_at r i ≤ synced_at (advance_synced r idx C) i.
Proof.
  unfold advance_synced. destruct (C <=? synced_at r idx) eqn:HC; [lia|]. unfold synced_at in *. simpl.
  destruct (decide (i = idx)) as [->|]; [|by rewrite list_lookup_insert_ne].
  destruct (decide (idx < length (synced_ r))%nat) as [Hl|Hl].
  - rewrite list_lookup_insert_eq by done. simpl. lia.
  - by rewrite list_insert_ge by lia.
Qed.

Lemma complete_holds n (h : gmap Z route_slot) d s i :
  (n ≤ k_max_members)%nat → complete_at (mask_of n) h d = true → h !! d = Some s → (i < n)%nat →
  holds (rs_completed s) i = true.
Proof.
  intros Hn (s0 & Hs0 & Hc)%complete_lookup Hs Hi. rewrite Hs in Hs0. injection Hs0 as <-.
  unfold slot_complete in Hc. apply Z.eqb_eq in Hc. unfold holds.
  rewrite Hc, mask_bit by (unfold k_max_members in *; lia). by apply bool_decide_eq_true_2.
Qed.

Lemma route_exec1_later n L h r o h' r' :
  (1 ≤ n ≤ k_max_members)%nat → route_reach n L h r → route_exec1 n L (h, r) o = Some (h', r') →
  route_later h r h' r'.
Proof.
  intros Hn Hr Ho. destruct (reach_inv n L h r Hn Hr) as (Hrn & HrL & app0 & t & I).
  destruct (ri_n _ _ _ I) as (_ & _ & Hmask). rewrite Hrn in Hmask.
  pose proof (ri_prefix _ _ _ I) as Hpre. simpl in Hpre. rewrite Hmask in Hpre.
  unfold route_exec1 in Ho. destruct o as [d addr len|d idx ak|d ld|F|idx C|ka rr]; simplify_option_eq.
  - unfold route_create in *. simplify_option_eq. split_and!; [done..|]. intros d' Hd'. apply lookup_insert_ne.
    intros ->. destruct (complete_lookup _ _ _ (Hpre _ Hd')) as (s & Hs & _). naive_solver.
  - unfold record_completion in *. simplify_option_eq. repeat case_match; simplify_eq. split_and!; [done..|].
    intros d' Hd'. apply lookup_insert_ne. intros ->.
    match goal with Hs : h !! d' = Some ?s |- _ =>
      pose proof (complete_holds _ h _ s idx ltac:(apply Hn) (Hpre _ Hd') Hs) end. intuition congruence.
  - unfold note_filled, folded in *. simplify_option_eq. repeat case_match; simplify_eq. split_and!; [done..|].
    intros d' Hd'. apply lookup_insert_ne. lia.
  - destruct (route_inv_fold _ r t F I) as (r1 & t1 & l & Hc1 & _ & Hle). rewrite Hc1 in *. simplify_eq.
    split_and!; [lia| |done]. intros i. unfold fold_to, set_fold in Hc1. simplify_option_eq. repeat case_match; by simplify_eq.
  - split_and!; [|apply synced_at_le|done]. unfold advance_synced. by case_match.
  - by split_and!.
Qed.

Lemma route_exec_later n L ops h r h' r' :
  (1 ≤ n ≤ k_max_members)%nat → route_reach n L h r → route_exec n L (h, r) ops = Some (h', r') →
  route_later h r h' r'.
Proof.
  intros Hn. revert h r. induction ops as [|o ops IH]; intros h r Hr; cbn [route_exec].
  { intros [= <- <-]. by split_and!. }
  destruct (route_exec1 n L (h, r) o) as [[h1 r1]|] eqn:Ho; [|done]. simpl. intros Hx.
  assert (route_reach n L h1 r1) as Hr1.
  { apply (route_exec_reach n L h r [o] h1 r1 Hr). cbn [route_exec]. by rewrite Ho. }
  destruct (route_exec1_later n L h r o h1 r1 Hn Hr Ho) as (A1 & A2 & A3), (IH h1 r1 Hr1 Hx) as (B1 & B2 & B3).
  destruct (reach_inv n L h r Hn Hr) as (_ & HL & _), (reach_inv n L h1 r1 Hn Hr1) as (_ & HL1 & _).
  split_and!; [lia|intros i; etrans; [apply A2|apply B2]|]. intros d Hd. rewrite B3 by lia. by apply A3.
Qed.

Lemma served_later h1 r1 h2 r2 i d s x :
  route_later h1 r1 h2 r2 → quorum_ r2 = quorum_ r1 → login_dlsn_ r1 < d → served h1 r1 i d s x → served h2 r2 i d s x.
Proof.
  intros (Hf & Hs & Hh) Hq Hd [?|[(d' & s' & Hd' & Hs' & ?)|?]]; [by left| |right; right; specialize (Hs i); lia].
  right; left. exists d', s'. rewrite Hh, Hq by lia. split_and!; naive_solver lia.
Qed.
End invariant.

(** ** The contract *)

Lemma fold_min_le {A} (f : A → Z) l z : foldl (λ a x, Z.min a (f x)) z l ≤ z.
Proof.
  revert z. induction l as [|x l IH]; intros z; simpl; [lia|]. specialize (IH (Z.min z (f x))). lia.
Qed.

Lemma fold_min_spec {A} (f : A → Z) l z :
  let m := foldl (λ a x, Z.min a (f x)) z l in
  (∀ x, x ∈ l → m ≤ f x) ∧ (m = z ∨ ∃ x, x ∈ l ∧ m = f x).
Proof.
  revert z. induction l as [|y l IH]; intros z; simpl.
  { split; [|by left]. intros x Hx. by apply not_elem_of_nil in Hx. }
  destruct (IH (Z.min z (f y))) as [H1 H2].
  pose proof (fold_min_le f l (Z.min z (f y))) as H3. split.
  - intros x [->|Hx]%elem_of_cons; [lia|auto].
  - destruct H2 as [H2|(x & Hx & H2)]; [|right; exists x; split; [by right|done]].
    destruct (decide (z ≤ f y)); [left; lia|right; exists y; split; [left|lia]].
Qed.

Section contract.
Context {T M : Type} `{ST : !StreamTracker route_slot T} `{IM : !IntervalMap M} `{MS : !MissSort}.
Implicit Types (r : read_route_map T M).

(** C5: routing is sound.  [eligible] reads the member's interval map first and the frontier
    and the overlay later, and any operations of the client may run in between.  If it
    accepts a member for a read at horizon [Hmax], then the member has reported the login
    watermark, and for every durable write at or below [Hmax] and every byte of the read it
    covers, the member holds the write, or holds a later durable write of that byte, or has
    reported a commit at or above it; excepted are the writes a fold moved across the
    frontier between the two readings, for which [eligible_race] shows it is false. *)
Theorem eligible_sound n L h1 r1 ops h2 r2 i addr len Hmax :
  (1 ≤ n ≤ k_max_members)%nat → route_reach n L h1 r1 → route_exec n L (h1, r1) ops = Some (h2, r2) → (i < n)%nat →
  0 ≤ addr → 0 ≤ len → addr + len < 2 ^ 64 →
  eligible_between r1 r2 i addr len Hmax = Some true →
  L ≤ synced_at r2 i ∧
  ∀ d s x, d ≤ Hmax → ¬ folded r1 < d ≤ folded r2 → h2 !! d = Some s → slot_durable (n / 2 + 1) s = true →
    rcovers (rs_addr s) (rs_len s) x → rcovers addr len x → served h2 r2 i d s x.
Proof.
  intros Hn Hr Hx Hi H0 H1 H2 He. pose proof (route_exec_later n L ops h1 r1 h2 r2 Hn Hr Hx) as HL.
  destruct (reach_inv n L h1 r1 Hn Hr) as (Hn1 & HL1 & app1 & t1 & I1).
  destruct (reach_inv n L h2 r2 Hn (route_exec_reach n L h1 r1 ops h2 r2 Hr Hx)) as (Hn2 & HL2 & app2 & t2 & I2).
  destruct (ri_n _ _ _ I1) as (_ & Hq1 & _), (ri_n _ _ _ I2) as (_ & Hq2 & _). rewrite Hn1 in Hq1. rewrite Hn2 in Hq2.
  unfold eligible_between in He. destruct (eligible_map r1 i addr len) eqn:Hm; [|done].
  destruct (eligible_map_sound _ r1 t1 i addr len I1) as [Hs Hlo]; [lia|done..|]. simpl in Hlo.
  pose proof HL as (Hf & Hsy & Hh). split; [specialize (Hsy i); lia|].
  intros d s x Hd Hout Hsd Hdur Hcx Hrx. unfold folded in Hout. pose proof (ri_dom _ _ _ I2 d s Hsd) as (Hdl & _). simpl in Hsd.
  destruct (decide (d ≤ folded_ r1)).
  - apply (served_later h1 r1); [done|congruence|lia|]. apply Hlo; try done; [|congruence]. by rewrite <-Hh by lia.
  - left. eapply (eligible_overlay_sound _ r2 t2 i addr len Hmax d s x I2); try done; [lia|congruence].
Qed.

Definition floor_ok (n : nat) r : Prop :=
  (∀ i, (i < n)%nat → all_committed r ≤ synced_at r i) ∧
  (∃ i, (i < n)%nat ∧ all_committed r = synced_at r i).

Lemma floor_ok_frame n r r' :
  synced_ r' = synced_ r → all_committed_ r' = all_committed_ r → floor_ok n r → floor_ok n r'.
Proof. unfold floor_ok, all_committed, synced_at. by intros -> ->. Qed.

Lemma synced_at_advance r i C j :
  (i < length (synced_ r))%nat →
  synced_at (advance_synced r i C) j =
    if decide (j = i) then Z.max (synced_at r i) C else synced_at r j.
Proof.
  intros Hi. unfold advance_synced. destruct (C <=? synced_at r i) eqn:HC.
  { case_decide; [subst; lia|done]. }
  unfold synced_at at 1. simpl. case_decide; [subst|by rewrite list_lookup_insert_ne].
  rewrite list_lookup_insert_eq by done. simpl. lia.
Qed.

Lemma floor_advance r i C n :
  n_ r = n → (1 ≤ n)%nat → (i < length (synced_ r))%nat → floor_ok n r →
  floor_ok n (advance_synced r i C) ∧ all_committed r ≤ all_committed (advance_synced r i C).
Proof.
  intros Hn H1 Hi [Hle [k [Hk Heq]]].
  destruct (C <=? synced_at r i) eqn:HC.
  { unfold advance_synced. rewrite HC. split; [split; [done|by exists k]|lia]. }
  assert (∀ j, synced_at (advance_synced r i C) j =
               default k_unsynced (<[i := C]> (synced_ r) !! j)) as Hsy
    by (intros j; unfold advance_synced; by rewrite HC).
  set (f := λ j, default k_unsynced (<[i := C]> (synced_ r) !! j)).
  assert (all_committed (advance_synced r i C) = foldl (λ a j, Z.min a (f j)) (f 0%nat) (seq 1 (n - 1)))
    as Hac by (unfold all_committed, advance_synced; rewrite HC, Hn; done).
  destruct (fold_min_spec f (seq 1 (n - 1)) (f 0%nat)) as [Hall Hex].
  pose proof (fold_min_le f (seq 1 (n - 1)) (f 0%nat)) as Hz. rewrite <-Hac in *.
  assert (floor_ok n (advance_synced r i C)) as Hok.
  { split.
    - intros j Hj. rewrite Hsy. fold (f j). destruct (decide (j = 0%nat)) as [->|]; [done|].
      apply Hall, elem_of_seq. lia.
    - destruct Hex as [Hex|(j & Hj%elem_of_seq & Hex)]; [exists 0%nat|exists j];
        rewrite Hsy; (split; [lia|done]). }
  split; [done|]. destruct Hok as [_ (j & Hj & ->)]. specialize (Hle j Hj).
  rewrite synced_at_advance by done. case_decide; [subst; lia|done].
Qed.

Lemma reach_floor n L h r :
  (1 ≤ n ≤ k_max_members)%nat → route_reach n L h r → floor_ok n r.
Proof.
  intros Hn. induction 1 as [|h r r' d addr len _ IH _ _ _ _ _ Hc|h r r' d s idx ak _ IH _ _ _ Hc
    |h r r' d s ld _ IH _ _ _ Hc|h r r' F _ IH Hc|h r idx C Hr IH Hi|h r ka rr _ IH].
  - assert (∀ i, (i < n)%nat → synced_at (route_reset route_init n L : read_route_map T M) i = -1) as H.
    { intros i Hi. unfold synced_at. simpl. unfold fill.
      rewrite lookup_app_l by (rewrite length_replicate; simpl; unfold k_max_members in *; lia).
      rewrite lookup_replicate_2; [done|]. simpl. unfold k_max_members in *. lia. }
    split; [intros i Hi; by rewrite H|]. exists 0%nat. split; [lia|]. by rewrite H by lia.
  - unfold route_create in Hc. simplify_option_eq. by eapply floor_ok_frame; [..|exact IH].
  - unfold record_completion in Hc. simplify_option_eq. repeat case_match; simplify_eq.
    by eapply floor_ok_frame; [..|exact IH].
  - unfold note_filled in Hc. simplify_option_eq. repeat case_match; simplify_eq.
    by eapply floor_ok_frame; [..|exact IH].
  - unfold fold_to, set_fold in Hc. simplify_option_eq.
    repeat case_match; simplify_eq; try done; by eapply floor_ok_frame; [..|exact IH].
  - destruct (reach_inv n L h r Hn Hr) as (Hrn & _ & app0 & t & I).
    apply floor_advance; try done; [lia|]. destruct (ri_arrays _ _ _ I). lia.
  - by eapply floor_ok_frame; [..|exact IH].
Qed.

(** The reclaim floor is the minimum of the members' reported commits, so a member
    that has not reported pins it; a report moves the floor and the member's watermark
    only up. *)
Theorem reclaim_floor n L h r :
  (1 ≤ n ≤ k_max_members)%nat → route_reach n L h r →
  (∀ i, (i < n)%nat → all_committed r ≤ synced_at r i) ∧
  (∃ i, (i < n)%nat ∧ all_committed r = synced_at r i) ∧
  ∀ i C, (i < n)%nat →
    synced_at (advance_synced r i C) i = Z.max (synced_at r i) C ∧
    all_committed r ≤ all_committed (advance_synced r i C).
Proof.
  intros Hn Hr. pose proof (reach_floor n L h r Hn Hr) as Hf. pose proof Hf as [H1 H2].
  split_and!; [done..|]. intros i C Hi.
  destruct (reach_inv n L h r Hn Hr) as (Hrn & _ & app0 & t & I).
  assert (i < length (synced_ r))%nat as Hlen by (destruct (ri_arrays _ _ _ I); lia).
  split; [by rewrite synced_at_advance, decide_True|].
  apply (floor_advance r i C n); try done. lia.
Qed.

End contract.

(** ** Maps evaluated *)

#[global] Instance by_dlsn_dec x y : Decision (pm_dlsn x ≤ pm_dlsn y) := Z.le_dec _ _.

#[local] Program Instance stable_sort : MissSort :=
  {| sort_misses := merge_sort (λ x y, pm_dlsn x ≤ pm_dlsn y) |}.
Next Obligation. intros l. apply merge_sort_Permutation. Qed.
Next Obligation.
  intros l. apply Sorted_StronglySorted; [intros x y z; lia|].
  apply Sorted_merge_sort. intros x y. lia.
Qed.

Section exec.
Let T := MapTracker.t route_slot.
Let M := PointMap.t.

Definition route_start (n : nat) (L : Z) : gmap Z route_slot * read_route_map T M :=
  (∅, route_reset route_init n L).
Definition route_after (n : nat) (L : Z) (ops : list route_op) :
    gmap Z route_slot * read_route_map T M :=
  default (route_start n L) (route_exec n L (route_start n L) ops).

Lemma route_after_reach n L ops : route_reach n L (route_after n L ops).1 (route_after n L ops).2.
Proof.
  unfold route_after. destruct (route_exec n L (route_start n L) ops) as [[h r]|] eqn:He; simpl.
  - eapply route_exec_reach; [|exact He]. constructor.
  - constructor.
Qed.

(** Three members; dLSN 0 writes bytes 0..4 and member 2 misses it. *)
Definition missed_ops : list route_op :=
  [ro_create 0 0 4; ro_complete 0 0 true; ro_complete 0 2 false; ro_complete 0 1 true].

Lemma eligible_sound_witness :
  let '(h1, r1) := route_after 3 (-1) (missed_ops ++ [ro_fold 0]) in
  let '(_, r2) := default (h1, r1) (route_exec 3 (-1) (h1, r1) [ro_create 1 0 4; ro_complete 1 1 true; ro_synced 1 0]) in
  eligible_between r1 r2 1 0 4 0 = Some true ∧ -1 ≤ synced_at r2 1.
Proof.
  destruct (route_after 3 (-1) (missed_ops ++ [ro_fold 0])) as [h1 r1] eqn:H1.
  destruct (route_exec 3 (-1) (h1, r1) _) as [[h2 r2]|] eqn:H2.
  - assert (eligible_between r1 r2 1 0 4 0 = Some true) as He.
    { rewrite <-H1 in H2. vm_compute in H1. injection H1 as <- <-. vm_compute in H2. injection H2 as <- <-. vm_compute. reflexivity. }
    simpl. split; [exact He|].
    apply (eligible_sound 3 (-1) h1 r1 [ro_create 1 0 4; ro_complete 1 1 true; ro_synced 1 0] h2 r2 1 0 4 0); [unfold k_max_members; lia| |exact H2|lia|lia|lia|done|exact He].
    pose proof (route_after_reach 3 (-1) (missed_ops ++ [ro_fold 0])) as Hr. by rewrite H1 in Hr.
  - exfalso. rewrite <-H1 in H2. vm_compute in H2. done.
Defined.

Lemma reclaim_floor_witness :
  ∃ i, (i < 3)%nat ∧
    all_committed (route_after 3 (-1) (missed_ops ++ [ro_synced 0 5; ro_synced 1 7])).2 =
    synced_at (route_after 3 (-1) (missed_ops ++ [ro_synced 0 5; ro_synced 1 7])).2 i.
Proof.
  destruct (reclaim_floor 3 (-1)
    (route_after 3 (-1) (missed_ops ++ [ro_synced 0 5; ro_synced 1 7])).1
    (route_after 3 (-1) (missed_ops ++ [ro_synced 0 5; ro_synced 1 7])).2) as (_ & H & _);
    [unfold k_max_members; lia|apply route_after_reach|done].
Defined.


(** [eligible] interrupted by a fold is not sound: when the fold of a write member 2
    missed runs between the two halves (after the interval map was queried and before the
    frontier is loaded), the missed dLSN is in neither tier the reader looks at, and the
    member is accepted for the very bytes it misses; uninterrupted, [eligible] refuses it
    before and after the fold. *)
Theorem eligible_race :
  let before := (route_after 3 (-1) missed_ops).2 in
  let after := (route_after 3 (-1) (missed_ops ++ [ro_fold 0])).2 in
  fold_to before 0 = Some after ∧
  eligible before 2 0 4 0 = Some false ∧
  eligible after 2 0 4 0 = Some false ∧
  eligible_between before after 2 0 4 0 = Some true.
Proof. vm_compute. done. Qed.
End exec.
