(* ===== verification/Replica.v ===== *)
(** * One in-memory replica

    [src/mem/replica.hpp] and [src/mem/replica.cpp]: the data journal (dLSN to slot), the
    applied block index, the contiguous commit frontier, reads through the journal tail
    over the index, term fencing, the Empty verdict and the cold-path hooks.

    Each synchronous core runs under the replica's mutex and is one state transformer.  A
    [std::map] is a [gmap]; where the code iterates in key order the model takes the
    entries sorted by key.  A payload buffer is immutable once it is in the journal, so a
    [shared_ptr] to one is its contents, [None] for the null pointer; a read through a null
    pointer or past a buffer makes the model's [read_range] return [None].  Block numbers
    and counts are kept at their widths ([lba_t] 64 bits, [lba_count_t] 32 bits). *)

From S2P Require Import Prelude Codec WireTypes Wire Types.

Local Open Scope craft_scope.
Local Open Scope Z_scope.

(** ** State *)

(** [struct CraftPartitionState]. *)
Record CraftPartitionState := Mk_ps {
  ps_commit_lsn : Z;
  ps_last_append_lsn : Z;
  ps_client_token : Z;
  ps_term : Z;
}.

(** [struct MemJournalSlot], [struct IndexCell], [struct replica_faults]. *)
Record MemJournalSlot := Mk_slot {
  js_term : Z;
  js_lba : Z;
  js_len : Z;
  js_all_zeros : bool;
  js_is_empty : bool;
  js_bytes : option (list Z);
}.
Record IndexCell := Mk_cell { ic_dlsn : Z; ic_buf : option (list Z); ic_off : Z }.
Record replica_faults := Mk_faults { rf_up : bool; rf_write_ok : bool; rf_delay : Z }.
Definition no_faults : replica_faults := Mk_faults true true 0.

Definition journal_t : Type := gmap Z MemJournalSlot.
Definition index_t : Type := gmap Z IndexCell.

Record MemCraftReplica := Mk_replica {
  ep_ : replica_endpoint;
  page_size_ : Z;
  state_ : CraftPartitionState;
  journal_ : gmap Z MemJournalSlot;
  index_ : gmap Z IndexCell;
  reads_served_ : Z;
  keepalives_served_ : Z;
  faults_ : replica_faults;
}.

Definition mk_replica (ep : replica_endpoint) (page_size : Z) : MemCraftReplica :=
  Mk_replica ep page_size (Mk_ps (-1) (-1) 0 0) ∅ ∅ 0 0 no_faults.

Definition commit_of (r : MemCraftReplica) : Z := ps_commit_lsn (state_ r).
Definition append_of (r : MemCraftReplica) : Z := ps_last_append_lsn (state_ r).
Definition term_of (r : MemCraftReplica) : Z := ps_term (state_ r).

Definition set_state (r : MemCraftReplica) (s : CraftPartitionState) : MemCraftReplica :=
  Mk_replica (ep_ r) (page_size_ r) s (journal_ r) (index_ r) (reads_served_ r)
    (keepalives_served_ r) (faults_ r).
Definition set_commit (r : MemCraftReplica) (c : Z) : MemCraftReplica :=
  set_state r (Mk_ps c (append_of r) (ps_client_token (state_ r)) (term_of r)).
Definition set_append (r : MemCraftReplica) (a : Z) : MemCraftReplica :=
  set_state r (Mk_ps (commit_of r) a (ps_client_token (state_ r)) (term_of r)).
Definition set_journal (r : MemCraftReplica) (j : gmap Z MemJournalSlot) : MemCraftReplica :=
  Mk_replica (ep_ r) (page_size_ r) (state_ r) j (index_ r) (reads_served_ r)
    (keepalives_served_ r) (faults_ r).
Definition set_index (r : MemCraftReplica) (ix : gmap Z IndexCell) : MemCraftReplica :=
  Mk_replica (ep_ r) (page_size_ r) (state_ r) (journal_ r) ix (reads_served_ r)
    (keepalives_served_ r) (faults_ r).
Definition lsns_of (r : MemCraftReplica) : lsn_pair := Mk_lsn_pair (commit_of r) (append_of r).

(** ** Fault knobs *)

Definition mutate_faults (f : replica_faults → replica_faults) (r : MemCraftReplica) :
    MemCraftReplica :=
  Mk_replica (ep_ r) (page_size_ r) (state_ r) (journal_ r) (index_ r) (reads_served_ r)
    (keepalives_served_ r) (f (faults_ r)).
Definition set_up (up : bool) : MemCraftReplica → MemCraftReplica :=
  mutate_faults (λ s, Mk_faults up (rf_write_ok s) (rf_delay s)).
Definition set_delay (d : Z) : MemCraftReplica → MemCraftReplica :=
  mutate_faults (λ s, Mk_faults (rf_up s) (rf_write_ok s) (if 0 <? d then d else 0)).
Definition drop_writes (drop : bool) : MemCraftReplica → MemCraftReplica :=
  mutate_faults (λ s, Mk_faults (rf_up s) (negb drop) (rf_delay s)).
Definition clear_faults : MemCraftReplica → MemCraftReplica := mutate_faults (λ _, no_faults).

(** ** Apply *)

(** [apply_slot]: one loop iteration per block of the slot. *)
Definition apply_block (page dlsn : Z) (s : MemJournalSlot) (ix : gmap Z IndexCell) (i : Z) :
    gmap Z IndexCell :=
  if js_all_zeros s then delete (u64 (js_lba s + i)) ix
  else <[u64 (js_lba s + i) := Mk_cell dlsn (js_bytes s) (i * page)]> ix.
Definition apply_slot (page dlsn : Z) (s : MemJournalSlot) (ix : gmap Z IndexCell) :
    gmap Z IndexCell :=
  foldl (apply_block page dlsn s) ix (range 0 (js_len s - 1)).

(** The loop of [apply_up_to]: at most [target - commit_lsn] iterations. *)
Fixpoint apply_loop (fuel : nat) (target next : Z) (r : MemCraftReplica) : MemCraftReplica :=
  match fuel with
  | O => r
  | S fuel =>
      if next <=? target then
        match journal_ r !! next with
        | None => r
        | Some s =>
            let r := if js_is_empty s then r
                     else set_index r (apply_slot (page_size_ r) next s (index_ r)) in
            apply_loop fuel target (next + 1) (set_commit r next)
        end
      else r
  end.
Definition apply_up_to (target : Z) (r : MemCraftReplica) : MemCraftReplica :=
  apply_loop (Z.to_nat (target - commit_of r)) target (commit_of r + 1) r.

(** ** Reads *)

Definition covers_block (s : MemJournalSlot) (x : Z) : bool :=
  (js_lba s <=? x) && (x <? u64 (js_lba s + js_len s)).

(** The journal's entries in descending key order, from [upper_bound(H)] down. *)
Definition by_key (p q : Z * MemJournalSlot) : Prop := p.1 ≤ q.1.
#[global] Instance by_key_dec p q : Decision (by_key p q).
Proof. unfold by_key. apply _. Defined.
Definition entries (j : gmap Z MemJournalSlot) : list (Z * MemJournalSlot) :=
  merge_sort by_key (map_to_list j).

Fixpoint scan_down (commit x : Z) (es : list (Z * MemJournalSlot)) : option MemJournalSlot :=
  match es with
  | [] => None
  | (d, s) :: es =>
      if d <=? commit then None
      else if js_is_empty s then scan_down commit x es
      else if covers_block s x then Some s
      else scan_down commit x es
  end.
Definition highest_slot_le (r : MemCraftReplica) (x H : Z) : option MemJournalSlot :=
  scan_down (commit_of r) x (reverse (filter (λ p, p.1 ≤ H) (entries (journal_ r)))).

(** [buf->data() + off], one page: [None] through a null pointer or past the end. *)
Definition page_at (buf : option (list Z)) (off page : Z) : option (list Z) :=
  b ← buf;
  if decide (0 ≤ off ∧ off + page ≤ Z.of_nat (length b))
  then Some (subspan (Z.to_nat off) (Z.to_nat page) b) else None.

Definition all_zero (p : list Z) : bool := forallb (λ b, b =? 0) p.

(** The winner of block [x]: its page, or [None] inside for a hole.  The outer [None] is an
    invalid read. *)
Definition winner_page (r : MemCraftReplica) (H x : Z) : option (option (list Z)) :=
  let page := page_size_ r in
  p ← match highest_slot_le r x H with
      | Some s =>
          if js_all_zeros s then Some None
          else Some <$> page_at (js_bytes s) ((x - js_lba s) * page) page
      | None =>
          match index_ r !! x with
          | Some c => Some <$> page_at (ic_buf c) (ic_off c) page
          | None => Some None
          end
      end;
  match p with
  | Some pg => if all_zero pg then Some None else Some (Some pg)
  | None => Some None
  end.

(** [sisl::sg_list]: its declared size and the bytes of its iovecs. *)
Record sg_list := Mk_sg { sg_size : Z; sg_iovs : list (list Z) }.

(** [sg_write] and its cursor; [src = None] is the [memset] of zeros.  Every iteration
    writes a byte or moves to the next iovec, so [n] plus the iovecs left bound the loop. *)
Record sg_cursor := Mk_cursor { cu_idx : nat; cu_off : nat; cu_iovs : list (list Z) }.

Definition write_at (off : nat) (bs buf : list Z) : list Z :=
  take off buf ++ bs ++ drop (off + length bs) buf.

Fixpoint sg_write_loop (fuel : nat) (src : option (list Z)) (n : nat) (c : sg_cursor) : sg_cursor :=
  match fuel with
  | O => c
  | S fuel =>
      if decide (0 < n)%nat then
        match cu_iovs c !! cu_idx c with
        | None => c
        | Some iov =>
            let avail := (length iov - cu_off c)%nat in
            let to_write := Nat.min n avail in
            let chunk := match src with Some s => take to_write s | None => replicate to_write 0 end in
            let iovs := <[cu_idx c := write_at (cu_off c) chunk iov]> (cu_iovs c) in
            let off := (cu_off c + to_write)%nat in
            let c := if decide (off = length iov) then Mk_cursor (S (cu_idx c)) 0 iovs
                     else Mk_cursor (cu_idx c) off iovs in
            sg_write_loop fuel (drop to_write <$> src) (n - to_write) c
        end
      else c
  end.
Definition sg_write (src : option (list Z)) (n : nat) (c : sg_cursor) : sg_cursor :=
  sg_write_loop (n + length (cu_iovs c)) src n c.

(** Coalescing the returned layout with its last extent. *)
Definition add_extent (layout : list io_extent) (x_addr page : Z) (hole : bool) : list io_extent :=
  match last layout with
  | Some e =>
      if bool_decide (ie_hole e = hole) && (u64 (ie_addr e + ie_len e) =? x_addr)
      then take (length layout - 1) layout ++ [Mk_io_extent (ie_addr e) (u64 (ie_len e + page)) (ie_hole e)]
      else layout ++ [Mk_io_extent x_addr page hole]
  | None => [Mk_io_extent x_addr page hole]
  end.

Fixpoint read_loop (r : MemCraftReplica) (H : Z) (xs : list Z) (c : sg_cursor)
    (layout : list io_extent) : option (sg_cursor * list io_extent) :=
  match xs with
  | [] => Some (c, layout)
  | x :: xs =>
      p ← winner_page r H x;
      let c := sg_write p (Z.to_nat (page_size_ r)) c in
      let hole := match p with None => true | Some _ => false end in
      read_loop r H xs c (add_extent layout (u64 (x * page_size_ r)) (page_size_ r) hole)
  end.

Definition read_range (r : MemCraftReplica) (H addr len : Z) (dest : sg_list) :
    option (sg_list * list io_extent) :=
  let lba0 := addr `div` page_size_ r in
  let nblk := u32 (len `div` page_size_ r) in
  '(c, layout) ← read_loop r H (range lba0 (lba0 + nblk - 1)) (Mk_cursor 0 0 (sg_iovs dest)) [];
  Some (Mk_sg (sg_size dest) (cu_iovs c), layout).

(** ** The synchronous cores *)

Definition craft_fail {A} (e : craft_error) : result error_condition A := Err (ec_craft e).
Definition einval {A} : result error_condition A := Err (ec_std invalid_argument).

Definition misaligned (r : MemCraftReplica) (addr len : Z) : bool :=
  negb (addr `mod` page_size_ r =? 0) || negb (len `mod` page_size_ r =? 0) || (len =? 0).

(** The journal entry of a write; no payload is a zero write. *)
Definition write_slot (r : MemCraftReplica) (hdr : client_hdr) (addr len : Z)
    (bytes : option (list Z)) : MemJournalSlot :=
  Mk_slot (ch_term hdr) (addr `div` page_size_ r) (u32 (len `div` page_size_ r))
    (match bytes with None => true | Some _ => false end) false bytes.

Definition do_write (r : MemCraftReplica) (hdr : client_hdr) (dlsn addr len : Z)
    (bytes : option (list Z)) : result error_condition lsn_pair * MemCraftReplica :=
  if misaligned r addr len then (einval, r)
  else if match bytes with Some b => negb (Z.of_nat (length b) =? len) | None => false end
  then (einval, r)
  else if negb (ch_term hdr =? term_of r) then (craft_fail STALE_TERM, r)
  else if match journal_ r !! dlsn with Some s => js_is_empty s | None => false end
  then (einval, r)
  else
    let r := set_journal r (<[dlsn := write_slot r hdr addr len bytes]> (journal_ r)) in
    let r := set_append r (Z.max (append_of r) dlsn) in
    let r := apply_up_to (ch_commit_lsn hdr) r in
    (Ok (lsns_of r), r).

Definition count_read (r : MemCraftReplica) : MemCraftReplica :=
  Mk_replica (ep_ r) (page_size_ r) (state_ r) (journal_ r) (index_ r) (reads_served_ r + 1)
    (keepalives_served_ r) (faults_ r).

(** The result of [do_read] also carries the filled destination.  [None]: an invalid read. *)
Definition do_read (r : MemCraftReplica) (hdr : client_hdr) (read_lsn addr len : Z) (dest : sg_list) :
    option (result error_condition (read_result * sg_list) * MemCraftReplica) :=
  if misaligned r addr len then Some (einval, r)
  else if sg_size dest <? len then Some (einval, r)
  else if negb (ch_term hdr =? term_of r) then Some (craft_fail STALE_TERM, r)
  else
    let r := count_read (apply_up_to (ch_commit_lsn hdr) r) in
    '(dest, layout) ← read_range r read_lsn addr len dest;
    Some (Ok (Mk_read_result layout (lsns_of r), dest), r).

Definition count_keepalive (r : MemCraftReplica) : MemCraftReplica :=
  Mk_replica (ep_ r) (page_size_ r) (state_ r) (journal_ r) (index_ r) (reads_served_ r)
    (keepalives_served_ r + 1) (faults_ r).

Definition do_keep_alive (r : MemCraftReplica) (hdr : client_hdr) :
    result error_condition lsn_pair * MemCraftReplica :=
  if negb (ch_term hdr =? term_of r) then (craft_fail STALE_TERM, r)
  else
    let r := apply_up_to (ch_commit_lsn hdr) (count_keepalive r) in
    (Ok (lsns_of r), r).

(** [net_up]: what [net_->is_up(id)] answers, [None] without a transport. *)
Definition do_lsns (r : MemCraftReplica) (net_up : option bool) : result error_condition lsn_pair :=
  match net_up with
  | Some false => craft_fail REPLICA_DOWN
  | _ => Ok (lsns_of r)
  end.

(** [journal_.erase(journal_.upper_bound(lsn), journal_.end())]. *)
Definition erase_above (lsn : Z) (j : gmap Z MemJournalSlot) : gmap Z MemJournalSlot :=
  filter (λ p, p.1 ≤ lsn) j.
Definition do_truncate (r : MemCraftReplica) (lsn : Z) : MemCraftReplica :=
  set_append (set_journal r (erase_above lsn (journal_ r))) (Z.min (append_of r) lsn).

(** [struct JournalSlot] of [include/craft/peer.hpp]: a slot handed to a peer. *)
Record JournalSlot := Mk_JournalSlot {
  jl_lsn : Z;
  jl_is_empty : bool;
  jl_all_zeros : bool;
  jl_lba : Z;
  jl_len : Z;
  jl_data : sg_list;
  jl_owned_data : option (list Z);
}.
Definition fetch_slot (lsn : Z) (s : MemJournalSlot) : JournalSlot :=
  Mk_JournalSlot lsn (js_is_empty s) (js_all_zeros s) (js_lba s) (js_len s)
    match (if js_all_zeros s || js_is_empty s then None else js_bytes s) with
    | Some b => Mk_sg (Z.of_nat (length b)) [b]
    | None => Mk_sg 0 []
    end None.
Definition do_fetch (r : MemCraftReplica) (lsns : list Z) : list JournalSlot :=
  omap (λ lsn, fetch_slot lsn <$> journal_ r !! lsn) lsns.

Definition empty_slot (term : Z) : MemJournalSlot := Mk_slot term 0 0 false true None.

(** The loop of [do_resolve_local] over [commit_lsn + 1 .. upto]. *)
Definition resolve_local_step (term : Z) (acc : gmap Z MemJournalSlot * list Z) (d : Z) :
    gmap Z MemJournalSlot * list Z :=
  let '(j, out) := acc in
  match j !! d with
  | None => (<[d := empty_slot term]> j, out ++ [d])
  | Some s => if js_is_empty s then (j, out ++ [d]) else (j, out)
  end.

Definition do_resolve_local (r : MemCraftReplica) (hdr : client_hdr) (upto : Z) :
    result error_condition resolution_result * MemCraftReplica :=
  if negb (ch_term hdr =? term_of r) then (craft_fail STALE_TERM, r)
  else
    let '(j, out) := foldl (resolve_local_step (term_of r)) (journal_ r, [])
                       (range (commit_of r + 1) upto) in
    let r := set_append (set_journal r j) (Z.max (append_of r) upto) in
    (Ok (Mk_resolution_result upto out), apply_up_to upto r).

(** ** Cold-path hooks *)

Definition peek_lsns : MemCraftReplica → lsn_pair := lsns_of.
Definition cold_apply_sync (rs_commit_lsn : Z) : MemCraftReplica → MemCraftReplica :=
  apply_up_to rs_commit_lsn.
Definition cold_apply_login (client_token term : Z) (r : MemCraftReplica) : MemCraftReplica :=
  set_state r (Mk_ps (commit_of r) (append_of r) client_token term).
Definition cold_apply_logout (r : MemCraftReplica) : MemCraftReplica :=
  set_state r (Mk_ps (commit_of r) (append_of r) 0 0).
Definition cold_truncate_above (rs_commit_lsn : Z) (r : MemCraftReplica) : MemCraftReplica :=
  do_truncate r rs_commit_lsn.
Definition peek_slot (r : MemCraftReplica) (dlsn : Z) : option MemJournalSlot := journal_ r !! dlsn.
Definition cold_install_slot (dlsn : Z) (s : MemJournalSlot) (r : MemCraftReplica) : MemCraftReplica :=
  if decide (is_Some (journal_ r !! dlsn)) then r
  else set_append (set_journal r (<[dlsn := s]> (journal_ r))) (Z.max (append_of r) dlsn).
Definition cold_mark_empty (dlsn : Z) (r : MemCraftReplica) : MemCraftReplica :=
  set_append (set_journal r (<[dlsn := empty_slot (term_of r)]> (journal_ r)))
    (Z.max (append_of r) dlsn).
Definition peek_empties (r : MemCraftReplica) (upto : Z) : list Z :=
  (filter (λ p, p.1 ≤ upto ∧ js_is_empty p.2 = true) (entries (journal_ r))).*1.

(** ** Observability *)

Record replica_stats := Mk_replica_stats {
  rt_id : peer_id_t;
  rt_addr : list Z;
  rt_page_size : Z;
  rt_commit_lsn : Z;
  rt_last_append_lsn : Z;
  rt_term : Z;
  rt_client_token : Z;
  rt_journal_slots : nat;
  rt_journal_first_dlsn : Z;
  rt_journal_last_dlsn : Z;
  rt_zero_write_slots : nat;
  rt_empty_slots : nat;
  rt_journal_data_bytes : Z;
  rt_missing_count : Z;
  rt_missing_sample : list Z;
  rt_mapped_blocks : nat;
}.
Definition k_missing_sample : nat := 16.

(** The two nested loops that list the gaps, from [expect] up to the entries [es]. *)
Definition sample_gap (lo hi : Z) (sample : list Z) : list Z :=
  sample ++ take (k_missing_sample - length sample) (range lo hi).
Fixpoint missing_gaps (es : list Z) (expect hi : Z) (sample : list Z) : list Z :=
  match es with
  | [] => sample_gap expect hi sample
  | d :: es =>
      if decide (length sample < k_missing_sample)%nat
      then missing_gaps es (d + 1) hi (sample_gap expect (d - 1) sample)
      else sample_gap expect hi sample
  end.

Definition stats_of (r : MemCraftReplica) : replica_stats :=
  let es := entries (journal_ r) in
  let lo := commit_of r + 1 in
  let hi := append_of r in
  let present := filter (λ d, lo ≤ d ≤ hi) es.*1 in
  Mk_replica_stats (ep_id (ep_ r)) (ep_addr (ep_ r)) (page_size_ r) (commit_of r) (append_of r) (term_of r) (ps_client_token (state_ r))
    (length es) (default (-1) (head es.*1)) (default (-1) (last es.*1))
    (length (filter (λ p, js_is_empty p.2 = false ∧ js_all_zeros p.2 = true) es))
    (length (filter (λ p, js_is_empty p.2 = true) es))
    (foldl (λ acc p, if js_is_empty p.2 || js_all_zeros p.2 then acc
                     else u64 (acc + js_len p.2 * page_size_ r)) 0 es)
    (if lo <=? hi then hi - lo + 1 - Z.of_nat (length present) else 0)
    (if lo <=? hi then missing_gaps present lo hi [] else [])
    (size (index_ r)).
