(* ===== verification/ReplicaSpec.v ===== *)
(** * What a replica promises

    The specification of a read is the journal alone: the version of a block at horizon
    [H] is the entry with the highest dLSN at or below [H] that covers it, Empty entries
    aside.  [replica_inv] says that the applied index caches exactly those versions at the
    commit frontier, that the journal is complete below it, and that every payload is
    long enough; every core keeps it, and under it reads return the specified bytes. *)

From S2P Require Import Prelude Codec WireTypes Wire Types Replica.

Local Open Scope craft_scope.
Local Open Scope Z_scope.

(** ** Sorted entries *)

Lemma elem_of_entries j d s : (d, s) ∈ entries j ↔ j !! d = Some s.
Proof. unfold entries. by rewrite merge_sort_Permutation, elem_of_map_to_list. Qed.

Lemma entries_sorted j : StronglySorted Z.lt (entries j).*1.
Proof.
  unfold entries.
  assert (NoDup (merge_sort by_key (map_to_list j)).*1) as Hnd
    by (rewrite (merge_sort_Permutation by_key); apply NoDup_fst_map_to_list).
  assert (StronglySorted by_key (merge_sort by_key (map_to_list j))) as Hs.
  { apply Sorted_StronglySorted; [intros x y z; unfold by_key; lia|].
    apply Sorted_merge_sort. intros x y. unfold by_key. lia. }
  by apply StronglySorted_fst_lt.
Qed.

(** ** Versions *)

(** Entry [p] is a version of block [x] in (lo, H]. *)
Definition version (lo H x : Z) (p : Z * MemJournalSlot) : bool :=
  (lo <? p.1) && (p.1 <=? H) && negb (js_is_empty p.2) && covers_block p.2 x.

(** The highest version of a block. *)
Definition latest (j : gmap Z MemJournalSlot) (lo H x : Z) : option (Z * MemJournalSlot) :=
  head (filter (λ p, version lo H x p = true) (reverse (entries j))).

(** [o] is the highest version, as a property. *)
Definition is_latest (j : gmap Z MemJournalSlot) (lo H x : Z) (o : option (Z * MemJournalSlot)) : Prop :=
  match o with
  | Some (d, s) => j !! d = Some s ∧ version lo H x (d, s) = true ∧
      ∀ d' s', j !! d' = Some s' → version lo H x (d', s') = true → d' ≤ d
  | None => ∀ d' s', j !! d' = Some s' → version lo H x (d', s') = false
  end.

Lemma sorted_desc (l : list (Z * MemJournalSlot)) :
  StronglySorted Z.lt l.*1 → StronglySorted Z.gt (reverse l).*1.
Proof.
  induction l as [|p l IH]; simpl; intros Hs; [constructor|].
  inversion Hs as [|? ? Hs' Hall]; subst. rewrite reverse_cons, fmap_app.
  apply StronglySorted_app_2; [|by apply IH|simpl; repeat constructor].
  intros a b Ha Hb. simpl in Hb. apply list_elem_of_singleton in Hb. subst b.
  rewrite Forall_forall in Hall. rewrite fmap_reverse in Ha.
  rewrite elem_of_reverse in Ha. specialize (Hall a Ha). lia.
Qed.

Lemma head_filter_desc (P : Z * MemJournalSlot → Prop) `{!∀ p, Decision (P p)} l p :
  StronglySorted Z.gt l.*1 → head (filter P l) = Some p →
  p ∈ l ∧ P p ∧ ∀ q, q ∈ l → P q → q.1 ≤ p.1.
Proof.
  induction l as [|x l IH]; simpl; intros Hs Hh; [done|].
  inversion Hs as [|? ? Hs' Hall]; subst. rewrite filter_cons in Hh.
  destruct (decide (P x)) as [Hx|Hx].
  - injection Hh as ->. split_and!; [left|done|]. intros q [->|Hq]%elem_of_cons _; [lia|].
    rewrite Forall_forall in Hall. specialize (Hall q.1 (list_elem_of_fmap_2 fst _ _ Hq)). lia.
  - destruct (IH Hs' Hh) as (Hin & Hp & Hmax). split_and!; [by right|done|].
    intros q [->|Hq]%elem_of_cons HPq; [done|auto].
Qed.

Lemma latest_spec j lo H x : is_latest j lo H x (latest j lo H x).
Proof.
  unfold latest. destruct (head _) as [[d s]|] eqn:Hh; simpl.
  - apply head_filter_desc in Hh as (Hin & Hv & Hmax); [|apply sorted_desc, entries_sorted].
    rewrite elem_of_reverse, elem_of_entries in Hin. split_and!; [done..|].
    intros d' s' Hd' Hv'. apply (Hmax (d', s')); [|done]. by apply elem_of_reverse, elem_of_entries.
  - apply head_None in Hh. intros d' s' Hd'. destruct (version lo H x (d', s')) eqn:Hv; [|done].
    assert ((d', s') ∈ filter (λ p, version lo H x p = true) (reverse (entries j))) as Hin
      by (apply list_elem_of_filter; split; [done|by apply elem_of_reverse, elem_of_entries]).
    rewrite Hh in Hin. by apply not_elem_of_nil in Hin.
Qed.

Lemma is_latest_unique j lo H x o1 o2 :
  is_latest j lo H x o1 → is_latest j lo H x o2 → o1 = o2.
Proof.
  destruct o1 as [[d1 s1]|], o2 as [[d2 s2]|]; simpl; try done.
  - intros (H1 & V1 & M1) (H2 & V2 & M2).
    assert (d1 = d2) as -> by (specialize (M1 d2 s2 H2 V2); specialize (M2 d1 s1 H1 V1); lia).
    congruence.
  - intros (H1 & V1 & _) H2. by rewrite (H2 d1 s1 H1) in V1.
  - intros H1 (H2 & V2 & _). by rewrite (H1 d2 s2 H2) in V2.
Qed.

Lemma latest_eq j lo H x o : is_latest j lo H x o → latest j lo H x = o.
Proof. apply is_latest_unique, latest_spec. Qed.

Lemma version_iff lo H x d s :
  version lo H x (d, s) = true ↔ lo < d ≤ H ∧ js_is_empty s = false ∧ covers_block s x = true.
Proof.
  unfold version. simpl. rewrite !andb_true_iff, negb_true_iff, Z.ltb_lt, Z.leb_le. tauto.
Qed.

(** A split point: the upper part wins. *)
Lemma latest_split j lo mid H x :
  lo ≤ mid ≤ H →
  latest j lo H x = match latest j mid H x with Some p => Some p | None => latest j lo mid x end.
Proof.
  intros Hm. apply latest_eq.
  pose proof (latest_spec j mid H x) as Hu. pose proof (latest_spec j lo mid x) as Hl.
  assert (∀ d s, version lo H x (d, s) = true ↔
            version mid H x (d, s) = true ∨ version lo mid x (d, s) = true) as Hv
    by (intros d s; rewrite !version_iff; destruct (decide (d ≤ mid)); intuition lia).
  destruct (latest j mid H x) as [[d s]|].
  - destruct Hu as (H1 & V1 & M1). split_and!; [done|apply Hv; by left|].
    intros d' s' Hd' [Hv'|Hv']%Hv; [by eapply M1|]. apply version_iff in V1, Hv'. lia.
  - destruct (latest j lo mid x) as [[d s]|]; simpl in *.
    + destruct Hl as (H1 & V1 & M1). split_and!; [done|apply Hv; by right|].
      intros d' s' Hd' [Hv'|Hv']%Hv; [by rewrite (Hu d' s' Hd') in Hv'|by eapply M1].
    + intros d' s' Hd'. destruct (version lo H x (d', s')) eqn:V; [|done].
      apply Hv in V as [V|V]; [by rewrite (Hu d' s' Hd') in V|by rewrite (Hl d' s' Hd') in V].
Qed.

(** Only the entries in range matter, and of an Empty one only that it is there. *)
Definition slot_same (o o' : option MemJournalSlot) : Prop :=
  o = o' ∨ ∃ s s', o = Some s ∧ o' = Some s' ∧ js_is_empty s = true ∧ js_is_empty s' = true.

#[global] Instance slot_same_equiv : Equivalence slot_same.
Proof.
  split.
  - by left.
  - intros o o' [->|(s & s' & -> & -> & ? & ?)]; [by left|]. right. by exists s', s.
  - intros o1 o2 o3 [->|(s & s' & -> & E & Hs & Hs')] [->|(t & t' & -> & -> & Ht & Ht')].
    + by left.
    + right. by exists t, t'.
    + right. by exists s, s'.
    + right. by exists s, t'.
Qed.

Lemma slot_same_some o o' : slot_same o o' → is_Some o → is_Some o'.
Proof. intros [->|(s & s' & -> & -> & _)]; eauto. Qed.

Lemma latest_same j j' lo H x :
  (∀ d, lo < d ≤ H → slot_same (j' !! d) (j !! d)) → latest j' lo H x = latest j lo H x.
Proof.
  intros Hj. apply latest_eq. pose proof (latest_spec j lo H x) as Hl.
  assert (∀ d s, version lo H x (d, s) = true → j' !! d = Some s ↔ j !! d = Some s) as Hv.
  { intros d s (Hd & He & _)%version_iff.
    destruct (Hj d Hd) as [->|(s1 & s2 & -> & -> & E1 & E2)]; [done|]. split; intros [= ->]; congruence. }
  destruct (latest j lo H x) as [[d s]|]; simpl in *.
  - destruct Hl as (H1 & V1 & M1). split_and!; [by apply Hv|done|].
    intros d' s' Hd' V'. apply (M1 d' s'); [|done]. by apply Hv.
  - intros d' s' Hd'. destruct (version lo H x (d', s')) eqn:V; [|done].
    apply Hv in Hd'; [|done]. by rewrite (Hl d' s' Hd') in V.
Qed.

Lemma latest_ext j j' lo H x :
  (∀ d, lo < d ≤ H → j' !! d = j !! d) → latest j' lo H x = latest j lo H x.
Proof. intros Hj. apply latest_same. intros d Hd. left. by apply Hj. Qed.

(** One more entry on top. *)
Lemma latest_snoc j lo d x s :
  j !! d = Some s → lo < d →
  latest j lo d x =
    if negb (js_is_empty s) && covers_block s x then Some (d, s) else latest j lo (d - 1) x.
Proof.
  intros Hs Hlo. rewrite (latest_split j lo (d - 1) d x) by lia.
  assert (latest j (d - 1) d x = if negb (js_is_empty s) && covers_block s x then Some (d, s) else None)
    as ->; [|by destruct (_ && _)].
  apply latest_eq. destruct (_ && _) eqn:Hc.
  - apply andb_true_iff in Hc as [He%negb_true_iff Hc]. split_and!; [done| |].
    + apply version_iff. split_and!; [lia..|done|done].
    + intros d' s' _ V%version_iff. lia.
  - intros d' s' Hd'. destruct (version (d - 1) d x (d', s')) eqn:V; [|done].
    apply version_iff in V as (Hr & He & Hcv). assert (d' = d) as -> by lia.
    rewrite Hs in Hd'. injection Hd' as ->. by rewrite He, Hcv in Hc.
Qed.

(** [highest_slot_le] finds the highest version above the frontier. *)
Lemma scan_down_head commit H x l :
  StronglySorted Z.gt l.*1 → Forall (λ p, p.1 ≤ H) l →
  scan_down commit x l = snd <$> head (filter (λ p, version commit H x p = true) l).
Proof.
  induction l as [|[d s] l IH]; intros Hs Hle; [done|].
  inversion Hs as [|? ? Hs' Hall]; inversion Hle as [|? ? Hd Hle']; subst. simpl in *.
  rewrite filter_cons. destruct (d <=? commit) eqn:Hc.
  - assert (filter (λ p, version commit H x p = true) l = []) as ->.
    { apply elem_of_nil_inv. intros [d' s'] [V Hin]%list_elem_of_filter. apply version_iff in V.
      rewrite Forall_forall in Hall.
      specialize (Hall d' (list_elem_of_fmap_2 fst _ _ Hin)). lia. }
    rewrite decide_False; [done|]. rewrite version_iff. lia.
  - destruct (js_is_empty s) eqn:He.
    { rewrite decide_False; [by apply IH|]. rewrite version_iff. intuition congruence. }
    destruct (covers_block s x) eqn:Hcv.
    + rewrite decide_True; [done|]. apply version_iff. split_and!; lia || done.
    + rewrite decide_False; [by apply IH|]. rewrite version_iff. intuition congruence.
Qed.

Lemma highest_slot_latest r x H :
  highest_slot_le r x H = snd <$> latest (journal_ r) (commit_of r) H x.
Proof.
  unfold highest_slot_le, latest. rewrite (scan_down_head _ H).
  - f_equal. f_equal. rewrite <-filter_reverse, list_filter_filter_l; [done|].
    intros [d s] V%version_iff. simpl. lia.
  - rewrite <-filter_reverse. apply StronglySorted_fst_filter, sorted_desc, entries_sorted.
  - apply Forall_forall. intros p Hp. rewrite elem_of_reverse, list_elem_of_filter in Hp. tauto.
Qed.

(** ** The invariant *)

Definition slot_wf (page : Z) (s : MemJournalSlot) : Prop :=
  js_is_empty s = true ∨
  0 ≤ js_lba s ∧ 0 ≤ js_len s ∧ js_lba s + js_len s < 2 ^ 64 ∧
  if js_all_zeros s then True
  else ∃ b, js_bytes s = Some b ∧ js_len s * page ≤ Z.of_nat (length b).

(** The index cell of block [x] when [o] is its highest applied version. *)
Definition cell_of (page x : Z) (o : option (Z * MemJournalSlot)) : option IndexCell :=
  match o with
  | Some (d, s) =>
      if js_all_zeros s then None else Some (Mk_cell d (js_bytes s) ((x - js_lba s) * page))
  | None => None
  end.

Record replica_inv (r : MemCraftReplica) : Prop := {
  rv_page : 2 ≤ page_size_ r < 2 ^ 32;
  rv_commit : -1 ≤ commit_of r ≤ append_of r;
  rv_prefix d : 0 ≤ d ≤ commit_of r → is_Some (journal_ r !! d);
  rv_append d : is_Some (journal_ r !! d) → d ≤ append_of r;
  rv_slots d s : journal_ r !! d = Some s → slot_wf (page_size_ r) s;
  rv_index x : index_ r !! x = cell_of (page_size_ r) x (latest (journal_ r) (-1) (commit_of r) x);
}.

Lemma mk_replica_inv ep page : 2 ≤ page < 2 ^ 32 → replica_inv (mk_replica ep page).
Proof.
  intros Hp. split; unfold commit_of, append_of; simpl; try done; try lia.
  intros d [s Hs]. by rewrite lookup_empty in Hs.
Qed.

Lemma covers_block_iff s x :
  0 ≤ js_lba s → 0 ≤ js_len s → js_lba s + js_len s < 2 ^ 64 →
  covers_block s x = true ↔ js_lba s ≤ x < js_lba s + js_len s.
Proof.
  intros. unfold covers_block, u64. rewrite wrap_small by (unfold in_u; lia).
  rewrite andb_true_iff, Z.leb_le, Z.ltb_lt. done.
Qed.

Lemma lookup_apply_blocks page d s l ix x :
  Forall (λ i, in_u 64 (js_lba s + i)) l →
  foldl (apply_block page d s) ix l !! x =
    if decide (x - js_lba s ∈ l) then cell_of page x (Some (d, s)) else ix !! x.
Proof.
  revert ix. induction l as [|i l IH] using rev_ind; intros ix Hf; [done|].
  apply Forall_app in Hf as [Hf Hi]. inversion Hi as [|? ? Hi' _]; subst.
  rewrite foldl_app. simpl. specialize (IH ix Hf). simpl in IH.
  set (m := foldl _ ix l) in *. unfold apply_block, u64. rewrite wrap_small by done.
  destruct (decide (x = js_lba s + i)) as [->|Hne].
  - replace (js_lba s + i - js_lba s) with i by lia.
    rewrite decide_True by (apply elem_of_app; right; left).
    destruct (js_all_zeros s); [apply lookup_delete_eq|apply lookup_insert_eq].
  - destruct (js_all_zeros s); rewrite ?lookup_delete_ne, ?lookup_insert_ne, IH by congruence;
      (destruct (decide (x - js_lba s ∈ l)) as [Hin|Hin];
        [by rewrite decide_True by (apply elem_of_app; by left)|]);
      rewrite decide_False; try done; rewrite elem_of_app, list_elem_of_singleton;
      intros [|]; done || lia.
Qed.

(** [apply_slot] sets exactly the blocks the slot covers. *)
Lemma lookup_apply_slot page d s ix x :
  slot_wf page s → js_is_empty s = false →
  apply_slot page d s ix !! x =
    if covers_block s x then cell_of page x (Some (d, s)) else ix !! x.
Proof.
  intros [?|(H0 & H1 & H2 & _)] He; [congruence|]. unfold apply_slot.
  rewrite lookup_apply_blocks
    by (apply Forall_forall; intros i Hi%elem_of_range; unfold in_u; lia).
  destruct (covers_block s x) eqn:Hc.
  - apply covers_block_iff in Hc; [|done..]. by rewrite decide_True by (apply elem_of_range; lia).
  - rewrite decide_False; [done|]. intros Hin%elem_of_range.
    assert (covers_block s x = true) by (apply covers_block_iff; [done..|lia]). congruence.
Qed.

(** *** Apply *)

(** What [apply_up_to] leaves alone. *)
Definition same_but_applied (r r' : MemCraftReplica) : Prop :=
  ep_ r' = ep_ r ∧ page_size_ r' = page_size_ r ∧ journal_ r' = journal_ r ∧
  append_of r' = append_of r ∧ term_of r' = term_of r ∧
  ps_client_token (state_ r') = ps_client_token (state_ r) ∧
  reads_served_ r' = reads_served_ r ∧ keepalives_served_ r' = keepalives_served_ r ∧
  faults_ r' = faults_ r.

Lemma apply_one_inv r s :
  replica_inv r → journal_ r !! (commit_of r + 1) = Some s →
  replica_inv (set_commit (if js_is_empty s then r
                 else set_index r (apply_slot (page_size_ r) (commit_of r + 1) s (index_ r)))
                 (commit_of r + 1)).
Proof.
  intros [] Hs. set (d := commit_of r + 1) in *.
  assert (d ≤ append_of r) as Hda by (apply rv_append0; eauto).
  assert (∀ x, latest (journal_ r) (-1) d x =
    if negb (js_is_empty s) && covers_block s x then Some (d, s)
    else latest (journal_ r) (-1) (commit_of r) x) as Hlat.
  { intros x. rewrite (latest_snoc _ _ _ _ s Hs) by lia. by replace (d - 1) with (commit_of r) by lia. }
  assert (∀ i, 0 ≤ i ≤ d → is_Some (journal_ r !! i)) as Hpre.
  { intros i Hi. destruct (decide (i = d)) as [->|]; [eauto|]. apply rv_prefix0. lia. }
  destruct (js_is_empty s) eqn:He;
    (split; [exact rv_page0|change (-1 ≤ d ≤ append_of r); lia|exact Hpre|exact rv_append0
            |exact rv_slots0|intros x; change (commit_of (set_commit _ d)) with d; simpl]).
  - rewrite Hlat. simpl. apply rv_index0.
  - rewrite Hlat. simpl. rewrite lookup_apply_slot; [|by eapply rv_slots0|done].
    destruct (covers_block s x); [done|]. apply rv_index0.
Qed.

Lemma apply_loop_spec fuel target r :
  replica_inv r → (Z.to_nat (target - commit_of r) ≤ fuel)%nat →
  let r' := apply_loop fuel target (commit_of r + 1) r in
  replica_inv r' ∧ same_but_applied r r' ∧ commit_of r ≤ commit_of r' ≤ Z.max (commit_of r) target ∧
  (commit_of r' < target → journal_ r !! (commit_of r' + 1) = None).
Proof.
  revert r. induction fuel as [|fuel IH]; intros r I Hf; simpl.
  { split_and!; try done; lia. }
  destruct (commit_of r + 1 <=? target) eqn:Hle; [|split_and!; try done; lia].
  destruct (journal_ r !! (commit_of r + 1)) as [s|] eqn:Hs; [|split_and!; try done; lia].
  pose proof (apply_one_inv r s I Hs) as I1.
  set (r1 := set_commit _ _) in *.
  assert (commit_of r1 = commit_of r + 1) as Hc1 by done.
  assert (same_but_applied r r1) as Hs1 by (unfold r1; destruct (js_is_empty s); done).
  destruct (IH r1 I1) as (I2 & Hs2 & Hc2 & Hstop); [lia|]. rewrite Hc1 in *.
  replace (commit_of r + 1 + 1) with (commit_of r + 1 + 1) in * by lia.
  unfold same_but_applied in *. destruct_and!.
  assert (journal_ r1 = journal_ r) as Hj by done.
  split_and!; try congruence; try lia. intros Hlt. rewrite <-Hj. by apply Hstop.
Qed.

Lemma apply_up_to_spec target r :
  replica_inv r →
  let r' := apply_up_to target r in
  replica_inv r' ∧ same_but_applied r r' ∧ commit_of r ≤ commit_of r' ≤ Z.max (commit_of r) target ∧
  (commit_of r' < target → journal_ r !! (commit_of r' + 1) = None).
Proof. intros I. by apply apply_loop_spec. Qed.

(** *** Journal changes above the frontier *)

Lemma journal_change_inv r j a :
  replica_inv r → (∀ d, 0 ≤ d ≤ commit_of r → slot_same (j !! d) (journal_ r !! d)) →
  (∀ d s, j !! d = Some s → slot_wf (page_size_ r) s) →
  (∀ d, is_Some (j !! d) → d ≤ a) → commit_of r ≤ a →
  replica_inv (set_append (set_journal r j) a).
Proof.
  intros [] Hj Hwf Ha Hca.
  split; [exact rv_page0|change (-1 ≤ commit_of r ≤ a); lia| |exact Ha|exact Hwf|].
  - intros d Hd. change (0 ≤ d ≤ commit_of r) in Hd. simpl.
    apply (slot_same_some (journal_ r !! d)); [symmetry; apply Hj; lia|by apply rv_prefix0].
  - intros x. change (commit_of (set_append _ a)) with (commit_of r). simpl.
    rewrite rv_index0. f_equal. symmetry. apply latest_same. intros d Hd. apply Hj. lia.
Qed.

(** ** Filling the destination *)

(** The flat position of the cursor, and the bytes one [sg_write] puts there. *)
Definition cursor_pos (c : sg_cursor) : nat := length (concat (take (cu_idx c) (cu_iovs c))) + cu_off c.
Definition cursor_ok (c : sg_cursor) : Prop :=
  match cu_iovs c !! cu_idx c with
  | Some iov => (cu_off c < length iov)%nat ∨ cu_off c = 0%nat
  | None => cu_off c = 0%nat ∧ cu_idx c = length (cu_iovs c)
  end.
Definition chunk (n : nat) (src : option (list Z)) : list Z :=
  match src with Some s => take n s | None => replicate n 0 end.

Lemma write_at_length off bs buf :
  (off + length bs ≤ length buf)%nat → length (write_at off bs buf) = length buf.
Proof. intros. unfold write_at. rewrite !length_app, length_take, length_drop. lia. Qed.

Lemma chunk_split n m src :
  (m ≤ n)%nat → (match src with Some s => n ≤ length s | None => True end)%nat →
  chunk n src = chunk m src ++ chunk (n - m) (drop m <$> src).
Proof.
  intros Hm Hs. destruct src as [s|]; simpl.
  - rewrite <-(take_drop m (take n s)). rewrite take_take, Nat.min_l by done. f_equal.
    rewrite skipn_firstn_comm. done.
  - replace n with (m + (n - m))%nat at 1 by lia. apply replicate_add.
Qed.

Lemma length_chunk n src :
  (match src with Some s => n ≤ length s | None => True end)%nat → length (chunk n src) = n.
Proof. destruct src; simpl; intros; rewrite ?length_take, ?length_replicate; lia. Qed.

(** One iovec, written at the cursor, in the flat view. *)
Lemma flat_write (pre : list (list Z)) iov post off bs :
  (off + length bs ≤ length iov)%nat →
  concat (pre ++ write_at off bs iov :: post) =
    write_at (length (concat pre) + off) bs (concat (pre ++ iov :: post)).
Proof.
  intros Hl. unfold write_at. rewrite !concat_app. simpl.
  rewrite take_app_add, take_app_le by lia.
  replace (length (concat pre) + off + length bs)%nat
    with (length (concat pre) + (off + length bs))%nat by lia.
  rewrite drop_app_add, drop_app_le by lia. by rewrite <-!(assoc_L (++)).
Qed.

Lemma write_at_app off bs1 bs2 buf :
  (off + length bs1 + length bs2 ≤ length buf)%nat →
  write_at (off + length bs1) bs2 (write_at off bs1 buf) = write_at off (bs1 ++ bs2) buf.
Proof.
  intros Hl. unfold write_at. rewrite length_app.
  assert (length (take off buf) = off) as Ht by (rewrite length_take; lia).
  rewrite take_app_ge, Ht by lia.
  replace (off + length bs1 - off)%nat with (length bs1) by lia. rewrite take_app_length.
  rewrite (drop_app_ge (take off buf)), Ht by lia.
  replace (off + length bs1 + length bs2 - off)%nat with (length bs1 + length bs2)%nat by lia.
  rewrite drop_app_add, drop_drop. rewrite <-!(assoc_L (++)). do 3 f_equal. f_equal. lia.
Qed.

Lemma write_at_nil off buf : write_at off [] buf = buf.
Proof. unfold write_at. simpl. rewrite Nat.add_0_r. apply take_drop. Qed.

(** One iteration of the loop, at a cursor inside the iovecs. *)
Lemma sg_write_step src n c iov :
  cursor_ok c → cu_iovs c !! cu_idx c = Some iov →
  (match src with Some s => n ≤ length s | None => True end)%nat →
  let w := Nat.min n (length iov - cu_off c) in
  let iovs := <[cu_idx c := write_at (cu_off c) (chunk w src) iov]> (cu_iovs c) in
  let c' := if decide (cu_off c + w = length iov)%nat then Mk_cursor (S (cu_idx c)) 0 iovs
            else Mk_cursor (cu_idx c) (cu_off c + w) iovs in
  cursor_ok c' ∧ cursor_pos c' = (cursor_pos c + w)%nat ∧
  length (cu_iovs c') = length (cu_iovs c) ∧
  concat (cu_iovs c') = write_at (cursor_pos c) (chunk w src) (concat (cu_iovs c)).
Proof.
  intros Hok Hi Hsrc w iovs c'. pose proof (lookup_lt_Some _ _ _ Hi) as Hlt.
  unfold cursor_ok in Hok. rewrite Hi in Hok.
  assert (length (chunk w src) = w) as Hlw by (apply length_chunk; destruct src; [lia|done]).
  set (iov' := write_at (cu_off c) (chunk w src) iov).
  assert (length iov' = length iov) as Hl' by (apply write_at_length; lia).
  set (pre := take (cu_idx c) (cu_iovs c)). set (post := drop (S (cu_idx c)) (cu_iovs c)).
  assert (length pre = cu_idx c) as Hpre by (unfold pre; rewrite length_take; lia).
  assert (cu_iovs c = pre ++ iov :: post) as Hsplit by (symmetry; by apply take_drop_middle).
  assert (iovs = pre ++ iov' :: post) as Hiovs.
  { unfold iovs. rewrite Hsplit, <-Hpre. by rewrite insert_app_r_alt, Nat.sub_diag by lia. }
  assert (cu_iovs c' = iovs) as Hci by (unfold c'; by case_decide).
  assert (length iovs = length (cu_iovs c)) as Hlen by apply length_insert.
  rewrite Hci, Hlen. split_and!; [| |done|].
  - unfold c', cursor_ok. destruct (decide (cu_off c + w = length iov)%nat); simpl.
    + destruct (iovs !! S (cu_idx c)) eqn:Hn; [by right|]. split; [done|].
      apply lookup_ge_None in Hn. lia.
    + rewrite Hiovs, <-Hpre, list_lookup_middle by done. left. lia.
  - unfold cursor_pos. fold pre. unfold c'. destruct (decide (cu_off c + w = length iov)%nat); simpl.
    + rewrite Hiovs, <-Hpre. replace (S (length pre)) with (length pre + 1)%nat by lia.
      rewrite take_app_add. simpl. rewrite concat_app, length_app. simpl.
      rewrite app_nil_r. lia.
    + rewrite Hiovs, <-Hpre, take_app_length. lia.
  - rewrite Hiovs. unfold iov'. rewrite flat_write by lia. rewrite <-Hsplit.
    unfold cursor_pos. fold pre. done.
Qed.

Lemma sg_write_loop_spec fuel src n c :
  cursor_ok c → (n + length (cu_iovs c) - cu_idx c ≤ fuel)%nat →
  (cursor_pos c + n ≤ length (concat (cu_iovs c)))%nat →
  (match src with Some s => n ≤ length s | None => True end)%nat →
  let c' := sg_write_loop fuel src n c in
  cursor_ok c' ∧ cursor_pos c' = (cursor_pos c + n)%nat ∧
  length (cu_iovs c') = length (cu_iovs c) ∧
  concat (cu_iovs c') = write_at (cursor_pos c) (chunk n src) (concat (cu_iovs c)).
Proof.
  revert src n c. induction fuel as [|fuel IH]; intros src n c Hok Hf Hpos Hsrc; simpl.
  { assert (n = 0%nat) as ->.
    { unfold cursor_ok in Hok. destruct (cu_iovs c !! cu_idx c) eqn:Hi; [|lia].
      apply lookup_lt_Some in Hi. lia. }
    replace (chunk 0 src) with (@nil Z) by by destruct src.
    rewrite write_at_nil. split_and!; done || lia. }
  destruct (decide (0 < n)%nat) as [Hn|Hn].
  2:{ assert (n = 0%nat) as -> by lia. replace (chunk 0 src) with (@nil Z) by by destruct src.
      rewrite write_at_nil. split_and!; done || lia. }
  destruct (cu_iovs c !! cu_idx c) as [iov|] eqn:Hi.
  2:{ exfalso. unfold cursor_ok in Hok. rewrite Hi in Hok. destruct Hok as [Ho Hidx].
      unfold cursor_pos in Hpos. rewrite Hidx, take_ge in Hpos by done. lia. }
  pose proof (lookup_lt_Some _ _ _ Hi) as Hlt.
  destruct (sg_write_step src n c iov Hok Hi Hsrc) as (Hok1 & Hpos1 & Hlen1 & Hflat1).
  set (w := Nat.min n (length iov - cu_off c)) in *. fold (chunk w src).
  set (c1 := if decide (cu_off c + w = length iov)%nat then _ else _) in *.
  assert (length (chunk w src) = w) as Hlw by (apply length_chunk; destruct src; [lia|done]).
  assert (length (concat (cu_iovs c1)) = length (concat (cu_iovs c))) as Htot
    by (rewrite Hflat1; apply write_at_length; lia).
  destruct (IH (drop w <$> src) (n - w)%nat c1) as (Hok2 & Hpos2 & Hlen2 & Hflat2); [done| |lia| |].
  - rewrite Hlen1. unfold c1. unfold cursor_ok in Hok. rewrite Hi in Hok.
    destruct (decide (cu_off c + w = length iov)%nat); simpl; lia.
  - destruct src; simpl; [rewrite length_drop; lia|done].
  - split_and!; [done|lia|lia|]. rewrite Hflat2, Hflat1, Hpos1, (chunk_split n w src) by (done || lia).
    rewrite <-Hlw at 1. apply write_at_app. rewrite Hlw, length_chunk; [lia|].
    destruct src; simpl; [rewrite length_drop; lia|done].
Qed.

(** ** Reads return the specified versions *)

(** The page a version gives block [x]; an all-zero page reads as a hole. *)
Definition image (page x : Z) (o : option (Z * MemJournalSlot)) : option (list Z) :=
  match o with
  | Some (_, s) =>
      if js_all_zeros s then None
      else let pg := subspan (Z.to_nat ((x - js_lba s) * page)) (Z.to_nat page) (default [] (js_bytes s)) in
           if all_zero pg then None else Some pg
  | None => None
  end.
Definition block_bytes (page : Z) (pg : option (list Z)) : list Z :=
  default (replicate (Z.to_nat page) 0) pg.

Lemma page_at_slot page s x :
  0 < page → slot_wf page s → js_is_empty s = false → js_all_zeros s = false →
  covers_block s x = true →
  page_at (js_bytes s) ((x - js_lba s) * page) page =
    Some (subspan (Z.to_nat ((x - js_lba s) * page)) (Z.to_nat page) (default [] (js_bytes s))).
Proof.
  intros Hp [He|(H0 & H1 & H2 & Hb)] Hne Hz Hc; [congruence|]. rewrite Hz in Hb.
  destruct Hb as (b & Hb & Hlen). apply covers_block_iff in Hc; [|done..].
  unfold page_at. rewrite Hb. simpl. rewrite decide_True; [done|]. nia.
Qed.

Lemma winner_page_spec r H x :
  replica_inv r → commit_of r ≤ H →
  winner_page r H x = Some (image (page_size_ r) x (latest (journal_ r) (-1) H x)).
Proof.
  intros [] HH. rewrite (latest_split (journal_ r) (-1) (commit_of r) H x) by lia.
  unfold winner_page. rewrite highest_slot_latest, rv_index0.
  assert (0 < page_size_ r) as Hp by lia.
  pose proof (latest_spec (journal_ r) (commit_of r) H x) as Hu.
  destruct (latest (journal_ r) (commit_of r) H x) as [[d s]|]; simpl.
  - destruct Hu as (Hs & (_ & He & Hc)%version_iff & _).
    destruct (js_all_zeros s) eqn:Hz; [done|].
    rewrite page_at_slot by eauto. simpl. by destruct (all_zero _).
  - pose proof (latest_spec (journal_ r) (-1) (commit_of r) x) as Hl.
    destruct (latest (journal_ r) (-1) (commit_of r) x) as [[d s]|]; simpl; [|done].
    destruct Hl as (Hs & (_ & He & Hc)%version_iff & _).
    destruct (js_all_zeros s) eqn:Hz; [done|]. simpl.
    rewrite page_at_slot by eauto. simpl. by destruct (all_zero _).
Qed.

Lemma length_image page x o pg :
  0 < page → (match o with Some (d, s) => slot_wf page s ∧ js_is_empty s = false ∧ covers_block s x = true
              | None => True end) →
  image page x o = Some pg → length pg = Z.to_nat page.
Proof.
  intros Hp Ho Hi. destruct o as [[d s]|]; [|done]. destruct Ho as (Hw & He & Hc). simpl in Hi.
  destruct (js_all_zeros s) eqn:Hz; [done|]. destruct (all_zero _); [done|]. injection Hi as <-.
  destruct Hw as [|(H0 & H1 & H2 & Hb)]; [congruence|]. rewrite Hz in Hb.
  destruct Hb as (b & Hb & Hlen). apply covers_block_iff in Hc; [|done..]. rewrite Hb. simpl.
  unfold subspan. rewrite length_take, length_drop. nia.
Qed.

(** The specification of a read. *)
Definition read_image (r : MemCraftReplica) (H x : Z) : option (list Z) :=
  image (page_size_ r) x (latest (journal_ r) (-1) H x).
Definition is_hole (r : MemCraftReplica) (H x : Z) : bool :=
  match read_image r H x with None => true | Some _ => false end.

Lemma length_read_image r H x pg :
  replica_inv r → read_image r H x = Some pg → length pg = Z.to_nat (page_size_ r).
Proof.
  intros [] Hi. eapply length_image; [|  |exact Hi]; [lia|].
  pose proof (latest_spec (journal_ r) (-1) H x) as Hl.
  destruct (latest (journal_ r) (-1) H x) as [[d s]|]; [|done].
  destruct Hl as (Hs & (_ & He & Hc)%version_iff & _). eauto.
Qed.

Lemma length_blocks r H xs :
  replica_inv r →
  length (xs ≫= λ x, block_bytes (page_size_ r) (read_image r H x)) =
    (length xs * Z.to_nat (page_size_ r))%nat.
Proof.
  intros I. induction xs as [|y l IH]; [done|]. rewrite bind_cons, length_app, IH. simpl. f_equal.
  destruct (read_image r H y) as [pg|] eqn:Hy; simpl; [by eapply length_read_image|].
  apply length_replicate.
Qed.

Lemma read_loop_spec r H xs c layout :
  replica_inv r → commit_of r ≤ H → cursor_ok c →
  (cursor_pos c + length xs * Z.to_nat (page_size_ r) ≤ length (concat (cu_iovs c)))%nat →
  ∃ c', read_loop r H xs c layout =
      Some (c', foldl (λ l x, add_extent l (u64 (x * page_size_ r)) (page_size_ r) (is_hole r H x)) layout xs) ∧
    concat (cu_iovs c') = write_at (cursor_pos c)
      (xs ≫= λ x, block_bytes (page_size_ r) (read_image r H x)) (concat (cu_iovs c)).
Proof.
  intros I HH. revert c layout. induction xs as [|x xs IH]; intros c layout Hok Hpos; simpl.
  { exists c. split; [done|]. by rewrite write_at_nil. }
  rewrite winner_page_spec by done. simpl. fold (read_image r H x).
  set (p := read_image r H x). set (n := Z.to_nat (page_size_ r)) in *. simpl in Hpos.
  assert (match p with Some s => n ≤ length s | None => True end)%nat as Hsrc.
  { destruct p as [pg|] eqn:Hp; [|done]. rewrite (length_read_image r H x pg); done. }
  destruct (sg_write_loop_spec (n + length (cu_iovs c)) p n c) as (Hok1 & Hpos1 & Hlen1 & Hflat1);
    [done|lia|lia|done|].
  fold (sg_write p n c) in Hok1, Hpos1, Hlen1, Hflat1.
  assert (chunk n p = block_bytes (page_size_ r) p) as Hch.
  { destruct p as [pg|] eqn:Hp; [|done]. simpl. apply take_ge.
    rewrite (length_read_image r H x pg); done. }
  assert (length (block_bytes (page_size_ r) p) = n) as Hbl by (rewrite <-Hch; by apply length_chunk).
  assert (length (concat (cu_iovs (sg_write p n c))) = length (concat (cu_iovs c))) as Htot
    by (rewrite Hflat1; apply write_at_length; rewrite Hch, Hbl; lia).
  destruct (IH (sg_write p n c)
              (add_extent layout (u64 (x * page_size_ r)) (page_size_ r) (is_hole r H x))) as (c' & Hr & Hf);
    [done|lia|].
  exists c'. split; [exact Hr|]. rewrite Hf, Hflat1, Hpos1, Hch. rewrite <-Hbl at 1. apply write_at_app.
  rewrite Hbl, length_blocks by done. lia.
Qed.

(** *** The returned layout *)

(** The extents cover the blocks [a..e) in order; each is a maximal run of blocks of one
    kind. *)
Fixpoint layout_tiles (page : Z) (hole : Z → bool) (a e : Z) (l : list io_extent) : Prop :=
  match l with
  | [] => a = e
  | x :: l => ∃ m, a < m ≤ e ∧ ie_addr x = a * page ∧ ie_len x = (m - a) * page ∧
      (∀ i, a ≤ i < m → hole i = ie_hole x) ∧
      match l with y :: _ => ie_hole y ≠ ie_hole x | [] => True end ∧
      layout_tiles page hole m e l
  end.

Lemma add_extent_cons x y l a page h :
  add_extent (x :: y :: l) a page h = x :: add_extent (y :: l) a page h.
Proof.
  unfold add_extent. rewrite last_cons_cons. destruct (last (y :: l)) as [z|] eqn:Hl.
  - simpl. destruct (_ && _); [|done]. simpl. by rewrite Nat.sub_0_r.
  - by apply last_None in Hl.
Qed.

Lemma layout_tiles_snoc page hole l : ∀ a e,
  0 < page → 0 ≤ a ≤ e → (e + 1) * page < 2 ^ 64 →
  layout_tiles page hole a e l →
  layout_tiles page hole a (e + 1) (add_extent l (u64 (e * page)) page (hole e)) ∧
  match l with x :: _ => match add_extent l (u64 (e * page)) page (hole e) with
                         | y :: _ => ie_hole y = ie_hole x | [] => False end
  | [] => True end.
Proof.
  intros a e Hp Hae Hw Ht.
  assert (u64 (e * page) = e * page) as He64 by (apply wrap_small; unfold in_u; nia).
  rewrite He64. revert a Hae Ht. induction l as [|x l IH]; intros a Hae Ht.
  { simpl in Ht. subst a. simpl. split; [|done]. exists (e + 1). split_and!; try done; try lia.
    intros i Hi. by replace i with e by lia. }
  destruct Ht as (m & Hm & Ha & Hl & Hh & Hadj & Ht). destruct l as [|y l].
  - simpl in Ht. subst m. unfold add_extent. simpl. rewrite Ha, Hl.
    assert (u64 (a * page + (e - a) * page) = e * page) as ->
      by (unfold u64; rewrite wrap_small; unfold in_u; nia).
    rewrite Z.eqb_refl, andb_true_r. destruct (bool_decide_reflect (ie_hole x = hole e)) as [Heq|Hne].
    + simpl. split; [|done]. exists (e + 1). split_and!; try done; try lia.
      * unfold u64. rewrite wrap_small; [lia|unfold in_u; nia].
      * intros i Hi. destruct (decide (i = e)) as [->|]; [done|]. apply Hh. lia.
    + simpl. split; [|done]. exists e. split_and!; try done; try lia.
      exists (e + 1). split_and!; simpl; try done; try lia.
      intros i Hi. by replace i with e by lia.
  - destruct (IH m) as [IH1 IH2]; [lia|done|]. rewrite add_extent_cons. split; [|done].
    exists m. split_and!; try done; try lia.
    destruct (add_extent (y :: l) _ _ _); [done|]. by rewrite IH2.
Qed.

Lemma layout_tiles_fold page hole n : ∀ a e l,
  0 < page → 0 ≤ a ≤ e → (e + Z.of_nat n) * page < 2 ^ 64 →
  layout_tiles page hole a e l →
  layout_tiles page hole a (e + Z.of_nat n)
    (foldl (λ l x, add_extent l (u64 (x * page)) page (hole x)) l (range e (e + Z.of_nat n - 1))).
Proof.
  induction n as [|n IH]; intros a e l Hp Hae Hw Ht.
  { rewrite range_nil by lia. simpl. by rewrite Z.add_0_r. }
  rewrite range_cons by lia. simpl.
  destruct (layout_tiles_snoc page hole l a e Hp Hae) as [Ht1 _]; [nia|done|].
  replace (e + Z.of_nat (S n)) with (e + 1 + Z.of_nat n) in * by lia.
  apply IH; [done|lia|nia|done].
Qed.

(** ** The cores keep the invariant *)

Lemma write_slot_wf r hdr addr len bytes :
  2 ≤ page_size_ r < 2 ^ 32 → in_u 64 addr → in_u 64 len →
  (match bytes with Some b => Z.of_nat (length b) = len | None => True end) →
  slot_wf (page_size_ r) (write_slot r hdr addr len bytes).
Proof.
  intros Hp Ha Hl Hb. unfold in_u in *. right. unfold write_slot. simpl.
  assert (0 ≤ addr `div` page_size_ r < 2 ^ 63).
  { split; [apply Z.div_pos; lia|]. apply Z.div_lt_upper_bound; lia. }
  pose proof (wrap_in_u 32 (len `div` page_size_ r) ltac:(lia)) as Hu. unfold in_u in Hu.
  fold (u32 (len `div` page_size_ r)) in Hu. split_and!; try lia.
  destruct bytes as [b|]; [|done]. exists b. split; [done|]. rewrite Hb.
  assert (u32 (len `div` page_size_ r) ≤ len `div` page_size_ r).
  { unfold u32, wrap. apply Z.mod_le; [apply Z.div_pos|]; lia. }
  pose proof (Z.mul_div_le len (page_size_ r) ltac:(lia)). nia.
Qed.

(** A client writes a dLSN above the frontier, or repeats a write that is already there. *)
Definition fresh_write (r : MemCraftReplica) (hdr : client_hdr) (dlsn addr len : Z)
    (bytes : option (list Z)) : Prop :=
  commit_of r < dlsn ∨ journal_ r !! dlsn = Some (write_slot r hdr addr len bytes).

Lemma insert_above_inv r d s :
  replica_inv r → slot_wf (page_size_ r) s → commit_of r < d ∨ d < 0 ∨ slot_same (journal_ r !! d) (Some s) →
  replica_inv (set_append (set_journal r (<[d := s]> (journal_ r))) (Z.max (append_of r) d)).
Proof.
  intros I Hs Hd. pose proof I as []. apply journal_change_inv; try done.
  - intros i Hi. rewrite lookup_insert. case_decide; [|done]. subst.
    destruct Hd as [|[|Hd]]; [lia|lia|by symmetry].
  - intros i si. rewrite lookup_insert. case_decide; [by intros [= <-]|apply rv_slots0].
  - intros i. rewrite lookup_insert. case_decide; [lia|]. intros Hi. specialize (rv_append0 i Hi). lia.
  - lia.
Qed.

Lemma do_write_inv r hdr dlsn addr len bytes :
  replica_inv r → in_u 64 addr → in_u 64 len → fresh_write r hdr dlsn addr len bytes →
  replica_inv (do_write r hdr dlsn addr len bytes).2.
Proof.
  intros I Ha Hl Hf. unfold do_write. destruct (misaligned r addr len); [done|].
  destruct (match bytes with Some b => _ | None => _ end) eqn:Hb; [done|].
  destruct (negb _); [done|]. destruct (match journal_ r !! dlsn with Some s => _ | None => _ end); [done|].
  cbn [snd]. apply apply_up_to_spec.
  apply (insert_above_inv r dlsn (write_slot r hdr addr len bytes)); [done| |].
  - apply write_slot_wf; try done; [apply I|]. destruct bytes; [|done].
    apply negb_false_iff, Z.eqb_eq in Hb. done.
  - destruct Hf as [|Hf]; [by left|]. right. right. by rewrite Hf.
Qed.

Lemma count_read_inv r : replica_inv r → replica_inv (count_read r).
Proof. by intros []; split. Qed.
Lemma count_keepalive_inv r : replica_inv r → replica_inv (count_keepalive r).
Proof. by intros []; split. Qed.
Lemma mutate_faults_inv f r : replica_inv r → replica_inv (mutate_faults f r).
Proof. by intros []; split. Qed.
Lemma cold_apply_login_inv tok term r : replica_inv r → replica_inv (cold_apply_login tok term r).
Proof. by intros []; split. Qed.
Lemma cold_apply_logout_inv r : replica_inv r → replica_inv (cold_apply_logout r).
Proof. by intros []; split. Qed.

Lemma do_truncate_inv r lsn : replica_inv r → commit_of r ≤ lsn → replica_inv (do_truncate r lsn).
Proof.
  intros I Hl. pose proof I as []. unfold do_truncate, erase_above.
  assert (∀ d s, filter (λ p : Z * MemJournalSlot, p.1 ≤ lsn) (journal_ r) !! d = Some s ↔
            journal_ r !! d = Some s ∧ d ≤ lsn) as Hf by (intros; apply map_lookup_filter_Some).
  apply journal_change_inv; try done.
  - intros d Hd. destruct (journal_ r !! d) as [s|] eqn:Hs; [left; apply Hf; split; [done|lia]|].
    destruct (rv_prefix0 d Hd). congruence.
  - intros d s [Hs _]%Hf. eauto.
  - intros d [s [Hs Hle]%Hf]. assert (d ≤ append_of r) by eauto. lia.
  - lia.
Qed.

Lemma cold_install_slot_inv d s r :
  replica_inv r → slot_wf (page_size_ r) s → replica_inv (cold_install_slot d s r).
Proof.
  intros I Hs. unfold cold_install_slot. case_decide as Hd; [done|]. apply insert_above_inv; [done..|].
  destruct (decide (d ≤ commit_of r)); [|left; lia]. destruct (decide (d < 0)); [by right; left|].
  destruct Hd. apply (rv_prefix r I). lia.
Qed.

Lemma empty_slot_wf page term : slot_wf page (empty_slot term).
Proof. by left. Qed.

(** An Empty verdict, on a slot above the frontier or already Empty. *)
Definition voided (r : MemCraftReplica) (d : Z) : Prop :=
  ∃ s, journal_ r !! d = Some s ∧ js_is_empty s = true.

Lemma voided_same r d term : voided r d → slot_same (journal_ r !! d) (Some (empty_slot term)).
Proof. intros (s & -> & He). right. by exists s, (empty_slot term). Qed.

Lemma cold_mark_empty_inv d r :
  replica_inv r → commit_of r < d ∨ voided r d → replica_inv (cold_mark_empty d r).
Proof.
  intros I Hd. apply insert_above_inv; [done|apply empty_slot_wf|].
  destruct Hd; [by left|]. right. right. by apply voided_same.
Qed.

(** The loop of [do_resolve_local] tombstones the holes and reports every Empty slot. *)
Definition hole_or_empty (j : gmap Z MemJournalSlot) (d : Z) : bool :=
  match j !! d with None => true | Some s => js_is_empty s end.

Lemma resolve_local_loop term l j out :
  NoDup l →
  foldl (resolve_local_step term) (j, out) l =
    (foldl (λ j d, if decide (is_Some (j !! d)) then j else <[d := empty_slot term]> j) j l,
     out ++ filter (λ d, hole_or_empty j d = true) l).
Proof.
  intros Hnd. revert j out. induction Hnd as [|d l Hd _ IH]; intros j out; simpl.
  { by rewrite app_nil_r. }
  rewrite filter_cons.
  assert (hole_or_empty j d = match j !! d with Some s => js_is_empty s | None => true end) as Hh by done.
  destruct (j !! d) as [s|] eqn:Hs.
  - rewrite (decide_True (P := is_Some (Some s))) by eauto.
    destruct (js_is_empty s) eqn:He.
    + rewrite IH, decide_True by done. by rewrite <-(assoc_L (++)).
    + rewrite IH, decide_False by (rewrite Hh; done). done.
  - rewrite IH, (decide_False (P := is_Some None)) by (intros [? [=]]).
    rewrite decide_True by done. rewrite <-(assoc_L (++)). simpl. do 3 f_equal. apply list_filter_ext_in.
    intros x Hx. unfold hole_or_empty. rewrite lookup_insert_ne by (intros ->; done). done.
Qed.

Lemma lookup_tombstones term l (j : gmap Z MemJournalSlot) d :
  foldl (λ j d, if decide (is_Some (j !! d)) then j else <[d := empty_slot term]> j) j l !! d =
    match j !! d with
    | Some s => Some s
    | None => if decide (d ∈ l) then Some (empty_slot term) else None
    end.
Proof.
  revert j. induction l as [|e l IH]; intros j; simpl.
  { by destruct (j !! d). }
  rewrite IH. destruct (decide (is_Some (j !! e))) as [[s He]|He].
  - destruct (j !! d) as [s'|] eqn:Hd; [done|].
    destruct (decide (d ∈ l)); [by rewrite decide_True by (by right)|].
    rewrite decide_False; [done|]. rewrite elem_of_cons. intros [->|]; congruence.
  - rewrite lookup_insert. destruct (decide (e = d)) as [->|Hne].
    + destruct (j !! d) eqn:Hd; [destruct He; eauto|]. by rewrite decide_True by left.
    + destruct (j !! d) as [s'|] eqn:Hd; [done|].
      destruct (decide (d ∈ l)); [by rewrite decide_True by (by right)|].
      rewrite decide_False; [done|]. rewrite elem_of_cons. intros [->|]; congruence.
Qed.

Lemma do_resolve_local_aux r hdr upto :
  replica_inv r → ch_term hdr = term_of r →
  ∃ r', do_resolve_local r hdr upto =
      (Ok (Mk_resolution_result upto
             (filter (λ d, hole_or_empty (journal_ r) d = true) (range (commit_of r + 1) upto))), r') ∧
    replica_inv r' ∧ commit_of r' = Z.max (commit_of r) upto ∧ term_of r' = term_of r ∧
    page_size_ r' = page_size_ r ∧
    ∀ d, journal_ r' !! d =
      match journal_ r !! d with
      | Some s => Some s
      | None => if decide (commit_of r < d ≤ upto) then Some (empty_slot (term_of r)) else None
      end.
Proof.
  intros I Ht. pose proof I as []. unfold do_resolve_local.
  rewrite Ht, Z.eqb_refl. simpl. rewrite resolve_local_loop by apply NoDup_range.
  rewrite app_nil_l. set (j := foldl _ (journal_ r) _).
  assert (∀ d, j !! d = match journal_ r !! d with Some s => Some s
     | None => if decide (commit_of r < d ≤ upto) then Some (empty_slot (term_of r)) else None end) as Hj.
  { intros d. unfold j. rewrite lookup_tombstones. destruct (journal_ r !! d); [done|].
    destruct (decide (d ∈ _)) as [Hin|Hin]; rewrite elem_of_range in Hin.
    - by rewrite decide_True by lia.
    - by rewrite decide_False by lia. }
  set (r1 := set_append (set_journal r j) (Z.max (append_of r) upto)).
  assert (replica_inv r1) as I1.
  { apply journal_change_inv; try done; [| | |lia].
    - intros d Hd. left. rewrite Hj. destruct (rv_prefix0 d Hd) as [s ->]. done.
    - intros d s Hs. rewrite Hj in Hs. destruct (journal_ r !! d) as [s'|] eqn:Hd.
      + injection Hs as <-. eauto.
      + case_decide; [|done]. injection Hs as <-. apply empty_slot_wf.
    - intros d [s Hs]. rewrite Hj in Hs. destruct (journal_ r !! d) as [s'|] eqn:Hd.
      + assert (d ≤ append_of r) by eauto. lia.
      + case_decide; [lia|done]. }
  destruct (apply_up_to_spec upto r1 I1) as (I2 & Hsame & Hc & Hstop).
  exists (apply_up_to upto r1). unfold same_but_applied in Hsame. destruct_and! Hsame.
  change (commit_of r1) with (commit_of r) in Hc. change (journal_ r1) with j in *.
  split_and!; try done.
  - destruct (decide (commit_of (apply_up_to upto r1) < upto)) as [Hlt|]; [|lia].
    specialize (Hstop Hlt). rewrite Hj in Hstop.
    destruct (journal_ r !! _); [done|]. rewrite decide_True in Hstop by lia. done.
  - intros d. by rewrite <-Hj; f_equal.
Qed.
