(* ===== verification/ReplicaRun.v ===== *)
(** * Runs of a replica

    The replica's operations as one alphabet, the conditions under which the rest of the
    system calls them, and what holds along every such run: the invariant, the exactness of
    reads, term fencing and local resolution.  [ReplicaApplied] has the runs without those
    conditions. *)

From S2P Require Import Prelude Codec WireTypes Wire Types Replica ReplicaSpec.

Local Open Scope craft_scope.
Local Open Scope Z_scope.

(** ** Operations *)

Inductive replica_op :=
| op_write (hdr : client_hdr) (dlsn addr len : Z) (bytes : option (list Z))
| op_read (hdr : client_hdr) (read_lsn addr len : Z) (dest : sg_list)
| op_keep_alive (hdr : client_hdr)
| op_resolve_local (hdr : client_hdr) (upto : Z)
| op_truncate (lsn : Z)
| op_sync (upto : Z)
| op_login (client_token term : Z)
| op_logout
| op_install (dlsn : Z) (s : MemJournalSlot)
| op_mark_empty (dlsn : Z)
| op_faults (f : replica_faults → replica_faults).

Definition replica_exec (r : MemCraftReplica) (op : replica_op) : MemCraftReplica :=
  match op with
  | op_write hdr dlsn addr len bytes => (do_write r hdr dlsn addr len bytes).2
  | op_read hdr read_lsn addr len dest =>
      match do_read r hdr read_lsn addr len dest with Some (_, r) => r | None => r end
  | op_keep_alive hdr => (do_keep_alive r hdr).2
  | op_resolve_local hdr upto => (do_resolve_local r hdr upto).2
  | op_truncate lsn => cold_truncate_above lsn r
  | op_sync upto => cold_apply_sync upto r
  | op_login tok term => cold_apply_login tok term r
  | op_logout => cold_apply_logout r
  | op_install d s => cold_install_slot d s r
  | op_mark_empty d => cold_mark_empty d r
  | op_faults f => mutate_faults f r
  end.

(** What the callers guarantee: arguments at their widths, no write, Empty verdict or
    truncation below the frontier, and only well-formed slots installed from peers. *)
Definition op_ok (r : MemCraftReplica) (op : replica_op) : Prop :=
  match op with
  | op_write hdr dlsn addr len bytes => in_u 64 addr ∧ in_u 64 len ∧ fresh_write r hdr dlsn addr len bytes
  | op_truncate lsn => commit_of r ≤ lsn
  | op_install _ s => slot_wf (page_size_ r) s
  | op_mark_empty d => commit_of r < d ∨ voided r d
  | _ => True
  end.

Inductive replica_steps : MemCraftReplica → list replica_op → MemCraftReplica → Prop :=
| steps_nil r : replica_steps r [] r
| steps_cons r op ops r' :
    op_ok r op → replica_steps (replica_exec r op) ops r' → replica_steps r (op :: ops) r'.

Lemma do_read_state r hdr H addr len dest p :
  do_read r hdr H addr len dest = Some p →
  p.2 = r ∨ p.2 = count_read (apply_up_to (ch_commit_lsn hdr) r).
Proof.
  unfold do_read. repeat case_match; try (intros [= <-]; by left).
  destruct (read_range _ _ _ _ _) as [[]|]; simpl; [|done]. intros [= <-]. by right.
Qed.

Lemma replica_exec_inv r op : replica_inv r → op_ok r op → replica_inv (replica_exec r op).
Proof.
  intros I Hok. destruct op; simpl in *.
  - destruct Hok as (? & ? & ?). by apply do_write_inv.
  - destruct (do_read _ _ _ _ _ _) as [[res r1]|] eqn:Hr; [|done].
    apply do_read_state in Hr as [Hr|Hr]; simpl in Hr; subst r1; [done|]. by apply count_read_inv, apply_up_to_spec.
  - unfold do_keep_alive. destruct (negb _); [done|]. by apply apply_up_to_spec, count_keepalive_inv.
  - destruct (decide (ch_term hdr = term_of r)) as [Ht|Ht].
    + destruct (do_resolve_local_aux r hdr upto I Ht) as (r' & -> & ? & _). done.
    + unfold do_resolve_local. by rewrite (proj2 (Z.eqb_neq _ _) Ht).
  - by apply do_truncate_inv.
  - by apply apply_up_to_spec.
  - by apply cold_apply_login_inv.
  - by apply cold_apply_logout_inv.
  - by apply cold_install_slot_inv.
  - by apply cold_mark_empty_inv.
  - by apply mutate_faults_inv.
Qed.

Lemma replica_steps_inv r ops r' : replica_inv r → replica_steps r ops r' → replica_inv r'.
Proof. intros I Hs. induction Hs; [done|]. apply IHHs. by apply replica_exec_inv. Qed.

(** ** What is committed stays *)

(** [r'] keeps everything [r] has committed. *)
Definition keeps_committed (r r' : MemCraftReplica) : Prop :=
  commit_of r ≤ commit_of r' ∧ page_size_ r' = page_size_ r ∧
  ∀ d, 0 ≤ d ≤ commit_of r → slot_same (journal_ r' !! d) (journal_ r !! d).

#[global] Instance keeps_committed_preorder : PreOrder keeps_committed.
Proof.
  split; [done|]. intros r1 r2 r3 (H1 & P1 & J1) (H2 & P2 & J2). split_and!; [lia|congruence|].
  intros d Hd. rewrite (J2 d) by lia. apply J1. lia.
Qed.

Lemma apply_keeps t r : replica_inv r → keeps_committed r (apply_up_to t r).
Proof.
  intros I. destruct (apply_up_to_spec t r I) as (_ & Hs & Hc & _).
  unfold same_but_applied in Hs. destruct_and! Hs. split_and!; [lia|done|]. intros. left. by f_equal.
Qed.

Lemma insert_keeps r d s :
  commit_of r < d ∨ d < 0 ∨ slot_same (journal_ r !! d) (Some s) →
  keeps_committed r (set_append (set_journal r (<[d := s]> (journal_ r))) (Z.max (append_of r) d)).
Proof.
  intros Hd. split_and!; [done|done|]. intros i Hi. simpl. rewrite lookup_insert.
  case_decide; [|done]. subst. destruct Hd as [|[|Hd]]; [lia|lia|by symmetry].
Qed.

Lemma do_write_keeps r hdr dlsn addr len bytes :
  replica_inv r → in_u 64 addr → in_u 64 len → fresh_write r hdr dlsn addr len bytes →
  keeps_committed r (do_write r hdr dlsn addr len bytes).2.
Proof.
  intros I Ha Hl Hf. unfold do_write. destruct (misaligned r addr len); [done|].
  destruct (match bytes with Some b => _ | None => _ end) eqn:Hb; [done|].
  destruct (negb _); [done|].
  destruct (match journal_ r !! dlsn with Some s => _ | None => _ end); [done|]. cbn [snd].
  set (s := write_slot r hdr addr len bytes).
  assert (commit_of r < dlsn ∨ dlsn < 0 ∨ slot_same (journal_ r !! dlsn) (Some s)) as Hd
    by (destruct Hf as [|Hf]; [by left|right; right; by rewrite Hf]).
  trans (set_append (set_journal r (<[dlsn := s]> (journal_ r))) (Z.max (append_of r) dlsn)).
  - by apply insert_keeps.
  - apply (apply_keeps (ch_commit_lsn hdr)). apply (insert_above_inv r dlsn s); [done| |done].
    apply write_slot_wf; try done; [apply I|]. destruct bytes; [|done].
    by apply negb_false_iff, Z.eqb_eq in Hb.
Qed.

Lemma replica_exec_keeps r op : replica_inv r → op_ok r op → keeps_committed r (replica_exec r op).
Proof.
  intros I Hok. destruct op; simpl in *; try done.
  - destruct Hok as (? & ? & ?). by apply do_write_keeps.
  - destruct (do_read _ _ _ _ _ _) as [[res r1]|] eqn:Hr; [|done].
    apply do_read_state in Hr as [Hr|Hr]; simpl in Hr; subst r1; [done|]. by apply apply_keeps.
  - unfold do_keep_alive. destruct (negb _); [done|].
    apply (apply_keeps (ch_commit_lsn hdr) (count_keepalive r)), count_keepalive_inv. done.
  - destruct (decide (ch_term hdr = term_of r)) as [Ht|Ht].
    + destruct (do_resolve_local_aux r hdr upto I Ht) as (r' & -> & _ & Hc & _ & Hp & Hj).
      split_and!; simpl; [lia|done|]. intros d Hd. left. rewrite Hj.
      by destruct (rv_prefix r I d Hd) as [s ->].
    + unfold do_resolve_local. by rewrite (proj2 (Z.eqb_neq _ _) Ht).
  - split_and!; [done|done|]. intros d Hd. left. simpl. unfold erase_above. rewrite map_lookup_filter.
    destruct (rv_prefix r I d Hd) as [s ->]. simpl. by rewrite option_guard_True by (simpl; lia).
  - by apply apply_keeps.
  - unfold cold_install_slot. case_decide as Hd; [done|]. apply insert_keeps.
    destruct (decide (dlsn < 0)); [by right; left|]. left.
    destruct (decide (commit_of r < dlsn)); [done|]. destruct Hd. apply (rv_prefix r I). lia.
  - apply insert_keeps. destruct Hok; [by left|]. right. right. by apply voided_same.
Qed.

Lemma replica_steps_keeps r ops r' :
  replica_inv r → replica_steps r ops r' → keeps_committed r r'.
Proof.
  intros I Hs. induction Hs as [|r op ops r' Hok _ IH]; [done|].
  trans (replica_exec r op); [by apply replica_exec_keeps|]. by apply IH, replica_exec_inv.
Qed.

(** ** Local lemmas of the properties *)

Lemma read_image_keeps r r' H x :
  keeps_committed r r' → H ≤ commit_of r → read_image r' H x = read_image r H x.
Proof.
  intros (Hc & Hp & Hj) HH. unfold read_image. rewrite Hp. f_equal. apply latest_same.
  intros d Hd. apply Hj. lia.
Qed.

Lemma layout_ext page (h h' : Z → bool) xs out :
  (∀ x, h x = h' x) →
  foldl (λ l x, add_extent l (u64 (x * page)) page (h x)) out xs =
  foldl (λ l x, add_extent l (u64 (x * page)) page (h' x)) out xs.
Proof. intros Hh. revert out. induction xs; intros out; simpl; [done|]. by rewrite Hh. Qed.

(** The page of one block in the concatenation of the blocks of a range. *)
Lemma subspan_blocks_app (f : Z → list Z) page a e x rest :
  (∀ y, length (f y) = Z.to_nat page) → 0 ≤ page → a ≤ x < e →
  subspan (Z.to_nat ((x - a) * page)) (Z.to_nat page) ((range a (e - 1) ≫= f) ++ rest) = f x.
Proof.
  intros Hf Hp Hx. rewrite (range_app a (x - 1) (e - 1)) by lia. replace (x - 1 + 1) with x by lia.
  rewrite (range_cons x (e - 1)) by lia. rewrite bind_app, bind_cons, <-!app_assoc.
  assert (∀ l, length (l ≫= f) = (length l * Z.to_nat page)%nat) as Hlen.
  { induction l as [|y l IH]; [done|]. rewrite bind_cons, length_app, IH, Hf. simpl. lia. }
  unfold subspan. rewrite drop_app_length' by (rewrite Hlen, length_range; nia).
  by rewrite take_app_length' by (symmetry; apply Hf).
Qed.

Lemma subspan_blocks (f : Z → list Z) page a e x :
  (∀ y, length (f y) = Z.to_nat page) → 0 ≤ page → a ≤ x < e →
  subspan (Z.to_nat ((x - a) * page)) (Z.to_nat page) (range a (e - 1) ≫= f) = f x.
Proof. intros. rewrite <-(app_nil_r (_ ≫= f)). by apply subspan_blocks_app. Qed.

Lemma length_block r H x : replica_inv r → length (block_bytes (page_size_ r) (read_image r H x)) = Z.to_nat (page_size_ r).
Proof.
  intros I. unfold block_bytes. destruct (read_image r H x) as [pg|] eqn:Hp; [by eapply length_read_image|apply length_replicate].
Qed.

(** The layout of a read of [n] blocks from [a]. *)
Definition read_layout (r : MemCraftReplica) (H a n : Z) : list io_extent :=
  foldl (λ l x, add_extent l (u64 (x * page_size_ r)) (page_size_ r) (is_hole r H x)) [] (range a (a + n - 1)).

(** An aligned range splits into whole blocks. *)
Lemma aligned_blocks r addr len :
  2 ≤ page_size_ r → misaligned r addr len = false → 0 ≤ addr → 0 < len →
  let a := addr `div` page_size_ r in
  let n := len `div` page_size_ r in
  addr = a * page_size_ r ∧ len = n * page_size_ r ∧ 0 ≤ a ∧ 0 < n.
Proof.
  intros Hp Hal Ha Hl a n. unfold misaligned in Hal. rewrite !orb_false_iff, !negb_false_iff, !Z.eqb_eq in Hal.
  destruct Hal as [[Ham Hlm] _].
  assert (addr = a * page_size_ r) by (pose proof (Z.div_mod addr (page_size_ r)); unfold a; lia).
  assert (len = n * page_size_ r) by (pose proof (Z.div_mod len (page_size_ r)); unfold n; lia).
  split_and!; nia.
Qed.

(** The loop over the blocks of an aligned range. *)
Lemma read_range_spec r H addr len dest :
  let page := page_size_ r in
  let a := addr `div` page in
  let n := len `div` page in
  replica_inv r → misaligned r addr len = false → 0 ≤ addr → 0 < len → addr + len < 2 ^ 64 → n < 2 ^ 32 →
  len ≤ Z.of_nat (length (concat (sg_iovs dest))) → commit_of r ≤ H →
  ∃ iovs,
    read_range r H addr len dest = Some (Mk_sg (sg_size dest) iovs, read_layout r H a n) ∧
    concat iovs = (range a (a + n - 1) ≫= λ x, block_bytes page (read_image r H x)) ++
                  drop (Z.to_nat len) (concat (sg_iovs dest)) ∧
    layout_tiles page (is_hole r H) a (a + n) (read_layout r H a n).
Proof.
  intros page a n I Hal Ha Hl Hw Hn Hdst Hc. pose proof (rv_page r I) as Hpg. fold page in Hpg.
  destruct (aligned_blocks r addr len) as (Haddr & Hlen & Ha0 & Hn0); try done; [lia|]. fold page a n in Haddr, Hlen, Ha0, Hn0.
  destruct (read_loop_spec r H (range a (a + n - 1)) (Mk_cursor 0 0 (sg_iovs dest)) [])
    as (c' & Hrd & Hflat); [done|done| | |].
  { unfold cursor_ok. simpl. destruct (sg_iovs dest); simpl; [done|by right]. }
  { rewrite length_range. unfold cursor_pos. simpl. fold page. nia. }
  exists (cu_iovs c'). unfold read_layout. fold page. split_and!.
  - unfold read_range. fold page a n. assert (u32 n = n) as -> by (apply wrap_small; unfold in_u; lia). by rewrite Hrd.
  - rewrite Hflat. unfold write_at. rewrite length_blocks, length_range by done. unfold cursor_pos. simpl.
    f_equal; f_equal; fold page; nia.
  - pose proof (layout_tiles_fold page (is_hole r H) (Z.to_nat n) a a []) as Ht'.
    rewrite Z2Nat.id in Ht' by lia. apply Ht'; done || nia.
Qed.

(** A read at a current term, with its final state. *)
Lemma do_read_aux r hdr H addr len dest :
  let page := page_size_ r in
  let a := addr `div` page in
  let n := len `div` page in
  replica_inv r → ch_term hdr = term_of r →
  misaligned r addr len = false → 0 ≤ addr → 0 < len → addr + len < 2 ^ 64 → n < 2 ^ 32 →
  len ≤ sg_size dest → len ≤ Z.of_nat (length (concat (sg_iovs dest))) →
  commit_of (apply_up_to (ch_commit_lsn hdr) r) ≤ H →
  ∃ iovs,
    let r' := count_read (apply_up_to (ch_commit_lsn hdr) r) in
    do_read r hdr H addr len dest =
      Some (Ok (Mk_read_result (read_layout r H a n) (lsns_of r'), Mk_sg (sg_size dest) iovs), r') ∧
    concat iovs = (range a (a + n - 1) ≫= λ x, block_bytes page (read_image r H x)) ++
                  drop (Z.to_nat len) (concat (sg_iovs dest)) ∧
    layout_tiles page (is_hole r H) a (a + n) (read_layout r H a n).
Proof.
  intros page a n I Ht Hal Ha Hl Hw Hn Hsz Hdst Hc.
  set (r' := count_read (apply_up_to (ch_commit_lsn hdr) r)).
  destruct (apply_up_to_spec (ch_commit_lsn hdr) r I) as (I' & Hs & _).
  unfold same_but_applied in Hs. destruct_and! Hs.
  assert (replica_inv r') as Ir' by by apply count_read_inv.
  assert (page_size_ r' = page) as Hp' by done. assert (journal_ r' = journal_ r) as Hj' by done.
  assert (∀ x, read_image r' H x = read_image r H x) as Him
    by (intros; unfold read_image; by rewrite Hp', Hj').
  assert (∀ x, is_hole r' H x = is_hole r H x) as Hho by (intros; unfold is_hole; by rewrite Him).
  assert (read_layout r' H a n = read_layout r H a n) as Hlay
    by (unfold read_layout; rewrite Hp'; by apply layout_ext).
  destruct (read_range_spec r' H addr len dest) as (iovs & Hrd & Hb & _); rewrite ?Hp'; try done.
  { unfold misaligned in *. by rewrite Hp'. }
  rewrite Hp' in Hrd, Hb. fold a n in Hrd, Hb. rewrite Hlay in Hrd. exists iovs. split_and!.
  - unfold do_read. rewrite Hal, (proj2 (Z.ltb_ge _ _)), Ht, (Z.eqb_refl (term_of r)) by lia. simpl. fold r'. by rewrite Hrd.
  - rewrite Hb. f_equal. apply list_bind_ext; [|done]. intros x. by rewrite Him.
  - pose proof (rv_page r I) as Hpg. destruct (aligned_blocks r addr len) as (Haddr & Hlen & Ha0 & Hn0); try done; [lia|].
    fold page a n in Haddr, Hlen, Ha0, Hn0, Hpg. pose proof (layout_tiles_fold page (is_hole r H) (Z.to_nat n) a a []) as Ht'.
    rewrite Z2Nat.id in Ht' by lia. apply Ht'; done || nia.
Qed.

(** At a horizon below the frontier a read returns what the frontier has. *)
Lemma highest_slot_max r x H : highest_slot_le r x (Z.max H (commit_of r)) = highest_slot_le r x H.
Proof.
  destruct (decide (commit_of r ≤ H)); [f_equal; lia|]. rewrite !highest_slot_latest. f_equal.
  rewrite !(latest_eq _ _ _ _ None); try done; intros d s _; destruct (version _ _ _ _) eqn:V; try done;
    apply version_iff in V; lia.
Qed.

Lemma read_loop_max r H xs c layout : read_loop r (Z.max H (commit_of r)) xs c layout = read_loop r H xs c layout.
Proof.
  revert c layout. induction xs as [|x xs IH]; intros c layout; simpl; [done|].
  assert (winner_page r (Z.max H (commit_of r)) x = winner_page r H x) as ->
    by (unfold winner_page; by rewrite highest_slot_max).
  destruct (winner_page r H x); simpl; [apply IH|done].
Qed.

Lemma do_read_any r hdr H addr len dest :
  let page := page_size_ r in
  let a := addr `div` page in
  let n := len `div` page in
  let H' := Z.max H (commit_of (apply_up_to (ch_commit_lsn hdr) r)) in
  replica_inv r → ch_term hdr = term_of r →
  misaligned r addr len = false → 0 ≤ addr → 0 < len → addr + len < 2 ^ 64 → n < 2 ^ 32 →
  len ≤ sg_size dest → len ≤ Z.of_nat (length (concat (sg_iovs dest))) →
  ∃ rr iovs r', do_read r hdr H addr len dest = Some (Ok (rr, Mk_sg (sg_size dest) iovs), r') ∧
    concat iovs = (range a (a + n - 1) ≫= λ x, block_bytes page (read_image r H' x)) ++
                  drop (Z.to_nat len) (concat (sg_iovs dest)).
Proof.
  intros page a n H' I Ht Hal Ha Hl Hw Hn Hsz Hdst.
  destruct (do_read_aux r hdr H' addr len dest) as (iovs & Hr & Hb & _); try done; [unfold H'; lia..|].
  assert (do_read r hdr H addr len dest = do_read r hdr H' addr len dest) as ->; [|by do 3 eexists].
  unfold do_read, read_range, H'. repeat (case_match; [done|]).
  by rewrite <-(read_loop_max (count_read (apply_up_to (ch_commit_lsn hdr) r)) H).
Qed.

(** *** A fresh entry *)

Lemma latest_insert_fresh j d s H x :
  0 ≤ d ≤ H → j !! d = None → latest j d H x = None → js_is_empty s = false →
  latest (<[d := s]> j) (-1) H x = if covers_block s x then Some (d, s) else latest j (-1) H x.
Proof.
  intros Hd Hj Hl He. rewrite !(latest_split _ (-1) d H) by lia.
  rewrite (latest_ext j) by (intros; apply lookup_insert_ne; lia). rewrite Hl.
  rewrite (latest_snoc _ _ d _ s) by (apply lookup_insert_eq || lia). rewrite He. simpl.
  destruct (covers_block s x); [done|].
  rewrite (latest_ext j) by (intros; apply lookup_insert_ne; lia).
  rewrite (latest_split j (-1) (d - 1) d) by lia.
  assert (latest j (d - 1) d x = None) as ->; [|done]. apply latest_eq. intros d' s' Hd'.
  destruct (version _ _ _ _) eqn:V; [|done]. apply version_iff in V as (? & _).
  assert (d' = d) by lia. congruence.
Qed.

(** The journal after an accepted write of a fresh dLSN. *)
Lemma do_write_fresh r hdr dlsn addr len bytes :
  replica_inv r → ch_term hdr = term_of r → misaligned r addr len = false →
  in_u 64 addr → in_u 64 len →
  match bytes with Some b => Z.of_nat (length b) = len | None => True end →
  commit_of r < dlsn → journal_ r !! dlsn = None →
  ∃ r', do_write r hdr dlsn addr len bytes = (Ok (lsns_of r'), r') ∧ replica_inv r' ∧
    page_size_ r' = page_size_ r ∧
    journal_ r' = <[dlsn := write_slot r hdr addr len bytes]> (journal_ r).
Proof.
  intros I Ht Hal Ha Hl Hb Hd Hnone. set (s := write_slot r hdr addr len bytes).
  set (r1 := set_append (set_journal r (<[dlsn := s]> (journal_ r))) (Z.max (append_of r) dlsn)).
  assert (replica_inv r1) as I1
    by (apply insert_above_inv; [done|apply write_slot_wf; try done; apply I|by left]).
  destruct (apply_up_to_spec (ch_commit_lsn hdr) r1 I1) as (I2 & (_ & Hp & Hj & _) & _).
  exists (apply_up_to (ch_commit_lsn hdr) r1). split_and!; [|done..].
  unfold do_write. rewrite Hal, Ht, Z.eqb_refl, Hnone.
  destruct bytes as [b|]; [|done]. rewrite (proj2 (Z.eqb_eq _ _) Hb). done.
Qed.

(** *** Gaps *)

Definition gaps (j : gmap Z MemJournalSlot) (lo hi : Z) : list Z :=
  filter (λ d, j !! d = None) (range lo hi).

Lemma gaps_none j lo hi :
  (∀ d, lo ≤ d ≤ hi → j !! d = None) → gaps j lo hi = range lo hi.
Proof.
  intros Hn. apply filter_all. intros x Hx%elem_of_range. auto.
Qed.

Lemma gaps_app j lo mid hi :
  lo ≤ mid + 1 → mid ≤ hi → gaps j lo hi = gaps j lo mid ++ gaps j (mid + 1) hi.
Proof. intros. unfold gaps. by rewrite (range_app lo mid hi), filter_app. Qed.

(** [es] lists the journal's keys in [lo..hi]. *)
Lemma missing_gaps_spec j es : ∀ lo hi sample,
  StronglySorted Z.lt es → (∀ d, d ∈ es ↔ lo ≤ d ≤ hi ∧ is_Some (j !! d)) →
  (length sample ≤ k_missing_sample)%nat →
  missing_gaps es lo hi sample = take k_missing_sample (sample ++ gaps j lo hi).
Proof.
  induction es as [|e es IH]; intros lo hi sample Hs He Hl; simpl.
  - rewrite gaps_none; [unfold sample_gap; by rewrite take_app, (take_ge sample) by done|].
    intros d Hd. destruct (j !! d) eqn:Hj; [|done].
    exfalso. apply (not_elem_of_nil d), He. eauto.
  - inversion Hs as [|? ? Hs' Hall]; subst. rewrite Forall_forall in Hall.
    destruct (proj1 (He e) ltac:(left)) as [Hr [s Hj]].
    destruct (decide (length sample < k_missing_sample)%nat) as [Hlt|Hge].
    2:{ rewrite take_app_le by lia. unfold sample_gap.
        replace (k_missing_sample - length sample)%nat with 0%nat by lia.
        rewrite take_0, app_nil_r, take_ge by lia. done. }
    assert (gaps j lo (e - 1) = range lo (e - 1)) as Hg.
    { apply gaps_none. intros d Hd. destruct (j !! d) eqn:Hjd; [|done].
      assert (d ∈ e :: es) as [->|Hin]%elem_of_cons by (apply He; split; [lia|eauto]); [lia|].
      specialize (Hall d Hin). lia. }
    assert (gaps j e e = []) as Hee.
    { unfold gaps. rewrite range_cons, range_nil by lia. rewrite filter_cons, decide_False; [done|congruence]. }
    rewrite (IH (e + 1) hi); [| done | |].
    + rewrite (gaps_app j lo (e - 1) hi), (gaps_app j (e - 1 + 1) e hi), Hg by lia.
      replace (e - 1 + 1) with e by lia. rewrite Hee. simpl. unfold sample_gap.
      rewrite !(assoc_L (++)). rewrite !take_app, !length_app, length_take.
      rewrite !(take_ge sample) by lia. rewrite take_take, !length_range.
      f_equal; [f_equal; f_equal; lia|]. f_equal. lia.
    + intros d. split.
      * intros Hin. specialize (Hall d Hin). destruct (proj1 (He d) ltac:(by right)). split; [lia|done].
      * intros [Hd Hjd]. assert (d ∈ e :: es) as [->|]%elem_of_cons by (apply He; split; [lia|done]); [lia|done].
    + unfold sample_gap. rewrite length_app, length_take. lia.
Qed.

(** *** An example run

    Pages of four bytes; term 7.  dLSN 0 writes blocks 0 and 1, dLSN 2 zeroes block 1,
    dLSN 1 never arrives and is resolved Empty. *)

Definition example_hdr (commit : Z) : client_hdr := Mk_client_hdr 7 commit (-1) 9.
Definition example_replica_ops : list replica_op :=
  [ op_login 9 7
  ; op_write (example_hdr (-1)) 0 0 8 (Some [1; 2; 3; 4; 5; 6; 7; 8])
  ; op_write (example_hdr 0) 2 4 4 None
  ; op_resolve_local (example_hdr 0) 1 ].
Definition example_start : MemCraftReplica := mk_replica (Mk_endpoint nil_uuid []) 4.
Definition replica_run (r : MemCraftReplica) (ops : list replica_op) : MemCraftReplica :=
  foldl replica_exec r ops.

Fixpoint ops_ok (r : MemCraftReplica) (ops : list replica_op) : Prop :=
  match ops with
  | [] => True
  | op :: ops => op_ok r op ∧ ops_ok (replica_exec r op) ops
  end.

Lemma replica_run_steps r ops : ops_ok r ops → replica_steps r ops (replica_run r ops).
Proof.
  revert r. induction ops as [|op ops IH]; intros r Hok; [apply steps_nil|].
  destruct Hok. apply steps_cons; [done|]. by apply IH.
Qed.

Ltac op_ok_by_eval :=
  lazymatch goal with
  | |- op_ok _ (op_write _ _ _ _ _) => split; [by_eval|split; [by_eval|left; by_eval]]
  | |- op_ok _ _ => exact I
  end.
Ltac ops_ok_by_eval := repeat (refine (conj _ _); [op_ok_by_eval|]); exact I.

Lemma example_ops_ok : ops_ok example_start example_replica_ops.
Proof. unfold example_replica_ops. ops_ok_by_eval. Qed.

Definition example_replica : MemCraftReplica := replica_run example_start example_replica_ops.
Lemma example_steps : replica_steps example_start example_replica_ops example_replica.
Proof. apply replica_run_steps, example_ops_ok. Qed.

Lemma example_start_inv : replica_inv example_start.
Proof. apply mk_replica_inv. lia. Qed.

Lemma example_replica_inv : replica_inv example_replica.
Proof. apply (replica_steps_inv _ _ _ example_start_inv example_steps). Qed.

(** *** Empty verdicts *)

Lemma do_write_voided r hdr d addr len bytes :
  voided r d → ∃ e, do_write r hdr d addr len bytes = (Err e, r).
Proof.
  intros (s & Hs & He). unfold do_write. rewrite Hs, He.
  destruct (misaligned _ _ _); [eauto|]. destruct (match bytes with Some _ => _ | None => _ end); [eauto|].
  destruct (negb _); eauto.
Qed.

Lemma apply_journal t r : replica_inv r → journal_ (apply_up_to t r) = journal_ r.
Proof. intros I. apply (apply_up_to_spec t r I). Qed.

Lemma do_write_journal r hdr d addr len bytes :
  replica_inv r → in_u 64 addr → in_u 64 len → fresh_write r hdr d addr len bytes →
  journal_ (do_write r hdr d addr len bytes).2 = journal_ r ∨
  journal_ (do_write r hdr d addr len bytes).2 = <[d := write_slot r hdr addr len bytes]> (journal_ r).
Proof.
  intros I Ha Hl Hf. unfold do_write. destruct (misaligned r addr len); [by left|].
  destruct (match bytes with Some b => _ | None => _ end) eqn:Hb; [by left|].
  destruct (negb _); [by left|].
  destruct (match journal_ r !! d with Some s => _ | None => _ end); [by left|]. right. cbn [snd].
  set (s := write_slot r hdr addr len bytes).
  rewrite (apply_journal (ch_commit_lsn hdr)); [done|]. apply (insert_above_inv r d s); [done| |].
  - apply write_slot_wf; try done; [apply I|]. destruct bytes; [|done].
    by apply negb_false_iff, Z.eqb_eq in Hb.
  - destruct Hf as [|Hf]; [by left|]. right. right. by rewrite Hf.
Qed.

(** Only a truncation below it removes an Empty slot. *)
Definition truncates_below (d : Z) (op : replica_op) : Prop :=
  match op with op_truncate lsn => lsn < d | _ => False end.

Lemma replica_exec_voided r op d :
  replica_inv r → op_ok r op → ¬ truncates_below d op → voided r d → voided (replica_exec r op) d.
Proof.
  intros I Hok Ht Hv. pose proof Hv as (s & Hs & He). destruct op; simpl in *; try done.
  - destruct Hok as (Ha & Hl & Hf). destruct (decide (dlsn = d)) as [->|Hne].
    + destruct (do_write_voided r hdr d addr len bytes Hv) as [e ->]. done.
    + exists s. split; [|done].
      destruct (do_write_journal r hdr dlsn addr len bytes) as [-> | ->]; try done.
      by rewrite lookup_insert_ne.
  - destruct (do_read _ _ _ _ _ _) as [[res r1]|] eqn:Hr; [|done].
    apply do_read_state in Hr as [Hr|Hr]; simpl in Hr; subst r1; [done|].
    exists s. simpl. by rewrite apply_journal.
  - unfold do_keep_alive. destruct (negb _); [done|]. exists s. simpl.
    by rewrite apply_journal by by apply count_keepalive_inv.
  - destruct (decide (ch_term hdr = term_of r)) as [Hterm|Hterm].
    + destruct (do_resolve_local_aux r hdr upto I Hterm) as (r' & -> & _ & _ & _ & _ & Hj).
      exists s. simpl. by rewrite Hj, Hs.
    + unfold do_resolve_local. by rewrite (proj2 (Z.eqb_neq _ _) Hterm).
  - exists s. split; [|done]. simpl. apply map_lookup_filter_Some. split; [done|simpl; lia].
  - exists s. unfold cold_apply_sync. by rewrite apply_journal.
  - unfold cold_install_slot. case_decide as Hd; [done|]. exists s. split; [|done]. simpl.
    rewrite lookup_insert_ne; [done|]. intros ->. destruct Hd. eauto.
  - unfold voided. simpl. rewrite lookup_insert. case_decide; eauto.
Qed.

(** *** Term fencing *)

Lemma stale_term_aux r hdr d addr len bytes H dest upto :
  ch_term hdr ≠ term_of r →
  do_keep_alive r hdr = (Err (ec_craft STALE_TERM), r) ∧
  do_resolve_local r hdr upto = (Err (ec_craft STALE_TERM), r) ∧
  (∃ e, do_write r hdr d addr len bytes = (Err e, r) ∧
     (misaligned r addr len = false → (∀ b, bytes = Some b → Z.of_nat (length b) = len) →
      e = ec_craft STALE_TERM)) ∧
  (∃ e, do_read r hdr H addr len dest = Some (Err e, r) ∧
     (misaligned r addr len = false → len ≤ sg_size dest → e = ec_craft STALE_TERM)).
Proof.
  intros Ht. apply Z.eqb_neq in Ht.
  unfold do_keep_alive, do_resolve_local, do_write, do_read. rewrite Ht. simpl. split_and!; [done..| |].
  - destruct (misaligned r addr len); [eexists; split; [done|discriminate]|].
    destruct bytes as [b|]; simpl; [|eexists; split; [done|done]].
    destruct (Z.eqb_spec (Z.of_nat (length b)) len) as [|Hne]; simpl; eexists; (split; [done|]); [done|].
    intros _ Hb. destruct (Hne (Hb b eq_refl)).
  - destruct (misaligned r addr len); [eexists; split; [done|discriminate]|].
    destruct (Z.ltb_spec (sg_size dest) len); eexists; (split; [done|]); [lia|done].
Qed.

(** ** Properties *)

Definition example_later_ops : list replica_op :=
  [ op_write (example_hdr 1) 3 0 4 (Some [7; 7; 7; 7]); op_keep_alive (example_hdr 3) ].
Definition example_later : MemCraftReplica := replica_run example_replica example_later_ops.

Lemma example_later_steps : replica_steps example_replica example_later_ops example_later.
Proof. apply replica_run_steps. unfold example_later_ops. ops_ok_by_eval. Qed.

(** An Empty verdict is permanent: after any operations but a truncation below it the slot
    is still Empty, and a write that arrives for it is refused and changes nothing. *)
Theorem empty_permanent r ops r' d hdr addr len bytes :
  replica_inv r → replica_steps r ops r' → Forall (λ op, ¬ truncates_below d op) ops →
  voided r d →
  voided r' d ∧ ∃ e, do_write r' hdr d addr len bytes = (Err e, r').
Proof.
  intros I Hs Ht Hv. assert (voided r' d) as Hv'; [|by split; [|by apply do_write_voided]].
  induction Hs as [|r op ops r' Hok _ IH]; [done|]. inversion Ht; subst.
  apply IH; [by apply replica_exec_inv|done|by apply replica_exec_voided].
Qed.

Lemma empty_permanent_witness :
  ∃ e, do_write example_later (example_hdr 1) 1 0 4 None = (Err e, example_later).
Proof.
  apply (empty_permanent example_replica example_later_ops example_later 1 (example_hdr 1) 0 4 None);
    [exact example_replica_inv|exact example_later_steps| |].
  - repeat constructor; intros [].
  - exists (empty_slot 7). split; vm_compute; reflexivity.
Defined.

(** Term fencing: with any other term than the session's, keep-alive and local
    resolution answer STALE_TERM, and so do a write and a read whose shapes are valid; a
    fenced operation of any shape leaves the whole replica unchanged. *)
Theorem stale_term_fenced r hdr d addr len bytes H dest upto :
  ch_term hdr ≠ term_of r →
  do_keep_alive r hdr = (Err (ec_craft STALE_TERM), r) ∧
  do_resolve_local r hdr upto = (Err (ec_craft STALE_TERM), r) ∧
  (∃ e, do_write r hdr d addr len bytes = (Err e, r) ∧
     (misaligned r addr len = false → (∀ b, bytes = Some b → Z.of_nat (length b) = len) →
      e = ec_craft STALE_TERM)) ∧
  (∃ e, do_read r hdr H addr len dest = Some (Err e, r) ∧
     (misaligned r addr len = false → len ≤ sg_size dest → e = ec_craft STALE_TERM)).
Proof. apply stale_term_aux. Qed.

Lemma stale_term_fenced_witness :
  do_keep_alive example_replica (Mk_client_hdr 6 1 (-1) 9) = (Err (ec_craft STALE_TERM), example_replica).
Proof.
  apply (stale_term_fenced example_replica (Mk_client_hdr 6 1 (-1) 9) 0 0 0 None 0 (Mk_sg 0 []) 0).
  vm_compute. discriminate.
Defined.

(** Local resolution up to a dLSN at the current term commits exactly up to it, voids
    exactly the dLSNs that have no slot, keeps every other slot, and reports in order
    exactly the dLSNs above the old frontier that are now Empty. *)
Theorem do_resolve_local_spec r hdr upto :
  replica_inv r → ch_term hdr = term_of r → commit_of r ≤ upto →
  ∃ r' out, do_resolve_local r hdr upto = (Ok (Mk_resolution_result upto out), r') ∧
    replica_inv r' ∧ commit_of r' = upto ∧
    (∀ d, journal_ r' !! d =
       match journal_ r !! d with
       | Some s => Some s
       | None => if decide (commit_of r < d ≤ upto) then Some (empty_slot (term_of r)) else None
       end) ∧
    (∀ d, d ∈ out ↔ commit_of r < d ≤ upto ∧ voided r' d) ∧ StronglySorted Z.lt out.
Proof.
  intros I Ht Hu. destruct (do_resolve_local_aux r hdr upto I Ht) as (r' & Heq & I' & Hc & _ & _ & Hj).
  eexists r', _. split_and!; [exact Heq|done|lia|done| |].
  - intros d. rewrite list_elem_of_filter, elem_of_range. unfold hole_or_empty, voided. rewrite Hj.
    destruct (journal_ r !! d) as [s|].
    + split; [intros [? ?]; split; [lia|eauto]|]. intros [? (s' & [= <-] & ?)]. split; [done|lia].
    + split; [|intros [? _]; split; [done|lia]]. intros [_ ?]. rewrite decide_True by lia.
      split; [lia|]. eexists. done.
  - apply (StronglySorted_filter Z.lt). apply StronglySorted_range.
Qed.

Lemma do_resolve_local_spec_witness :
  ∃ r' out, do_resolve_local example_replica (example_hdr 1) 4 = (Ok (Mk_resolution_result 4 out), r') ∧
    commit_of r' = 4 ∧ out = [3; 4].
Proof.
  destruct (do_resolve_local_spec example_replica (example_hdr 1) 4) as (r' & out & Hr & _ & Hc & _);
    [exact example_replica_inv|by_eval..|].
  exists r', out. split; [exact Hr|]. split; [exact Hc|].
  assert ((do_resolve_local example_replica (example_hdr 1) 4).1 = Ok (Mk_resolution_result 4 [3; 4]))
    as Ho by (vm_compute; reflexivity).
  rewrite Hr in Ho. by injection Ho.
Defined.

(** A write with a fresh dLSN at the current term is accepted, and at every horizon that
    sees it and no later version of the block, the replica reads back, for each block of
    the range, the block's part of the payload, or a hole when it is all zeros or the write
    carried no payload; other blocks read as before. *)
Theorem write_visible r hdr dlsn addr len bytes H x :
  replica_inv r → ch_term hdr = term_of r → misaligned r addr len = false →
  0 ≤ addr → 0 < len → addr + len < 2 ^ 64 → len `div` page_size_ r < 2 ^ 32 →
  match bytes with Some b => Z.of_nat (length b) = len | None => True end →
  commit_of r < dlsn ≤ H → journal_ r !! dlsn = None →
  latest (journal_ r) dlsn H x = None →
  let page := page_size_ r in
  ∃ r', do_write r hdr dlsn addr len bytes = (Ok (lsns_of r'), r') ∧ replica_inv r' ∧
    read_image r' H x =
      if decide (addr `div` page ≤ x < addr `div` page + len `div` page)
      then pg ← subspan (Z.to_nat (x * page - addr)) (Z.to_nat page) <$> bytes;
           if all_zero pg then None else Some pg
      else read_image r H x.
Proof.
  intros I Ht Hal Ha Hl Hw Hn Hb Hd Hnone Hlast page. pose proof (rv_page r I) as Hpg.
  pose proof Hal as Hal'. unfold misaligned in Hal'.
  rewrite !orb_false_iff, !negb_false_iff, !Z.eqb_eq in Hal'. destruct Hal' as [[Ham Hlm] _].
  fold page in Hpg, Ham, Hlm, Hn. pose proof (rv_commit r I).
  destruct (do_write_fresh r hdr dlsn addr len bytes) as (r' & Heq & I' & Hp & Hj);
    try done; try (unfold in_u; lia). exists r'. split_and!; [done..|].
  assert (0 ≤ len `div` page) as Hn0 by (apply Z.div_pos; lia).
  unfold read_image. rewrite Hp, Hj. fold page. rewrite latest_insert_fresh by (done || lia).
  set (s := write_slot r hdr addr len bytes).
  assert (js_len s = len `div` page) as Hjl by (apply wrap_small; unfold in_u; lia).
  assert (js_lba s = addr `div` page) as Hjb by done.
  assert (addr = addr `div` page * page) as Haddr by (pose proof (Z.div_mod addr page); lia).
  assert (len = len `div` page * page) as Hlen by (pose proof (Z.div_mod len page); lia).
  pose proof (covers_block_iff s x) as Hc. rewrite Hjl, Hjb in Hc.
  assert (0 ≤ addr `div` page) as Ha0 by (apply Z.div_pos; lia). specialize (Hc Ha0 Hn0 ltac:(nia)).
  destruct (decide _) as [Hin|Hin].
  - rewrite (proj2 Hc Hin). simpl. fold page.
    replace ((x - addr `div` page) * page) with (x * page - addr) by lia. by destruct bytes.
  - destruct (covers_block s x); [destruct Hin; by apply Hc|done].
Qed.

Lemma write_visible_witness :
  ∃ r', do_write example_replica (example_hdr 1) 3 0 8 (Some [7; 7; 7; 7; 0; 0; 0; 0]) = (Ok (lsns_of r'), r') ∧
    read_image r' 5 0 = Some [7; 7; 7; 7].
Proof.
  destruct (write_visible example_replica (example_hdr 1) 3 0 8 (Some [7; 7; 7; 7; 0; 0; 0; 0]) 5 0)
    as (r' & Hw & _ & Hr); [exact example_replica_inv|by_eval..|].
  exists r'. split; [exact Hw|]. rewrite Hr. vm_compute. reflexivity.
Defined.

(** Committing up to a target advances the frontier exactly to the end of the contiguous
    run of slots above it, or to the target when the run reaches it, and touches nothing
    but the frontier and the index. *)
Theorem apply_up_to_exact r target c :
  replica_inv r → commit_of r ≤ c ≤ Z.max (commit_of r) target →
  same_but_applied r (apply_up_to target r) ∧
  (commit_of (apply_up_to target r) = c ↔
    (∀ d, commit_of r < d ≤ c → is_Some (journal_ r !! d)) ∧
    (c < target → journal_ r !! (c + 1) = None)).
Proof.
  intros I Hc. destruct (apply_up_to_spec target r I) as (I' & Hs & Hb & Hstop).
  split; [exact Hs|]. clear Hs.
  pose proof (apply_journal target r I) as Hj. split.
  - intros <-. split; [|done]. intros d Hd. rewrite <-Hj. apply (rv_prefix _ I').
    pose proof (rv_commit r I). lia.
  - intros [Hall Hend]. destruct (Z.lt_trichotomy (commit_of (apply_up_to target r)) c) as [Hlt|[?|Hgt]].
    + destruct (Hall (commit_of (apply_up_to target r) + 1)) as [s Hs']; [lia|].
      rewrite Hstop in Hs' by lia. done.
    + done.
    + pose proof (rv_commit r I).
      destruct (rv_prefix _ I' (c + 1)) as [s Hs']; [lia|]. rewrite Hj, Hend in Hs' by lia. done.
Qed.

Lemma apply_up_to_exact_witness : commit_of (apply_up_to 9 example_replica) = 2.
Proof.
  apply (apply_up_to_exact example_replica 9 2); [exact example_replica_inv|by_eval|].
  split; [|by_eval]. intros d Hd. assert (commit_of example_replica = 1) as Hc by by_eval.
  assert (d = 2) as -> by lia. vm_compute. eauto.
Defined.

(** The gap report of the statistics is exact: the count is the number of dLSNs between
    the frontier and the append watermark that have no slot, and the sample is the first
    sixteen of them in order. *)
Theorem stats_missing r :
  let missing := gaps (journal_ r) (commit_of r + 1) (append_of r) in
  rt_missing_count (stats_of r) = Z.of_nat (length missing) ∧
  rt_missing_sample (stats_of r) = take k_missing_sample missing.
Proof.
  intros missing. unfold stats_of. simpl. set (lo := commit_of r + 1). set (hi := append_of r).
  set (present := filter _ (entries (journal_ r)).*1).
  assert (∀ d, d ∈ present ↔ lo ≤ d ≤ hi ∧ is_Some (journal_ r !! d)) as Hp.
  { intros d. unfold present. rewrite list_elem_of_filter, list_elem_of_fmap. split.
    - intros [? ([e s] & -> & He%elem_of_entries)]. eauto.
    - intros [? [s Hs]]. split; [done|]. exists (d, s). split; [done|]. by apply elem_of_entries. }
  assert (StronglySorted Z.lt present) as Hsort by apply StronglySorted_filter, entries_sorted.
  destruct (Z.leb_spec lo hi) as [Hle|Hgt].
  - split; [|apply (missing_gaps_spec (journal_ r) present lo hi []); [done..|simpl; lia]].
    assert (present ++ missing ≡ₚ range lo hi) as Hperm.
    { apply NoDup_Permutation; [|apply NoDup_range|].
      - apply NoDup_app. split_and!; [by apply StronglySorted_lt_NoDup| |apply NoDup_filter, NoDup_range].
        intros d [_ [s Hs]]%Hp [Hn _]%list_elem_of_filter. congruence.
      - intros d. unfold missing, gaps. rewrite elem_of_app, Hp, list_elem_of_filter, !elem_of_range. fold lo hi.
        destruct (journal_ r !! d) as [s|]; split.
        + intros [[? _]|[[=] _]]. done.
        + intros Hd. left. eauto.
        + intros [[? _]|[_ ?]]; done.
        + intros Hd. by right. }
    apply Permutation_length in Hperm. rewrite length_app, length_range in Hperm. lia.
  - unfold missing, gaps. fold lo hi. by rewrite range_nil by lia.
Qed.

(** The read at a horizon below the replica's own commit frontier: the block comes from
    the index, whose cell may be newer than the horizon, although the comment at the
    winner selection of [read_range] says the winner is the highest version at or below
    it.  Here dLSN 1 overwrites dLSN 0, both are committed, and a read at horizon 0
    returns the bytes of dLSN 1. *)
Theorem read_below_commit :
  let r := replica_run example_start
             [ op_login 9 7
             ; op_write (example_hdr (-1)) 0 0 4 (Some [1; 1; 1; 1])
             ; op_write (example_hdr 1) 1 0 4 (Some [2; 2; 2; 2]) ] in
  read_image r 0 0 = Some [1; 1; 1; 1] ∧
  ∃ rsp r', do_read r (example_hdr (-1)) 0 0 4 (Mk_sg 4 [[9; 9; 9; 9]]) =
    Some (Ok (rsp, Mk_sg 4 [[2; 2; 2; 2]]), r').
Proof.
  split; [vm_compute; reflexivity|]. eexists _, _. vm_compute. reflexivity.
Qed.
