(* ===== verification/ReplicaApplied.v ===== *)
(** * What a replica has applied

    A replica under any operations at all, those included that name a committed dLSN again.
    [applied A r] says that the index of [r] is the image of [A], the slots as they were
    when they were committed: a write, an Empty verdict or a truncation that reaches below
    the frontier changes the journal and never [A], so what is served for a committed dLSN
    stays.  The invariant [replica_inv], where the journal itself is that history, holds of
    the runs that spare the committed slots. *)

From S2P Require Import Prelude Codec WireTypes Wire Types Replica ReplicaSpec ReplicaRun.

Local Open Scope craft_scope.
Local Open Scope Z_scope.

(** ** Operations *)

(** Arguments within their types, and slots of peers that hold the bytes they announce. *)
Definition op_typed (page : Z) (op : replica_op) : Prop :=
  match op with
  | op_write _ _ addr len _ => in_u 64 addr ∧ in_u 64 len
  | op_install _ s => slot_wf page s
  | _ => True
  end.

(** The operation does not truncate below the frontier; it does not change a committed slot. *)
Definition spares_frontier (r : MemCraftReplica) (op : replica_op) : Prop :=
  match op with op_truncate lsn => commit_of r ≤ lsn | _ => True end.
Definition spares_committed (r : MemCraftReplica) (op : replica_op) : Prop :=
  match op with
  | op_write hdr dlsn addr len bytes => fresh_write r hdr dlsn addr len bytes
  | op_truncate lsn => commit_of r ≤ lsn
  | op_mark_empty d => commit_of r < d ∨ voided r d
  | _ => True
  end.

(** [P] holds of every operation in the state it finds. *)
Fixpoint along (P : MemCraftReplica → replica_op → Prop) (r : MemCraftReplica) (ops : list replica_op) : Prop :=
  match ops with [] => True | op :: ops => P r op ∧ along P (replica_exec r op) ops end.

(** The operations that may change what the journal has for [d]. *)
Definition names (d : Z) (op : replica_op) : Prop :=
  match op with
  | op_write _ dlsn _ _ _ => dlsn = d
  | op_mark_empty dlsn => dlsn = d
  | op_truncate lsn => lsn < d
  | _ => False
  end.

(** ** Committing *)

Lemma apply_loop_frame fuel target r :
  let r' := apply_loop fuel target (commit_of r + 1) r in
  same_but_applied r r' ∧ commit_of r ≤ commit_of r' ∧ ∀ d, commit_of r < d ≤ commit_of r' → is_Some (journal_ r !! d).
Proof.
  revert r. induction fuel as [|fuel IH]; intros r; simpl; [split_and!; try done; lia|].
  destruct (_ <=? _); [|split_and!; try done; lia].
  destruct (journal_ r !! (commit_of r + 1)) as [s|] eqn:Hs; [|split_and!; try done; lia].
  set (r1 := set_commit _ _). assert (same_but_applied r r1) as Hs1 by (unfold r1; destruct (js_is_empty s); done).
  destruct (IH r1) as (Hs2 & Hc2 & Hd2). change (commit_of r1) with (commit_of r + 1) in *.
  assert (journal_ r1 = journal_ r) as Hj by by apply Hs1. rewrite Hj in Hd2.
  unfold same_but_applied in *. destruct_and!. split_and!; try congruence; try lia.
  intros d Hd. destruct (decide (d = commit_of r + 1)) as [->|]; [by eexists|]. apply Hd2. lia.
Qed.

Lemma apply_up_to_frame target r :
  let r' := apply_up_to target r in
  same_but_applied r r' ∧ commit_of r ≤ commit_of r' ∧ ∀ d, commit_of r < d ≤ commit_of r' → is_Some (journal_ r !! d).
Proof. apply apply_loop_frame. Qed.

(** Committing looks at the journal, the page size, the index and the frontier only. *)
Lemma apply_loop_cong fuel target next r r' :
  journal_ r' = journal_ r → page_size_ r' = page_size_ r → index_ r' = index_ r → commit_of r' = commit_of r →
  index_ (apply_loop fuel target next r') = index_ (apply_loop fuel target next r) ∧
  commit_of (apply_loop fuel target next r') = commit_of (apply_loop fuel target next r).
Proof.
  revert next r r'. induction fuel as [|fuel IH]; intros next r r' Hj Hp Hi Hc; simpl; [done|].
  destruct (_ <=? _); [|done]. rewrite Hj. destruct (journal_ r !! next) as [s|]; [|done].
  apply IH; destruct (js_is_empty s); first [done|simpl; congruence].
Qed.

(** ** What an operation does *)

(** The journal and the append watermark it leaves, before it commits anything. *)
Inductive effect (r : MemCraftReplica) (op : replica_op) : gmap Z MemJournalSlot → Z → Prop :=
| ef_none : effect r op (journal_ r) (append_of r)
| ef_put d s :
    names d op ∨ journal_ r !! d = None → (2 ≤ page_size_ r < 2 ^ 32 → op_typed (page_size_ r) op → slot_wf (page_size_ r) s) →
    effect r op (<[d := s]> (journal_ r)) (Z.max (append_of r) d)
| ef_cut lsn : op = op_truncate lsn → effect r op (erase_above lsn (journal_ r)) (Z.min (append_of r) lsn)
| ef_tombs j upto :
    (∀ d, j !! d = match journal_ r !! d with
                   | Some s => Some s
                   | None => if decide (commit_of r < d ≤ upto) then Some (empty_slot (term_of r)) else None
                   end) →
    effect r op j (Z.max (append_of r) upto).

(** [r'] has journal [j] and watermark [a], and what [r] has with these and committed up to [t]. *)
Definition commits (r : MemCraftReplica) (j : gmap Z MemJournalSlot) (a t : Z) (r' : MemCraftReplica) : Prop :=
  let r1 := apply_up_to t (set_append (set_journal r j) a) in
  page_size_ r' = page_size_ r ∧ journal_ r' = j ∧ append_of r' = a ∧ index_ r' = index_ r1 ∧ commit_of r' = commit_of r1.

Lemma commits_apply r r0 j a t :
  journal_ r0 = j → append_of r0 = a → page_size_ r0 = page_size_ r → index_ r0 = index_ r → commit_of r0 = commit_of r →
  commits r j a t (apply_up_to t r0).
Proof.
  intros Hj Ha Hp Hi Hc. destruct (apply_up_to_frame t r0) as ((_ & P & J & A & _) & _).
  destruct (apply_loop_cong (Z.to_nat (t - commit_of r)) t (commit_of r + 1) (set_append (set_journal r j) a) r0) as [Hx Hd]; try done.
  unfold commits, apply_up_to in *. rewrite Hc in *. split_and!; congruence || done.
Qed.

Lemma commits_none r r' j a :
  page_size_ r' = page_size_ r → journal_ r' = j → append_of r' = a → index_ r' = index_ r → commit_of r' = commit_of r →
  commits r j a (commit_of r) r'.
Proof.
  intros. unfold commits, apply_up_to. change (commit_of (set_append _ _)) with (commit_of r). by rewrite Z.sub_diag.
Qed.

Lemma exec_effect r op : ∃ j a t, effect r op j a ∧ commits r j a t (replica_exec r op).
Proof.
  assert (∃ j a t, effect r op j a ∧ commits r j a t r) as Hid.
  { exists (journal_ r), (append_of r), (commit_of r). split; [constructor|by apply commits_none]. }
  destruct op; simpl.
  - unfold do_write. destruct (misaligned r addr len); [done|].
    destruct (match bytes with Some b => _ | None => _ end) eqn:Hb; [done|]. destruct (negb _); [done|].
    destruct (match journal_ r !! dlsn with Some s => _ | None => _ end); [done|].
    eexists _, _, (ch_commit_lsn hdr). split; [|by apply commits_apply].
    apply ef_put; [by left|]. intros Hp [Ha Hl]. apply write_slot_wf; try done. destruct bytes; [|done].
    by apply negb_false_iff, Z.eqb_eq in Hb.
  - destruct (do_read _ _ _ _ _ _) as [[res r1]|] eqn:Hr; [|done].
    apply do_read_state in Hr as [Hr|Hr]; simpl in Hr; subst r1; [done|].
    exists (journal_ r), (append_of r), (ch_commit_lsn hdr). split; [constructor|].
    by apply (commits_apply r r).
  - unfold do_keep_alive. destruct (negb _); [done|]. exists (journal_ r), (append_of r), (ch_commit_lsn hdr).
    split; [constructor|]. by apply commits_apply.
  - unfold do_resolve_local. destruct (negb _); [done|].
    rewrite resolve_local_loop by apply NoDup_range. set (j := foldl _ (journal_ r) _).
    exists j, (Z.max (append_of r) upto), upto. split; [|by apply commits_apply]. unfold j.
    apply ef_tombs. intros d. rewrite lookup_tombstones. destruct (journal_ r !! d); [done|].
    destruct (decide (d ∈ _)) as [Hin|Hin]; rewrite elem_of_range in Hin.
    + by rewrite decide_True by lia.
    + by rewrite decide_False by lia.
  - eexists _, _, (commit_of r). split; [by eapply ef_cut|by apply commits_none].
  - exists (journal_ r), (append_of r), upto. split; [constructor|by apply commits_apply].
  - exists (journal_ r), (append_of r), (commit_of r). split; [constructor|by apply commits_none].
  - exists (journal_ r), (append_of r), (commit_of r). split; [constructor|by apply commits_none].
  - unfold cold_install_slot. case_decide as Hd; [done|]. eexists _, _, (commit_of r). split; [|by apply commits_none].
    apply ef_put; [right; by apply eq_None_not_Some|done].
  - eexists _, _, (commit_of r). split; [|by apply commits_none]. apply ef_put; [by left|]. intros. apply empty_slot_wf.
  - exists (journal_ r), (append_of r), (commit_of r). split; [constructor|by apply commits_none].
Qed.

(** ** The journal *)

Record journal_inv (r : MemCraftReplica) : Prop := {
  jv_commit : -1 ≤ commit_of r ≤ append_of r;
  jv_prefix d : 0 ≤ d ≤ commit_of r → is_Some (journal_ r !! d);
  jv_append d : is_Some (journal_ r !! d) → d ≤ append_of r;
}.

Lemma exec_journal_inv r op : journal_inv r → spares_frontier r op → journal_inv (replica_exec r op).
Proof.
  intros [Hc Hp Ha] Hs. destruct (exec_effect r op) as (j & a & t & Hef & (_ & Hj & Hap & _ & Hco)).
  assert (commit_of r ≤ a ∧ (∀ d, 0 ≤ d ≤ commit_of r → is_Some (j !! d)) ∧ (∀ d, is_Some (j !! d) → d ≤ a)) as (H1 & H2 & H3).
  { destruct Hef as [|d s _ _|lsn ->|j upto Hjs]; simpl in *.
    - split_and!; [lia|done|done].
    - split_and!; [lia| |]; intros i; rewrite lookup_insert; case_decide; subst; eauto; [lia|]. intros ?%Ha. lia.
    - unfold erase_above. split_and!; [lia| |].
      + intros i Hi. destruct (Hp i Hi) as [s Hs']. exists s. apply map_lookup_filter_Some. simpl. split; [done|lia].
      + intros i [s [Hi Hl]%map_lookup_filter_Some]. simpl in Hl. specialize (Ha i ltac:(eauto)). lia.
    - split_and!; [lia| |]; intros i; rewrite Hjs.
      + intros Hi. by destruct (Hp i Hi) as [s ->].
      + destruct (journal_ r !! i) eqn:Hi; [intros _; specialize (Ha i ltac:(eauto)); lia|]. case_decide; [lia|by intros [? [=]]]. }
  destruct (apply_up_to_frame t (set_append (set_journal r j) a)) as (_ & Hle & Hnew).
  rewrite <-Hco in Hle, Hnew. change (commit_of (set_append _ _)) with (commit_of r) in Hle, Hnew. simpl in Hnew.
  split; rewrite ?Hj, ?Hap; [|intros d Hd|done].
  - split; [lia|]. destruct (decide (commit_of (replica_exec r op) = commit_of r)) as [->|]; [done|]. apply H3, Hnew. lia.
  - destruct (decide (d ≤ commit_of r)); [apply H2|apply Hnew]; lia.
Qed.

(** The frontier never goes back, and the journal keeps what no operation names. *)
Lemma exec_frontier r op : commit_of r ≤ commit_of (replica_exec r op).
Proof.
  destruct (exec_effect r op) as (j & a & t & _ & (_ & _ & _ & _ & ->)).
  by destruct (apply_up_to_frame t (set_append (set_journal r j) a)) as (_ & ? & _).
Qed.

Lemma exec_unnamed r op d : ¬ names d op → is_Some (journal_ r !! d) → journal_ (replica_exec r op) !! d = journal_ r !! d.
Proof.
  intros Hn [s Hs]. destruct (exec_effect r op) as (j & a & t & Hef & (_ & -> & _)).
  destruct Hef as [|d' s' [Hd|Hd] _|lsn ->|j upto Hjs].
  - done.
  - apply lookup_insert_ne. congruence.
  - apply lookup_insert_ne. congruence.
  - rewrite Hs. apply map_lookup_filter_Some. simpl in *. split; [done|lia].
  - by rewrite Hjs, Hs.
Qed.

Lemma exec_page r op : page_size_ (replica_exec r op) = page_size_ r.
Proof. by destruct (exec_effect r op) as (j & a & t & _ & (-> & _)). Qed.
Lemma run_page r ops : page_size_ (replica_run r ops) = page_size_ r.
Proof.
  revert r. induction ops as [|op ops IH]; intros r; [done|]. etrans; [apply (IH (replica_exec r op))|apply exec_page].
Qed.

Lemma run_frontier r ops : commit_of r ≤ commit_of (replica_run r ops).
Proof.
  revert r. induction ops as [|op ops IH]; intros r; [done|]. etrans; [apply (exec_frontier r op)|]. apply IH.
Qed.

Lemma run_unnamed r ops d :
  Forall (λ op, ¬ names d op) ops → is_Some (journal_ r !! d) → journal_ (replica_run r ops) !! d = journal_ r !! d.
Proof.
  intros Hn. revert r. induction Hn as [|op ops Hop _ IH]; intros r Hs; [done|].
  change (replica_run r (op :: ops)) with (replica_run (replica_exec r op) ops).
  pose proof (exec_unnamed r op d Hop Hs) as He. rewrite IH; [done|by rewrite He].
Qed.

Lemma run_journal_inv r ops : journal_inv r → along spares_frontier r ops → journal_inv (replica_run r ops).
Proof.
  revert r. induction ops as [|op ops IH]; intros r I; [done|]. intros [Hop Hops].
  apply (IH (replica_exec r op)); [by apply exec_journal_inv|done].
Qed.

(** ** The applied slots *)

Record applied (A : gmap Z MemJournalSlot) (r : MemCraftReplica) : Prop := {
  ap_page : 2 ≤ page_size_ r < 2 ^ 32;
  ap_commit : -1 ≤ commit_of r;
  ap_dom d : is_Some (A !! d) ↔ 0 ≤ d ≤ commit_of r;
  ap_slots d s : A !! d = Some s → slot_wf (page_size_ r) s;
  ap_tail d s : journal_ r !! d = Some s → slot_wf (page_size_ r) s;
  ap_index x : index_ r !! x = cell_of (page_size_ r) x (latest A (-1) (commit_of r) x);
}.

Lemma applied_cong A r r' :
  page_size_ r' = page_size_ r → journal_ r' = journal_ r → index_ r' = index_ r → commit_of r' = commit_of r →
  applied A r → applied A r'.
Proof. intros Hp Hj Hi Hc []. split; rewrite ?Hp, ?Hj, ?Hi, ?Hc; done. Qed.

(** One slot enters. *)
Lemma applied_one A r s :
  applied A r → journal_ r !! (commit_of r + 1) = Some s →
  applied (<[commit_of r + 1 := s]> A)
    (set_commit (if js_is_empty s then r else set_index r (apply_slot (page_size_ r) (commit_of r + 1) s (index_ r))) (commit_of r + 1)).
Proof.
  intros [] Hs. set (d := commit_of r + 1) in *.
  assert (∀ x, latest (<[d := s]> A) (-1) d x =
    if negb (js_is_empty s) && covers_block s x then Some (d, s) else latest A (-1) (commit_of r) x) as Hlat.
  { intros x. rewrite (latest_snoc _ _ _ _ s) by (apply lookup_insert_eq || lia). replace (d - 1) with (commit_of r) by lia.
    destruct (_ && _); [done|]. apply latest_ext. intros i Hi. apply lookup_insert_ne. lia. }
  assert (slot_wf (page_size_ r) s) as Hwf by by eapply ap_tail0.
  assert (∀ i, is_Some (<[d := s]> A !! i) ↔ 0 ≤ i ≤ d) as Hdom.
  { intros i. rewrite lookup_insert_is_Some', ap_dom0. lia. }
  assert (∀ i si, <[d := s]> A !! i = Some si → slot_wf (page_size_ r) si) as Hsl.
  { intros i si. rewrite lookup_insert. case_decide; [by intros [= <-]|apply ap_slots0]. }
  destruct (js_is_empty s) eqn:He; (split; [exact ap_page0|change (-1 ≤ d); lia|exact Hdom|exact Hsl|exact ap_tail0|intros x; change (commit_of (set_commit _ d)) with d; simpl; rewrite Hlat; simpl]).
  - apply ap_index0.
  - rewrite lookup_apply_slot by done. destruct (covers_block s x); [done|]. apply ap_index0.
Qed.

(** [A'] extends [A] by what the journal has. *)
Definition extended (A A' j : gmap Z MemJournalSlot) : Prop := A ⊆ A' ∧ A' ⊆ A ∪ j.

Lemma extended_union A A' j : extended A A' j → A' ∪ j = A ∪ j.
Proof.
  intros [H1 H2]. apply map_eq. intros d. pose proof (proj1 (map_subseteq_spec _ _) H1 d) as E1. pose proof (proj1 (map_subseteq_spec _ _) H2 d) as E2.
  rewrite lookup_union in E2. rewrite !lookup_union. destruct (A' !! d) as [s|] eqn:Hd.
  - specialize (E2 s eq_refl). rewrite E2. by destruct (j !! d).
  - destruct (A !! d) as [s|]; [by specialize (E1 s eq_refl)|done].
Qed.

Lemma applied_loop fuel target A r :
  applied A r → ∃ A', extended A A' (journal_ r) ∧ applied A' (apply_loop fuel target (commit_of r + 1) r).
Proof.
  revert A r. induction fuel as [|fuel IH]; intros A r I; simpl; [exists A; split; [split; [done|apply map_union_subseteq_l]|done]|].
  destruct (_ <=? _); [|exists A; split; [split; [done|apply map_union_subseteq_l]|done]].
  destruct (journal_ r !! (commit_of r + 1)) as [s|] eqn:Hs; [|exists A; split; [split; [done|apply map_union_subseteq_l]|done]].
  pose proof (applied_one A r s I Hs) as I1. set (r1 := set_commit _ _) in *.
  destruct (IH _ r1 I1) as (A' & [H1 H2] & I2). assert (journal_ r1 = journal_ r) as Hj by (unfold r1; by destruct (js_is_empty s)).
  rewrite Hj in H2. assert (A !! (commit_of r + 1) = None) as Hno.
  { apply eq_None_not_Some. rewrite (ap_dom _ _ I). lia. }
  exists A'. split; [split|exact I2].
  - etrans; [by apply (insert_subseteq A (commit_of r + 1) s)|done].
  - etrans; [exact H2|]. apply map_subseteq_spec. intros d x. rewrite !lookup_union, lookup_insert.
    destruct (decide (commit_of r + 1 = d)) as [<-|]; [|done]. by rewrite Hno, Hs.
Qed.

Lemma exec_applied A r op :
  applied A r → op_typed (page_size_ r) op →
  ∃ A', A ⊆ A' ∧ applied A' (replica_exec r op) ∧ page_size_ (replica_exec r op) = page_size_ r.
Proof.
  intros I Ht. destruct (exec_effect r op) as (j & a & t & Hef & (Hp & Hj & Hap & Hix & Hco)).
  assert (∀ d s, j !! d = Some s → slot_wf (page_size_ r) s) as Hwf.
  { intros d s. destruct I. destruct Hef as [|d' s' _ Hs'|lsn ->|j upto Hjs]; [by apply ap_tail0| | |].
    - rewrite lookup_insert. case_decide; [|by apply ap_tail0]. intros [= <-]. by apply Hs'.
    - intros [Hd _]%map_lookup_filter_Some. by eapply ap_tail0.
    - rewrite Hjs. destruct (journal_ r !! d) eqn:Hd; [intros [= <-]; by eapply ap_tail0|].
      case_decide; [|done]. intros [= <-]. apply empty_slot_wf. }
  assert (applied A (set_append (set_journal r j) a)) as I1 by (destruct I; by split).
  destruct (applied_loop (Z.to_nat (t - commit_of r)) t A _ I1) as (A' & [Hsub _] & I2). exists A'. split_and!; [done| |done].
  destruct (apply_up_to_frame t (set_append (set_journal r j) a)) as ((_ & P & J & _) & _).
  eapply applied_cong; [..|exact I2]; [etrans; [exact Hp|symmetry; exact P]|etrans; [exact Hj|symmetry; exact J]|exact Hix|exact Hco].
Qed.

Lemma run_applied A r ops :
  applied A r → Forall (op_typed (page_size_ r)) ops → ∃ A', A ⊆ A' ∧ applied A' (replica_run r ops).
Proof.
  revert A r. induction ops as [|op ops IH]; intros A r I Ht; [by exists A|]. apply Forall_cons in Ht as [H1 Ht].
  destruct (exec_applied A r op I H1) as (A1 & Hs & I1 & Hp). destruct (IH A1 (replica_exec r op) I1) as (A2 & Hs2 & I2); [by rewrite Hp|].
  exists A2. split; [by etrans|done].
Qed.

(** ** Reads *)

(** The replica with the applied slots in its journal: what reads show. *)
Definition with_applied (A : gmap Z MemJournalSlot) (r : MemCraftReplica) : MemCraftReplica :=
  set_journal r (A ∪ journal_ r).

Lemma map_bounded {B} (m : gmap Z B) c : ∃ a, c ≤ a ∧ ∀ d, is_Some (m !! d) → d ≤ a.
Proof.
  induction m as [|k v m _ (a & Hc & Ha)] using map_ind.
  { exists c. split; [done|]. intros d [? Hd]. by rewrite lookup_empty in Hd. }
  exists (Z.max a k). split; [lia|]. intros d. rewrite lookup_insert. case_decide; [lia|]. intros ?%Ha. lia.
Qed.

Lemma union_below A r d : applied A r → 0 ≤ d ≤ commit_of r → (A ∪ journal_ r) !! d = A !! d.
Proof. intros I Hd. rewrite lookup_union. destruct (proj2 (ap_dom A r I d) Hd) as [s ->]. by destruct (journal_ r !! d). Qed.
Lemma union_above A r d : applied A r → commit_of r < d → (A ∪ journal_ r) !! d = journal_ r !! d.
Proof.
  intros I Hd. rewrite lookup_union. assert (A !! d = None) as ->; [|by destruct (journal_ r !! d)].
  apply eq_None_not_Some. rewrite (ap_dom A r I). lia.
Qed.

Lemma applied_inv A r : applied A r → ∃ a, replica_inv (set_append (with_applied A r) a).
Proof.
  intros I. destruct (map_bounded (A ∪ journal_ r) (commit_of r)) as (a & Hc & Ha). exists a. pose proof I as [].
  split; [exact ap_page0|split; [done|exact Hc]| |exact Ha| |].
  - intros d Hd. change (is_Some ((A ∪ journal_ r) !! d)). rewrite (union_below A r d) by done. by apply ap_dom0.
  - intros d s. simpl. rewrite lookup_union. destruct (A !! d) as [s'|] eqn:Hd.
    + destruct (journal_ r !! d); intros [= <-]; by eapply ap_slots0.
    + destruct (journal_ r !! d) eqn:Hj; [|done]. intros [= <-]. by eapply ap_tail0.
  - intros x. change (commit_of _) with (commit_of r). simpl. rewrite ap_index0. f_equal. symmetry. apply latest_ext.
    intros d Hd. apply (union_below A r d); [done|lia].
Qed.

Lemma read_loop_applied A r a H xs c layout :
  applied A r → read_loop (set_append (with_applied A r) a) H xs c layout = read_loop r H xs c layout.
Proof.
  intros I. assert (∀ x, winner_page (set_append (with_applied A r) a) H x = winner_page r H x) as Hw.
  { intros x. unfold winner_page. rewrite !highest_slot_latest.
    assert (latest (journal_ (set_append (with_applied A r) a)) (commit_of (set_append (with_applied A r) a)) H x =
            latest (journal_ r) (commit_of r) H x) as ->; [|done].
    apply (latest_ext (journal_ r)). intros d Hd. apply (union_above A r d); [done|lia]. }
  revert c layout. induction xs as [|x xs IH]; intros c layout; simpl; [done|]. rewrite Hw.
  destruct (winner_page r H x); simpl; [apply IH|done].
Qed.

(** A replica whose journal is what it applied. *)
Definition committed_slots (r : MemCraftReplica) : gmap Z MemJournalSlot :=
  filter (λ p, 0 ≤ p.1 ≤ commit_of r) (journal_ r).
Lemma inv_applied r : replica_inv r → applied (committed_slots r) r.
Proof.
  intros I. unfold committed_slots. assert (∀ d, 0 ≤ d ≤ commit_of r → filter (λ p, 0 ≤ p.1 ≤ commit_of r) (journal_ r) !! d = journal_ r !! d) as Hf.
  { intros d Hd. rewrite map_lookup_filter. destruct (journal_ r !! d); [simpl|done]. by rewrite option_guard_True. }
  split; [apply I|apply (rv_commit r I)| | |apply (rv_slots r I)|].
  - intros d. split; [intros [s [_ Hd]%map_lookup_filter_Some]; exact Hd|]. intros Hd. rewrite Hf by done. by apply (rv_prefix r I).
  - intros d s [Hd _]%map_lookup_filter_Some. by eapply (rv_slots r I).
  - intros x. rewrite (rv_index r I). f_equal. symmetry. apply latest_ext. intros d Hd. apply Hf. lia.
Qed.

(** ** Properties *)



Lemma along_ops_ok r ops :
  Forall (op_typed (page_size_ r)) ops → along spares_committed r ops → ops_ok r ops.
Proof.
  revert r. induction ops as [|op ops IH]; intros r Ht; [done|]. apply Forall_cons in Ht as [H1 Ht]. intros [H2 Hs].
  split; [by destruct op; simpl in *; destruct_and?|]. apply IH; [|done]. by rewrite exec_page.
Qed.


Lemma example_typed : Forall (op_typed 4) example_replica_ops.
Proof. repeat constructor; by_eval. Qed.



(** dLSN 0, committed, is written again with another payload. *)
Definition example_rewrite : list replica_op := [op_write (example_hdr 1) 0 0 8 (Some [8; 7; 6; 5; 4; 3; 2; 1])].


(** A write that names a committed dLSN is not refused.  At the current term, aligned and
    with a payload of its length, it is answered Ok and replaces the slot in the journal, so
    that a peer that fetches the dLSN gets the new payload, while the replica itself goes on
    serving what it had committed. *)
Theorem committed_rewrite A r hdr d addr len bytes s x :
  applied A r → in_u 64 addr → in_u 64 len → misaligned r addr len = false → ch_term hdr = term_of r →
  match bytes with Some b => Z.of_nat (length b) = len | None => True end →
  0 ≤ d ≤ commit_of r → journal_ r !! d = Some s → js_is_empty s = false → ch_commit_lsn hdr ≤ commit_of r →
  let '(res, r') := do_write r hdr d addr len bytes in
  res = Ok (lsns_of r') ∧ do_fetch r' [d] = [fetch_slot d (write_slot r hdr addr len bytes)] ∧
  winner_page r' (commit_of r) x = winner_page r (commit_of r) x.
Proof.
  intros I Ha Hl Hal Ht Hb Hd Hs He Hc. unfold do_write. rewrite Hal, Ht, Z.eqb_refl, Hs, He.
  assert ((match bytes with Some b => negb (Z.of_nat (length b) =? len) | None => false end) = false) as ->.
  { destruct bytes; [|done]. by rewrite (proj2 (Z.eqb_eq _ _) Hb). }
  cbn [negb]. set (r1 := set_append _ _). assert (apply_up_to (ch_commit_lsn hdr) r1 = r1) as ->.
  { unfold apply_up_to. change (commit_of r1) with (commit_of r). by replace (Z.to_nat (_ - _)) with 0%nat by lia. }
  split_and!; [done| |].
  - unfold do_fetch. simpl. by rewrite lookup_insert_eq.
  - unfold winner_page. rewrite !highest_slot_latest. change (commit_of r1) with (commit_of r).
    assert (∀ j, latest j (commit_of r) (commit_of r) x = None) as Hno; [|by rewrite !Hno].
    intros j. apply latest_eq. intros i si _. destruct (version _ _ _ _) eqn:V; [|done]. apply version_iff in V. lia.
Qed.

Lemma committed_rewrite_witness :
  (do_write example_replica (example_hdr 1) 0 0 8 (Some [8; 7; 6; 5; 4; 3; 2; 1])).1 = Ok (Mk_lsn_pair 1 2) ∧
  jl_data <$> do_fetch example_replica [0] = [Mk_sg 8 [[1; 2; 3; 4; 5; 6; 7; 8]]] ∧
  jl_data <$> do_fetch (do_write example_replica (example_hdr 1) 0 0 8 (Some [8; 7; 6; 5; 4; 3; 2; 1])).2 [0] =
    [Mk_sg 8 [[8; 7; 6; 5; 4; 3; 2; 1]]].
Proof.
  pose proof (committed_rewrite _ example_replica (example_hdr 1) 0 0 8 (Some [8; 7; 6; 5; 4; 3; 2; 1])
    (Mk_slot 7 0 2 false false (Some [1; 2; 3; 4; 5; 6; 7; 8])) 0 (inv_applied _ example_replica_inv)
    ltac:(by_eval) ltac:(by_eval) ltac:(by_eval) ltac:(by_eval) ltac:(by_eval) ltac:(by_eval) ltac:(by_eval) ltac:(by_eval) ltac:(by_eval)) as H.
  split; [vm_compute; reflexivity|]. split; [vm_compute; reflexivity|].
  destruct (do_write _ _ _ _ _ _) as [res r']. destruct H as (_ & Hf & _). cbn [snd]. rewrite Hf. vm_compute. reflexivity.
Defined.
