(* ===== verification/Cluster.v ===== *)
(** * The in-process cluster

    [src/mem/cluster.hpp] and [src/mem/cluster.cpp]: membership, leader and session term of
    the model's transport, its fault forwarders, and the cold path it drives for the leader
    (login, resolution, logout), together with the replica verbs that enter it.

    The transport keeps pointers to the replicas; the model keeps the replicas themselves in
    [by_id_], which is the same thing as long as each is registered once, as
    [make_mem_replica_group] does.  The cold path takes the transport's lock only for its
    entry checks and then calls the live replicas one by one; the definitions below are cut
    at those points ([login_gate] then one fold per phase; [resolution_gate], the floor, one
    [resolution_slot] per dLSN, the final commit), so that other operations can be put in
    between. *)

From S2P Require Import Prelude Codec WireTypes Wire Types Replica.
From stdpp Require Import strings pretty.

Local Open Scope craft_scope.
Local Open Scope Z_scope.

(** ** State *)

Record MemTransport := Mk_transport {
  members_ : list replica_endpoint;
  by_id_ : gmap peer_id_t MemCraftReplica;
  leader_ : peer_id_t;
  term_ : Z;
  lba_size_ : Z;
  capacity_ : Z;
  max_tx_ : Z;
  op_timeout_ms_ : Z;
}.

Definition set_by_id (t : MemTransport) (m : gmap peer_id_t MemCraftReplica) : MemTransport :=
  Mk_transport (members_ t) m (leader_ t) (term_ t) (lba_size_ t) (capacity_ t) (max_tx_ t)
    (op_timeout_ms_ t).
Definition set_term (t : MemTransport) (n : Z) : MemTransport :=
  Mk_transport (members_ t) (by_id_ t) (leader_ t) n (lba_size_ t) (capacity_ t) (max_tx_ t)
    (op_timeout_ms_ t).

(** The constructor; its thread pools are in the delivery model. *)
Definition mk_transport (members : list replica_endpoint) (lba_size capacity max_tx : Z) : MemTransport :=
  Mk_transport members ∅ (match members with m :: _ => ep_id m | [] => nil_uuid end) 0
    lba_size capacity max_tx 0.

Definition register_replica (r : MemCraftReplica) (t : MemTransport) : MemTransport :=
  set_by_id t (<[ep_id (ep_ r) := r]> (by_id_ t)).
Definition leader (t : MemTransport) : peer_id_t := leader_ t.
Definition set_leader (id : peer_id_t) (t : MemTransport) : MemTransport :=
  Mk_transport (members_ t) (by_id_ t) id (term_ t) (lba_size_ t) (capacity_ t) (max_tx_ t)
    (op_timeout_ms_ t).
Definition set_op_timeout (d : Z) (t : MemTransport) : MemTransport :=
  Mk_transport (members_ t) (by_id_ t) (leader_ t) (term_ t) (lba_size_ t) (capacity_ t) (max_tx_ t)
    (if 0 <? d then d else 0).

(** A call on a replica through its pointer. *)
Definition on_replica (f : MemCraftReplica → MemCraftReplica) (t : MemTransport) (id : peer_id_t) :
    MemTransport := set_by_id t (alter f id (by_id_ t)).

(** ** Faults: forwarders by id *)

Definition replica_for (t : MemTransport) (id : peer_id_t) : option MemCraftReplica := by_id_ t !! id.
Definition net_is_up (t : MemTransport) (id : peer_id_t) : bool :=
  match replica_for t id with Some r => rf_up (faults_ r) | None => true end.
Definition net_write_allowed (t : MemTransport) (id : peer_id_t) : bool :=
  match replica_for t id with Some r => rf_write_ok (faults_ r) | None => true end.
Definition net_delay_for (t : MemTransport) (id : peer_id_t) : Z :=
  match replica_for t id with Some r => rf_delay (faults_ r) | None => 0 end.

Definition net_set_up (id : peer_id_t) (up : bool) (t : MemTransport) : MemTransport :=
  on_replica (set_up up) t id.
Definition net_set_delay (id : peer_id_t) (d : Z) (t : MemTransport) : MemTransport :=
  on_replica (set_delay d) t id.
Definition force_subquorum (keep : list peer_id_t) (t : MemTransport) : MemTransport :=
  foldl (λ t m, on_replica (drop_writes (negb (bool_decide (ep_id m ∈ keep)))) t (ep_id m)) t (members_ t).
Definition net_clear_faults (t : MemTransport) : MemTransport :=
  foldl (λ t m, on_replica clear_faults t (ep_id m)) t (members_ t).

(** ** The cold path *)

Definition quorum (n : nat) : nat := (n / 2 + 1)%nat.

(** [live_replicas_locked]: registered members that are up, in membership order. *)
Definition live_replicas (t : MemTransport) : list peer_id_t :=
  filter (λ id, is_Some (by_id_ t !! id) ∧ net_is_up t id = true) (ep_id <$> members_ t).

Definition peek_of (t : MemTransport) (id : peer_id_t) : lsn_pair :=
  match replica_for t id with Some r => peek_lsns r | None => lsn_none end.

(** *** Login *)

(** The locked entry of [run_login]: an error, a redirect, or the live set and the new term. *)
Inductive login_entry :=
| lg_error (e : error_condition)
| lg_redirect (r : LoginResult)
| lg_live (live : list peer_id_t).

Definition login_gate (t : MemTransport) (caller : peer_id_t) : login_entry * MemTransport :=
  if negb (net_is_up t caller) then (lg_error (ec_craft REPLICA_DOWN), t)
  else if negb (bool_decide (caller = leader_ t))
  then (lg_redirect (Mk_LoginResult [] (-1) 0 0 0 (leader_ t) 0), t)
  else
    let live := live_replicas t in
    if decide (length live < quorum (length (members_ t)))%nat
    then (lg_error (ec_craft NO_QUORUM), t)
    else (lg_live live, set_term t (u64 (term_ t + 1))).

(** Phase 1: [max] of the live members' append watermarks. *)
Definition login_peek (t : MemTransport) (live : list peer_id_t) : Z :=
  foldl (λ rs id, Z.max rs (lp_last_append (peek_of t id))) (-1) live.
(** Phase 2. *)
Definition login_sync (rs : Z) (live : list peer_id_t) (t : MemTransport) : MemTransport :=
  foldl (on_replica (cold_apply_sync rs)) t live.
(** Phase 3. *)
Definition login_internal (client_token nt : Z) (live : list peer_id_t) (t : MemTransport) : MemTransport :=
  foldl (on_replica (cold_apply_login client_token nt)) t live.
(** Phase 4. *)
Definition login_truncate (rs : Z) (live : list peer_id_t) (t : MemTransport) : MemTransport :=
  foldl (λ t id, if rs <? lp_last_append (peek_of t id) then on_replica (cold_truncate_above rs) t id else t)
    t live.

Definition run_login (t : MemTransport) (caller : peer_id_t) (client_token : Z) :
    result error_condition LoginResult * MemTransport :=
  match login_gate t caller with
  | (lg_error e, t) => (Err e, t)
  | (lg_redirect r, t) => (Ok r, t)
  | (lg_live live, t) =>
      let nt := term_ t in
      let rs := login_peek t live in
      let t := login_sync rs live t in
      let t := login_internal client_token nt live t in
      let t := login_truncate rs live t in
      (Ok (Mk_LoginResult (members_ t) rs nt (lba_size_ t) (capacity_ t) nil_uuid (max_tx_ t)), t)
  end.

(** *** Resolution *)

Definition resolution_gate (t : MemTransport) (caller : peer_id_t) (term : Z) :
    result error_condition (list peer_id_t) :=
  if negb (net_is_up t caller) then craft_fail REPLICA_DOWN
  else if negb (bool_decide (caller = leader_ t)) then craft_fail NOT_LEADER
  else if negb (term =? term_ t) then craft_fail STALE_TERM
  else
    let live := live_replicas t in
    if decide (length live < quorum (length (members_ t)))%nat then craft_fail NO_QUORUM
    else Ok live.

Definition int64_max : Z := 2 ^ 63 - 1.
Definition resolution_floor (t : MemTransport) (live : list peer_id_t) : Z :=
  foldl (λ f id, Z.min f (lp_commit (peek_of t id))) int64_max live.

(** The pass over the live set for one dLSN: whether some copy is Empty, else the first copy. *)
Fixpoint find_copy (t : MemTransport) (d : Z) (live : list peer_id_t) (copy : option MemJournalSlot) :
    bool * option MemJournalSlot :=
  match live with
  | [] => (false, copy)
  | id :: live =>
      match replica_for t id ≫= λ r, peek_slot r d with
      | Some s =>
          if js_is_empty s then (true, copy)
          else find_copy t d live (match copy with None => Some s | Some _ => copy end)
      | None => find_copy t d live copy
      end
  end.

Definition resolution_slot (live : list peer_id_t) (t : MemTransport) (d : Z) : MemTransport :=
  match find_copy t d live None with
  | (false, Some copy) =>
      foldl (λ t id, match replica_for t id ≫= λ r, peek_slot r d with
                     | Some _ => t
                     | None => on_replica (cold_install_slot d copy) t id
                     end) t live
  | _ => foldl (on_replica (cold_mark_empty d)) t live
  end.

Definition run_resolution (t : MemTransport) (caller : peer_id_t) (term upto : Z) :
    result error_condition resolution_result * MemTransport :=
  match resolution_gate t caller term with
  | Err e => (Err e, t)
  | Ok live =>
      let floor := resolution_floor t live in
      let t := foldl (resolution_slot live) t (range (floor + 1) upto) in
      let t := foldl (on_replica (cold_apply_sync upto)) t live in
      (Ok (Mk_resolution_result upto
             (match replica_for t caller with Some r => peek_empties r upto | None => [] end)), t)
  end.

(** *** Logout *)

Definition run_logout (t : MemTransport) (caller : peer_id_t) : result error_condition unit * MemTransport :=
  if negb (net_is_up t caller) then (craft_fail REPLICA_DOWN, t)
  else if negb (bool_decide (caller = leader_ t)) then (craft_fail NOT_LEADER, t)
  else (Ok tt, foldl (on_replica cold_apply_logout) t (live_replicas t)).

(** ** The replica verbs that enter the cold path

    [MemCraftReplica::login], [logout] and [request_resolution] of a replica that has a
    transport. *)

Definition replica_login (t : MemTransport) (caller : peer_id_t) (client_token : Z) :
    result error_condition LoginResult * MemTransport :=
  if negb (net_is_up t caller) then (craft_fail REPLICA_DOWN, t) else run_login t caller client_token.

Definition caller_term (t : MemTransport) (caller : peer_id_t) : Z :=
  match replica_for t caller with Some r => term_of r | None => 0 end.

Definition replica_logout (t : MemTransport) (caller : peer_id_t) (hdr : client_hdr) :
    result error_condition unit * MemTransport :=
  if negb (net_is_up t caller) then (craft_fail REPLICA_DOWN, t)
  else if negb (ch_term hdr =? caller_term t caller) then (craft_fail STALE_TERM, t)
  else run_logout t caller.

Definition request_resolution (t : MemTransport) (caller : peer_id_t) (hdr : client_hdr) (upto : Z) :
    result error_condition resolution_result * MemTransport :=
  if negb (net_is_up t caller) then (craft_fail REPLICA_DOWN, t)
  else if negb (ch_term hdr =? caller_term t caller) then (craft_fail STALE_TERM, t)
  else run_resolution t caller (ch_term hdr) upto.

(** ** The group factory *)

Definition xor_at (i : nat) (b : Z) (id : list Z) : list Z := alter (λ x, Z.lxor x (wrap 8 b)) i id.

Definition mem_replica_id (vol_id : volume_id_t) (index : Z) : peer_id_t :=
  let id := xor_at 12 (Z.land index 255) vol_id in
  let id := xor_at 13 (Z.land (Z.shiftr index 8) 255) id in
  let id := xor_at 14 (Z.land (Z.shiftr index 16) 255) id in
  xor_at 15 (Z.land (Z.shiftr index 24) 255) id.

(** ["mem://replica-" + std::to_string(i)]. *)
Definition mem_replica_addr (i : Z) : list Z := string_bytes ("mem://replica-" +:+ pretty i).

Definition mem_members (vol_id : volume_id_t) (n : Z) : list replica_endpoint :=
  (λ i, Mk_endpoint (mem_replica_id vol_id i) (mem_replica_addr i)) <$> range 0 (n - 1).

Definition make_mem_replica_group (vol_id : volume_id_t) (n page_size capacity max_tx : Z) : MemTransport :=
  let members := mem_members vol_id n in
  foldl (λ t m, register_replica (mk_replica m page_size) t)
    (mk_transport members page_size capacity max_tx) members.
