(* ===== verification/ClusterSpec.v ===== *)
(** * What the cold path promises

    The invariant of a cluster (distinct members, each registered, each replica well-formed
    and at a term the transport has issued), that login, resolution, logout and the fault
    knobs keep it, and what a login and a resolution round achieve on the live quorum. *)

From S2P Require Import Prelude Codec WireTypes Wire Types Replica ReplicaSpec ReplicaRun Cluster.

Local Open Scope craft_scope.
Local Open Scope Z_scope.

(** ** Calls over the live set *)

(** What a pass over the replicas leaves alone. *)
Definition same_config (t t' : MemTransport) : Prop :=
  members_ t' = members_ t ∧ leader_ t' = leader_ t ∧ term_ t' = term_ t ∧
  lba_size_ t' = lba_size_ t ∧ capacity_ t' = capacity_ t ∧ max_tx_ t' = max_tx_ t ∧
  op_timeout_ms_ t' = op_timeout_ms_ t.

#[global] Instance same_config_preorder : PreOrder same_config.
Proof. split; [done|]. unfold same_config. intros t1 t2 t3 ? ?. destruct_and!. split_and!; congruence. Qed.

Lemma foldl_config {A} (g : MemTransport → A → MemTransport) t l :
  (∀ t x, same_config t (g t x)) → same_config t (foldl g t l).
Proof. intros Hg. revert t. induction l as [|x l IH]; intros t; simpl; [done|]. by trans (g t x). Qed.

Lemma on_replica_config f t id : same_config t (on_replica f t id).
Proof. done. Qed.

(** A pass that treats each listed replica on its own. *)
Definition updates (g : MemTransport → peer_id_t → MemTransport) (f : MemCraftReplica → MemCraftReplica) : Prop :=
  ∀ t id, same_config t (g t id) ∧ by_id_ (g t id) = alter f id (by_id_ t).

Lemma on_replica_updates f : updates (on_replica f) f.
Proof. done. Qed.

Lemma updates_fold g f t ids :
  updates g f → NoDup ids →
  same_config t (foldl g t ids) ∧
  ∀ id, by_id_ (foldl g t ids) !! id =
    if decide (id ∈ ids) then f <$> by_id_ t !! id else by_id_ t !! id.
Proof.
  intros Hg Hnd. split; [apply foldl_config; apply Hg|].
  revert t. induction Hnd as [|i ids Hi _ IH]; intros t id; simpl; [done|].
  rewrite IH, (proj2 (Hg t i)). destruct (decide (id = i)) as [->|Hne].
  - rewrite decide_False, decide_True by (done || left). apply lookup_alter_eq.
  - rewrite lookup_alter_ne by done. destruct (decide (id ∈ ids)).
    + by rewrite decide_True by by right.
    + rewrite decide_False; [done|]. by intros [->|]%elem_of_cons.
Qed.

Lemma alter_if (P : MemCraftReplica → bool) (f : MemCraftReplica → MemCraftReplica) (id : peer_id_t) (m : gmap peer_id_t MemCraftReplica) :
  alter (λ r, if P r then f r else r) id m =
    match m !! id with Some r => if P r then alter f id m else m | None => m end.
Proof.
  apply map_eq. intros i. destruct (decide (i = id)) as [->|Hne].
  - rewrite lookup_alter_eq. destruct (m !! id) as [r|] eqn:Hr; [|done].
    simpl. destruct (P r); [by rewrite lookup_alter_eq, Hr|done].
  - rewrite lookup_alter_ne by done. destruct (m !! id) as [r|]; [|done].
    destruct (P r); [by rewrite lookup_alter_ne|done].
Qed.

(** A pass with a test in front of each call. *)
Lemma updates_if (P : MemCraftReplica → bool) (c : MemTransport → peer_id_t → bool) f :
  (∀ t id r, by_id_ t !! id = Some r → c t id = P r) →
  updates (λ t id, if c t id then on_replica f t id else t) (λ r, if P r then f r else r).
Proof.
  intros Hc t id. split; [by destruct (c t id)|]. rewrite alter_if.
  destruct (by_id_ t !! id) as [r|] eqn:Hr.
  - rewrite (Hc t id r Hr). by destruct (P r).
  - destruct (c t id); [|done]. simpl. apply map_eq. intros i. destruct (decide (i = id)) as [->|Hne].
    + by rewrite lookup_alter_eq, Hr.
    + by rewrite lookup_alter_ne.
Qed.

Lemma login_truncate_updates rs :
  updates (λ t id, if rs <? lp_last_append (peek_of t id) then on_replica (cold_truncate_above rs) t id else t)
    (λ r, if rs <? append_of r then cold_truncate_above rs r else r).
Proof.
  apply (updates_if (λ r, rs <? append_of r) (λ t id, rs <? lp_last_append (peek_of t id))).
  intros t id r Hr. unfold peek_of, replica_for. by rewrite Hr.
Qed.

(** ** The invariant *)

Record cluster_inv (t : MemTransport) : Prop := {
  cv_members : NoDup (ep_id <$> members_ t);
  cv_registered m : m ∈ members_ t → is_Some (by_id_ t !! ep_id m);
  cv_replicas id r : by_id_ t !! id = Some r → replica_inv r ∧ term_of r ≤ term_ t;
  cv_page id r : by_id_ t !! id = Some r → page_size_ r = lba_size_ t;
  cv_term : 0 ≤ term_ t < 2 ^ 64;
}.

Lemma live_NoDup t : cluster_inv t → NoDup (live_replicas t).
Proof. intros []. by apply NoDup_filter. Qed.

Lemma elem_of_live t id :
  id ∈ live_replicas t ↔
    id ∈ ep_id <$> members_ t ∧ ∃ r, by_id_ t !! id = Some r ∧ rf_up (faults_ r) = true.
Proof.
  unfold live_replicas. rewrite list_elem_of_filter. unfold net_is_up, replica_for.
  split.
  - intros [[[r Hr] Hu] Hin]. rewrite Hr in Hu. eauto.
  - intros [Hin (r & Hr & Hu)]. rewrite Hr. split; [|done]. eauto.
Qed.

(** A pass keeps the invariant when the call keeps the replica's. *)
Lemma cluster_inv_updates g f t ids :
  cluster_inv t → updates g f → NoDup ids →
  (∀ id r, by_id_ t !! id = Some r → id ∈ ids → replica_inv r → term_of r ≤ term_ t →
     replica_inv (f r) ∧ term_of (f r) ≤ term_ t ∧ page_size_ (f r) = page_size_ r) →
  cluster_inv (foldl g t ids).
Proof.
  intros [] Hg Hnd Hf. destruct (updates_fold g f t ids Hg Hnd) as [Hc Hl].
  unfold same_config in Hc. destruct Hc as (Hm & _ & Ht & Hz & _). split; rewrite ?Hm, ?Ht, ?Hz; try done.
  - intros m Hin. rewrite Hl. destruct (cv_registered0 m Hin) as [r ->]. case_decide; eauto.
  - intros id r. rewrite Hl. destruct (by_id_ t !! id) as [r0|] eqn:Hr; [|by case_decide].
    destruct (cv_replicas0 id r0 Hr). case_decide as Hd; intros [= <-]; [|done].
    destruct (Hf id r0) as (? & ? & _); done.
  - intros id r. rewrite Hl. destruct (by_id_ t !! id) as [r0|] eqn:Hr; [|by case_decide].
    destruct (cv_replicas0 id r0 Hr). case_decide as Hd; intros [= <-]; [|by eapply cv_page0].
    destruct (Hf id r0) as (_ & _ & ->); [done..|]. by eapply cv_page0.
Qed.

(** ** Login *)

(** What one live replica goes through. *)
Definition login_replica (rs tok nt : Z) (r : MemCraftReplica) : MemCraftReplica :=
  let r := cold_apply_login tok nt (cold_apply_sync rs r) in
  if rs <? append_of r then cold_truncate_above rs r else r.

Lemma login_peek_spec t live :
  -1 ≤ login_peek t live ∧
  (∀ id, id ∈ live → lp_last_append (peek_of t id) ≤ login_peek t live) ∧
  (login_peek t live = -1 ∨ ∃ id, id ∈ live ∧ login_peek t live = lp_last_append (peek_of t id)).
Proof.
  unfold login_peek. induction live as [|i live IH] using rev_ind; simpl.
  { split_and!; [lia| |by left]. intros id Hid. by apply not_elem_of_nil in Hid. }
  rewrite foldl_app. simpl. destruct IH as (H1 & H2 & H3). set (m := foldl _ (-1) live) in *.
  split_and!; [lia| |].
  - intros id [Hid|Hid%list_elem_of_singleton]%elem_of_app; [specialize (H2 id Hid); lia|subst; lia].
  - destruct (Z.max_spec m (lp_last_append (peek_of t i))) as [[? ->]|[? ->]].
    + right. exists i. split; [apply elem_of_app; right; left|done].
    + destruct H3 as [|(id & Hid & ?)]; [by left|]. right. exists id. split; [apply elem_of_app; by left|done].
Qed.

(** Where a login that passes its gate ends. *)
Lemma run_login_lookup t caller tok :
  cluster_inv t → net_is_up t caller = true → caller = leader_ t →
  (quorum (length (members_ t)) ≤ length (live_replicas t))%nat →
  let live := live_replicas t in
  let rs := login_peek t live in
  let nt := u64 (term_ t + 1) in
  let '(res, t') := run_login t caller tok in
  res = Ok (Mk_LoginResult (members_ t) rs nt (lba_size_ t) (capacity_ t) nil_uuid (max_tx_ t)) ∧
  same_config (set_term t nt) t' ∧
  ∀ id, by_id_ t' !! id =
    if decide (id ∈ live) then login_replica rs tok nt <$> by_id_ t !! id else by_id_ t !! id.
Proof.
  intros I Hup -> Hq live rs nt. pose proof (live_NoDup t I) as Hnd. fold live in Hnd.
  unfold run_login, login_gate. rewrite Hup, bool_decide_eq_true_2 by done. simpl.
  fold live in Hq |- *. rewrite decide_False by (apply Nat.le_ngt, Hq).
  change (login_peek (set_term t (u64 (term_ t + 1))) live) with rs. simpl. fold nt.
  unfold login_sync, login_internal, login_truncate.
  destruct (updates_fold _ _ (set_term t nt) live (on_replica_updates (cold_apply_sync rs)) Hnd) as [C1 L1].
  set (t1 := foldl _ (set_term t nt) live) in *.
  destruct (updates_fold _ _ t1 live (on_replica_updates (cold_apply_login tok nt)) Hnd) as [C2 L2].
  set (t2 := foldl _ t1 live) in *.
  destruct (updates_fold _ _ t2 live (login_truncate_updates rs) Hnd) as [C3 L3].
  set (t3 := foldl _ t2 live) in *.
  assert (same_config (set_term t nt) t3) as C by (trans t1; [done|]; by trans t2).
  split_and!; [|done|].
  - unfold same_config in C. destruct_and! C. simpl in *. congruence.
  - intros id. rewrite L3, L2, L1. change (by_id_ (set_term t nt)) with (by_id_ t).
    case_decide; [|done]. by destruct (by_id_ t !! id).
Qed.

Lemma login_replica_spec rs tok nt r :
  replica_inv r → append_of r ≤ rs →
  let r' := login_replica rs tok nt r in
  replica_inv r' ∧ journal_ r' = journal_ r ∧ term_of r' = nt ∧
  ps_client_token (state_ r') = tok ∧ append_of r' = append_of r ∧ commit_of r ≤ commit_of r' ∧
  (commit_of r' < rs → journal_ r !! (commit_of r' + 1) = None) ∧ faults_ r' = faults_ r ∧
  page_size_ r' = page_size_ r.
Proof.
  intros I Ha r'. destruct (apply_up_to_spec rs r I) as (I' & Hs & Hc & Hstop).
  unfold same_but_applied in Hs. destruct_and! Hs.
  assert (r' = cold_apply_login tok nt (apply_up_to rs r)) as ->.
  { unfold r', login_replica, cold_apply_sync. rewrite (proj2 (Z.ltb_ge _ _)); [done|].
    change (append_of (apply_up_to rs r) ≤ rs). lia. }
  split_and!; try done; [by apply cold_apply_login_inv|]. change (commit_of r ≤ commit_of (apply_up_to rs r)). lia.
Qed.

(** Two quorums of the same members meet. *)
Lemma quorum_meet (ms A B : list peer_id_t) :
  NoDup A → NoDup B → A ⊆ ms → B ⊆ ms →
  (quorum (length ms) ≤ length A)%nat → (quorum (length ms) ≤ length B)%nat →
  ∃ x, x ∈ A ∧ x ∈ B.
Proof.
  intros HA HB HAm HBm HqA HqB. unfold quorum in *.
  destruct (decide (Exists (λ x, x ∈ B) A)) as [He|He]; [by apply Exists_exists in He|].
  exfalso. assert (A ++ B ⊆+ ms) as Hsub.
  { apply NoDup_submseteq.
    - apply NoDup_app. split_and!; [done| |done]. intros x HxA HxB. apply He, Exists_exists. eauto.
    - intros x [Hx|Hx]%elem_of_app; [by apply HAm|by apply HBm]. }
  apply submseteq_length in Hsub. rewrite length_app in Hsub.
  pose proof (Nat.div_mod_eq (length ms) 2). pose proof (Nat.mod_upper_bound (length ms) 2). lia.
Qed.

(** [holders] all hold a slot for dLSN [d]. *)
Definition all_hold (t : MemTransport) (d : Z) (holders : list peer_id_t) : Prop :=
  ∀ id, id ∈ holders → ∃ r, by_id_ t !! id = Some r ∧ is_Some (journal_ r !! d).

Lemma live_subset t : live_replicas t ⊆ ep_id <$> members_ t.
Proof. intros id Hid. by apply elem_of_live in Hid as [? _]. Qed.

Lemma login_peek_bound t id r :
  cluster_inv t → id ∈ live_replicas t → by_id_ t !! id = Some r →
  append_of r ≤ login_peek t (live_replicas t).
Proof.
  intros I Hid Hr. destruct (login_peek_spec t (live_replicas t)) as (_ & Hmax & _).
  specialize (Hmax id Hid). unfold peek_of, replica_for in Hmax. by rewrite Hr in Hmax.
Qed.

(** Whatever a quorum holds, a live member holds, and the login starts above it. *)
Lemma login_covers t d holders :
  cluster_inv t → (quorum (length (members_ t)) ≤ length (live_replicas t))%nat →
  NoDup holders → holders ⊆ ep_id <$> members_ t →
  (quorum (length (members_ t)) ≤ length holders)%nat → all_hold t d holders →
  d ≤ login_peek t (live_replicas t) ∧
  ∃ id r, id ∈ live_replicas t ∧ by_id_ t !! id = Some r ∧ is_Some (journal_ r !! d).
Proof.
  intros I Hq Hnd Hsub Hh Hall.
  destruct (quorum_meet (ep_id <$> members_ t) (live_replicas t) holders) as (id & Hl & Hin);
    try done; try (rewrite length_fmap; done); [by apply live_NoDup|apply live_subset|].
  destruct (Hall id Hin) as (r & Hr & Hs). split; [|by exists id, r].
  pose proof (login_peek_bound t id r I Hl Hr). destruct (cv_replicas t I id r Hr) as [Ir _].
  pose proof (rv_append r Ir d Hs). lia.
Qed.

Lemma login_cluster_inv t t' rs tok nt :
  cluster_inv t → (∀ id r, id ∈ live_replicas t → by_id_ t !! id = Some r → append_of r ≤ rs) →
  term_ t ≤ nt < 2 ^ 64 → same_config (set_term t nt) t' →
  (∀ id, by_id_ t' !! id =
     if decide (id ∈ live_replicas t) then login_replica rs tok nt <$> by_id_ t !! id else by_id_ t !! id) →
  cluster_inv t'.
Proof.
  intros [] Hrs Hnt Hc Hl. unfold same_config in Hc. destruct Hc as (Hm & _ & Ht & Hz & _). simpl in *.
  split; rewrite ?Hm, ?Ht, ?Hz; try done; try lia.
  - intros m Hin. rewrite Hl. destruct (cv_registered0 m Hin) as [r ->]. case_decide; eauto.
  - intros id r. rewrite Hl. destruct (by_id_ t !! id) as [r0|] eqn:Hr; [|by case_decide].
    destruct (cv_replicas0 id r0 Hr) as [I0 T0]. case_decide as Hd; intros [= <-].
    + destruct (login_replica_spec rs tok nt r0 I0) as (? & _ & -> & _); [by eapply Hrs|]. split; [done|lia].
    + split; [done|lia].
  - intros id r. rewrite Hl. destruct (by_id_ t !! id) as [r0|] eqn:Hr; [|by case_decide].
    destruct (cv_replicas0 id r0 Hr) as [I0 T0]. case_decide as Hd; intros [= <-]; [|by eapply cv_page0].
    destruct (login_replica_spec rs tok nt r0 I0) as (_ & _ & _ & _ & _ & _ & _ & _ & ->);
      [by eapply Hrs|by eapply cv_page0].
Qed.

(** ** Resolution *)

Definition slot_at (t : MemTransport) (id : peer_id_t) (d : Z) : option MemJournalSlot :=
  replica_for t id ≫= λ r, peek_slot r d.

Lemma find_copy_spec t d live copy :
  match find_copy t d live copy with
  | (true, _) => ∃ id s, id ∈ live ∧ slot_at t id d = Some s ∧ js_is_empty s = true
  | (false, o) =>
      (∀ id s, id ∈ live → slot_at t id d = Some s → js_is_empty s = false) ∧
      match o with
      | Some c => copy = Some c ∨ copy = None ∧ ∃ id, id ∈ live ∧ slot_at t id d = Some c
      | None => copy = None ∧ ∀ id, id ∈ live → slot_at t id d = None
      end
  end.
Proof.
  revert copy. induction live as [|i live IH]; intros copy; cbn [find_copy].
  { split; [by intros ? ? ?%not_elem_of_nil|]. destruct copy; [by left|].
    split; [done|by intros ? ?%not_elem_of_nil]. }
  fold (slot_at t i d). destruct (slot_at t i d) as [s|] eqn:Hs.
  - destruct (js_is_empty s) eqn:He; [by exists i, s; split; [left|]|].
    set (copy' := match copy with None => Some s | Some _ => copy end).
    specialize (IH copy'). destruct (find_copy t d live copy') as [[] o].
    + destruct IH as (id & s' & ? & ?). exists id, s'. split; [by right|done].
    + destruct IH as [IH1 IH2]. split.
      * intros id s' [->|Hid]%elem_of_cons Hs'; [congruence|by eapply IH1].
      * destruct o as [c|].
        -- destruct IH2 as [Hc|[Hc (id & ? & ?)]]; [|by destruct copy].
           destruct copy as [c0|]; [by left|]. injection Hc as <-. right. split; [done|].
           exists i. split; [left|done].
        -- destruct IH2 as [Hc _]. by destruct copy.
  - specialize (IH copy). destruct (find_copy t d live copy) as [[] o].
    + destruct IH as (id & s' & ? & ?). exists id, s'. split; [by right|done].
    + destruct IH as [IH1 IH2]. split.
      * intros id s' [->|Hid]%elem_of_cons Hs'; [congruence|by eapply IH1].
      * destruct o as [c|].
        -- destruct IH2 as [|[? (id & ? & ?)]]; [by left|]. right. split; [done|].
           exists id. split; [by right|done].
        -- destruct IH2 as [? Hn]. split; [done|]. intros id [->|Hid]%elem_of_cons; [done|by apply Hn].
Qed.

(** What a round does to one live replica at one dLSN. *)
Definition resolve_replica (v : bool * option MemJournalSlot) (d : Z) : MemCraftReplica → MemCraftReplica :=
  match v with
  | (false, Some copy) => cold_install_slot d copy
  | _ => cold_mark_empty d
  end.

Lemma alter_noop {A} (f : A → A) (i : peer_id_t) (m : gmap peer_id_t A) :
  (∀ x, m !! i = Some x → f x = x) → alter f i m = m.
Proof.
  intros Hf. apply map_eq. intros j. destruct (decide (j = i)) as [->|].
  - rewrite lookup_alter_eq. destruct (m !! i) eqn:Hi; [|done]. simpl. by rewrite Hf.
  - by rewrite lookup_alter_ne.
Qed.

Lemma resolve_slot_spec live t d :
  NoDup live →
  same_config t (resolution_slot live t d) ∧
  ∀ id, by_id_ (resolution_slot live t d) !! id =
    if decide (id ∈ live) then resolve_replica (find_copy t d live None) d <$> by_id_ t !! id
    else by_id_ t !! id.
Proof.
  intros Hnd. unfold resolution_slot, resolve_replica.
  destruct (find_copy t d live None) as [[] [copy|]];
    try (apply updates_fold; [apply on_replica_updates|done]).
  apply updates_fold; [|done]. intros t0 id. fold (slot_at t0 id d).
  destruct (slot_at t0 id d) as [s|] eqn:Hs; [|done]. split; [done|]. symmetry. apply alter_noop.
  intros r Hr. unfold slot_at, replica_for, peek_slot in Hs. rewrite Hr in Hs. simpl in Hs.
  unfold cold_install_slot. by rewrite decide_True by eauto.
Qed.

Definition resolved_slot (v : bool * option MemJournalSlot) (term : Z) (o : option MemJournalSlot) :
    option MemJournalSlot :=
  match v with
  | (false, Some copy) => Some (default copy o)
  | _ => Some (empty_slot term)
  end.

(** [r'] is [r] but for its journal and watermarks. *)
Definition same_session (r r' : MemCraftReplica) : Prop :=
  term_of r' = term_of r ∧ page_size_ r' = page_size_ r ∧ faults_ r' = faults_ r ∧
  ps_client_token (state_ r') = ps_client_token (state_ r).

Lemma resolve_replica_spec v d r :
  let r' := resolve_replica v d r in
  same_session r r' ∧ commit_of r' = commit_of r ∧
  ∀ d', journal_ r' !! d' =
    if decide (d' = d) then resolved_slot v (term_of r) (journal_ r !! d) else journal_ r !! d'.
Proof.
  assert (∀ r, let r' := cold_mark_empty d r in
    same_session r r' ∧ commit_of r' = commit_of r ∧
    ∀ d', journal_ r' !! d' =
      if decide (d' = d) then Some (empty_slot (term_of r)) else journal_ r !! d') as Hmark.
  { intros r0. split_and!; try done. intros d'. simpl. rewrite lookup_insert.
    destruct (decide (d = d')), (decide (d' = d)); congruence. }
  unfold resolve_replica, resolved_slot. destruct v as [[] [copy|]]; try apply Hmark.
  unfold cold_install_slot. destruct (decide (is_Some (journal_ r !! d))) as [[s Hs]|Hn].
  - split_and!; try done. intros d'. case_decide; [|done]. subst. by rewrite Hs.
  - split_and!; try done. intros d'. simpl. rewrite lookup_insert.
    destruct (journal_ r !! d) eqn:Hd; [destruct Hn; eauto|].
    destruct (decide (d = d')), (decide (d' = d)); congruence || done.
Qed.

Lemma find_copy_ext t t' d live copy :
  (∀ id, id ∈ live → slot_at t' id d = slot_at t id d) →
  find_copy t' d live copy = find_copy t d live copy.
Proof.
  revert copy. induction live as [|i live IH]; intros copy Hs; [done|]. cbn [find_copy].
  fold (slot_at t' i d) (slot_at t i d). rewrite Hs by left.
  destruct (slot_at t i d) as [s|]; [destruct (js_is_empty s); [done|]|];
    apply IH; intros; apply Hs; by right.
Qed.

Lemma slot_at_lookup t id r d : by_id_ t !! id = Some r → slot_at t id d = journal_ r !! d.
Proof. intros Hr. unfold slot_at, replica_for, peek_slot. by rewrite Hr. Qed.

(** The other dLSNs see no difference. *)
Lemma slot_at_resolve live t d d' id :
  NoDup live → d' ≠ d → slot_at (resolution_slot live t d) id d' = slot_at t id d'.
Proof.
  intros Hnd Hne. destruct (resolve_slot_spec live t d Hnd) as [_ Hl].
  unfold slot_at, replica_for, peek_slot. rewrite Hl. case_decide; [|done].
  destruct (by_id_ t !! id) as [r|]; [|done]. simpl.
  destruct (resolve_replica_spec (find_copy t d live None) d r) as (_ & _ & ->).
  by rewrite decide_False.
Qed.

Lemma resolve_slots_spec live ds t :
  NoDup live → NoDup ds →
  let t' := foldl (resolution_slot live) t ds in
  same_config t t' ∧ (∀ id, id ∉ live → by_id_ t' !! id = by_id_ t !! id) ∧
  ∀ id r, id ∈ live → by_id_ t !! id = Some r →
    ∃ r', by_id_ t' !! id = Some r' ∧ same_session r r' ∧ commit_of r' = commit_of r ∧
      ∀ d, journal_ r' !! d =
        if decide (d ∈ ds) then resolved_slot (find_copy t d live None) (term_of r) (journal_ r !! d)
        else journal_ r !! d.
Proof.
  intros Hnd Hds. revert t. induction Hds as [|d ds Hd _ IH]; intros t; simpl.
  { split_and!; [done..|]. intros id r _ Hr. exists r. split_and!; done. }
  destruct (resolve_slot_spec live t d Hnd) as [Hc Hl]. set (t1 := resolution_slot live t d) in *.
  destruct (IH t1) as (Hc' & Hout & Hin). split_and!.
  - by trans t1.
  - intros id Hid. rewrite Hout by done. rewrite Hl. by rewrite decide_False.
  - intros id r Hid Hr.
    destruct (Hin id (resolve_replica (find_copy t d live None) d r)) as (r' & Hr' & Hs & Hcm & Hj); [done| |].
    { rewrite Hl, decide_True, Hr by done. done. }
    destruct (resolve_replica_spec (find_copy t d live None) d r) as (Hs1 & Hcm1 & Hj1).
    exists r'. split_and!; [done| |congruence|].
    { unfold same_session in *. destruct_and!. split_and!; congruence. }
    intros d'. rewrite Hj, !Hj1. destruct Hs1 as (-> & _). destruct (decide (d' = d)) as [->|Hne].
    + rewrite decide_False, decide_True by (done || left). done.
    + rewrite (find_copy_ext t t1) by (intros; by apply slot_at_resolve).
      destruct (decide (d' ∈ ds)); [by rewrite decide_True by by right|].
      rewrite decide_False; [done|]. by intros [->|]%elem_of_cons.
Qed.

(** A verdict never contradicts what a live member has committed. *)
Definition agreed (t : MemTransport) (live : list peer_id_t) : Prop :=
  ∀ id id' r r' d, id ∈ live → id' ∈ live → by_id_ t !! id = Some r → by_id_ t !! id' = Some r' →
    0 ≤ d ≤ commit_of r → voided r' d → voided r d.

Definition verdict_ok (t : MemTransport) (live : list peer_id_t) (d : Z) : Prop :=
  ∀ id r, id ∈ live → by_id_ t !! id = Some r →
    match find_copy t d live None with
    | (false, Some _) => True
    | _ => commit_of r < d ∨ voided r d
    end.

Lemma agreed_verdict t live d :
  cluster_inv t → (∀ id, id ∈ live → is_Some (by_id_ t !! id)) → agreed t live → 0 ≤ d →
  verdict_ok t live d.
Proof.
  intros I Hreg Ha Hd id r Hid Hr. pose proof (find_copy_spec t d live None) as Hf.
  destruct (decide (commit_of r < d)) as [|Hle].
  { destruct (find_copy t d live None) as [[] []]; auto. }
  destruct (find_copy t d live None) as [[] o].
  - destruct Hf as (id' & s & Hid' & Hs & He). destruct (Hreg id' Hid') as [r' Hr'].
    rewrite (slot_at_lookup _ _ r') in Hs by done. right.
    apply (Ha id id' r r'); [done..|lia|by exists s].
  - destruct Hf as [_ Hf]. destruct o; [done|]. destruct Hf as [_ Hf]. specialize (Hf id Hid).
    rewrite (slot_at_lookup _ _ r) in Hf by done. exfalso.
    destruct (cv_replicas t I id r Hr) as [Ir _]. destruct (rv_prefix r Ir d) as [s Hs]; [lia|congruence].
Qed.

Lemma resolve_slot_inv live t d :
  cluster_inv t → NoDup live → verdict_ok t live d → cluster_inv (resolution_slot live t d).
Proof.
  intros I Hnd Hv. pose proof (find_copy_spec t d live None) as Hf.
  destruct (resolve_slot_spec live t d Hnd) as [Hc Hl].
  assert (∀ id r, id ∈ live → by_id_ t !! id = Some r →
            replica_inv (resolve_replica (find_copy t d live None) d r)) as Hri.
  { intros id r Hid Hr. specialize (Hv id r Hid Hr). destruct (cv_replicas t I id r Hr) as [Ir _].
    destruct (find_copy t d live None) as [[] [c|]]; try by apply cold_mark_empty_inv.
    apply cold_install_slot_inv; [done|].
    destruct Hf as [_ [[=]|[_ (id' & Hid' & Hs)]]]. unfold slot_at, replica_for, peek_slot in Hs.
    destruct (by_id_ t !! id') as [r'|] eqn:Hr'; [|done]. simpl in Hs.
    rewrite (cv_page t I id r Hr), <-(cv_page t I id' r' Hr').
    apply (rv_slots r' (proj1 (cv_replicas t I id' r' Hr')) d c Hs). }
  unfold same_config in Hc. destruct Hc as (Hm & _ & Ht & Hz & _). destruct I.
  split; rewrite ?Hm, ?Ht, ?Hz; try done.
  - intros m Hin. rewrite Hl. destruct (cv_registered0 m Hin) as [r ->]. case_decide; eauto.
  - intros id r. rewrite Hl. destruct (by_id_ t !! id) as [r0|] eqn:Hr; [|by case_decide].
    case_decide as Hd; intros [= <-]; [|eauto]. split; [by eapply Hri|].
    destruct (resolve_replica_spec (find_copy t d live None) d r0) as ((-> & _) & _). by eapply cv_replicas0.
  - intros id r. rewrite Hl. destruct (by_id_ t !! id) as [r0|] eqn:Hr; [|by case_decide].
    case_decide as Hd; intros [= <-]; [|by eapply cv_page0].
    destruct (resolve_replica_spec (find_copy t d live None) d r0) as ((_ & -> & _) & _). by eapply cv_page0.
Qed.

Lemma verdict_ok_resolve live t d d' :
  NoDup live → d' ≠ d → verdict_ok t live d' → verdict_ok (resolution_slot live t d) live d'.
Proof.
  intros Hnd Hne Hv id r Hid. destruct (resolve_slot_spec live t d Hnd) as [_ Hl].
  rewrite Hl, decide_True by done. destruct (by_id_ t !! id) as [r0|] eqn:Hr; [|done]. intros [= <-].
  specialize (Hv id r0 Hid Hr).
  rewrite (find_copy_ext t) by (intros; by apply slot_at_resolve).
  destruct (resolve_replica_spec (find_copy t d live None) d r0) as (_ & Hc & Hj).
  unfold voided. rewrite Hc, Hj, decide_False by done. exact Hv.
Qed.

Lemma resolve_slots_inv live ds t :
  cluster_inv t → NoDup live → NoDup ds → (∀ d, d ∈ ds → verdict_ok t live d) →
  cluster_inv (foldl (resolution_slot live) t ds).
Proof.
  intros I Hnd Hds. revert t I. induction Hds as [|d ds Hd _ IH]; intros t I Hv; simpl; [done|].
  apply IH; [apply resolve_slot_inv; [done..|apply Hv; left]|].
  intros d' Hd'. apply verdict_ok_resolve; [done|by intros ->|apply Hv; by right].
Qed.

Lemma resolution_floor_spec t live :
  (∀ id, id ∈ live → -1 ≤ lp_commit (peek_of t id)) →
  -1 ≤ resolution_floor t live ∧ ∀ id, id ∈ live → resolution_floor t live ≤ lp_commit (peek_of t id).
Proof.
  intros Hb. unfold resolution_floor.
  assert (∀ l f, -1 ≤ f → (∀ id, id ∈ l → -1 ≤ lp_commit (peek_of t id)) →
    let m := foldl (λ f id, Z.min f (lp_commit (peek_of t id))) f l in
    -1 ≤ m ≤ f ∧ ∀ id, id ∈ l → m ≤ lp_commit (peek_of t id)) as Haux.
  { induction l as [|i l IH]; intros f Hf Hl; simpl; [split; [lia|by intros ? ?%not_elem_of_nil]|].
    pose proof (Hl i ltac:(left)). destruct (IH (Z.min f (lp_commit (peek_of t i)))) as [H1 H2];
      [lia|intros; apply Hl; by right|]. split; [lia|].
    intros id [->|Hid]%elem_of_cons; [lia|by apply H2]. }
  destruct (Haux live int64_max) as [[? _] ?]; [done..|]. done.
Qed.

(** The commit at the end of the round reaches [upto] on a replica that has every slot. *)
Lemma sync_complete r upto :
  replica_inv r → (∀ d, commit_of r < d ≤ upto → is_Some (journal_ r !! d)) →
  commit_of (apply_up_to upto r) = Z.max (commit_of r) upto.
Proof.
  intros I Hall. destruct (apply_up_to_spec upto r I) as (_ & _ & Hc & Hstop).
  destruct (decide (commit_of (apply_up_to upto r) < upto)) as [Hlt|]; [|lia].
  destruct (Hall (commit_of (apply_up_to upto r) + 1)) as [s Hs]; [lia|].
  rewrite Hstop in Hs by done. done.
Qed.

Lemma elem_of_peek_empties r upto d : d ∈ peek_empties r upto ↔ d ≤ upto ∧ voided r d.
Proof.
  unfold peek_empties, voided. rewrite list_elem_of_fmap. split.
  - intros ([e s] & -> & [[? ?] Hin]%list_elem_of_filter). apply elem_of_entries in Hin. eauto.
  - intros [? (s & Hs & He)]. exists (d, s). split; [done|]. apply list_elem_of_filter.
    split; [done|]. by apply elem_of_entries.
Qed.

Lemma peek_empties_sorted r upto : StronglySorted Z.lt (peek_empties r upto).
Proof. apply StronglySorted_fst_filter, entries_sorted. Qed.

Lemma live_registered t id : id ∈ live_replicas t → is_Some (by_id_ t !! id).
Proof. intros [_ (r & ? & _)]%elem_of_live. eauto. Qed.

(** Every slot up to the target is decided on every live member. *)
Lemma resolved_present t live floor upto id r d :
  cluster_inv t → by_id_ t !! id = Some r → floor ≤ commit_of r → commit_of r < d ≤ upto →
  is_Some (if decide (d ∈ range (floor + 1) upto)
           then resolved_slot (find_copy t d live None) (term_of r) (journal_ r !! d)
           else journal_ r !! d).
Proof.
  intros I Hr Hf Hd. rewrite decide_True by (apply elem_of_range; lia).
  unfold resolved_slot. destruct (find_copy t d live None) as [[] []]; eauto.
Qed.

Lemma run_resolution_aux t caller term upto :
  cluster_inv t → net_is_up t caller = true → caller = leader_ t → term = term_ t →
  (quorum (length (members_ t)) ≤ length (live_replicas t))%nat → agreed t (live_replicas t) →
  let live := live_replicas t in
  let floor := resolution_floor t live in
  ∃ t', run_resolution t caller term upto =
      (Ok (Mk_resolution_result upto
             (match by_id_ t' !! caller with Some r => peek_empties r upto | None => [] end)), t') ∧
    same_config t t' ∧ cluster_inv t' ∧ (∀ id, id ∉ live → by_id_ t' !! id = by_id_ t !! id) ∧
    ∀ id r, id ∈ live → by_id_ t !! id = Some r →
      ∃ r', by_id_ t' !! id = Some r' ∧ same_session r r' ∧ commit_of r' = Z.max (commit_of r) upto ∧
        ∀ d, journal_ r' !! d =
          if decide (d ∈ range (floor + 1) upto)
          then resolved_slot (find_copy t d live None) (term_of r) (journal_ r !! d)
          else journal_ r !! d.
Proof.
  intros I Hup -> -> Hq Ha live floor. pose proof (live_NoDup t I) as Hnd. fold live in Hnd, Hq, Ha.
  assert (∀ id r, id ∈ live → by_id_ t !! id = Some r → -1 ≤ floor ≤ commit_of r) as Hfl.
  { assert (∀ id, id ∈ live → -1 ≤ lp_commit (peek_of t id)) as Hb.
    { intros id Hid. unfold peek_of, replica_for. destruct (live_registered t id Hid) as [r Hr]. rewrite Hr.
      apply (rv_commit r (proj1 (cv_replicas t I id r Hr))). }
    destruct (resolution_floor_spec t live Hb) as [H1 H2]. intros id r Hid Hr. specialize (H2 id Hid).
    unfold peek_of, replica_for in H2. rewrite Hr in H2. done. }
  destruct (resolve_slots_spec live (range (floor + 1) upto) t Hnd (NoDup_range _ _)) as (Hc1 & Ho1 & Hi1).
  set (t1 := foldl (resolution_slot live) t (range (floor + 1) upto)) in *.
  assert (cluster_inv t1) as I1.
  { apply resolve_slots_inv; [done..|apply NoDup_range|]. intros d Hd%elem_of_range.
    apply agreed_verdict; [done|apply live_registered|done|].
    destruct live as [|i live'] eqn:El; [unfold quorum in Hq; simpl in Hq; lia|].
    destruct (live_registered t i) as [r Hr]; [fold live; rewrite El; left|].
    specialize (Hfl i r ltac:(left) Hr). lia. }
  destruct (updates_fold _ _ t1 live (on_replica_updates (cold_apply_sync upto)) Hnd) as [Hc2 Hl2].
  set (t2 := foldl (on_replica (cold_apply_sync upto)) t1 live) in *.
  exists t2. split_and!.
  - unfold run_resolution, resolution_gate.
    rewrite Hup, bool_decide_eq_true_2, Z.eqb_refl by done. simpl. fold live.
    rewrite decide_False by (apply Nat.le_ngt, Hq). done.
  - by trans t1.
  - apply (cluster_inv_updates _ (cold_apply_sync upto)); [done|apply on_replica_updates|done|].
    intros id r Hr Hid Ir Htr. destruct (apply_up_to_spec upto r Ir) as (I' & Hs & _).
    unfold same_but_applied in Hs. destruct_and! Hs. split_and!; [done|unfold cold_apply_sync; lia|done].
  - intros id Hid. rewrite Hl2, decide_False by done. by apply Ho1.
  - intros id r Hid Hr. destruct (Hi1 id r Hid Hr) as (r1 & Hr1 & Hs1 & Hcm1 & Hj1).
    exists (apply_up_to upto r1). rewrite Hl2, decide_True, Hr1 by done.
    destruct (cv_replicas t1 I1 id r1 Hr1) as [Ir1 _].
    destruct (apply_up_to_spec upto r1 Ir1) as (_ & Hs & _). unfold same_but_applied in Hs. destruct_and! Hs.
    split_and!; [done| | |].
    + unfold same_session in *. destruct_and!. split_and!; congruence.
    + rewrite sync_complete, Hcm1; [done|done|]. intros d Hd. rewrite Hj1. rewrite Hcm1 in Hd.
      eapply resolved_present; [done|done| |done]. by eapply Hfl.
    + intros d. rewrite <-Hj1. by f_equal.
Qed.
