(* ===== verification/ClusterRun.v ===== *)
(** * The cold path: properties

    The group factory, login (what it covers, what it fences, and the acknowledged write a
    concurrent login can lose), and resolution. *)

From S2P Require Import Prelude Codec WireTypes Wire Types Replica ReplicaSpec ReplicaRun.
From S2P Require Import Cluster ClusterSpec.

Local Open Scope craft_scope.
Local Open Scope Z_scope.

(** ** The group factory *)

Lemma xor_byte_inj x a b : 0 ≤ a < 256 → 0 ≤ b < 256 → Z.lxor x (wrap 8 a) = Z.lxor x (wrap 8 b) → a = b.
Proof.
  intros Ha Hb. unfold wrap. change (2 ^ 8) with 256. rewrite !Z.mod_small by lia. intros He.
  apply (f_equal (Z.lxor x)) in He. by rewrite <-!Z.lxor_assoc, Z.lxor_nilpotent, !Z.lxor_0_l in He.
Qed.

Lemma lookup_xor_at i j b (l : list Z) :
  xor_at i b l !! j = if decide (i = j) then (λ x, Z.lxor x (wrap 8 b)) <$> l !! j else l !! j.
Proof. unfold xor_at. case_decide; [subst; apply list_lookup_alter_eq|by apply list_lookup_alter_ne]. Qed.

Lemma mem_replica_id_lookup (vol : list Z) i k x :
  vol !! (12 + k)%nat = Some x → (k < 4)%nat →
  mem_replica_id vol i !! (12 + k)%nat =
    Some (Z.lxor x (wrap 8 (Z.land (Z.shiftr i (8 * Z.of_nat k)) 255))).
Proof.
  intros Hx Hk. unfold mem_replica_id. rewrite !lookup_xor_at.
  destruct k as [|[|[|[|k]]]]; [..|lia]; cbn [Nat.add] in *;
    rewrite Hx; reflexivity.
Qed.

Lemma index_bytes i :
  0 ≤ i < 2 ^ 32 →
  i = Z.land (Z.shiftr i 0) 255 + 256 * Z.land (Z.shiftr i 8) 255 +
      65536 * Z.land (Z.shiftr i 16) 255 + 16777216 * Z.land (Z.shiftr i 24) 255.
Proof.
  intros Hi. change 255 with (Z.ones 8). rewrite !Z.land_ones, !Z.shiftr_div_pow2 by lia.
  change (2 ^ 8) with 256. change (2 ^ 0) with 1. change (2 ^ 16) with 65536.
  change (2 ^ 24) with 16777216. change (2 ^ 32) with 4294967296 in Hi.
  Z.to_euclidean_division_equations. lia.
Qed.

Lemma index_byte_range x : 0 ≤ Z.land x 255 < 256.
Proof. change 255 with (Z.ones 8). rewrite Z.land_ones by lia. apply Z.mod_pos_bound. lia. Qed.

Lemma mem_replica_id_inj (vol : list Z) i j :
  length vol = 16%nat → 0 ≤ i < 2 ^ 32 → 0 ≤ j < 2 ^ 32 →
  mem_replica_id vol i = mem_replica_id vol j → i = j.
Proof.
  intros Hl Hi Hj He.
  assert (∀ k, (k < 4)%nat →
    Z.land (Z.shiftr i (8 * Z.of_nat k)) 255 = Z.land (Z.shiftr j (8 * Z.of_nat k)) 255) as Hb.
  { intros k Hk. destruct (lookup_lt_is_Some_2 vol (12 + k)) as [x Hx]; [lia|].
    pose proof (mem_replica_id_lookup vol i k x Hx Hk) as H1. rewrite He in H1.
    rewrite (mem_replica_id_lookup vol j k x Hx Hk) in H1. injection H1 as H1.
    symmetry in H1. apply xor_byte_inj in H1; [done|apply index_byte_range..]. }
  rewrite (index_bytes i Hi), (index_bytes j Hj).
  assert (∀ k m, k = 8 * Z.of_nat m → (m < 4)%nat →
    Z.land (Z.shiftr i k) 255 = Z.land (Z.shiftr j k) 255) as Hk by (intros k m -> Hm; by apply Hb).
  by rewrite (Hk 0 0%nat), (Hk 8 1%nat), (Hk 16 2%nat), (Hk 24 3%nat) by lia.
Qed.

Lemma register_fold ms t page :
  NoDup (ep_id <$> ms) →
  let t' := foldl (λ t m, register_replica (mk_replica m page) t) t ms in
  same_config t t' ∧
  ∀ id, by_id_ t' !! id =
    match list_find (λ m, ep_id m = id) ms with
    | Some (_, m) => Some (mk_replica m page)
    | None => by_id_ t !! id
    end.
Proof.
  revert t. induction ms as [|m ms IH]; intros t Hnd; simpl; [done|].
  inversion Hnd as [|? ? Hm Hnd']; subst. destruct (IH (register_replica (mk_replica m page) t) Hnd') as [Hc Hl].
  split; [by trans (register_replica (mk_replica m page) t)|]. intros id. rewrite Hl.
  destruct (decide (ep_id m = id)) as [<-|Hne].
  - destruct (list_find (λ m0, ep_id m0 = ep_id m) ms) as [[i m']|] eqn:Hf.
    + apply list_find_Some in Hf as (Hi & He & _). destruct Hm.
      apply list_elem_of_fmap. exists m'. split; [done|by eapply list_elem_of_lookup_2].
    + simpl. apply lookup_insert_eq.
  - destruct (list_find (λ m0, ep_id m0 = id) ms) as [[i m']|]; [done|]. simpl.
    by rewrite lookup_insert_ne.
Qed.

Lemma mem_members_NoDup vol n :
  length vol = 16%nat → 0 < n ≤ 2 ^ 32 → NoDup (ep_id <$> mem_members vol n).
Proof.
  intros Hl Hn. unfold mem_members. rewrite <-list_fmap_compose. simpl.
  assert (∀ i, i ∈ range 0 (n - 1) → 0 ≤ i < 2 ^ 32) as Hr by (intros i ?%elem_of_range; lia).
  revert Hr. generalize (NoDup_range 0 (n - 1)). induction 1 as [|i l Hi _ IH]; intros Hr; simpl; constructor.
  - intros (j & He & Hj)%list_elem_of_fmap. simpl in He.
    apply mem_replica_id_inj in He; [|done|apply Hr; left|apply Hr; by right]. by subst.
  - apply IH. intros. apply Hr. by right.
Qed.

Lemma group_lookup vol n page capacity max_tx id r :
  length vol = 16%nat → 0 < n ≤ 2 ^ 32 →
  by_id_ (make_mem_replica_group vol n page capacity max_tx) !! id = Some r ↔
    ∃ m, m ∈ mem_members vol n ∧ ep_id m = id ∧ r = mk_replica m page.
Proof.
  intros Hl Hn. pose proof (mem_members_NoDup vol n Hl Hn) as Hnd.
  destruct (register_fold (mem_members vol n) (mk_transport (mem_members vol n) page capacity max_tx) page Hnd)
    as [_ Hlk].
  unfold make_mem_replica_group. rewrite Hlk.
  destruct (list_find (λ m, ep_id m = id) (mem_members vol n)) as [[i m]|] eqn:Hf.
  - apply list_find_Some in Hf as (Hi & He & _). split.
    + intros [= <-]. exists m. split; [by eapply list_elem_of_lookup_2|done].
    + intros (m' & Hm' & He' & ->). do 2 f_equal. apply list_elem_of_lookup in Hm' as [j Hj].
      assert (i = j); [|congruence]. subst id. apply (NoDup_lookup (ep_id <$> mem_members vol n) i j (ep_id m'));
        [done|rewrite list_lookup_fmap, Hi; simpl; congruence|by rewrite list_lookup_fmap, Hj].
  - split; [done|]. intros (m' & Hm' & He' & _). rewrite list_find_None, Forall_forall in Hf.
    by destruct (Hf m' Hm').
Qed.

Lemma group_inv vol n page capacity max_tx :
  length vol = 16%nat → 0 < n ≤ 2 ^ 32 → 2 ≤ page < 2 ^ 32 →
  cluster_inv (make_mem_replica_group vol n page capacity max_tx).
Proof.
  intros Hl Hn Hp. pose proof (mem_members_NoDup vol n Hl Hn) as Hnd.
  destruct (register_fold (mem_members vol n) (mk_transport (mem_members vol n) page capacity max_tx) page Hnd)
    as [Hc _].
  fold (make_mem_replica_group vol n page capacity max_tx) in Hc.
  unfold same_config in Hc. destruct Hc as (Hm & _ & Ht & Hz & _). simpl in *.
  split; rewrite ?Hm, ?Ht, ?Hz; try done.
  - intros m Hin. exists (mk_replica m page). apply group_lookup; eauto.
  - intros id r (m & _ & _ & ->)%group_lookup; [|done..]. split; [by apply mk_replica_inv|done].
  - by intros id r (m & _ & _ & ->)%group_lookup.
Qed.

(** ** Example clusters

    Three replicas with pages of four bytes.  [example_session] is after a first login
    (term 1); in [example_partial] one write has reached a quorum, the next only one
    member, and the first member's copy of a third never arrived anywhere. *)

Definition example_group : MemTransport := make_mem_replica_group nil_uuid 3 4 4096 4096.
Definition example_id (i : Z) : peer_id_t := mem_replica_id nil_uuid i.
Definition net_write (hdr : client_hdr) (dlsn addr len : Z) (bytes : option (list Z)) :
    MemTransport → peer_id_t → MemTransport := on_replica (λ r, (do_write r hdr dlsn addr len bytes).2).
Definition session_hdr : client_hdr := Mk_client_hdr 1 (-1) (-1) 9.

Definition example_session : MemTransport := (run_login example_group (example_id 0) 9).2.
Definition example_partial : MemTransport :=
  foldl (net_write session_hdr 0 0 4 (Some [1; 1; 1; 1])) 
    (net_write session_hdr 2 4 4 (Some [3; 3; 3; 3]) example_session (example_id 1))
    [example_id 0; example_id 1].

Lemma example_group_inv : cluster_inv example_group.
Proof. apply group_inv; by_eval. Qed.

Lemma apply_loop_term fuel target next r : term_of (apply_loop fuel target next r) = term_of r.
Proof.
  revert next r. induction fuel as [|fuel IH]; intros next r; simpl; [done|].
  destruct (next <=? target); [|done]. destruct (journal_ r !! next) as [s|]; [|done].
  rewrite IH. by destruct (js_is_empty s).
Qed.

Lemma do_write_term r hdr dlsn addr len bytes : term_of (do_write r hdr dlsn addr len bytes).2 = term_of r.
Proof.
  unfold do_write. repeat case_match; try done; simpl; unfold apply_up_to; by rewrite apply_loop_term.
Qed.

Lemma net_write_inv t id hdr dlsn addr len bytes :
  cluster_inv t → in_u 64 addr → in_u 64 len →
  (∀ r, by_id_ t !! id = Some r → fresh_write r hdr dlsn addr len bytes) →
  cluster_inv (net_write hdr dlsn addr len bytes t id).
Proof.
  intros I Ha Hl Hf. apply (cluster_inv_updates (net_write hdr dlsn addr len bytes)
    (λ r, (do_write r hdr dlsn addr len bytes).2) t [id] I); [apply on_replica_updates|apply NoDup_singleton|].
  intros i r Hr ->%list_elem_of_singleton Ir Ht. rewrite do_write_term.
  split_and!; [by apply do_write_inv; auto|done|]. apply do_write_keeps; auto.
Qed.

(** A login by the leader with a live quorum; the common part of the properties below. *)
Lemma run_login_aux t caller tok :
  cluster_inv t → net_is_up t caller = true → caller = leader_ t → term_ t < 2 ^ 64 - 1 →
  (quorum (length (members_ t)) ≤ length (live_replicas t))%nat →
  let live := live_replicas t in
  let rs := login_peek t live in
  ∃ t', run_login t caller tok =
      (Ok (Mk_LoginResult (members_ t) rs (term_ t + 1) (lba_size_ t) (capacity_ t) nil_uuid (max_tx_ t)), t') ∧
    cluster_inv t' ∧ (∀ id, id ∉ live → by_id_ t' !! id = by_id_ t !! id) ∧
    ∀ id r, id ∈ live → by_id_ t !! id = Some r →
      by_id_ t' !! id = Some (login_replica rs tok (term_ t + 1) r) ∧ append_of r ≤ rs.
Proof.
  intros I Hup Hl Ht Hq live rs. pose proof (run_login_lookup t caller tok I Hup Hl Hq) as Hr.
  cbv zeta in Hr. fold live rs in Hr. destruct (run_login t caller tok) as [res t'].
  assert (u64 (term_ t + 1) = term_ t + 1) as Hu
    by (apply wrap_small; unfold in_u; pose proof (cv_term t I); lia).
  rewrite Hu in Hr. destruct Hr as (-> & Hc & Hlk).
  assert (∀ id r, id ∈ live → by_id_ t !! id = Some r → append_of r ≤ rs) as Ha
    by (intros; by eapply login_peek_bound).
  exists t'. split_and!; [done| | |].
  - eapply login_cluster_inv; [done|exact Ha| |exact Hc|exact Hlk]. pose proof (cv_term t I). lia.
  - intros id Hid. by rewrite Hlk, decide_False.
  - intros id r Hid Hr. rewrite Hlk, decide_True, Hr by done. split; [done|by eapply Ha].
Qed.

Lemma example_session_inv : cluster_inv example_session.
Proof.
  destruct (run_login_aux example_group (example_id 0) 9 example_group_inv) as (t' & Hr & I & _);
    [by_eval..|]. unfold example_session. by rewrite Hr.
Qed.

Ltac fresh_by_eval :=
  let r := fresh "r" in let Hr := fresh "Hr" in
  intros r Hr; vm_compute in Hr; injection Hr as <-; left; by_eval.

Lemma example_partial_inv : cluster_inv example_partial.
Proof.
  unfold example_partial. simpl. repeat (apply net_write_inv; [|by_eval..|fresh_by_eval]).
  exact example_session_inv.
Qed.

(** ** Properties *)

(** A group is well formed from the start: the derived ids of its members are pairwise
    distinct, every member is registered and empty, the first is the leader, and all are
    live. *)
Theorem group_ok vol n page capacity max_tx :
  length vol = 16%nat → 0 < n ≤ 2 ^ 32 → 2 ≤ page < 2 ^ 32 →
  let t := make_mem_replica_group vol n page capacity max_tx in
  cluster_inv t ∧ length (members_ t) = Z.to_nat n ∧ NoDup (ep_id <$> members_ t) ∧
  head (ep_id <$> members_ t) = Some (leader_ t) ∧ live_replicas t = ep_id <$> members_ t ∧
  ∀ m, m ∈ members_ t → by_id_ t !! ep_id m = Some (mk_replica m page).
Proof.
  intros Hl Hn Hp t. pose proof (mem_members_NoDup vol n Hl Hn) as Hnd.
  destruct (register_fold (mem_members vol n) (mk_transport (mem_members vol n) page capacity max_tx) page Hnd)
    as [Hc _].
  fold (make_mem_replica_group vol n page capacity max_tx) in Hc. fold t in Hc.
  unfold same_config in Hc. destruct Hc as (Hm & Hld & _). simpl in Hm, Hld. rewrite Hm, Hld.
  assert (∀ m, m ∈ mem_members vol n → by_id_ t !! ep_id m = Some (mk_replica m page)) as Hreg
    by (intros m Hin; apply group_lookup; eauto).
  split_and!; [by apply group_inv| |done| | |done].
  - unfold mem_members. rewrite length_fmap, length_range. lia.
  - unfold mem_members. rewrite range_cons by lia. done.
  - unfold live_replicas. rewrite Hm. apply filter_all.
    intros id (m & -> & Hin)%list_elem_of_fmap. unfold net_is_up, replica_for. rewrite Hreg by done. eauto.
Qed.

Lemma group_ok_witness : cluster_inv example_group ∧ length (live_replicas example_group) = 3%nat.
Proof.
  destruct (group_ok nil_uuid 3 4 4096 4096) as (I & Hlen & _ & _ & Hlive & _); [by_eval..|].
  split; [exact I|]. fold example_group in Hlive, Hlen. rewrite Hlive, length_fmap. exact Hlen.
Defined.

(** C9: A login accepted by the leader starts the session at the highest dLSN any live member
    has appended, which covers every dLSN that a quorum of members holds: such a dLSN is at
    or below the start, some live member holds it, and no live member loses a slot.  Every
    live member gets the new term and token, keeps its journal and commits its contiguous
    run; members that are down are untouched. *)
Theorem login_covers_quorum t caller tok :
  cluster_inv t → net_is_up t caller = true → caller = leader_ t → term_ t < 2 ^ 64 - 1 →
  (quorum (length (members_ t)) ≤ length (live_replicas t))%nat →
  let live := live_replicas t in
  ∃ res t', run_login t caller tok = (Ok res, t') ∧ cluster_inv t' ∧
    lg_term res = term_ t + 1 ∧ lg_members res = members_ t ∧
    (∀ id r, id ∈ live → by_id_ t !! id = Some r → ∃ r', by_id_ t' !! id = Some r' ∧
       journal_ r' = journal_ r ∧ term_of r' = lg_term res ∧ ps_client_token (state_ r') = tok ∧
       append_of r' ≤ lg_dLSN res ∧ commit_of r ≤ commit_of r' ∧
       (commit_of r' < lg_dLSN res → journal_ r !! (commit_of r' + 1) = None)) ∧
    (∀ id, id ∉ live → by_id_ t' !! id = by_id_ t !! id) ∧
    (∀ d holders, NoDup holders → holders ⊆ ep_id <$> members_ t →
       (quorum (length (members_ t)) ≤ length holders)%nat → all_hold t d holders →
       d ≤ lg_dLSN res ∧
       ∃ id r', id ∈ live ∧ by_id_ t' !! id = Some r' ∧ is_Some (journal_ r' !! d)).
Proof.
  intros I Hup Hl Ht Hq live.
  destruct (run_login_aux t caller tok I Hup Hl Ht Hq) as (t' & Hr & I' & Hout & Hin). fold live in Hout, Hin.
  eexists _, t'. split_and!; [exact Hr|done..| |done|].
  - intros id r Hid Hlk. destruct (Hin id r Hid Hlk) as [Hr' Ha]. destruct (cv_replicas t I id r Hlk) as [Ir _].
    destruct (login_replica_spec _ tok (term_ t + 1) r Ir Ha) as (_ & ? & ? & ? & ? & ? & ? & _).
    eexists. split_and!; [exact Hr'|done..| |done|done]. simpl. fold live. lia.
  - intros d holders Hnd Hsub Hh Hall.
    destruct (login_covers t d holders I Hq Hnd Hsub Hh Hall) as (Hd & id & r & Hid & Hlk & Hs).
    split; [exact Hd|]. destruct (Hin id r Hid Hlk) as [Hr' Ha]. destruct (cv_replicas t I id r Hlk) as [Ir _].
    destruct (login_replica_spec _ tok (term_ t + 1) r Ir Ha) as (_ & Hj & _).
    eexists id, _. split_and!; [done|exact Hr'|by rewrite Hj].
Qed.

Lemma login_covers_quorum_witness :
  ∃ res t', run_login (net_set_up (example_id 1) false example_partial) (example_id 0) 5 = (Ok res, t') ∧
    lg_term res = 2 ∧ 0 ≤ lg_dLSN res.
Proof.
  assert (cluster_inv (net_set_up (example_id 1) false example_partial)) as I.
  { apply (cluster_inv_updates (on_replica (set_up false)) (set_up false) example_partial [example_id 1]);
      [exact example_partial_inv|apply on_replica_updates|apply NoDup_singleton|].
    intros id r _ _ Ir Ht. split_and!; [by apply mutate_faults_inv|done|done]. }
  destruct (login_covers_quorum (net_set_up (example_id 1) false example_partial) (example_id 0) 5 I)
    as (res & t' & Hr & _ & Ht & _ & _ & _ & Hc); [by_eval..|].
  exists res, t'. split; [exact Hr|]. split; [exact Ht|].
  apply (Hc 0 [example_id 0; example_id 1]); [by_eval| |by_eval|].
  - intros id. rewrite !elem_of_cons. intros [->|[->|[]%elem_of_nil]]; by_eval.
  - intros id. rewrite !elem_of_cons.
    intros [->|[->|[]%elem_of_nil]]; (eexists; split; [vm_compute; reflexivity|vm_compute; eauto]).
Defined.

(** After an accepted login no live member takes anything from an earlier session: a write,
    read, keep-alive or local resolution with an older term is refused and changes
    nothing. *)
Theorem login_fences t caller tok hdr id r' d addr len bytes H dest upto :
  cluster_inv t → net_is_up t caller = true → caller = leader_ t → term_ t < 2 ^ 64 - 1 →
  (quorum (length (members_ t)) ≤ length (live_replicas t))%nat →
  ch_term hdr ≤ term_ t → id ∈ live_replicas t →
  by_id_ (run_login t caller tok).2 !! id = Some r' →
  do_keep_alive r' hdr = (Err (ec_craft STALE_TERM), r') ∧
  do_resolve_local r' hdr upto = (Err (ec_craft STALE_TERM), r') ∧
  (∃ e, do_write r' hdr d addr len bytes = (Err e, r')) ∧
  (∃ e, do_read r' hdr H addr len dest = Some (Err e, r')).
Proof.
  intros I Hup Hl Ht Hq Hh Hid Hr'.
  destruct (run_login_aux t caller tok I Hup Hl Ht Hq) as (t' & Hr & _ & _ & Hin).
  rewrite Hr in Hr'. simpl in Hr'. destruct (live_registered t id Hid) as [r Hlk].
  destruct (Hin id r Hid Hlk) as [Hn Ha]. rewrite Hn in Hr'. injection Hr' as <-.
  destruct (cv_replicas t I id r Hlk) as [Ir _].
  destruct (login_replica_spec _ tok (term_ t + 1) r Ir Ha) as (_ & _ & Hterm & _).
  destruct (stale_term_aux (login_replica (login_peek t (live_replicas t)) tok (term_ t + 1) r)
    hdr d addr len bytes H dest upto) as (? & ? & (e & ? & _) & (e' & ? & _)); [lia|].
  split_and!; eauto.
Qed.

Lemma login_fences_witness :
  ∃ r', by_id_ (run_login example_partial (example_id 0) 5).2 !! example_id 2 = Some r' ∧
    do_keep_alive r' session_hdr = (Err (ec_craft STALE_TERM), r').
Proof.
  eexists. split; [vm_compute; reflexivity|].
  apply (login_fences example_partial (example_id 0) 5 session_hdr (example_id 2) _ 0 0 0 None 0 (Mk_sg 0 []) 0);
    [exact example_partial_inv|by_eval..|vm_compute; reflexivity].
Defined.

(** A login that runs while the previous client still writes can lose an acknowledged
    write.  The login reads the members' append watermarks (all -1); then a write of the
    old session reaches two of the three members, which is the quorum that acknowledges
    it; then the login commits, sets the new term and truncates above the watermark it
    read: both copies are gone, and no member holds the write. *)
Theorem login_loses_acked_write :
  let t := example_session in
  let live := live_replicas t in
  let rs := login_peek t live in
  let t1 := foldl (net_write session_hdr 0 0 4 (Some [1; 1; 1; 1])) t [example_id 0; example_id 1] in
  let t2 := login_truncate rs live (login_internal 5 2 live (login_sync rs live t1)) in
  all_hold t1 0 [example_id 0; example_id 1] ∧
  (quorum (length (members_ t)) ≤ length [example_id 0; example_id 1])%nat ∧
  ∀ id r, by_id_ t2 !! id = Some r → journal_ r !! 0 = None.
Proof.
  intros t live rs t1 t2. split_and!.
  - intros id. rewrite !elem_of_cons.
    intros [->|[->|[]%elem_of_nil]]; (eexists; split; [vm_compute; reflexivity|vm_compute; eauto]).
  - vm_compute. lia.
  - assert (map_Forall (λ _ r, journal_ r !! 0 = None) (by_id_ t2)) as Hf by by_eval. exact Hf.
Qed.

(** C10: A resolution round of the current term decides every dLSN up to its target on every
    live member: each has committed at least the target and has a slot for every dLSN up to
    it; a dLSN above the lowest live frontier is voided on all of them exactly when one had
    it Empty or none had it, and otherwise each keeps its copy or gets another live
    member's; members that are down are untouched, and the answer lists exactly the
    leader's Empty dLSNs up to the target, in order. *)
Theorem resolution_decides t caller term upto :
  cluster_inv t → net_is_up t caller = true → caller = leader_ t → term = term_ t →
  caller ∈ live_replicas t →
  (quorum (length (members_ t)) ≤ length (live_replicas t))%nat → agreed t (live_replicas t) →
  let live := live_replicas t in
  let floor := resolution_floor t live in
  ∃ out t', run_resolution t caller term upto = (Ok (Mk_resolution_result upto out), t') ∧ cluster_inv t' ∧
    (∀ id, id ∉ live → by_id_ t' !! id = by_id_ t !! id) ∧
    (∀ id r, id ∈ live → by_id_ t !! id = Some r → ∃ r', by_id_ t' !! id = Some r' ∧
       term_of r' = term_of r ∧ commit_of r' = Z.max (commit_of r) upto ∧
       (∀ d, ¬ floor < d ≤ upto → journal_ r' !! d = journal_ r !! d) ∧
       (∀ d, floor < d ≤ upto →
          (∃ s, journal_ r' !! d = Some s ∧ js_is_empty s = false ∧
             (journal_ r !! d = Some s ∨
              journal_ r !! d = None ∧ ∃ id', id' ∈ live ∧ slot_at t id' d = Some s)) ∧
            (∀ id', id' ∈ live → ∀ s, slot_at t id' d = Some s → js_is_empty s = false) ∨
          voided r' d ∧
            ((∃ id' s, id' ∈ live ∧ slot_at t id' d = Some s ∧ js_is_empty s = true) ∨
             (∀ id', id' ∈ live → slot_at t id' d = None)))) ∧
    StronglySorted Z.lt out ∧
    ∃ l', by_id_ t' !! caller = Some l' ∧ ∀ d, d ∈ out ↔ d ≤ upto ∧ voided l' d.
Proof.
  intros I Hup Hl Ht Hcl Hq Ha live floor.
  destruct (run_resolution_aux t caller term upto I Hup Hl Ht Hq Ha) as (t' & Hr & _ & I' & Hout & Hin).
  fold live floor in Hin, Hout. destruct (live_registered t caller Hcl) as [l Hlk].
  destruct (Hin caller l Hcl Hlk) as (l' & Hl' & _). rewrite Hl' in Hr.
  eexists _, t'. split_and!; [exact Hr|done|done| |apply peek_empties_sorted|].
  2:{ exists l'. split; [done|]. intros d. apply elem_of_peek_empties. }
  intros id r Hid Hlr. destruct (Hin id r Hid Hlr) as (r' & Hr' & (Hterm & _) & Hc & Hj).
  exists r'. split_and!; [done..| |].
  { intros d Hd. rewrite Hj, decide_False; [done|]. rewrite elem_of_range. lia. }
  intros d Hd. unfold voided. rewrite Hj, decide_True by (apply elem_of_range; lia).
  pose proof (find_copy_spec t d live None) as Hf. unfold resolved_slot.
  destruct (find_copy t d live None) as [[] o].
  - right. split; [eauto|by left].
  - destruct Hf as [Hne Hf]. destruct o as [c|].
    + destruct Hf as [[=]|[_ (i & Hi & Hci)]]. left. split; [|intros; by eapply Hne].
      exists (default c (journal_ r !! d)). rewrite <-(slot_at_lookup t id r d Hlr).
      destruct (slot_at t id d) as [s|] eqn:Hs; simpl; (split; [done|]).
      * split; [exact (Hne id s Hid Hs)|by left].
      * split; [exact (Hne i c Hi Hci)|right; eauto].
    + destruct Hf as [_ Hnone]. right. split; [eauto|by right].
Qed.

Lemma example_partial_agreed : agreed example_partial (live_replicas example_partial).
Proof.
  assert (map_Forall (λ _ r, map_Forall (λ _ s, js_is_empty s = false) (journal_ r)) (by_id_ example_partial))
    as Hf by by_eval.
  intros id id' r r' d _ _ _ Hr' _ (s & Hs & He). specialize (Hf id' r' Hr' d s Hs). simpl in Hf. congruence.
Qed.

Lemma resolution_decides_witness :
  ∃ t', run_resolution example_partial (example_id 0) 1 2 = (Ok (Mk_resolution_result 2 [1]), t') ∧
    ∃ r', by_id_ t' !! example_id 2 = Some r' ∧ commit_of r' = 2.
Proof.
  destruct (resolution_decides example_partial (example_id 0) 1 2) as (out & t' & Hr & _ & _ & Hin & _);
    [exact example_partial_inv|by_eval..|exact example_partial_agreed|].
  assert ((run_resolution example_partial (example_id 0) 1 2).1 = Ok (Mk_resolution_result 2 [1])) as Ho
    by (vm_compute; reflexivity).
  exists t'. split; [rewrite Hr in Ho |- *; simpl in Ho; by injection Ho as ->|].
  assert (by_id_ example_partial !! example_id 2 =
            Some (cold_apply_login 9 1 (mk_replica (Mk_endpoint (example_id 2) (mem_replica_addr 2)) 4))) as H2
    by (vm_compute; reflexivity).
  destruct (Hin (example_id 2) _ ltac:(by_eval) H2) as (r' & Hr' & _ & Hc & _). exists r'. split; [exact Hr'|].
  rewrite Hc. vm_compute. reflexivity.
Defined.

(** C11: A resolution round never voids a write that a quorum holds, unless a live member has an
    Empty verdict for it already: after the round every live member holds the dLSN with
    data. *)
Theorem resolution_keeps_acked t caller term upto d holders :
  cluster_inv t → net_is_up t caller = true → caller = leader_ t → term = term_ t →
  (quorum (length (members_ t)) ≤ length (live_replicas t))%nat → agreed t (live_replicas t) →
  NoDup holders → holders ⊆ ep_id <$> members_ t →
  (quorum (length (members_ t)) ≤ length holders)%nat → all_hold t d holders →
  (∀ id s, id ∈ live_replicas t → slot_at t id d = Some s → js_is_empty s = false) →
  resolution_floor t (live_replicas t) < d ≤ upto →
  ∀ id r', id ∈ live_replicas t → by_id_ (run_resolution t caller term upto).2 !! id = Some r' →
    ∃ s, journal_ r' !! d = Some s ∧ js_is_empty s = false ∧ d ≤ commit_of r'.
Proof.
  intros I Hup Hl Ht Hq Ha Hnd Hsub Hh Hall Hne Hd id r' Hid Hr'.
  destruct (run_resolution_aux t caller term upto I Hup Hl Ht Hq Ha) as (t' & Hr & _ & _ & _ & Hin).
  rewrite Hr in Hr'. simpl in Hr'. destruct (live_registered t id Hid) as [r Hlr].
  destruct (Hin id r Hid Hlr) as (r1 & Hr1 & _ & Hc & Hj). rewrite Hr1 in Hr'. injection Hr' as <-.
  destruct (login_covers t d holders I Hq Hnd Hsub Hh Hall) as (_ & h & rh & Hh1 & Hh2 & [sh Hh3]).
  pose proof (find_copy_spec t d (live_replicas t) None) as Hf.
  rewrite Hj, decide_True by (apply elem_of_range; lia). unfold resolved_slot.
  destruct (find_copy t d (live_replicas t) None) as [[] o].
  { destruct Hf as (i & s & Hi & Hs & He). by rewrite (Hne i s Hi Hs) in He. }
  destruct Hf as [_ Hf]. destruct o as [c|].
  - destruct Hf as [[=]|[_ (i & Hi & Hci)]]. exists (default c (journal_ r !! d)). split; [done|].
    split; [|lia]. destruct (journal_ r !! d) as [s|] eqn:Hs; simpl; [|exact (Hne i c Hi Hci)].
    apply (Hne id s Hid). by rewrite (slot_at_lookup t id r).
  - destruct Hf as [_ Hnone]. specialize (Hnone h Hh1). rewrite (slot_at_lookup t h rh) in Hnone by done.
    congruence.
Qed.

Lemma resolution_keeps_acked_witness :
  ∃ r', by_id_ (run_resolution example_partial (example_id 0) 1 2).2 !! example_id 2 = Some r' ∧
    ∃ s, journal_ r' !! 0 = Some s ∧ js_is_empty s = false ∧ 0 ≤ commit_of r'.
Proof.
  eexists. split; [vm_compute; reflexivity|].
  apply (resolution_keeps_acked example_partial (example_id 0) 1 2 0 [example_id 0; example_id 1]) with (id := example_id 2);
    [exact example_partial_inv|by_eval..|exact example_partial_agreed|by_eval| |by_eval| | |by_eval|by_eval|vm_compute; reflexivity].
  - intros id. rewrite !elem_of_cons. intros [->|[->|[]%elem_of_nil]]; by_eval.
  - intros id. rewrite !elem_of_cons.
    intros [->|[->|[]%elem_of_nil]]; (eexists; split; [vm_compute; reflexivity|vm_compute; eauto]).
  - intros id s Hid Hs.
    assert (Forall (λ id, from_option js_is_empty false (slot_at example_partial id 0) = false)
              (live_replicas example_partial)) as Hf by by_eval.
    rewrite Forall_forall in Hf. specialize (Hf id Hid). by rewrite Hs in Hf.
Defined.
