(* ===== verification/Delivery.v ===== *)
(** * Delivery: the model's wire

    [MemTransport::plan_delivery], [send_write], [send_read], [send_keep_alive], the
    per-replica service behind them ([after], [run_after], [service_loop], [shutdown] of
    [src/mem/cluster.cpp]) and the on-ring variants of the same verbs
    ([MemCraftReplica::write], [read], [keep_alive], [late_write] of [src/mem/replica.cpp]).

    A verb is a coroutine that suspends once.  Its first part ([send]) decides
    deliverability, takes the payload and queues its resumption; the rest ([resume]) runs
    when a service thread, or the ring's reap loop, completes the timer.  A write that times
    out also queues its late delivery.  [service_step] interleaves sends, clock ticks,
    threads taking due items and running them in any order, fault changes, cold-path calls
    on the replica, and shutdown.  [sv_served] records which operations were handed to the
    replica; it is not part of the code. *)

From S2P Require Import Prelude Codec WireTypes Wire Types Replica.

Local Open Scope craft_scope.
Local Open Scope Z_scope.

(** ** Plans *)

Record delivery := Mk_delivery { dv_wait : Z; dv_deliver : Z; dv_timed_out : bool }.

Definition plan_delivery (delay op_timeout : Z) : delivery :=
  if delay <=? 0 then Mk_delivery 0 0 false
  else if (0 <? op_timeout) && (op_timeout <=? delay) then Mk_delivery op_timeout delay true
  else Mk_delivery delay 0 false.

(** The on-ring verbs inline the plan; [None] is a nop on the ring, which completes at the
    next reap. *)
Definition ring_timed_out (delay op_to : Z) : bool := (0 <? delay) && (0 <? op_to) && (op_to <=? delay).
Definition ring_wait (delay op_to : Z) : Z := if ring_timed_out delay op_to then op_to else delay.
Definition ring_delay (d : Z) : option Z := if 0 <? d then Some d else None.

(** ** Requests *)

Inductive request :=
| rq_write (hdr : client_hdr) (dlsn addr len : Z) (bytes : option (list Z))
| rq_read (hdr : client_hdr) (read_lsn addr len : Z) (dest : sg_list)
| rq_keep_alive (hdr : client_hdr).

Inductive reply :=
| rp_lsns (r : result error_condition lsn_pair)
| rp_read (r : result error_condition (read_result * sg_list)).

(** [take_payload], and no payload for a zero write. *)
Definition take_payload (data : sg_list) : list Z := concat (sg_iovs data).
Definition write_request (hdr : client_hdr) (dlsn addr len : Z) (data : sg_list) : request :=
  rq_write hdr dlsn addr len (if sg_size data =? 0 then None else Some (take_payload data)).

Definition is_write (rq : request) : bool := match rq with rq_write _ _ _ _ _ => true | _ => false end.

(** Deliverability: a dropped write is undeliverable, reads and keep-alives only need the
    replica up. *)
Definition deliverable (rf : replica_faults) (rq : request) : bool :=
  rf_up rf && (negb (is_write rq) || rf_write_ok rf).

Definition fail_reply (e : error_condition) (rq : request) : reply :=
  match rq with rq_read _ _ _ _ _ => rp_read (Err e) | _ => rp_lsns (Err e) end.

(** The replica's core behind the verb; [None] when the core itself reads out of bounds. *)
Definition serve (r : MemCraftReplica) (rq : request) : option (reply * MemCraftReplica) :=
  match rq with
  | rq_write hdr dlsn addr len bytes =>
      let '(res, r) := do_write r hdr dlsn addr len bytes in Some (rp_lsns res, r)
  | rq_read hdr read_lsn addr len dest =>
      '(res, r) ← do_read r hdr read_lsn addr len dest; Some (rp_read res, r)
  | rq_keep_alive hdr => let '(res, r) := do_keep_alive r hdr in Some (rp_lsns res, r)
  end.

(** ** One replica's service *)

Inductive work :=
| wk_late (op : nat) (rq : request)
| wk_resume (op : nat) (rq : request) (timed : bool).

Record service := Mk_service {
  sv_now : Z;
  sv_stop : bool;
  sv_timers : list (Z * work);
  sv_running : list work;
  sv_replica : MemCraftReplica;
  sv_next : nat;
  sv_replies : list (nat * reply);
  sv_served : list nat;
}.

Definition new_service (r : MemCraftReplica) : service := Mk_service 0 false [] [] r 0 [] [].

(** [std::multimap::emplace]: behind the entries with the same or an earlier deadline. *)
Fixpoint insert_timer (due : Z) (w : work) (l : list (Z * work)) : list (Z * work) :=
  match l with
  | [] => [(due, w)]
  | (d, x) :: l => if d <=? due then (d, x) :: insert_timer due w l else (due, w) :: (d, x) :: l
  end.

Definition set_timers (s : service) (l : list (Z * work)) : service :=
  Mk_service (sv_now s) (sv_stop s) l (sv_running s) (sv_replica s) (sv_next s) (sv_replies s) (sv_served s).
Definition set_running (s : service) (l : list work) : service :=
  Mk_service (sv_now s) (sv_stop s) (sv_timers s) l (sv_replica s) (sv_next s) (sv_replies s) (sv_served s).
Definition set_replica (s : service) (r : MemCraftReplica) : service :=
  Mk_service (sv_now s) (sv_stop s) (sv_timers s) (sv_running s) r (sv_next s) (sv_replies s) (sv_served s).
Definition add_reply (s : service) (op : nat) (rp : reply) : service :=
  Mk_service (sv_now s) (sv_stop s) (sv_timers s) (sv_running s) (sv_replica s) (sv_next s)
    ((op, rp) :: sv_replies s) (sv_served s).
Definition mark_served (s : service) (op : nat) (r : MemCraftReplica) : service :=
  Mk_service (sv_now s) (sv_stop s) (sv_timers s) (sv_running s) r (sv_next s) (sv_replies s) (op :: sv_served s).
Definition next_op (s : service) : service :=
  Mk_service (sv_now s) (sv_stop s) (sv_timers s) (sv_running s) (sv_replica s) (S (sv_next s)) (sv_replies s)
    (sv_served s).

(** [run_after]: [None] once the service has stopped. *)
Definition run_after (d : Z) (w : work) (s : service) : option service :=
  if sv_stop s then None else Some (set_timers s (insert_timer (sv_now s + d) w (sv_timers s))).

(** The part of a verb after its suspension. *)
Definition resume (op : nat) (rq : request) (timed : bool) (s : service) : option service :=
  if timed then Some (add_reply s op (fail_reply (ec_std timed_out) rq))
  else if negb (deliverable (faults_ (sv_replica s)) rq)
  then Some (add_reply s op (fail_reply (ec_craft REPLICA_DOWN) rq))
  else '(rp, r) ← serve (sv_replica s) rq; Some (add_reply (mark_served s op r) op rp).

(** The late delivery of a write whose caller has given up. *)
Definition late (op : nat) (rq : request) (s : service) : option service :=
  if negb (deliverable (faults_ (sv_replica s)) rq) then Some s
  else '(_, r) ← serve (sv_replica s) rq; Some (mark_served s op r).

Definition run_work (w : work) (s : service) : option service :=
  match w with
  | wk_late op rq => late op rq s
  | wk_resume op rq timed => resume op rq timed s
  end.

(** The part of a verb up to its suspension.  [after] completes inline on a stopped service. *)
Definition send (rq : request) (op_timeout : Z) (s0 : service) : option service :=
  let op := sv_next s0 in
  let s := next_op s0 in
  let rf := faults_ (sv_replica s) in
  if negb (deliverable rf rq) then Some (add_reply s op (fail_reply (ec_craft REPLICA_DOWN) rq))
  else
    let p := plan_delivery (rf_delay rf) op_timeout in
    let s := if dv_timed_out p && is_write rq
             then default s (run_after (dv_deliver p) (wk_late op rq) s) else s in
    match run_after (dv_wait p) (wk_resume op rq (dv_timed_out p)) s with
    | Some s => Some s
    | None => resume op rq (dv_timed_out p) s
    end.

(** The on-ring verb: its suspensions, a late write's included, are timers on the caller's
    ring, of which [sqes] more can be had; without one the wait is over at once. *)
Definition ring_suspend (d : Z) (w : work) (sqes : nat) (s : service) : option (service * nat) :=
  match sqes with
  | S n => Some (set_timers s (insert_timer (sv_now s + default 0 (ring_delay d)) w (sv_timers s)), n)
  | O => s ← run_work w s; Some (s, O)
  end.
Definition ring_send (rq : request) (op_timeout : Z) (sqes : nat) (s0 : service) : option service :=
  let op := sv_next s0 in
  let s := next_op s0 in
  let rf := faults_ (sv_replica s) in
  if negb (deliverable rf rq) then Some (add_reply s op (fail_reply (ec_craft REPLICA_DOWN) rq))
  else
    let timed := ring_timed_out (rf_delay rf) op_timeout in
    '(s, n) ← (if timed && is_write rq then ring_suspend (rf_delay rf) (wk_late op rq) sqes s else Some (s, sqes));
    '(s, _) ← ring_suspend (ring_wait (rf_delay rf) op_timeout) (wk_resume op rq timed) n s;
    Some s.

(** [service_loop]: a thread of a running service takes the first item once it is due. *)
Definition take_due (s : service) : option service :=
  if sv_stop s then None
  else match sv_timers s with
       | (due, w) :: l =>
           if sv_now s <? due then None else Some (set_running (set_timers s l) (w :: sv_running s))
       | [] => None
       end.

(** [shutdown]: the flag first; once the threads have joined, what is left runs in order. *)
Definition shutdown (s : service) : service :=
  Mk_service (sv_now s) true (sv_timers s) (sv_running s) (sv_replica s) (sv_next s) (sv_replies s) (sv_served s).
Definition drain_next (s : service) : option service :=
  match sv_stop s, sv_running s, sv_timers s with
  | true, [], (_, w) :: l => Some (set_running (set_timers s l) [w])
  | _, _, _ => None
  end.

Definition tick (d : Z) (s : service) : service :=
  Mk_service (sv_now s + d) (sv_stop s) (sv_timers s) (sv_running s) (sv_replica s) (sv_next s) (sv_replies s)
    (sv_served s).

(** [ss_replica]: fault knobs and cold-path calls. *)
Inductive service_step : service → service → Prop :=
| ss_send rq op_timeout s s' : send rq op_timeout s = Some s' → service_step s s'
| ss_ring rq op_timeout sqes s s' : ring_send rq op_timeout sqes s = Some s' → service_step s s'
| ss_tick d s : 0 ≤ d → service_step s (tick d s)
| ss_take s s' : take_due s = Some s' → service_step s s'
| ss_run w l1 l2 s s' :
    sv_running s = l1 ++ w :: l2 → run_work w (set_running s (l1 ++ l2)) = Some s' → service_step s s'
| ss_replica r s : service_step s (set_replica s r)
| ss_shutdown s : service_step s (shutdown s)
| ss_drain s s' : drain_next s = Some s' → service_step s s'.

Inductive service_reach (r : MemCraftReplica) : service → Prop :=
| sr_new : service_reach r (new_service r)
| sr_step s s' : service_reach r s → service_step s s' → service_reach r s'.

(** ** Bookkeeping of the operations *)

(** Everything queued or taken. *)
Definition all_work (s : service) : list work := (sv_timers s).*2 ++ sv_running s.

(** The operations still to be answered, and those still to be handed to the replica. *)
Definition to_answer (w : work) : option nat := match w with wk_late _ _ => None | wk_resume op _ _ => Some op end.
Definition to_serve (w : work) : option nat :=
  match w with
  | wk_late op _ => Some op
  | wk_resume op _ timed => if timed then None else Some op
  end.
Definition answers (l : list work) : list nat := omap to_answer l.
Definition servings (l : list work) : list nat := omap to_serve l.

Definition reply_error (rp : reply) : option error_condition :=
  match rp with
  | rp_lsns (Err e) | rp_read (Err e) => Some e
  | _ => None
  end.
Definition never_delivered (rp : reply) : Prop := reply_error rp = Some (ec_craft REPLICA_DOWN).

(** The books of a service: [next] operations issued, [replies] given, [served] handed to
    the replica, [ws] still to run. *)
Record books (next : nat) (replies : list (nat * reply)) (served : list nat) (ws : list work) : Prop := {
  bk_answers : NoDup (replies.*1 ++ answers ws);
  bk_issued op : op ∈ replies.*1 ++ answers ws ↔ (op < next)%nat;
  bk_servings : NoDup (served ++ servings ws);
  bk_known op : op ∈ served ++ servings ws → (op < next)%nat;
  bk_replies op rp : (op, rp) ∈ replies →
    (reply_error rp = None → op ∈ served) ∧
    (never_delivered rp → op ∉ served ++ servings ws);
}.
Definition service_inv (s : service) : Prop :=
  books (sv_next s) (sv_replies s) (sv_served s) (all_work s).

Lemma insert_timer_perm due w l : (insert_timer due w l).*2 ≡ₚ w :: l.*2.
Proof.
  induction l as [|[d x] l IH]; simpl; [done|]. destruct (d <=? due); simpl; [|done].
  rewrite IH. constructor.
Qed.

Lemma run_after_work d w s s' :
  run_after d w s = Some s' →
  all_work s' ≡ₚ w :: all_work s ∧ sv_next s' = sv_next s ∧ sv_replies s' = sv_replies s ∧
  sv_served s' = sv_served s ∧ sv_replica s' = sv_replica s ∧ sv_stop s' = false ∧ sv_stop s = false.
Proof.
  unfold run_after. destruct (sv_stop s) eqn:Hs; [done|]. intros [= <-]. split_and!; try done.
  unfold all_work. simpl. by rewrite insert_timer_perm.
Qed.

(** A core never answers REPLICA_DOWN. *)
Lemma serve_not_down r rq rp r' : serve r rq = Some (rp, r') → ¬ never_delivered rp.
Proof.
  unfold never_delivered. destruct rq; simpl.
  - destruct (do_write _ _ _ _ _ _) as [res r1] eqn:Hw. intros [= <- <-]. unfold do_write in Hw.
    repeat case_match; injection Hw as <- <-; simpl; congruence.
  - unfold do_read. repeat case_match; simpl; try (intros [= <- <-]; simpl; congruence).
    destruct (read_range _ _ _ _ _) as [[]|]; simpl; [|done]. intros [= <- <-]. done.
  - destruct (do_keep_alive _ _) as [res r1] eqn:Hw. intros [= <- <-]. unfold do_keep_alive in Hw.
    repeat case_match; injection Hw as <- <-; simpl; congruence.
Qed.

(** *** One step of the bookkeeping at a time *)

Section books.
Context (next : nat) (replies : list (nat * reply)) (served : list nat).

Lemma books_perm ws ws' : ws ≡ₚ ws' → books next replies served ws → books next replies served ws'.
Proof.
  intros Hw [].
  assert (answers ws ≡ₚ answers ws') as Ha by (unfold answers; by rewrite Hw).
  assert (servings ws ≡ₚ servings ws') as Hv by (unfold servings; by rewrite Hw).
  split; rewrite <-?Ha, <-?Hv; try done.
  - intros op. rewrite <-Ha. apply bk_issued0.
  - intros op. rewrite <-Hv. apply bk_known0.
  - intros op rp. rewrite <-Hv. apply bk_replies0.
Qed.

(** A new operation: refused at once, or suspended. *)
Lemma books_refuse rp ws :
  books next replies served ws → never_delivered rp → books (S next) ((next, rp) :: replies) served ws.
Proof.
  intros [] Hrp. split; simpl; try done.
  - constructor; [|done]. rewrite bk_issued0. lia.
  - intros op. rewrite elem_of_cons, bk_issued0. lia.
  - intros op Hop. specialize (bk_known0 op Hop). lia.
  - intros op rp' [[= -> ->]|Hin]%elem_of_cons; [|by apply bk_replies0]. split.
    + intros He. unfold never_delivered in Hrp. congruence.
    + intros _ Hop. specialize (bk_known0 next Hop). lia.
Qed.

Lemma books_suspend rq timed ws :
  books next replies served ws → books (S next) replies served (wk_resume next rq timed :: ws).
Proof.
  intros []. split; simpl.
  - rewrite <-Permutation_middle. constructor; [|done]. rewrite bk_issued0. lia.
  - intros op. rewrite <-Permutation_middle, elem_of_cons, bk_issued0. lia.
  - destruct timed; [done|]. simpl. rewrite <-Permutation_middle. constructor; [|done].
    intros Hop. specialize (bk_known0 next Hop). lia.
  - intros op. destruct timed; simpl; [intros Hop; specialize (bk_known0 op Hop); lia|].
    rewrite <-Permutation_middle, elem_of_cons. intros [->|Hop]; [lia|]. specialize (bk_known0 op Hop). lia.
  - intros op rp Hin. destruct (bk_replies0 op rp Hin) as [H1 H2]. split; [done|]. intros Hnd.
    assert (op < next)%nat as Hlt.
    { apply bk_issued0, elem_of_app. left. by apply (list_elem_of_fmap_2 fst _ (op, rp)). }
    destruct timed; simpl; [by apply H2|]. rewrite <-Permutation_middle, elem_of_cons.
    intros [->|Hop]; [lia|by apply H2].
Qed.

(** A late delivery queued behind the operation that times out. *)
Lemma books_late rq rq' ws :
  books next replies served ws →
  books (S next) replies served (wk_resume next rq true :: wk_late next rq' :: ws).
Proof.
  intros B. destruct (books_suspend rq false ws B) as [H1 H2 H3 H4 H5].
  split; simpl in *; done.
Qed.

(** Running a late delivery: dropped, or handed to the replica. *)
Lemma books_drop op rq ws : books next replies served (wk_late op rq :: ws) → books next replies served ws.
Proof.
  intros []. simpl in *. rewrite <-Permutation_middle in bk_servings0.
  inversion bk_servings0 as [|? ? Hop Hnd]; subst.
  assert (∀ i, i ∈ served ++ servings ws → i ∈ served ++ op :: servings ws) as Hsub
    by (intros i; rewrite !elem_of_app, elem_of_cons; tauto).
  split; try done; [by auto|].
  intros i rp Hin. destruct (bk_replies0 i rp Hin) as [H1 H2]. split; [done|].
  intros Hd Hi. by apply (H2 Hd), Hsub.
Qed.

Lemma books_serve_late op rq ws :
  books next replies served (wk_late op rq :: ws) → books next replies (op :: served) ws.
Proof.
  intros []. simpl in *.
  assert (∀ i, i ∈ op :: served ++ servings ws ↔ i ∈ served ++ op :: servings ws) as Hsub
    by (intros i; rewrite elem_of_cons, !elem_of_app, elem_of_cons; tauto).
  split; try done; simpl.
  - by rewrite Permutation_middle.
  - intros i Hi. by apply bk_known0, Hsub.
  - intros i rp Hin. destruct (bk_replies0 i rp Hin) as [H1 H2]. split; [right; auto|].
    intros Hnd Hi. by apply (H2 Hnd), Hsub.
Qed.

(** Answering: the time-out, the refusal after the wait, the replica's answer. *)
Lemma books_time_out op rq rp ws :
  books next replies served (wk_resume op rq true :: ws) →
  reply_error rp = Some (ec_std timed_out) → books next ((op, rp) :: replies) served ws.
Proof.
  intros [] He. simpl in *. split; simpl; try done.
  - by rewrite Permutation_middle.
  - intros i. rewrite Permutation_middle. apply bk_issued0.
  - intros i rp' [[= -> ->]|Hin]%elem_of_cons; [|by apply bk_replies0].
    unfold never_delivered. rewrite He. done.
Qed.

Lemma books_refuse_late op rq rp ws :
  books next replies served (wk_resume op rq false :: ws) →
  never_delivered rp → books next ((op, rp) :: replies) served ws.
Proof.
  intros [] Hrp. simpl in *. rewrite <-Permutation_middle in bk_servings0.
  inversion bk_servings0 as [|? ? Hop Hnd]; subst.
  assert (∀ i, i ∈ served ++ servings ws → i ∈ served ++ op :: servings ws) as Hsub
    by (intros i; rewrite !elem_of_app, elem_of_cons; tauto).
  split; simpl; try done.
  - by rewrite Permutation_middle.
  - intros i. rewrite Permutation_middle. apply bk_issued0.
  - auto.
  - intros i rp' [[= -> ->]|Hin]%elem_of_cons.
    + split; [|done]. intros He. unfold never_delivered in Hrp. congruence.
    + destruct (bk_replies0 i rp' Hin) as [H1 H2]. split; [done|]. intros Hd Hi. by apply (H2 Hd), Hsub.
Qed.

Lemma books_serve op rq rp ws :
  books next replies served (wk_resume op rq false :: ws) →
  ¬ never_delivered rp → books next ((op, rp) :: replies) (op :: served) ws.
Proof.
  intros [] Hrp. simpl in *.
  assert (∀ i, i ∈ op :: served ++ servings ws ↔ i ∈ served ++ op :: servings ws) as Hsub
    by (intros i; rewrite elem_of_cons, !elem_of_app, elem_of_cons; tauto).
  split; simpl; try done.
  - by rewrite Permutation_middle.
  - intros i. rewrite Permutation_middle. apply bk_issued0.
  - by rewrite Permutation_middle.
  - intros i Hi. by apply bk_known0, Hsub.
  - intros i rp' [[= -> ->]|Hin]%elem_of_cons; [split; [left|done]|].
    destruct (bk_replies0 i rp' Hin) as [H1 H2]. split; [right; auto|].
    intros Hnd Hi. by apply (H2 Hnd), Hsub.
Qed.
End books.

(** *** The parts of a verb *)

Lemma fail_reply_error e rq : reply_error (fail_reply e rq) = Some e.
Proof. by destruct rq. Qed.

Lemma resume_inv op rq timed s s' :
  books (sv_next s) (sv_replies s) (sv_served s) (wk_resume op rq timed :: all_work s) →
  resume op rq timed s = Some s' → service_inv s'.
Proof.
  intros B. unfold resume. destruct timed.
  { intros [= <-]. eapply books_time_out; [exact B|apply fail_reply_error]. }
  destruct (negb _).
  { intros [= <-]. eapply books_refuse_late; [exact B|apply fail_reply_error]. }
  destruct (serve _ _) as [[rp r]|] eqn:Hs; [|done]. intros [= <-].
  eapply books_serve; [exact B|by eapply serve_not_down].
Qed.

Lemma late_books op rq s s' ws :
  books (sv_next s) (sv_replies s) (sv_served s) (wk_late op rq :: ws ++ all_work s) →
  late op rq s = Some s' → books (sv_next s') (sv_replies s') (sv_served s') (ws ++ all_work s').
Proof.
  intros B. unfold late. destruct (negb _).
  { intros [= <-]. by eapply books_drop. }
  destruct (serve _ _) as [[rp r]|] eqn:Hs; [|done]. intros [= <-]. by eapply books_serve_late.
Qed.
Lemma late_inv op rq s s' :
  books (sv_next s) (sv_replies s) (sv_served s) (wk_late op rq :: all_work s) →
  late op rq s = Some s' → service_inv s'.
Proof. apply (late_books op rq s s' []). Qed.

(** Queueing a resumption, or running it inline on a stopped service. *)
Lemma suspend_inv op rq timed d s s' :
  books (sv_next s) (sv_replies s) (sv_served s) (wk_resume op rq timed :: all_work s) →
  match run_after d (wk_resume op rq timed) s with Some s => Some s | None => resume op rq timed s end = Some s' →
  service_inv s'.
Proof.
  intros B. destruct (run_after d _ s) as [s1|] eqn:Hr; [|by apply resume_inv].
  intros [= <-]. apply run_after_work in Hr as (Hw & Hn & Hrp & Hs & _).
  unfold service_inv. rewrite Hn, Hrp, Hs. by eapply books_perm; [symmetry|].
Qed.

Lemma send_inv rq op_timeout s s' : service_inv s → send rq op_timeout s = Some s' → service_inv s'.
Proof.
  intros B. unfold send. destruct (negb _).
  { intros [= <-]. apply books_refuse; [exact B|apply fail_reply_error]. }
  set (p := plan_delivery _ _). destruct (dv_timed_out p) eqn:Ht; simpl.
  - destruct (is_write rq); [|intros Hr; eapply suspend_inv; [|exact Hr]; by apply books_suspend].
    destruct (run_after (dv_deliver p) _ (next_op s)) as [s1|] eqn:Hr1; simpl;
      (intros Hr; eapply suspend_inv; [|exact Hr]); [|by apply books_suspend].
    apply run_after_work in Hr1 as (Hw & -> & -> & -> & _).
    eapply books_perm; [by rewrite Hw|]. by apply books_late.
  - intros Hr. eapply suspend_inv; [|exact Hr]. by apply books_suspend.
Qed.

(** The same on the ring, where a suspension without an SQE runs inline. *)
Lemma ring_suspend_inv d w sqes s s' n ws :
  (∀ s', run_work w s = Some s' → books (sv_next s') (sv_replies s') (sv_served s') (ws ++ all_work s')) →
  books (sv_next s) (sv_replies s) (sv_served s) (w :: ws ++ all_work s) →
  ring_suspend d w sqes s = Some (s', n) → books (sv_next s') (sv_replies s') (sv_served s') (ws ++ all_work s').
Proof.
  intros Hrun B. destruct sqes as [|m]; simpl.
  - destruct (run_work w s) as [s1|] eqn:Hs; [|done]. intros [= <- <-]. by apply Hrun.
  - intros [= <- <-]. eapply books_perm; [|exact B]. unfold all_work. simpl. rewrite insert_timer_perm.
    simpl. by rewrite Permutation_middle.
Qed.
Lemma ring_send_inv rq op_timeout sqes s s' : service_inv s → ring_send rq op_timeout sqes s = Some s' → service_inv s'.
Proof.
  intros B. unfold ring_send. destruct (negb _).
  { intros [= <-]. apply books_refuse; [exact B|apply fail_reply_error]. }
  set (d := rf_delay _). destruct (ring_timed_out d op_timeout && is_write rq) eqn:Ht; simpl.
  - apply andb_true_iff in Ht as [Ht _]. rewrite Ht.
    destruct (ring_suspend d _ sqes (next_op s)) as [[s1 n]|] eqn:H1; [|done]. simpl.
    destruct (ring_suspend _ _ n s1) as [[s2 m]|] eqn:H2; [|done]. intros [= <-].
    assert (books (S (sv_next s)) (sv_replies s) (sv_served s) (wk_late (sv_next s) rq :: [wk_resume (sv_next s) rq true] ++ all_work s)) as B0.
    { eapply books_perm; [|apply (books_late _ _ _ rq rq _ B)]. constructor. }
    assert (books (sv_next s1) (sv_replies s1) (sv_served s1) ([wk_resume (sv_next s) rq true] ++ all_work s1)) as B1.
    { eapply (ring_suspend_inv _ _ _ (next_op s) _ _ [wk_resume (sv_next s) rq true]); [|exact B0|exact H1].
      intros s0 Hs0. exact (late_books _ _ (next_op s) s0 [wk_resume (sv_next s) rq true] B0 Hs0). }
    eapply (ring_suspend_inv _ _ _ _ _ _ []); [|exact B1|exact H2]. intros s0 Hs0. exact (resume_inv _ _ _ s1 s0 B1 Hs0).
  - destruct (ring_suspend _ _ sqes _) as [[s2 m]|] eqn:H2; [|done]. intros [= <-].
    pose proof (books_suspend _ _ _ rq (ring_timed_out d op_timeout) _ B) as B1.
    eapply (ring_suspend_inv _ _ _ (next_op s) _ _ []); [|exact B1|exact H2].
    intros s0 Hs0. exact (resume_inv _ _ _ (next_op s) _ B1 Hs0).
Qed.

Lemma service_step_inv s s' : service_step s s' → service_inv s → service_inv s'.
Proof.
  intros Hs B. destruct Hs as [? ? ? ? Hs|? ? ? ? ? Hs|?|s s' Hs|w l1 l2 s s' Hr Hs| | |s s' Hs].
  - by eapply send_inv.
  - by eapply ring_send_inv.
  - exact B.
  - unfold take_due in Hs. destruct (sv_stop s); [done|]. destruct (sv_timers s) as [|[due w] l] eqn:Ht; [done|].
    destruct (_ <? _); [done|]. injection Hs as <-. eapply books_perm; [|exact B].
    unfold all_work. simpl. rewrite Ht. simpl. by rewrite Permutation_middle.
  - assert (books (sv_next s) (sv_replies s) (sv_served s) (w :: all_work (set_running s (l1 ++ l2)))) as B'.
    { eapply books_perm; [|exact B]. unfold all_work. simpl. rewrite Hr.
      by rewrite <-(Permutation_middle l1 l2 w), <-Permutation_middle. }
    destruct w; [exact (late_inv _ _ (set_running s (l1 ++ l2)) _ B' Hs)
                |exact (resume_inv _ _ _ (set_running s (l1 ++ l2)) _ B' Hs)].
  - exact B.
  - exact B.
  - unfold drain_next in Hs. destruct (sv_stop s); [|done]. destruct (sv_running s) eqn:Hr; [|done].
    destruct (sv_timers s) as [|[due w] l] eqn:Ht; [done|]. injection Hs as <-.
    eapply books_perm; [|exact B]. unfold all_work. simpl. rewrite Ht, Hr. simpl.
    by rewrite app_nil_r, Permutation_cons_append.
Qed.

Lemma service_reach_inv r s : service_reach r s → service_inv s.
Proof.
  induction 1 as [|s s' _ IH Hs]; [|by eapply service_step_inv].
  split; simpl; try constructor; intros; simpl in *; try (by apply not_elem_of_nil in H); try lia.
Qed.

(** ** Properties *)

(** C35: Whatever the interleaving of sends, timers, threads, fault changes and shutdown, each
    operation is handed to the replica at most once; it is answered at most once, and until
    then its resumption is queued or running; an operation that was answered without an
    error has been handed over, and one that was answered REPLICA_DOWN has not been and
    never will be. *)
Theorem delivery_once r s :
  service_reach r s →
  NoDup (sv_served s) ∧ NoDup (sv_replies s).*1 ∧
  (∀ op, (op < sv_next s)%nat →
     op ∈ (sv_replies s).*1 ∨ ∃ rq timed, wk_resume op rq timed ∈ all_work s) ∧
  ∀ op rp, (op, rp) ∈ sv_replies s →
    (reply_error rp = None → op ∈ sv_served s) ∧
    (reply_error rp = Some (ec_craft REPLICA_DOWN) →
       op ∉ sv_served s ∧ (∀ rq, wk_late op rq ∉ all_work s) ∧ ∀ rq timed, wk_resume op rq timed ∉ all_work s).
Proof.
  intros [Ha Hi Hs Hk Hr]%service_reach_inv. apply NoDup_app in Ha as (Ha1 & Ha2 & _).
  apply NoDup_app in Hs as (Hs1 & _ & _). split_and!; [done..| |].
  - intros op [?|(w & Hw & Ho)%list_elem_of_omap]%Hi%elem_of_app; [by left|].
    right. destruct w as [|op' rq timed]; [done|]. injection Ho as ->. eauto.
  - intros op rp Hin. destruct (Hr op rp Hin) as [H1 H2]. split; [done|]. intros He.
    specialize (H2 He). rewrite not_elem_of_app in H2. destruct H2 as [H2 H3]. split_and!; [done| |].
    + intros rq Hw. apply H3, list_elem_of_omap. by exists (wk_late op rq).
    + intros rq timed Hw. apply (Ha2 op); [by apply (list_elem_of_fmap_2 fst _ (op, rp))|].
      apply list_elem_of_omap. by exists (wk_resume op rq timed).
Qed.

(** A run: a write times out, is answered, and arrives late. *)
Definition slow_replica : MemCraftReplica := set_delay 9 (mk_replica (Mk_endpoint nil_uuid []) 4).
Definition slow_write : request :=
  write_request (Mk_client_hdr 0 (-1) (-1) 1) 0 0 4 (Mk_sg 4 [[1; 2]; [3; 4]]).
Definition run_first (s : service) : service :=
  match sv_running s with
  | w :: l => default s (run_work w (set_running s l))
  | [] => s
  end.
Definition take_first (now : Z) (s : service) : service :=
  let s := tick (now - sv_now s) s in default s (take_due s).
Definition late_run : service :=
  run_first (take_first 9 (run_first (take_first 5 (default (new_service slow_replica)
    (send slow_write 5 (new_service slow_replica)))))).

Lemma reach_take_run r s now :
  service_reach r s → sv_now s ≤ now → is_Some (take_due (tick (now - sv_now s) s)) →
  (match sv_running (take_first now s) with
   | w :: l => is_Some (run_work w (set_running (take_first now s) l))
   | [] => False
   end) →
  service_reach r (run_first (take_first now s)).
Proof.
  intros R Hnow [s1 Hs1]. unfold take_first. rewrite Hs1. simpl. unfold run_first.
  destruct (sv_running s1) as [|w l] eqn:Hr; [done|]. intros [s2 Hs2]. rewrite Hs2. simpl.
  eapply sr_step; [eapply sr_step; [eapply sr_step; [exact R|apply (ss_tick (now - sv_now s)); lia]|]|].
  - by apply ss_take.
  - by apply (ss_run w [] l).
Qed.

Lemma late_run_reach : service_reach slow_replica late_run.
Proof.
  unfold late_run. apply reach_take_run; [apply reach_take_run| by_eval | |].
  - eapply sr_step; [apply sr_new|]. apply (ss_send slow_write 5). vm_compute. reflexivity.
  - by_eval.
  - vm_compute. eauto.
  - vm_compute. eauto.
  - vm_compute. eauto.
  - vm_compute. eauto.
Qed.

Lemma delivery_once_witness :
  sv_served late_run = [0%nat] ∧ (sv_replies late_run).*1 = [0%nat] ∧
  append_of (sv_replica late_run) = 0 ∧ NoDup (sv_served late_run).
Proof.
  split; [vm_compute; reflexivity|]. split; [vm_compute; reflexivity|]. split; [vm_compute; reflexivity|].
  apply (delivery_once slow_replica late_run late_run_reach).
Defined.

Lemma ring_plan_agrees_aux delay op_timeout :
  let p := plan_delivery delay op_timeout in
  ring_timed_out delay op_timeout = dv_timed_out p ∧
  ring_delay (ring_wait delay op_timeout) = ring_delay (dv_wait p) ∧
  (dv_timed_out p = true → dv_deliver p = delay ∧ 0 < dv_wait p ≤ dv_deliver p).
Proof.
  unfold plan_delivery, ring_wait, ring_timed_out, ring_delay.
  destruct (Z.leb_spec delay 0), (Z.ltb_spec 0 delay), (Z.ltb_spec 0 op_timeout),
    (Z.leb_spec op_timeout delay); simpl; try lia; split_and!; try done; try lia;
    repeat case_match; done || lia.
Qed.

(** The on-ring verbs make the transport's decision: the same operations time out, the
    caller waits the same time, and a timed-out write is delivered after the same delay. *)
Theorem ring_plan_agrees delay op_timeout :
  let p := plan_delivery delay op_timeout in
  ring_timed_out delay op_timeout = dv_timed_out p ∧
  ring_delay (ring_wait delay op_timeout) = ring_delay (dv_wait p) ∧
  (dv_timed_out p = true → dv_deliver p = delay ∧ 0 < dv_wait p ≤ dv_deliver p).
Proof. apply ring_plan_agrees_aux. Qed.

Lemma plan_wait_pos delay op_timeout :
  default 0 (ring_delay (dv_wait (plan_delivery delay op_timeout))) = dv_wait (plan_delivery delay op_timeout).
Proof.
  unfold plan_delivery, ring_delay. destruct (Z.leb_spec delay 0); [done|].
  destruct (Z.ltb_spec 0 op_timeout), (Z.leb_spec op_timeout delay); cbn; by rewrite (proj2 (Z.ltb_lt _ _)) by lia.
Qed.
Lemma resume_answers op rq timed s s' : ('(s1, _) ← (s1 ← resume op rq timed s; Some (s1, 0%nat)); Some s1) = Some s' → op ∈ (sv_replies s').*1.
Proof.
  unfold resume. destruct timed; [intros [= <-]; left|]. destruct (negb _); [intros [= <-]; left|].
  destruct (serve _ _) as [[rp r]|]; [|done]. intros [= <-]. left.
Qed.

(** The two tiers of the model's wire are one: while the transport runs and the ring has
    entries, an on-ring verb leaves the service exactly as the transport's does, with the same
    answers, timers and late deliveries; and without a ring entry the caller still gets its
    answer, at once. *)
Theorem ring_sends_alike rq op_timeout sqes s :
  (sv_stop s = false → (2 ≤ sqes)%nat → ring_send rq op_timeout sqes s = send rq op_timeout s) ∧
  ∀ s', ring_send rq op_timeout 0 s = Some s' → sv_next s ∈ (sv_replies s').*1.
Proof.
  split.
  - intros Hs Hq. destruct sqes as [|[|n]]; [lia|lia|]. unfold ring_send, send. destruct (negb _); [done|].
    set (d := rf_delay _). destruct (ring_plan_agrees_aux d op_timeout) as (-> & Hw & Hd).
    destruct (plan_delivery d op_timeout) as [w dl timed] eqn:Hp. cbn [dv_timed_out dv_wait dv_deliver] in *.
    unfold run_after. destruct (timed && is_write rq) eqn:Ht; cbn; rewrite Hs; cbn; rewrite ?Hs, Hw.
    2: { pose proof (plan_wait_pos d op_timeout) as Hpw. rewrite Hp in Hpw. cbn in Hpw. by rewrite Hpw. }
    apply andb_true_iff in Ht as [-> _]. destruct (Hd eq_refl) as [-> Hpos].
    unfold ring_delay. rewrite !(proj2 (Z.ltb_lt _ _)) by lia. done.
  - intros s'. unfold ring_send. destruct (negb _); [intros [= <-]; left|].
    set (d := rf_delay _). destruct (ring_timed_out d op_timeout && is_write rq); cbn.
    + destruct (late _ _ _) as [s1|]; [|done]. cbn. apply resume_answers.
    + apply resume_answers.
Qed.
