(* ===== verification/Client.v ===== *)
(** * The client

    [src/client_impl.hpp] and [src/client.cpp]: login with its admission probes, the quorum
    write with its sub-quorum outcomes and resolution legs, the routed read with failover,
    flush, keep-alives and logout, over the tracker of [DlsnTracker] and the router of
    [ReadRoute].

    The verbs are coroutines; what they await is given to the model as the answers in the
    order the code consumes them: the replicas' replies, the plan, the probe rounds.  Where
    other operations can run between two accesses of a verb, the accesses are separate
    definitions ([write_begin], [write_leg], [write_settle], ...).  A definition that needs
    the tracker or the router of a session returns [None] without one, where the code would
    dereference an empty optional; [None] of a verb that awaits means the answers ran out. *)

From S2P Require Import Prelude Codec WireTypes Wire Types StreamTracker DlsnTracker IntervalMap ReadRoute.

Local Open Scope craft_scope.
Local Open Scope Z_scope.

Definition k_fold_batch : Z := 512.

Section client.
Context {T U M : Type} `{ST : !StreamTracker dlsn_slot T} `{SU : !StreamTracker route_slot U}
  `{IM : !IntervalMap M} `{MS : !MissSort}.

Record craft_client := Mk_client {
  cc_n : nat;
  cc_leader : Z;
  cc_term : Z;
  cc_token : Z;
  cc_lba_size : Z;
  cc_capacity : Z;
  cc_max_tx : Z;
  cc_tracker : dlsn_tracker T;
  cc_route : read_route_map U M;
}.

Definition mk_client (n : nat) (leader max_inflight : Z) : craft_client :=
  Mk_client n leader 0 0 0 0 0 (mk_tracker max_inflight) route_init.

Definition cc_quorum (c : craft_client) : nat := (cc_n c / 2 + 1)%nat.

Definition with_tracker (c : craft_client) (t : dlsn_tracker T) : craft_client :=
  Mk_client (cc_n c) (cc_leader c) (cc_term c) (cc_token c) (cc_lba_size c) (cc_capacity c) (cc_max_tx c)
    t (cc_route c).
Definition with_route (c : craft_client) (r : read_route_map U M) : craft_client :=
  Mk_client (cc_n c) (cc_leader c) (cc_term c) (cc_token c) (cc_lba_size c) (cc_capacity c) (cc_max_tx c)
    (cc_tracker c) r.

(** ** Helpers *)

Definition maybe_fold (c : craft_client) : option craft_client :=
  let F := frontier (cc_tracker c) in
  if k_fold_batch <=? F - folded (cc_route c)
  then with_route c <$> fold_to (cc_route c) F
  else Some c.

Definition make_hdr (c : craft_client) : client_hdr :=
  Mk_client_hdr (cc_term c) (frontier (cc_tracker c)) (all_committed (cc_route c)) (cc_token c).

Definition precheck (c : craft_client) (addr len : Z) : option error_condition :=
  if cc_term c =? 0 then Some (ec_std not_connected)
  else if negb (cc_lba_size c =? 0) && negb (len =? 0) && (addr `mod` cc_lba_size c =? 0) &&
          (len `mod` cc_lba_size c =? 0)
  then None else Some (ec_std invalid_argument).

(** ** Login *)

(** The member a hop addresses. *)
Definition hop_target (c : craft_client) (hop : nat) : Z :=
  (cc_leader c + Z.of_nat hop) `mod` Z.of_nat (cc_n c).

(** The walk over the members, [todo] hops left and [answers] theirs in hop order: the
    accepted answer with its member, or the error to return. *)
Fixpoint login_walk (todo hop : nat) (c : craft_client) (answers : list (result error_condition LoginResult))
    (last_err : option error_condition) : option (result error_condition (Z * LoginResult)) :=
  match todo with
  | O => Some (Err (default (ec_craft NOT_LEADER) last_err))
  | S todo =>
      match answers with
      | [] => None
      | Err e :: answers => login_walk todo (S hop) c answers (Some e)
      | Ok lr :: answers =>
          if lg_term lr =? 0 then login_walk todo (S hop) c answers last_err
          else Some (Ok (hop_target c hop, lr))
      end
  end.

(** What the client takes over from an accepted answer. *)
Definition login_accept (c : craft_client) (client_token target : Z) (lr : LoginResult) : craft_client :=
  Mk_client (cc_n c) target (lg_term lr) client_token (lg_lba_size lr) (lg_capacity lr) (lg_max_tx lr)
    (reset_at (cc_tracker c) (lg_dLSN lr) (lg_lba_size lr))
    (route_reset route_init (cc_n c) (lg_dLSN lr)).

(** One probe round: the loop over the members' answers. *)
Definition admit_step (L : Z) (acc : craft_client * nat * bool) (a : nat * result error_condition lsn_pair) :
    craft_client * nat * bool :=
  let '(c, nacks, holder) := acc in
  match a with
  | (_, Err _) => (c, nacks, holder)
  | (i, Ok p) =>
      (with_route c (advance_synced (cc_route c) i (lp_commit p)), S nacks, holder || (L <=? lp_commit p))
  end.
Definition admit_round (c : craft_client) (L : Z) (acks : list (result error_condition lsn_pair)) :
    craft_client * nat * bool :=
  foldl (admit_step L) (c, 0%nat, false) (imap pair acks).

(** The probe loop: each round's answers, and whether the deadline had passed after it. *)
Fixpoint admit_loop (c : craft_client) (L : Z) (rounds : list (list (result error_condition lsn_pair) * bool)) :
    option (result error_condition unit * craft_client) :=
  match rounds with
  | [] => None
  | (acks, expired) :: rounds =>
      let '(c, nacks, holder) := admit_round c L acks in
      if bool_decide (cc_quorum c ≤ nacks)%nat && holder then Some (Ok tt, c)
      else if expired : bool then Some (Err (ec_craft NO_QUORUM), c)
      else admit_loop c L rounds
  end.

Definition login (c : craft_client) (client_token : Z) (answers : list (result error_condition LoginResult))
    (rounds : list (list (result error_condition lsn_pair) * bool)) :
    option (result error_condition unit * craft_client) :=
  w ← login_walk (cc_n c) 0 c answers None;
  match w with
  | Err e => Some (Err e, c)
  | Ok (target, lr) => admit_loop (login_accept c client_token target lr) (lg_dLSN lr) rounds
  end.

(** ** Write *)

(** Up to the broadcast: the dLSN, the header of every leg, and the client. *)
Definition write_begin (c : craft_client) (addr len : Z) :
    option (result error_condition (Z * client_hdr) * craft_client) :=
  match precheck c addr len with
  | Some e => Some (Err e, c)
  | None =>
      '(d, t) ← reserve (cc_tracker c) addr len;
      let c := with_tracker c t in
      r ← route_create (cc_route c) d addr len;
      let c := with_route c r in
      Some (Ok (d, make_hdr c), c)
  end.

(** The completion of one leg. *)
Definition write_leg (c : craft_client) (dlsn : Z) (idx : nat) (r : result error_condition lsn_pair) :
    option craft_client :=
  rt ← record_completion (cc_route c) dlsn idx (is_ok r);
  let c := with_route c rt in
  match r with
  | Ok p => Some (with_route c (advance_synced (cc_route c) idx (lp_commit p)))
  | Err _ => Some c
  end.

Definition deterministic_reject (e : error_condition) : bool :=
  bool_decide (e = ec_std invalid_argument) || bool_decide (e = ec_craft REPLICA_DOWN).

(** The loop over the results of a sub-quorum write. *)
Definition tally (results : list (result error_condition lsn_pair)) : nat * option error_condition :=
  foldl (λ acc r, match r with
                  | Ok _ => acc
                  | Err e => (if deterministic_reject e then S acc.1 else acc.1, Some e)
                  end) (0%nat, None) results.

(** *** Resolution rounds *)

(** [request_resolution_round]: the want, then one leg per member that has none outstanding;
    the members whose legs are fired. *)
Definition fire_step (acc : read_route_map U M * list nat) (m : nat) : read_route_map U M * list nat :=
  let '(r, fired) := acc in
  let '(free, r) := try_begin_resolution r m in
  (r, if free then fired ++ [m] else fired).
Definition request_resolution_round (c : craft_client) (upto : Z) : list nat * craft_client :=
  let c := with_tracker c (note_resolution_want (cc_tracker c) upto) in
  let '(r, fired) := foldl fire_step (cc_route c, []) (seq 0 (cc_n c)) in
  (fired, with_route c r).

(** The rest of a write once it is decided: [acks] legs acked, and for a sub-quorum write the
    results of all legs.  Also returns the resolution legs it fires. *)
Definition write_settle (c : craft_client) (dlsn len : Z) (acks : nat)
    (results : list (result error_condition lsn_pair)) :
    option (result error_condition Z * list nat * craft_client) :=
  if decide (cc_quorum c ≤ acks)%nat then
    t ← resolve (cc_tracker c) dlsn acked;
    c ← maybe_fold (with_tracker c t);
    Some (Ok len, [], c)
  else
    let '(refused, last_err) := tally results in
    let provably_empty := bool_decide (refused = cc_n c) in
    t ← resolve (cc_tracker c) dlsn (if provably_empty then empty else failed);
    c ← maybe_fold (with_tracker c t);
    let '(fired, c) := if provably_empty then ([], c) else request_resolution_round c dlsn in
    Some (Err (default (ec_craft NO_QUORUM) last_err), fired, c).

(** [when_quorum] over the legs in the order they complete: it returns at the quorum-th ack,
    leaving the rest detached, or when all legs are done. *)
Fixpoint await_quorum (c : craft_client) (dlsn : Z) (acks : nat)
    (legs : list (nat * result error_condition lsn_pair)) : option (nat * craft_client) :=
  if decide (cc_quorum c ≤ acks)%nat then Some (acks, c)
  else
    match legs with
    | [] => Some (acks, c)
    | (idx, r) :: legs =>
        c ← write_leg c dlsn idx r;
        await_quorum c dlsn (if is_ok r then S acks else acks) legs
    end.

(** The results of the legs by member. *)
Definition leg_of (legs : list (nat * result error_condition lsn_pair)) (idx : nat) :
    option (result error_condition lsn_pair) :=
  '(_, (_, r)) ← list_find (λ p, p.1 = idx) legs; Some r.
Definition leg_results (n : nat) (legs : list (nat * result error_condition lsn_pair)) :
    list (result error_condition lsn_pair) :=
  omap (leg_of legs) (seq 0 n).

(** [write] undisturbed, its legs completing in the order of [legs]. *)
Definition write (c : craft_client) (addr len : Z) (legs : list (nat * result error_condition lsn_pair)) :
    option (result error_condition Z * list nat * craft_client) :=
  '(b, c) ← write_begin c addr len;
  match b with
  | Err e => Some (Err e, [], c)
  | Ok (dlsn, _) =>
      '(acks, c) ← await_quorum c dlsn 0 legs;
      write_settle c dlsn len acks (leg_results (cc_n c) legs)
  end.

(** One reply of a resolution leg to member [idx]: the verdicts retire slots, the router
    being told of each filled one; [None] inside: the leg ends. *)
Definition note_filled_at (idx : nat) (d : Z) (r : option (read_route_map U M)) : option (read_route_map U M) :=
  r ← r; note_filled r d idx.
Definition resolution_retire (c : craft_client) (idx : nat) (rr : resolution_result) : option craft_client :=
  '(t, r) ← retire_upto (note_filled_at idx) (cc_tracker c) (rs_resolved_upto rr) (rs_empty_slots rr)
              (Some (cc_route c));
  r ← r;
  Some (with_route (with_tracker c (clear_resolution_want t (rs_resolved_upto rr))) r).

(** The end of a pass: the flag is released, and taken again if a want came in meanwhile. *)
Definition resolution_release (c : craft_client) (idx : nat) : craft_client :=
  with_route c (end_resolution (cc_route c) idx).
Definition resolution_recheck (c : craft_client) (idx : nat) : bool * craft_client :=
  match resolution_want (cc_tracker c) with
  | None => (false, c)
  | Some _ => let '(free, r) := try_begin_resolution (cc_route c) idx in (free, with_route c r)
  end.

(** [fire_resolution] undisturbed; [answers] are the member's replies in order.  Every pass
    that does not end the leg consumes a reply. *)
Definition resolution_hdr (c : craft_client) (term : Z) : client_hdr :=
  Mk_client_hdr term (frontier (cc_tracker c)) (all_committed (cc_route c)) 0.
Fixpoint fire_resolution (c : craft_client) (idx : nat)
    (answers : list (result error_condition resolution_result)) : option craft_client :=
  match resolution_want (cc_tracker c) with
  | None => Some (resolution_recheck (resolution_release c idx) idx).2
  | Some want =>
      match answers with
      | [] => None
      | Err _ :: _ => Some (resolution_release c idx)
      | Ok rr :: answers => c ← resolution_retire c idx rr; fire_resolution c idx answers
      end
  end.

(** ** Read *)

(** [issue_plan]'s merge of the replies of one member. *)
Definition merge_lsns (p : lsn_pair) (q : lsn_pair) : lsn_pair :=
  Mk_lsn_pair (Z.max (lp_commit p) (lp_commit q)) (Z.max (lp_last_append p) (lp_last_append q)).
Fixpoint merge_replies (acc : lsn_pair) (rs : list (result error_condition read_result)) :
    result error_condition lsn_pair :=
  match rs with
  | [] => Ok acc
  | Err e :: _ => Err e
  | Ok r :: rs => merge_replies (merge_lsns acc (rd_lsns r)) rs
  end.
Definition issue_plan (rs : list (result error_condition read_result)) : result error_condition lsn_pair :=
  match rs with
  | [Ok r] => Ok (rd_lsns r)
  | [Err e] => Err e
  | _ => merge_replies lsn_none rs
  end.

Definition transport_failure (e : error_condition) : bool :=
  bool_decide (e = ec_craft REPLICA_DOWN) || bool_decide (e = ec_std timed_out).

(** [drive_keepalives]: the legs it fires. *)
Definition keepalive_step (exclude : nat) (acc : read_route_map U M * list nat) (m : nat) :
    read_route_map U M * list nat :=
  let '(r, fired) := acc in
  if decide (m = exclude) then (r, fired)
  else let '(free, r) := try_begin_keepalive r m in (r, if free then fired ++ [m] else fired).
Definition drive_keepalives (c : craft_client) (exclude : nat) : list nat * craft_client :=
  if cc_term c =? 0 then ([], c)
  else let '(r, fired) := foldl (keepalive_step exclude) (cc_route c, []) (seq 0 (cc_n c)) in
       (fired, with_route c r).
(** [fire_keepalive], once the member has answered. *)
Definition keepalive_reply (c : craft_client) (idx : nat) (r : result error_condition lsn_pair) : craft_client :=
  let rt := match r with Ok p => advance_synced (cc_route c) idx (lp_commit p) | Err _ => cc_route c end in
  with_route c (end_keepalive rt idx).

(** The hop loop: [todo] hops left from [hop]; [answers] are the attempts' results. *)
Record read_outcome := Mk_read_outcome {
  ro_result : result error_condition Z;
  ro_rotor : nat;
  ro_served : option nat;
  ro_client : craft_client;
}.
Fixpoint read_hops (todo hop : nat) (c : craft_client) (start : nat) (addr len Hmax : Z)
    (answers : list (result error_condition lsn_pair)) (any : bool) (rotor : nat) : option read_outcome :=
  match todo with
  | O => Some (Mk_read_outcome (Err (ec_craft (if any then NO_QUORUM else NOT_ELIGIBLE))) rotor None c)
  | S todo =>
      let idx := ((start + hop) mod cc_n c)%nat in
      e ← eligible (cc_route c) idx addr len Hmax;
      if negb e then read_hops todo (S hop) c start addr len Hmax answers any rotor
      else
        let rotor := if any then rotor else S idx in
        match answers with
        | [] => None
        | Ok p :: _ =>
            let c := with_route c (advance_synced (cc_route c) idx (lp_commit p)) in
            Some (Mk_read_outcome (Ok len) rotor (Some idx) (drive_keepalives c idx).2)
        | Err er :: answers =>
            if transport_failure er then read_hops todo (S hop) c start addr len Hmax answers true rotor
            else Some (Mk_read_outcome (Err er) rotor None c)
        end
  end.

Definition plan_hmax (F : Z) (plan : list read_segment) : Z := foldl (λ h sg, Z.max h (sg_H sg)) F plan.

(** [read] after its plan. *)
Definition read (c : craft_client) (addr len : Z) (plan : result error_condition (list read_segment))
    (rotor : nat) (answers : list (result error_condition lsn_pair)) : option read_outcome :=
  match precheck c addr len with
  | Some e => Some (Mk_read_outcome (Err e) rotor None c)
  | None =>
      match plan with
      | Err e => Some (Mk_read_outcome (Err e) rotor None c)
      | Ok plan =>
          let F := frontier (cc_tracker c) in
          r ← fold_to (cc_route c) F;
          let c := with_route c r in
          read_hops (cc_n c) 0 c (rotor mod cc_n c) addr len (plan_hmax F plan) answers false rotor
      end
  end.

(** ** Flush and logout *)

Definition flush_step (acc : craft_client * bool * option error_condition)
    (a : nat * result error_condition lsn_pair) : craft_client * bool * option error_condition :=
  let '(c, any, last_err) := acc in
  match a with
  | (i, Ok p) => (with_route c (advance_synced (cc_route c) i (lp_commit p)), true, last_err)
  | (_, Err e) => (c, any, Some e)
  end.
Definition flush (c : craft_client) (results : list (result error_condition lsn_pair)) :
    result error_condition unit * craft_client :=
  let '(c, any, last_err) := foldl flush_step (c, false, None) (imap pair results) in
  (if any : bool then Ok tt else Err (default (ec_craft NO_QUORUM) last_err), c).

Definition end_session (c : craft_client) (leader : Z) : craft_client :=
  Mk_client (cc_n c) leader 0 (cc_token c) 0 0 0 (cc_tracker c) (cc_route c).

Fixpoint logout_walk (todo hop : nat) (c : craft_client) (answers : list (result error_condition unit))
    (last_err : option error_condition) : option (result error_condition unit * craft_client) :=
  match todo with
  | O => Some (Err (default (ec_craft NOT_LEADER) last_err), c)
  | S todo =>
      match answers with
      | [] => None
      | Ok _ :: _ => Some (Ok tt, end_session c (hop_target c hop))
      | Err e :: answers =>
          if decide (e = ec_craft STALE_TERM) then Some (Ok tt, end_session c (cc_leader c))
          else logout_walk todo (S hop) c answers (Some e)
      end
  end.
Definition logout (c : craft_client) (answers : list (result error_condition unit)) :
    option (result error_condition unit * craft_client) :=
  if cc_term c =? 0 then Some (Ok tt, c) else logout_walk (cc_n c) 0 c answers None.
End client.
Arguments craft_client : clear implicits.
Arguments read_outcome : clear implicits.
