(* ===== verification/ClientSpec.v ===== *)
(** * What the client promises

    One session of the client of [Client], with ghost state: the abstract tracker session
    of [DlsnSpec] and the holder history of [RouteSpec].  [client_reach] are the states any
    interleaving of the session's verbs can reach; [client_inv] is what they have in common.
    Every verb, in the pieces other operations can run between, is a path of such steps. *)

From S2P Require Import Prelude Codec WireTypes Wire Types StreamTracker DlsnTracker DlsnSpec DlsnPlan IntervalMap ReadRoute RouteSpec Client.

Local Open Scope craft_scope.
Local Open Scope Z_scope.

(** The sub-quorum evidence: result [i] is an ack exactly if the history has [i] as holder. *)
Definition results_match {A} (rs : route_slot) (results : list (result error_condition A)) : Prop :=
  ∀ i r, results !! i = Some r → is_ok r = holds (rs_holders rs) i.

Definition results_check (rs : route_slot) (results : list (result error_condition lsn_pair)) : bool :=
  forallb (λ p : nat * result error_condition lsn_pair, eqb (is_ok p.2) (holds (rs_holders rs) p.1))
    (imap pair results).

Lemma results_check_ok rs results : results_check rs results = true → results_match rs results.
Proof.
  unfold results_check. intros H i r Hi. rewrite forallb_forall in H.
  apply eqb_prop, (H (i, r)), list_elem_of_In, list_elem_of_lookup. exists i.
  by rewrite list_lookup_imap, Hi.
Qed.

(** The outcome [write_settle] gives a slot. *)
Definition settle_outcome (n acks : nat) (results : list (result error_condition lsn_pair)) : slot_outcome :=
  if decide (n / 2 + 1 ≤ acks)%nat then acked
  else if bool_decide ((tally results).1 = n) then empty else failed.

Section reach.
Context {T U M : Type} `{ST : !StreamTracker dlsn_slot T} `{SU : !StreamTracker route_slot U}
  `{IM : !IntervalMap M} `{MS : !MissSort}.
Implicit Types (s : session) (h : gmap Z route_slot) (c : craft_client T U M).

(** The verdicts of a round are about dLSNs the client has broadcast. *)
Definition round_known s h (F : Z) (rr : resolution_result) : Prop :=
  ∀ d, d ∈ filled s (rs_empty_slots rr) (F + 1) (Z.min (rs_resolved_upto rr) (ss_next s - 1)) →
    is_Some (h !! d).
Definition spec_round s (rr : resolution_result) : session :=
  spec_op s (op_retire (rs_resolved_upto rr) (rs_empty_slots rr)).
Definition hist_round (idx : nat) (ds : list Z) h : gmap Z route_slot :=
  foldl (λ h d, alter (λ rs, fill_slot rs (bit idx)) d h) h ds.

(** The accesses of the verbs to the shared tracker and router.  A leg completes once, a
    slot is settled on the evidence of its legs, and the router is folded no further than
    the tracker's frontier. *)
Inductive client_reach (n : nat) (L : Z) : session → gmap Z route_slot → craft_client T U M → Prop :=
| cr_login c0 token target lr :
    cc_n c0 = n → lg_dLSN lr = L → 0 ≤ lg_lba_size lr →
    client_reach n L (Mk_session L (L + 1) ∅) ∅ (login_accept c0 token target lr)
| cr_take s h c :
    client_reach n L s h c →
    client_reach n L (spec_take s) h (with_tracker c (reserve_take (cc_tracker c)).2)
| cr_create s h c d addr len t :
    client_reach n L s h c → L < d < ss_next s → ss_slots s !! d = None →
    slot_ok (Mk_dlsn_slot addr len in_flight) → precheck c addr len = None →
    reserve_create (cc_tracker c) d addr len = Some t →
    client_reach n L (spec_create s d addr len) h (with_tracker c t)
| cr_send s h c d sl r :
    client_reach n L s h c → ss_slots s !! d = Some sl → h !! d = None → d < kNever →
    ds_outcome sl = in_flight →
    route_create (cc_route c) d (ds_addr sl) (ds_len sl) = Some r →
    client_reach n L s (<[d := Mk_route_slot d (ds_addr sl) (ds_len sl) 0 0 0]> h) (with_route c r)
| cr_complete s h c d rs idx ok r :
    client_reach n L s h c → h !! d = Some rs → (idx < n)%nat → holds (rs_completed rs) idx = false →
    record_completion (cc_route c) d idx ok = Some r →
    client_reach n L s (<[d := complete_slot rs (bit idx) ok]> h) (with_route c r)
| cr_synced s h c idx C :
    client_reach n L s h c → (idx < n)%nat →
    client_reach n L s h (with_route c (advance_synced (cc_route c) idx C))
| cr_settle s h c d rs acks results t :
    client_reach n L s h c → h !! d = Some rs → (acks ≤ popcount (rs_holders rs))%nat →
    ((acks < n / 2 + 1)%nat → length results = n ∧ results_match rs results) →
    resolve (cc_tracker c) d (settle_outcome n acks results) = Some t →
    client_reach n L (spec_resolve s d (settle_outcome n acks results)) h (with_tracker c t)
| cr_round s h c idx rr c' :
    client_reach n L s h c → (idx < n)%nat → round_known s h (frontier (cc_tracker c)) rr →
    resolution_retire c idx rr = Some c' →
    client_reach n L (spec_round s rr)
      (hist_round idx (filled s (rs_empty_slots rr) (frontier (cc_tracker c) + 1)
                         (Z.min (rs_resolved_upto rr) (ss_next s - 1))) h) c'
| cr_fold s h c F r :
    client_reach n L s h c → F ≤ frontier (cc_tracker c) → fold_to (cc_route c) F = Some r →
    client_reach n L s h (with_route c r)
| cr_flags s h c ka rr :
    client_reach n L s h c → client_reach n L s h (with_route c (set_flags (cc_route c) ka rr))
| cr_want s h c upto :
    client_reach n L s h c →
    client_reach n L s h (with_tracker c (note_resolution_want (cc_tracker c) upto))
| cr_plan s h c addr len p t :
    client_reach n L s h c → compute (cc_tracker c) addr len = Some (p, t) →
    client_reach n L s h (with_tracker c t)
| cr_logout s h c leader :
    client_reach n L s h c → client_reach n L s h (end_session c leader).

(** ** The invariant *)

Record client_inv (n : nat) (L : Z) s h c : Prop := {
  ci_n : cc_n c = n;
  ci_login : ss_login s = L;
  ci_tracker : refines s (cc_tracker c);
  ci_route : route_reach n L h (cc_route c);
  ci_fold : folded (cc_route c) ≤ frontier (cc_tracker c);
  ci_lba : 0 ≤ lba_size_ (cc_tracker c) ∧
           (cc_lba_size c = 0 ∨ cc_lba_size c = lba_size_ (cc_tracker c));
  ci_aligned : aligned s (lba_size_ (cc_tracker c));
  ci_link d rs : h !! d = Some rs →
    ∃ sl, ss_slots s !! d = Some sl ∧ ds_addr sl = rs_addr rs ∧ ds_len sl = rs_len rs;
  ci_acked d sl : ss_slots s !! d = Some sl → ds_outcome sl = acked →
    ∃ rs, h !! d = Some rs ∧ slot_durable (n / 2 + 1) rs = true;
}.

Lemma client_inv_login n L c0 token target lr :
  cc_n c0 = n → lg_dLSN lr = L → 0 ≤ lg_lba_size lr →
  client_inv n L (Mk_session L (L + 1) ∅) ∅ (login_accept c0 token target lr).
Proof.
  intros <- <- Hl. split; simpl; try done.
  - apply refines_reset.
  - constructor.
  - split; [done|by right].
Qed.

(** ** Frames *)

(** The two sessions have the same slots with the same ranges. *)
Definition same_ranges s s' : Prop :=
  ∀ d, (λ sl, (ds_addr sl, ds_len sl)) <$> ss_slots s' !! d =
       (λ sl, (ds_addr sl, ds_len sl)) <$> ss_slots s !! d.

Lemma same_ranges_lookup s s' d sl :
  same_ranges s s' → ss_slots s' !! d = Some sl →
  ∃ sl0, ss_slots s !! d = Some sl0 ∧ ds_addr sl0 = ds_addr sl ∧ ds_len sl0 = ds_len sl.
Proof.
  intros Hs Hd. specialize (Hs d). rewrite Hd in Hs. symmetry in Hs.
  apply fmap_Some in Hs as (sl0 & H0 & [= -> ->]). eauto.
Qed.

Lemma same_ranges_sym s s' : same_ranges s s' → same_ranges s' s.
Proof. intros Hs d. by rewrite Hs. Qed.

Lemma settle_ranges oc sl : ds_addr (settle oc sl) = ds_addr sl ∧ ds_len (settle oc sl) = ds_len sl.
Proof. unfold settle. by destruct (is_resolved _). Qed.

Lemma resolve_ranges s d oc : same_ranges s (spec_resolve s d oc).
Proof.
  intros i. rewrite lookup_spec_resolve. case_decide; [|done].
  destruct (ss_slots s !! i) as [sl|]; [|done]. simpl. by destruct (settle_ranges oc sl) as [-> ->].
Qed.

Lemma round_ranges s rr : same_ranges s (spec_round s rr).
Proof.
  intros i. unfold spec_round, spec_op. rewrite lookup_spec_retire. destruct (ss_slots s !! i) as [sl|]; [|done].
  simpl. case_decide; [|done]. by destruct (settle_ranges (verdict (rs_empty_slots rr) i) sl) as [-> ->].
Qed.

Lemma client_inv_tracker n L s s' h c t :
  client_inv n L s h c → refines s' t → ss_login s' = L →
  frontier (cc_tracker c) ≤ frontier t → lba_size_ t = lba_size_ (cc_tracker c) → same_ranges s s' →
  (∀ d sl, ss_slots s' !! d = Some sl → ds_outcome sl = acked →
     ∃ rs, h !! d = Some rs ∧ slot_durable (n / 2 + 1) rs = true) →
  client_inv n L s' h (with_tracker c t).
Proof.
  intros [] Hr HL HF Hlba Hs Hack. split; simpl; try done; rewrite ?Hlba; try done.
  - lia.
  - intros d sl Hd. destruct (same_ranges_lookup _ _ _ _ Hs Hd) as (sl0 & H0 & <- & <-).
    by apply (ci_aligned0 d).
  - intros d rs Hd. destruct (ci_link0 d rs Hd) as (sl & H0 & <- & <-).
    apply (same_ranges_lookup _ _ _ _ (same_ranges_sym _ _ Hs)) in H0 as (sl' & ? & ? & ?). eauto.
Qed.

(** The slots keep their ranges and become only more durable. *)
Definition hist_grows (n : nat) h h' : Prop :=
  ∀ d rs, h !! d = Some rs → ∃ rs', h' !! d = Some rs' ∧
    (slot_durable (n / 2 + 1) rs = true → slot_durable (n / 2 + 1) rs' = true).
Definition hist_linked s h : Prop :=
  ∀ d rs, h !! d = Some rs →
    ∃ sl, ss_slots s !! d = Some sl ∧ ds_addr sl = rs_addr rs ∧ ds_len sl = rs_len rs.

Lemma client_inv_route n L s h h' c r :
  client_inv n L s h c → route_reach n L h' r → folded r ≤ frontier (cc_tracker c) →
  hist_linked s h' → hist_grows n h h' → client_inv n L s h' (with_route c r).
Proof.
  intros [] Hr HF Hlink Hg. split; simpl; try done.
  intros d sl Hd Ha. destruct (ci_acked0 d sl Hd Ha) as (rs & Hrs & Hdur).
  destruct (Hg d rs Hrs) as (rs' & ? & ?). eauto.
Qed.

Lemma hist_grows_refl n h : hist_grows n h h.
Proof. intros d rs. eauto. Qed.

Lemma client_inv_same n L s h c r :
  client_inv n L s h c → route_reach n L h r → folded r ≤ frontier (cc_tracker c) →
  client_inv n L s h (with_route c r).
Proof.
  intros I Hr HF. eapply client_inv_route; try done; [by destruct I|apply hist_grows_refl].
Qed.

(** One slot of the history changes. *)
Lemma hist_linked_insert s h d rs rs' :
  hist_linked s h → h !! d = Some rs → rs_addr rs' = rs_addr rs → rs_len rs' = rs_len rs →
  hist_linked s (<[d := rs']> h).
Proof.
  intros Hl Hd Ha Hn i ri. rewrite lookup_insert. case_decide; [|apply Hl].
  intros [= <-]. subst. rewrite Ha, Hn. by apply Hl.
Qed.

Lemma hist_grows_insert n h d rs rs' :
  h !! d = Some rs → subset (rs_holders rs) (rs_holders rs') →
  rs_verdict rs' = rs_verdict rs ∨ rs_verdict rs' = 1 → hist_grows n h (<[d := rs']> h).
Proof.
  intros Hd Hs Hv i ri Hi. rewrite lookup_insert. case_decide as Heq; [|eauto].
  subst. rewrite Hd in Hi. injection Hi as <-. eexists. split; [done|]. by apply durable_mono.
Qed.

(** ** Preservation *)

(** What only [reset_at], the want operations and the scan counter change. *)
Definition same_params (st st' : dlsn_tracker T) : Prop :=
  lba_size_ st' = lba_size_ st ∧ resolve_want_ st' = resolve_want_ st.

Lemma advance_frontier_params (st st' : dlsn_tracker T) : advance_frontier st = Some st' → same_params st st'.
Proof.
  unfold advance_frontier. destruct (tracker_ st); simpl; [|done].
  case_match; [by intros [= <-]|]. case_match. by intros [= <-].
Qed.

Lemma resolve_params (st st' : dlsn_tracker T) d oc : resolve st d oc = Some st' → same_params st st'.
Proof.
  unfold resolve. destruct (tracker_ st) as [t|]; simpl; [|done].
  destruct (st_update t d (resolve_slot oc) false) as [t' []]; simpl; [|by intros [= <-]].
  destruct (is_resolved oc); [|case_decide; by intros [= <-]].
  intros H%advance_frontier_params. by case_decide.
Qed.

Lemma retire_loop_params {X} fuel (f : Z → X → X) empties hi (lo : Z) (st st' : dlsn_tracker T) x x' :
  retire_loop fuel f empties hi lo st x = Some (st', x') → same_params st st'.
Proof.
  revert lo st x. induction fuel as [|fuel IH]; intros lo st x; simpl; [by intros [= <- _]|].
  case_match; [|by intros [= <- _]]. destruct (tracker_ st) as [t|]; simpl; [|done].
  case_match; [by intros [= <- _]|]. destruct (active_at t _); [|apply IH].
  case_decide; destruct (resolve st _ _) as [st1|] eqn:Hr; simpl; try done;
    intros [Ha Hb]%IH; apply resolve_params in Hr as [Hc Hd]; split; congruence.
Qed.

Lemma retire_upto_params {X} (f : Z → X → X) (st st' : dlsn_tracker T) upto empties x x' :
  retire_upto f st upto empties x = Some (st', x') → same_params st st'.
Proof.
  unfold retire_upto. destruct (tracker_ st); [|by intros [= <- _]]. apply retire_loop_params.
Qed.

Lemma compute_params (st st' : dlsn_tracker T) addr len p :
  compute st addr len = Some (p, st') → same_params st st'.
Proof.
  unfold compute. case_match; [by intros [= _ <-]|]. destruct (tracker_ st); simpl; [|done].
  case_match; [by intros [= _ <-]|]. case_match; by intros [= _ <-].
Qed.

Lemma precheck_None c addr len :
  precheck c addr len = None →
  cc_term c ≠ 0 ∧ cc_lba_size c ≠ 0 ∧ len ≠ 0 ∧ addr `mod` cc_lba_size c = 0 ∧ len `mod` cc_lba_size c = 0.
Proof.
  unfold precheck. destruct (Z.eqb_spec (cc_term c) 0); [done|].
  destruct (_ && _) eqn:H; [|done]. intros _. rewrite !andb_true_iff, !negb_true_iff in H. lia.
Qed.

Lemma precheck_geometry n L s h c addr len :
  client_inv n L s h c → precheck c addr len = None →
  let lba := lba_size_ (cc_tracker c) in 0 < lba ∧ (lba | addr) ∧ (lba | len).
Proof.
  intros [] (_ & Hz & _ & Ha & Hl)%precheck_None. simpl. destruct ci_lba0 as [H0 [|Heq]]; [done|].
  rewrite Heq in *. split_and!; [lia|by apply Z.mod_divide..].
Qed.

Lemma client_inv_create n L s h c d addr len t :
  client_inv n L s h c → L < d < ss_next s → ss_slots s !! d = None →
  slot_ok (Mk_dlsn_slot addr len in_flight) → precheck c addr len = None →
  reserve_create (cc_tracker c) d addr len = Some t →
  client_inv n L (spec_create s d addr len) h (with_tracker c t).
Proof.
  intros I Hd Hnone Hok Hp Ht.
  pose proof (precheck_geometry _ _ _ _ _ _ _ I Hp) as (Hlba & Ha & Hl). destruct I.
  rewrite <-ci_login0 in Hd. destruct (refines_create _ _ _ _ _ ci_tracker0 Hd Hnone Hok) as (t' & Ht' & R).
  rewrite Ht in Ht'. injection Ht' as <-.
  unfold reserve_create in Ht. destruct (tracker_ (cc_tracker c)); simpl in Ht; [|done].
  injection Ht as <-. split; simpl; try done.
  - intros i sl. simpl. rewrite lookup_insert. case_decide; [|apply ci_aligned0]. by intros [= <-].
  - intros i rs Hi. destruct (ci_link0 i rs Hi) as (sl & ? & ?). exists sl.
    by rewrite lookup_insert_ne by congruence.
  - intros i sl. rewrite lookup_insert. case_decide; [by intros [= <-]|apply ci_acked0].
Qed.

Lemma client_inv_send n L s h c d sl r :
  (1 ≤ n ≤ k_max_members)%nat →
  client_inv n L s h c → ss_slots s !! d = Some sl → h !! d = None → d < kNever →
  ds_outcome sl = in_flight →
  route_create (cc_route c) d (ds_addr sl) (ds_len sl) = Some r →
  client_inv n L s (<[d := Mk_route_slot d (ds_addr sl) (ds_len sl) 0 0 0]> h) (with_route c r).
Proof.
  intros Hn I Hd Hnone HK Hoc Hr. pose proof I as []. destruct ci_tracker0 as [[t R] _].
  destruct (rf_dom _ _ _ R d sl Hd) as (Hdr & H0 & H1 & H2).
  eapply client_inv_route; [done|eapply reach_create; try done; lia| | |].
  - unfold route_create in Hr. destruct (overlay_ (cc_route c)); simpl in Hr; [|done].
    by injection Hr as <-.
  - intros i ri. rewrite lookup_insert. case_decide; [|apply ci_link0]. intros [= <-]. subst. eauto.
  - intros i ri Hi. rewrite lookup_insert_ne by congruence. eauto.
Qed.

Lemma client_inv_complete n L s h c d rs idx ok r :
  client_inv n L s h c → h !! d = Some rs → (idx < n)%nat → holds (rs_completed rs) idx = false →
  record_completion (cc_route c) d idx ok = Some r →
  client_inv n L s (<[d := complete_slot rs (bit idx) ok]> h) (with_route c r).
Proof.
  intros I Hd Hi Hc Hr. eapply client_inv_route; [done|by eapply reach_complete; destruct I| | |].
  - destruct I. unfold record_completion in Hr. destruct (overlay_ (cc_route c)); simpl in Hr; [|done].
    destruct (st_update _ _ _ _) as [? []]. by injection Hr as <-.
  - eapply hist_linked_insert; try done. by destruct I.
  - eapply hist_grows_insert; try done; [|by left]. destruct ok; simpl; [apply subset_lor|apply subset_refl].
Qed.

Lemma client_inv_settle n L s h c d rs acks results t :
  client_inv n L s h c → h !! d = Some rs → (acks ≤ popcount (rs_holders rs))%nat →
  resolve (cc_tracker c) d (settle_outcome n acks results) = Some t →
  client_inv n L (spec_resolve s d (settle_outcome n acks results)) h (with_tracker c t).
Proof.
  intros I Hd Hacks Ht. pose proof I as []. destruct (ci_link0 d rs Hd) as (sl & Hsl & _).
  destruct (resolve_refines _ _ _ (settle_outcome n acks results) _ ci_tracker0 Hsl)
    as (t' & Ht' & R & _ & HF & _).
  rewrite Ht in Ht'. injection Ht' as <-.
  eapply client_inv_tracker; try done; [by eapply resolve_params|apply resolve_ranges|].
  intros i si. rewrite lookup_spec_resolve. case_decide as Heq; [|apply ci_acked0].
  subst i. rewrite Hsl. simpl. intros [= <-]. unfold settle.
  destruct (is_resolved (ds_outcome sl)) eqn:Hres; [by apply ci_acked0|]. simpl.
  unfold settle_outcome. case_decide as Hq; [|by case_bool_decide]. intros _. exists rs. split; [done|].
  unfold slot_durable. rewrite bool_decide_eq_true_2; [done|by etrans].
Qed.

(** *** Rounds *)

Lemma hist_round_lookup n idx ds h d rs :
  h !! d = Some rs →
  ∃ rs', hist_round idx ds h !! d = Some rs' ∧ rs_addr rs' = rs_addr rs ∧ rs_len rs' = rs_len rs ∧
    (slot_durable (n / 2 + 1) rs = true ∨ d ∈ ds → slot_durable (n / 2 + 1) rs' = true).
Proof.
  revert h rs. unfold hist_round. induction ds as [|d0 ds IH]; intros h rs Hd; simpl.
  { exists rs. split_and!; try done. by intros [?|?%not_elem_of_nil]. }
  destruct (decide (d = d0)) as [->|Hne].
  - destruct (IH (alter (λ rs, fill_slot rs (bit idx)) d0 h) (fill_slot rs (bit idx))) as (rs' & Hr & Ha & Hl & Hdur);
      [by rewrite lookup_alter_eq, Hd|].
    exists rs'. split_and!; try done. intros _. apply Hdur. left. unfold slot_durable. simpl.
    apply orb_true_r.
  - destruct (IH (alter (λ rs, fill_slot rs (bit idx)) d0 h) rs) as (rs' & Hr & Ha & Hl & Hdur);
      [by rewrite lookup_alter_ne by done|].
    exists rs'. split_and!; try done. intros [?|Hin]; apply Hdur; [by left|right].
    by apply elem_of_cons in Hin as [|].
Qed.

Lemma hist_round_inv idx ds h d rs' :
  hist_round idx ds h !! d = Some rs' → is_Some (h !! d).
Proof.
  revert h. unfold hist_round. induction ds as [|d0 ds IH]; intros h; simpl; [eauto|].
  intros [rs Hr]%IH. destruct (decide (d0 = d)) as [->|Hne].
  - rewrite lookup_alter_eq in Hr. destruct (h !! d); [eauto|done].
  - rewrite lookup_alter_ne in Hr by done. eauto.
Qed.

Lemma note_filled_folded (r r' : read_route_map U M) d idx : note_filled r d idx = Some r' → folded r' = folded r.
Proof.
  unfold note_filled. destruct (overlay_ r); simpl; [|done].
  destruct (st_update _ _ _ _) as [? []]. by intros [= <-].
Qed.

Lemma round_route n L h (r : read_route_map U M) idx ds :
  (1 ≤ n ≤ k_max_members)%nat → route_reach n L h r → (idx < n)%nat →
  (∀ d, d ∈ ds → folded r < d ∧ is_Some (h !! d)) →
  ∃ r', foldl (λ x d, note_filled_at idx d x) (Some r) ds = Some r' ∧
    route_reach n L (hist_round idx ds h) r' ∧ folded r' = folded r.
Proof.
  intros Hn. revert h r. unfold hist_round. induction ds as [|d ds IH]; intros h r Hr Hi Hds; simpl; [eauto|].
  destruct (Hds d) as [Hf [rs Hd]]; [by left|].
  destruct (reach_inv _ _ _ _ Hn Hr) as (Hrn & HL & app0 & t & I). rewrite <-Hrn in Hi.
  destruct (route_inv_filled _ _ _ d rs idx I Hd Hi Hf) as (r1 & t1 & Hr1 & _). rewrite Hrn in Hi.
  rewrite Hr1. pose proof (note_filled_folded _ _ _ _ Hr1) as Hfold.
  replace (alter (λ rs, fill_slot rs (bit idx)) d h) with (<[d := fill_slot rs (bit idx)]> h).
  2:{ apply map_eq. intros i. rewrite lookup_insert, lookup_alter. case_decide; [|done]. subst.
      by rewrite Hd. }
  destruct (IH (<[d := fill_slot rs (bit idx)]> h) r1) as (r' & Hr' & Hreach & Hf'); [|done| |].
  - by eapply reach_filled.
  - intros i Hin. rewrite Hfold. destruct (Hds i) as [? ?]; [by right|]. split; [done|].
    rewrite lookup_insert. case_decide; eauto.
  - exists r'. split_and!; try done. congruence.
Qed.

Lemma filled_elem s empties lo hi d :
  d ∈ filled s empties lo hi ↔
    lo ≤ d ≤ hi ∧ resolved_at s d = false ∧ is_Some (ss_slots s !! d) ∧ d ∉ empties.
Proof. unfold filled. rewrite list_elem_of_filter, elem_of_unresolved. naive_solver. Qed.

Lemma clear_want_refines s (st : dlsn_tracker T) upto :
  refines s st → refines s (clear_resolution_want st upto) ∧
  frontier (clear_resolution_want st upto) = frontier st ∧
  lba_size_ (clear_resolution_want st upto) = lba_size_ st.
Proof.
  intros R. unfold clear_resolution_want. destruct (_ && _); [|done]. split; [|done].
  by eapply refines_frame; [..|exact R].
Qed.

(** The slots a round acks are the filled ones. *)
Lemma round_acked n L s h c idx rr d sl :
  client_inv n L s h c → round_known s h (frontier (cc_tracker c)) rr →
  ss_slots (spec_round s rr) !! d = Some sl → ds_outcome sl = acked →
  ∃ rs, hist_round idx (filled s (rs_empty_slots rr) (frontier (cc_tracker c) + 1)
                          (Z.min (rs_resolved_upto rr) (ss_next s - 1))) h !! d = Some rs ∧
        slot_durable (n / 2 + 1) rs = true.
Proof.
  intros I Hk Hd Hoc. pose proof I as []. set (ds := filled _ _ _ _).
  assert ((∃ rs, h !! d = Some rs ∧ (slot_durable (n / 2 + 1) rs = true ∨ d ∈ ds))) as (rs & Hrs & Hdur).
  { unfold spec_round, spec_op in Hd. rewrite lookup_spec_retire in Hd.
    destruct (ss_slots s !! d) as [sl0|] eqn:Hs; [|done]. simpl in Hd. injection Hd as <-.
    destruct (decide (ds_outcome sl0 = acked)) as [Ha|Ha].
    { destruct (ci_acked0 d sl0 Hs Ha) as (rs & ? & ?). eauto. }
    case_decide as Hr; [|done]. unfold settle in Hoc.
    destruct (is_resolved (ds_outcome sl0)) eqn:Hres; [done|]. simpl in Hoc.
    unfold verdict in Hoc. case_decide as He; [done|].
    assert (resolved_at s d = false) as Hun by (unfold resolved_at; by rewrite Hs).
    assert (d ∈ ds) as Hin.
    { apply filled_elem. split_and!; try done; [|lia].
      destruct ci_tracker0 as [[t R] _]. pose proof (unresolved_above s _ t R d) as Hab.
      unfold frontier. specialize (Hab ltac:(lia) Hun). lia. }
    destruct (Hk d Hin) as [rs Hrs]. eauto. }
  destruct (hist_round_lookup n idx ds h d rs Hrs) as (rs' & ? & _ & _ & Hd'). eauto.
Qed.

Lemma client_inv_round n L s h c idx rr :
  (1 ≤ n ≤ k_max_members)%nat → client_inv n L s h c → (idx < n)%nat →
  round_known s h (frontier (cc_tracker c)) rr →
  ∃ c', resolution_retire c idx rr = Some c' ∧
    client_inv n L (spec_round s rr)
      (hist_round idx (filled s (rs_empty_slots rr) (frontier (cc_tracker c) + 1)
                         (Z.min (rs_resolved_upto rr) (ss_next s - 1))) h) c'.
Proof.
  intros Hn I Hi Hk. pose proof I as []. unfold resolution_retire.
  destruct (retire_upto_refines (note_filled_at idx) s (cc_tracker c) (rs_resolved_upto rr)
              (rs_empty_slots rr) (Some (cc_route c)) ci_tracker0) as (t & Ht & R & HF & _).
  rewrite Ht. simpl. set (ds := filled _ _ _ _) in *.
  destruct (round_route n L h (cc_route c) idx ds Hn ci_route0 Hi) as (r & Hr & Hreach & Hfold).
  { intros d Hd. split; [|by apply Hk]. apply filled_elem in Hd. unfold frontier in ci_fold0. lia. }
  unfold frontier in Hr. rewrite Hr. simpl. eexists. split; [done|].
  destruct (clear_want_refines _ _ (rs_resolved_upto rr) R) as (R' & HF' & Hlba).
  apply retire_upto_params in Ht as [Ht _].
  assert (client_inv n L (spec_round s rr) (hist_round idx ds h)
    (with_tracker (with_route c r) (clear_resolution_want t (rs_resolved_upto rr)))) as I'; [|by destruct I'].
  split; simpl; try done.
  - rewrite HF'. unfold frontier in *. lia.
  - by rewrite Hlba, Ht.
  - rewrite Hlba, Ht. intros d sl Hd.
    destruct (same_ranges_lookup _ _ _ _ (round_ranges s rr) Hd) as (sl0 & H0 & <- & <-). by apply (ci_aligned0 d).
  - intros d rs' Hd. destruct (hist_round_inv _ _ _ _ _ Hd) as [rs Hrs].
    destruct (hist_round_lookup n idx ds h d rs Hrs) as (rs1 & H1 & Ha & Hl & _).
    rewrite Hd in H1. injection H1 as <-. rewrite Ha, Hl. destruct (ci_link0 d rs Hrs) as (sl & Hs & <- & <-).
    apply (same_ranges_lookup _ _ _ _ (same_ranges_sym _ _ (round_ranges s rr))) in Hs. naive_solver.
  - intros d sl. by apply (round_acked n L).
Qed.

Lemma fold_bound n L h (r r' : read_route_map U M) F :
  (1 ≤ n ≤ k_max_members)%nat → route_reach n L h r → fold_to r F = Some r' →
  folded r ≤ folded r' ≤ Z.max (folded r) F.
Proof.
  intros Hn Hr Hf. destruct (reach_inv _ _ _ _ Hn Hr) as (_ & _ & app0 & t & I).
  destruct (route_inv_fold _ _ _ F I) as (r1 & t1 & l & H1 & _ & Hb).
  rewrite Hf in H1. by injection H1 as <-.
Qed.

Lemma advance_synced_folded (r : read_route_map U M) idx C : folded (advance_synced r idx C) = folded r.
Proof. unfold advance_synced. by case_match. Qed.

Lemma client_reach_inv n L s h c :
  (1 ≤ n ≤ k_max_members)%nat → client_reach n L s h c → client_inv n L s h c.
Proof.
  intros Hn Hc. induction Hc as [| | |s h c d sl r Hc IH|s h c d rs idx ok r Hc IH|s h c idx C Hc IH|
    s h c d rs acks results t Hc IH|s h c idx rr c' Hc IH Hi Hk Hr|s h c F r Hc IH HF Hf|s h c ka rr Hc IH|
    s h c upto Hc IH|s h c addr len p t Hc IH Hp|s h c leader Hc IH].
  - by apply client_inv_login.
  - eapply client_inv_tracker; try done; [by apply refines_take; destruct IHHc|by destruct IHHc|].
    by destruct IHHc.
  - by apply client_inv_create.
  - by eapply client_inv_send.
  - by eapply client_inv_complete.
  - apply client_inv_same; [done|by apply reach_synced; destruct IH|]. rewrite advance_synced_folded.
    by destruct IH.
  - by eapply client_inv_settle.
  - destruct (client_inv_round n L s h c idx rr) as (c1 & H1 & I); try done.
    rewrite Hr in H1. by injection H1 as <-.
  - pose proof IH as []. apply client_inv_same; [done|by eapply reach_fold|].
    pose proof (fold_bound _ _ _ _ _ _ Hn ci_route0 Hf). lia.
  - apply client_inv_same; [done|by apply reach_flags; destruct IH|]. by destruct IH.
  - pose proof IH as []. eapply client_inv_tracker; try done; unfold note_resolution_want; case_match; try done.
    by eapply refines_frame; [..|exact ci_tracker0].
  - pose proof IH as []. destruct (compute_total _ _ addr len ci_tracker0) as (p1 & t1 & H1 & R & HF & _).
    rewrite Hp in H1. injection H1 as <- <-.
    eapply client_inv_tracker; try done; [unfold frontier; lia|by eapply compute_params].
  - destruct IH. split; simpl; try done. split; [apply ci_lba0|by left].
Qed.
End reach.
