(* ===== verification/ClientRun.v ===== *)
(** * Verbs of the client

    The verbs of [Client] against the session of [ClientSpec]: each returns from every
    reachable state and stays within the reachable states; what a write, a read, a login
    and a resolution leg report is what the members' answers establish. *)

From S2P Require Import Prelude Codec WireTypes Wire Types StreamTracker DlsnTracker DlsnSpec DlsnPlan IntervalMap ReadRoute RouteSpec Client ClientSpec.

Local Open Scope craft_scope.
Local Open Scope Z_scope.

Section verbs.
Context {T U M : Type} `{ST : !StreamTracker dlsn_slot T} `{SU : !StreamTracker route_slot U}
  `{IM : !IntervalMap M} `{MS : !MissSort}.
Implicit Types (s : session) (h : gmap Z route_slot) (c : craft_client T U M).

(** ** Write *)

Lemma next_fresh n L s h c :
  client_inv n L s h c → ss_slots s !! ss_next s = None ∧ h !! ss_next s = None ∧ L < ss_next s.
Proof.
  intros I. destruct (ci_tracker _ _ _ _ _ I) as [[t R] _].
  assert (ss_slots s !! ss_next s = None) as Hs.
  { destruct (ss_slots s !! ss_next s) as [sl|] eqn:H; [|done]. apply (rf_dom _ _ _ R) in H. lia. }
  split_and!; [done| |pose proof (rf_front _ _ _ R); pose proof (ci_login _ _ _ _ _ I); lia].
  destruct (h !! ss_next s) as [rs|] eqn:H; [|done]. apply (ci_link _ _ _ _ _ I) in H as (? & ? & _). congruence.
Qed.

Lemma write_begin_reach n L s h c addr len :
  (1 ≤ n ≤ k_max_members)%nat → client_reach n L s h c → range_ok addr len →
  precheck c addr len = None → ss_next s < kNever →
  ∃ c', write_begin c addr len = Some (Ok (ss_next s, make_hdr c'), c') ∧
    client_reach n L (spec_create (spec_take s) (ss_next s) addr len)
      (<[ss_next s := Mk_route_slot (ss_next s) addr len 0 0 0]> h) c'.
Proof.
  intros Hn Hc Hr Hp HK. pose proof (client_reach_inv _ _ _ _ _ Hn Hc) as I.
  destruct (next_fresh _ _ _ _ _ I) as (Hs & Hh & HL).
  pose proof (ci_login _ _ _ _ _ I) as Hlog. unfold write_begin. rewrite Hp. unfold reserve.
  pose proof (cr_take n L s h c Hc) as Hc1. pose proof (client_reach_inv _ _ _ _ _ Hn Hc1) as I1.
  simpl.
  assert (next_dlsn_ (cc_tracker c) = ss_next s) as Hnx.
  { destruct (ci_tracker _ _ _ _ _ I) as [[t R] _]. apply (rf_next _ _ _ R). }
  rewrite Hnx.
  destruct (refines_create (spec_take s) (reserve_take (cc_tracker c)).2 (ss_next s) addr len)
    as (t & Ht & R2); [by destruct I1|simpl; lia|done|split; destruct Hr; simpl; lia|].
  simpl in Ht. rewrite Hnx in Ht. rewrite Ht. simpl.
  assert (client_reach n L (spec_create (spec_take s) (ss_next s) addr len) h
            (with_tracker (with_tracker c (reserve_take (cc_tracker c)).2) t)) as Hc2.
  { apply cr_create; try done; [simpl; lia|by simpl; rewrite Hnx]. }
  pose proof (client_reach_inv _ _ _ _ _ Hn Hc2) as I2.
  destruct (reach_inv _ _ _ _ Hn (ci_route _ _ _ _ _ I2)) as (_ & Hlogin & app0 & t2 & RI).
  destruct (route_inv_create _ _ _ (ss_next s) addr len RI) as (r & t3 & Hcr & _);
    [simpl in *; lia|done|destruct Hr; lia..|].
  simpl in Hcr. rewrite Hcr. simpl. eexists. split; [done|].
  eapply (cr_send _ _ _ _ _ _ (Mk_dlsn_slot addr len in_flight) _ Hc2); try done.
  simpl. by rewrite lookup_insert_eq.
Qed.

Lemma write_leg_reach n L s h c d rs idx (r : result error_condition lsn_pair) :
  (1 ≤ n ≤ k_max_members)%nat → client_reach n L s h c → h !! d = Some rs → (idx < n)%nat →
  holds (rs_completed rs) idx = false →
  ∃ c', write_leg c d idx r = Some c' ∧
    client_reach n L s (<[d := complete_slot rs (bit idx) (is_ok r)]> h) c'.
Proof.
  intros Hn Hc Hd Hi Hcp. pose proof (client_reach_inv _ _ _ _ _ Hn Hc) as I.
  destruct (reach_inv _ _ _ _ Hn (ci_route _ _ _ _ _ I)) as (Hrn & _ & app0 & t & RI).
  rewrite <-Hrn in Hi. destruct (route_inv_completion _ _ _ d rs idx (is_ok r) RI Hd Hi Hcp) as (r' & t' & Hr & _).
  rewrite Hrn in Hi. unfold write_leg. rewrite Hr. simpl.
  pose proof (cr_complete n L s h c d rs idx (is_ok r) r' Hc Hd Hi Hcp Hr) as Hc1.
  destruct r as [p|e]; eexists; (split; [done|]); [by apply cr_synced|done].
Qed.

Lemma maybe_fold_reach n L s h c :
  (1 ≤ n ≤ k_max_members)%nat → client_reach n L s h c →
  ∃ r, maybe_fold c = Some (with_route c r) ∧ client_reach n L s h (with_route c r).
Proof.
  intros Hn Hc. pose proof (client_reach_inv _ _ _ _ _ Hn Hc) as I. unfold maybe_fold.
  case_match.
  - destruct (reach_inv _ _ _ _ Hn (ci_route _ _ _ _ _ I)) as (_ & _ & app0 & t & RI).
    destruct (route_inv_fold _ _ _ (frontier (cc_tracker c)) RI) as (r & t' & l & Hr & _).
    rewrite Hr. exists r. split; [done|]. by eapply cr_fold.
  - exists (cc_route c). destruct c. done.
Qed.

(** *** Resolution legs *)

Definition free_legs (r : read_route_map U M) (ms : list nat) : list nat :=
  filter (λ m, default false (rr_inflight_ r !! m) = false) ms.

Lemma fire_steps (r : read_route_map U M) fired ms :
  NoDup ms →
  foldl fire_step (r, fired) ms =
    (set_flags r (ka_inflight_ r) (foldl (λ l m, <[m := true]> l) (rr_inflight_ r) ms),
     fired ++ free_legs r ms).
Proof.
  revert r fired. induction ms as [|m ms IH]; intros r fired Hnd; simpl.
  - destruct r. by rewrite app_nil_r.
  - inversion Hnd; subst. unfold try_begin_resolution. simpl. rewrite IH by done. f_equal.
    unfold free_legs. rewrite filter_cons. simpl.
    assert (filter (λ m0, default false (<[m:=true]> (rr_inflight_ r) !! m0) = false) ms =
            filter (λ m0, default false (rr_inflight_ r !! m0) = false) ms) as ->.
    { apply list_filter_ext_in. intros x Hx. by rewrite list_lookup_insert_ne by congruence. }
    destruct (default false (rr_inflight_ r !! m)); simpl; [done|by rewrite <-app_assoc].
Qed.

Lemma request_round_reach n L s h c upto :
  client_reach n L s h c →
  client_reach n L s h (request_resolution_round c upto).2 ∧
  (request_resolution_round c upto).1 = free_legs (cc_route c) (seq 0 (cc_n c)).
Proof.
  intros Hc. unfold request_resolution_round. simpl. rewrite fire_steps by apply NoDup_seq. simpl.
  split; [|done]. by apply (cr_flags _ _ _ _ (with_tracker c _)), cr_want.
Qed.

(** The error a sub-quorum write returns, and the legs that certainly did not take it. *)
Fixpoint errors {A} (results : list (result error_condition A)) : list error_condition :=
  match results with
  | [] => []
  | Ok _ :: results => errors results
  | Err e :: results => e :: errors results
  end.

Lemma errors_app {A} (l k : list (result error_condition A)) : errors (l ++ k) = errors l ++ errors k.
Proof. induction l as [|[] l IH]; simpl; by rewrite ?IH. Qed.

Lemma tally_spec results :
  tally results = (length (filter (λ e, deterministic_reject e = true) (errors results)), last (errors results)).
Proof.
  unfold tally. induction results as [|r results IH] using rev_ind; [done|].
  rewrite foldl_app, IH, errors_app. simpl.
  destruct r as [p|e]; simpl; [by rewrite !app_nil_r|].
  rewrite last_snoc, filter_app, length_app, filter_cons. simpl.
  destruct (deterministic_reject e); simpl; f_equal; lia.
Qed.

Lemma errors_length {A} (results : list (result error_condition A)) :
  (length (errors results) ≤ length results)%nat ∧
  (length (errors results) = length results → ∀ i r, results !! i = Some r → is_ok r = false).
Proof.
  induction results as [|[a|e] results [IH1 IH2]]; simpl.
  - done.
  - split; [lia|]. intros H. lia.
  - split; [lia|]. intros [= H] [|i] r; simpl; [by intros [= <-]|by apply IH2].
Qed.

Lemma refused_all results n i :
  (tally results).1 = n → length results = n → (i < n)%nat →
  ∃ r, results !! i = Some r ∧ is_ok r = false.
Proof.
  rewrite tally_spec. simpl. intros Hr Hn Hi. destruct (errors_length results) as [Hle Hall].
  pose proof (length_filter (λ e, deterministic_reject e = true) (errors results)).
  destruct (lookup_lt_is_Some_2 results i) as [r Hri]; [lia|]. exists r. split; [done|].
  apply (Hall ltac:(lia) i r Hri).
Qed.

Lemma want_noted (st : dlsn_tracker T) d :
  0 ≤ d → ∃ w, resolution_want (note_resolution_want st d) = Some w ∧ d ≤ w.
Proof.
  intros Hd. unfold resolution_want, note_resolution_want.
  destruct (Z.ltb_spec (resolve_want_ st) d); simpl.
  - exists d. by rewrite (proj2 (Z.ltb_ge d 0)) by done.
  - exists (resolve_want_ st). by rewrite (proj2 (Z.ltb_ge (resolve_want_ st) 0)) by lia.
Qed.

(** What a decided write reports and leaves behind. *)
Definition settle_post (n : nat) (d len : Z) (rs : route_slot) (acks : nat)
    (results : list (result error_condition lsn_pair)) (res : result error_condition Z)
    (fired : list nat) c c' : Prop :=
  match settle_outcome n acks results with
  | acked => res = Ok len ∧ fired = []
  | empty => res = Err (default (ec_craft NO_QUORUM) (last (errors results))) ∧ fired = [] ∧
      ∀ i, (i < n)%nat → holds (rs_holders rs) i = false
  | _ => res = Err (default (ec_craft NO_QUORUM) (last (errors results))) ∧
      (∃ w, resolution_want (cc_tracker c') = Some w ∧ d ≤ w) ∧
      fired = free_legs (cc_route c) (seq 0 n)
  end.

Lemma fold_flags (r r' : read_route_map U M) F : fold_to r F = Some r' → rr_inflight_ r' = rr_inflight_ r.
Proof.
  unfold fold_to. destruct (overlay_ r); simpl; [|done].
  repeat case_match; intros [= <-]; try done; unfold set_fold; by case_match.
Qed.

Lemma maybe_fold_flags c c' : maybe_fold c = Some c' → rr_inflight_ (cc_route c') = rr_inflight_ (cc_route c).
Proof.
  unfold maybe_fold. case_match; [|by intros [= <-]].
  destruct (fold_to _ _) as [r|] eqn:Hf; simpl; [|done]. intros [= <-]. by apply fold_flags in Hf.
Qed.

Lemma free_legs_flags (r r' : read_route_map U M) ms :
  rr_inflight_ r' = rr_inflight_ r → free_legs r' ms = free_legs r ms.
Proof. unfold free_legs. by intros ->. Qed.

Lemma write_settle_aux n L s h c d rs len acks results :
  (1 ≤ n ≤ k_max_members)%nat → -1 ≤ L → client_reach n L s h c → h !! d = Some rs →
  (acks ≤ popcount (rs_holders rs))%nat →
  ((acks < n / 2 + 1)%nat → length results = n ∧ results_match rs results) →
  ∃ res fired c', write_settle c d len acks results = Some (res, fired, c') ∧
    client_reach n L (spec_resolve s d (settle_outcome n acks results)) h c' ∧
    settle_post n d len rs acks results res fired c c'.
Proof.
  intros Hn HL Hc Hd Hacks Hres. pose proof (client_reach_inv _ _ _ _ _ Hn Hc) as I.
  pose proof (ci_n _ _ _ _ _ I) as Hcn. destruct (ci_link _ _ _ _ _ I d rs Hd) as (sl & Hsl & _).
  destruct (resolve_refines _ _ _ (settle_outcome n acks results) _ (ci_tracker _ _ _ _ _ I) Hsl) as (t & Ht & _).
  pose proof (cr_settle n L s h c d rs acks results t Hc Hd Hacks Hres Ht) as Hc1.
  destruct (maybe_fold_reach _ _ _ _ _ Hn Hc1) as (r & Hf & Hc2).
  pose proof (maybe_fold_flags _ _ Hf) as Hfl. unfold write_settle, settle_post, cc_quorum.
  unfold settle_outcome in *. rewrite Hcn. case_decide as Hq.
  { rewrite Ht. simpl. rewrite Hf. simpl. eauto 10. }
  rewrite tally_spec in *. simpl in *. case_bool_decide as Hrf.
  { rewrite Ht. simpl. rewrite Hf. simpl. do 3 eexists. split_and!; try done. intros i Hi.
    destruct Hres as [Hlen Hm]; [lia|].
    destruct (refused_all results n i) as (x & Hx & Hok); try done; [by rewrite tally_spec|].
    by rewrite <-(Hm i x Hx). }
  rewrite Ht. simpl. rewrite Hf. simpl.
  destruct (request_round_reach _ _ _ _ _ d Hc2) as [Hc3 Hfired].
  destruct (request_resolution_round _ _) as [fired c3] eqn:Hrr. simpl in *.
  do 3 eexists. split; [done|]. split; [done|]. split_and!; [done| |].
  - unfold request_resolution_round in Hrr. destruct (foldl _ _ _). injection Hrr as _ <-. simpl.
    apply want_noted. destruct (ci_tracker _ _ _ _ _ I) as [[t0 R] _].
    apply (rf_dom _ _ _ R) in Hsl. rewrite (ci_login _ _ _ _ _ I) in Hsl. lia.
  - rewrite Hfired, Hcn. by apply free_legs_flags.
Qed.

(** *** The legs of one write *)

Definition oks (legs : list (nat * result error_condition lsn_pair)) : nat :=
  length (filter (λ p, is_ok p.2 = true) legs).

(** The slot's bits after the legs [done] and no others. *)
Record legs_done (rs : route_slot) (done : list (nat * result error_condition lsn_pair)) : Prop := {
  ld_completed i : holds (rs_completed rs) i = bool_decide (i ∈ done.*1);
  ld_acked i r : (i, r) ∈ done → holds (rs_holders rs) i = is_ok r;
  ld_others i : i ∉ done.*1 → holds (rs_holders rs) i = false;
  ld_count : popcount (rs_holders rs) = oks done;
}.

Lemma holds_0 i : holds 0 i = false.
Proof. apply Z.bits_0. Qed.

Lemma legs_done_nil d addr len : legs_done (Mk_route_slot d addr len 0 0 0) [].
Proof.
  split; simpl; [intros i..|done].
  - by rewrite holds_0.
  - intros r Hr. by apply not_elem_of_nil in Hr.
  - intros _. apply holds_0.
Qed.

Lemma legs_done_snoc rs done idx r :
  legs_done rs done → (idx < 64)%nat → idx ∉ done.*1 →
  legs_done (complete_slot rs (bit idx) (is_ok r)) (done ++ [(idx, r)]).
Proof.
  intros [] Hi Hnew. split; simpl.
  - intros i. rewrite holds_lor, ld_completed0, fmap_app. apply eq_bool_prop_intro.
    rewrite orb_True, !bool_decide_spec, elem_of_app. simpl. by rewrite list_elem_of_singleton.
  - intros i r' [Hin|Hin]%elem_of_app.
    + assert (i ≠ idx) by (intros ->; by apply (list_elem_of_fmap_2 fst) in Hin).
      destruct (is_ok r); [|by apply ld_acked0]. rewrite holds_lor, bool_decide_eq_false_2, orb_false_r by done.
      by apply ld_acked0.
    + apply list_elem_of_singleton in Hin as [= -> ->]. destruct (is_ok r); [|by apply ld_others0].
      by rewrite holds_lor, bool_decide_eq_true_2, orb_true_r.
  - intros i. rewrite fmap_app, elem_of_app. simpl. rewrite list_elem_of_singleton. intros Hn.
    assert (holds (rs_holders rs) i = false) by (apply ld_others0; tauto).
    destruct (is_ok r); [|done]. rewrite holds_lor, bool_decide_eq_false_2, orb_false_r by tauto. done.
  - unfold oks in *. rewrite filter_app, length_app, filter_cons. simpl.
    destruct (is_ok r); simpl; [|lia]. rewrite popcount_add by (done || by apply ld_others0). lia.
Qed.

Lemma oks_app l k : oks (l ++ k) = (oks l + oks k)%nat.
Proof. unfold oks. by rewrite filter_app, length_app. Qed.

Lemma await_reach n L s h c d rs done legs :
  (1 ≤ n ≤ k_max_members)%nat → client_reach n L s (<[d := rs]> h) c → legs_done rs done →
  NoDup (done ++ legs).*1 → Forall (λ i, (i < n)%nat) legs.*1 →
  ∃ acks c' rs', await_quorum c d (oks done) legs = Some (acks, c') ∧
    client_reach n L s (<[d := rs']> h) c' ∧ popcount (rs_holders rs') = acks ∧
    ((n / 2 + 1 ≤ acks ≤ oks (done ++ legs))%nat ∨ legs_done rs' (done ++ legs)).
Proof.
  intros Hn. revert c rs done. induction legs as [|[idx r] legs IH]; intros c rs done Hc Hd Hnd Hlt; simpl;
    pose proof (client_reach_inv _ _ _ _ _ Hn Hc) as I; unfold cc_quorum; rewrite (ci_n _ _ _ _ _ I);
    case_decide as Hq.
  1,2: exists (oks done), c, rs; rewrite app_nil_r; split_and!; try done; [by destruct Hd|by right].
  { exists (oks done), c, rs. split_and!; try done; [by destruct Hd|]. left. rewrite oks_app. split; [done|lia]. }
  rewrite fmap_app in Hnd. apply NoDup_app in Hnd as (Hnd1 & Hdis & Hnd2).
  simpl in Hnd2, Hlt. inversion Hlt as [|? ? Hidx Hlt']; subst.
  assert (idx ∉ done.*1) as Hnew by (intros Hin; apply (Hdis idx Hin); by left).
  destruct (write_leg_reach n L s (<[d := rs]> h) c d rs idx r) as (c1 & Hc1 & Hreach); try done.
  { apply lookup_insert_eq. }
  { rewrite (ld_completed _ _ Hd). by apply bool_decide_eq_false. }
  rewrite Hc1. simpl. rewrite insert_insert_eq in Hreach.
  replace (if is_ok r then S (oks done) else oks done) with (oks (done ++ [(idx, r)])).
  2:{ rewrite oks_app. unfold oks. rewrite (filter_cons _ (idx, r)). simpl. destruct (is_ok r); simpl; lia. }
  destruct (IH c1 (complete_slot rs (bit idx) (is_ok r)) (done ++ [(idx, r)])) as (acks & c' & rs' & Ha & ?); try done.
  - apply legs_done_snoc; try done. unfold k_max_members in Hn. lia.
  - rewrite <-app_assoc, fmap_app. simpl. apply NoDup_app. done.
  - exists acks, c', rs'. rewrite <-app_assoc in *. done.
Qed.

Lemma leg_of_elem legs i : i ∈ legs.*1 → ∃ r, leg_of legs i = Some r ∧ (i, r) ∈ legs.
Proof.
  intros ([j r0] & -> & Hin)%list_elem_of_fmap. unfold leg_of. simpl.
  destruct (list_find_elem_of (λ p : nat * result error_condition lsn_pair, p.1 = j) legs (j, r0))
    as [[k [j' r]] Hf]; [done..|].
  rewrite Hf. simpl. exists r. split; [done|].
  apply list_find_Some in Hf as (Hk & Hj & _). simpl in Hj. subst. by apply list_elem_of_lookup_2 in Hk.
Qed.

Lemma leg_results_spec n legs :
  legs.*1 ≡ₚ seq 0 n →
  length (leg_results n legs) = n ∧ ∀ i r, leg_results n legs !! i = Some r → (i, r) ∈ legs.
Proof.
  intros Hp.
  assert (∀ i, i ∈ seq 0 n → ∃ r, leg_of legs i = Some r ∧ (i, r) ∈ legs) as Hall
    by (intros i Hi; apply leg_of_elem; by rewrite Hp).
  unfold leg_results. clear Hp.
  assert (∀ k m, (∀ i, i ∈ seq k m → ∃ r, leg_of legs i = Some r ∧ (i, r) ∈ legs) →
    length (omap (leg_of legs) (seq k m)) = m ∧
    ∀ i r, omap (leg_of legs) (seq k m) !! i = Some r → ((k + i)%nat, r) ∈ legs) as Hgen.
  { clear Hall. intros k m. revert k. induction m as [|m IH]; intros k Hall; simpl; [done|].
    destruct (Hall k) as (r & Hr & Hin); [by left|]. rewrite Hr.
    destruct (IH (S k)) as [Hlen Hl]; [intros i Hi; apply Hall; by right|].
    simpl. split; [by f_equal|]. intros [|i] r'; simpl.
    - intros [= <-]. by rewrite Nat.add_0_r.
    - intros Hi. rewrite Nat.add_succ_r. by apply (Hl i r'). }
  destruct (Hgen 0%nat n Hall) as [? Hl]. done.
Qed.

Lemma settle_outcome_acks n acks acks' results :
  (n / 2 + 1 ≤ acks)%nat → (n / 2 + 1 ≤ acks')%nat →
  settle_outcome n acks results = settle_outcome n acks' results.
Proof. intros. unfold settle_outcome. by rewrite !decide_True. Qed.

(** What the caller of a write learns, and what it leaves in the client. *)
Definition write_post (n : nat) (d len : Z) (oc : slot_outcome) (rs : route_slot)
    (results : list (result error_condition lsn_pair)) (res : result error_condition Z) c' : Prop :=
  match oc with
  | acked => res = Ok len ∧ (n / 2 + 1 ≤ popcount (rs_holders rs))%nat
  | empty => res = Err (default (ec_craft NO_QUORUM) (last (errors results))) ∧
      ∀ i, (i < n)%nat → holds (rs_holders rs) i = false
  | failed => res = Err (default (ec_craft NO_QUORUM) (last (errors results))) ∧
      ∃ w, resolution_want (cc_tracker c') = Some w ∧ d ≤ w
  | in_flight => False
  end.

Lemma settle_post_write n d len rs acks results res fired c c' :
  (acks ≤ popcount (rs_holders rs))%nat → settle_post n d len rs acks results res fired c c' →
  write_post n d len (settle_outcome n acks results) rs results res c'.
Proof.
  unfold settle_post, settle_outcome. intros Ha.
  case_decide; [intros [-> _]; split; [done|by etrans]|].
  case_bool_decide; simpl; naive_solver.
Qed.

(** ** Read *)

Lemma read_hops_served todo hop c start addr len Hmax answers any rotor o idx :
  read_hops todo hop c start addr len Hmax answers any rotor = Some o → ro_served o = Some idx →
  (1 ≤ cc_n c)%nat → (idx < cc_n c)%nat ∧ eligible (cc_route c) idx addr len Hmax = Some true.
Proof.
  intros Hr Hs Hn. revert hop answers any rotor Hr. induction todo as [|todo IH]; intros hop answers any rotor; simpl.
  { by intros [= <-]. }
  destruct (eligible _ (_ mod _) _ _ _) as [[]|] eqn:He; simpl; [|apply IH|done].
  destruct answers as [|[p|er] answers]; [done| |].
  - intros [= <-]. simpl in Hs. injection Hs as <-. split; [|done]. apply Nat.mod_upper_bound. lia.
  - destruct (transport_failure er); [apply IH|by intros [= <-]].
Qed.

Lemma plan_hmax_ge F plan sg : sg ∈ plan → sg_H sg ≤ plan_hmax F plan.
Proof.
  unfold plan_hmax. assert (∀ l a, a ≤ foldl (λ m sg, Z.max m (sg_H sg)) a l) as Hmono.
  { induction l as [|x l IH]; intros a; simpl; [lia|]. etrans; [|apply IH]. lia. }
  revert F. induction plan as [|x plan IH]; intros F Hin; [by apply not_elem_of_nil in Hin|]. simpl.
  apply elem_of_cons in Hin as [<-|Hin]; [|by apply IH]. etrans; [|apply Hmono]. lia.
Qed.

Lemma fold_synced (r r' : read_route_map U M) F i : fold_to r F = Some r' → synced_at r' i = synced_at r i.
Proof.
  unfold fold_to. destruct (overlay_ r); simpl; [|done].
  repeat case_match; intros [= <-]; try done; unfold set_fold; by case_match.
Qed.

(** Where member [idx] stands on the acked write [d] of byte [x], for a read at horizon [H]:
    it is on record as holding the write, or a later durable write of the byte that the
    horizon does not hide, or it has reported a commit at or above the write. *)
Definition provides (n : nat) h (r : read_route_map U M) (idx : nat) (H d x : Z) : Prop :=
  d ≤ H ∧ ∃ rs, h !! d = Some rs ∧
    (holds (rs_holders rs) idx = true ∨
     (∃ d' rs', d < d' ≤ H ∧ h !! d' = Some rs' ∧ slot_durable (n / 2 + 1) rs' = true ∧
        holds (rs_holders rs') idx = true ∧ rcovers (rs_addr rs') (rs_len rs') x) ∨
     d ≤ synced_at r idx).

Lemma read_provides n L s h c F r addr len Hmax sg idx :
  (1 ≤ n ≤ k_max_members)%nat → client_reach n L s h c → range_ok addr len →
  F ≤ frontier (cc_tracker c) → fold_to (cc_route c) F = Some r → (idx < n)%nat →
  eligible r idx addr len Hmax = Some true → sg_H sg ≤ Hmax → frontier (cc_tracker c) ≤ sg_H sg →
  ∀ x d sl, addr ≤ x < addr + len → horizon_fresh s (sg_H sg) x →
    ss_slots s !! d = Some sl → ds_outcome sl = acked → covers sl x →
    provides n h (cc_route c) idx (sg_H sg) d x.
Proof.
  intros Hn Hc (H0 & H1 & H2) HF Hf Hi He Hle Hab x d sl Hx Hfr Hsl Hoc Hcov.
  pose proof (cr_fold n L s h c F r Hc HF Hf) as Hc1. pose proof (client_reach_inv _ _ _ _ _ Hn Hc1) as I.
  pose proof (Hfr d sl Hsl Hoc Hcov) as HdH.
  destruct (reach_inv _ _ _ _ Hn (ci_route _ _ _ _ _ I)) as (Hrn & _ & app0 & t & RI).
  simpl in RI, Hrn. rewrite <-Hrn in Hi.
  destruct (eligible_sound_aux _ _ _ idx addr len Hmax RI Hi) as [_ Hsv]; try lia; [done|].
  destruct (ci_acked _ _ _ _ _ I d sl Hsl Hoc) as (rs & Hrs & Hdur).
  destruct (ci_link _ _ _ _ _ I d rs Hrs) as (sl' & Hsl' & Ha & Hl). rewrite Hsl in Hsl'. injection Hsl' as <-.
  destruct (ri_n _ _ _ RI) as (_ & Hq & _). rewrite Hrn in Hq.
  split; [done|]. exists rs. split; [done|]. unfold covers in Hcov. rewrite Ha, Hl in Hcov.
  specialize (Hsv d rs x ltac:(lia) Hrs ltac:(by rewrite Hq) Hcov Hx).
  destruct Hsv as [?|[(d' & rs' & Hd' & Hrs' & Hdur' & Hh & Hc')|Hsy]]; [by left| |].
  - right; left. exists d', rs'. rewrite Hq in Hdur'. split_and!; try done; [lia|].
    pose proof (ci_fold _ _ _ _ _ I) as Hfo. unfold folded in Hfo. simpl in Hfo. lia.
  - right; right. by rewrite <-(fold_synced _ _ _ _ Hf).
Qed.

(** The plan of a read a member served, and where that member stands. *)
Lemma read_served_plan n L s h c addr len p t rotor answers o idx :
  (1 ≤ n ≤ k_max_members)%nat → -1 ≤ L → client_reach n L s h c → range_ok addr len →
  compute (cc_tracker c) addr len = Some (p, t) → po_segs p ≠ [] →
  read (with_tracker c t) addr len (Ok (po_segs p)) rotor answers = Some o → ro_served o = Some idx →
  contiguous addr (addr + len) (po_segs p) ∧ (idx < n)%nat ∧
  (let lba := DlsnTracker.lba_size_ (cc_tracker c) in 0 < lba ∧ (lba | addr) ∧ (lba | len)) ∧
  (∀ sg, sg ∈ po_segs p → frontier (cc_tracker c) ≤ sg_H sg) ∧
  ∀ sg x, sg ∈ po_segs p → sg_addr sg ≤ x < sg_addr sg + sg_len sg → addr ≤ x < addr + len →
    ∀ d sl, ss_slots s !! d = Some sl → ds_outcome sl = acked → covers sl x →
      provides n h (cc_route c) idx (sg_H sg) d x.
Proof.
  intros Hn HL Hc Hr Hp Hne Hread Hsv. pose proof (client_reach_inv _ _ _ _ _ Hn Hc) as I.
  pose proof (cr_plan n L s h c addr len p t Hc Hp) as Hc1.
  pose proof (client_reach_inv _ _ _ _ _ Hn Hc1) as I1.
  unfold read in Hread. destruct (precheck _ addr len) eqn:Hpre.
  { injection Hread as <-. done. }
  pose proof (precheck_geometry _ _ _ _ _ _ _ I1 Hpre) as (Hlba & Hda & Hdl).
  simpl in Hlba, Hda, Hdl. pose proof (compute_params _ _ _ _ _ Hp) as [Heq _]. rewrite Heq in Hlba, Hda, Hdl.
  destruct (ci_tracker _ _ _ _ _ I) as [[t0 R] _].
  destruct (compute_plan_ok s _ t0 addr len R Hr p t) as ((Hcont & Hsafe) & _ & Habove); try done.
  { by rewrite (ci_login _ _ _ _ _ I). }
  { by apply (ci_aligned _ _ _ _ _ I). }
  destruct (fold_to _ _) as [r|] eqn:Hf; simpl in Hread; [|done].
  assert (frontier t = frontier (cc_tracker c)) as HF.
  { destruct (compute_total _ _ addr len (ci_tracker _ _ _ _ _ I)) as (p' & t' & H' & _ & HF' & _).
    rewrite Hp in H'. injection H' as <- <-. done. }
  apply read_hops_served with (idx := idx) in Hread as [Hi He]; try done;
    [|simpl; rewrite (ci_n _ _ _ _ _ I); lia].
  simpl in Hi, He, Hf. rewrite (ci_n _ _ _ _ _ I) in Hi.
  unfold plan_above in Habove. rewrite Forall_forall in Hsafe, Habove. split_and!; try done.
  { intros sg Hsg. destruct (contiguous_within _ _ _ _ Hcont Hsg) as (? & ? & ?).
    apply (Habove sg Hsg (sg_addr sg)). lia. }
  intros sg x Hsg Hx Hxr d sl Hsl Hoc Hcov.
  apply (read_provides n L s h (with_tracker c t) (frontier t) r addr len (plan_hmax (frontier t) (po_segs p)) sg idx
           Hn Hc1 Hr) with (sl := sl); try done.
  - by apply plan_hmax_ge.
  - simpl. rewrite HF. apply (Habove sg Hsg x Hx).
  - apply (Hsafe sg Hsg x Hx).
Qed.

(** ** Resolution legs *)

(** A reply speaks of dLSNs that were broadcast. *)
Definition round_broadcast s h (rr : resolution_result) : Prop :=
  ∀ d, is_Some (ss_slots s !! d) → d ≤ rs_resolved_upto rr → is_Some (h !! d).
Definition answer_known s h (a : result error_condition resolution_result) : Prop :=
  match a with Ok rr => round_broadcast s h rr | Err _ => True end.
Definition answer_ends (w : Z) (a : result error_condition resolution_result) : Prop :=
  match a with Ok rr => w ≤ rs_resolved_upto rr | Err _ => True end.
Definition settled_upto s (w : Z) : Prop :=
  ∀ d sl, ss_slots s !! d = Some sl → d ≤ w → is_resolved (ds_outcome sl) = true.

Lemma broadcast_known s h F rr : round_broadcast s h rr → round_known s h F rr.
Proof. intros Hb d (Hd & _ & Hs & _)%filled_elem. apply Hb; [done|lia]. Qed.

Lemma broadcast_round s h idx ds rr rr' :
  round_broadcast s h rr' → round_broadcast (spec_round s rr) (hist_round idx ds h) rr'.
Proof.
  intros Hb d [sl Hd] Hle. destruct (same_ranges_lookup _ _ _ _ (round_ranges s rr) Hd) as (sl0 & H0 & _).
  destruct (Hb d ltac:(by rewrite H0) Hle) as [rs Hrs].
  destruct (hist_round_lookup 1 idx ds h d rs Hrs) as (rs' & -> & _). eauto.
Qed.

Lemma round_settles n L s h c rr :
  client_inv n L s h c → settled_upto (spec_round s rr) (rs_resolved_upto rr).
Proof.
  intros I d sl Hd Hle. unfold spec_round, spec_op in Hd. rewrite lookup_spec_retire in Hd.
  destruct (ss_slots s !! d) as [sl0|] eqn:Hs; [|done]. simpl in Hd. injection Hd as <-.
  destruct (ci_tracker _ _ _ _ _ I) as [[t R] _]. destruct (rf_dom _ _ _ R d sl0 Hs) as [Hr _].
  rewrite decide_True by lia. rewrite resolved_settle. unfold verdict. case_decide; apply orb_true_r.
Qed.

Lemma retire_want c idx rr c' w :
  resolution_retire c idx rr = Some c' → resolution_want (cc_tracker c) = Some w →
  resolution_want (cc_tracker c') = if decide (w ≤ rs_resolved_upto rr) then None else Some w.
Proof.
  unfold resolution_retire. destruct (retire_upto _ _ _ _ _) as [[t r]|] eqn:Hr; simpl; [|done].
  destruct r as [r|]; simpl; [|done]. intros [= <-]. apply retire_upto_params in Hr as [_ Hw].
  unfold resolution_want, clear_resolution_want. simpl. rewrite Hw.
  destruct (Z.ltb_spec (resolve_want_ (cc_tracker c)) 0); [done|]. intros [= <-].
  rewrite (proj2 (Z.leb_le 0 _)) by lia. simpl.
  case_decide as Hd; [by rewrite (proj2 (Z.leb_le _ _) Hd)|].
  rewrite (proj2 (Z.leb_gt _ _)) by lia. simpl. rewrite Hw. by rewrite (proj2 (Z.ltb_ge _ _)) by lia.
Qed.

Lemma release_reach n L s h c idx :
  client_reach n L s h c →
  client_reach n L s h (resolution_release c idx) ∧
  default false (rr_inflight_ (cc_route (resolution_release c idx)) !! idx) = false.
Proof.
  intros Hc. split; [by apply cr_flags|]. simpl.
  destruct (decide (idx < length (rr_inflight_ (cc_route c)))%nat) as [Hl|Hl].
  - by rewrite list_lookup_insert_eq by done.
  - rewrite list_insert_ge by lia. by rewrite lookup_ge_None_2 by lia.
Qed.

Lemma fire_resolution_aux n L idx answers w a :
  (1 ≤ n ≤ k_max_members)%nat → (idx < n)%nat → a ∈ answers → answer_ends w a →
  ∀ s h c, client_reach n L s h c → resolution_want (cc_tracker c) = Some w →
    Forall (answer_known s h) answers →
    ∃ c' s' h', fire_resolution c idx answers = Some c' ∧ client_reach n L s' h' c' ∧
      default false (rr_inflight_ (cc_route c') !! idx) = false ∧
      (resolution_want (cc_tracker c') = Some w ∨
       resolution_want (cc_tracker c') = None ∧ settled_upto s' w).
Proof.
  intros Hn Hi Ha Hends. induction answers as [|b answers IH]; intros s h c Hc Hw Hk;
    [by apply not_elem_of_nil in Ha|].
  inversion Hk as [|? ? Hb Hk']; subst. simpl. rewrite Hw. destruct b as [rr|e].
  2:{ destruct (release_reach n L s h c idx Hc) as [Hc' Hfl]. eauto 10. }
  pose proof (client_reach_inv _ _ _ _ _ Hn Hc) as I. pose proof (broadcast_known _ _ (frontier (cc_tracker c)) _ Hb) as Hkn.
  destruct (client_inv_round n L s h c idx rr Hn I Hi Hkn) as (c1 & Hr & _). rewrite Hr. simpl.
  pose proof (cr_round n L s h c idx rr c1 Hc Hi Hkn Hr) as Hc1. pose proof (retire_want _ _ _ _ _ Hr Hw) as Hw1.
  case_decide as Hle.
  - destruct (release_reach n L _ _ c1 idx Hc1) as [Hc' Hfl].
    exists (resolution_release c1 idx). do 2 eexists. split_and!; [|exact Hc'|exact Hfl|].
    + destruct answers as [|x l]; simpl; rewrite Hw1; unfold resolution_recheck; simpl; by rewrite Hw1.
    + right. split; [done|]. intros d sl Hd Hdw. eapply (round_settles n L s h c rr I); [done|lia].
  - eapply IH; [|exact Hc1|done|].
    + apply elem_of_cons in Ha as [->|]; [simpl in Hends; lia|done].
    + eapply Forall_impl; [exact Hk'|]. intros [x|]; [|done]. by apply broadcast_round.
Qed.

(** ** Login *)

Lemma admit_round_spec n L s h c acks :
  client_reach n L s h c → length acks = n →
  let '(c', nacks, holder) := admit_round c L acks in
  client_reach n L s h c' ∧ cc_n c' = cc_n c ∧ cc_term c' = cc_term c ∧ cc_token c' = cc_token c ∧
  cc_lba_size c' = cc_lba_size c ∧ cc_leader c' = cc_leader c ∧ nacks = length (filter (λ r, is_ok r = true) acks) ∧
  (holder = true → ∃ i p, acks !! i = Some (Ok p) ∧ L ≤ lp_commit p).
Proof.
  intros Hc Hlen. unfold admit_round.
  assert (∀ k, (k ≤ length acks)%nat →
    let '(c', nacks, holder) := foldl (admit_step L) (c, 0%nat, false) (imap pair (take k acks)) in
    client_reach n L s h c' ∧ cc_n c' = cc_n c ∧ cc_term c' = cc_term c ∧ cc_token c' = cc_token c ∧
    cc_lba_size c' = cc_lba_size c ∧ cc_leader c' = cc_leader c ∧
    nacks = length (filter (λ r, is_ok r = true) (take k acks)) ∧
    (holder = true → ∃ i p, acks !! i = Some (Ok p) ∧ L ≤ lp_commit p)) as Hgen.
  2:{ specialize (Hgen (length acks) ltac:(done)). by rewrite firstn_all in Hgen. }
  induction k as [|k IH]; intros Hk; [done|].
  destruct (lookup_lt_is_Some_2 acks k) as [r Hr]; [lia|].
  rewrite (take_S_r _ _ _ Hr), imap_app, foldl_app, filter_app, length_app, filter_cons.
  specialize (IH ltac:(lia)). destruct (foldl _ _ _) as [[c' nacks] holder].
  rewrite length_take, Nat.min_l by lia. simpl. rewrite Nat.add_0_r.
  destruct IH as (IH1 & IH2 & IH3 & IH4 & IH5 & IH6 & -> & IH7).
  destruct r as [p|e]; simpl; split_and!; try done; try lia.
  - apply cr_synced; [done|lia].
  - intros [?|Hle]%orb_true_iff; [auto|]. exists k, p. split; [done|lia].
Qed.

(** What a successful admission has seen. *)
Definition admitted (n : nat) (L : Z) (rounds : list (list (result error_condition lsn_pair) * bool)) : Prop :=
  ∃ acks expired, (acks, expired) ∈ rounds ∧ (n / 2 + 1 ≤ length (filter (λ r, is_ok r = true) acks))%nat ∧
    ∃ i p, acks !! i = Some (Ok p) ∧ L ≤ lp_commit p.

Lemma admit_spec n L s h c rounds res c' :
  (1 ≤ n ≤ k_max_members)%nat → client_reach n L s h c → Forall (λ rd, length rd.1 = n) rounds →
  admit_loop c L rounds = Some (res, c') →
  client_reach n L s h c' ∧ cc_term c' = cc_term c ∧ cc_token c' = cc_token c ∧
  cc_lba_size c' = cc_lba_size c ∧ cc_leader c' = cc_leader c ∧
  (res = Ok tt ∧ admitted n L rounds ∨ res = Err (ec_craft NO_QUORUM)).
Proof.
  intros Hn. revert c. induction rounds as [|[acks expired] rounds IH]; intros c Hc Hlen; simpl; [done|].
  apply Forall_cons in Hlen as [Hl Hlen']. simpl in Hl.
  pose proof (admit_round_spec _ _ _ _ c acks Hc Hl) as Hr.
  destruct (admit_round c L acks) as [[c1 nacks] holder].
  destruct Hr as (Hc1 & Hn1 & Ht & Htok & Hlba & Hld & -> & Hh). case_match eqn:Hcond.
  - intros [= <- <-]. split_and!; try done. left. split; [done|]. apply andb_true_iff in Hcond as [Hq ->].
    apply bool_decide_eq_true in Hq. unfold cc_quorum in Hq.
    rewrite (ci_n _ _ _ _ _ (client_reach_inv _ _ _ _ _ Hn Hc1)) in Hq.
    exists acks, expired. split; [by left|]. split; [done|by apply Hh].
  - destruct expired; [intros [= <- <-]; split_and!; try done; by right|].
    intros Ha. destruct (IH c1 Hc1 Hlen' Ha) as (? & ? & ? & ? & ? & Hres).
    split_and!; [done|congruence..|]. destruct Hres as [[? (x & y & ? & ?)]|?]; [left|by right].
    split; [done|]. exists x, y. split; [by right|done].
Qed.

Lemma login_walk_spec todo hop c answers le target lr :
  login_walk todo hop c answers le = Some (Ok (target, lr)) →
  Ok lr ∈ answers ∧ lg_term lr ≠ 0 ∧ ∃ k, target = hop_target c k.
Proof.
  revert hop answers le. induction todo as [|todo IH]; intros hop [|[a|e] answers] le; simpl; try done.
  - destruct (Z.eqb_spec (lg_term a) 0).
    + intros (? & ? & ?)%IH. split_and!; try done. by right.
    + intros [= <- <-]. split_and!; [by left|done|eauto].
  - intros (? & ? & ?)%IH. split_and!; try done. by right.
Qed.

Lemma login_walk_total todo hop c answers le :
  (todo ≤ length answers)%nat → is_Some (login_walk todo hop c answers le).
Proof.
  revert hop answers le. induction todo as [|todo IH]; intros hop [|[a|e] answers] le Hl; simpl in *;
    try lia; try by eexists.
  - case_match; [apply IH; lia|by eexists].
  - apply IH. lia.
Qed.

Lemma admit_total c L rounds : (∃ rd, rd ∈ rounds ∧ rd.2 = true) → is_Some (admit_loop c L rounds).
Proof.
  intros (rd & Hin & Hexp). revert c. induction rounds as [|[acks expired] rounds IH]; intros c; simpl;
    [by apply not_elem_of_nil in Hin|].
  destruct (admit_round c L acks) as [[c1 nacks] holder]. case_match; [by eexists|].
  apply elem_of_cons in Hin as [->|Hin]; simpl in *; [by rewrite Hexp; eexists|].
  destruct expired; [by eexists|by apply IH].
Qed.

(** ** Logout *)

Lemma logout_walk_spec todo hop c answers le :
  (∀ res c', logout_walk todo hop c answers le = Some (res, c') →
     match res with Ok _ => ∃ leader, c' = end_session c leader | Err _ => c' = c end) ∧
  ((todo ≤ length answers)%nat → is_Some (logout_walk todo hop c answers le)).
Proof.
  revert hop answers le. induction todo as [|todo IH]; intros hop [|[a|e] answers] le; simpl;
    (split; [intros res c'|intros Hl]); try done; try lia; try by eexists.
  1-3: by intros [= <- <-].
  - intros [= <- <-]. eauto.
  - case_decide; [intros [= <- <-]; eauto|by apply IH].
  - case_decide; [by eexists|apply IH; lia].
Qed.
End verbs.

Section claims.
Context {T U M : Type} `{ST : !StreamTracker dlsn_slot T} `{SU : !StreamTracker route_slot U}
  `{IM : !IntervalMap M} `{MS : !MissSort}.
Implicit Types (s : session) (h : gmap Z route_slot) (c : craft_client T U M).

(** C2: a write tells the truth.  From every state of a session, a well-formed [write] with
    any answers of the members in any order returns; its dLSN is the next one.  It reports
    success exactly if a quorum of the members acked, and then a quorum is on record as
    holding the write; otherwise it reports the last member's error, and its slot is Empty
    only if every member refused it and none holds it, or failed with a resolution round
    wanted for it.  The session goes on from a reachable state. *)
Theorem write_spec n L s h c addr len legs :
  (1 ≤ n ≤ k_max_members)%nat → -1 ≤ L → client_reach n L s h c → range_ok addr len →
  precheck c addr len = None → ss_next s < kNever → legs.*1 ≡ₚ seq 0 n →
  let d := ss_next s in
  let oc := settle_outcome n (oks legs) (leg_results n legs) in
  ∃ res fired c' s' h' rs, write c addr len legs = Some (res, fired, c') ∧
    client_reach n L s' h' c' ∧ ss_slots s' !! d = Some (Mk_dlsn_slot addr len oc) ∧
    h' !! d = Some rs ∧ write_post n d len oc rs (leg_results n legs) res c'.
Proof.
  intros Hn HL Hc Hr Hp HK Hlegs. simpl. destruct (leg_results_spec n legs Hlegs) as [Hlen Hres].
  destruct (write_begin_reach n L s h c addr len) as (c1 & Hb & Hc1); try done.
  unfold write. rewrite Hb. simpl.
  destruct (await_reach n L _ h c1 (ss_next s) _ [] legs Hn Hc1) as (acks & c2 & rs & Ha & Hc2 & Hpop & Hdone).
  { apply legs_done_nil. }
  { simpl. rewrite Hlegs. apply NoDup_seq. }
  { rewrite Hlegs. apply Forall_forall. intros i Hi%elem_of_seq. lia. }
  change (oks []) with 0%nat in Ha. rewrite Ha. rewrite app_nil_l in Hdone.
  change (Some (acks, c2) ≫= ?f) with (f (acks, c2)). cbv beta iota.
  pose proof (client_reach_inv _ _ _ _ _ Hn Hc2) as I2. rewrite (ci_n _ _ _ _ _ I2).
  destruct (write_settle_aux n L _ _ c2 (ss_next s) rs len acks (leg_results n legs) Hn HL Hc2)
    as (res & fired & c3 & Hs & Hc3 & Hpost); [apply lookup_insert_eq|lia| |].
  { intros Hlt. split; [done|]. destruct Hdone as [[? _]|Hdone]; [lia|]. intros i r Hi. symmetry.
    by apply (ld_acked _ _ Hdone), Hres. }
  apply settle_post_write in Hpost; [|lia].
  assert (settle_outcome n (oks legs) (leg_results n legs) = settle_outcome n acks (leg_results n legs)) as Hoc.
  { destruct Hdone as [[? ?]|Hdone]; [apply settle_outcome_acks; [by etrans|done]|].
    by rewrite <-Hpop, (ld_count _ _ Hdone). }
  rewrite <-Hoc in *. exists res, fired, c3. do 2 eexists. exists rs. split; [exact Hs|].
  split; [exact Hc3|]. split_and!; [|apply lookup_insert_eq|done].
  rewrite lookup_spec_resolve, decide_True by done. simpl. by rewrite lookup_insert_eq.
Qed.

(** A served read misses no acknowledged write.  Planned and issued with no other
    operation in between, a [read] that member [idx] serves reads every byte of the range
    at a horizon at or above the last acked write of the byte, from a member that holds
    that write, a later durable one at or below the horizon, or has reported a commit at or
    above it. *)
Theorem read_complete n L s h c addr len p t rotor answers o idx :
  (1 ≤ n ≤ k_max_members)%nat → -1 ≤ L → client_reach n L s h c → range_ok addr len →
  compute (cc_tracker c) addr len = Some (p, t) → po_segs p ≠ [] →
  read (with_tracker c t) addr len (Ok (po_segs p)) rotor answers = Some o → ro_served o = Some idx →
  contiguous addr (addr + len) (po_segs p) ∧
  ∀ sg x, sg ∈ po_segs p → sg_addr sg ≤ x < sg_addr sg + sg_len sg → addr ≤ x < addr + len →
    ∀ d sl, ss_slots s !! d = Some sl → ds_outcome sl = acked → covers sl x →
      provides n h (cc_route c) idx (sg_H sg) d x.
Proof. intros. by edestruct read_served_plan as (? & _ & _ & _ & ?). Qed.

(** A resolution leg ends.  Started on a want [w], [fire_resolution] returns as soon as
    the member has answered with an error or with a round that covers [w]; it leaves the
    member's leg free, and either the want stands (for another member to serve) or it is
    gone and every slot of the session at or below it is resolved. *)
Theorem fire_resolution_ends n L s h c idx answers w a :
  (1 ≤ n ≤ k_max_members)%nat → client_reach n L s h c → (idx < n)%nat →
  resolution_want (cc_tracker c) = Some w → Forall (answer_known s h) answers →
  a ∈ answers → answer_ends w a →
  ∃ c' s' h', fire_resolution c idx answers = Some c' ∧ client_reach n L s' h' c' ∧
    default false (rr_inflight_ (cc_route c') !! idx) = false ∧
    (resolution_want (cc_tracker c') = Some w ∨
     resolution_want (cc_tracker c') = None ∧ settled_upto s' w).
Proof. intros Hn Hc Hi Hw Hk Ha He. by apply (fire_resolution_aux n L idx answers w a Hn Hi Ha He s h). Qed.

(** [login] opens a session only for cause.  When it succeeds, some member accepted
    with a term, the client starts at that member's watermark with nothing in flight, and in
    one probe round a quorum answered and some member held everything up to the watermark.
    And it always ends: with one answer per hop and a deadline that passes, it returns. *)
Theorem login_admits n c token answers rounds :
  (1 ≤ n ≤ k_max_members)%nat → cc_n c = n → Forall (λ rd, length rd.1 = n) rounds →
  (∀ lr, Ok lr ∈ answers → 0 ≤ lg_lba_size lr) →
  (∀ c', login c token answers rounds = Some (Ok tt, c') →
    ∃ lr, Ok lr ∈ answers ∧ lg_term lr ≠ 0 ∧ cc_term c' = lg_term lr ∧ cc_token c' = token ∧
      client_reach n (lg_dLSN lr) (Mk_session (lg_dLSN lr) (lg_dLSN lr + 1) ∅) ∅ c' ∧
      admitted n (lg_dLSN lr) rounds) ∧
  ((n ≤ length answers)%nat → (∃ rd, rd ∈ rounds ∧ rd.2 = true) → is_Some (login c token answers rounds)).
Proof.
  intros Hn Hcn Hrounds Hlba. split.
  - intros c' Hl. unfold login in Hl. destruct (login_walk _ _ _ _ _) as [[[target lr]|e]|] eqn:Hw; simpl in Hl; try done.
    apply login_walk_spec in Hw as (Hin & Ht & _). exists lr. do 2 (split; [done|]).
    assert (client_reach n (lg_dLSN lr) (Mk_session (lg_dLSN lr) (lg_dLSN lr + 1) ∅) ∅
              (login_accept c token target lr)) as Hc by (apply cr_login; [done|done|by apply Hlba]).
    destruct (admit_spec _ _ _ _ _ _ _ _ Hn Hc Hrounds Hl) as (? & ? & ? & _ & _ & [[_ ?]|?]); done.
  - intros Hlen Hexp. unfold login. rewrite Hcn. destruct (login_walk_total n 0 c answers None Hlen) as [w Hw].
    rewrite Hw. simpl. destruct w as [[target lr]|e]; [by apply admit_total|by eexists].
Qed.

(** A login that fails its admission leaves the session open: when a member accepted
    but no probe round was good enough before the deadline, [login] returns [NO_QUORUM], yet
    the client keeps the term, and every aligned request passes [precheck]. *)
Theorem login_failed_open n c token answers rounds e c' target lr :
  (1 ≤ n ≤ k_max_members)%nat → cc_n c = n → Forall (λ rd, length rd.1 = n) rounds →
  login_walk n 0 c answers None = Some (Ok (target, lr)) → 0 < lg_lba_size lr →
  login c token answers rounds = Some (Err e, c') →
  e = ec_craft NO_QUORUM ∧ cc_term c' = lg_term lr ∧ lg_term lr ≠ 0 ∧
  ∀ a k, 0 < k → precheck c' (a * lg_lba_size lr) (k * lg_lba_size lr) = None.
Proof.
  intros Hn Hcn Hrounds Hw Hlba Hl. unfold login in Hl. rewrite Hcn, Hw in Hl. simpl in Hl.
  assert (client_reach n (lg_dLSN lr) (Mk_session (lg_dLSN lr) (lg_dLSN lr + 1) ∅) ∅
            (login_accept c token target lr)) as Hc by (apply cr_login; [done|done|lia]).
  destruct (admit_spec _ _ _ _ _ _ _ _ Hn Hc Hrounds Hl) as (_ & Ht & _ & Hlb & _ & Hres).
  simpl in Ht, Hlb. apply login_walk_spec in Hw as (_ & Hz & _).
  destruct Hres as [[? _]|[= ->]]; [done|]. split_and!; try done. intros a k Hk. unfold precheck.
  rewrite Ht, (proj2 (Z.eqb_neq _ _) Hz), Hlb, (proj2 (Z.eqb_neq (lg_lba_size lr) 0)) by lia.
  rewrite (proj2 (Z.eqb_neq (k * lg_lba_size lr) 0)) by lia. by rewrite !Z.mod_mul by lia.
Qed.

(** [logout] ends the session or leaves it alone.  On success, whether a member took it
    or the session was already fenced, every later request is refused as not connected and
    no keep-alive is sent; on an error the client is unchanged.  With an answer per hop it
    returns. *)
Theorem logout_closes c answers :
  (∀ res c', logout c answers = Some (res, c') →
     match res with
     | Ok _ => ∀ addr len ex,
         precheck c' addr len = Some (ec_std not_connected) ∧
         write_begin c' addr len = Some (Err (ec_std not_connected), c') ∧
         drive_keepalives c' ex = ([], c')
     | Err _ => c' = c
     end) ∧
  ((cc_n c ≤ length answers)%nat → is_Some (logout c answers)).
Proof.
  unfold logout. destruct (Z.eqb_spec (cc_term c) 0) as [Hz|Hz].
  - split; [|by eexists]. intros res c' [= <- <-] addr len ex.
    unfold write_begin, drive_keepalives, precheck. by rewrite Hz.
  - destruct (logout_walk_spec (cc_n c) 0 c answers None) as [Hres Htot]. split; [|done].
    intros res c' Hl. apply Hres in Hl. destruct res; [|done]. destruct Hl as [leader ->].
    intros addr len ex. by unfold write_begin, drive_keepalives, precheck.
Qed.
End claims.
