(* ===== verification/ClientTrace.v ===== *)
(** * Sessions evaluated

    Concrete sessions of the client over the finite-map tracker and the point-wise interval
    map: the witnesses of the claims of [ClientRun], and the read whose plan is older than
    the router it is checked against. *)

From S2P Require Import Prelude Codec WireTypes Wire Types Replica ReplicaSpec ReplicaRun StreamTracker DlsnTracker DlsnSpec DlsnPlan IntervalMap ReadRoute RouteSpec Client ClientSpec ClientRun.

Local Open Scope craft_scope.
Local Open Scope Z_scope.

#[local] Existing Instance stable_sort.

(** ** Runs *)

Inductive client_op :=
| co_begin (addr len : Z)
| co_leg (d : Z) (idx : nat) (r : result error_condition lsn_pair)
| co_settle (d len : Z) (acks : nat) (results : list (result error_condition lsn_pair)).

Section exec.
Let T := MapTracker.t dlsn_slot.
Let U := MapTracker.t route_slot.
Let M := PointMap.t.

Definition trace_state : Type := session * gmap Z route_slot * craft_client T U M.

(** One checked step, the ghost state included. *)
Definition client_exec1 (n : nat) (x : trace_state) (o : client_op) : option trace_state :=
  let '(s, h, c) := x in
  match o with
  | co_begin addr len =>
      if (0 <=? addr) && (0 <? len) && (addr + len <? 2 ^ 64) && (ss_next s <? kNever) then
        match write_begin c addr len with
        | Some (Ok (d, _), c) =>
            Some (spec_create (spec_take s) (ss_next s) addr len,
                  <[ss_next s := Mk_route_slot (ss_next s) addr len 0 0 0]> h, c)
        | _ => None
        end
      else None
  | co_leg d idx r =>
      rs ← h !! d;
      if decide (idx < n)%nat then
        if holds (rs_completed rs) idx then None
        else c ← write_leg c d idx r; Some (s, <[d := complete_slot rs (bit idx) (is_ok r)]> h, c)
      else None
  | co_settle d len acks results =>
      rs ← h !! d;
      if bool_decide (acks ≤ popcount (rs_holders rs))%nat && bool_decide (length results = n) &&
         results_check rs results
      then '(_, c) ← write_settle c d len acks results;
           Some (spec_resolve s d (settle_outcome n acks results), h, c)
      else None
  end.

Fixpoint client_exec (n : nat) (x : trace_state) (ops : list client_op) : option trace_state :=
  match ops with [] => Some x | o :: ops => x ← client_exec1 n x o; client_exec n x ops end.

Definition trace_reach (n : nat) (L : Z) (x : trace_state) : Prop := client_reach n L x.1.1 x.1.2 x.2.

Lemma exec1_reach n L x o x' :
  (1 ≤ n ≤ k_max_members)%nat → -1 ≤ L → trace_reach n L x → client_exec1 n x o = Some x' → trace_reach n L x'.
Proof.
  intros Hn HL. destruct x as [[s h] c]. unfold trace_reach. destruct o; cbn [client_exec1 fst snd]; intros Hc.
  - destruct (_ && _) eqn:Hg; [|done]. rewrite !andb_true_iff in Hg.
    destruct (write_begin c addr len) as [[[[d hdr]|e] c1]|] eqn:Hb; try done. intros [= <-].
    assert (precheck c addr len = None) as Hp.
    { unfold write_begin in Hb. by destruct (precheck c addr len). }
    destruct (write_begin_reach n L s h c addr len) as (c' & Hb' & Hr); try done; [unfold range_ok; lia|lia|].
    rewrite Hb in Hb'. injection Hb' as _ _ <-. done.
  - destruct (h !! d) as [rs|] eqn:Hd; simpl; [|done]. case_decide; [|done].
    destruct (holds (rs_completed rs) idx) eqn:Hh; [done|].
    destruct (write_leg_reach n L s h c d rs idx r) as (c' & Hl & Hr); try done.
    rewrite Hl. simpl. by intros [= <-].
  - destruct (h !! d) as [rs|] eqn:Hd; cbn [mbind option_bind]; [|done]. destruct (_ && _) eqn:Hg; [|done].
    rewrite !andb_true_iff, !bool_decide_eq_true in Hg. destruct Hg as [[Hp Hlen] Hm].
    destruct (write_settle_aux n L s h c d rs len acks results) as (res & fired & c' & Hs & Hr & _); try done.
    { intros _. split; [done|by apply results_check_ok]. }
    rewrite Hs. cbn [mbind option_bind]. by intros [= <-].
Qed.

Lemma exec_reach n L x ops x' :
  (1 ≤ n ≤ k_max_members)%nat → -1 ≤ L → trace_reach n L x → client_exec n x ops = Some x' → trace_reach n L x'.
Proof.
  intros Hn HL. revert x. induction ops as [|o ops IH]; intros x Hx; simpl; [by intros [= <-]|].
  destruct (client_exec1 n x o) as [x1|] eqn:H1; simpl; [|done]. apply IH. by eapply exec1_reach.
Qed.

(** ** Sessions *)

Definition ex_ack : result error_condition lsn_pair := Ok (Mk_lsn_pair (-1) (-1)).
Definition ex_down : result error_condition lsn_pair := Err (ec_craft REPLICA_DOWN).
Definition ex_late : result error_condition lsn_pair := Err (ec_std timed_out).
Definition ex_login : LoginResult := Mk_LoginResult [] (-1) 7 4 64 nil_uuid 64.
Definition ex_client : craft_client T U M := login_accept (mk_client 3 0 16) 9 0 ex_login.
Definition ex_start : trace_state := (Mk_session (-1) 0 ∅, ∅, ex_client).

Lemma ex_start_reach : trace_reach 3 (-1) ex_start.
Proof. by apply (cr_login 3 (-1) (mk_client 3 0 16) 9 0 ex_login). Qed.

Definition ex_after (ops : list client_op) : trace_state := default ex_start (client_exec 3 ex_start ops).

Lemma ex_after_reach ops : trace_reach 3 (-1) (ex_after ops).
Proof.
  unfold ex_after. destruct (client_exec 3 ex_start ops) as [x|] eqn:Hx; [|apply ex_start_reach].
  eapply (exec_reach 3 (-1)); [unfold k_max_members; lia|lia|apply ex_start_reach|done].
Qed.

(** dLSN 0 fails on a timeout of two members. *)
Definition failed_ops : list client_op :=
  [co_begin 0 4; co_leg 0 0 ex_ack; co_leg 0 1 ex_late; co_leg 0 2 ex_late;
   co_settle 0 4 1 [ex_ack; ex_late; ex_late]].

Lemma write_spec_witness :
  ∃ res fired c' s' h' rs,
    write (ex_after failed_ops).2 0 8 [(2%nat, ex_ack); (0%nat, ex_late); (1%nat, ex_ack)] = Some (res, fired, c') ∧
    client_reach 3 (-1) s' h' c' ∧ ss_slots s' !! 1 = Some (Mk_dlsn_slot 0 8 acked) ∧
    h' !! 1 = Some rs ∧ res = Ok 8.
Proof.
  destruct (write_spec 3 (-1) (ex_after failed_ops).1.1 (ex_after failed_ops).1.2 (ex_after failed_ops).2 0 8
    [(2%nat, ex_ack); (0%nat, ex_late); (1%nat, ex_ack)])
    as (res & fired & c' & s' & h' & rs & H1 & H2 & H3 & H4 & H5 & H6);
    [unfold k_max_members; lia|lia|apply (ex_after_reach failed_ops)|unfold range_ok; lia
    |vm_compute; reflexivity|vm_compute; reflexivity| |].
  { simpl. etrans; [apply Permutation_swap|]. apply perm_skip, Permutation_swap. }
  exists res, fired, c', s', h', rs. split_and!; [exact H1|exact H2|exact H3|exact H4|exact H5].
Defined.

Lemma fire_resolution_ends_witness :
  ∃ c' s' h', fire_resolution (ex_after failed_ops).2 1 [Ok (Mk_resolution_result 0 [])] = Some c' ∧
    client_reach 3 (-1) s' h' c' ∧
    default false (rr_inflight_ (cc_route c') !! 1%nat) = false ∧
    (resolution_want (cc_tracker c') = Some 0 ∨
     resolution_want (cc_tracker c') = None ∧ settled_upto s' 0).
Proof.
  apply (fire_resolution_ends 3 (-1) (ex_after failed_ops).1.1 (ex_after failed_ops).1.2 (ex_after failed_ops).2 1
    [Ok (Mk_resolution_result 0 [])] 0 (Ok (Mk_resolution_result 0 [])));
    [unfold k_max_members; lia|apply (ex_after_reach failed_ops)|lia|vm_compute; reflexivity| |by left|simpl; lia].
  apply Forall_singleton. intros d Hd Hle. simpl in Hle.
  destruct (decide (d = 0)) as [->|Hne]; [vm_compute; by eexists|].
  exfalso. destruct Hd as [sl Hd].
  destruct (client_reach_inv 3 (-1) _ _ _ ltac:(unfold k_max_members; lia) (ex_after_reach failed_ops))
    as [_ _ [[t R] _] _ _ _ _ _ _].
  apply (rf_dom _ _ _ R) in Hd as [Hd _].
  change (-1 < d < 1) in Hd. lia.
Defined.

(** *** Reads *)

(** dLSN 0 writes bytes 0..4; members 0 and 1 ack, member 2 misses it. *)
Definition race_before : list client_op :=
  [co_begin 0 4; co_leg 0 0 ex_ack; co_leg 0 1 ex_ack; co_settle 0 4 2 [ex_ack; ex_ack; ex_down];
   co_leg 0 2 ex_down].
(** dLSN 1 overwrites them; members 1 and 2 ack, member 0 misses it. *)
Definition race_more : list client_op :=
  [co_begin 0 4; co_leg 1 1 ex_ack; co_leg 1 2 ex_ack; co_settle 1 4 2 [ex_down; ex_ack; ex_ack];
   co_leg 1 0 ex_down].
Definition race_plan : list read_segment := [Mk_read_segment 0 4 0].

(** Undisturbed, the same read is served by member 0, which holds the write. *)
Lemma read_complete_witness :
  let x := ex_after race_before in
  provides 3 x.1.2 (cc_route x.2) 0 0 0 2.
Proof.
  set (x := ex_after race_before).
  destruct (read_complete 3 (-1) x.1.1 x.1.2 x.2 0 4 (Mk_plan_outcome race_plan false) (cc_tracker x.2) 2 [ex_ack]
    (default (Mk_read_outcome (Err (ec_craft NO_QUORUM)) 0 None x.2)
       (read (with_tracker x.2 (cc_tracker x.2)) 0 4 (Ok race_plan) 2 [ex_ack])) 0)
    as [_ Hp];
    [unfold k_max_members; lia|lia|apply (ex_after_reach race_before)|unfold range_ok; lia
    |vm_compute; reflexivity|done|vm_compute; reflexivity|vm_compute; reflexivity|].
  apply (Hp (Mk_read_segment 0 4 0) 2) with (d := 0) (sl := Mk_dlsn_slot 0 4 acked);
    [by left|simpl; lia|lia|vm_compute; reflexivity|done|unfold covers; simpl; lia].
Defined.

(** A read whose plan is older than the frontier its router is folded to can miss an
    acknowledged write.  dLSN 0 is acked and member 2 misses it; a read of its bytes plans
    at horizon 0; before the read goes on, dLSN 1 overwrites the bytes and is acked by
    members 1 and 2.  [read] now folds to the new frontier, where member 2's miss is
    covered by dLSN 1, and reads member 2 at horizon 0: the member holds nothing of the
    bytes there, and a replica with exactly its writes answers with zeros. *)
Theorem read_race :
  let before := ex_after race_before in
  let after := ex_after (race_before ++ race_more) in
  client_exec 3 before race_more = Some after ∧
  compute (cc_tracker before.2) 0 4 = Some (Mk_plan_outcome race_plan false, cc_tracker before.2) ∧
  ss_slots before.1.1 !! 0 = Some (Mk_dlsn_slot 0 4 acked) ∧
  (ro_served <$> read after.2 0 4 (Ok race_plan) 2 [ex_ack]) = Some (Some 2%nat) ∧
  (ro_result <$> read after.2 0 4 (Ok race_plan) 2 [ex_ack]) = Some (Ok 4) ∧
  ¬ provides 3 after.1.2 (cc_route after.2) 2 0 0 0 ∧
  let r := replica_run example_start [op_login 9 7; op_write (make_hdr before.2) 1 0 4 (Some [5; 6; 7; 8])] in
  ∃ rr r', do_read r (make_hdr after.2) 0 0 4 (Mk_sg 4 [[9; 9; 9; 9]]) =
             Some (Ok (rr, Mk_sg 4 [[0; 0; 0; 0]]), r').
Proof.
  cbv zeta. do 5 (split; [vm_compute; reflexivity|]). split.
  - intros [_ (rs & Hrs & Hp)]. vm_compute in Hrs. injection Hrs as <-.
    destruct Hp as [Hh|[(d' & rs' & Hd' & _)|Hs]]; [by vm_compute in Hh|lia|by vm_compute in Hs].
  - do 2 eexists. vm_compute. reflexivity.
Qed.

(** *** Login and logout *)

Definition ex_probe (commit : Z) : result error_condition lsn_pair := Ok (Mk_lsn_pair commit commit).
Definition ex_follower : LoginResult := Mk_LoginResult [] (-1) 0 0 0 nil_uuid 0.
Definition ex_leader : LoginResult := Mk_LoginResult [] 5 7 4 64 nil_uuid 64.
Definition ex_answers : list (result error_condition LoginResult) :=
  [Err (ec_craft REPLICA_DOWN); Ok ex_follower; Ok ex_leader].
(** No member holds dLSN 5 in the first round; in the second, member 2 does. *)
Definition ex_rounds : list (list (result error_condition lsn_pair) * bool) :=
  [([ex_down; ex_probe 3; ex_probe 4], false); ([ex_down; ex_probe 3; ex_probe 5], true)].

Lemma login_admits_witness :
  is_Some (login (mk_client 3 0 16 : craft_client T U M) 9 ex_answers ex_rounds) ∧
  (fst <$> login (mk_client 3 0 16 : craft_client T U M) 9 ex_answers ex_rounds) = Some (Ok tt).
Proof.
  split; [|vm_compute; reflexivity].
  apply (login_admits 3 (mk_client 3 0 16) 9 ex_answers ex_rounds);
    [unfold k_max_members; lia|done|by repeat constructor| |simpl; lia|].
  - intros lr Hlr. unfold ex_answers in Hlr. rewrite !elem_of_cons in Hlr.
    destruct Hlr as [[=]|[[= ->]|[[= ->]|Hlr]]]; [done..|by apply not_elem_of_nil in Hlr].
  - exists ([ex_down; ex_probe 3; ex_probe 5], true). split; [right; by left|done].
Defined.

Lemma login_failed_open_witness :
  ∃ c', login (mk_client 3 0 16 : craft_client T U M) 9 ex_answers [([ex_down; ex_probe 3; ex_probe 4], true)] =
          Some (Err (ec_craft NO_QUORUM), c') ∧ precheck c' 8 4 = None.
Proof.
  eexists. split; [vm_compute; reflexivity|].
  apply (login_failed_open 3 (mk_client 3 0 16) 9 ex_answers [([ex_down; ex_probe 3; ex_probe 4], true)]
           (ec_craft NO_QUORUM) _ 2 ex_leader) with (a := 2) (k := 1);
    [unfold k_max_members; lia|done|by repeat constructor|vm_compute; reflexivity|simpl; lia
    |vm_compute; reflexivity|lia].
Defined.

Lemma logout_closes_witness :
  is_Some (logout ex_client [Err (ec_craft NOT_LEADER); Err (ec_craft NOT_LEADER); Ok tt]).
Proof. apply (logout_closes ex_client). simpl. lia. Defined.
End exec.
