(* ===== verification/PeerCodec.v ===== *)
(** * The peer codec

    [include/craft/peer.hpp] and [src/peer_codec.cpp]: the flat encodings of the peer verbs
    and their decoders.  A decoder reads the span it is given through [copy_from], which is
    [None] when the code would read past the end of the span; that this never happens, on
    any bytes, is a theorem. *)

From S2P Require Import Prelude Codec WireTypes Wire Types Replica.

Local Open Scope craft_scope.
Local Open Scope Z_scope.

(** ** Wire structs *)

Record get_rs_commit_lsn_req_wire := Mk_lsn_req_wire { gw_term : Z; gw_is_login : Z; gw_pad : list Z }.
Definition get_rs_commit_lsn_req_wire_codec : codec get_rs_commit_lsn_req_wire :=
  cstruct (cu64 ⊗ cu8 ⊗ carray 7)
    (λ s, (gw_term s, (gw_is_login s, gw_pad s)))
    (λ '(term, (is_login, pad)), Mk_lsn_req_wire term is_login pad)
    (λ s, ltac:(by destruct s)).

Record lsn_pair_wire := Mk_lsn_pair_wire { pw_commit_lsn : Z; pw_last_append_lsn : Z }.
Definition lsn_pair_wire_codec : codec lsn_pair_wire :=
  cstruct (cint64 ⊗ cint64)
    (λ s, (pw_commit_lsn s, pw_last_append_lsn s))
    (λ '(commit_lsn, last_append_lsn), Mk_lsn_pair_wire commit_lsn last_append_lsn)
    (λ s, ltac:(by destruct s)).

Record fetch_req_hdr := Mk_fetch_req_hdr { fq_lsn_count : Z; fq_reserved : Z }.
Definition fetch_req_hdr_codec : codec fetch_req_hdr :=
  cstruct (cu32 ⊗ cu32)
    (λ s, (fq_lsn_count s, fq_reserved s))
    (λ '(lsn_count, reserved), Mk_fetch_req_hdr lsn_count reserved)
    (λ s, ltac:(by destruct s)).

Record fetch_rsp_hdr := Mk_fetch_rsp_hdr { fr_slot_count : Z; fr_reserved : Z }.
Definition fetch_rsp_hdr_codec : codec fetch_rsp_hdr :=
  cstruct (cu32 ⊗ cu32)
    (λ s, (fr_slot_count s, fr_reserved s))
    (λ '(slot_count, reserved), Mk_fetch_rsp_hdr slot_count reserved)
    (λ s, ltac:(by destruct s)).

Record slot_desc := Mk_slot_desc {
  sd_lsn : Z; sd_lba : Z; sd_len : Z; sd_byte_len : Z; sd_is_empty : Z; sd_all_zeros : Z; sd_pad : list Z }.
Definition slot_desc_codec : codec slot_desc :=
  cstruct (cint64 ⊗ cu64 ⊗ cu32 ⊗ cu64 ⊗ cu8 ⊗ cu8 ⊗ carray 2)
    (λ s, (sd_lsn s, (sd_lba s, (sd_len s, (sd_byte_len s, (sd_is_empty s, (sd_all_zeros s, sd_pad s)))))))
    (λ '(lsn, (lba, (ln, (byte_len, (is_empty, (all_zeros, pad)))))),
       Mk_slot_desc lsn lba ln byte_len is_empty all_zeros pad)
    (λ s, ltac:(by destruct s)).

(** The [static_assert]s. *)
Lemma peer_struct_sizes :
  csize get_rs_commit_lsn_req_wire_codec = 16%nat ∧ csize lsn_pair_wire_codec = 16%nat ∧
  csize fetch_req_hdr_codec = 8%nat ∧ csize fetch_rsp_hdr_codec = 8%nat ∧ csize slot_desc_codec = 32%nat.
Proof. done. Qed.

Inductive decode_error := truncated | malformed.

Definition bool_byte (b : bool) : Z := if b then 1 else 0.

(** [std::memcpy(&w, bytes.data() + off, n)]. *)
Definition copy_from (bytes : list Z) (off n : nat) : option (list Z) :=
  if decide (off + n ≤ length bytes)%nat then Some (take n (drop off bytes)) else None.

(** ** get_rs_commit_lsn *)

Definition encode_get_rs_commit_lsn_req (term : Z) (is_login : bool) : list Z :=
  enc get_rs_commit_lsn_req_wire_codec (Mk_lsn_req_wire term (bool_byte is_login) (replicate 7 0)).

Definition decode_get_rs_commit_lsn_req (bytes : list Z) : option (result decode_error (Z * bool)) :=
  if decide (length bytes < csize get_rs_commit_lsn_req_wire_codec)%nat then Some (Err truncated)
  else
    w ← copy_from bytes 0 (csize get_rs_commit_lsn_req_wire_codec);
    let w := dec get_rs_commit_lsn_req_wire_codec w in
    Some (Ok (gw_term w, negb (gw_is_login w =? 0))).

Definition encode_get_rs_commit_lsn_rsp (lsns : lsn_pair) : list Z :=
  enc lsn_pair_wire_codec (Mk_lsn_pair_wire (lp_commit lsns) (lp_last_append lsns)).

Definition decode_get_rs_commit_lsn_rsp (bytes : list Z) : option (result decode_error lsn_pair) :=
  if decide (length bytes < csize lsn_pair_wire_codec)%nat then Some (Err truncated)
  else
    w ← copy_from bytes 0 (csize lsn_pair_wire_codec);
    let w := dec lsn_pair_wire_codec w in
    Some (Ok (Mk_lsn_pair (pw_commit_lsn w) (pw_last_append_lsn w))).

(** ** fetch_data request *)

Definition encode_fetch_data_req (lsns : list Z) : list Z :=
  enc fetch_req_hdr_codec (Mk_fetch_req_hdr (u32 (Z.of_nat (length lsns))) 0) ++ enc_array cint64 lsns.

Definition decode_fetch_data_req (bytes : list Z) : option (result decode_error (list Z)) :=
  if decide (length bytes < csize fetch_req_hdr_codec)%nat then Some (Err truncated)
  else
    h ← copy_from bytes 0 (csize fetch_req_hdr_codec);
    let count := Z.to_nat (fq_lsn_count (dec fetch_req_hdr_codec h)) in
    let data_sz := (count * 8)%nat in
    if decide (length bytes < csize fetch_req_hdr_codec + data_sz)%nat then Some (Err truncated)
    else
      data ← copy_from bytes (csize fetch_req_hdr_codec) data_sz;
      Some (Ok (dec_array cint64 count data)).

(** ** fetch_data response *)

Definition has_payload (s : JournalSlot) : bool := negb (jl_is_empty s) && negb (jl_all_zeros s).

(** [data_size]: the sum over the iovecs. *)
Definition payload_size (s : JournalSlot) : Z :=
  if has_payload s then u64 (Z.of_nat (length (concat (sg_iovs (jl_data s))))) else 0.

Definition desc_of (s : JournalSlot) : slot_desc :=
  Mk_slot_desc (jl_lsn s) (jl_lba s) (jl_len s) (payload_size s)
    (bool_byte (jl_is_empty s)) (bool_byte (jl_all_zeros s)) [0; 0].

(** A blob points at an iovec with its length cut to 32 bits. *)
Definition blob_of (iov : list Z) : list Z := take (Z.to_nat (u32 (Z.of_nat (length iov)))) iov.

Record fetch_data_rsp_encoded := Mk_rsp_encoded { re_header : list Z; re_data_blobs : list (list Z) }.
Definition blobs (e : fetch_data_rsp_encoded) : list (list Z) :=
  blob_of (re_header e) :: re_data_blobs e.

Definition encode_fetch_data_rsp (slots : list JournalSlot) : fetch_data_rsp_encoded :=
  Mk_rsp_encoded
    (enc fetch_rsp_hdr_codec (Mk_fetch_rsp_hdr (u32 (Z.of_nat (length slots))) 0) ++
     enc_array slot_desc_codec (desc_of <$> slots))
    (slots ≫= λ s, if has_payload s then blob_of <$> sg_iovs (jl_data s) else []).

(** The loop over the descriptors from the [i]-th; [data_offset] is where the next payload
    starts. *)
Fixpoint decode_slots (todo i : nat) (blob : list Z) (data_offset : nat) (slots : list JournalSlot) :
    option (result decode_error (list JournalSlot)) :=
  match todo with
  | O => Some (Ok slots)
  | S todo =>
      d ← copy_from blob (csize fetch_rsp_hdr_codec + i * csize slot_desc_codec) (csize slot_desc_codec);
      let d := dec slot_desc_codec d in
      let slot data := Mk_JournalSlot (sd_lsn d) (negb (sd_is_empty d =? 0)) (negb (sd_all_zeros d =? 0))
                         (sd_lba d) (sd_len d) data None in
      if 0 <? sd_byte_len d then
        if Z.of_nat (length blob) - Z.of_nat data_offset <? sd_byte_len d then Some (Err malformed)
        else
          let n := Z.to_nat (sd_byte_len d) in
          iov ← copy_from blob data_offset n;
          decode_slots todo (S i) blob (data_offset + n) (slots ++ [slot (Mk_sg (sd_byte_len d) [iov])])
      else decode_slots todo (S i) blob data_offset (slots ++ [slot (Mk_sg 0 [])])
  end.

Definition decode_fetch_data_rsp (blob : list Z) : option (result decode_error (list JournalSlot)) :=
  if decide (length blob < csize fetch_rsp_hdr_codec)%nat then Some (Err truncated)
  else
    rh ← copy_from blob 0 (csize fetch_rsp_hdr_codec);
    let count := Z.to_nat (fr_slot_count (dec fetch_rsp_hdr_codec rh)) in
    let desc_bytes := (count * csize slot_desc_codec)%nat in
    if decide (length blob < csize fetch_rsp_hdr_codec + desc_bytes)%nat then Some (Err truncated)
    else decode_slots count 0 blob (csize fetch_rsp_hdr_codec + desc_bytes) [].

(** ** Safety *)

Lemma copy_from_some bytes off n :
  (off + n ≤ length bytes)%nat → copy_from bytes off n = Some (take n (drop off bytes)).
Proof. intros H. unfold copy_from. by rewrite decide_True. Qed.

Lemma decode_slots_safe todo i blob off acc :
  (csize fetch_rsp_hdr_codec + (i + todo) * csize slot_desc_codec ≤ length blob)%nat →
  (off ≤ length blob)%nat → is_Some (decode_slots todo i blob off acc).
Proof.
  destruct peer_struct_sizes as (_ & _ & _ & Hh & Hd). rewrite Hh, Hd.
  revert i off acc. induction todo as [|todo IH]; intros i off acc Hi Ho; cbn [decode_slots]; [by eexists|].
  rewrite Hh, Hd, copy_from_some by lia. cbn [mbind option_bind].
  destruct (Z.ltb_spec 0 (sd_byte_len (dec slot_desc_codec (take 32 (drop (8 + i * 32) blob))))) as [Hp|Hp].
  - destruct (Z.ltb_spec (Z.of_nat (length blob) - Z.of_nat off)
      (sd_byte_len (dec slot_desc_codec (take 32 (drop (8 + i * 32) blob))))); [by eexists|].
    rewrite copy_from_some by lia. cbn [mbind option_bind]. apply IH; lia.
  - apply IH; lia.
Qed.

(** The peer decoders never read outside the buffer they are given: on every byte
    string each returns a value or an error, never an out-of-range read. *)
Theorem peer_decode_safe bytes :
  is_Some (decode_get_rs_commit_lsn_req bytes) ∧ is_Some (decode_get_rs_commit_lsn_rsp bytes) ∧
  is_Some (decode_fetch_data_req bytes) ∧ is_Some (decode_fetch_data_rsp bytes).
Proof.
  destruct peer_struct_sizes as (H1 & H2 & H3 & H4 & H5).
  unfold decode_get_rs_commit_lsn_req, decode_get_rs_commit_lsn_rsp, decode_fetch_data_req,
    decode_fetch_data_rsp. split_and!; case_decide as Hl; try by eexists.
  - rewrite copy_from_some by lia. by eexists.
  - rewrite copy_from_some by lia. by eexists.
  - rewrite copy_from_some by lia. cbn [mbind option_bind]. case_decide; [by eexists|].
    rewrite copy_from_some by lia. by eexists.
  - rewrite copy_from_some by lia. cbn [mbind option_bind]. case_decide; [by eexists|].
    apply decode_slots_safe; lia.
Qed.

(** ** Round trips *)

Lemma copy_prefix pre post n : n = length pre → copy_from (pre ++ post) 0 n = Some pre.
Proof.
  intros ->. rewrite copy_from_some by (rewrite length_app; lia). by rewrite drop_0, take_app_length.
Qed.

Lemma copy_middle pre mid post k n :
  k = length pre → n = length mid → copy_from (pre ++ mid ++ post) k n = Some mid.
Proof.
  intros -> ->. rewrite copy_from_some by (rewrite !length_app; lia).
  by rewrite drop_app_length, take_app_length.
Qed.

Lemma dec_enc_nil {A} (c : codec A) a : cvalid c a → dec c (enc c a) = a.
Proof. intros H. rewrite <-(app_nil_r (enc c a)). by apply dec_enc. Qed.

(** One element of an array of structs. *)
Lemma copy_element {A} (c : codec A) pre l post k a :
  Forall (cvalid c) l → l !! k = Some a →
  copy_from (pre ++ enc_array c l ++ post) (length pre + k * csize c) (csize c) = Some (enc c a).
Proof.
  intros Hv. revert pre k. induction Hv as [|x l Hx Hv IH]; intros pre k Hk; [done|].
  change (enc_array c (x :: l)) with (enc c x ++ enc_array c l).
  rewrite <-(app_assoc (enc c x)). destruct k as [|k].
  - injection Hk as ->. rewrite Nat.add_0_r. by apply copy_middle; rewrite ?enc_length.
  - rewrite (app_assoc pre). specialize (IH (pre ++ enc c x) k Hk). rewrite <-IH. f_equal.
    rewrite length_app, enc_length by done. lia.
Qed.

(** What a receiver sees of a slot: its payload as one iovec. *)
Definition payload (s : JournalSlot) : list Z :=
  if has_payload s then concat (sg_iovs (jl_data s)) else [].
Definition received (s : JournalSlot) : JournalSlot :=
  Mk_JournalSlot (jl_lsn s) (jl_is_empty s) (jl_all_zeros s) (jl_lba s) (jl_len s)
    (match payload s with [] => Mk_sg 0 [] | p => Mk_sg (Z.of_nat (length p)) [p] end) None.

(** The widths of the wire fit the slot. *)
Definition slot_fits (s : JournalSlot) : Prop :=
  in_i64 (jl_lsn s) ∧ in_u 64 (jl_lba s) ∧ in_u 32 (jl_len s) ∧
  in_u 64 (Z.of_nat (length (payload s))) ∧
  Forall (λ iov, in_u 32 (Z.of_nat (length iov))) (sg_iovs (jl_data s)).

Lemma payload_size_fits s : slot_fits s → payload_size s = Z.of_nat (length (payload s)).
Proof.
  intros (_ & _ & _ & Hp & _). unfold payload_size, payload in *. destruct (has_payload s); [|done].
  by apply wrap_small.
Qed.

Lemma desc_valid s : slot_fits s → cvalid slot_desc_codec (desc_of s).
Proof.
  intros H. pose proof (payload_size_fits s H) as Hp. destruct H as (H1 & H2 & H3 & H4 & _).
  unfold desc_of. rewrite Hp. simpl. split_and!; try done; try by (destruct (jl_is_empty s); by_eval).
  destruct (jl_all_zeros s); by_eval.
Qed.

Lemma blob_of_fits iov : in_u 32 (Z.of_nat (length iov)) → blob_of iov = iov.
Proof. intros H. unfold blob_of, u32. rewrite wrap_small, Nat2Z.id, firstn_all by done. done. Qed.

Lemma blobs_payload slots :
  Forall slot_fits slots →
  concat (slots ≫= λ s, if has_payload s then blob_of <$> sg_iovs (jl_data s) else []) =
  concat (payload <$> slots).
Proof.
  induction 1 as [|s slots Hs _ IH]; [done|]. rewrite bind_cons, fmap_cons, concat_app, IH. cbn [concat]. f_equal.
  unfold payload. destruct (has_payload s); [|done]. f_equal.
  destruct Hs as (_ & _ & _ & _ & Hf). rewrite <-(list_fmap_id (sg_iovs (jl_data s))) at 2.
  apply list_fmap_ext. intros i x Hx. apply blob_of_fits. by eapply Forall_lookup_1 in Hf.
Qed.

Lemma decode_slots_spec rest : ∀ i blob off acc tail,
  Forall slot_fits rest →
  (∀ k s, rest !! k = Some s →
     copy_from blob (csize fetch_rsp_hdr_codec + (i + k) * csize slot_desc_codec) (csize slot_desc_codec) =
     Some (enc slot_desc_codec (desc_of s))) →
  drop off blob = concat (payload <$> rest) ++ tail → (off ≤ length blob)%nat →
  decode_slots (length rest) i blob off acc = Some (Ok (acc ++ (received <$> rest))).
Proof.
  induction rest as [|s rest IH]; intros i blob off acc tail Hf Hd Hp Ho; [simpl; by rewrite app_nil_r|].
  apply Forall_cons in Hf as [Hs Hf]. simpl in Hp. rewrite <-app_assoc in Hp.
  cbn [decode_slots length]. pose proof (Hd 0%nat s eq_refl) as H0. rewrite Nat.add_0_r in H0. rewrite H0.
  cbn [mbind option_bind]. rewrite dec_enc_nil by by apply desc_valid.
  assert (∀ k x, rest !! k = Some x → copy_from blob (csize fetch_rsp_hdr_codec + (S i + k) * csize slot_desc_codec)
     (csize slot_desc_codec) = Some (enc slot_desc_codec (desc_of x))) as Hd'.
  { intros k x Hx. specialize (Hd (S k) x Hx). rewrite <-Hd. f_equal. lia. }
  assert (length (drop off blob) = length (payload s ++ concat (payload <$> rest) ++ tail)) as Hlen by (by rewrite Hp).
  rewrite length_drop, length_app in Hlen.
  replace (received <$> s :: rest) with ([received s] ++ (received <$> rest)) by done. rewrite app_assoc.
  assert (negb (sd_is_empty (desc_of s) =? 0) = jl_is_empty s) as -> by (simpl; by destruct (jl_is_empty s)).
  assert (negb (sd_all_zeros (desc_of s) =? 0) = jl_all_zeros s) as -> by (simpl; by destruct (jl_all_zeros s)).
  change (sd_byte_len (desc_of s)) with (payload_size s).
  rewrite payload_size_fits by done. unfold received at 1. destruct (payload s) as [|b p] eqn:Hpay.
  - change (0 <? Z.of_nat (length [])) with false. cbv iota. by rewrite (IH (S i) blob off _ tail).
  - rewrite (proj2 (Z.ltb_lt 0 _)) by (simpl; lia). rewrite (proj2 (Z.ltb_ge _ _)) by lia.
    rewrite Nat2Z.id, copy_from_some by lia. cbn [mbind option_bind]. rewrite Hp, take_app_length.
    rewrite (IH (S i) blob _ _ tail); try done; [by rewrite <-drop_drop, Hp, drop_app_length|lia].
Qed.

Lemma lsn_req_roundtrip term is_login rest :
  in_u 64 term →
  decode_get_rs_commit_lsn_req (encode_get_rs_commit_lsn_req term is_login ++ rest) = Some (Ok (term, is_login)).
Proof.
  intros Ht. unfold decode_get_rs_commit_lsn_req, encode_get_rs_commit_lsn_req. set (w := Mk_lsn_req_wire _ _ _).
  assert (cvalid get_rs_commit_lsn_req_wire_codec w) as Hv.
  { simpl. split_and!; try done; [destruct is_login; by_eval|repeat constructor; by_eval]. }
  pose proof (enc_length _ w Hv). rewrite decide_False by (rewrite length_app; lia).
  rewrite copy_prefix by done. cbn [mbind option_bind]. rewrite dec_enc_nil by done. by destruct is_login.
Qed.

Lemma lsn_rsp_roundtrip lsns rest :
  in_i64 (lp_commit lsns) → in_i64 (lp_last_append lsns) →
  decode_get_rs_commit_lsn_rsp (encode_get_rs_commit_lsn_rsp lsns ++ rest) = Some (Ok lsns).
Proof.
  intros Hc Hl. unfold decode_get_rs_commit_lsn_rsp, encode_get_rs_commit_lsn_rsp. set (w := Mk_lsn_pair_wire _ _).
  assert (cvalid lsn_pair_wire_codec w) as Hv by done. pose proof (enc_length _ w Hv).
  rewrite decide_False by (rewrite length_app; lia).
  rewrite copy_prefix by done. cbn [mbind option_bind]. rewrite dec_enc_nil by done. by destruct lsns.
Qed.

Lemma fetch_req_roundtrip ds rest :
  Forall in_i64 ds → in_u 32 (Z.of_nat (length ds)) →
  decode_fetch_data_req (encode_fetch_data_req ds ++ rest) = Some (Ok ds).
Proof.
  intros Hds Hn. unfold decode_fetch_data_req, encode_fetch_data_req, u32. rewrite wrap_small by done.
  set (h := Mk_fetch_req_hdr _ _). assert (cvalid fetch_req_hdr_codec h) as Hv by (simpl; split; [done|by_eval]).
  pose proof (enc_length _ h Hv) as He. rewrite <-app_assoc. rewrite decide_False by (rewrite length_app; lia).
  rewrite copy_prefix by done. cbn [mbind option_bind]. rewrite dec_enc_nil by done.
  change (fq_lsn_count h) with (Z.of_nat (length ds)). rewrite Nat2Z.id.
  pose proof (length_enc_array cint64 ds Hds) as Ha. change (csize cint64) with 8%nat in Ha.
  rewrite decide_False by (rewrite !length_app; lia). rewrite copy_middle by done. cbn [mbind option_bind].
  rewrite <-(app_nil_r (enc_array cint64 ds)). by rewrite dec_enc_array.
Qed.

Lemma fetch_rsp_roundtrip slots rest :
  Forall slot_fits slots → Z.of_nat (length slots) < 2 ^ 26 →
  decode_fetch_data_rsp (concat (blobs (encode_fetch_data_rsp slots)) ++ rest) = Some (Ok (received <$> slots)).
Proof.
  intros Hf Hs. destruct peer_struct_sizes as (_ & _ & _ & H4 & H5).
  unfold decode_fetch_data_rsp, encode_fetch_data_rsp, blobs. cbn [re_header re_data_blobs concat].
  unfold u32. rewrite wrap_small by (unfold in_u; lia). set (h := Mk_fetch_rsp_hdr _ _).
  assert (cvalid fetch_rsp_hdr_codec h) as Hv by (simpl; split; [unfold in_u; lia|by_eval]).
  pose proof (enc_length _ h Hv) as He.
  assert (Forall (cvalid slot_desc_codec) (desc_of <$> slots)) as Hdv
    by (apply Forall_fmap; eapply Forall_impl; [exact Hf|]; apply desc_valid).
  pose proof (length_enc_array slot_desc_codec _ Hdv) as Ha. rewrite length_fmap in Ha.
  rewrite blob_of_fits by (rewrite length_app; unfold in_u; lia). rewrite blobs_payload by done.
  rewrite <-!app_assoc. rewrite decide_False by (rewrite length_app; lia).
  rewrite copy_prefix by done. cbn [mbind option_bind]. rewrite dec_enc_nil by done.
  change (fr_slot_count h) with (Z.of_nat (length slots)). rewrite Nat2Z.id.
  rewrite decide_False by (rewrite !length_app; lia).
  rewrite (decode_slots_spec slots 0 _ _ [] rest); try done.
  - intros k s Hk. rewrite <-He, Nat.add_0_l. apply copy_element; [done|]. by rewrite list_lookup_fmap, Hk.
  - rewrite <-He, <-Ha, <-drop_drop. by rewrite !drop_app_length.
  - rewrite !length_app. lia.
Qed.

(** The peer verbs survive their encoding.  A commit-lsn request and its answer, a
    fetch request of fewer than 2^32 dLSNs, and a fetch answer of any slots that fit the
    wire decode to what was sent, also when more bytes follow; of a slot the receiver sees
    the flags, the range and the payload, as one buffer. *)
Theorem peer_roundtrip term is_login lsns ds slots rest :
  in_u 64 term → in_i64 (lp_commit lsns) → in_i64 (lp_last_append lsns) →
  Forall in_i64 ds → in_u 32 (Z.of_nat (length ds)) →
  Forall slot_fits slots → Z.of_nat (length slots) < 2 ^ 26 →
  decode_get_rs_commit_lsn_req (encode_get_rs_commit_lsn_req term is_login ++ rest) = Some (Ok (term, is_login)) ∧
  decode_get_rs_commit_lsn_rsp (encode_get_rs_commit_lsn_rsp lsns ++ rest) = Some (Ok lsns) ∧
  decode_fetch_data_req (encode_fetch_data_req ds ++ rest) = Some (Ok ds) ∧
  decode_fetch_data_rsp (concat (blobs (encode_fetch_data_rsp slots)) ++ rest) = Some (Ok (received <$> slots)).
Proof.
  intros. split_and!; [by apply lsn_req_roundtrip|by apply lsn_rsp_roundtrip|by apply fetch_req_roundtrip|].
  by apply fetch_rsp_roundtrip.
Qed.

(** *** Evaluated *)

Definition peer_example_slots : list JournalSlot :=
  [Mk_JournalSlot 3 false false 2 1 (Mk_sg 4 [[1; 2]; [3; 4]]) None;
   Mk_JournalSlot 4 true false 0 0 (Mk_sg 0 []) None;
   Mk_JournalSlot 5 false true 7 2 (Mk_sg 0 []) None].

Lemma peer_roundtrip_witness :
  decode_fetch_data_rsp (concat (blobs (encode_fetch_data_rsp peer_example_slots)) ++ [9]) =
    Some (Ok (received <$> peer_example_slots)).
Proof.
  apply (peer_roundtrip 7 true (Mk_lsn_pair (-1) 5) [3; -1] peer_example_slots [9]);
    [by_eval|by_eval|by_eval|by_eval|by_eval| |by_eval].
  repeat constructor; by_eval.
Defined.
