(* ===== verification/WireTyped.v ===== *)
(** * Decoded structs are within their types

    A receiver copies a struct out of whatever bytes arrived ([wire::decode] of
    [include/craft/wire.hpp]).  Every span of the struct's size is the encoding of exactly
    one value within the widths of its fields, so a decoded header is always one the
    handlers' integer types can hold, and no byte of it is lost. *)

From S2P Require Import Prelude Codec WireTypes PeerCodec.

Local Open Scope craft_scope.

Class Typed {A} (c : codec A) : Prop :=
  typed bs : bytes_ok bs → csize c ≤ length bs → cvalid c (dec c bs) ∧ enc c (dec c bs) = take (csize c) bs.

Section field.
Context (n : nat) (bs : list Z) (Hb : bytes_ok bs) (Hl : n ≤ length bs).

Lemma take_bytes : bytes_ok (take n bs) ∧ length (take n bs) = n.
Proof. split; [by apply Forall_take|rewrite length_take; lia]. Qed.
Lemma field_bound : (0 ≤ le_value (take n bs) < 2 ^ (8 * Z.of_nat n))%Z.
Proof.
  destruct take_bytes as [H1 H2]. pose proof (little_endian_to_Z_bound 8 (take n bs) ltac:(lia) H1) as H.
  rewrite H2 in H. unfold le_value. by rewrite Z.mul_comm.
Qed.
Lemma field_bytes : le_bytes n (le_value (take n bs)) = take n bs.
Proof. destruct take_bytes as [H1 H2]. rewrite <-H2 at 1. by apply le_bytes_value. Qed.
End field.

(** Only the low bytes count. *)
Lemma le_bytes_mod n z : le_bytes n (z `mod` 2 ^ (Z.of_nat n * 8)) = le_bytes n z.
Proof.
  rewrite <-le_value_bytes. rewrite <-(length_le_bytes n z) at 1. apply le_bytes_value, le_bytes_ok.
Qed.

#[export] Instance typed_uint n : Typed (cuint n).
Proof. intros bs Hb Hl. split; [by apply field_bound|by apply field_bytes]. Qed.
#[export] Instance typed_int64 : Typed cint64.
Proof.
  intros bs Hb Hl. simpl in Hl. pose proof (field_bound 8 bs Hb Hl) as Hv. change (8 * Z.of_nat 8)%Z with 64%Z in Hv.
  set (v := le_value (take 8 bs)) in *. assert (in_i64 (to_i64 v)) as Hi.
  { unfold to_i64, in_i64. case_match; lia. }
  split; [exact Hi|]. change (le_bytes 8 (to_i64 v) = take 8 bs). rewrite <-(field_bytes 8 bs Hb Hl). fold v.
  rewrite <-(le_bytes_mod 8 (to_i64 v)), <-(le_bytes_mod 8 v). f_equal. change (2 ^ (Z.of_nat 8 * 8))%Z with (2 ^ 64)%Z.
  unfold to_i64. case_match; [done|]. rewrite <-(Z_mod_plus_full (v - 2 ^ 64) 1). f_equal. lia.
Qed.
#[export] Instance typed_array n : Typed (carray n).
Proof. intros bs Hb Hl. destruct (take_bytes n bs Hb Hl). done. Qed.
#[export] Instance typed_pair {A B} (ca : codec A) (cb : codec B) : Typed ca → Typed cb → Typed (ca ⊗ cb).
Proof.
  intros Ta Tb bs Hb Hl. change (csize ca + csize cb ≤ length bs) in Hl.
  assert (csize ca ≤ length bs) as Hl' by lia. destruct (Ta bs Hb Hl') as [Va Ea].
  destruct (Tb (drop (csize ca) bs)) as [Vb Eb]; [by apply Forall_drop|rewrite length_drop; lia|].
  split; [done|].
  change (enc ca (dec ca bs) ++ enc cb (dec cb (drop (csize ca) bs)) = take (csize ca + csize cb) bs).
  by rewrite Ea, Eb, take_take_drop.
Qed.

(** A struct whose fields are the tuple's. *)
Lemma typed_struct {A B} (c : codec A) (to : B → A) (from : A → B) Hof :
  Typed c → (∀ a, to (from a) = a) → Typed (cstruct c to from Hof).
Proof.
  intros T H bs Hb Hl. destruct (T bs Hb Hl).
  change (cvalid c (to (from (dec c bs))) ∧ enc c (to (from (dec c bs))) = take (csize c) bs). by rewrite H.
Qed.
Ltac struct_typed := apply typed_struct; [apply _|]; intros; repeat match goal with p : _ * _ |- _ => destruct p end; reflexivity.

(** ** The structs of the protocols *)

#[export] Instance typed_req_hdr : Typed req_hdr_codec.
Proof. struct_typed. Qed.

(** A struct type. *)
Inductive wire_struct := ws (A : Type) (c : codec A).
Arguments ws {A} c.
(** The structs of the client protocol and the peer plane, then those of the peer codec. *)
Definition wire_structs : list wire_struct :=
  [ws msg_hdr_codec; ws req_hdr_codec; ws login_req_codec; ws login_rsp_codec; ws helo_req_codec; ws write_req_codec;
   ws write_rsp_codec; ws read_req_codec; ws read_rsp_codec; ws extent_desc_codec; ws keepalive_req_codec;
   ws keepalive_rsp_codec; ws logout_req_codec; ws resolve_req_codec; ws resolve_rsp_codec; ws volume_create_req_codec;
   ws get_rs_commit_lsn_req_codec; ws get_rs_commit_lsn_rsp_codec; ws fetch_data_req_codec; ws fetch_slot_desc_codec;
   ws fetch_data_rsp_codec;
   ws get_rs_commit_lsn_req_wire_codec; ws lsn_pair_wire_codec; ws fetch_req_hdr_codec; ws fetch_rsp_hdr_codec;
   ws slot_desc_codec].

(** Decoding is typed and exact: for every struct the two protocols exchange, any bytes
    of at least its size decode to a value whose every field is within its integer type, and
    encoding that value gives back the bytes it was read from. *)
Theorem wire_decode_typed :
  Forall (λ '(ws c), ∀ bs, bytes_ok bs → csize c ≤ length bs →
    cvalid c (dec c bs) ∧ enc c (dec c bs) = take (csize c) bs) wire_structs.
Proof. unfold wire_structs. repeat (apply Forall_cons; split; [refine (_ : Typed _); struct_typed|]). by apply Forall_nil. Qed.
