(* ===== verification/Raft.v ===== *)
(** * The raft-backed replica

    [src/raft/raft_replica.hpp], [src/raft/raft_replica.cpp], the message payloads of
    [src/raft/raft_state_machine.hpp] and the registry [src/replica_mgr.cpp]: the login
    quiesce barrier, the leader's resolution of missing dLSNs from its peers, the two
    replicated commands with their commit callback, and login.

    What the peers answer, what the raft service reports and whether a proposal is accepted
    are arguments; the commit callback runs on every replica once raft has committed an
    entry and queues a task, which the commit worker runs later ([run_task]). *)

From S2P Require Import Prelude Codec WireTypes Wire Types Replica.
From stdpp Require Import strings pretty.

Local Open Scope craft_scope.
Local Open Scope Z_scope.

(** ** The registry *)

(** [struct replica_info]; the peer connection is in the calls' answers. *)
Record replica_info := Mk_replica_info {
  ri_id : peer_id_t;
  ri_host : list Z;
  ri_raft_port : Z;
  ri_tcp_port : Z;
}.
Record replica_manager := Mk_replica_manager {
  rm_replicas : gmap peer_id_t replica_info;
  rm_volumes : gmap volume_id_t (list peer_id_t);
}.

(** [start_replica_service] with the members its file lists, [None] when the file cannot be
    opened or parsed; [emplace] keeps the first entry of an id. *)
Definition start_replica_service (file : option (list replica_info)) (m : replica_manager) : replica_manager :=
  match file with
  | None => m
  | Some members =>
      Mk_replica_manager
        (foldl (λ rs i, match rs !! ri_id i with Some _ => rs | None => <[ri_id i := i]> rs end) ∅ members)
        (rm_volumes m)
  end.

Definition host_port (host : list Z) (port : Z) : list Z := host ++ string_bytes (":" +:+ pretty port).
Definition lookup_peer (m : replica_manager) (id : peer_id_t) : list Z :=
  match rm_replicas m !! id with
  | Some i => host_port (ri_host i) (ri_raft_port i)
  | None => []
  end.
Definition get_replica (m : replica_manager) (id : peer_id_t) : option replica_info := rm_replicas m !! id.

(** The loop of [register_volume] over the members. *)
Fixpoint known_members (m : replica_manager) (members : list replica_endpoint) : option (list peer_id_t) :=
  match members with
  | [] => Some []
  | e :: members =>
      match rm_replicas m !! ep_id e with
      | None => None
      | Some _ => ids ← known_members m members; Some (ep_id e :: ids)
      end
  end.
Definition register_volume (vol : volume_id_t) (members : list replica_endpoint) (m : replica_manager) :
    result error_condition unit * replica_manager :=
  match known_members m members with
  | None => (Err (ec_craft INTERNAL), m)
  | Some ids => (Ok tt, Mk_replica_manager (rm_replicas m) (<[vol := ids]> (rm_volumes m)))
  end.
(** [replicas_\[m_id\]] of an id without an entry is a default record. *)
Definition get_volume (m : replica_manager) (vol : volume_id_t) : list replica_info :=
  match rm_volumes m !! vol with
  | None => []
  | Some ids => (λ id, default (Mk_replica_info nil_uuid [] 0 0) (rm_replicas m !! id)) <$> ids
  end.

(** ** Replicated commands *)

Record SyncRSCommitLSNMsg := Mk_sync_msg { sm_rs_commit_lsn : Z; sm_client_token : Z; sm_empty_slots : list Z }.
Record InternalLoginMsg := Mk_login_msg { lm_client_token : Z; lm_term : Z; lm_rs_commit_lsn : Z }.

(** [nlohmann::json] as far as the payloads use it: objects with integer and integer-array
    fields, [at] finding the field of a name. *)
Inductive jvalue := j_int (z : Z) | j_ints (l : list Z).
Class Json (J : Type) := {
  j_object : list (string * jvalue) → J;
  j_at : J → string → option jvalue;
  j_at_object fields k : NoDup fields.*1 →
    j_at (j_object fields) k = snd <$> head (filter (λ f, f.1 = k) fields);
}.
Definition get_int (v : jvalue) : option Z := match v with j_int z => Some z | j_ints _ => None end.
Definition get_ints (v : jvalue) : option (list Z) := match v with j_ints l => Some l | j_int _ => None end.

(** [enum class Operation]. *)
Definition op_SyncRSCommitLSN : Z := 0.
Definition op_InternalLogin : Z := 1.

(** What the commit callback queues. *)
Inductive commit_task := task_sync (m : SyncRSCommitLSNMsg) | task_login (m : InternalLoginMsg).

Section json.
Context {J : Type} `{JS : !Json J}.

Definition sync_to_json (m : SyncRSCommitLSNMsg) : J :=
  j_object [("op", j_int op_SyncRSCommitLSN); ("rs_commit_lsn", j_int (sm_rs_commit_lsn m));
            ("client_token", j_int (sm_client_token m)); ("empty_slots", j_ints (sm_empty_slots m))].
Definition sync_from_json (j : J) : option SyncRSCommitLSNMsg :=
  rs ← j_at j "rs_commit_lsn" ≫= get_int;
  tok ← j_at j "client_token" ≫= get_int;
  empties ← j_at j "empty_slots" ≫= get_ints;
  Some (Mk_sync_msg rs tok empties).

Definition login_to_json (m : InternalLoginMsg) : J :=
  j_object [("op", j_int op_InternalLogin); ("client_token", j_int (lm_client_token m));
            ("term", j_int (lm_term m))].
(** The fields it does not set keep their default. *)
Definition login_from_json (j : J) : option InternalLoginMsg :=
  tok ← j_at j "client_token" ≫= get_int;
  term ← j_at j "term" ≫= get_int;
  Some (Mk_login_msg tok term (-1)).

(** The commit callback; a malformed payload or an unknown operation is logged and dropped.
    [None]: the exception of a payload without an integer [op]. *)
Definition commit_cb (j : J) : option (list commit_task) :=
  op ← j_at j "op" ≫= get_int;
  Some (if op =? op_SyncRSCommitLSN then match sync_from_json j with Some m => [task_sync m] | None => [] end
        else if op =? op_InternalLogin then match login_from_json j with Some m => [task_login m] | None => [] end
        else []).
End json.

(** ** State *)

Record RaftReplica := Mk_raft {
  ra_mem : MemCraftReplica;
  ra_max_tx : Z;
  ra_rs_commit_lsn : Z;
  ra_login_done : bool;
  ra_pending_timer : option Z;
  ra_tasks : list commit_task;
}.

(** The constructor, raft enabled or not. *)
Definition mk_raft (ep : replica_endpoint) (page_size max_tx : Z) : RaftReplica :=
  Mk_raft (mk_replica ep page_size) max_tx (-1) false None [].

Definition set_mem (r : RaftReplica) (m : MemCraftReplica) : RaftReplica :=
  Mk_raft m (ra_max_tx r) (ra_rs_commit_lsn r) (ra_login_done r) (ra_pending_timer r) (ra_tasks r).
Definition set_timer (r : RaftReplica) (t : option Z) : RaftReplica :=
  Mk_raft (ra_mem r) (ra_max_tx r) (ra_rs_commit_lsn r) (ra_login_done r) t (ra_tasks r).
Definition set_login_done (r : RaftReplica) (b : bool) : RaftReplica :=
  Mk_raft (ra_mem r) (ra_max_tx r) (ra_rs_commit_lsn r) b (ra_pending_timer r) (ra_tasks r).
Definition set_rs_commit (r : RaftReplica) (c : Z) : RaftReplica :=
  Mk_raft (ra_mem r) (ra_max_tx r) c (ra_login_done r) (ra_pending_timer r) (ra_tasks r).
Definition set_mem_term (m : MemCraftReplica) (term : Z) : MemCraftReplica :=
  set_state m (Mk_ps (commit_of m) (append_of m) (ps_client_token (state_ m)) term).
Definition token_of (m : MemCraftReplica) : Z := ps_client_token (state_ m).

(** ** The quiesce barrier *)

(** What the timer's callback captures. *)
Record quiesce := Mk_quiesce { q_restore : Z; q_term : Z }.

(** [do_get_rs_commit_lsn]: the answer, the timer it cancels and the callback it arms; the
    lock is released around the arming, after which [quiesce_armed] records the id. *)
Definition get_rs_commit_lsn_begin (r : RaftReplica) (term : Z) (is_login : bool) :
    lsn_pair * option Z * option quiesce * RaftReplica :=
  let ret := lsns_of (ra_mem r) in
  if negb is_login then (ret, None, None, r)
  else (ret, ra_pending_timer r, Some (Mk_quiesce (term_of (ra_mem r)) term),
        set_mem r (set_mem_term (ra_mem r) term)).
Definition quiesce_armed (r : RaftReplica) (timer_id : Z) : RaftReplica := set_timer r (Some timer_id).
Definition do_get_rs_commit_lsn (r : RaftReplica) (term : Z) (is_login : bool) (timer_id : Z) :
    lsn_pair * RaftReplica :=
  let '(ret, _, armed, r) := get_rs_commit_lsn_begin r term is_login in
  (ret, match armed with Some _ => quiesce_armed r timer_id | None => r end).

(** The callback. *)
Definition quiesce_timeout (q : quiesce) (r : RaftReplica) : RaftReplica :=
  if term_of (ra_mem r) =? q_term q then set_mem r (set_mem_term (ra_mem r) (q_restore q)) else r.

Definition srv_session_info (r : RaftReplica) : Z * Z := (term_of (ra_mem r), token_of (ra_mem r)).
Definition srv_fetch_data (r : RaftReplica) (lsns : list Z) : list JournalSlot := do_fetch (ra_mem r) lsns.

(** ** Resolution *)

Definition raft_take_payload (s : sg_list) : list Z := concat (sg_iovs s).
Definition to_mem_journal_slot (j : JournalSlot) (term : Z) : MemJournalSlot :=
  Mk_slot term (jl_lba j) (jl_len j) (jl_all_zeros j) (jl_is_empty j)
    (match jl_owned_data j with
     | Some b => Some b
     | None => if 0 <? sg_size (jl_data j) then Some (raft_take_payload (jl_data j)) else None
     end).

(** The loop of [get_missing_slots] over the journal's entries from [expect] up. *)
Fixpoint missing_loop (es : list Z) (expect watermark : Z) (missing : list Z) : list Z :=
  match es with
  | [] => missing ++ range expect watermark
  | k :: es =>
      if k <=? watermark then missing_loop es (k + 1) watermark (missing ++ range expect (k - 1))
      else missing ++ range expect watermark
  end.
Definition get_missing_slots (m : MemCraftReplica) (watermark : Z) : list Z :=
  let expect := commit_of m + 1 in
  missing_loop (filter (λ k, expect ≤ k) (entries (journal_ m)).*1) expect watermark [].

(** [find_if] for the slot of a dLSN. *)
Definition find_slot (lsn : Z) (resp : list JournalSlot) : option JournalSlot :=
  head (filter (λ s, jl_lsn s = lsn) resp).

(** The loop over the responses for one dLSN: how many members lack it, and the first copy. *)
Fixpoint survey (lsn : Z) (responses : list (list JournalSlot)) (lacks : nat) : nat * option JournalSlot :=
  match responses with
  | [] => (lacks, None)
  | resp :: responses =>
      match find_slot lsn resp with
      | None => survey lsn responses (S lacks)
      | Some s => if jl_is_empty s then survey lsn responses (S lacks) else (lacks, Some s)
      end
  end.

(** One dLSN of [resolve_and_apply]; [n] is the size of the volume's member list. *)
Record resolution := Mk_resolution { rn_mem : MemCraftReplica; rn_empty : list Z; rn_stalled : Z }.
Definition resolve_one (n : nat) (responses : list (list JournalSlot)) (term : Z) (acc : resolution) (lsn : Z) :
    resolution :=
  let '(lacks, copy) := survey lsn responses 1 in
  let m := match copy with
           | Some s => cold_install_slot lsn (to_mem_journal_slot s term) (rn_mem acc)
           | None => rn_mem acc
           end in
  if decide (n / 2 + 1 ≤ lacks)%nat then Mk_resolution m (rn_empty acc ++ [lsn]) (rn_stalled acc)
  else match copy with
       | Some _ => Mk_resolution m (rn_empty acc) (rn_stalled acc)
       | None => Mk_resolution m (rn_empty acc)
                   (if rn_stalled acc =? -1 then lsn else Z.min lsn (rn_stalled acc))
       end.

(** [responses]: the answers of the peers that answered. *)
Definition resolve_and_apply (m : MemCraftReplica) (n : nat) (responses : list (list JournalSlot))
    (watermark term : Z) : resolution :=
  foldl (resolve_one n responses term) (Mk_resolution m [] (-1)) (get_missing_slots m watermark).

(** [sync_rs_commit_lsn]: also the message it proposes; [accepted] is the proposal's result. *)
Definition sync_rs_commit_lsn (m : MemCraftReplica) (n : nat) (responses : list (list JournalSlot))
    (rs_commit_lsn client_token term : Z) (accepted : result error_condition unit) :
    result error_condition unit * option SyncRSCommitLSNMsg * MemCraftReplica :=
  let res := resolve_and_apply m n responses rs_commit_lsn term in
  if negb (rn_stalled res =? -1) then (Err (ec_craft INTERNAL), None, rn_mem res)
  else (accepted, Some (Mk_sync_msg rs_commit_lsn client_token (rn_empty res)), rn_mem res).

(** ** Login *)

(** What the raft service, the registry and the peers answer during one login. *)
Record login_env := Mk_login_env {
  le_enabled : bool;
  le_is_leader : bool;
  le_leader_id : peer_id_t;
  le_members : list replica_info;
  le_polls : list (result error_condition lsn_pair);
  le_responses : list (list JournalSlot);
  le_sync_accepted : result error_condition unit;
  le_login_accepted : result error_condition unit;
  le_committed : bool;
}.

(** Phase 1: the watermarks of the answering members, this one's first. *)
Definition login_poll (m : MemCraftReplica) (polls : list (result error_condition lsn_pair)) : list lsn_pair :=
  lsns_of m :: omap (λ r, match r with Ok p => Some p | Err _ => None end) polls.
(** [max_element] by [last_append_lsn]. *)
Definition max_append (ps : list lsn_pair) : Z :=
  match ps with [] => 0 | p :: ps => foldl (λ a q, Z.max a (lp_last_append q)) (lp_last_append p) ps end.

Definition login_members (ms : list replica_info) : list replica_endpoint :=
  (λ i, Mk_endpoint (ri_id i) (host_port (ri_host i) (ri_tcp_port i))) <$> ms.

(** The result, the messages proposed in order, and the replica. *)
Definition apply_login (e : login_env) (r : RaftReplica) (client_token term : Z) :
    result error_condition LoginResult * option SyncRSCommitLSNMsg * option InternalLoginMsg * RaftReplica :=
  let m := ra_mem r in
  if negb (le_enabled e) then
    (Ok (Mk_LoginResult [ep_ m] (append_of m) 0 0 0 nil_uuid 0), None, None,
     set_mem r (set_state m (Mk_ps (commit_of m) (append_of m) client_token term)))
  else if negb (le_is_leader e) then
    (Ok (Mk_LoginResult [] (-1) 0 0 0 (le_leader_id e) 0), None, None, r)
  else
    let current_term := term_of m in
    let peer_resp := login_poll m (le_polls e) in
    let n := length (le_members e) in
    if decide (length peer_resp ≤ n / 2)%nat then (Err (ec_craft NO_QUORUM), None, None, r)
    else
      let rs_commit_lsn := max_append peer_resp in
      let '(synced, sync_msg, m) :=
        sync_rs_commit_lsn m n (le_responses e) rs_commit_lsn client_token current_term (le_sync_accepted e) in
      let r := set_mem r m in
      match synced with
      | Err er => (Err er, sync_msg, None, r)
      | Ok _ =>
          let r := set_login_done r false in
          let msg := Mk_login_msg client_token term rs_commit_lsn in
          match le_login_accepted e with
          | Err er => (Err er, sync_msg, Some msg, r)
          | Ok _ =>
              if le_committed e
              then (Ok (Mk_LoginResult (login_members (le_members e)) rs_commit_lsn 0 0 0 nil_uuid 0),
                    sync_msg, Some msg, r)
              else (Err (ec_craft INTERNAL), sync_msg, Some msg, r)
          end
      end.

(** ** Commits *)

(** One peer's answer in [apply_sync]: the [erase_if] over the missing dLSNs. *)
Definition sync_one (term : Z) (resp : list JournalSlot) (acc : MemCraftReplica * list Z) (lsn : Z) :
    MemCraftReplica * list Z :=
  let '(m, missing) := acc in
  match find_slot lsn resp with
  | None => (m, missing ++ [lsn])
  | Some s =>
      if jl_is_empty s then (cold_mark_empty lsn m, missing)
      else (cold_install_slot lsn (to_mem_journal_slot s term) m, missing)
  end.
(** A peer: what [fetch_data] of a request answers, [None] when the call fails. *)
Definition fetch_peer := list Z → option (list JournalSlot).
(** The loop over the peers; once nothing is missing it stops. *)
Definition sync_peer (term : Z) (acc : MemCraftReplica * list Z) (peer : fetch_peer) :
    MemCraftReplica * list Z :=
  match acc.2 with
  | [] => acc
  | missing =>
      match peer missing with
      | None => acc
      | Some resp => foldl (sync_one term resp) (acc.1, []) missing
      end
  end.
Definition apply_sync (peers : list fetch_peer) (r : RaftReplica) (msg : SyncRSCommitLSNMsg) :
    RaftReplica :=
  let m := foldl (λ m lsn, cold_mark_empty lsn m) (ra_mem r) (sm_empty_slots msg) in
  let term := term_of m in
  let '(m, _) := foldl (sync_peer term) (m, get_missing_slots m (sm_rs_commit_lsn msg)) peers in
  set_rs_commit (set_mem r (apply_up_to (sm_rs_commit_lsn msg) m)) (sm_rs_commit_lsn msg).

Definition internal_login (r : RaftReplica) (msg : InternalLoginMsg) : RaftReplica :=
  let m := ra_mem r in
  let m := set_state m (Mk_ps (commit_of m) (append_of m) (lm_client_token msg) (lm_term msg)) in
  let m := if 0 <=? lm_rs_commit_lsn msg then cold_truncate_above (lm_rs_commit_lsn msg) m else m in
  set_login_done (set_timer (set_mem r m) None) true.

(** The commit worker: [push_task] and one iteration of [run]. *)
Definition push_task (r : RaftReplica) (t : commit_task) : RaftReplica :=
  Mk_raft (ra_mem r) (ra_max_tx r) (ra_rs_commit_lsn r) (ra_login_done r) (ra_pending_timer r) (ra_tasks r ++ [t]).
Definition pop_task (r : RaftReplica) : option (commit_task * RaftReplica) :=
  match ra_tasks r with
  | [] => None
  | t :: ts => Some (t, Mk_raft (ra_mem r) (ra_max_tx r) (ra_rs_commit_lsn r) (ra_login_done r) (ra_pending_timer r) ts)
  end.
Definition run_task (peers : list fetch_peer) (r : RaftReplica) (t : commit_task) : RaftReplica :=
  match t with task_sync m => apply_sync peers r m | task_login m => internal_login r m end.

(** [srv_create_volume]; [created] is the raft service's result. *)
Definition srv_create_volume (created : result error_condition unit) (vol : volume_id_t)
    (members : list replica_endpoint) (g : replica_manager) : result error_condition unit * replica_manager :=
  match get_volume g vol with
  | _ :: _ => (Ok tt, g)
  | [] =>
      match created with
      | Ok _ => (Ok tt, (register_volume vol members g).2)
      | Err e => (Err e, g)
      end
  end.
