(* ===== verification/RaftSpec.v ===== *)
(** * What the raft-backed replica promises

    [get_missing_slots] is exact; a resolution round decides every missing dLSN and never
    voids a write that a quorum holds; a successful login starts at or above every such
    write; a follower that finds every slot somewhere commits the whole round. *)

From S2P Require Import Prelude Codec WireTypes Wire Types Replica ReplicaSpec Raft.

Local Open Scope craft_scope.
Local Open Scope Z_scope.

(** ** Missing slots *)

Lemma missing_loop_spec es expect w acc :
  StronglySorted Z.lt es → Forall (λ k, expect ≤ k) es →
  missing_loop es expect w acc = acc ++ filter (λ d, d ∉ es) (range expect w).
Proof.
  intros Hs. revert expect acc. induction Hs as [|k es Hs IH Hall]; intros expect acc Hge; simpl.
  { rewrite filter_all; [done|]. intros x _. apply not_elem_of_nil. }
  apply Forall_cons in Hge as [Hk Hge]. rewrite Forall_forall in Hall.
  destruct (Z.leb_spec k w) as [Hkw|Hkw].
  - rewrite IH by (apply Forall_forall; intros x Hx; specialize (Hall x Hx); lia).
    rewrite <-app_assoc. f_equal. rewrite (range_app expect (k - 1) w) by lia.
    replace (k - 1 + 1) with k by lia. rewrite (range_cons k w) by lia. rewrite filter_app, filter_cons.
    rewrite (decide_False (P := k ∉ k :: es)) by (intros H; apply H; left). f_equal.
    + symmetry. apply filter_all. intros x Hx%elem_of_range [->|Hin]%elem_of_cons; [lia|].
      specialize (Hall x Hin). lia.
    + apply list_filter_ext_in. intros x Hx%elem_of_range. rewrite not_elem_of_cons. split; [|tauto].
      intros Hx'. split; [lia|done].
  - f_equal. symmetry. apply filter_all. intros x Hx%elem_of_range [->|Hin]%elem_of_cons; [lia|].
    specialize (Hall x Hin). lia.
Qed.

Lemma missing_exact m w :
  get_missing_slots m w = filter (λ d, journal_ m !! d = None) (range (commit_of m + 1) w).
Proof.
  unfold get_missing_slots. rewrite missing_loop_spec.
  - simpl. apply list_filter_ext_in. intros x Hx%elem_of_range. rewrite list_elem_of_filter.
    rewrite eq_None_not_Some. split; intros H1 H2; apply H1.
    + split; [lia|]. destruct H2 as [s Hs]. apply elem_of_entries in Hs.
      by apply (list_elem_of_fmap_2 fst) in Hs.
    + destruct H2 as [_ Hin]. apply list_elem_of_fmap in Hin as ([d s] & -> & Hds).
      apply elem_of_entries in Hds. by exists s.
  - apply StronglySorted_filter, entries_sorted.
  - apply Forall_forall. by intros x [? _]%list_elem_of_filter.
Qed.

Lemma elem_of_missing m w d :
  d ∈ get_missing_slots m w ↔ commit_of m < d ≤ w ∧ journal_ m !! d = None.
Proof. rewrite missing_exact, list_elem_of_filter, elem_of_range. split; intros; split; try tauto; lia. Qed.

Lemma missing_NoDup m w : NoDup (get_missing_slots m w).
Proof. rewrite missing_exact. apply NoDup_filter, NoDup_range. Qed.

(** ** The survey of the answers *)

(** The answer has no copy: the slot is left out or Empty. *)
Definition lacks_slot (lsn : Z) (resp : list JournalSlot) : bool :=
  match find_slot lsn resp with None => true | Some s => jl_is_empty s end.

Lemma survey_spec lsn responses k :
  ((survey lsn responses k).1 ≤ k + length (filter (λ r, lacks_slot lsn r = true) responses))%nat ∧
  match (survey lsn responses k).2 with
  | Some s => ∃ resp, resp ∈ responses ∧ find_slot lsn resp = Some s ∧ jl_is_empty s = false
  | None => Forall (λ r, lacks_slot lsn r = true) responses
  end.
Proof.
  revert k. induction responses as [|resp responses IH]; intros k; simpl; [split; [lia|constructor]|].
  rewrite filter_cons. destruct (find_slot lsn resp) as [s|] eqn:Hf; [destruct (jl_is_empty s) eqn:He|].
  1,3: assert (lacks_slot lsn resp = true) as Hl by (unfold lacks_slot; by rewrite Hf);
    rewrite decide_True by done; destruct (IH (S k)) as [H1 H2]; (split; [simpl; lia|]);
    destruct (survey lsn responses (S k)).2; [destruct H2 as (r & Hr & ?); exists r; split; [by right|done]|];
    by constructor.
  simpl. split; [lia|]. exists resp. split_and!; [by left|done|done].
Qed.

(** ** A round of the leader *)

Lemma install_lookup d s m i :
  journal_ (cold_install_slot d s m) !! i =
    match journal_ m !! i with Some x => Some x | None => if decide (i = d) then Some s else None end.
Proof.
  unfold cold_install_slot. destruct (decide (is_Some (journal_ m !! d))) as [[x Hx]|Hn]; simpl.
  - destruct (journal_ m !! i) eqn:Hi; [done|]. rewrite decide_False; [done|]. intros ->. congruence.
  - rewrite <-eq_None_not_Some in Hn. rewrite lookup_insert. destruct (decide (d = i)) as [->|Hne].
    + by rewrite Hn, decide_True.
    + destruct (journal_ m !! i); [done|]. by rewrite decide_False by done.
Qed.

Lemma install_params d s m :
  commit_of (cold_install_slot d s m) = commit_of m ∧ term_of (cold_install_slot d s m) = term_of m ∧
  append_of m ≤ append_of (cold_install_slot d s m).
Proof. unfold cold_install_slot. case_decide; [done|]. split_and!; try done. unfold append_of. simpl. lia. Qed.

(** dLSN [d] is voided by the answers. *)
Definition voids (n : nat) (responses : list (list JournalSlot)) (d : Z) : bool :=
  bool_decide (n / 2 + 1 ≤ (survey d responses 1).1)%nat.

Lemma resolve_one_spec n responses term acc d :
  let res := resolve_one n responses term acc d in
  rn_empty res = rn_empty acc ++ (if voids n responses d then [d] else []) ∧
  (∀ i, journal_ (rn_mem res) !! i =
     match journal_ (rn_mem acc) !! i with
     | Some x => Some x
     | None => if decide (i = d) then (λ s, to_mem_journal_slot s term) <$> (survey d responses 1).2 else None
     end) ∧
  commit_of (rn_mem res) = commit_of (rn_mem acc) ∧ term_of (rn_mem res) = term_of (rn_mem acc) ∧
  (rn_stalled res = -1 → 0 ≤ d →
     rn_stalled acc = -1 ∧ (voids n responses d = false → is_Some (survey d responses 1).2)).
Proof.
  unfold resolve_one, voids. destruct (survey d responses 1) as [lacks [s|]]; cbn [fst snd];
    [pose proof (install_params d (to_mem_journal_slot s term) (rn_mem acc)) as (H1 & H2 & _)|];
    destruct (decide (n / 2 + 1 ≤ lacks)%nat) as [Hq|Hq];
    rewrite ?(bool_decide_eq_true_2 _ Hq), ?(bool_decide_eq_false_2 _ Hq); cbn [rn_empty rn_mem rn_stalled];
    rewrite ?app_nil_r; split_and!; try done; intros.
  1,2: rewrite install_lookup; destruct (journal_ (rn_mem acc) !! i); [done|]; by case_decide.
  1,2: destruct (journal_ (rn_mem acc) !! i); [done|]; by case_decide.
  all: case_match; lia.
Qed.

Lemma resolve_fold n responses term l acc :
  Forall (λ d, 0 ≤ d) l →
  let res := foldl (resolve_one n responses term) acc l in
  rn_empty res = rn_empty acc ++ filter (λ d, voids n responses d = true) l ∧
  (∀ i, journal_ (rn_mem res) !! i =
     match journal_ (rn_mem acc) !! i with
     | Some x => Some x
     | None => if decide (i ∈ l) then (λ s, to_mem_journal_slot s term) <$> (survey i responses 1).2 else None
     end) ∧
  commit_of (rn_mem res) = commit_of (rn_mem acc) ∧ term_of (rn_mem res) = term_of (rn_mem acc) ∧
  (rn_stalled res = -1 →
     rn_stalled acc = -1 ∧ ∀ d, d ∈ l → voids n responses d = false → is_Some (survey d responses 1).2).
Proof.
  intros Hl. revert acc. induction Hl as [|d l Hd Hl IH]; intros acc.
  { cbn. rewrite app_nil_r. split_and!; try done.
    - intros i. by destruct (journal_ (rn_mem acc) !! i).
    - intros H. split; [done|]. intros d Hd. by apply not_elem_of_nil in Hd. }
  destruct (resolve_one_spec n responses term acc d) as (E1 & J1 & C1 & T1 & S1).
  destruct (IH (resolve_one n responses term acc d)) as (E2 & J2 & C2 & T2 & S2).
  cbn [foldl]. rewrite E2, E1, C2, C1, T2, T1, filter_cons, <-app_assoc. split_and!; try done.
  - f_equal. destruct (voids n responses d); [by rewrite decide_True|by rewrite decide_False].
  - intros i. rewrite J2, J1. destruct (journal_ (rn_mem acc) !! i); [done|].
    destruct (decide (i = d)) as [->|Hne].
    + rewrite (decide_True (P := d ∈ d :: l)) by left. destruct ((survey d responses 1).2); [done|]. simpl.
      by case_decide.
    + destruct (decide (i ∈ l)); [by rewrite decide_True by by right|].
      rewrite decide_False; [done|]. by intros [?|?]%elem_of_cons.
  - intros Hst. destruct (S2 Hst) as [Ha Hb]. destruct (S1 Ha Hd) as [Hc Hd']. split; [done|].
    intros i [->|Hi]%elem_of_cons; auto.
Qed.

(** ** Quorums *)

(** The member's journal has data for the dLSN. *)
Definition holds_data (d : Z) (m : MemCraftReplica) : bool :=
  match journal_ m !! d with Some s => negb (js_is_empty s) | None => false end.
Definition held_by (d : Z) (ms : list MemCraftReplica) : nat := length (filter (λ m, holds_data d m = true) ms).

Lemma find_slot_fetch d p lsns :
  d ∈ lsns → find_slot d (do_fetch p lsns) = fetch_slot d <$> journal_ p !! d.
Proof.
  unfold find_slot, do_fetch. induction lsns as [|x lsns IH]; [by intros ?%not_elem_of_nil|].
  intros Hd. simpl. destruct (decide (d = x)) as [<-|Hne].
  - destruct (journal_ p !! d) as [s|] eqn:Hs; simpl.
    + by rewrite filter_cons, decide_True.
    + clear IH Hd. induction lsns as [|y lsns IH]; [done|]. simpl.
      destruct (journal_ p !! y) as [s|] eqn:Hy; simpl; [|done].
      rewrite filter_cons, decide_False; [done|]. intros Heq. simpl in Heq. congruence.
  - apply elem_of_cons in Hd as [?|Hd]; [done|]. destruct (journal_ p !! x); simpl; [|by apply IH].
    rewrite filter_cons, decide_False by (simpl; congruence). by apply IH.
Qed.

Lemma lacks_fetch d p lsns : d ∈ lsns → lacks_slot d (do_fetch p lsns) = negb (holds_data d p).
Proof.
  intros Hd. unfold lacks_slot, holds_data. rewrite find_slot_fetch by done.
  destruct (journal_ p !! d) as [s|]; [|done]. simpl. by rewrite negb_involutive.
Qed.

Lemma filter_negb {A} (f : A → bool) l :
  (length (filter (λ x, f x = true) l) + length (filter (λ x, negb (f x) = true) l) = length l)%nat.
Proof.
  induction l as [|x l IH]; [done|]. rewrite !filter_cons. destruct (f x); simpl; lia.
Qed.

Lemma sublist_filter_length {A} (f : A → bool) l k :
  l `sublist_of` k → (length (filter (λ x, f x = true) l) ≤ length (filter (λ x, f x = true) k))%nat.
Proof. induction 1 as [|x l k H IH|x l k H IH]; [done|..]; rewrite !filter_cons; destruct (f x); simpl; lia. Qed.

Lemma quorum_half n : (n < 2 * (n / 2 + 1))%nat.
Proof. pose proof (Nat.div_mod_eq n 2). pose proof (Nat.mod_upper_bound n 2). lia. Qed.

(** More than half of the members and a quorum of holders have one in common. *)
Lemma majority_meets {A} (f : A → bool) l k :
  l `sublist_of` k → (length k / 2 < length l)%nat →
  (length k / 2 + 1 ≤ length (filter (λ x, f x = true) k))%nat → ∃ x, x ∈ l ∧ f x = true.
Proof.
  intros Hs Hl Hk. destruct (filter (λ x, f x = true) l) as [|x l'] eqn:Hf.
  - pose proof (filter_negb f l). pose proof (filter_negb f k).
    pose proof (sublist_filter_length (λ x, negb (f x)) l k Hs). pose proof (quorum_half (length k)).
    rewrite Hf in *. simpl in *. lia.
  - assert (x ∈ filter (λ x, f x = true) l) as Hx by (rewrite Hf; left).
    apply list_elem_of_filter in Hx as [? ?]. eauto.
Qed.

(** A write that a quorum of the others holds is not voided. *)
Lemma voids_quorum others responders d lsns :
  responders `sublist_of` others → d ∈ lsns → (S (length others) / 2 + 1 ≤ held_by d others)%nat →
  voids (S (length others)) ((λ p, do_fetch p lsns) <$> responders) d = false.
Proof.
  intros Hs Hd Hq. unfold voids. apply bool_decide_eq_false. intros Hv.
  destruct (survey_spec d ((λ p, do_fetch p lsns) <$> responders) 1) as [Hle _].
  assert (length (filter (λ r, lacks_slot d r = true) ((λ p, do_fetch p lsns) <$> responders)) =
          length (filter (λ p, negb (holds_data d p) = true) responders)) as Heq.
  { clear -Hd. induction responders as [|p l IH]; [done|]. rewrite fmap_cons, !filter_cons, lacks_fetch by done.
    destruct (negb (holds_data d p)); simpl; by rewrite IH. }
  pose proof (sublist_filter_length (λ p, negb (holds_data d p)) responders others Hs).
  pose proof (filter_negb (holds_data d) others). pose proof (quorum_half (S (length others))).
  unfold held_by in Hq. rewrite Heq in Hle. lia.
Qed.

Lemma resolve_spec m n responses w term :
  -1 ≤ commit_of m →
  let res := resolve_and_apply m n responses w term in
  rn_empty res = filter (λ d, voids n responses d = true) (get_missing_slots m w) ∧
  (∀ i, journal_ (rn_mem res) !! i =
     match journal_ m !! i with
     | Some x => Some x
     | None => if decide (i ∈ get_missing_slots m w)
               then (λ s, to_mem_journal_slot s term) <$> (survey i responses 1).2 else None
     end) ∧
  commit_of (rn_mem res) = commit_of m ∧ term_of (rn_mem res) = term_of m ∧
  (rn_stalled res = -1 → ∀ d, d ∈ get_missing_slots m w → voids n responses d = false →
     is_Some (survey d responses 1).2).
Proof.
  intros Hc. destruct (resolve_fold n responses term (get_missing_slots m w) (Mk_resolution m [] (-1)))
    as (E & J & C & T & S).
  - apply Forall_forall. intros d [? _]%elem_of_missing. lia.
  - unfold resolve_and_apply. split_and!; try done. intros Hst. by apply S.
Qed.

(** ** The answers of one login *)

Lemma max_append_ge ps p : p ∈ ps → lp_last_append p ≤ max_append ps.
Proof.
  destruct ps as [|q ps]; [by intros ?%not_elem_of_nil|]. simpl.
  assert (∀ l a, a ≤ foldl (λ a q, Z.max a (lp_last_append q)) a l) as Hmono.
  { induction l as [|x l IH]; intros a; simpl; [lia|]. etrans; [|apply IH]. lia. }
  intros [->|Hin]%elem_of_cons; [apply Hmono|]. revert Hin. generalize (lp_last_append q).
  induction ps as [|x ps IH]; intros a; [by intros ?%not_elem_of_nil|]. simpl.
  intros [->|Hin]%elem_of_cons; [etrans; [|apply Hmono]; lia|by apply IH].
Qed.

Section login.
Context (e : login_env) (r : RaftReplica) (others polled fetched : list MemCraftReplica).
Let m := ra_mem r.
Let n := S (length others).
Let L := max_append (login_poll m (le_polls e)).
Context (Henabled : le_enabled e = true) (Hleader : le_is_leader e = true).
Context (Hmembers : length (le_members e) = n).
Context (Hpolled : polled `sublist_of` others) (Hfetched : fetched `sublist_of` others).
Context (Hpolls : login_poll m (le_polls e) = lsns_of <$> m :: polled).
Context (Hresponses : le_responses e = (λ p, do_fetch p (get_missing_slots m L)) <$> fetched).
Context (Hm : replica_inv m) (Hothers : Forall replica_inv others).

(** A write held by a quorum is at or below the watermark. *)
Lemma login_watermark d :
  (n / 2 < S (length polled))%nat → (n / 2 + 1 ≤ held_by d (m :: others))%nat → d ≤ L.
Proof.
  intros Hl Hq. destruct (majority_meets (holds_data d) (m :: polled) (m :: others)) as (p & Hp & Hh).
  - by constructor.
  - exact Hl.
  - exact Hq.
  - assert (replica_inv p) as Ip.
    { apply elem_of_cons in Hp as [->|Hp]; [done|]. rewrite Forall_forall in Hothers. apply Hothers.
      by eapply elem_of_sublist. }
    assert (is_Some (journal_ p !! d)) as Hs by (unfold holds_data in Hh; destruct (journal_ p !! d); [eauto|done]).
    apply (rv_append p Ip) in Hs. etrans; [exact Hs|]. unfold L. rewrite Hpolls.
    apply (max_append_ge _ (lsns_of p)). by apply list_elem_of_fmap_2.
Qed.

(** The round neither voids it nor leaves the leader without it. *)
Lemma login_round d :
  let res := resolve_and_apply m n (le_responses e) L (term_of m) in
  rn_stalled res = -1 → 0 ≤ d ≤ L → (n / 2 + 1 ≤ held_by d (m :: others))%nat →
  (∀ s, journal_ m !! d = Some s → js_is_empty s = false) →
  d ∉ rn_empty res ∧ holds_data d (rn_mem res) = true.
Proof.
  intros res Hst Hd Hq Hne. destruct (resolve_spec m n (le_responses e) L (term_of m)) as (E & J & _ & _ & S);
    [by destruct (rv_commit m Hm)|]. fold res in E, J, S. rewrite E.
  destruct (journal_ m !! d) as [s|] eqn:Hs.
  - split; [intros [_ [_ Hn]%elem_of_missing]%list_elem_of_filter; congruence|].
    unfold holds_data. by rewrite J, Hs, Hne.
  - assert (d ∈ get_missing_slots m L) as Hmiss.
    { apply elem_of_missing. split; [|done]. destruct (decide (d ≤ commit_of m)); [|lia].
      destruct (rv_prefix m Hm d) as [x Hx]; [lia|congruence]. }
    assert (voids n (le_responses e) d = false) as Hv.
    { rewrite Hresponses. apply voids_quorum; try done. unfold held_by in Hq. rewrite filter_cons in Hq.
      rewrite decide_False in Hq; [done|]. unfold holds_data. by rewrite Hs. }
    split; [by intros [? _]%list_elem_of_filter; congruence|].
    unfold holds_data. rewrite J, Hs, decide_True by done. destruct (S Hst d Hmiss Hv) as [x Hx]. rewrite Hx. simpl.
    destruct (survey_spec d (le_responses e) 1) as [_ Hsv]. rewrite Hx in Hsv.
    destruct Hsv as (_ & _ & _ & ->). done.
Qed.

(** C13: A login that succeeds on the raft leader loses no acknowledged write. The leader
    [m] polls and asks any members [polled] and [fetched] of the others, whose states do not
    change meanwhile; a dLSN that a quorum of the members holds and the leader has not voided
    is then at or below the watermark the client resumes from, is not among the dLSNs the
    round voids, and is in the leader's journal; both replicated commands carry that
    watermark. *)
Theorem raft_login_covers tok term lr sync log r' :
  apply_login e r tok term = (Ok lr, sync, log, r') →
  (∃ empties, sync = Some (Mk_sync_msg (lg_dLSN lr) tok empties) ∧ log = Some (Mk_login_msg tok term (lg_dLSN lr)) ∧
     ∀ d, 0 ≤ d → (n / 2 + 1 ≤ held_by d (m :: others))%nat →
       (∀ s, journal_ m !! d = Some s → js_is_empty s = false) →
       d ≤ lg_dLSN lr ∧ d ∉ empties ∧ holds_data d (ra_mem r') = true).
Proof.
  unfold apply_login. fold m. rewrite Henabled, Hleader, Hmembers. cbn [negb].
  case_decide as Hl; [done|]. unfold sync_rs_commit_lsn. fold L.
  destruct (Z.eqb_spec (rn_stalled (resolve_and_apply m n (le_responses e) L (term_of m))) (-1)) as [Hst|];
    [|done]. cbn [negb].
  destruct (le_sync_accepted e); [|done]. destruct (le_login_accepted e); [|done].
  destruct (le_committed e); [|done]. intros [= <- <- <- <-]. cbn [lg_dLSN ra_mem set_mem set_login_done].
  eexists. split_and!; [done|done|]. intros d Hd Hq Hne.
  assert (d ≤ L) as HL. { apply login_watermark; [|done]. apply Nat.nle_gt in Hl. by rewrite Hpolls, length_fmap in Hl. }
  split; [done|]. by apply login_round.
Qed.
End login.

(** ** A committed round *)

Lemma apply_loop_all fuel target next r :
  commit_of r = next - 1 → fuel = Z.to_nat (target - commit_of r) →
  (∀ d, next ≤ d ≤ target → is_Some (journal_ r !! d)) →
  let r' := apply_loop fuel target next r in
  commit_of r' = Z.max (commit_of r) target ∧ journal_ r' = journal_ r.
Proof.
  revert next r. induction fuel as [|fuel IH]; intros next r Hc Hf Hall; cbn [apply_loop]; [split; [lia|done]|].
  rewrite (proj2 (Z.leb_le next target)) by lia. destruct (Hall next) as [s Hs]; [lia|]. rewrite Hs.
  set (r1 := if js_is_empty s then r else _). assert (journal_ r1 = journal_ r) as Hj by (unfold r1; by case_match).
  destruct (IH (next + 1) (set_commit r1 next)) as [H1 H2].
  - unfold commit_of, set_commit. simpl. lia.
  - unfold commit_of, set_commit in *. simpl. lia.
  - intros d Hd. simpl. rewrite Hj. apply Hall. lia.
  - cbv zeta in *. rewrite H1, H2. simpl. split; [|done]. unfold commit_of, set_commit in *. simpl. lia.
Qed.

Lemma apply_up_to_all target r :
  (∀ d, commit_of r < d ≤ target → is_Some (journal_ r !! d)) →
  commit_of (apply_up_to target r) = Z.max (commit_of r) target ∧
  journal_ (apply_up_to target r) = journal_ r.
Proof. intros H. apply apply_loop_all; [lia|done|]. intros d Hd. apply H. lia. Qed.

(** [m'] has the commit point of [m], its slots and its voided slots. *)
Definition grows (m m' : MemCraftReplica) : Prop :=
  commit_of m' = commit_of m ∧ (∀ d, is_Some (journal_ m !! d) → is_Some (journal_ m' !! d)) ∧
  ∀ d, voided m d → voided m' d.
#[export] Instance grows_preorder : PreOrder grows.
Proof.
  split; [by split|]. intros m1 m2 m3 (C1 & J1 & V1) (C2 & J2 & V2). split; [congruence|auto].
Qed.

Lemma mark_empty_grows d m : grows m (cold_mark_empty d m) ∧ voided (cold_mark_empty d m) d.
Proof.
  assert (voided (cold_mark_empty d m) d) as Hv by (exists (empty_slot (term_of m)); simpl; by rewrite lookup_insert_eq).
  split; [split; [done|]|done]. split; intros i Hi; (destruct (decide (d = i)) as [<-|]; [|unfold voided; simpl; by rewrite lookup_insert_ne]);
    [|done]. by destruct Hv as (s & -> & _).
Qed.
Lemma install_grows d s m : grows m (cold_install_slot d s m) ∧ is_Some (journal_ (cold_install_slot d s m) !! d).
Proof.
  split; [split; [apply install_params|]|]; [|rewrite install_lookup, decide_True by done; by destruct (journal_ m !! d)].
  split; [intros i [x Hx]|intros i (x & Hx & ?); exists x]; rewrite install_lookup; by rewrite Hx.
Qed.

Lemma voided_present m d : voided m d → is_Some (journal_ m !! d).
Proof. by intros (s & -> & _). Qed.

Lemma marks_grow l m :
  let m' := foldl (λ m lsn, cold_mark_empty lsn m) m l in grows m m' ∧ ∀ d, d ∈ l → voided m' d.
Proof.
  revert m. induction l as [|x l IH]; intros m; simpl; [split; [done|by intros d ?%not_elem_of_nil]|].
  destruct (IH (cold_mark_empty x m)) as [G H]. destruct (mark_empty_grows x m) as [G' Hx].
  split; [by etrans|]. intros d [->|Hd]%elem_of_cons; [by apply G|by apply H].
Qed.

Lemma sync_one_spec term resp m acc x :
  ∃ m', sync_one term resp (m, acc) x = (m', acc ++ filter (λ d, find_slot d resp = None) [x]) ∧
        grows m m' ∧ (is_Some (find_slot x resp) → is_Some (journal_ m' !! x)).
Proof.
  unfold sync_one. rewrite filter_cons, filter_nil.
  destruct (find_slot x resp) as [s|]; [rewrite decide_False by done|rewrite decide_True by done].
  - rewrite app_nil_r. destruct (mark_empty_grows x m), (install_grows x (to_mem_journal_slot s term) m).
    destruct (jl_is_empty s); eexists; split_and!; try done. intros _. by apply voided_present.
  - exists m. split_and!; [done|done|by intros []].
Qed.

Lemma sync_fold term resp l m acc :
  let r := foldl (sync_one term resp) (m, acc) l in
  grows m r.1 ∧ r.2 = acc ++ filter (λ d, find_slot d resp = None) l ∧
  ∀ d, d ∈ l → is_Some (find_slot d resp) → is_Some (journal_ r.1 !! d).
Proof.
  revert m acc. induction l as [|x l IH]; intros m acc; cbn [foldl].
  { cbn. rewrite app_nil_r. split_and!; [done|done|]. by intros d ?%not_elem_of_nil. }
  destruct (sync_one_spec term resp m acc x) as (m1 & -> & G & Hx).
  destruct (IH m1 (acc ++ filter (λ d, find_slot d resp = None) [x])) as (G1 & E1 & H1).
  split_and!; [by etrans|by rewrite E1, <-app_assoc, <-filter_app|].
  intros d [->|Hd]%elem_of_cons Hs; [by apply G1, Hx|by apply H1].
Qed.

(** Every dLSN of the round is held or still on the list. *)
Definition tracked (w : Z) (acc : MemCraftReplica * list Z) : Prop :=
  ∀ d, commit_of acc.1 < d ≤ w → is_Some (journal_ acc.1 !! d) ∨ d ∈ acc.2.

Lemma sync_peer_tracked term w acc peer :
  tracked w acc → tracked w (sync_peer term acc peer) ∧ grows acc.1 (sync_peer term acc peer).1.
Proof.
  intros T. destruct acc as [m l]. unfold sync_peer. cbn [fst snd].
  destruct l as [|x l]; [done|]. destruct (peer (x :: l)) as [resp|]; [|done].
  destruct (sync_fold term resp (x :: l) m []) as (G & E & H). split; [|done].
  intros d Hd. rewrite (proj1 G) in Hd. destruct (T d Hd) as [Hs|Hin]; [left; by apply G|].
  destruct (find_slot d resp) eqn:Hf; [left; apply H; [done|by rewrite Hf]|].
  right. rewrite E. simpl. by apply list_elem_of_filter.
Qed.

Lemma sync_peers_tracked term w peers acc :
  tracked w acc →
  tracked w (foldl (sync_peer term) acc peers) ∧ grows acc.1 (foldl (sync_peer term) acc peers).1.
Proof.
  revert acc. induction peers as [|p peers IH]; intros acc T; simpl; [done|].
  destruct (sync_peer_tracked term w acc p T) as [T1 G1]. destruct (IH _ T1) as [T2 G2].
  split; [done|by etrans].
Qed.

Lemma missing_tracked w m : tracked w (m, get_missing_slots m w).
Proof.
  intros d Hd. cbn [fst snd] in *. destruct (journal_ m !! d) eqn:Hj; [by left|]. right. by apply elem_of_missing.
Qed.

(** A replica that asks a peer holding every missing dLSN of the round commits the round. *)
Lemma apply_sync_commits r msg (before : list fetch_peer) (p : fetch_peer) (after : list fetch_peer) :
  (∀ d lsns, d ∈ lsns → commit_of (ra_mem r) < d ≤ sm_rs_commit_lsn msg → d ∉ sm_empty_slots msg →
     ∃ resp, p lsns = Some resp ∧ is_Some (find_slot d resp)) →
  let r' := apply_sync (before ++ p :: after) r msg in
  commit_of (ra_mem r') = Z.max (commit_of (ra_mem r)) (sm_rs_commit_lsn msg) ∧
  ra_rs_commit_lsn r' = sm_rs_commit_lsn msg ∧ ∀ d, d ∈ sm_empty_slots msg → voided (ra_mem r') d.
Proof.
  intros Hp. unfold apply_sync. set (w := sm_rs_commit_lsn msg) in *. rewrite foldl_app. cbn [foldl].
  destruct (marks_grow (sm_empty_slots msg) (ra_mem r)) as [G0 H0]. set (m0 := foldl _ (ra_mem r) _) in *.
  destruct (sync_peers_tracked (term_of m0) w before _ (missing_tracked w m0)) as [T1 G1].
  set (a1 := foldl (sync_peer _) _ before) in *. cbn [fst] in G1. assert (grows (ra_mem r) a1.1) as G01 by by etrans.
  destruct (sync_peer_tracked (term_of m0) w a1 p T1) as [T2 G2].
  assert (∀ d, commit_of a1.1 < d ≤ w → is_Some (journal_ (sync_peer (term_of m0) a1 p).1 !! d)) as Hfull.
  { intros d Hd. destruct (decide (d ∈ sm_empty_slots msg)) as [Hv|Hv].
    { apply G2, G1. by apply voided_present, H0. }
    destruct (T1 d Hd) as [Hs|Hin]; [by apply G2|]. destruct a1 as [m1 l1]. unfold sync_peer. cbn [fst snd] in *.
    destruct l1 as [|x l1]; [by apply not_elem_of_nil in Hin|].
    destruct (Hp d (x :: l1) Hin) as (resp & -> & Hf); [by rewrite <-(proj1 G01)|done|].
    by apply (sync_fold (term_of m0) resp (x :: l1) m1 []). }
  destruct (sync_peers_tracked (term_of m0) w after _ T2) as [_ G3]. set (a3 := foldl (sync_peer _) _ after) in *.
  assert (grows m0 a3.1) as G13 by (etrans; [exact G1|by etrans]).
  assert (commit_of a3.1 = commit_of a1.1) as Hc3 by (rewrite (proj1 G3); apply G2).
  destruct (apply_up_to_all w a3.1) as [Hc Hj].
  { intros d Hd. apply G3, Hfull. by rewrite <-Hc3. }
  destruct a3 as [m3 l3]. cbn [fst ra_mem set_mem set_rs_commit ra_rs_commit_lsn] in *.
  rewrite Hc, Hc3, (proj1 G01). split_and!; [done|done|]. intros d Hd. apply H0, G13 in Hd.
  unfold voided. by rewrite Hj.
Qed.

(** The leader holds or voids every dLSN of a round it proposes. *)
Lemma round_decided m n responses w tok term accepted u msg m' d :
  replica_inv m → sync_rs_commit_lsn m n responses w tok term accepted = (Ok u, Some msg, m') →
  0 ≤ d ≤ w → is_Some (journal_ m' !! d) ∨ d ∈ sm_empty_slots msg.
Proof.
  intros I. unfold sync_rs_commit_lsn.
  destruct (resolve_spec m n responses w term) as (E & J & _ & _ & S); [by destruct (rv_commit m I)|].
  destruct (Z.eqb_spec (rn_stalled (resolve_and_apply m n responses w term)) (-1)) as [Hst|]; [|done].
  cbn [negb]. intros [= _ <- <-] Hd. cbn [sm_empty_slots]. rewrite E, J, list_elem_of_filter.
  destruct (journal_ m !! d) eqn:Hj; [by left|].
  assert (d ∈ get_missing_slots m w) as Hm.
  { apply elem_of_missing. split; [|done]. destruct (decide (d ≤ commit_of m)); [|lia].
    destruct (rv_prefix m I d) as [x Hx]; [lia|congruence]. }
  rewrite decide_True by done. destruct (voids n responses d) eqn:Hv; [by right|left].
  destruct (S Hst d Hm Hv) as [s ->]. done.
Qed.

(** C14: A round the leader proposes brings every replica that reaches the leader to it. When
    [sync_rs_commit_lsn] succeeds with message [msg], a replica that applies [msg] and asks
    the leader among its peers commits up to the round's watermark, records that watermark,
    and holds every voided dLSN as Empty; nothing the other peers answer prevents it. *)
Theorem raft_sync_converges m n responses w tok term accepted u msg m' r before after :
  replica_inv m → sync_rs_commit_lsn m n responses w tok term accepted = (Ok u, Some msg, m') →
  -1 ≤ commit_of (ra_mem r) →
  let r' := apply_sync (before ++ (λ lsns, Some (do_fetch m' lsns)) :: after) r msg in
  commit_of (ra_mem r') = Z.max (commit_of (ra_mem r)) w ∧ ra_rs_commit_lsn r' = w ∧
  ∀ d, d ∈ sm_empty_slots msg → voided (ra_mem r') d.
Proof.
  intros I Hs Hc. assert (sm_rs_commit_lsn msg = w) as Hw.
  { revert Hs. unfold sync_rs_commit_lsn. destruct (negb _); [done|]. by intros [= _ <- _]. }
  rewrite <-Hw. apply apply_sync_commits. intros d lsns Hin Hd Hv. eexists. split; [done|].
  rewrite find_slot_fetch by done. rewrite Hw in Hd.
  destruct (round_decided m n responses w tok term accepted u msg m' d I Hs) as [[s ->]|]; [lia| |done]. done.
Qed.

(** ** The registry *)

(** The members of a registered volume are the known replicas it was registered with, in
    order; registering a volume with an unknown member changes nothing. *)
Theorem register_volume_spec vol members g :
  match register_volume vol members g with
  | (Ok _, g') => Forall2 (λ e i, get_replica g' (ep_id e) = Some i) members (get_volume g' vol)
  | (Err _, g') => g' = g ∧ Exists (λ e, get_replica g (ep_id e) = None) members
  end.
Proof.
  unfold register_volume, get_volume, get_replica. destruct (known_members g members) as [ids|] eqn:Hk; simpl.
  - rewrite lookup_insert_eq. revert ids Hk. induction members as [|e members IH]; intros ids; simpl.
    { intros [= <-]. constructor. }
    destruct (rm_replicas g !! ep_id e) as [i|] eqn:Hi; [|done].
    destruct (known_members g members) as [ids'|]; simpl; [|done]. intros [= <-]. simpl. rewrite Hi.
    constructor; [done|by apply IH].
  - split; [done|]. induction members as [|e members IH]; simpl in *; [done|].
    destruct (rm_replicas g !! ep_id e) eqn:Hi; [|by left]. right. apply IH.
    by destruct (known_members g members).
Qed.
