(* ===== verification/RaftRun.v ===== *)
(** * Runs of the raft-backed replica

    Every step of a [RaftReplica] is a sequence of operations of the replica it extends, so
    that replica's invariant and the permanence of committed data carry over; the replicated
    commands survive their JSON payloads, except for the login's watermark; the quiesce
    barrier fences the old term and can restore a term no login established. *)

From S2P Require Import Prelude Codec WireTypes Wire Types Replica ReplicaSpec ReplicaRun ReplicaApplied Raft RaftSpec.
From stdpp Require Import strings.

Local Open Scope craft_scope.
Local Open Scope Z_scope.

(** ** Refinement *)

(** What the raft-backed replica may do to the one it extends: operations within their types
    that never truncate, and that change a committed slot only where [N] allows it. *)
Definition cuts_nothing (op : replica_op) : Prop := match op with op_truncate _ => False | _ => True end.
Definition replays (N : Z → Prop) (m m' : MemCraftReplica) : Prop :=
  ∃ ops, m' = replica_run m ops ∧ Forall (op_typed (page_size_ m)) ops ∧ Forall cuts_nothing ops ∧
    ∀ d, d ≤ commit_of m → ¬ N d → Forall (λ op, ¬ names d op) ops.

#[export] Instance replays_preorder N : PreOrder (replays N).
Proof.
  split; [intros m; exists []; by split_and!|]. intros m1 m2 m3 (ops1 & -> & T1 & C1 & N1) (ops2 & -> & T2 & C2 & N2).
  exists (ops1 ++ ops2). rewrite run_page in T2. split_and!; [|by apply Forall_app..|].
  - unfold replica_run. by rewrite foldl_app.
  - intros d Hd Hn. apply Forall_app. split; [by apply N1|]. apply N2; [|done]. pose proof (run_frontier m1 ops1). lia.
Qed.

Lemma replays_one (N : Z → Prop) m op :
  op_typed (page_size_ m) op → cuts_nothing op → (∀ d, d ≤ commit_of m → ¬ N d → ¬ names d op) → replays N m (replica_exec m op).
Proof. intros. exists [op]. split_and!; [done|by repeat constructor..|]. intros d ? ?. repeat constructor. auto. Qed.

(** An operation that names no dLSN. *)
Lemma replays_quiet N m op : op_typed (page_size_ m) op → cuts_nothing op → (∀ d, ¬ names d op) → replays N m (replica_exec m op).
Proof. intros Ht Hc Hn. apply replays_one; [done..|]. intros d _ _. apply Hn. Qed.

Lemma replays_weaken (N N' : Z → Prop) m m' : (∀ d, N d → N' d) → replays N m m' → replays N' m m'.
Proof. intros HN (ops & ? & ? & ? & Hn). exists ops. split_and!; [done..|]. intros d Hd Hnd. apply Hn; [done|]. auto. Qed.

(** What a peer answers: slots that hold the bytes they announce. *)
Definition peer_slot_wf (page : Z) (s : JournalSlot) : Prop :=
  ∀ term, slot_wf page (to_mem_journal_slot s term).
Definition peer_wf (page : Z) (p : fetch_peer) : Prop :=
  ∀ lsns resp, p lsns = Some resp → Forall (peer_slot_wf page) resp.

Lemma set_term_replays N m term : replays N m (set_mem_term m term).
Proof. apply (replays_quiet N m (op_login (token_of m) term)); [done..|by intros d []]. Qed.

Lemma find_slot_elem d resp s : find_slot d resp = Some s → s ∈ resp.
Proof.
  unfold find_slot. intros Hf. destruct (filter _ resp) as [|x l] eqn:He; [done|].
  injection Hf as <-. assert (x ∈ x :: l) as Hx by left. rewrite <-He in Hx.
  by apply list_elem_of_filter in Hx as [_ Hx].
Qed.

(** [m'] replays [m] with its page size and frontier. *)
Definition extends (N : Z → Prop) (m m' : MemCraftReplica) : Prop :=
  replays N m m' ∧ page_size_ m' = page_size_ m ∧ grows m m'.
#[export] Instance extends_preorder N : PreOrder (extends N).
Proof.
  split; [intros m; split_and!; [reflexivity|done|reflexivity]|]. intros m1 m2 m3 (R1 & P1 & G1) (R2 & P2 & G2).
  split_and!; [by etrans|congruence|by etrans].
Qed.

Lemma install_extends N d s m : slot_wf (page_size_ m) s → extends N m (cold_install_slot d s m).
Proof.
  intros Hs. split_and!; [apply (replays_quiet N m (op_install d s)); [done..|by intros i []]| |apply install_grows].
  unfold cold_install_slot. by case_decide.
Qed.
Lemma mark_extends (N : Z → Prop) d m : commit_of m < d ∨ N d → extends N m (cold_mark_empty d m).
Proof.
  intros Hd. split_and!; [apply (replays_one N m (op_mark_empty d)); try done|done|apply mark_empty_grows].
  intros i Hi Hn Hid. cbn in Hid. subst. destruct Hd; [lia|done].
Qed.

Lemma marks_extend (N : Z → Prop) l m : (∀ d, d ∈ l → N d) → extends N m (foldl (λ m d, cold_mark_empty d m) m l).
Proof.
  revert m. induction l as [|x l IH]; intros m Hl; simpl; [done|]. etrans; [apply mark_extends; right; apply Hl; left|].
  apply IH. intros d Hd. apply Hl. by right.
Qed.

Lemma resolve_extends N n responses term l acc :
  Forall (Forall (peer_slot_wf (page_size_ (rn_mem acc)))) responses →
  extends N (rn_mem acc) (rn_mem (foldl (resolve_one n responses term) acc l)).
Proof.
  revert acc. induction l as [|x l IH]; intros acc Hr; simpl; [done|].
  assert (extends N (rn_mem acc) (rn_mem (resolve_one n responses term acc x))) as E.
  { unfold resolve_one. destruct (survey_spec x responses 1) as [_ Hs].
    destruct (survey x responses 1) as [k [s|]]; cbn [fst snd] in *; [|by repeat case_match].
    destruct Hs as (resp & Hin & Hf & _). assert (slot_wf (page_size_ (rn_mem acc)) (to_mem_journal_slot s term)).
    { rewrite Forall_forall in Hr. specialize (Hr resp Hin). rewrite Forall_forall in Hr. apply Hr.
      by eapply find_slot_elem. }
    case_decide; by apply install_extends. }
  etrans; [exact E|]. apply IH. destruct E as (_ & -> & _). done.
Qed.

Lemma sync_one_extends N term resp m acc x :
  commit_of m < x → Forall (peer_slot_wf (page_size_ m)) resp → extends N m (sync_one term resp (m, acc) x).1.
Proof.
  intros Hx Hr. unfold sync_one. destruct (find_slot x resp) as [s|] eqn:Hf; [|done].
  destruct (jl_is_empty s); simpl; [by apply mark_extends; left|]. apply install_extends.
  rewrite Forall_forall in Hr. apply Hr. by eapply find_slot_elem.
Qed.

Lemma sync_fold_extends N term resp l m acc :
  Forall (λ d, commit_of m < d) l → Forall (peer_slot_wf (page_size_ m)) resp →
  extends N m (foldl (sync_one term resp) (m, acc) l).1.
Proof.
  revert m acc. induction l as [|x l IH]; intros m acc Hl Hr; cbn [foldl]; [done|].
  apply Forall_cons in Hl as [Hx Hl]. pose proof (sync_one_extends N term resp m acc x Hx Hr) as E.
  destruct (sync_one term resp (m, acc) x) as [m1 acc1]. cbn [fst] in E. etrans; [exact E|].
  apply IH; [rewrite (proj1 (proj2 (proj2 E)))|rewrite (proj1 (proj2 E))]; done.
Qed.

Lemma sync_peers_extend N term peers acc :
  Forall (λ d, commit_of acc.1 < d) acc.2 → Forall (peer_wf (page_size_ acc.1)) peers →
  extends N acc.1 (foldl (sync_peer term) acc peers).1.
Proof.
  revert acc. induction peers as [|p peers IH]; intros [m l] Hl Hp; cbn [foldl fst snd] in *; [done|].
  apply Forall_cons in Hp as [Hp Hps]. unfold sync_peer at 2. cbn [fst snd].
  destruct l as [|x l]; [by apply (IH (m, []))|]. destruct (p (x :: l)) as [resp|] eqn:Hr; [|by apply (IH (m, x :: l))].
  pose proof (sync_fold_extends N term resp (x :: l) m [] Hl (Hp _ _ Hr)) as E.
  destruct (sync_fold term resp (x :: l) m []) as (_ & Hm & _).
  destruct (foldl (sync_one term resp) (m, []) (x :: l)) as [m1 l1]. cbn [fst snd] in *.
  etrans; [exact E|]. apply (IH (m1, l1)); cbn [fst snd].
  - rewrite Hm, (proj1 (proj2 (proj2 E))). apply Forall_forall. intros d [_ Hd]%list_elem_of_filter.
    rewrite Forall_forall in Hl. by apply Hl.
  - by rewrite (proj1 (proj2 E)).
Qed.

Lemma missing_above m w : Forall (λ d, commit_of m < d) (get_missing_slots m w).
Proof. apply Forall_forall. intros d [? _]%elem_of_missing. lia. Qed.

Lemma apply_sync_replays peers r msg :
  Forall (peer_wf (page_size_ (ra_mem r))) peers →
  replays (λ d, d ∈ sm_empty_slots msg) (ra_mem r) (ra_mem (apply_sync peers r msg)).
Proof.
  intros Hp. unfold apply_sync. pose proof (marks_extend (λ d, d ∈ sm_empty_slots msg) (sm_empty_slots msg) (ra_mem r) (λ _, id)) as E0.
  set (m0 := foldl _ (ra_mem r) _) in *. set (w := sm_rs_commit_lsn msg). set (N := λ d, d ∈ sm_empty_slots msg) in *.
  assert (extends N m0 (foldl (sync_peer (term_of m0)) (m0, get_missing_slots m0 w) peers).1) as E1.
  { apply (sync_peers_extend N (term_of m0) peers (m0, get_missing_slots m0 w)); [apply missing_above|].
    cbn [fst]. by rewrite (proj1 (proj2 E0)). }
  destruct (foldl (sync_peer _) _ peers) as [m1 l1]. cbn [fst] in E1.
  etrans; [apply E0|]. etrans; [apply E1|]. apply (replays_quiet N m1 (op_sync w)); [done..|by intros d []].
Qed.

(** ** Runs *)

Section runs.
Context {J : Type} `{JS : !Json J}.

(** A login poll of a peer, the quiesce timer, a login, a committed log entry handed to the
    commit callback, the commit worker taking its next task, and a client's request. *)
Inductive raft_event :=
| re_poll (term : Z) (is_login : bool) (timer_id : Z)
| re_timeout (q : quiesce)
| re_login (e : login_env) (client_token term : Z)
| re_commit (payload : J)
| re_task (peers : list fetch_peer)
| re_client (op : replica_op).

Definition client_request (op : replica_op) : bool :=
  match op with
  | op_write _ _ _ _ _ | op_read _ _ _ _ _ | op_keep_alive _ | op_resolve_local _ _ | op_logout => true
  | _ => false
  end.

Definition raft_exec (r : RaftReplica) (ev : raft_event) : option RaftReplica :=
  match ev with
  | re_poll term is_login timer_id => Some (do_get_rs_commit_lsn r term is_login timer_id).2
  | re_timeout q => Some (quiesce_timeout q r)
  | re_login e tok term => Some (apply_login e r tok term).2
  | re_commit payload => ts ← commit_cb payload; Some (foldl push_task r ts)
  | re_task peers => '(t, r) ← pop_task r; Some (run_task peers r t)
  | re_client op => if client_request op then Some (set_mem r (replica_exec (ra_mem r) op)) else None
  end.
Fixpoint raft_run (r : RaftReplica) (evs : list raft_event) : option RaftReplica :=
  match evs with [] => Some r | ev :: evs => r ← raft_exec r ev; raft_run r evs end.

(** Arguments within their types, and peers whose slots hold the bytes they announce. *)
Definition event_typed (page : Z) (ev : raft_event) : Prop :=
  match ev with
  | re_login e _ _ => Forall (Forall (peer_slot_wf page)) (le_responses e)
  | re_task peers => Forall (peer_wf page) peers
  | re_client op => op_typed page op
  | _ => True
  end.

(** The event asks for a change of dLSN [d]: a client writes it, or the command that the
    worker takes voids it. *)
Definition event_names (d : Z) (r : RaftReplica) (ev : raft_event) : Prop :=
  match ev with
  | re_client op => names d op
  | re_task _ => match ra_tasks r with task_sync msg :: _ => d ∈ sm_empty_slots msg | _ => False end
  | _ => False
  end.
Fixpoint run_names (d : Z) (r : RaftReplica) (evs : list raft_event) : Prop :=
  match evs with
  | [] => False
  | ev :: evs => event_names d r ev ∨ match raft_exec r ev with Some r => run_names d r evs | None => False end
  end.

(** The tasks the commit callback queues: a login carries no watermark. *)
Definition task_committed (t : commit_task) : Prop :=
  match t with task_login msg => lm_rs_commit_lsn msg = -1 | task_sync _ => True end.

Lemma commit_cb_tasks (payload : J) ts : commit_cb payload = Some ts → Forall task_committed ts.
Proof.
  unfold commit_cb. destruct (j_at payload "op" ≫= get_int) as [op|]; simpl; [|done]. intros [= <-].
  destruct (op =? op_SyncRSCommitLSN); [destruct (sync_from_json payload); by repeat constructor|].
  destruct (op =? op_InternalLogin); [|done]. destruct (login_from_json payload) as [m|] eqn:Hl; [|done].
  repeat constructor. unfold login_from_json in Hl. by simplify_option_eq.
Qed.

Lemma internal_login_replays N r msg : task_committed (task_login msg) → replays N (ra_mem r) (ra_mem (internal_login r msg)).
Proof.
  intros Hw. cbn in Hw. unfold internal_login. rewrite Hw. apply (replays_quiet N (ra_mem r) (op_login (lm_client_token msg) (lm_term msg))); [done..|by intros d []].
Qed.

Lemma apply_login_replays N e r tok term :
  Forall (Forall (peer_slot_wf (page_size_ (ra_mem r)))) (le_responses e) →
  replays N (ra_mem r) (ra_mem (apply_login e r tok term).2).
Proof.
  intros Hr. unfold apply_login. destruct (le_enabled e); cbn [negb].
  2: apply (replays_quiet N (ra_mem r) (op_login tok term)); [done..|by intros d []].
  destruct (le_is_leader e); cbn [negb]; [|reflexivity]. case_decide; [reflexivity|]. unfold sync_rs_commit_lsn.
  set (m1 := rn_mem _). assert (replays N (ra_mem r) m1) as Hm by (apply (resolve_extends N _ _ _ _ (Mk_resolution (ra_mem r) [] (-1)) Hr)).
  destruct (negb _); [done|]. destruct (le_sync_accepted e), (le_login_accepted e), (le_committed e); done.
Qed.

Lemma push_tasks ts r : ra_mem (foldl push_task r ts) = ra_mem r ∧ ra_tasks (foldl push_task r ts) = ra_tasks r ++ ts.
Proof.
  revert r. induction ts as [|t ts IH]; intros r; simpl; [by rewrite app_nil_r|]. destruct (IH (push_task r t)) as [-> ->].
  split; [done|]. simpl. by rewrite <-(assoc_L (++)).
Qed.

Lemma apply_login_tasks e r tok term : ra_tasks (apply_login e r tok term).2 = ra_tasks r.
Proof.
  unfold apply_login, sync_rs_commit_lsn. destruct (le_enabled e), (le_is_leader e); cbn [negb]; try done.
  case_decide; [done|]. destruct (negb _); [done|]. by destruct (le_sync_accepted e), (le_login_accepted e), (le_committed e).
Qed.

Lemma run_task_tasks peers r t : ra_tasks (run_task peers r t) = ra_tasks r.
Proof. destruct t as [msg|msg]; simpl; [|done]. unfold apply_sync. by destruct (foldl (sync_peer _) _ _). Qed.

Lemma raft_exec_replays r ev r' :
  raft_exec r ev = Some r' → Forall task_committed (ra_tasks r) → event_typed (page_size_ (ra_mem r)) ev →
  replays (λ d, event_names d r ev) (ra_mem r) (ra_mem r') ∧ Forall task_committed (ra_tasks r').
Proof.
  intros He Hq Ht. destruct ev as [term b id|q|e tok term|payload|peers|op]; cbn [raft_exec event_typed] in *.
  - injection He as <-. unfold do_get_rs_commit_lsn, get_rs_commit_lsn_begin.
    destruct b; split; try done; apply set_term_replays || reflexivity.
  - injection He as <-. unfold quiesce_timeout. case_match; split; try done; apply set_term_replays || reflexivity.
  - injection He as <-. split; [by apply apply_login_replays|]. by rewrite apply_login_tasks.
  - destruct (commit_cb payload) as [ts|] eqn:Hc; [|done]. injection He as <-. destruct (push_tasks ts r) as [-> ->].
    split; [reflexivity|]. apply Forall_app. split; [done|by eapply commit_cb_tasks].
  - unfold pop_task in He. cbn [event_names]. destruct (ra_tasks r) as [|t ts] eqn:Hts; [done|]. simpl in He.
    injection He as <-. apply Forall_cons in Hq as [Hq1 Hq]. rewrite run_task_tasks. split; [|done].
    set (r1 := Mk_raft _ _ _ _ _ ts). change (ra_mem r) with (ra_mem r1) in Ht |- *.
    destruct t as [msg|msg]; [by apply apply_sync_replays|by apply internal_login_replays].
  - destruct (client_request op) eqn:Ho; [|done]. injection He as <-. split; [|done].
    apply (replays_one _ (ra_mem r) op); [done|by destruct op|done].
Qed.

Lemma raft_run_replays r evs r' :
  raft_run r evs = Some r' → Forall task_committed (ra_tasks r) → Forall (event_typed (page_size_ (ra_mem r))) evs →
  replays (λ d, run_names d r evs) (ra_mem r) (ra_mem r') ∧ Forall task_committed (ra_tasks r').
Proof.
  revert r. induction evs as [|ev evs IH]; intros r; cbn [raft_run run_names]; [intros [= <-] ? _; by split|].
  destruct (raft_exec r ev) as [r1|] eqn:He; [|done]. simpl. intros Hr Hq [H1 Ht]%Forall_cons.
  destruct (raft_exec_replays _ _ _ He Hq H1) as [R1 Hq1]. pose proof R1 as (ops & Hm & _).
  destruct (IH r1 Hr Hq1) as [R2 Hq2]; [by rewrite Hm, run_page|]. split; [|done].
  etrans; [eapply replays_weaken; [|exact R1]; auto|]. eapply replays_weaken; [|exact R2]; auto.
Qed.

(** What follows for the replica from its own operations. *)
Lemma replays_keeps N A m m' :
  replays N m m' → applied A m →
  (∃ A', A ⊆ A' ∧ applied A' m') ∧ commit_of m ≤ commit_of m' ∧ (journal_inv m → journal_inv m') ∧
  ∀ d, d ≤ commit_of m → is_Some (journal_ m !! d) → ¬ N d → journal_ m' !! d = journal_ m !! d.
Proof.
  intros (ops & -> & Ht & Hc & Hn) I. split_and!.
  - by apply run_applied.
  - apply run_frontier.
  - intros Ij. apply run_journal_inv; [done|]. clear -Hc. revert m. induction Hc as [|op ops Hop _ IH]; intros m; [done|].
    split; [by destruct op|apply IH].
  - intros d Hd Hs HN. apply run_unnamed; [by apply Hn|done].
Qed.

End runs.
Arguments raft_event : clear implicits.

(** ** The replicated commands *)

Section commands.
Context {J : Type} `{JS : !Json J}.

(** A field of an object literal. *)
Lemma at_field fields k v :
  NoDup fields.*1 → (k, v) ∈ fields → j_at (j_object fields) k = Some v.
Proof.
  intros Hnd Hin. rewrite j_at_object by done. induction fields as [|[k' v'] fields IH]; [by apply not_elem_of_nil in Hin|].
  apply NoDup_cons in Hnd as [Hk Hnd]. rewrite filter_cons. cbn [fst].
  apply elem_of_cons in Hin as [[= <- <-]|Hin]; [by rewrite decide_True|].
  rewrite decide_False; [by apply IH|]. intros ->. apply Hk. by apply (list_elem_of_fmap_2 fst) in Hin.
Qed.

Lemma commit_sync (msg : SyncRSCommitLSNMsg) : commit_cb (sync_to_json (J := J) msg) = Some [task_sync msg].
Proof.
  assert (NoDup ["op"; "rs_commit_lsn"; "client_token"; "empty_slots"]%string) as Hnd by by_eval.
  unfold commit_cb, sync_from_json, sync_to_json.
  rewrite (at_field _ "op" (j_int op_SyncRSCommitLSN)), (at_field _ "rs_commit_lsn" (j_int (sm_rs_commit_lsn msg))),
    (at_field _ "client_token" (j_int (sm_client_token msg))), (at_field _ "empty_slots" (j_ints (sm_empty_slots msg)));
    try done; [by destruct msg|set_solver..].
Qed.
Lemma commit_login (msg : InternalLoginMsg) :
  commit_cb (login_to_json (J := J) msg) = Some [task_login (Mk_login_msg (lm_client_token msg) (lm_term msg) (-1))].
Proof.
  assert (NoDup ["op"; "client_token"; "term"]%string) as Hnd by by_eval.
  unfold commit_cb, login_from_json, login_to_json.
  rewrite (at_field _ "op" (j_int op_InternalLogin)), (at_field _ "client_token" (j_int (lm_client_token msg))),
    (at_field _ "term" (j_int (lm_term msg))); try done; set_solver.
Qed.

(** The commit callback recovers the round the leader proposed, its voided dLSNs
    included, from the JSON payload of the log entry. *)
Theorem sync_command_roundtrip (msg : SyncRSCommitLSNMsg) :
  commit_cb (sync_to_json (J := J) msg) = Some [task_sync msg].
Proof. apply commit_sync. Qed.

(** The payload of an [InternalLogin] entry does not carry its watermark. The replica
    that commits it gets the default -1, so [internal_login] establishes the session, clears
    the login timer and wakes the login, but never truncates: every slot above the watermark
    stays in the journal and counts as appended. *)
Theorem login_command_never_truncates (msg : InternalLoginMsg) peers r :
  ∃ t, commit_cb (login_to_json (J := J) msg) = Some [t] ∧
    let r' := run_task peers r t in
    journal_ (ra_mem r') = journal_ (ra_mem r) ∧ append_of (ra_mem r') = append_of (ra_mem r) ∧
    srv_session_info r' = (lm_term msg, lm_client_token msg) ∧
    ra_pending_timer r' = None ∧ ra_login_done r' = true.
Proof. exists (task_login (Mk_login_msg (lm_client_token msg) (lm_term msg) (-1))). split; [apply commit_login|done]. Qed.
End commands.

(** ** The quiesce barrier *)

Lemma set_term_back m term : set_mem_term (set_mem_term m term) (term_of m) = m.
Proof. by destruct m as [? ? [] ? ? ? ?]. Qed.

(** A login poll fences the old session until the login commits or its timer fires. The
    poll answers the watermarks as they were; from then on the replica refuses every request
    of another term; the timer, firing first, restores the replica exactly; firing after a
    login of another term has committed, it does nothing. *)
Theorem quiesce_fences r term timer_id hdr d addr len bytes H dest msg :
  let '(ret, r') := do_get_rs_commit_lsn r term true timer_id in
  let q := Mk_quiesce (term_of (ra_mem r)) term in
  ret = lsns_of (ra_mem r) ∧
  (ch_term hdr ≠ term →
     do_keep_alive (ra_mem r') hdr = (Err (ec_craft STALE_TERM), ra_mem r') ∧
     (∃ e, do_write (ra_mem r') hdr d addr len bytes = (Err e, ra_mem r')) ∧
     (∃ e, do_read (ra_mem r') hdr H addr len dest = Some (Err e, ra_mem r'))) ∧
  quiesce_timeout q r' = set_timer r (Some timer_id) ∧
  (lm_term msg ≠ term → quiesce_timeout q (internal_login r' msg) = internal_login r' msg).
Proof.
  unfold do_get_rs_commit_lsn, get_rs_commit_lsn_begin. cbn [negb]. split_and!; [done|..].
  - intros Ht. destruct (stale_term_aux (set_mem_term (ra_mem r) term) hdr d addr len bytes H dest 0 Ht)
      as (? & _ & (e & ? & _) & (e' & ? & _)). split_and!; [done|by exists e|by exists e'].
  - unfold quiesce_timeout. cbn. rewrite Z.eqb_refl. unfold set_timer, set_mem. cbn [ra_mem].
    by rewrite set_term_back.
  - intros Ht. unfold quiesce_timeout. cbn [q_term].
    rewrite (proj2 (Z.eqb_neq _ _)); [done|]. unfold internal_login. simpl. by case_match.
Qed.

(** A second poll overwrites the term to go back to. When a login poll of term [t2]
    arrives while one of term [t1] is pending, it cancels the first timer and captures [t1]
    as the term to restore; if the second login does not commit either, the replica is left
    in term [t1], which no login established, and refuses the session in force. *)
Theorem nested_quiesce_restores_pending r t1 t2 id1 id2 :
  let r1 := (do_get_rs_commit_lsn r t1 true id1).2 in
  let '(_, cancelled, armed, r2) := get_rs_commit_lsn_begin r1 t2 true in
  cancelled = Some id1 ∧
  ∃ q, armed = Some q ∧ srv_session_info (quiesce_timeout q (quiesce_armed r2 id2)) = (t1, token_of (ra_mem r)).
Proof.
  cbn. split; [done|]. eexists. split; [done|]. unfold quiesce_timeout, srv_session_info. cbn.
  by rewrite Z.eqb_refl.
Qed.

(** ** Example members

    Three members in term 7. The leader holds dLSN 0; the second holds 0, 1 and 3; the third
    holds 1 and does not answer; dLSN 2 reached nobody. *)

#[export] Instance assoc_json : Json (list (string * jvalue)).
Proof. refine {| j_object fields := fields; j_at l k := snd <$> head (filter (λ f, f.1 = k) l) |}. done. Defined.

Definition ex_put (d : Z) : replica_op := op_write (example_hdr (-1)) d 0 4 (Some [1; 2; 3; 4]).
Definition ex_raft (ops : list replica_op) : RaftReplica :=
  Mk_raft (replica_run example_start (op_login 9 7 :: ops)) 8 (-1) true None [].
Definition ex_leader : RaftReplica := ex_raft [ex_put 0].
Definition ex_second : RaftReplica := ex_raft [ex_put 0; ex_put 1; ex_put 3].
Definition ex_third : RaftReplica := ex_raft [ex_put 1].
Definition ex_info : replica_info := Mk_replica_info nil_uuid [] 0 0.
Definition ex_env : login_env :=
  Mk_login_env true true nil_uuid [ex_info; ex_info; ex_info]
    [Ok (lsns_of (ra_mem ex_second)); Err (ec_craft REPLICA_DOWN)]
    [srv_fetch_data ex_second (get_missing_slots (ra_mem ex_leader) 3)] (Ok tt) (Ok tt) true.

Lemma ex_raft_inv ops : ops_ok example_start (op_login 9 7 :: ops) → replica_inv (ra_mem (ex_raft ops)).
Proof. intros H. eapply replica_steps_inv; [exact example_start_inv|by apply replica_run_steps]. Qed.
Lemma ex_leader_inv : replica_inv (ra_mem ex_leader).
Proof. apply ex_raft_inv. unfold ex_put. ops_ok_by_eval. Qed.
Lemma ex_others_inv : Forall replica_inv [ra_mem ex_second; ra_mem ex_third].
Proof. apply Forall_cons. split; [|apply Forall_cons; split; [|done]]; apply ex_raft_inv; unfold ex_put; ops_ok_by_eval. Qed.

Lemma raft_login_covers_witness :
  ∃ lr sync log r', apply_login ex_env ex_leader 5 8 = (Ok lr, sync, log, r') ∧
    lg_dLSN lr = 3 ∧ holds_data 1 (ra_mem ex_leader) = false ∧ holds_data 1 (ra_mem r') = true.
Proof.
  assert (is_ok (apply_login ex_env ex_leader 5 8).1.1.1 = true ∧
          (apply_login ex_env ex_leader 5 8).1.1.2 = Some (Mk_sync_msg 3 5 [2])) as [Hok Hmsg] by (split; by_eval).
  destruct (apply_login ex_env ex_leader 5 8) as [[[[lr|] sync] log] r'] eqn:Ha; [|done].
  exists lr, sync, log, r'.
  destruct (raft_login_covers ex_env ex_leader [ra_mem ex_second; ra_mem ex_third] [ra_mem ex_second]
    [ra_mem ex_second] eq_refl eq_refl eq_refl ltac:(repeat constructor) ltac:(repeat constructor)
    ltac:(by_eval) ltac:(by_eval) ex_leader_inv ex_others_inv 5 8 lr sync log r' Ha)
    as (empties & Hs & Hl & Hd).
  split_and!; [done| |by_eval|].
  - cbn in Hmsg. rewrite Hs in Hmsg. by injection Hmsg.
  - apply (Hd 1); [lia|by_eval|]. assert (journal_ (ra_mem ex_leader) !! 1 = None) as -> by by_eval. done.
Defined.

Lemma raft_sync_converges_witness :
  commit_of (ra_mem (apply_sync [λ _, None; λ lsns, Some (do_fetch (resolve_and_apply (ra_mem ex_leader) 3 (le_responses ex_env) 3 7).(rn_mem) lsns)]
    ex_third (Mk_sync_msg 3 5 [2]))) = 3.
Proof.
  apply (raft_sync_converges (ra_mem ex_leader) 3 (le_responses ex_env) 3 5 7 (Ok tt) tt (Mk_sync_msg 3 5 [2])
    _ ex_third [λ _, None] []); [exact ex_leader_inv|vm_compute; reflexivity|vm_compute; discriminate].
Defined.

Lemma ex_third_inv : replica_inv (ra_mem ex_third).
Proof. apply ex_raft_inv. unfold ex_put. ops_ok_by_eval. Qed.

(** The third member runs a committed sync that voids dLSN 2 and fetches 0 and 3 from the
    second. *)
Definition ex_answer : list JournalSlot := srv_fetch_data ex_second [0; 3].
Definition ex_events : list (raft_event (list (string * jvalue))) :=
  [re_poll 8 true 1; re_commit (sync_to_json (Mk_sync_msg 3 5 [2])); re_task [λ _, Some ex_answer]; re_timeout (Mk_quiesce 7 8)].
Definition ex_synced : RaftReplica := default ex_third (raft_run ex_third ex_events).

Lemma ex_answer_wf : Forall (peer_slot_wf 4) ex_answer.
Proof.
  assert (ex_answer = (λ d, Mk_JournalSlot d false false 0 1 (Mk_sg 4 [[1; 2; 3; 4]]) None) <$> [0; 3]) as -> by by_eval.
  apply Forall_fmap, Forall_forall. intros d _ term. right. split_and!; [by_eval..|]. by exists [1; 2; 3; 4].
Qed.


Lemma sync_command_roundtrip_witness :
  commit_cb (sync_to_json (J := list (string * jvalue)) (Mk_sync_msg 3 5 [2])) =
    Some [task_sync (Mk_sync_msg 3 5 [2])].
Proof. apply sync_command_roundtrip. Defined.

Lemma login_command_never_truncates_witness :
  ∃ t, commit_cb (login_to_json (J := list (string * jvalue)) (Mk_login_msg 5 8 0)) = Some [t] ∧
    journal_ (ra_mem (run_task [] ex_second t)) !! 3 = journal_ (ra_mem ex_second) !! 3.
Proof.
  destruct (login_command_never_truncates (J := list (string * jvalue)) (Mk_login_msg 5 8 0) [] ex_second)
    as (t & Ht & Hj & _).
  exists t. split; [exact Ht|by rewrite Hj].
Defined.

Lemma quiesce_fences_witness :
  do_keep_alive (ra_mem (do_get_rs_commit_lsn ex_third 8 true 1).2) (example_hdr 0) =
    (Err (ec_craft STALE_TERM), ra_mem (do_get_rs_commit_lsn ex_third 8 true 1).2).
Proof.
  apply (quiesce_fences ex_third 8 1 (example_hdr 0) 0 0 0 None 0 (Mk_sg 0 []) (Mk_login_msg 5 9 0)).
  vm_compute. discriminate.
Defined.

(** *** A login the leader does not fence *)

Definition ex_old (d : Z) (r : RaftReplica) := do_write (ra_mem r) (example_hdr 0) d 0 4 (Some [1; 1; 1; 1]).
Definition ex_new (d : Z) (r : RaftReplica) :=
  do_write (ra_mem r) (Mk_client_hdr 8 0 (-1) 5) d 0 4 (Some [2; 2; 2; 2]).

(** A login quiesces the members it polls but not the leader that runs it, so it can
    hand out a dLSN under which a write was acknowledged. Three members hold dLSN 0; the
    login reaches only the third. After its rounds, the leader and the second member, both
    still in term 7, accept a write of the old session at dLSN 1: the quorum that
    acknowledges it. The login then commits on the leader and the third member with
    watermark 0, so the new session writes dLSN 1: both accept, and the leader's copy of the
    acknowledged write is replaced. *)
Theorem raft_login_race :
  let member := ex_raft [ex_put 0] in
  let e := Mk_login_env true true nil_uuid [ex_info; ex_info; ex_info]
             [Err (ec_craft REPLICA_DOWN); Ok (do_get_rs_commit_lsn member 8 true 1).1] [] (Ok tt) (Ok tt) true in
  let login := apply_login e member 5 8 in
  let old_leader := ex_old 1 login.2 in
  let msg := Mk_login_msg 5 8 (-1) in
  let new_leader := ex_new 1 (internal_login (set_mem login.2 old_leader.2) msg) in
  let new_third := ex_new 1 (internal_login (do_get_rs_commit_lsn member 8 true 1).2 msg) in
  login.1.1.1 = Ok (Mk_LoginResult (login_members [ex_info; ex_info; ex_info]) 0 0 0 0 nil_uuid 0) ∧
  is_ok old_leader.1 = true ∧ is_ok (ex_old 1 member).1 = true ∧
  is_ok new_leader.1 = true ∧ is_ok new_third.1 = true ∧
  (js_bytes <$> journal_ old_leader.2 !! 1) = Some (Some [1; 1; 1; 1]) ∧
  (js_bytes <$> journal_ new_leader.2 !! 1) = Some (Some [2; 2; 2; 2]).
Proof. intros. split_and!; by_eval. Qed.
