(* ===== verification/LogStore.v ===== *)
(** * The raft log store

    [src/raft/in_memory_log_store.cpp]: a map from indices to entries with a dummy entry at
    index 0 and the index of the first entry.  The store implements a log: a first index and
    the entries from it on, without a gap ([log_store_refines]); a packed run of entries
    applied to another store gives the same run there ([pack_roundtrip]). *)

From S2P Require Import Prelude.

Local Open Scope Z_scope.

(** ** What the store uses of the raft library

    [log_entry] with its constructor, getters and serialization, and the 32-bit integers of
    [buffer]; [dummy] is the entry of term 0 with an uninitialized buffer. *)

Class NuRaft (E : Type) := {
  e_term : E → Z;
  e_buf : E → list Z;
  e_type : E → Z;
  e_timestamp : E → Z;
  new_entry : Z → list Z → Z → Z → E;
  dummy : E;
  serialize : E → list Z;
  deserialize : list Z → E;
  put_int : Z → list Z;
  get_int32 : list Z → Z;
  new_entry_term t b ty ts : e_term (new_entry t b ty ts) = t;
  new_entry_buf t b ty ts : e_buf (new_entry t b ty ts) = b;
  new_entry_type t b ty ts : e_type (new_entry t b ty ts) = ty;
  dummy_term : e_term dummy = 0;
  deserialize_term e : e_term (deserialize (serialize e)) = e_term e;
  deserialize_buf e : e_buf (deserialize (serialize e)) = e_buf e;
  deserialize_type e : e_type (deserialize (serialize e)) = e_type e;
  put_int_length n : length (put_int n) = 4%nat;
  get_put_int n : - 2 ^ 31 ≤ n < 2 ^ 31 → get_int32 (put_int n) = n;
}.

Section store.
Context {E : Type} `{NR : !NuRaft E}.

Record inmem_log_store := Mk_store { logs_ : gmap Z E; start_idx_ : Z }.

Definition mk_store : inmem_log_store := Mk_store {[0 := dummy]} 1.

Definition make_clone (e : E) : E := new_entry (e_term e) (e_buf e) (e_type e) (e_timestamp e).

Definition next_slot (s : inmem_log_store) : Z := u64 (start_idx_ s + Z.of_nat (size (logs_ s)) - 1).
Definition last_durable_index (s : inmem_log_store) : Z := u64 (next_slot s - 1).

(** [find], and the dummy entry when the index has none. *)
Definition find_or_dummy (s : inmem_log_store) (i : Z) : option E :=
  match logs_ s !! i with Some e => Some e | None => logs_ s !! 0 end.
Definition last_entry (s : inmem_log_store) : option E := make_clone <$> find_or_dummy s (u64 (next_slot s - 1)).

Definition log_append (s : inmem_log_store) (e : E) : Z * inmem_log_store :=
  let idx := u64 (start_idx_ s + Z.of_nat (size (logs_ s)) - 1) in
  (idx, Mk_store (<[idx := make_clone e]> (logs_ s)) (start_idx_ s)).

Definition log_write_at (s : inmem_log_store) (index : Z) (e : E) : inmem_log_store :=
  Mk_store (<[index := make_clone e]> (filter (λ p, p.1 < index) (logs_ s))) (start_idx_ s).

(** [None]: the assertion that every index asked for has an entry fails, or the result's
    size [end - start] is negative. *)
Definition log_entries (s : inmem_log_store) (start end_ : Z) : option (list E) :=
  if end_ <? start then None
  else mapM (λ i, make_clone <$> logs_ s !! i) (range start (end_ - 1)).

Fixpoint ext_loop (s : inmem_log_store) (idxs : list Z) (hint accum_size : Z) : option (list E) :=
  match idxs with
  | [] => Some []
  | i :: idxs =>
      src ← logs_ s !! i;
      let accum_size := accum_size + Z.of_nat (length (e_buf src)) in
      if negb (hint =? 0) && (hint <=? accum_size) then Some [make_clone src]
      else ret ← ext_loop s idxs hint accum_size; Some (make_clone src :: ret)
  end.
Definition log_entries_ext (s : inmem_log_store) (start end_ hint : Z) : option (list E) :=
  if hint <? 0 then Some [] else ext_loop s (range start (end_ - 1)) hint 0.

Definition entry_at (s : inmem_log_store) (index : Z) : option E := make_clone <$> find_or_dummy s index.
Definition term_at (s : inmem_log_store) (index : Z) : option Z := e_term <$> find_or_dummy s index.

Definition pack_entry (e : E) : list Z :=
  put_int (to_i32 (Z.of_nat (length (serialize e)))) ++ serialize e.
(** [None]: the assertion on an index without an entry. *)
Definition pack (s : inmem_log_store) (index cnt : Z) : option (list Z) :=
  es ← mapM (λ i, logs_ s !! i) (range index (u64 (index + cnt) - 1));
  Some (put_int cnt ++ concat (pack_entry <$> es)).

(** [buffer::get_int] and [buffer::get] into a buffer of a size; both throw past the end. *)
Definition take_bytes (n : Z) (bs : list Z) : option (list Z * list Z) :=
  if decide (0 ≤ n ≤ Z.of_nat (length bs)) then Some (take (Z.to_nat n) bs, drop (Z.to_nat n) bs) else None.
Definition take_int (bs : list Z) : option (Z * list Z) :=
  '(b, bs) ← take_bytes 4 bs; Some (get_int32 b, bs).

Fixpoint apply_entries (num_logs : nat) (cur_idx : Z) (bs : list Z) (m : gmap Z E) : option (gmap Z E) :=
  match num_logs with
  | O => Some m
  | S num_logs =>
      '(buf_size, bs) ← take_int bs;
      '(b, bs) ← take_bytes buf_size bs;
      apply_entries num_logs (u64 (cur_idx + 1)) bs (<[cur_idx := deserialize b]> m)
  end.
(** The key at [upper_bound(0)], or 1. *)
Definition first_index (m : gmap Z E) : Z :=
  match filter (λ k, 0 < k) (elements (dom m)) with [] => 1 | k :: ks => foldl Z.min k ks end.
Definition apply_pack (s : inmem_log_store) (index : Z) (bs : list Z) : option inmem_log_store :=
  '(num_logs, bs) ← take_int bs;
  m ← apply_entries (Z.to_nat num_logs) index bs (logs_ s);
  Some (Mk_store m (first_index m)).

Definition compact (s : inmem_log_store) (last_log_index : Z) : inmem_log_store :=
  Mk_store (foldl (λ m i, delete i m) (logs_ s) (range (start_idx_ s) last_log_index))
    (if start_idx_ s <=? last_log_index then u64 (last_log_index + 1) else start_idx_ s).
End store.
Arguments inmem_log_store E : clear implicits.

(** ** The log it implements *)

Section spec.
Context {E : Type} `{NR : !NuRaft E}.
Implicit Types (s : inmem_log_store E) (e : E).

(** What raft replicates of an entry. *)
Definition view (e : E) : Z * list Z * Z := (e_term e, e_buf e, e_type e).

Lemma view_clone e : view (make_clone e) = view e.
Proof. unfold view, make_clone. by rewrite new_entry_term, new_entry_buf, new_entry_type. Qed.
Lemma view_deserialize e : view (deserialize (serialize e)) = view e.
Proof. unfold view. by rewrite deserialize_term, deserialize_buf, deserialize_type. Qed.

(** The store holds the log [l] whose first entry has index [f]. *)
Record represents s (f : Z) (l : list (Z * list Z * Z)) : Prop := {
  rp_start : start_idx_ s = f;
  rp_first : 1 ≤ f;
  rp_width : f + Z.of_nat (length l) < 2 ^ 64;
  rp_dummy : is_Some (logs_ s !! 0);
  rp_logs i : i ≠ 0 → view <$> logs_ s !! i = if decide (f ≤ i) then l !! Z.to_nat (i - f) else None;
}.

Lemma rp_dom s f l : represents s f l →
  dom (logs_ s) = {[0]} ∪ list_to_set (range f (f + Z.of_nat (length l) - 1)).
Proof.
  intros R. apply set_eq. intros i. rewrite elem_of_dom, elem_of_union, elem_of_singleton, elem_of_list_to_set, elem_of_range.
  destruct (decide (i = 0)) as [->|Hi]; [split; [by left|intros _; apply (rp_dummy s f l R)]|].
  pose proof (rp_logs s f l R i Hi) as Hl. rewrite <-(fmap_is_Some view), Hl. pose proof (rp_first s f l R).
  case_decide.
  - rewrite lookup_lt_is_Some. lia.
  - split; [by intros [? ?]|lia].
Qed.

Lemma rp_next s f l : represents s f l → start_idx_ s + Z.of_nat (size (logs_ s)) - 1 = f + Z.of_nat (length l).
Proof.
  intros R. rewrite (rp_start s f l R), <-size_dom, (rp_dom s f l R). pose proof (rp_first s f l R).
  rewrite size_union, size_singleton, size_list_to_set, length_range; [lia|apply NoDup_range|].
  intros i. rewrite elem_of_singleton, elem_of_list_to_set, elem_of_range. lia.
Qed.

Lemma next_slot_spec s f l : represents s f l → next_slot s = f + Z.of_nat (length l).
Proof.
  intros R. unfold next_slot. rewrite (rp_next s f l R). apply wrap_small. unfold in_u.
  destruct R. lia.
Qed.

Lemma mk_store_represents : represents mk_store 1 [].
Proof.
  split; simpl; [done|lia|lia|by rewrite lookup_singleton_eq|]. intros i Hi.
  rewrite lookup_singleton_ne by done. by case_decide.
Qed.

(** Storing an entry at the end of the log. *)
Lemma insert_represents s m f l k e :
  represents s f l → 1 ≤ k → k = f + Z.of_nat (length l) → k + 1 < 2 ^ 64 →
  m = logs_ s → represents (Mk_store (<[k := e]> m) f) f (l ++ [view e]).
Proof.
  intros R Hk -> Hw ->. destruct R as [R1 R2 R3 R4 R5]. split; simpl; [done|done| | |].
  - rewrite length_app. simpl. lia.
  - by rewrite lookup_insert_ne by lia.
  - intros i Hi. destruct (decide (i = f + Z.of_nat (length l))) as [->|Hne].
    + rewrite lookup_insert_eq, decide_True by lia. simpl.
      rewrite lookup_app_r by lia. replace (_ - _)%nat with 0%nat by lia. done.
    + rewrite lookup_insert_ne, R5 by done. case_decide; [|done].
      destruct (decide (i < f + Z.of_nat (length l))); [by rewrite lookup_app_l by lia|].
      rewrite !lookup_ge_None_2; [done|rewrite length_app; simpl; lia|lia].
Qed.

(** Keeping the entries below an index. *)
Lemma below_represents s f l k :
  represents s f l → f ≤ k ≤ f + Z.of_nat (length l) →
  represents (Mk_store (filter (λ p, p.1 < k) (logs_ s)) f) f (take (Z.to_nat (k - f)) l).
Proof.
  intros [R1 R2 R3 R4 R5] Hk.
  assert (∀ i, filter (λ p, p.1 < k) (logs_ s) !! i = if decide (i < k) then logs_ s !! i else None) as Hf.
  { intros i. rewrite map_lookup_filter. destruct (logs_ s !! i); simpl; [|by case_decide].
    by repeat (case_guard || case_decide). }
  split; simpl; [done|done|rewrite length_take; lia|rewrite Hf, decide_True by lia; done|].
  intros i Hi. rewrite Hf. destruct (decide (i < k)) as [Hlt|Hge].
  - rewrite R5 by done. case_decide; [|done]. by rewrite lookup_take_lt by lia.
  - case_decide; [|done]. by rewrite lookup_take_ge by lia.
Qed.

(** Erasing a prefix of the indices. *)
Lemma lookup_deletes (m : gmap Z E) idxs i :
  foldl (λ m i, delete i m) m idxs !! i = if decide (i ∈ idxs) then None else m !! i.
Proof.
  revert m. induction idxs as [|k idxs IH]; intros m; cbn [foldl].
  { destruct (decide (i ∈ [])) as [H|]; [by apply not_elem_of_nil in H|done]. }
  rewrite IH. destruct (decide (i ∈ idxs)) as [Hi|Hi]; [by rewrite decide_True by by right|].
  destruct (decide (k = i)) as [->|Hne].
  - rewrite lookup_delete_eq. by rewrite decide_True by left.
  - rewrite lookup_delete_ne by done. rewrite decide_False; [done|].
    rewrite elem_of_cons. intros [?|?]; [by subst|done].
Qed.

Lemma compact_represents s f l last :
  represents s f l → f ≤ last → last + 1 < 2 ^ 64 →
  represents (compact s last) (last + 1) (drop (Z.to_nat (last + 1 - f)) l).
Proof.
  intros [R1 R2 R3 R4 R5] Hf Hw. unfold compact. rewrite R1, (proj2 (Z.leb_le f last)) by done.
  split; simpl.
  - apply wrap_small. unfold in_u. lia.
  - lia.
  - rewrite length_drop. lia.
  - rewrite lookup_deletes, decide_False; [done|]. rewrite elem_of_range. lia.
  - intros i Hi. rewrite lookup_deletes. destruct (decide (i ∈ _)) as [Hin|Hin]; rewrite elem_of_range in Hin.
    + by rewrite decide_False by lia.
    + rewrite R5 by done. destruct (decide (f ≤ i)) as [Hfi|Hfi]; [|by rewrite decide_False by lia].
      rewrite decide_True, lookup_drop by lia. f_equal. lia.
Qed.

(** The operations of the log and their meaning. *)
Inductive log_op := lo_append (e : E) | lo_write_at (index : Z) (e : E) | lo_compact (last : Z).
Definition log_exec s (op : log_op) : inmem_log_store E :=
  match op with
  | lo_append e => (log_append s e).2
  | lo_write_at i e => log_write_at s i e
  | lo_compact last => compact s last
  end.
Definition log_spec (fl : Z * list (Z * list Z * Z)) (op : log_op) : Z * list (Z * list Z * Z) :=
  let '(f, l) := fl in
  match op with
  | lo_append e => (f, l ++ [view e])
  | lo_write_at i e => (f, take (Z.to_nat (i - f)) l ++ [view e])
  | lo_compact last => if decide (f ≤ last) then (last + 1, drop (Z.to_nat (last + 1 - f)) l) else (f, l)
  end.
(** Indices stay at their width, and an overwrite leaves no gap. *)
Definition log_op_ok (fl : Z * list (Z * list Z * Z)) (op : log_op) : Prop :=
  let '(f, l) := fl in
  match op with
  | lo_append _ => f + Z.of_nat (length l) + 1 < 2 ^ 64
  | lo_write_at i _ => f ≤ i ≤ f + Z.of_nat (length l) ∧ i + 1 < 2 ^ 64
  | lo_compact last => last + 1 < 2 ^ 64
  end.
Fixpoint log_ops_ok (fl : Z * list (Z * list Z * Z)) (ops : list log_op) : Prop :=
  match ops with [] => True | op :: ops => log_op_ok fl op ∧ log_ops_ok (log_spec fl op) ops end.

Lemma log_exec_spec s f l op :
  represents s f l → log_op_ok (f, l) op →
  represents (log_exec s op) (log_spec (f, l) op).1 (log_spec (f, l) op).2.
Proof.
  intros R Hok. pose proof (rp_first s f l R) as Hf. destruct op as [e|i e|last]; cbn [log_exec log_spec fst snd log_op_ok] in *.
  - unfold log_append. cbn [snd]. pose proof (next_slot_spec s f l R) as Hn. unfold next_slot in Hn.
    rewrite Hn, (rp_start s f l R), <-view_clone. apply (insert_represents s _ f l); [done|lia|done|done|done].
  - destruct Hok as [Hi Hw]. unfold log_write_at. rewrite (rp_start s f l R), <-view_clone.
    eapply insert_represents; [by apply below_represents|lia|rewrite length_take; lia|done|done].
  - case_decide; [by apply compact_represents|]. unfold compact. rewrite (rp_start s f l R).
    rewrite range_nil by lia. rewrite (proj2 (Z.leb_gt f last)) by lia. cbn.
    destruct R as [R1 R2 R3 R4 R5]. by split.
Qed.

Lemma log_run_spec s f l ops :
  represents s f l → log_ops_ok (f, l) ops →
  represents (foldl log_exec s ops) (foldl log_spec (f, l) ops).1 (foldl log_spec (f, l) ops).2.
Proof.
  revert s f l. induction ops as [|op ops IH]; intros s f l R Hok; [done|]. destruct Hok as [H1 H2].
  cbn [foldl]. pose proof (log_exec_spec s f l op R H1) as R'.
  destruct (log_spec (f, l) op) as [f' l']. by apply IH.
Qed.

Lemma view_at s f l i :
  represents s f l → f ≤ i < f + Z.of_nat (length l) →
  ∃ e, logs_ s !! i = Some e ∧ l !! Z.to_nat (i - f) = Some (view e).
Proof.
  intros R Hi. pose proof (rp_logs s f l R i) as Hl. pose proof (rp_first s f l R).
  rewrite decide_True in Hl by lia. destruct (lookup_lt_is_Some_2 l (Z.to_nat (i - f))) as [v Hv]; [lia|].
  rewrite Hv in Hl. destruct (logs_ s !! i) as [e|]; [|specialize (Hl ltac:(lia)); done].
  exists e. split; [done|]. rewrite Hv. symmetry. apply Hl. lia.
Qed.

Lemma log_entries_spec s f l a b :
  represents s f l → f ≤ a → a ≤ b → b ≤ f + Z.of_nat (length l) →
  ∃ es, mapM (λ i, logs_ s !! i) (range a (b - 1)) = Some es ∧
    view <$> es = take (Z.to_nat (b - a)) (drop (Z.to_nat (a - f)) l).
Proof.
  intros R Ha Hab Hb. remember (Z.to_nat (b - a)) as n eqn:Hn. revert a Ha Hab Hn.
  induction n as [|n IH]; intros a Ha Hab Hn.
  { rewrite range_nil by lia. exists []. by split. }
  rewrite range_cons by lia. destruct (view_at s f l a R) as (e & He & Hl); [lia|].
  destruct (IH (a + 1)) as (es & Hes & Hv); [lia..|]. exists (e :: es). cbn [mapM]. rewrite He. cbn. rewrite Hes.
  split; [done|]. cbn [fmap list_fmap]. rewrite (drop_S _ (view e) _ Hl). cbn [take]. f_equal.
  rewrite Hv. replace (Z.to_nat (a + 1 - f)) with (S (Z.to_nat (a - f))) by lia. done.
Qed.

Lemma log_entries_clones s a b es :
  a ≤ b → mapM (λ i, logs_ s !! i) (range a (b - 1)) = Some es → log_entries s a b = Some (make_clone <$> es).
Proof.
  intros Hab Hes. unfold log_entries. rewrite (proj2 (Z.ltb_ge b a)) by lia. revert es Hes.
  induction (range a (b - 1)) as [|i idxs IH]; intros es; cbn [mapM]; [by intros [= <-]|].
  destruct (logs_ s !! i) as [e|]; cbn; [|done]. destruct (mapM (λ i, logs_ s !! i) idxs) as [es'|]; cbn; [|done].
  intros [= <-]. by rewrite (IH es' eq_refl).
Qed.

(** C37: The store implements a log. After any run of appends, overwrites and compactions
    that keep indices at their width and leave no gap, it holds exactly the entries the run
    means: the next slot is one past the last; every index of the log has its entry and
    term; a range of indices gives its entries in order, with every assertion holding; and
    the last entry of a log that is not empty is the log's last. *)
Theorem log_store_refines ops :
  log_ops_ok (1, []) ops →
  let s := foldl log_exec mk_store ops in
  let '(f, l) := foldl log_spec (1, []) ops in
  start_idx_ s = f ∧ next_slot s = f + Z.of_nat (length l) ∧
  (∀ i, f ≤ i < f + Z.of_nat (length l) →
     ∃ e, entry_at s i = Some e ∧ term_at s i = Some (e_term e) ∧ l !! Z.to_nat (i - f) = Some (view e)) ∧
  (∀ a b, f ≤ a → a ≤ b → b ≤ f + Z.of_nat (length l) →
     ∃ es, log_entries s a b = Some es ∧ view <$> es = take (Z.to_nat (b - a)) (drop (Z.to_nat (a - f)) l)) ∧
  (l ≠ [] → ∃ e, last_entry s = Some e ∧ last l = Some (view e)).
Proof.
  intros Hok s. pose proof (log_run_spec mk_store 1 [] ops mk_store_represents Hok) as R. fold s in R.
  destruct (foldl log_spec (1, []) ops) as [f l]. cbn [fst snd] in R.
  assert (∀ i, f ≤ i < f + Z.of_nat (length l) →
     ∃ e, find_or_dummy s i = Some e ∧ l !! Z.to_nat (i - f) = Some (view e)) as Hat.
  { intros i Hi. destruct (view_at s f l i R Hi) as (e & He & Hl). exists e. unfold find_or_dummy. by rewrite He. }
  split_and!; [apply R|by apply next_slot_spec|..].
  - intros i Hi. destruct (Hat i Hi) as (e & He & Hl). exists (make_clone e). unfold entry_at, term_at. rewrite He, view_clone.
    split_and!; [done| |done]. simpl. unfold make_clone. by rewrite new_entry_term.
  - intros a b Ha Hab Hb. destruct (log_entries_spec s f l a b R Ha Hab Hb) as (es & Hes & Hv).
    exists (make_clone <$> es). split; [by apply log_entries_clones|]. rewrite <-Hv, <-list_fmap_compose.
    apply list_fmap_ext. intros _ e _. apply view_clone.
  - intros Hne. pose proof (rp_first s f l R). pose proof (rp_width s f l R).
    assert (length l ≠ 0%nat) by (by destruct l). unfold last_entry. rewrite (next_slot_spec s f l R).
    unfold u64. rewrite wrap_small by (unfold in_u; lia).
    destruct (Hat (f + Z.of_nat (length l) - 1)) as (e & He & Hl); [lia|]. rewrite He. exists (make_clone e).
    split; [done|]. rewrite view_clone, <-Hl, last_lookup. f_equal. lia.
Qed.

(** ** Packed runs *)


Lemma take_bytes_app b bs : take_bytes (Z.of_nat (length b)) (b ++ bs) = Some (b, bs).
Proof.
  unfold take_bytes. rewrite decide_True by (rewrite length_app; lia). rewrite Nat2Z.id.
  by rewrite take_app_length, drop_app_length.
Qed.
Lemma take_int_app n bs : - 2 ^ 31 ≤ n < 2 ^ 31 → take_int (put_int n ++ bs) = Some (n, bs).
Proof.
  intros Hn. unfold take_int. pose proof (take_bytes_app (put_int n) bs) as H. rewrite put_int_length in H.
  change (Z.of_nat 4) with 4 in H. rewrite H. cbn. by rewrite get_put_int.
Qed.

Lemma apply_entries_spec es m f l rest :
  represents (Mk_store m f) f l → f + Z.of_nat (length l + length es) < 2 ^ 64 →
  Forall (λ e, Z.of_nat (length (serialize e)) < 2 ^ 31) es →
  ∃ m', apply_entries (length es) (f + Z.of_nat (length l)) (concat (pack_entry <$> es) ++ rest) m = Some m' ∧
    represents (Mk_store m' f) f (l ++ (view <$> es)).
Proof.
  revert m l. induction es as [|e es IH]; intros m l R Hw Hlen; cbn [length apply_entries].
  { exists m. split; [done|]. by rewrite app_nil_r. }
  apply Forall_cons in Hlen as [He Hlen]. cbn [fmap list_fmap concat]. unfold pack_entry at 1.
  rewrite to_i32_small, <-!(assoc_L (++)), take_int_app by (unfold in_i32; lia). cbn. rewrite take_bytes_app. cbn.
  pose proof (rp_first _ _ _ R). cbn [length] in Hw.
  destruct (IH (<[f + Z.of_nat (length l) := deserialize (serialize e)]> m) (l ++ [view e])) as (m' & Hm & R').
  - rewrite <-view_deserialize. apply (insert_represents _ _ f l _ _ R); [lia|done|lia|done].
  - rewrite length_app. simpl. lia.
  - done.
  - exists m'. rewrite <-(assoc_L (++)) in R'. split; [|done]. rewrite <-Hm.
    unfold u64. rewrite wrap_small by (unfold in_u; lia). rewrite length_app. simpl. f_equal. lia.
Qed.

Lemma foldl_min_spec k ks : foldl Z.min k ks ∈ k :: ks ∧ ∀ x, x ∈ k :: ks → foldl Z.min k ks ≤ x.
Proof.
  revert k. induction ks as [|y ks IH]; intros k; simpl.
  { split; [by left|]. intros x Hx%list_elem_of_singleton. lia. }
  destruct (IH (Z.min k y)) as [H1 H2]. split.
  - apply elem_of_cons in H1 as [->|H1]; [|by do 2 right]. destruct (Z.min_spec k y) as [[_ ->]|[_ ->]]; [left|right; left].
  - intros x [->|[->|Hx]%elem_of_cons]%elem_of_cons; [| |by apply H2; right].
    all: etrans; [apply (H2 (Z.min k y)); left|lia].
Qed.

Lemma first_index_spec m f l : represents (Mk_store m f) f l → l ≠ [] → first_index m = f.
Proof.
  intros R Hl. pose proof (rp_dom _ _ _ R) as Hd. cbn [logs_] in Hd. pose proof (rp_first _ _ _ R).
  assert (length l ≠ 0%nat) by (by destruct l).
  assert (∀ k, k ∈ filter (λ k, 0 < k) (elements (dom m)) ↔ f ≤ k ≤ f + Z.of_nat (length l) - 1) as Hk.
  { intros k. rewrite list_elem_of_filter, elem_of_elements, Hd, elem_of_union, elem_of_singleton, elem_of_list_to_set,
      elem_of_range. lia. }
  unfold first_index. destruct (filter _ (elements (dom m))) as [|k ks] eqn:He.
  { assert (f ∈ []) as Hf%not_elem_of_nil by (apply Hk; lia). done. }
  destruct (foldl_min_spec k ks) as [H1 H2]. apply Hk in H1.
  assert (foldl Z.min k ks ≤ f) by (apply H2, Hk; lia). lia.
Qed.

(** A run of the log that one store packs and an empty store applies at the same index is
    the same run there: the copy starts at that index and holds exactly those entries. *)
Theorem pack_roundtrip s f l a cnt :
  represents s f l → f ≤ a → 1 ≤ cnt < 2 ^ 31 → a + cnt ≤ f + Z.of_nat (length l) →
  (∀ i e, logs_ s !! i = Some e → Z.of_nat (length (serialize e)) < 2 ^ 31) →
  ∃ bs s', pack s a cnt = Some bs ∧ apply_pack mk_store a bs = Some s' ∧
    represents s' a (take (Z.to_nat cnt) (drop (Z.to_nat (a - f)) l)) ∧ next_slot s' = a + cnt.
Proof.
  intros R Ha Hc Hb Hlen. pose proof (rp_first s f l R). pose proof (rp_width s f l R).
  destruct (log_entries_spec s f l a (a + cnt) R) as (es & Hes & Hv); [lia..|].
  assert (length es = Z.to_nat cnt) as Hl.
  { apply length_mapM in Hes. rewrite length_range in Hes. lia. }
  unfold pack, u64. rewrite wrap_small by (unfold in_u; lia). rewrite Hes. cbn [mbind option_bind].
  destruct (apply_entries_spec es {[0 := dummy]} a [] []) as (m' & Hm & R').
  - destruct mk_store_represents as [_ _ _ R4 R5]. split; simpl; [done|lia|lia|done|].
    intros i Hi. rewrite lookup_singleton_ne by done. by case_decide.
  - cbn [length]. lia.
  - apply Forall_forall. intros e [k Hk]%list_elem_of_lookup. apply mapM_Some_1 in Hes.
    destruct (Forall2_lookup_r _ _ _ _ _ Hes Hk) as (i & _ & He). by apply (Hlen i).
  - rewrite app_nil_r in Hm. cbn [length app] in Hm, R'. rewrite Z.add_0_r in Hm.
    assert (represents (Mk_store m' (first_index m')) a (view <$> es)) as R''.
    { rewrite (first_index_spec m' a _ R') by (by destruct es; [simpl in Hl; lia|]). done. }
    eexists _, _. split; [done|]. unfold apply_pack. rewrite take_int_app by lia. cbn [mbind option_bind].
    change (logs_ mk_store) with ({[0 := dummy]} : gmap Z E). rewrite <-Hl, Hm. cbn [mbind option_bind]. split; [done|].
    replace (a + cnt - a) with cnt in Hv by lia. rewrite Hl, <-Hv. split; [done|].
    rewrite (next_slot_spec _ _ _ R''), length_fmap, Hl. lia.
Qed.
End spec.

(** ** An example log *)

#[local] Instance example_raft : NuRaft (Z * list Z * Z * Z).
Proof.
  refine {| e_term e := e.1.1.1; e_buf e := e.1.1.2; e_type e := e.1.2; e_timestamp e := e.2;
            new_entry t b ty ts := (t, b, ty, ts); dummy := (0, replicate 8 0, 1, 0);
            serialize e := e.1.1.1 :: e.1.2 :: e.1.1.2;
            deserialize bs := match bs with t :: ty :: b => (t, b, ty, 0) | _ => (0, [], 0, 0) end;
            put_int n := [n; 0; 0; 0]; get_int32 bs := match bs with n :: _ => n | [] => 0 end |}; done.
Defined.
Definition example_log_ops : list (log_op (E := Z * list Z * Z * Z)) :=
  [lo_append (1, [7], 1, 0); lo_append (1, [8], 1, 0); lo_append (1, [9], 1, 0);
   lo_write_at 3 (2, [5], 1, 0); lo_compact 1].

Lemma log_store_refines_witness :
  next_slot (foldl log_exec mk_store example_log_ops) = 4 ∧
  start_idx_ (foldl log_exec mk_store example_log_ops) = 2.
Proof.
  assert (log_ops_ok (1, []) example_log_ops) as Hok by (cbn; split_and!; try done; lia).
  pose proof (log_store_refines example_log_ops Hok) as H. cbv zeta in H.
  destruct (foldl log_spec (1, []) example_log_ops) as [f l] eqn:He. vm_compute in He. injection He as <- <-.
  destruct H as (H1 & H2 & _). split; [rewrite H2; reflexivity|exact H1].
Defined.

Lemma pack_roundtrip_witness :
  ∃ bs s', pack (foldl log_exec mk_store example_log_ops) 2 2 = Some bs ∧
    apply_pack (E := Z * list Z * Z * Z) mk_store 2 bs = Some s' ∧ next_slot s' = 4.
Proof.
  assert (log_ops_ok (1, []) example_log_ops) as Hok by (cbn; split_and!; try done; lia).
  pose proof (log_run_spec mk_store 1 [] example_log_ops mk_store_represents Hok) as R.
  destruct (pack_roundtrip _ _ _ 2 2 R) as (bs & s' & H1 & H2 & _ & H3); [by_eval..| |].
  - assert (map_Forall (λ _ e, Z.of_nat (length (serialize e)) < 2 ^ 31)
      (logs_ (foldl log_exec mk_store example_log_ops))) as Hf by by_eval. exact Hf.
  - exists bs, s'. split_and!; [exact H1|exact H2|exact H3].
Defined.
