(* ===== verification/Watchdog.v ===== *)
(** * The watchdog timer service

    [src/watchdog.cpp]: timers in a map, a min-heap of deadlines in which a reset leaves
    stale entries behind, and the worker that pops due entries and runs the callbacks
    outside the lock.  Times are the clock's ticks; the worker's loop is cut where it
    releases the lock: [run_pop] up to the callback and [run_after] behind it, with any
    client calls in between, the callback's own included. *)

From S2P Require Import Prelude.

Local Open Scope Z_scope.

(** ** State *)

Record TimerState := Mk_timer { ts_deadline : Z; ts_period : Z; ts_recurring : bool; ts_generation : Z }.
Record HeapEntry := Mk_entry { he_deadline : Z; he_id : Z; he_generation : Z }.
#[export] Instance HeapEntry_eq_dec : EqDecision HeapEntry.
Proof. solve_decision. Defined.
Record Watchdog := Mk_watchdog { wd_heap : list HeapEntry; wd_timers : gmap Z TimerState; wd_next_id : Z }.
Definition mk_watchdog : Watchdog := Mk_watchdog [] ∅ 1.

(** ** Client calls *)

Definition add_timer (now delay : Z) (period : option Z) (w : Watchdog) : Z * Watchdog :=
  let id := wd_next_id w in
  let state := Mk_timer (now + delay) (default delay period) (bool_decide (is_Some period)) 0 in
  (id, Mk_watchdog (Mk_entry (ts_deadline state) id 0 :: wd_heap w) (<[id := state]> (wd_timers w)) (u64 (id + 1))).
Definition add_oneshot (now delay : Z) : Watchdog → Z * Watchdog := add_timer now delay None.
Definition add_recurring (now period : Z) : Watchdog → Z * Watchdog := add_timer now period (Some period).

Definition wd_reset (now id : Z) (w : Watchdog) : bool * Watchdog :=
  match wd_timers w !! id with
  | None => (false, w)
  | Some s =>
      let s := Mk_timer (now + ts_period s) (ts_period s) (ts_recurring s) (u64 (ts_generation s + 1)) in
      (true, Mk_watchdog (Mk_entry (ts_deadline s) id (ts_generation s) :: wd_heap w) (<[id := s]> (wd_timers w))
               (wd_next_id w))
  end.

Definition wd_cancel (id : Z) (w : Watchdog) : bool * Watchdog :=
  (bool_decide (is_Some (wd_timers w !! id)), Mk_watchdog (wd_heap w) (delete id (wd_timers w)) (wd_next_id w)).

(** ** The worker *)

(** [heap_.top()]: an entry with the least deadline. *)
Definition is_top (w : Watchdog) (e : HeapEntry) : Prop :=
  e ∈ wd_heap w ∧ ∀ e', e' ∈ wd_heap w → he_deadline e ≤ he_deadline e'.

(** What the worker keeps of the timer across the callback. *)
Record firing := Mk_firing { fr_id : Z; fr_recurring : bool; fr_period : Z; fr_generation : Z }.

(** The entry is popped; a cancelled or stale one is dropped, otherwise the callback runs. *)
Fixpoint remove_entry (e : HeapEntry) (h : list HeapEntry) : list HeapEntry :=
  match h with [] => [] | x :: h => if decide (x = e) then h else x :: remove_entry e h end.
Definition run_pop (e : HeapEntry) (w : Watchdog) : option firing * Watchdog :=
  let w := Mk_watchdog (remove_entry e (wd_heap w)) (wd_timers w) (wd_next_id w) in
  match wd_timers w !! he_id e with
  | None => (None, w)
  | Some s =>
      if negb (ts_generation s =? he_generation e) then (None, w)
      else (Some (Mk_firing (he_id e) (ts_recurring s) (ts_period s) (ts_generation s)), w)
  end.

(** After the callback.  Ids are never reused, so the timer found is the one that fired. *)
Definition run_after (now : Z) (fr : firing) (w : Watchdog) : Watchdog :=
  if fr_recurring fr then
    match wd_timers w !! fr_id fr with
    | Some s =>
        if ts_generation s =? fr_generation fr then
          let s := Mk_timer (now + fr_period fr) (ts_period s) (ts_recurring s) (ts_generation s) in
          Mk_watchdog (Mk_entry (ts_deadline s) (fr_id fr) (ts_generation s) :: wd_heap w)
            (<[fr_id fr := s]> (wd_timers w)) (wd_next_id w)
        else w
    | None => w
    end
  else Mk_watchdog (wd_heap w) (delete (fr_id fr) (wd_timers w)) (wd_next_id w).

(** ** Runs *)

(** The service and the callback that is running. *)
Record wd_state := Mk_wd { wd_of : Watchdog; wd_firing : option firing }.

(** One step, with the timer it fires; the counters stay below their width. *)
Inductive wd_step : wd_state → option Z → wd_state → Prop :=
| ws_add now delay period w f :
    wd_next_id w + 1 < 2 ^ 64 → wd_step (Mk_wd w f) None (Mk_wd (add_timer now delay period w).2 f)
| ws_reset now id w f :
    (∀ s, wd_timers w !! id = Some s → ts_generation s + 1 < 2 ^ 64) →
    wd_step (Mk_wd w f) None (Mk_wd (wd_reset now id w).2 f)
| ws_cancel id w f : wd_step (Mk_wd w f) None (Mk_wd (wd_cancel id w).2 f)
| ws_pop now e w :
    is_top w e → he_deadline e ≤ now →
    wd_step (Mk_wd w None) (fr_id <$> (run_pop e w).1) (Mk_wd (run_pop e w).2 (run_pop e w).1)
| ws_after now fr w : wd_step (Mk_wd w (Some fr)) None (Mk_wd (run_after now fr w) None).

(** ** The invariant *)

Definition entry_key (e : HeapEntry) : Z * Z := (he_id e, he_generation e).
Definition firing_keys (f : option firing) : list (Z * Z) :=
  match f with Some fr => [(fr_id fr, fr_generation fr)] | None => [] end.

Record wd_inv (s : wd_state) : Prop := {
  wi_next : 1 ≤ wd_next_id (wd_of s);
  wi_keys : NoDup (firing_keys (wd_firing s) ++ (entry_key <$> wd_heap (wd_of s)));
  wi_ids k : k ∈ firing_keys (wd_firing s) ++ (entry_key <$> wd_heap (wd_of s)) → 1 ≤ k.1 < wd_next_id (wd_of s);
  wi_timers id t : wd_timers (wd_of s) !! id = Some t → 1 ≤ id < wd_next_id (wd_of s) ∧ 0 ≤ ts_generation t;
  wi_gens k t : k ∈ firing_keys (wd_firing s) ++ (entry_key <$> wd_heap (wd_of s)) →
    wd_timers (wd_of s) !! k.1 = Some t → k.2 ≤ ts_generation t;
  wi_live e t : e ∈ wd_heap (wd_of s) → wd_timers (wd_of s) !! he_id e = Some t →
    he_generation e = ts_generation t → he_deadline e = ts_deadline t;
  wi_armed id t : wd_timers (wd_of s) !! id = Some t →
    (id, ts_generation t) ∈ firing_keys (wd_firing s) ++ (entry_key <$> wd_heap (wd_of s));
}.

Lemma mk_watchdog_inv : wd_inv (Mk_wd mk_watchdog None).
Proof.
  split; simpl; try done; [constructor|..].
  - by intros k ?%not_elem_of_nil.
Qed.

Lemma remove_entry_perm e h : e ∈ h → h ≡ₚ e :: remove_entry e h.
Proof.
  induction h as [|x h IH]; intros He; [by apply not_elem_of_nil in He|]. simpl. case_decide as Hx; [by subst|].
  apply elem_of_cons in He as [->|He]; [done|]. rewrite (IH He) at 1. apply perm_swap.
Qed.

(** A new current entry for timer [id]: a first one, one of the next generation, or the one
    just fired put back. *)
Lemma push_inv w f id t d next :
  wd_inv (Mk_wd w f) →
  1 ≤ id < next → wd_next_id w ≤ next → 0 ≤ ts_generation t → d = ts_deadline t →
  (id, ts_generation t) ∉ firing_keys f ++ (entry_key <$> wd_heap w) →
  (∀ g, (id, g) ∈ firing_keys f ++ (entry_key <$> wd_heap w) → g ≤ ts_generation t) →
  wd_inv (Mk_wd (Mk_watchdog (Mk_entry d id (ts_generation t) :: wd_heap w) (<[id := t]> (wd_timers w)) next) f).
Proof.
  intros [I1 I2 I3 I4 I5 I6 I7] Hid Hn Hg -> Hnew Hle. cbn [wd_of wd_firing] in *.
  assert (∀ k, k ∈ firing_keys f ++ (entry_key <$> Mk_entry (ts_deadline t) id (ts_generation t) :: wd_heap w) ↔
    k = (id, ts_generation t) ∨ k ∈ firing_keys f ++ (entry_key <$> wd_heap w)) as Hk.
  { intros k. rewrite fmap_cons, <-Permutation_middle, elem_of_cons. done. }
  split; cbn [wd_of wd_firing wd_heap wd_timers wd_next_id]; [lia| | | | | |].
  - rewrite fmap_cons, <-Permutation_middle. by constructor.
  - intros k [->|Hin]%Hk; [simpl; lia|]. specialize (I3 k Hin). lia.
  - intros i t' [[<- <-]|[Hne Ht]]%lookup_insert_Some; [done|]. specialize (I4 i t' Ht). lia.
  - intros k t' [->|Hin]%Hk [[Heq <-]|[Hne Ht]]%lookup_insert_Some; try done.
    + apply Hle. by destruct k; simpl in *; subst.
    + by apply I5.
  - intros e t' He Ht. apply elem_of_cons in He as [->|He]; apply lookup_insert_Some in Ht as [[Heq <-]|[Hne Ht]]; try done.
    + intros Hgen. destruct Hnew. apply elem_of_app. right. rewrite Heq, <-Hgen.
      by apply (list_elem_of_fmap_2 entry_key) in He.
    + by apply I6.
  - intros i t' [[<- <-]|[Hne Ht]]%lookup_insert_Some; apply Hk; [by left|right; by apply I7].
Qed.

(** Dropping an entry or a callback that no timer is waiting for, and forgetting timers. *)
Lemma drop_inv s w' f' :
  wd_inv s → wd_next_id w' = wd_next_id (wd_of s) → wd_timers w' ⊆ wd_timers (wd_of s) →
  (∀ e, e ∈ wd_heap w' → e ∈ wd_heap (wd_of s)) →
  (firing_keys f' ++ (entry_key <$> wd_heap w')) ⊆+ (firing_keys (wd_firing s) ++ (entry_key <$> wd_heap (wd_of s))) →
  (∀ id t, wd_timers w' !! id = Some t →
     (id, ts_generation t) ∈ firing_keys f' ++ (entry_key <$> wd_heap w')) →
  wd_inv (Mk_wd w' f').
Proof.
  intros [I1 I2 I3 I4 I5 I6 I7] Hn Ht Hh Hk Ha. split; cbn [wd_of wd_firing]; rewrite ?Hn.
  - done.
  - apply submseteq_Permutation in Hk as [k' Hp]. rewrite Hp in I2. by apply NoDup_app in I2 as [? _].
  - intros k Hin. apply I3. by eapply elem_of_submseteq.
  - intros id t Hl. apply I4. by eapply lookup_weaken.
  - intros k t Hin Hl. eapply I5; [by eapply elem_of_submseteq|by eapply lookup_weaken].
  - intros e t He Hl. eapply I6; [by apply Hh|by eapply lookup_weaken].
  - done.
Qed.

Lemma add_timer_inv now delay period w f :
  wd_inv (Mk_wd w f) → wd_next_id w + 1 < 2 ^ 64 → wd_inv (Mk_wd (add_timer now delay period w).2 f).
Proof.
  intros I Hw. pose proof (wi_next _ I) as H1. pose proof (wi_ids _ I) as Hids. cbn [wd_of wd_firing] in *.
  unfold add_timer, u64. cbn [snd]. rewrite wrap_small by (unfold in_u; lia).
  apply (push_inv w f _ (Mk_timer _ _ _ _)); try done; cbn; try lia; [|intros g Hg]; try (intros Hg); specialize (Hids _ Hg); simpl in Hids; lia.
Qed.

Lemma wd_reset_inv now id w f :
  wd_inv (Mk_wd w f) → (∀ s, wd_timers w !! id = Some s → ts_generation s + 1 < 2 ^ 64) →
  wd_inv (Mk_wd (wd_reset now id w).2 f).
Proof.
  intros I Hw. unfold wd_reset. destruct (wd_timers w !! id) as [t|] eqn:Ht; [|done]. cbn [snd].
  destruct (wi_timers _ I id t Ht) as [Hid Hg]. specialize (Hw t eq_refl). cbn [wd_of] in *.
  unfold u64. rewrite wrap_small by (unfold in_u; lia).
  apply (push_inv w f _ (Mk_timer _ _ _ _)); try done; cbn [ts_generation]; try lia.
  - intros Hin. pose proof (wi_gens _ I _ t Hin Ht) as Hx. simpl in Hx. lia.
  - intros g Hin. pose proof (wi_gens _ I _ t Hin Ht) as Hx. simpl in Hx. lia.
Qed.

Lemma forget_inv id w f f' :
  wd_inv (Mk_wd w f) → (f' = f ∨ f' = None ∧ ∀ fr, f = Some fr → fr_id fr = id) →
  wd_inv (Mk_wd (Mk_watchdog (wd_heap w) (delete id (wd_timers w)) (wd_next_id w)) f').
Proof.
  intros I Hf. apply (drop_inv _ _ _ I); cbn [wd_of wd_firing wd_heap wd_timers wd_next_id]; [done|apply delete_subseteq|done| |].
  - apply submseteq_app; [|done]. destruct Hf as [->|[-> _]]; [done|]. apply submseteq_nil_l.
  - intros i t [Hne Ht]%lookup_delete_Some. pose proof (wi_armed _ I i t Ht) as Ha. cbn [wd_of wd_firing] in Ha.
    destruct Hf as [->|[-> Hf]]; [done|]. apply elem_of_app in Ha as [Ha|Ha]; [|done].
    destruct f as [fr|]; [|by apply not_elem_of_nil in Ha]. apply list_elem_of_singleton in Ha.
    destruct Hne. specialize (Hf fr eq_refl). congruence.
Qed.

Lemma run_pop_inv e w :
  wd_inv (Mk_wd w None) → e ∈ wd_heap w → wd_inv (Mk_wd (run_pop e w).2 (run_pop e w).1).
Proof.
  intros I He. pose proof (remove_entry_perm e (wd_heap w) He) as Hp. unfold run_pop. cbn [wd_timers].
  assert (∀ e', e' ∈ remove_entry e (wd_heap w) → e' ∈ wd_heap w) as Hin by (intros e' ?; rewrite Hp; by right).
  assert (wd_inv (Mk_wd w None) → (∀ t, wd_timers w !! he_id e = Some t → ts_generation t ≠ he_generation e) →
    wd_inv (Mk_wd (Mk_watchdog (remove_entry e (wd_heap w)) (wd_timers w) (wd_next_id w)) None)) as Hskip.
  { intros _ Hstale. apply (drop_inv _ _ _ I); cbn [wd_of wd_firing wd_heap wd_timers wd_next_id firing_keys app]; try done.
    - rewrite Hp at 2. rewrite fmap_cons. by apply submseteq_cons.
    - intros i t Ht. pose proof (wi_armed _ I i t Ht) as Ha. cbn in Ha. rewrite Hp, fmap_cons in Ha.
      apply elem_of_cons in Ha as [Ha|Ha]; [|done]. injection Ha as -> Hg. by destruct (Hstale t). }
  destruct (wd_timers w !! he_id e) as [t|] eqn:Ht; [|by apply Hskip].
  destruct (Z.eqb_spec (ts_generation t) (he_generation e)) as [Hg|Hg]; cbn [negb fst snd]; [|apply Hskip; [done|]; by intros ? [= <-]].
  assert (firing_keys (Some (Mk_firing (he_id e) (ts_recurring t) (ts_period t) (ts_generation t))) ++
    (entry_key <$> remove_entry e (wd_heap w)) ≡ₚ entry_key <$> wd_heap w) as Hk.
  { rewrite Hp at 2. rewrite fmap_cons, Hg. done. }
  apply (drop_inv _ _ _ I); cbn [wd_of wd_firing wd_heap wd_timers wd_next_id]; try done.
  - by rewrite Hk.
  - intros i t' Ht'. rewrite Hk. by apply (wi_armed _ I).
Qed.

Lemma run_after_inv now fr w : wd_inv (Mk_wd w (Some fr)) → wd_inv (Mk_wd (run_after now fr w) None).
Proof.
  intros I. unfold run_after. destruct (fr_recurring fr).
  2: { apply (forget_inv _ _ _ _ I). right. split; [done|]. by intros ? [= <-]. }
  assert ((∀ t, wd_timers w !! fr_id fr = Some t → ts_generation t ≠ fr_generation fr) → wd_inv (Mk_wd w None)) as Hdone.
  { intros Hstale. apply (drop_inv _ _ _ I); cbn [wd_of wd_firing]; try done.
    - apply submseteq_app; [apply submseteq_nil_l|done].
    - intros i t Ht. pose proof (wi_armed _ I i t Ht) as Ha. cbn in Ha.
      apply elem_of_cons in Ha as [Ha|Ha]; [|done]. injection Ha as -> Hg. by destruct (Hstale t). }
  destruct (wd_timers w !! fr_id fr) as [t|] eqn:Ht; [|by apply Hdone].
  destruct (Z.eqb_spec (ts_generation t) (fr_generation fr)) as [Hg|Hg]; [|apply Hdone; by intros ? [= <-]].
  destruct (wi_timers _ I _ t Ht) as [Hid Hgen]. cbn [wd_of] in Hid.
  assert (wd_inv (Mk_wd (Mk_watchdog (wd_heap w) (delete (fr_id fr) (wd_timers w)) (wd_next_id w)) None)) as I'.
  { apply (forget_inv _ _ _ _ I). right. split; [done|]. by intros ? [= <-]. }
  rewrite <-insert_delete_eq.
  apply (push_inv _ _ _ (Mk_timer _ _ _ _) _ _ I'); cbn; try done.
  - rewrite Hg. pose proof (wi_keys _ I) as Hnd. cbn in Hnd. by apply NoDup_cons in Hnd as [? _].
  - intros g Hin. apply (wi_gens _ I (fr_id fr, g) t); [|done]. cbn. by right.
Qed.

Lemma wd_step_inv s ev s' : wd_inv s → wd_step s ev s' → wd_inv s'.
Proof.
  intros I. destruct 1.
  - by apply add_timer_inv.
  - by apply wd_reset_inv.
  - apply (forget_inv _ _ _ _ I). by left.
  - apply run_pop_inv; [done|]. by destruct H.
  - by apply run_after_inv.
Qed.

(** Runs with the timers they fire. *)
Inductive wd_run : wd_state → list Z → wd_state → Prop :=
| wr_nil s : wd_run s [] s
| wr_cons s ev s1 evs s2 :
    wd_step s ev s1 → wd_run s1 evs s2 → wd_run s (option_list ev ++ evs) s2.

Lemma wd_run_inv s evs s' : wd_inv s → wd_run s evs s' → wd_inv s'.
Proof. intros I H. induction H; [done|]. apply IHwd_run. by eapply wd_step_inv. Qed.

(** C36: No timer is lost and none fires early or twice. In every reachable state a
    registered timer has an entry for its deadline in the heap, unless its callback is
    running; so when a deadline has passed and no callback runs, the top of the heap is due;
    and an entry whose pop runs a callback belongs to a timer that is registered with that
    generation and whose deadline has passed, and leaves no second entry for it behind. *)
Theorem watchdog_exact evs w f :
  wd_run (Mk_wd mk_watchdog None) evs (Mk_wd w f) →
  (∀ id t, wd_timers w !! id = Some t →
     Mk_entry (ts_deadline t) id (ts_generation t) ∈ wd_heap w ∨
     ∃ fr, f = Some fr ∧ fr_id fr = id ∧ fr_generation fr = ts_generation t) ∧
  (f = None → ∀ id t now, wd_timers w !! id = Some t → ts_deadline t ≤ now →
     ∀ e, is_top w e → he_deadline e ≤ now) ∧
  (f = None → ∀ e now fr w', is_top w e → he_deadline e ≤ now → run_pop e w = (Some fr, w') →
     ∃ t, wd_timers w !! fr_id fr = Some t ∧ ts_generation t = fr_generation fr ∧ ts_deadline t ≤ now ∧
       (fr_id fr, fr_generation fr) ∉ entry_key <$> wd_heap w').
Proof.
  intros Hr. apply wd_run_inv in Hr as I; [|apply mk_watchdog_inv].
  assert (∀ id t, wd_timers w !! id = Some t →
     Mk_entry (ts_deadline t) id (ts_generation t) ∈ wd_heap w ∨
     ∃ fr, f = Some fr ∧ fr_id fr = id ∧ fr_generation fr = ts_generation t) as Ha.
  { intros id t Ht. pose proof (wi_armed _ I id t Ht) as Hin. cbn in Hin. apply elem_of_app in Hin as [Hin|Hin].
    - right. destruct f as [fr|]; [|by apply not_elem_of_nil in Hin]. apply list_elem_of_singleton in Hin.
      exists fr. by injection Hin as -> ->.
    - left. apply list_elem_of_fmap in Hin as ([d i g] & Hk & He). injection Hk as -> Hg.
      pose proof (wi_live _ I _ t He Ht (eq_sym Hg)) as Hd. cbn in Hd. by rewrite <-Hd, Hg. }
  split_and!; [done|..].
  - intros -> id t now Ht Hd e [_ Htop]. destruct (Ha id t Ht) as [Hin|(fr & ? & _)]; [|done].
    specialize (Htop _ Hin). cbn in Htop. lia.
  - intros -> e now fr w' [He _] Hd Hpop. pose proof (run_pop_inv e w I He) as I'. rewrite Hpop in I'.
    revert Hpop. unfold run_pop. cbn [wd_timers]. destruct (wd_timers w !! he_id e) as [t|] eqn:Ht; [|done].
    destruct (Z.eqb_spec (ts_generation t) (he_generation e)) as [Hg|]; cbn [negb]; [|done]. intros [= <- <-].
    exists t. split_and!; [done|done| |].
    + by rewrite <-(wi_live _ I e t He Ht (eq_sym Hg)).
    + pose proof (wi_keys _ I') as Hnd. cbn in Hnd. by apply NoDup_cons in Hnd as [? _].
Qed.

(** A timer that is not registered any more. *)
Definition gone (id : Z) (s : wd_state) : Prop :=
  id < wd_next_id (wd_of s) ∧ wd_timers (wd_of s) !! id = None.

Lemma gone_step s ev s' id : wd_inv s → wd_step s ev s' → gone id s → ev ≠ Some id ∧ gone id s'.
Proof.
  intros I Hst [Hlt Hn]. pose proof (wi_next s I) as H1.
  destruct Hst as [now delay period w f Hw|now i w f Hw|i w f|now e w Htop Hd|now fr w]; unfold gone; cbn [wd_of] in *.
  - cbn. unfold u64. rewrite wrap_small by (unfold in_u; lia). split; [done|]. split; [lia|].
    by rewrite lookup_insert_ne by lia.
  - split; [done|]. unfold wd_reset. destruct (wd_timers w !! i) eqn:Hi; [|done]. cbn. split; [done|].
    rewrite lookup_insert_ne; [done|]. intros ->. congruence.
  - cbn. split; [done|]. split; [done|]. by apply lookup_delete_None; right.
  - unfold run_pop. cbn [wd_timers]. destruct (wd_timers w !! he_id e) as [t|] eqn:Ht; [|done].
    destruct (negb _); [done|]. cbn. split; [|done]. intros [= Heq]. congruence.
  - split; [done|]. unfold run_after. destruct (fr_recurring fr); cbn.
    + destruct (wd_timers w !! fr_id fr) eqn:Hi; [|done]. case_match; [|done]. cbn. split; [done|].
      rewrite lookup_insert_ne; [done|]. intros Heq. congruence.
    + split; [done|]. by apply lookup_delete_None; right.
Qed.

Lemma gone_run s evs s' id : wd_inv s → wd_run s evs s' → gone id s → id ∉ evs.
Proof.
  intros I Hr. induction Hr as [s|s ev s1 evs s2 Hst _ IH]; intros Hg; [by apply not_elem_of_nil|].
  destruct (gone_step s ev s1 id I Hst Hg) as [Hev Hg1]. rewrite elem_of_app. intros [Hin|Hin].
  - destruct ev as [i|]; cbn in Hin; [|by apply not_elem_of_nil in Hin]. apply list_elem_of_singleton in Hin. congruence.
  - apply IH in Hin; [done|by eapply wd_step_inv|done].
Qed.

(** A cancelled timer never fires again: [cancel] answers whether the timer was there,
    and no callback of it starts in any later run. *)
Theorem cancelled_never_fires evs w f id later s' :
  wd_run (Mk_wd mk_watchdog None) evs (Mk_wd w f) → id < wd_next_id w →
  let '(found, w1) := wd_cancel id w in
  wd_run (Mk_wd w1 f) later s' → found = bool_decide (is_Some (wd_timers w !! id)) ∧ id ∉ later.
Proof.
  intros Hr Hid. unfold wd_cancel. apply wd_run_inv in Hr as I; [|apply mk_watchdog_inv]. intros Hl. split; [done|].
  eapply gone_run; [|exact Hl|].
  - eapply wd_step_inv; [exact I|]. apply (ws_cancel id).
  - split; [done|]. apply lookup_delete_eq.
Qed.

(** A one-shot that is reset while its callback runs is lost. [reset], called by the
    callback or concurrently, answers true and arms a new deadline, but when the callback
    returns the worker erases the timer: no later run fires it. *)
Theorem oneshot_reset_lost evs w fr t now now2 later s' :
  wd_run (Mk_wd mk_watchdog None) evs (Mk_wd w (Some fr)) → fr_recurring fr = false →
  wd_timers w !! fr_id fr = Some t → ts_generation t + 1 < 2 ^ 64 →
  let '(armed, w1) := wd_reset now (fr_id fr) w in
  armed = true ∧ Mk_entry (now + ts_period t) (fr_id fr) (ts_generation t + 1) ∈ wd_heap w1 ∧
  (wd_run (Mk_wd (run_after now2 fr w1) None) later s' → fr_id fr ∉ later).
Proof.
  intros Hr Hone Ht Hw. apply wd_run_inv in Hr as I; [|apply mk_watchdog_inv].
  pose proof (wd_reset_inv now (fr_id fr) w (Some fr) I) as I1. destruct (wi_timers _ I _ t Ht) as [Hid Hg].
  cbn [wd_of] in *. unfold wd_reset in *. rewrite Ht in *. cbn [snd] in I1.
  unfold u64 in *. rewrite wrap_small in * by (unfold in_u; lia). split; [done|]. split; [left|]. intros Hl.
  eapply gone_run; [|exact Hl|].
  - apply run_after_inv, I1. by intros ? [= <-].
  - unfold run_after. rewrite Hone. split; cbn; [lia|]. apply lookup_delete_eq.
Qed.

(** ** An example: a one-shot of four ticks *)

Definition example_armed : Watchdog := (add_oneshot 0 4 mk_watchdog).2.
Definition example_entry : HeapEntry := Mk_entry 4 1 0.
Definition example_fired : Watchdog := (run_pop example_entry example_armed).2.
Definition example_firing : firing := Mk_firing 1 false 4 0.

Lemma example_top : is_top example_armed example_entry.
Proof.
  split; [vm_compute; left|]. intros e' He. change (wd_heap example_armed) with [example_entry] in He.
  apply list_elem_of_singleton in He as ->. done.
Qed.
Lemma example_armed_run : wd_run (Mk_wd mk_watchdog None) [] (Mk_wd example_armed None).
Proof. eapply (wr_cons _ None _ []); [|constructor]. apply (ws_add 0 4 None). by vm_compute. Qed.
Lemma example_fired_run : wd_run (Mk_wd mk_watchdog None) [1] (Mk_wd example_fired (Some example_firing)).
Proof.
  apply (wr_cons _ None (Mk_wd example_armed None) [1]); [apply (ws_add 0 4 None); by vm_compute|].
  eapply (wr_cons _ (Some 1) _ []); [|constructor].
  apply (ws_pop 5 example_entry example_armed example_top). by vm_compute.
Qed.

Lemma watchdog_exact_witness :
  ∃ t, wd_timers example_armed !! 1 = Some t ∧ ts_deadline t ≤ 5.
Proof.
  destruct (watchdog_exact [] example_armed None example_armed_run) as (_ & _ & H).
  destruct (H eq_refl example_entry 5 example_firing example_fired example_top) as (t & Ht & _ & Hd & _);
    [by vm_compute|reflexivity|]. exists t. split; [exact Ht|exact Hd].
Defined.

Lemma cancelled_never_fires_witness :
  (wd_cancel 1 example_armed).1 = true ∧
  ∀ later s', wd_run (Mk_wd (wd_cancel 1 example_armed).2 None) later s' → 1 ∉ later.
Proof.
  split; [reflexivity|]. intros later s' Hl.
  apply (cancelled_never_fires [] example_armed None 1 later s'); [exact example_armed_run|by vm_compute|exact Hl].
Defined.

Lemma oneshot_reset_lost_witness :
  (wd_reset 5 1 example_fired).1 = true ∧
  ∀ later s', wd_run (Mk_wd (run_after 6 example_firing (wd_reset 5 1 example_fired).2) None) later s' → 1 ∉ later.
Proof.
  split; [reflexivity|]. intros later s' Hl.
  apply (oneshot_reset_lost [1] example_fired example_firing (Mk_timer 4 4 false 0) 5 6 later s' example_fired_run);
    [reflexivity|reflexivity|by vm_compute|exact Hl].
Defined.
