(* ===== verification/Conn.v ===== *)
(** * A connection: one message at a time

    [craft_conn] of [src/net/conn.cpp] as far as messages go: [recv_message] accumulates what
    the socket delivers until a frame parses, and keeps the bytes behind it.  What each
    receive returns is an argument; the socket and the ring it owns are in [Sockets].
    However the network cuts the stream, the receiver gets the frames that were sent. *)

From S2P Require Import Prelude Codec WireTypes Crc Wire.

Local Open Scope Z_scope.

Inductive net_error :=
| ne_setup | ne_connect | ne_send | ne_recv | ne_closed | ne_malformed | ne_invalid_argument | ne_timed_out.

(** What one receive returns: bytes (at least one), end of stream, an error, the deadline. *)
Inductive recv_result := rv_bytes (b : list Z) | rv_eof | rv_failed | rv_late.

Definition k_recv_chunk : nat := 16 * 1024.

(** [recv_message]: the result, the bytes kept in [rx_] and the receives left.  [None]: every
    receive is used up and the call still waits.  On end of stream [rx_] keeps the room it
    made for the receive. *)
Fixpoint recv_message (rx : list Z) (max_tx : Z) (dg : digest_cfg) (ins : list recv_result) :
    option (result net_error (list Z) * list Z * list recv_result) :=
  match parse_message rx max_tx dg with
  | Ok m => Some (Ok (take (m_total m) rx), drop (m_total m) rx, ins)
  | Err incomplete =>
      match ins with
      | [] => None
      | rv_bytes b :: ins => recv_message (rx ++ b) max_tx dg ins
      | rv_eof :: ins => Some (Err ne_closed, rx ++ replicate k_recv_chunk 0, ins)
      | rv_failed :: ins => Some (Err ne_recv, rx, ins)
      | rv_late :: ins => Some (Err ne_timed_out, rx, ins)
      end
  | Err _ => Some (Err ne_malformed, rx, ins)
  end.

(** [send_all]: the sizes the successive sends return; [None] while it still waits. *)
Fixpoint send_all (data : list Z) (sent : nat) (ns : list Z) : option bool :=
  if decide (length data ≤ sent)%nat then Some true
  else match ns with
       | [] => None
       | n :: ns => if n <=? 0 then Some false else send_all data (sent + Z.to_nat n) ns
       end.

(** ** Frames *)

Record wire_frame := Mk_frame { wf_op : op; wf_status : Z; wf_rid : Z; wf_oh : list Z; wf_body : list Z }.
Definition frame_bytes (dg : digest_cfg) (f : wire_frame) : list Z :=
  frame_message [] (wf_op f) (wf_status f) (wf_rid f) (wf_oh f) (wf_body f) dg.
Definition parsed_frame (dg : digest_cfg) (f : wire_frame) : message :=
  Mk_message (frame_hdr (wf_op f) (wf_status f) (wf_rid f) (wf_body f)) (wf_oh f) (wf_body f)
    (length (frame_bytes dg f)).

(** What the framer needs of a message for the parser to accept it. *)
Definition frame_ok (max_tx : Z) (f : wire_frame) : Prop :=
  op_hdr_size (op_code (wf_op f)) = Some (length (wf_oh f)) ∧ byte_ok (wf_status f) ∧ in_u 16 (wf_rid f) ∧
  bytes_ok (wf_oh f) ∧ bytes_ok (wf_body f) ∧ Z.of_nat (length (wf_body f)) ≤ max_tx ∧ in_u 32 max_tx ∧
  (wf_body f = [] ∨ op_allows_body (op_code (wf_op f)) = true).
#[export] Instance frame_ok_dec max_tx f : Decision (frame_ok max_tx f).
Proof. unfold frame_ok. apply _. Defined.

Lemma parse_frame max_tx dg f rest :
  frame_ok max_tx f → parse_message (frame_bytes dg f ++ rest) max_tx dg = Ok (parsed_frame dg f).
Proof. intros (? & ? & ? & ? & ? & ? & ? & ?). by apply parse_frame_message_aux. Qed.
Lemma parse_prefix max_tx dg f buf rest :
  frame_ok max_tx f → frame_bytes dg f = buf ++ rest → rest ≠ [] → parse_message buf max_tx dg = Err incomplete.
Proof. intros (? & ? & ? & ? & ? & ? & ? & ?). by apply parse_frame_prefix_aux. Qed.

(** A frame whose body is over the limit is refused. *)
Lemma parse_too_long max_tx f :
  op_hdr_size (op_code (wf_op f)) = Some (length (wf_oh f)) → byte_ok (wf_status f) → in_u 16 (wf_rid f) →
  max_tx < Z.of_nat (length (wf_body f)) < 2 ^ 32 →
  parse_message (frame_bytes no_digest f) max_tx no_digest = Err bad_length.
Proof.
  intros Ho Hst Hrid Hl. unfold frame_bytes. rewrite <-(app_nil_r (frame_message _ _ _ _ _ _ _)).
  rewrite (frame_parts_app _ _ _ _ _ _ (2 ^ 32 - 1)) by (unfold in_u; lia). cbv zeta. rewrite <-(assoc_L (++)).
  assert (cvalid msg_hdr_codec (frame_hdr (wf_op f) (wf_status f) (wf_rid f) (wf_body f))) as Hv.
  { eapply (frame_hdr_valid _ _ _ _ (2 ^ 32 - 1)); try done; unfold in_u; lia. }
  unfold parse_message. rewrite dec_enc by done. rewrite decide_False by (rewrite length_app, enc_length by done; lia).
  cbn [frame_hdr mh_op mh_body_len]. by rewrite Ho, decide_True by lia.
Qed.

(** ** Reassembly *)

(** [recv_message] takes the frame at the head of the stream, wherever receives cut it. *)
Lemma recv_frame max_tx dg f chunks rx rest :
  frame_ok max_tx f → rx ++ concat chunks = frame_bytes dg f ++ rest →
  ∃ rx' chunks', recv_message rx max_tx dg (rv_bytes <$> chunks) = Some (Ok (frame_bytes dg f), rx', rv_bytes <$> chunks') ∧
    rx' ++ concat chunks' = rest.
Proof.
  intros Hf. revert rx. induction chunks as [|b chunks IH]; intros rx Hs.
  - simpl in Hs. rewrite app_nil_r in Hs. subst rx. exists rest, []. simpl. rewrite parse_frame by done. cbn [m_total parsed_frame].
    by rewrite take_app_length, drop_app_length, app_nil_r.
  - destruct (decide (length (frame_bytes dg f) ≤ length rx)%nat) as [Hle|Hlt].
    + assert (rx = frame_bytes dg f ++ drop (length (frame_bytes dg f)) rx) as Hrx.
      { rewrite <-(take_drop (length (frame_bytes dg f)) rx) at 1. f_equal.
        rewrite <-(take_app_le rx (concat (b :: chunks))), Hs by done. by rewrite take_app_length. }
      set (k := drop _ rx) in Hrx. rewrite Hrx in Hs |- *. exists k, (b :: chunks). cbn [recv_message fmap list_fmap].
      rewrite parse_frame by done. cbn [m_total parsed_frame]. rewrite take_app_length, drop_app_length. split; [done|].
      rewrite <-(assoc_L (++)) in Hs. by apply app_inv_head in Hs.
    + assert (frame_bytes dg f = rx ++ drop (length rx) (frame_bytes dg f)) as Hp.
      { rewrite <-(take_drop (length rx) (frame_bytes dg f)) at 1. f_equal.
        rewrite <-(take_app_le _ rest), <-Hs by lia. by rewrite take_app_length. }
      cbn [recv_message fmap list_fmap]. rewrite (parse_prefix max_tx dg f rx _ Hf Hp).
      * apply IH. by rewrite <-(assoc_L (++)).
      * intros Hn. apply (f_equal length) in Hn. rewrite length_drop in Hn. simpl in Hn. lia.
Qed.

(** Receiving [n] messages in a row. *)
Fixpoint recv_many (n : nat) (rx : list Z) (max_tx : Z) (dg : digest_cfg) (ins : list recv_result) :
    option (list (list Z) * list Z) :=
  match n with
  | O => Some ([], rx)
  | S n =>
      match recv_message rx max_tx dg ins with
      | Some (Ok m, rx, ins) => '(ms, rx) ← recv_many n rx max_tx dg ins; Some (m :: ms, rx)
      | _ => None
      end
  end.

Lemma recv_many_spec max_tx dg fs rx chunks :
  Forall (frame_ok max_tx) fs → rx ++ concat chunks = concat (frame_bytes dg <$> fs) →
  recv_many (length fs) rx max_tx dg (rv_bytes <$> chunks) = Some (frame_bytes dg <$> fs, []).
Proof.
  intros Hok. revert rx chunks. induction Hok as [|f fs Hf _ IH]; intros rx chunks Hs; simpl in Hs.
  { by apply app_eq_nil in Hs as [-> _]. }
  destruct (recv_frame max_tx dg f chunks rx _ Hf Hs) as (rx' & chunks' & Hr & Hs').
  cbn [length recv_many]. rewrite Hr. cbn. by rewrite (IH rx' chunks' Hs').
Qed.

(** C34: A connection delivers the messages that were sent, one per call and in order, however
    the network cuts the stream into receives: as many calls as there were frames return
    exactly those frames, each parses to the operation, status, request id, header and body
    it was framed from, and no byte of the stream is lost or left over. *)
Theorem recv_reassembles max_tx dg fs chunks :
  Forall (frame_ok max_tx) fs → concat chunks = concat (frame_bytes dg <$> fs) →
  recv_many (length fs) [] max_tx dg (rv_bytes <$> chunks) = Some (frame_bytes dg <$> fs, []) ∧
  (λ b, parse_message b max_tx dg) <$> (frame_bytes dg <$> fs) = (λ f, Ok (parsed_frame dg f)) <$> fs.
Proof.
  intros Hok Hs. split.
  - by apply recv_many_spec.
  - rewrite <-list_fmap_compose. apply list_fmap_ext. intros i f Hf. simpl.
    rewrite <-(app_nil_r (frame_bytes dg f)) at 1. apply parse_frame. rewrite Forall_lookup in Hok. by eapply Hok.
Qed.

Lemma recv_reassembles_witness :
  recv_many 2 [] 4096 no_digest
    (rv_bytes <$> [[9; 0]; [7; 0; 0; 0; 0; 0]; enc req_hdr_codec (Mk_req_hdr 3 1) ++ [11]; 0 :: 8 :: replicate 21 0]) =
    Some ([frame_message [] keepalive 0 7 (enc req_hdr_codec (Mk_req_hdr 3 1)) [] no_digest;
           frame_message [] logout 0 8 (replicate 16 0) [] no_digest], []).
Proof.
  apply (recv_reassembles 4096 no_digest
    [Mk_frame keepalive 0 7 (enc req_hdr_codec (Mk_req_hdr 3 1)) []; Mk_frame logout 0 8 (replicate 16 0) []]
    [[9; 0]; [7; 0; 0; 0; 0; 0]; enc req_hdr_codec (Mk_req_hdr 3 1) ++ [11]; 0 :: 8 :: replicate 21 0]); by_eval.
Defined.
