(* ===== verification/TcpServer.v ===== *)
(** * The TCP server

    [craft_tcp_server] of [src/net/tcp_server.cpp]: one definition per handler, from the
    parsed request to the frame it sends and the state it leaves, and the dispatch of
    [serve].  The raft service's and the peers' answers, and the id of an armed timer, are
    arguments ([srv_env]). *)

From S2P Require Import Prelude Codec WireTypes Wire Types Replica Raft Conn.

Local Open Scope craft_scope.
Local Open Scope Z_scope.

#[export] Instance status_eq_dec : EqDecision status.
Proof. solve_decision. Defined.

(** ** State *)

Record server_geometry := Mk_geometry {
  sg_capacity : Z;
  sg_lba_size : Z;
  sg_max_tx : Z;
  sg_member : member;
}.
Record craft_tcp_server := Mk_server {
  sv_geo : server_geometry;
  sv_replica : RaftReplica;
  sv_registry : replica_manager;
  sv_next_term : Z;
  sv_session_term : Z;
  sv_session_active : bool;
}.

(** What the server's collaborators answer while it handles one request. *)
Record srv_env := Mk_srv_env {
  se_login : login_env;
  se_created : result error_condition unit;
  se_timer : Z;
}.

Definition mk_server (geo : server_geometry) (registry : replica_manager) : craft_tcp_server :=
  Mk_server geo (mk_raft (Mk_endpoint (wm_id (sg_member geo)) (wm_addr (sg_member geo))) (sg_lba_size geo) (sg_max_tx geo))
    registry 0 0 false.

Definition with_session (s : craft_tcp_server) (r : RaftReplica) (term : Z) (active : bool) : craft_tcp_server :=
  Mk_server (sv_geo s) r (sv_registry s) (sv_next_term s) term active.
Definition with_replica (s : craft_tcp_server) (r : RaftReplica) : craft_tcp_server :=
  with_session s r (sv_session_term s) (sv_session_active s).
Definition with_mem (s : craft_tcp_server) (m : MemCraftReplica) : craft_tcp_server :=
  with_replica s (set_mem (sv_replica s) m).

(** [wire::frame_message] of a reply, without digests. *)
Definition reply (o : op) (code : status) (req : message) (oh body : list Z) : list Z :=
  frame_message [] o (status_byte code) (mh_request_id (m_hdr req)) oh body no_digest.

(** The header the server stamps with its session's term. *)
Definition session_hdr_of (s : craft_tcp_server) (h : req_hdr) : client_hdr :=
  Mk_client_hdr (sv_session_term s) (rh_commit_lsn h) (rh_all_committed_lsn h) 0.

(** ** Sessions *)

Definition login_rsp_of (s : craft_tcp_server) (lg : LoginResult) : login_rsp :=
  Mk_login_rsp (sv_session_term s) (lg_dLSN lg) (sg_capacity (sv_geo s)) (sg_lba_size (sv_geo s))
    (sg_max_tx (sv_geo s)) (u32 (Z.of_nat (length (lg_members lg)))) 0 (replicate 16 0).
Definition member_of (e : replica_endpoint) : member := Mk_member (ep_id e) (ep_addr e).

Definition on_login (e : srv_env) (s : craft_tcp_server) (req : message) : list Z * craft_tcp_server :=
  let next := u64 (sv_next_term s + 1) in
  let s := Mk_server (sv_geo s) (sv_replica s) (sv_registry s) next next (sv_session_active s) in
  let lr := dec login_req_codec (m_op_header req) in
  let '(res, _, _, r) := apply_login (se_login e) (sv_replica s) (lq_client_token lr) (sv_session_term s) in
  match res with
  | Err er => (reply op_login_rsp (to_wire_status er) req [] [], with_session s r (sv_session_term s) false)
  | Ok lg =>
      if decide (lg_leader_hint lg = nil_uuid) then
        (reply op_login_rsp st_ok req (enc login_rsp_codec (login_rsp_of s lg))
           (foldl put_member [] (member_of <$> lg_members lg)),
         with_session s r (sv_session_term s) true)
      else (reply op_login_rsp st_not_leader req [] [], with_session s r (sv_session_term s) false)
  end.

Definition on_helo (e : srv_env) (s : craft_tcp_server) (req : message) : list Z * craft_tcp_server :=
  let hr := dec helo_req_codec (m_op_header req) in
  let '(code, r) :=
    if negb (le_enabled (se_login e)) then
      let '(res, _, _, r) := apply_login (se_login e) (sv_replica s) (hq_client_token hr) (sv_session_term s) in
      (match res with Ok _ => st_ok | Err er => to_wire_status er end, r)
    else
      let '(term, token) := srv_session_info (sv_replica s) in
      (if negb (hq_term hr =? term) || negb (hq_client_token hr =? token) then st_stale_term else st_ok, sv_replica s) in
  (reply helo_rsp code req [] [],
   if decide (code = st_ok) then with_session s r (hq_term hr) true else with_replica s r).

Definition on_logout (s : craft_tcp_server) (req : message) : list Z * craft_tcp_server :=
  if negb (sv_session_active s) then (reply logout_rsp st_stale_term req [] [], s)
  else (reply logout_rsp st_ok req [] [],
        with_session s (set_mem (sv_replica s) (cold_apply_logout (ra_mem (sv_replica s)))) (sv_session_term s) false).

(** ** Requests *)

(** The body is the payload; an empty one is a zero write. *)
Definition payload_arg (body : list Z) : option (list Z) := match body with [] => None | b => Some b end.
Definition on_write (s : craft_tcp_server) (req : message) : list Z * craft_tcp_server :=
  let wr := dec write_req_codec (m_op_header req) in
  let m := ra_mem (sv_replica s) in
  let '(code, lsns, m) :=
    if negb (sv_session_active s) then (st_stale_term, peek_lsns m, m)
    else
      let '(r, m) := do_write m (session_hdr_of s (wq_hdr wr)) (wq_dlsn wr) (wq_addr wr) (wq_len wr)
                       (payload_arg (m_body req)) in
      match r with
      | Err er => (to_wire_status er, peek_lsns m, m)
      | Ok lsns => (st_ok, lsns, m)
      end in
  (reply op_write_rsp code req (enc write_rsp_codec (Mk_write_rsp (lp_commit lsns) (lp_last_append lsns))) [],
   with_mem s m).

(** The extent table and the bytes of the extents that are not holes. *)
Definition desc_of_extent (e : io_extent) : extent_desc :=
  Mk_extent_desc (ie_addr e) (ie_len e) (if ie_hole e then 1 else 0) (replicate 7 0).
Definition pack_extents (addr : Z) (dest_buf : list Z) (layout : list io_extent) : list Z :=
  concat ((λ e, subspan (Z.to_nat (u64 (ie_addr e - addr))) (Z.to_nat (ie_len e)) dest_buf)
            <$> filter (λ e, ie_hole e = false) layout).

(** [None]: the read reads an invalid page. *)
Definition on_read (s : craft_tcp_server) (req : message) : option (list Z * craft_tcp_server) :=
  let rr := dec read_req_codec (m_op_header req) in
  let m := ra_mem (sv_replica s) in
  if negb (sv_session_active s) then
    Some (reply op_read_rsp st_stale_term req (enc read_rsp_codec (Mk_read_rsp 0 0 0 0)) [], s)
  else
    '(r, m) ← do_read m (session_hdr_of s (rq_hdr rr)) (rq_read_lsn rr) (rq_addr rr) (rq_len rr)
                (Mk_sg (rq_len rr) [replicate (Z.to_nat (rq_len rr)) 0]);
    let s := with_mem s m in
    match r with
    | Err er =>
        let lsns := peek_lsns m in
        Some (reply op_read_rsp (to_wire_status er) req
                (enc read_rsp_codec (Mk_read_rsp (lp_commit lsns) (lp_last_append lsns) 0 0)) [], s)
    | Ok (res, dest) =>
        let lsns := rd_lsns res in
        let layout := rd_extents res in
        Some (reply op_read_rsp st_ok req
                (enc read_rsp_codec (Mk_read_rsp (lp_commit lsns) (lp_last_append lsns)
                                       (u32 (Z.of_nat (length layout))) 0))
                (enc_array extent_desc_codec (desc_of_extent <$> layout) ++
                 pack_extents (rq_addr rr) (concat (sg_iovs dest)) layout), s)
    end.

Definition on_resolve (s : craft_tcp_server) (req : message) : list Z * craft_tcp_server :=
  let rr := dec resolve_req_codec (m_op_header req) in
  let answer code rsp body := reply op_resolve_rsp code req (enc resolve_rsp_codec rsp) body in
  if negb (sv_session_active s) then (answer st_stale_term (Mk_resolve_rsp 0 0 0) [], s)
  else
    let '(r, m) := do_resolve_local (ra_mem (sv_replica s)) (session_hdr_of s (vq_hdr rr)) (vq_upto rr) in
    match r with
    | Err er => (answer (to_wire_status er) (Mk_resolve_rsp 0 0 0) [], with_mem s m)
    | Ok res =>
        (answer st_ok (Mk_resolve_rsp (rs_resolved_upto res) (u32 (Z.of_nat (length (rs_empty_slots res)))) 0)
           (enc_array cint64 (rs_empty_slots res)), with_mem s m)
    end.

Definition on_keep_alive (s : craft_tcp_server) (req : message) : list Z * craft_tcp_server :=
  let ka := dec keepalive_req_codec (m_op_header req) in
  let answer code rsp := reply op_keepalive_rsp code req (enc keepalive_rsp_codec rsp) [] in
  if negb (sv_session_active s) then (answer st_stale_term (Mk_keepalive_rsp (-1) (-1)), s)
  else
    let '(r, m) := do_keep_alive (ra_mem (sv_replica s)) (session_hdr_of s (kq_hdr ka)) in
    match r with
    | Err er => (answer (to_wire_status er) (Mk_keepalive_rsp (-1) (-1)), with_mem s m)
    | Ok lsns => (answer st_ok (Mk_keepalive_rsp (lp_commit lsns) (lp_last_append lsns)), with_mem s m)
    end.

(** ** The peer plane *)

Definition on_create_volume (e : srv_env) (s : craft_tcp_server) (req : message) : list Z * craft_tcp_server :=
  let cr := dec volume_create_req_codec (m_op_header req) in
  match decode_members (m_body req) (cq_member_count cr) with
  | None => (reply create_volume_rsp st_invalid_argument req [] [], s)
  | Some ms =>
      let '(r, g) := srv_create_volume (se_created e) (cq_volume_id cr)
                       ((λ m, Mk_endpoint (wm_id m) (wm_addr m)) <$> ms) (sv_registry s) in
      (reply create_volume_rsp (match r with Ok _ => st_ok | Err er => to_wire_status er end) req [] [],
       Mk_server (sv_geo s) (sv_replica s) g (sv_next_term s) (sv_session_term s) (sv_session_active s))
  end.

Definition on_get_rs_commit_lsn (e : srv_env) (s : craft_tcp_server) (req : message) : list Z * craft_tcp_server :=
  let gr := dec get_rs_commit_lsn_req_codec (m_op_header req) in
  let '(lsns, r) := do_get_rs_commit_lsn (sv_replica s) (gq_term gr) (negb (gq_is_login gr =? 0)) (se_timer e) in
  (reply op_get_rs_commit_lsn_rsp st_ok req
     (enc get_rs_commit_lsn_rsp_codec (Mk_get_rs_commit_lsn_rsp (lp_commit lsns) (lp_last_append lsns))) [],
   with_replica s r).

Definition slot_has_data (s : JournalSlot) : bool := negb (jl_is_empty s) && negb (jl_all_zeros s).
Definition fetch_desc_of (s : JournalSlot) : fetch_slot_desc :=
  Mk_fetch_slot_desc (jl_lsn s) (jl_lba s) (jl_len s) (if slot_has_data s then sg_size (jl_data s) else 0)
    (if jl_is_empty s then 1 else 0) (if jl_all_zeros s then 1 else 0) (replicate 2 0).

Definition on_fetch_data (s : craft_tcp_server) (req : message) : list Z * craft_tcp_server :=
  let fr := dec fetch_data_req_codec (m_op_header req) in
  match decode_lsns (m_body req) (fq_lsn_count fr) with
  | None => (reply op_fetch_data_rsp st_invalid_argument req (enc fetch_data_rsp_codec (Mk_fetch_data_rsp 0 0)) [], s)
  | Some lsns =>
      let slots := srv_fetch_data (sv_replica s) lsns in
      (reply op_fetch_data_rsp st_ok req
         (enc fetch_data_rsp_codec (Mk_fetch_data_rsp (u32 (Z.of_nat (length slots))) 0))
         (enc_array fetch_slot_desc_codec (fetch_desc_of <$> slots) ++
          concat ((λ s, concat (sg_iovs (jl_data s))) <$> filter (λ s, slot_has_data s = true) slots)), s)
  end.

(** ** Dispatch *)

(** One round of the loop of [serve] on the message [msg] that arrived: the frame sent and the
    state, or [None] when the connection is dropped. *)
Definition serve_one (e : srv_env) (s : craft_tcp_server) (msg : list Z) : option (list Z * craft_tcp_server) :=
  match parse_message msg (sg_max_tx (sv_geo s)) no_digest with
  | Err _ => None
  | Ok req =>
      let o := mh_op (m_hdr req) in
      if o =? op_code login then Some (on_login e s req)
      else if o =? op_code helo then Some (on_helo e s req)
      else if o =? op_code write then Some (on_write s req)
      else if o =? op_code read then on_read s req
      else if o =? op_code keepalive then Some (on_keep_alive s req)
      else if o =? op_code resolve then Some (on_resolve s req)
      else if o =? op_code logout then Some (on_logout s req)
      else if o =? op_code create_volume then Some (on_create_volume e s req)
      else if o =? op_code get_rs_commit_lsn then Some (on_get_rs_commit_lsn e s req)
      else if o =? op_code fetch_data then Some (on_fetch_data s req)
      else None
  end.

(** [serve]: what the socket delivers, and the collaborators' answers request by request (one
    [srv_env] per request bounds the loop); the frames sent and the state left when the
    connection is done, waits, or the answers are used up. *)
Fixpoint serve (es : list srv_env) (s : craft_tcp_server) (rx : list Z) (ins : list recv_result) :
    list (list Z) * craft_tcp_server :=
  match es with
  | [] => ([], s)
  | e :: es =>
      match recv_message rx (sg_max_tx (sv_geo s)) no_digest ins with
      | Some (Ok msg, rx, ins) =>
          match serve_one e s msg with
          | None => ([], s)
          | Some (answer, s) => let '(answers, s) := serve es s rx ins in (answer :: answers, s)
          end
      | _ => ([], s)
      end
  end.
