(* ===== verification/WireClient.v ===== *)
(** * The TCP clients

    [wire_client] of [src/net/wire_client.cpp], the blocking tier of [CraftTcpReplica] of
    [src/net/tcp_replica.cpp] above it, and [CraftTcpPeer] of [src/net/tcp_peer.cpp], one
    definition per verb.  The network is a function from the frame a call sends to what the
    send and the receive of the reply come to: the message received, or the error. *)

From S2P Require Import Prelude Codec WireTypes Wire Types Replica Conn.

Local Open Scope craft_scope.
Local Open Scope Z_scope.

Definition network := list Z → result net_error (list Z).

(** ** The wire client *)

Definition k_max_tx : Z := framed_body_max k_default_max_tx 512.

Record wire_client := Mk_wire_client { wc_term : Z; wc_next_rid : Z }.
Definition mk_wire_client : wire_client := Mk_wire_client 0 1.
Definition wc_rid (c : wire_client) : wire_client := Mk_wire_client (wc_term c) (u16 (wc_next_rid c + 1)).
Definition wc_set_term (c : wire_client) (term : Z) : wire_client := Mk_wire_client term (wc_next_rid c).

Record login_result := Mk_login_result {
  ls_term : Z;
  ls_dlsn : Z;
  ls_capacity : Z;
  ls_lba_size : Z;
  ls_max_tx : Z;
  ls_leader_hint : list Z;
  ls_members : list member;
}.
Record lsn_reply := Mk_lsn_reply { lq_status : status; lq_commit_lsn : Z; lq_last_append_lsn : Z }.
Record read_reply := Mk_read_reply {
  rp_status : status;
  rp_commit_lsn : Z;
  rp_last_append_lsn : Z;
  rp_extents : list extent_desc;
}.
Record resolve_reply := Mk_resolve_reply { vp_status : status; vp_resolved_upto : Z; vp_empty_slots : list Z }.

(** The frame of a request, without digests. *)
Definition request (c : wire_client) (o : op) (oh body : list Z) : list Z :=
  frame_message [] o 0 (wc_next_rid c) oh body no_digest.
(** Send, receive, parse and check the operation of the reply. *)
Definition round_trip (net : network) (frame : list Z) (expect : op) : result net_error message :=
  let? msg := net frame in
  match parse_message msg k_max_tx no_digest with
  | Err _ => Err ne_malformed
  | Ok p => if negb (mh_op (m_hdr p) =? op_code expect) then Err ne_malformed else Ok p
  end.
Definition status_of (p : message) : status := status_of_byte (mh_status (m_hdr p)).

Definition login_request (c : wire_client) (volume_id : list Z) (client_token : Z) : list Z :=
  request c login (enc login_req_codec (Mk_login_req volume_id client_token)) [].
Definition wc_login (net : network) (c : wire_client) (volume_id : list Z) (client_token : Z) :
    result net_error login_result * wire_client :=
  match round_trip net (login_request c volume_id client_token) op_login_rsp with
  | Err er => (Err er, wc_rid c)
  | Ok p =>
      let lr := dec login_rsp_codec (m_op_header p) in
      match decode_members (m_body p) (lr_member_count lr) with
      | None => (Err ne_malformed, wc_rid c)
      | Some ms =>
          (Ok (Mk_login_result (lr_term lr) (lr_dlsn lr) (lr_capacity lr) (lr_lba_size lr) (lr_max_tx lr)
                 (lr_leader_hint lr) ms), wc_set_term (wc_rid c) (lr_term lr))
      end
  end.

Definition helo_request (c : wire_client) (volume_id : list Z) (client_token term : Z) : list Z :=
  request c helo (enc helo_req_codec (Mk_helo_req volume_id client_token term)) [].
Definition wc_helo (net : network) (c : wire_client) (volume_id : list Z) (client_token term : Z) :
    result net_error status * wire_client :=
  match round_trip net (helo_request c volume_id client_token term) helo_rsp with
  | Err er => (Err er, wc_rid c)
  | Ok p =>
      (Ok (status_of p),
       match status_of p with st_ok => wc_set_term (wc_rid c) term | _ => wc_rid c end)
  end.

Definition logout_request (c : wire_client) : list Z :=
  request c logout (enc logout_req_codec (Mk_logout_req (Mk_req_hdr (-1) (-1)))) [].
Definition wc_logout (net : network) (c : wire_client) : result net_error status * wire_client :=
  (let? p := round_trip net (logout_request c) logout_rsp in Ok (status_of p), wc_rid c).

Definition write_request (c : wire_client) (dlsn addr len : Z) (data : list Z) (commit all : Z) : list Z :=
  request c write (enc write_req_codec (Mk_write_req (Mk_req_hdr commit all) dlsn addr len)) data.
Definition wc_write (net : network) (c : wire_client) (dlsn addr len : Z) (data : list Z) (commit all : Z) :
    result net_error lsn_reply * wire_client :=
  (let? p := round_trip net (write_request c dlsn addr len data commit all) op_write_rsp in
   let wr := dec write_rsp_codec (m_op_header p) in
   Ok (Mk_lsn_reply (status_of p) (wr_commit_lsn wr) (wr_last_append_lsn wr)), wc_rid c).

Definition keep_alive_request (c : wire_client) (commit all : Z) : list Z :=
  request c keepalive (enc keepalive_req_codec (Mk_keepalive_req (Mk_req_hdr commit all))) [].
Definition wc_keep_alive (net : network) (c : wire_client) (commit all : Z) :
    result net_error lsn_reply * wire_client :=
  (let? p := round_trip net (keep_alive_request c commit all) op_keepalive_rsp in
   let ka := dec keepalive_rsp_codec (m_op_header p) in
   Ok (Mk_lsn_reply (status_of p) (kr_commit_lsn ka) (kr_last_append_lsn ka)), wc_rid c).

Definition resolve_request (c : wire_client) (upto commit all : Z) : list Z :=
  request c resolve (enc resolve_req_codec (Mk_resolve_req (Mk_req_hdr commit all) upto)) [].
Definition wc_resolve (net : network) (c : wire_client) (upto commit all : Z) :
    result net_error resolve_reply * wire_client :=
  (let? p := round_trip net (resolve_request c upto commit all) op_resolve_rsp in
   let rr := dec resolve_rsp_codec (m_op_header p) in
   match status_of p with
   | st_ok =>
       match decode_lsns (m_body p) (vr_empty_count rr) with
       | None => Err ne_malformed
       | Some l => Ok (Mk_resolve_reply st_ok (vr_resolved_upto rr) l)
       end
   | st => Ok (Mk_resolve_reply st (vr_resolved_upto rr) [])
   end, wc_rid c).

(** The two loops of [read] over the scatter plan: the packed data from offset [src] on into
    the destination, [None] when the body is too short; then zeros into the holes. *)
Fixpoint scatter_data (plan : list (Z * Z)) (packed : list Z) (src : nat) (dest : list Z) : option (list Z) :=
  match plan with
  | [] => Some dest
  | (dst_off, n) :: plan =>
      let n := Z.to_nat n in
      if decide (length packed < src + n)%nat then None
      else scatter_data plan packed (src + n) (write_at (Z.to_nat dst_off) (subspan src n packed) dest)
  end.
Definition zero_holes (plan : list (Z * Z)) (dest : list Z) : list Z :=
  foldl (λ dest h, write_at (Z.to_nat h.1) (replicate (Z.to_nat h.2) 0) dest) dest plan.

Definition read_request (c : wire_client) (read_lsn addr len commit all : Z) : list Z :=
  request c read (enc read_req_codec (Mk_read_req (Mk_req_hdr commit all) read_lsn addr len)) [].
(** What [read] makes of the reply: the [dest] buffer as it is left on success. *)
Definition read_reply_of (p : message) (addr len : Z) (dest : list Z) : result net_error (read_reply * list Z) :=
  let rr := dec read_rsp_codec (m_op_header p) in
  match status_of p with
  | st_ok =>
      match decode_extents (m_body p) (rr_extent_count rr) with
      | None => Err ne_malformed
      | Some extents =>
          let plan := plan_scatter extents addr len in
          if negb (sp_ok plan) then Err ne_malformed
          else
            let packed := drop (Z.to_nat (rr_extent_count rr) * csize extent_desc_codec) (m_body p) in
            match scatter_data (sp_data plan) packed 0 dest with
            | None => Err ne_malformed
            | Some dest =>
                Ok (Mk_read_reply st_ok (rr_commit_lsn rr) (rr_last_append_lsn rr) extents,
                    zero_holes (sp_holes plan) dest)
            end
      end
  | st => Ok (Mk_read_reply st (rr_commit_lsn rr) (rr_last_append_lsn rr) [], dest)
  end.
Definition wc_read (net : network) (c : wire_client) (read_lsn addr len : Z) (dest : list Z) (commit all : Z) :
    result net_error (read_reply * list Z) * wire_client :=
  if Z.of_nat (length dest) <? len then (Err ne_invalid_argument, c)
  else
    (let? p := round_trip net (read_request c read_lsn addr len commit all) op_read_rsp in
     read_reply_of p addr len dest, wc_rid c).

(** ** The replica proxy, blocking tier *)

Definition net_to_error (e : net_error) : error_condition :=
  match e with
  | ne_send | ne_setup | ne_connect => ec_craft REPLICA_DOWN
  | ne_recv | ne_closed | ne_malformed | ne_timed_out => ec_std timed_out
  | ne_invalid_argument => ec_std invalid_argument
  end.

Definition to_io_extents (es : list extent_desc) : list io_extent :=
  (λ e, Mk_io_extent (ed_addr e) (ed_len e) (negb (ed_hole e =? 0))) <$> es.

Record CraftTcpReplica := Mk_tcp_replica {
  tr_vol_id : list Z;
  tr_conn : wire_client;
  tr_max_tx : Z;
  tr_lba : Z;
  tr_connected : bool;
  tr_bound : bool;
  tr_bound_term : Z;
}.
Definition mk_tcp_replica (vol : list Z) : CraftTcpReplica :=
  Mk_tcp_replica vol mk_wire_client k_default_max_tx 0 false false 0.
Definition tr_set_conn (t : CraftTcpReplica) (c : wire_client) (connected bound : bool) (term : Z) : CraftTcpReplica :=
  Mk_tcp_replica (tr_vol_id t) c (tr_max_tx t) (tr_lba t) connected bound term.
Definition tr_with (t : CraftTcpReplica) (c : wire_client) : CraftTcpReplica :=
  tr_set_conn t c (tr_connected t) (tr_bound t) (tr_bound_term t).

(** [reachable]: whether a connection can be made. *)
Definition ensure_connected (reachable : bool) (t : CraftTcpReplica) : bool * CraftTcpReplica :=
  if tr_connected t then (true, t)
  else if reachable then (true, tr_set_conn t mk_wire_client true (tr_bound t) (tr_bound_term t))
  else (false, t).

Definition on_net_fault (e : net_error) (t : CraftTcpReplica) : error_condition * CraftTcpReplica :=
  (net_to_error e,
   match e with
   | ne_invalid_argument => t
   | _ => tr_set_conn t (tr_conn t) false false (tr_bound_term t)
   end).

Definition ensure_bound (reachable : bool) (net : network) (t : CraftTcpReplica) (term client_token : Z) :
    option error_condition * CraftTcpReplica :=
  match ensure_connected reachable t with
  | (false, t) => (Some (ec_craft REPLICA_DOWN), t)
  | (true, t) =>
      if tr_bound t && (term =? tr_bound_term t) then (None, t)
      else
        let '(h, c) := wc_helo net (tr_conn t) (tr_vol_id t) client_token term in
        let t := tr_with t c in
        match h with
        | Err e => let '(ec, t) := on_net_fault e t in (Some ec, t)
        | Ok st_ok => (None, tr_set_conn t (tr_conn t) (tr_connected t) true term)
        | Ok st => (Some (status_to_error st), t)
        end
  end.

(** A call on a bound connection, and its result: a transport fault, a status that is not ok,
    or the reply. *)
Definition bound_call {A B} (call : wire_client → result net_error A * wire_client)
    (code : A → status) (ret : A → B) (reachable : bool) (helo_net : network) (t : CraftTcpReplica) (hdr : client_hdr) :
    result error_condition B * CraftTcpReplica :=
  match ensure_bound reachable helo_net t (ch_term hdr) (ch_client_token hdr) with
  | (Some e, t) => (Err e, t)
  | (None, t) =>
      let '(r, c) := call (tr_conn t) in
      let t := tr_with t c in
      match r with
      | Err e => let '(ec, t) := on_net_fault e t in (Err ec, t)
      | Ok a => match code a with st_ok => (Ok (ret a), t) | st => (Err (status_to_error st), t) end
      end
  end.

Definition payload_bytes (data : sg_list) : list Z := if sg_size data =? 0 then [] else concat (sg_iovs data).
Definition tr_write (reachable : bool) (helo_net net : network) (t : CraftTcpReplica) (hdr : client_hdr)
    (dlsn addr len : Z) (data : sg_list) : result error_condition lsn_pair * CraftTcpReplica :=
  bound_call (λ c, wc_write net c dlsn addr len (payload_bytes data) (ch_commit_lsn hdr) (ch_all_committed_lsn hdr))
    lq_status (λ r, Mk_lsn_pair (lq_commit_lsn r) (lq_last_append_lsn r)) reachable helo_net t hdr.
Definition tr_keep_alive (reachable : bool) (helo_net net : network) (t : CraftTcpReplica) (hdr : client_hdr) :
    result error_condition lsn_pair * CraftTcpReplica :=
  bound_call (λ c, wc_keep_alive net c (ch_commit_lsn hdr) (ch_all_committed_lsn hdr))
    lq_status (λ r, Mk_lsn_pair (lq_commit_lsn r) (lq_last_append_lsn r)) reachable helo_net t hdr.
Definition tr_request_resolution (reachable : bool) (helo_net net : network) (t : CraftTcpReplica) (hdr : client_hdr)
    (upto : Z) : result error_condition resolution_result * CraftTcpReplica :=
  bound_call (λ c, wc_resolve net c upto (ch_commit_lsn hdr) (ch_all_committed_lsn hdr))
    vp_status (λ r, Mk_resolution_result (vp_resolved_upto r) (vp_empty_slots r)) reachable helo_net t hdr.

(** The destination as one buffer of [len] bytes: the only iovec, or scratch. *)
Definition in_place (dest : sg_list) (len : Z) : bool :=
  match sg_iovs dest with [iov] => len <=? Z.of_nat (length iov) | _ => false end.
(** Scattering the scratch buffer into the caller's iovecs. *)
Fixpoint scatter_iovs (iovs : list (list Z)) (len off : nat) (scratch : list Z) : list (list Z) :=
  match iovs with
  | [] => []
  | iov :: iovs =>
      let n := Nat.min (length iov) (len - off) in
      let iov := write_at 0 (subspan off n scratch) iov in
      if decide (len ≤ off + n)%nat then iov :: iovs else iov :: scatter_iovs iovs len (off + n) scratch
  end.
Definition read_buffer (dest : sg_list) (len : Z) : list Z :=
  if in_place dest len then take (Z.to_nat len) (default [] (head (sg_iovs dest))) else replicate (Z.to_nat len) 0.
Lemma length_read_buffer dest len :
  0 ≤ len → length (read_buffer dest len) = Z.to_nat len.
Proof.
  intros H0. unfold read_buffer, in_place. destruct (sg_iovs dest) as [|iov [|iov2 iovs]]; try apply length_replicate.
  destruct (Z.leb_spec len (Z.of_nat (length iov))); [|apply length_replicate].
  simpl. rewrite length_take. lia.
Qed.
Definition read_into (dest : sg_list) (len : Z) (d : list Z) : list (list Z) :=
  if in_place dest len then [write_at 0 d (default [] (head (sg_iovs dest)))]
  else scatter_iovs (sg_iovs dest) (Z.to_nat len) 0 d.
Definition tr_read (reachable : bool) (helo_net net : network) (t : CraftTcpReplica) (hdr : client_hdr)
    (read_lsn addr len : Z) (dest : sg_list) : result error_condition (read_result * sg_list) * CraftTcpReplica :=
  bound_call (λ c, wc_read net c read_lsn addr len (read_buffer dest len) (ch_commit_lsn hdr) (ch_all_committed_lsn hdr))
    (λ r, rp_status r.1)
    (λ r, (Mk_read_result (to_io_extents (rp_extents r.1)) (Mk_lsn_pair (rp_commit_lsn r.1) (rp_last_append_lsn r.1)),
           Mk_sg (sg_size dest) (read_into dest len r.2)))
    reachable helo_net t hdr.

Definition tr_login (reachable : bool) (net : network) (t : CraftTcpReplica) (client_token : Z) :
    result error_condition LoginResult * CraftTcpReplica :=
  match ensure_connected reachable t with
  | (false, t) => (Err (ec_craft REPLICA_DOWN), t)
  | (true, t) =>
      let '(r, c) := wc_login net (tr_conn t) (tr_vol_id t) client_token in
      let t := tr_with t c in
      match r with
      | Err e => let '(ec, t) := on_net_fault e t in (Err ec, t)
      | Ok l =>
          let t := Mk_tcp_replica (tr_vol_id t) (tr_conn t) (if ls_max_tx l =? 0 then tr_max_tx t else ls_max_tx l)
                     (if ls_lba_size l =? 0 then tr_lba t else ls_lba_size l) (tr_connected t)
                     (if 0 <? ls_term l then true else tr_bound t) (if 0 <? ls_term l then ls_term l else tr_bound_term t) in
          (Ok (Mk_LoginResult ((λ m, Mk_endpoint (wm_id m) (wm_addr m)) <$> ls_members l) (ls_dlsn l) (ls_term l)
                 (ls_lba_size l) (ls_capacity l) (ls_leader_hint l) (ls_max_tx l)), t)
      end
  end.

Definition tr_logout (reachable : bool) (net : network) (t : CraftTcpReplica) :
    result error_condition unit * CraftTcpReplica :=
  match ensure_connected reachable t with
  | (false, t) => (Err (ec_craft REPLICA_DOWN), t)
  | (true, t) =>
      let '(r, c) := wc_logout net (tr_conn t) in
      let t := tr_with t c in
      match r with
      | Err e => let '(ec, t) := on_net_fault e t in (Err ec, t)
      | Ok st_ok => (Ok tt, t)
      | Ok st => (Err (status_to_error st), t)
      end
  end.

(** ** The peer connection *)

Record CraftTcpPeer := Mk_tcp_peer { tp_connected : bool; tp_next_rid : Z }.
Definition mk_tcp_peer : CraftTcpPeer := Mk_tcp_peer false 1.

(** The common part of the two verbs: connect, send, receive and parse; a fault of the
    connection drops it. *)
Definition peer_call (reachable : bool) (net : network) (t : CraftTcpPeer) (o : op) (oh body : list Z) :
    result error_condition message * CraftTcpPeer :=
  if negb (tp_connected t || reachable) then (Err (ec_craft REPLICA_DOWN), t)
  else
    let rid := tp_next_rid t in
    let next := u16 (rid + 1) in
    match net (frame_message [] o 0 rid oh body no_digest) with
    | Err ne_send => (Err (ec_craft REPLICA_DOWN), Mk_tcp_peer false next)
    | Err e => (Err (net_to_error e), Mk_tcp_peer false next)
    | Ok msg =>
        match parse_message msg k_default_max_tx no_digest with
        | Err _ => (Err (ec_craft INTERNAL), Mk_tcp_peer false next)
        | Ok p => (Ok p, Mk_tcp_peer true next)
        end
    end.

Definition peer_get_rs_commit_lsn (reachable : bool) (net : network) (t : CraftTcpPeer) (term : Z) (is_login : bool) :
    result error_condition lsn_pair * CraftTcpPeer :=
  let '(r, t) := peer_call reachable net t get_rs_commit_lsn
                   (enc get_rs_commit_lsn_req_codec
                      (Mk_get_rs_commit_lsn_req term (if is_login then 1 else 0) (replicate 7 0))) [] in
  (let? p := r in
   let rsp := dec get_rs_commit_lsn_rsp_codec (m_op_header p) in
   match status_of p with
   | st_ok => Ok (Mk_lsn_pair (gr_commit_lsn rsp) (gr_last_append_lsn rsp))
   | _ => Err (ec_craft INTERNAL)
   end, t).

(** The loop over the descriptors from the [i]-th on.  The bound of a payload is computed in
    [size_t]; [None]: the bytes taken are not inside the body. *)
Fixpoint fetch_slots (todo i : nat) (body : list Z) (data_off : Z) (slots : list JournalSlot) :
    option (result error_condition (list JournalSlot)) :=
  match todo with
  | O => Some (Ok slots)
  | S todo =>
      let size := csize fetch_slot_desc_codec in
      if decide (length body < i * size + size)%nat then Some (Err (ec_craft INTERNAL))
      else
        let sd := dec fetch_slot_desc_codec (drop (i * size) body) in
        let is_empty := negb (fd_is_empty sd =? 0) in
        let all_zeros := negb (fd_all_zeros sd =? 0) in
        let slot := Mk_JournalSlot (fd_lsn sd) is_empty all_zeros (fd_lba sd) (fd_len sd) in
        if negb is_empty && negb all_zeros then
          let nbytes := fd_byte_len sd in
          if decide (Z.of_nat (length body) < u64 (data_off + nbytes)) then Some (Err (ec_craft INTERNAL))
          else if decide (Z.of_nat (length body) < data_off + nbytes) then None
          else
            let b := subspan (Z.to_nat data_off) (Z.to_nat nbytes) body in
            fetch_slots todo (S i) body (data_off + nbytes) (slots ++ [slot (Mk_sg nbytes [b]) (Some b)])
        else fetch_slots todo (S i) body data_off (slots ++ [slot (Mk_sg 0 []) None])
  end.

Definition fetch_reply_of (p : message) : option (result error_condition (list JournalSlot)) :=
  match status_of p with
  | st_ok =>
      let rsp := dec fetch_data_rsp_codec (m_op_header p) in
      let desc_bytes := (Z.to_nat (fr_slot_count rsp) * csize fetch_slot_desc_codec)%nat in
      if decide (length (m_body p) < desc_bytes)%nat then Some (Err (ec_craft INTERNAL))
      else fetch_slots (Z.to_nat (fr_slot_count rsp)) 0 (m_body p) (Z.of_nat desc_bytes) []
  | _ => Some (Err (ec_craft INTERNAL))
  end.
Definition peer_fetch_data (reachable : bool) (net : network) (t : CraftTcpPeer) (lsns : list Z) :
    option (result error_condition (list JournalSlot) * CraftTcpPeer) :=
  let '(r, t) := peer_call reachable net t fetch_data
                   (enc fetch_data_req_codec (Mk_fetch_data_req (u32 (Z.of_nat (length lsns))) 0))
                   (enc_array cint64 lsns) in
  match r with
  | Err e => Some (Err e, t)
  | Ok p => res ← fetch_reply_of p; Some (res, t)
  end.
