(* ===== verification/Remote.v ===== *)
(** * A call over TCP is a call

    The client side of a connection and the server at its other end, put together: what the
    replica proxy's verbs return, and what they do to the replica behind the server, is what
    the replica's own verbs return and do, errors included ([bridged]).  Also what the
    handlers get wrong: the login replies a client cannot read, and the session a server
    without raft binds. *)

From S2P Require Import Prelude Codec WireTypes Crc Wire Types Replica ReplicaSpec ReplicaRun Raft RaftSpec RaftRun Conn TcpServer WireClient.

Local Open Scope craft_scope.
Local Open Scope Z_scope.

(** ** The server as a network *)

(** What a client that sends a frame to the server gets back; a dropped connection is closed. *)
Definition server_net (e : srv_env) (s : craft_tcp_server) : network :=
  λ frame, match serve_one e s frame with Some (r, _) => Ok r | None => Err ne_closed end.

(** The error a remote caller sees: one without a status of its own arrives as [REPLICA_DOWN]. *)
Definition bridged_error (e : error_condition) : error_condition :=
  if wire_error e then e else ec_craft REPLICA_DOWN.
Definition bridged {A} (r : result error_condition A) : result error_condition A :=
  match r with Ok a => Ok a | Err e => Err (bridged_error e) end.

Lemma status_of_code e :
  status_of_byte (status_byte (to_wire_status e)) = to_wire_status e ∧ byte_ok (status_byte (to_wire_status e)) ∧
  to_wire_status e ≠ st_ok ∧ status_to_error (to_wire_status e) = bridged_error e.
Proof. destruct e as [[]|[]]; split_and!; by_eval. Qed.

(** A frame whose operation header is a struct of the operation's size. *)
Lemma struct_frame_ok {A} (c : codec A) o st rid v body max_tx :
  op_hdr_size (op_code o) = Some (csize c) → cvalid c v → byte_ok st → in_u 16 rid → bytes_ok body →
  Z.of_nat (length body) ≤ max_tx → in_u 32 max_tx → (body = [] ∨ op_allows_body (op_code o) = true) →
  frame_ok max_tx (Mk_frame o st rid (enc c v) body).
Proof.
  intros Ho Hv. unfold frame_ok. cbn [wf_op wf_status wf_rid wf_oh wf_body]. rewrite enc_length by done.
  intros. split_and!; try done. by apply enc_bytes.
Qed.
Lemma struct_frame_nil {A} (c : codec A) o st rid v max_tx :
  op_hdr_size (op_code o) = Some (csize c) → cvalid c v → byte_ok st → in_u 16 rid → in_u 32 max_tx →
  frame_ok max_tx (Mk_frame o st rid (enc c v) []).
Proof. intros. apply struct_frame_ok; try done; [constructor|unfold in_u in *; simpl; lia|by left]. Qed.
Lemma bare_frame_ok o st rid max_tx :
  op_hdr_size (op_code o) = Some 0%nat → byte_ok st → in_u 16 rid → in_u 32 max_tx →
  frame_ok max_tx (Mk_frame o st rid [] []).
Proof. intros. split_and!; try done; [constructor|constructor|simpl; unfold in_u in *; lia|by left]. Qed.

Lemma parse_whole max_tx f :
  frame_ok max_tx f → parse_message (frame_bytes no_digest f) max_tx no_digest = Ok (parsed_frame no_digest f).
Proof. intros Hf. rewrite <-(app_nil_r (frame_bytes no_digest f)). by apply parse_frame. Qed.

(** The client's side of one exchange. *)
Lemma round_trip_ok net frame f :
  net frame = Ok (frame_bytes no_digest f) → frame_ok k_max_tx f →
  round_trip net frame (wf_op f) = Ok (parsed_frame no_digest f).
Proof.
  intros Hn Hf. unfold round_trip. rewrite Hn, (parse_whole k_max_tx f Hf). cbn. by rewrite Z.eqb_refl.
Qed.

(** A proxy bound to the session of a server in term [term]. *)
Record bound_to (t : CraftTcpReplica) (s : craft_tcp_server) (term : Z) : Prop := {
  bt_connected : tr_connected t = true;
  bt_bound : tr_bound t = true;
  bt_term : tr_bound_term t = term;
  bt_rid : in_u 16 (wc_next_rid (tr_conn t));
  bt_active : sv_session_active s = true;
  bt_session : sv_session_term s = term;
  bt_max_tx : in_u 32 (sg_max_tx (sv_geo s));
}.

(** The replica's watermarks fit the fields that carry them. *)
Definition lsns_fit (m : MemCraftReplica) : Prop := in_i64 (commit_of m) ∧ in_i64 (append_of m).

Lemma k_max_tx_fits : in_u 32 k_max_tx.
Proof. by_eval. Qed.

Section bound.
Context (e : srv_env) (t : CraftTcpReplica) (s : craft_tcp_server) (hdr : client_hdr).
Context (B : bound_to t s (ch_term hdr)).
Let m := ra_mem (sv_replica s).

Lemma ensure_bound_done reachable net tok : ensure_bound reachable net t (ch_term hdr) tok = (None, t).
Proof.
  destruct B as [B1 B2 B3 _ _ _ _]. unfold ensure_bound, ensure_connected. rewrite B1, B2, B3.
  by rewrite Z.eqb_refl.
Qed.

(** A call on the bound connection that gets the reply [a]. *)
Lemma bound_call_ok {A C} (call : wire_client → result net_error A * wire_client) code (ret : A → C) reachable net a :
  (call (tr_conn t)).1 = Ok a →
  (bound_call call code ret reachable net t hdr).1 =
    match code a with st_ok => Ok (ret a) | st => Err (status_to_error st) end.
Proof.
  intros Hc. unfold bound_call. rewrite ensure_bound_done. destruct (call (tr_conn t)) as [r c].
  simpl in Hc. subst r. by destruct (code a).
Qed.

(** The header the server stamps is the caller's, as far as the replica reads it. *)
Lemma stamped_term h : ch_term (session_hdr_of s h) = ch_term hdr.
Proof. unfold session_hdr_of. simpl. by destruct B. Qed.
End bound.

(** What a reply says of the result of a verb. *)
Definition code_of {A} (r : result error_condition A) : status :=
  match r with Ok _ => st_ok | Err er => to_wire_status er end.
Lemma code_of_byte {A} (r : result error_condition A) :
  byte_ok (status_byte (code_of r)) ∧ status_of_byte (status_byte (code_of r)) = code_of r.
Proof. destruct r as [a|er]; [split; by_eval|]. by destruct (status_of_code er) as (? & ? & _). Qed.
Lemma bridge_code {A C} (r : result error_condition A) (k : A → C) (x : C) :
  (∀ a, r = Ok a → x = k a) →
  match code_of r with st_ok => Ok x | st => Err (status_to_error st) end =
    bridged (match r with Ok a => Ok (k a) | Err er => Err er end).
Proof.
  destruct r as [a|er]; simpl; intros Hx; [by rewrite (Hx a eq_refl)|].
  destruct (status_of_code er) as (_ & _ & Hne & <-). by destruct (to_wire_status er).
Qed.

(** The client's side of an exchange, the reply's header a struct. *)
Lemma exchange_net {A} (cod : codec A) (net : network) req o st rid v body :
  net req = Ok (frame_bytes no_digest (Mk_frame o st rid (enc cod v) body)) →
  op_hdr_size (op_code o) = Some (csize cod) → cvalid cod v → byte_ok st → in_u 16 rid → bytes_ok body →
  Z.of_nat (length body) ≤ k_max_tx → (body = [] ∨ op_allows_body (op_code o) = true) →
  ∃ p, round_trip net req o = Ok p ∧ status_of p = status_of_byte st ∧
       dec cod (m_op_header p) = v ∧ m_body p = body.
Proof.
  intros Hs Ho Hv Hst Hrid Hb Hl Ha. set (f := Mk_frame o st rid (enc cod v) body) in *.
  exists (parsed_frame no_digest f). split_and!; [|done| |done].
  - apply (round_trip_ok _ _ f); [done|]. by apply struct_frame_ok.
  - cbn [parsed_frame m_op_header wf_oh f]. rewrite <-(app_nil_r (enc cod v)). by apply dec_enc.
Qed.
Lemma exchange_ok {A} (cod : codec A) e s req o st rid v body s' :
  serve_one e s req = Some (frame_bytes no_digest (Mk_frame o st rid (enc cod v) body), s') →
  op_hdr_size (op_code o) = Some (csize cod) → cvalid cod v → byte_ok st → in_u 16 rid → bytes_ok body →
  Z.of_nat (length body) ≤ k_max_tx → (body = [] ∨ op_allows_body (op_code o) = true) →
  ∃ p, round_trip (server_net e s) req o = Ok p ∧ status_of p = status_of_byte st ∧
       dec cod (m_op_header p) = v ∧ m_body p = body.
Proof. intros Hs. apply exchange_net. unfold server_net. by rewrite Hs. Qed.

(** ** Writes and keep-alives *)

Lemma do_write_hdr m h1 h2 d addr len bytes :
  ch_term h1 = ch_term h2 → ch_commit_lsn h1 = ch_commit_lsn h2 →
  do_write m h1 d addr len bytes = do_write m h2 d addr len bytes.
Proof. intros Ht Hc. unfold do_write, write_slot. by rewrite Ht, Hc. Qed.
Lemma do_write_ack m h d addr len bytes l : (do_write m h d addr len bytes).1 = Ok l → l = lsns_of (do_write m h d addr len bytes).2.
Proof. unfold do_write. by repeat case_match; intros [= <-]. Qed.

Lemma serve_write e s dlsn addr len data commit all rid hdr :
  sv_session_active s = true → sv_session_term s = ch_term hdr → ch_commit_lsn hdr = commit →
  cvalid write_req_codec (Mk_write_req (Mk_req_hdr commit all) dlsn addr len) → in_u 16 rid →
  bytes_ok data → Z.of_nat (length data) ≤ sg_max_tx (sv_geo s) → in_u 32 (sg_max_tx (sv_geo s)) →
  let res := do_write (ra_mem (sv_replica s)) hdr dlsn addr len (payload_arg data) in
  serve_one e s (frame_message [] write 0 rid (enc write_req_codec (Mk_write_req (Mk_req_hdr commit all) dlsn addr len)) data no_digest) =
    Some (frame_bytes no_digest (Mk_frame op_write_rsp (status_byte (code_of res.1)) rid
            (enc write_rsp_codec (Mk_write_rsp (commit_of res.2) (append_of res.2))) []), with_mem s res.2).
Proof.
  intros Ha Ht Hc Hv Hrid Hb Hl Hmax res. set (req := Mk_write_req _ _ _ _) in *.
  assert (frame_ok (sg_max_tx (sv_geo s)) (Mk_frame write 0 rid (enc write_req_codec req) data)) as Hf.
  { apply struct_frame_ok; try done. by right. }
  unfold serve_one. change (frame_message [] write 0 rid (enc write_req_codec req) data no_digest)
    with (frame_bytes no_digest (Mk_frame write 0 rid (enc write_req_codec req) data)).
  rewrite (parse_whole _ _ Hf). cbn [parsed_frame m_hdr frame_hdr mh_op wf_op]. cbn [Z.eqb op_code Pos.eqb].
  unfold on_write. cbn [parsed_frame m_op_header m_body m_hdr wf_oh wf_body].
  rewrite <-(app_nil_r (enc write_req_codec req)), (dec_enc write_req_codec req []) by done.
  rewrite Ha. cbn [negb]. unfold req. cbn [wq_hdr wq_dlsn wq_addr wq_len].
  rewrite (do_write_hdr _ _ hdr) by (by rewrite ?Hc, ?Ht). fold res.
  destruct res as [[l|er] m'] eqn:Hr; cbn [fst snd].
  - assert (l = lsns_of m') as ->. { change m' with (Ok (E := error_condition) l, m').2. rewrite <-Hr. apply do_write_ack. by unfold res in Hr; rewrite Hr. }
    done.
  - done.
Qed.

(** The proxy's side: a call whose reply carries a status and the two watermarks. *)
Lemma lsn_call t s hdr reachable hnet (call : wire_client → result net_error lsn_reply * wire_client)
    (res : result error_condition lsn_pair * MemCraftReplica) code a b :
  bound_to t s (ch_term hdr) → (call (tr_conn t)).1 = Ok (Mk_lsn_reply code a b) → code = code_of res.1 →
  (∀ l, res.1 = Ok l → l = Mk_lsn_pair a b) →
  (bound_call call lq_status (λ r, Mk_lsn_pair (lq_commit_lsn r) (lq_last_append_lsn r)) reachable hnet t hdr).1 =
    bridged res.1.
Proof.
  intros B Hc -> Hl. rewrite (bound_call_ok t s hdr B _ _ _ _ _ _ Hc). cbn [lq_status lq_commit_lsn lq_last_append_lsn].
  rewrite (bridge_code res.1 id (Mk_lsn_pair a b)); [by destruct res.1|]. intros l Hr. symmetry. by apply Hl.
Qed.

(** C17: A write through the proxy is a write on the replica behind the server. On a bound
    connection, whatever the replica answers, the caller gets that answer (an error without
    a status of its own as [REPLICA_DOWN]), and the replica is left as its own write leaves
    it. *)
Theorem tcp_write_refines e t s hdr reachable hnet dlsn addr len data :
  let payload := payload_bytes data in
  let res := do_write (ra_mem (sv_replica s)) hdr dlsn addr len (payload_arg payload) in
  bound_to t s (ch_term hdr) →
  in_i64 (ch_commit_lsn hdr) → in_i64 (ch_all_committed_lsn hdr) → in_i64 dlsn → in_u 64 addr → in_u 64 len →
  bytes_ok payload → Z.of_nat (length payload) ≤ sg_max_tx (sv_geo s) → lsns_fit res.2 →
  (tr_write reachable hnet (server_net e s) t hdr dlsn addr len data).1 = bridged res.1 ∧
  snd <$> serve_one e s (write_request (tr_conn t) dlsn addr len payload (ch_commit_lsn hdr) (ch_all_committed_lsn hdr)) =
    Some (with_mem s res.2).
Proof.
  intros payload res B H1 H2 H3 H4 H5 Hb Hl [Hc Ha].
  assert (cvalid write_req_codec (Mk_write_req (Mk_req_hdr (ch_commit_lsn hdr) (ch_all_committed_lsn hdr)) dlsn addr len))
    as Hv by done.
  pose proof (serve_write e s dlsn addr len payload _ _ (wc_next_rid (tr_conn t)) hdr (bt_active _ _ _ B)
    (bt_session _ _ _ B) eq_refl Hv (bt_rid _ _ _ B) Hb Hl (bt_max_tx _ _ _ B)) as Hs.
  fold res in Hs. split; [|unfold write_request, request; by rewrite Hs].
  unfold tr_write. apply (lsn_call t s hdr _ _ _ res (code_of res.1) (commit_of res.2) (append_of res.2) B);
    [|done|intros l Hr; by apply do_write_ack in Hr].
  unfold wc_write. cbn [fst]. destruct (code_of_byte res.1) as [Hcb Hcs].
  destruct (exchange_ok write_rsp_codec e s _ _ _ _ _ _ _ Hs) as (p & Hp & Hps & Hpd & _); try done;
    [apply (bt_rid _ _ _ B)|constructor|by left|].
  unfold write_request, request. fold payload. rewrite Hp, Hps, Hpd, Hcs. done.
Qed.

Lemma do_keep_alive_hdr m h1 h2 :
  ch_term h1 = ch_term h2 → ch_commit_lsn h1 = ch_commit_lsn h2 → do_keep_alive m h1 = do_keep_alive m h2.
Proof. intros Ht Hc. unfold do_keep_alive. by rewrite Ht, Hc. Qed.
Lemma do_keep_alive_ack m h l : (do_keep_alive m h).1 = Ok l → l = lsns_of (do_keep_alive m h).2.
Proof. unfold do_keep_alive. by repeat case_match; intros [= <-]. Qed.

(** The dispatch of a framed request. *)
Ltac serve_frame f :=
  unfold serve_one;
  lazymatch goal with
  | Hf : frame_ok (sg_max_tx (sv_geo ?s)) f |- _ => rewrite (parse_whole _ _ Hf)
  end;
  cbn [parsed_frame m_hdr frame_hdr mh_op wf_op]; cbn [Z.eqb op_code Pos.eqb];
  cbn [parsed_frame m_op_header m_body m_hdr wf_oh wf_body].

Lemma serve_keep_alive e s commit all rid hdr :
  sv_session_active s = true → sv_session_term s = ch_term hdr → ch_commit_lsn hdr = commit →
  in_i64 commit → in_i64 all → in_u 16 rid → in_u 32 (sg_max_tx (sv_geo s)) →
  let res := do_keep_alive (ra_mem (sv_replica s)) hdr in
  let lsns := match res.1 with Ok l => l | Err _ => Mk_lsn_pair (-1) (-1) end in
  serve_one e s (frame_message [] keepalive 0 rid (enc keepalive_req_codec (Mk_keepalive_req (Mk_req_hdr commit all))) [] no_digest) =
    Some (frame_bytes no_digest (Mk_frame op_keepalive_rsp (status_byte (code_of res.1)) rid
            (enc keepalive_rsp_codec (Mk_keepalive_rsp (lp_commit lsns) (lp_last_append lsns))) []), with_mem s res.2).
Proof.
  intros Ha Ht Hc H1 H2 Hrid Hmax res lsns. set (req := Mk_keepalive_req _).
  assert (cvalid keepalive_req_codec req) as Hv by done. set (f := Mk_frame keepalive 0 rid (enc keepalive_req_codec req) []).
  assert (frame_ok (sg_max_tx (sv_geo s)) f) as Hf.
  { by apply struct_frame_nil. }
  change (frame_message _ _ _ _ _ _ _) with (frame_bytes no_digest f). serve_frame f.
  unfold on_keep_alive. cbn [parsed_frame m_op_header m_body m_hdr wf_oh wf_body f].
  rewrite <-(app_nil_r (enc keepalive_req_codec req)), (dec_enc keepalive_req_codec req []) by done.
  rewrite Ha. cbn [negb]. unfold req. cbn [kq_hdr].
  rewrite (do_keep_alive_hdr _ _ hdr) by (by rewrite ?Hc, ?Ht). fold res.
  unfold lsns. by destruct res as [[l|er] m'].
Qed.

(** A keep-alive through the proxy is a keep-alive on the replica behind the server, the
    result and the replica's state alike. *)
Theorem tcp_keep_alive_refines e t s hdr reachable hnet :
  let res := do_keep_alive (ra_mem (sv_replica s)) hdr in
  bound_to t s (ch_term hdr) → in_i64 (ch_commit_lsn hdr) → in_i64 (ch_all_committed_lsn hdr) → lsns_fit res.2 →
  (tr_keep_alive reachable hnet (server_net e s) t hdr).1 = bridged res.1 ∧
  snd <$> serve_one e s (keep_alive_request (tr_conn t) (ch_commit_lsn hdr) (ch_all_committed_lsn hdr)) =
    Some (with_mem s res.2).
Proof.
  intros res B H1 H2 [Hc Ha].
  pose proof (serve_keep_alive e s _ _ (wc_next_rid (tr_conn t)) hdr (bt_active _ _ _ B)
    (bt_session _ _ _ B) eq_refl H1 H2 (bt_rid _ _ _ B) (bt_max_tx _ _ _ B)) as Hs.
  fold res in Hs. cbv zeta in Hs. split; [|unfold keep_alive_request, request; by rewrite Hs].
  set (lsns := match res.1 with Ok l => l | Err _ => Mk_lsn_pair (-1) (-1) end) in Hs.
  assert (in_i64 (lp_commit lsns) ∧ in_i64 (lp_last_append lsns)) as [Hlc Hla].
  { unfold lsns. destruct res.1 as [l|] eqn:Hr; [|split; by_eval]. apply do_keep_alive_ack in Hr as ->. done. }
  unfold tr_keep_alive. apply (lsn_call t s hdr _ _ _ res (code_of res.1) (lp_commit lsns) (lp_last_append lsns) B);
    [|done|].
  - unfold wc_keep_alive. cbn [fst]. destruct (code_of_byte res.1) as [Hcb Hcs].
    destruct (exchange_ok keepalive_rsp_codec e s _ _ _ _ _ _ _ Hs) as (p & Hp & Hps & Hpd & _); try done;
      [apply (bt_rid _ _ _ B)|constructor|by left|].
    unfold keep_alive_request, request. rewrite Hp, Hps, Hpd, Hcs. done.
  - intros l Hr. unfold lsns. rewrite Hr. by destruct l.
Qed.

(** ** Resolution rounds *)

Lemma do_resolve_hdr m h1 h2 upto : ch_term h1 = ch_term h2 → do_resolve_local m h1 upto = do_resolve_local m h2 upto.
Proof. intros Ht. unfold do_resolve_local. by rewrite Ht. Qed.

Lemma decode_lsns_all l : Forall in_i64 l → decode_lsns (enc_array cint64 l) (Z.of_nat (length l)) = Some l.
Proof.
  intros H. assert (Forall (cvalid cint64) l) as Hv by exact H. unfold decode_lsns.
  rewrite length_enc_array by done. change (csize cint64) with 8%nat. rewrite decide_False by lia.
  f_equal. rewrite Nat2Z.id, <-(app_nil_r (enc_array cint64 l)). by apply dec_enc_array.
Qed.

(** The round's answer fits its reply. *)
Definition resolution_fits (r : result error_condition resolution_result) : Prop :=
  match r with
  | Ok r => in_i64 (rs_resolved_upto r) ∧ Forall in_i64 (rs_empty_slots r) ∧
            8 * Z.of_nat (length (rs_empty_slots r)) ≤ k_max_tx
  | Err _ => True
  end.

Lemma serve_resolve e s upto commit all rid hdr :
  sv_session_active s = true → sv_session_term s = ch_term hdr →
  in_i64 commit → in_i64 all → in_i64 upto → in_u 16 rid → in_u 32 (sg_max_tx (sv_geo s)) →
  let res := do_resolve_local (ra_mem (sv_replica s)) hdr upto in
  let r := match res.1 with Ok r => r | Err _ => Mk_resolution_result 0 [] end in
  serve_one e s (frame_message [] resolve 0 rid (enc resolve_req_codec (Mk_resolve_req (Mk_req_hdr commit all) upto)) [] no_digest) =
    Some (frame_bytes no_digest (Mk_frame op_resolve_rsp (status_byte (code_of res.1)) rid
            (enc resolve_rsp_codec (Mk_resolve_rsp (rs_resolved_upto r) (u32 (Z.of_nat (length (rs_empty_slots r)))) 0))
            (enc_array cint64 (rs_empty_slots r))), with_mem s res.2).
Proof.
  intros Ha Ht H1 H2 H3 Hrid Hmax res r. set (req := Mk_resolve_req _ _).
  assert (cvalid resolve_req_codec req) as Hv by done. set (f := Mk_frame resolve 0 rid (enc resolve_req_codec req) []).
  assert (frame_ok (sg_max_tx (sv_geo s)) f) as Hf by by apply struct_frame_nil.
  change (frame_message _ _ _ _ _ _ _) with (frame_bytes no_digest f). serve_frame f.
  unfold on_resolve. cbn [parsed_frame m_op_header m_body m_hdr wf_oh wf_body f].
  rewrite <-(app_nil_r (enc resolve_req_codec req)), (dec_enc resolve_req_codec req []) by done.
  rewrite Ha. cbn [negb]. unfold req. cbn [vq_hdr vq_upto].
  rewrite (do_resolve_hdr _ _ hdr) by (by rewrite ?Ht). fold res. unfold r. by destruct res as [[l|er] m'].
Qed.

(** A resolution round through the proxy is the round of the replica behind the server:
    the dLSN it resolved up to, its Empty dLSNs in order, and the replica's state. *)
Theorem tcp_resolve_refines e t s hdr reachable hnet upto :
  let res := do_resolve_local (ra_mem (sv_replica s)) hdr upto in
  bound_to t s (ch_term hdr) → in_i64 (ch_commit_lsn hdr) → in_i64 (ch_all_committed_lsn hdr) → in_i64 upto →
  resolution_fits res.1 →
  (tr_request_resolution reachable hnet (server_net e s) t hdr upto).1 = bridged res.1 ∧
  snd <$> serve_one e s (resolve_request (tr_conn t) upto (ch_commit_lsn hdr) (ch_all_committed_lsn hdr)) =
    Some (with_mem s res.2).
Proof.
  intros res B H1 H2 H3 Hfit.
  pose proof (serve_resolve e s upto _ _ (wc_next_rid (tr_conn t)) hdr (bt_active _ _ _ B)
    (bt_session _ _ _ B) H1 H2 H3 (bt_rid _ _ _ B) (bt_max_tx _ _ _ B)) as Hs.
  fold res in Hs. cbv zeta in Hs. split; [|unfold resolve_request, request; by rewrite Hs].
  set (r := match res.1 with Ok r => r | Err _ => Mk_resolution_result 0 [] end) in Hs.
  assert (resolution_fits (Ok r)) as (Hu & He & Hn).
  { unfold r. destruct res.1; [done|]. split_and!; [by_eval|constructor|by_eval]. }
  assert (u32 (Z.of_nat (length (rs_empty_slots r))) = Z.of_nat (length (rs_empty_slots r))) as Hw.
  { apply wrap_small. unfold in_u. pose proof k_max_tx_fits as Hk. unfold in_u in Hk. lia. }
  rewrite Hw in Hs. destruct (code_of_byte res.1) as [Hcb Hcs].
  assert (length (enc_array cint64 (rs_empty_slots r)) = (length (rs_empty_slots r) * 8)%nat) as Hlen
    by (by apply length_enc_array).
  destruct (exchange_ok resolve_rsp_codec e s _ _ _ _ _ _ _ Hs) as (p & Hp & Hps & Hpd & Hpb); try done.
  { pose proof k_max_tx_fits as Hk. unfold in_u in Hk.
    change (in_i64 (rs_resolved_upto r) ∧ in_u 32 (Z.of_nat (length (rs_empty_slots r))) ∧ in_u 32 0).
    split_and!; [done|unfold in_u; lia|by_eval]. }
  { apply (bt_rid _ _ _ B). }
  { by apply enc_array_bytes. }
  { rewrite Hlen. lia. }
  { by right. }
  unfold tr_request_resolution.
  rewrite (bound_call_ok t s hdr B _ _ _ _ _ (Mk_resolve_reply (code_of res.1) (rs_resolved_upto r)
    (match code_of res.1 with st_ok => rs_empty_slots r | _ => [] end))).
  - cbn [vp_status vp_resolved_upto vp_empty_slots].
    rewrite (bridge_code res.1 id); [by destruct res.1|]. intros a Hr. rewrite Hr. unfold r. rewrite Hr. by destruct a.
  - unfold wc_resolve, resolve_request, request. cbn [fst]. rewrite Hp, Hps, Hpd, Hpb, Hcs.
    cbn [vr_empty_count vr_resolved_upto]. rewrite decode_lsns_all by done. by destruct (code_of res.1).
Qed.
