(* ===== verification/RemoteRead.v ===== *)
(** * A read over TCP is a read

    The server sends the extent table and the bytes of the data extents only; the client
    scatters them and zeroes the holes.  Put together, the caller's buffers and layout are
    those of a read on the replica itself. *)

From S2P Require Import Prelude Codec WireTypes Crc Wire Types Replica ReplicaSpec ReplicaRun Raft RaftSpec RaftRun Conn TcpServer WireClient Remote.

Local Open Scope craft_scope.
Local Open Scope Z_scope.

(** ** Writing parts of a buffer into another *)

Lemma lookup_write_at off bs buf i :
  (off + length bs ≤ length buf)%nat →
  write_at off bs buf !! i = if decide (off ≤ i < off + length bs)%nat then bs !! (i - off)%nat else buf !! i.
Proof.
  intros Hl. unfold write_at. assert (length (take off buf) = off) as Ht by (rewrite length_take; lia).
  destruct (decide (i < off)%nat) as [Hi|Hi].
  { rewrite lookup_app_l, lookup_take_lt by lia. by rewrite decide_False by lia. }
  rewrite lookup_app_r, Ht by lia. destruct (decide (i < off + length bs)%nat).
  - rewrite lookup_app_l by lia. by rewrite decide_True by lia.
  - rewrite lookup_app_r, lookup_drop by lia. rewrite decide_False by lia. f_equal. lia.
Qed.

(** [d] has the bytes of [buf] at every index of [c]. *)
Definition agrees (buf d : list Z) (c : nat → Prop) : Prop :=
  length d = length buf ∧ ∀ i, c i → d !! i = buf !! i.

Lemma agrees_write buf d c off n :
  agrees buf d c → (off + n ≤ length buf)%nat →
  agrees buf (write_at off (subspan off n buf) d) (λ i, c i ∨ (off ≤ i < off + n)%nat).
Proof.
  intros [Hl Hc] Hn. assert (length (subspan off n buf) = n) as Hs.
  { unfold subspan. rewrite length_take, length_drop. lia. }
  split; [rewrite write_at_length; [done|lia]|]. intros i Hi. rewrite lookup_write_at, Hs by lia.
  destruct (decide (off ≤ i < off + n)%nat).
  - unfold subspan. rewrite lookup_take_lt, lookup_drop by lia. f_equal. lia.
  - destruct Hi as [Hi|Hi]; [by apply Hc|lia].
Qed.

(** The region of a planned piece. *)
Definition covered (plan : list (Z * Z)) (i : nat) : Prop :=
  Exists (λ p, Z.to_nat p.1 ≤ i < Z.to_nat p.1 + Z.to_nat p.2)%nat plan.
Definition piece (buf : list Z) (p : Z * Z) : list Z := subspan (Z.to_nat p.1) (Z.to_nat p.2) buf.
Definition piece_fits (buf : list Z) (p : Z * Z) : Prop := (Z.to_nat p.1 + Z.to_nat p.2 ≤ length buf)%nat.

Lemma length_piece buf p : piece_fits buf p → length (piece buf p) = Z.to_nat p.2.
Proof. unfold piece_fits, piece, subspan. intros. rewrite length_take, length_drop. lia. Qed.

(** Scattering the packed pieces of a buffer restores those pieces. *)
Lemma scatter_data_spec buf plan pre post d c :
  agrees buf d c → Forall (piece_fits buf) plan →
  ∃ d', scatter_data plan (pre ++ concat (piece buf <$> plan) ++ post) (length pre) d = Some d' ∧
    agrees buf d' (λ i, c i ∨ covered plan i).
Proof.
  intros Ha Hf. revert pre d c Ha. induction Hf as [|[o n] plan Hp _ IH]; intros pre d c Ha.
  { exists d. split; [done|]. destruct Ha as [Hl Hc]. split; [done|]. intros i [?|?%Exists_nil]; [by apply Hc|done]. }
  pose proof (length_piece buf (o, n) Hp) as Hpl. cbn [fmap list_fmap concat scatter_data fst snd] in *.
  rewrite decide_False by (rewrite !length_app; lia).
  assert (subspan (length pre) (Z.to_nat n) (pre ++ (piece buf (o, n) ++ concat (piece buf <$> plan)) ++ post) = piece buf (o, n)) as ->.
  { unfold subspan. rewrite drop_app_length, <-(assoc_L (++)), <-Hpl. apply take_app_length. }
  pose proof (agrees_write buf d c (Z.to_nat o) (Z.to_nat n) Ha Hp) as Ha'.
  destruct (IH (pre ++ piece buf (o, n)) _ _ Ha') as (d' & Hd & Hag).
  exists d'. rewrite length_app, Hpl, <-!(assoc_L (++)) in Hd. rewrite <-!(assoc_L (++)). split; [exact Hd|].
  destruct Hag as [Hl Hag]. split; [done|]. intros i Hi. apply Hag. unfold covered in *. rewrite Exists_cons in Hi.
  cbn [fst snd] in Hi. tauto.
Qed.

(** Zeroing the pieces that are zero restores them. *)
Lemma zero_holes_spec buf plan d c :
  agrees buf d c → Forall (piece_fits buf) plan →
  Forall (λ p, piece buf p = replicate (Z.to_nat p.2) 0) plan →
  agrees buf (zero_holes plan d) (λ i, c i ∨ covered plan i).
Proof.
  intros Ha Hf Hz. revert d c Ha. induction plan as [|[o n] plan IH]; intros d c Ha.
  { destruct Ha as [Hl Hc]. split; [done|]. intros i [?|?%Exists_nil]; [by apply Hc|done]. }
  apply Forall_cons in Hf as [Hp Hf]. apply Forall_cons in Hz as [Hz1 Hz]. cbn [zero_holes foldl fst snd] in *.
  rewrite <-Hz1. pose proof (agrees_write buf d c (Z.to_nat o) (Z.to_nat n) Ha Hp) as Ha'.
  destruct (IH Hf Hz _ _ Ha') as [Hl Hag]. split; [exact Hl|]. intros i Hi. apply Hag. unfold covered in *.
  rewrite Exists_cons in Hi. cbn [fst snd] in Hi. tauto.
Qed.

(** ** The tiles of a layout *)

Section tiles.
Context (page addr : Z) (hole : Z → bool) (buf : list Z) (a0 e0 : Z).
Context (Hpage : 0 < page) (Haddr : addr = a0 * page) (Ha0 : 0 ≤ a0) (Hw : e0 * page < 2 ^ 64).
Context (Hbuf : Z.of_nat (length buf) = (e0 - a0) * page).
Context (Hzero : ∀ x, a0 ≤ x < e0 → hole x = true →
  subspan (Z.to_nat ((x - a0) * page)) (Z.to_nat page) buf = replicate (Z.to_nat page) 0).

Definition dest_of (x : io_extent) : Z * Z := (ie_addr x - addr, ie_len x).

(** What one tile of the layout is. *)
Definition tile (x : io_extent) : Prop :=
  ∃ a m, a0 ≤ a < m ∧ m ≤ e0 ∧ ie_addr x = a * page ∧ ie_len x = (m - a) * page ∧ ∀ i, a ≤ i < m → hole i = ie_hole x.

Lemma tiles_are a l : a0 ≤ a → layout_tiles page hole a e0 l → Forall tile l.
Proof.
  revert a. induction l as [|x l IH]; intros a Ha Ht; [constructor|].
  destruct Ht as (m & Hm & H1 & H2 & H3 & _ & Ht). constructor; [|apply (IH m); [lia|done]].
  exists a, m. split_and!; done || lia.
Qed.

Lemma tiles_count a l : layout_tiles page hole a e0 l → Z.of_nat (length l) ≤ e0 - a.
Proof.
  revert a. induction l as [|x l IH]; intros a Ht; simpl in Ht; [subst; simpl; lia|].
  destruct Ht as (m & Hm & _ & _ & _ & _ & Ht). apply IH in Ht. cbn [length]. lia.
Qed.

(** Together the tiles cover the rest of the buffer. *)
Lemma tiles_cover a l i :
  a0 ≤ a → layout_tiles page hole a e0 l → (a - a0) * page ≤ Z.of_nat i < (e0 - a0) * page →
  covered (dest_of <$> l) i.
Proof.
  revert a. induction l as [|x l IH]; intros a Ha Ht Hi; simpl in Ht; [subst; lia|].
  destruct Ht as (m & Hm & H1 & H2 & _ & _ & Ht). unfold covered. cbn [fmap list_fmap]. rewrite Exists_cons.
  destruct (decide (Z.of_nat i < (m - a0) * page)) as [Hlt|Hge]; [left|right; apply (IH m); [lia|done|lia]].
  unfold dest_of. cbn [fst snd]. rewrite H1, H2, Haddr. nia.
Qed.

Lemma tile_fits x : tile x → piece_fits buf (dest_of x) ∧ 0 ≤ ie_addr x - addr ∧ 0 ≤ ie_len x ∧
  ie_addr x + ie_len x ≤ e0 * page.
Proof.
  intros (a & m & Ha & Hm & H1 & H2 & _). unfold piece_fits, dest_of. cbn [fst snd]. rewrite H1, H2, Haddr.
  split_and!; nia.
Qed.

(** The pieces of the tiles are no longer than the buffer. *)
Lemma tiles_length a l :
  a0 ≤ a → layout_tiles page hole a e0 l →
  Z.of_nat (length (concat (piece buf <$> (dest_of <$> filter (λ x, ie_hole x = false) l)))) ≤ (e0 - a) * page.
Proof.
  revert a. induction l as [|x l IH]; intros a Ha Ht; simpl in Ht; [subst; simpl; lia|].
  assert (tile x) as Hx by (pose proof (tiles_are a (x :: l) Ha Ht) as Hf; by apply Forall_cons in Hf as [? _]).
  destruct Ht as (m & Hm & H1 & H2 & _ & _ & Ht). specialize (IH m ltac:(lia) Ht). rewrite filter_cons.
  case_decide; [|nia]. cbn [fmap list_fmap concat]. rewrite length_app, length_piece by apply tile_fits, Hx.
  unfold dest_of at 1. cbn [snd]. rewrite H2. nia.
Qed.

(** A hole is zero throughout. *)
Lemma zero_run a n :
  a0 ≤ a → a + Z.of_nat n ≤ e0 → (∀ i, a ≤ i < a + Z.of_nat n → hole i = true) →
  subspan (Z.to_nat ((a - a0) * page)) (Z.to_nat (Z.of_nat n * page)) buf = replicate (Z.to_nat (Z.of_nat n * page)) 0.
Proof.
  revert a. induction n as [|n IH]; intros a Ha Hn Hh; [done|].
  replace (Z.to_nat (Z.of_nat (S n) * page)) with (Z.to_nat page + Z.to_nat (Z.of_nat n * page))%nat by nia.
  unfold subspan in *. rewrite <-take_take_drop, replicate_add. f_equal; [apply Hzero; [lia|apply Hh; lia]|].
  rewrite drop_drop. specialize (IH (a + 1)). replace (Z.to_nat ((a - a0) * page) + Z.to_nat page)%nat
    with (Z.to_nat ((a + 1 - a0) * page)) by nia. apply IH; [lia|lia|]. intros i Hi. apply Hh. lia.
Qed.

Lemma tile_zero x : tile x → ie_hole x = true → piece buf (dest_of x) = replicate (Z.to_nat (ie_len x)) 0.
Proof.
  intros (a & m & Ha & Hm & H1 & H2 & Hh) Hx. unfold piece, dest_of. cbn [fst snd]. rewrite H1, H2, Haddr.
  replace (a * page - a0 * page) with ((a - a0) * page) by lia.
  replace (m - a) with (Z.of_nat (Z.to_nat (m - a))) by lia. apply zero_run; [lia|lia|].
  intros i Hi. rewrite <-Hx. apply Hh. lia.
Qed.

(** *** The reply of a read with this layout *)

Context (layout : list io_extent) (Htiles : layout_tiles page hole a0 e0 layout).
Local Abbreviation len := ((e0 - a0) * page).

Lemma layout_tile x : x ∈ layout → tile x.
Proof. intros Hx. pose proof (tiles_are a0 layout ltac:(lia) Htiles) as Hf. rewrite Forall_forall in Hf. by apply Hf. Qed.

Lemma descs_of_holes (b : bool) :
  ed_dest addr <$> filter (λ e, (ed_hole e = 0) ↔ b = false) (desc_of_extent <$> layout) =
  dest_of <$> filter (λ x, ie_hole x = b) layout.
Proof.
  clear Htiles. induction layout as [|x l IH]; [done|]. cbn [fmap list_fmap]. rewrite !filter_cons.
  assert (ed_hole (desc_of_extent x) = 0 ↔ ie_hole x = false) as Hx by (by unfold desc_of_extent; simpl; destruct (ie_hole x)).
  destruct (decide (ed_hole (desc_of_extent x) = 0 ↔ b = false)) as [H1|H1], (decide (ie_hole x = b)) as [H2|H2]; cbn [fmap list_fmap]; [f_equal; exact IH|exfalso|exfalso|exact IH].
  - apply H2. destruct (ie_hole x), b; try done; [by apply Hx, H1|symmetry; by apply H1, Hx].
  - apply H1. by rewrite Hx, H2.
Qed.

Lemma extent_desc_valid x : x ∈ layout → cvalid extent_desc_codec (desc_of_extent x) ∧ ed_valid (desc_of_extent x) ∧
  ed_inside addr len (desc_of_extent x) = true.
Proof.
  intros Hx. apply layout_tile in Hx. destruct (tile_fits x Hx) as (_ & H1 & H2 & H3).
  assert (in_u 64 (ie_addr x) ∧ in_u 64 (ie_len x)) as [Hu1 Hu2] by (unfold in_u; nia).
  split_and!; [|done|unfold ed_inside, desc_of_extent; cbn [ed_addr ed_len]; apply andb_true_iff; rewrite !Z.leb_le; nia].
  change (in_u 64 (ie_addr x) ∧ in_u 64 (ie_len x) ∧ in_u 8 (if ie_hole x then 1 else 0) ∧
          length (replicate 7 0) = 7%nat ∧ bytes_ok (replicate 7 0)).
  split_and!; [done|done|by destruct (ie_hole x)|done|by_eval].
Qed.

Lemma layout_plan :
  let p := plan_scatter (desc_of_extent <$> layout) addr len in
  sp_ok p = true ∧ sp_data p = dest_of <$> filter (λ x, ie_hole x = false) layout ∧
  sp_holes p = dest_of <$> filter (λ x, ie_hole x = true) layout.
Proof.
  assert (Forall (λ e, ed_valid e ∧ ed_inside addr len e = true) (desc_of_extent <$> layout)) as Hv.
  { apply Forall_fmap, Forall_forall. intros x Hx. simpl. by apply extent_desc_valid. }
  assert (in_u 64 addr ∧ in_u 64 len ∧ in_u 64 (addr + len)) as (Hu1 & Hu2 & Hu3) by (unfold in_u; nia).
  intros p. assert (sp_ok p = true) as Hok by (apply plan_scatter_from_ok; try done; nia).
  destruct (plan_scatter_from_dest (desc_of_extent <$> layout) addr len (Mk_scatter_plan [] [] false))
    as (dn & _ & _ & Hd & Hh & Hdone); [done|done|eapply Forall_impl; [exact Hv|by intros ? [? _]]|].
  fold (plan_scatter (desc_of_extent <$> layout) addr len) in Hd, Hh, Hdone. fold p in Hd, Hh, Hdone.
  destruct (Hdone Hok) as [?| ->]; [done|]. split_and!; [done|rewrite Hd|rewrite Hh]; simpl.
  - rewrite <-(descs_of_holes false). f_equal. apply list_filter_ext_in. intros. tauto.
  - rewrite <-(descs_of_holes true). f_equal. apply list_filter_ext_in. intros. split; [done|]. intros H1 H2. by apply H1 in H2.
Qed.

Lemma packed_pieces :
  pack_extents addr buf layout = concat (piece buf <$> (dest_of <$> filter (λ x, ie_hole x = false) layout)).
Proof.
  unfold pack_extents. f_equal. rewrite <-list_fmap_compose. apply list_fmap_ext.
  intros i x Hx. apply list_elem_of_lookup_2, list_elem_of_filter in Hx as [_ Hx].
  apply layout_tile in Hx. destruct (tile_fits x Hx) as (_ & H1 & H2 & H3). simpl. unfold piece, dest_of. cbn [fst snd].
  unfold u64. rewrite wrap_small; [done|]. unfold in_u. nia.
Qed.

Lemma layout_covered i : (i < length buf)%nat →
  covered (dest_of <$> filter (λ x, ie_hole x = false) layout) i ∨
  covered (dest_of <$> filter (λ x, ie_hole x = true) layout) i.
Proof.
  intros Hi. assert (covered (dest_of <$> layout) i) as Hc by (apply (tiles_cover a0); [lia|done|lia]).
  unfold covered in *. rewrite !Exists_exists in *. destruct Hc as (d & Hd & Hr).
  apply list_elem_of_fmap in Hd as (x & -> & Hx). destruct (ie_hole x) eqn:Hh; [right|left];
    (eexists; split; [apply list_elem_of_fmap_2, list_elem_of_filter; by split|done]).
Qed.

(** Whatever the destination held, it ends up as the server's buffer. *)
Lemma read_reply_spec p c ap dest :
  status_of p = st_ok → dec read_rsp_codec (m_op_header p) = Mk_read_rsp c ap (Z.of_nat (length layout)) 0 →
  m_body p = enc_array extent_desc_codec (desc_of_extent <$> layout) ++ pack_extents addr buf layout →
  length dest = length buf →
  read_reply_of p addr len dest = Ok (Mk_read_reply st_ok c ap (desc_of_extent <$> layout), buf).
Proof.
  intros Hst Hdec Hbody Hlen. unfold read_reply_of. rewrite Hst, Hdec, Hbody. cbn [rr_extent_count rr_commit_lsn rr_last_append_lsn].
  assert (Forall (cvalid extent_desc_codec) (desc_of_extent <$> layout)) as Hv.
  { apply Forall_fmap, Forall_forall. intros x Hx. simpl. by apply extent_desc_valid. }
  assert (length (enc_array extent_desc_codec (desc_of_extent <$> layout)) = (length layout * csize extent_desc_codec)%nat) as Hel.
  { rewrite length_enc_array by done. by rewrite length_fmap. }
  unfold decode_extents. rewrite decide_False by (rewrite length_app, Hel; nia). rewrite Nat2Z.id.
  assert (dec_array extent_desc_codec (length layout) (enc_array extent_desc_codec (desc_of_extent <$> layout) ++
    pack_extents addr buf layout) = desc_of_extent <$> layout) as ->.
  { rewrite <-(length_fmap desc_of_extent layout) at 1. by apply dec_enc_array. }
  destruct layout_plan as (Hok & Hd & Hh). rewrite Hok, Hd, Hh. cbn [negb].
  rewrite drop_app_length' by done. rewrite packed_pieces.
  assert (∀ b, Forall (piece_fits buf) (dest_of <$> filter (λ x, ie_hole x = b) layout)) as Hfits.
  { intros b. apply Forall_fmap, Forall_forall. intros x [_ Hx]%list_elem_of_filter. by apply tile_fits, layout_tile. }
  destruct (scatter_data_spec buf (dest_of <$> filter (λ x, ie_hole x = false) layout) [] [] dest (λ _, False))
    as (d' & Hs & Ha); [by split|done|].
  cbn [app length] in Hs. rewrite app_nil_r in Hs. rewrite Hs.
  apply (zero_holes_spec buf (dest_of <$> filter (λ x, ie_hole x = true) layout)) in Ha as [Hl Hag]; [|done|].
  - do 2 f_equal. apply list_eq. intros i. destruct (decide (i < length buf)%nat) as [Hi|Hi].
    + apply Hag. destruct (layout_covered i Hi) as [H|H]; tauto.
    + rewrite !lookup_ge_None_2 by lia. done.
  - apply Forall_fmap, Forall_forall. intros x [Hx Hin]%list_elem_of_filter. by apply tile_zero; [apply layout_tile|].
Qed.
End tiles.

(** ** The caller's iovecs *)

Lemma write_at_front bs buf : write_at 0 bs buf = bs ++ drop (length bs) buf.
Proof. done. Qed.

Lemma scatter_iovs_spec iovs len off scratch :
  length scratch = len → (off ≤ len)%nat → (len - off ≤ length (concat iovs))%nat →
  concat (scatter_iovs iovs len off scratch) = drop off scratch ++ drop (len - off) (concat iovs).
Proof.
  intros Hs. revert off. induction iovs as [|iov iovs IH]; intros off Ho Hl; cbn [concat length] in Hl.
  { rewrite drop_ge by lia. cbn. by rewrite drop_nil. }
  cbn [scatter_iovs]. set (n := Nat.min (length iov) (len - off)). rewrite length_app in Hl.
  assert (length (subspan off n scratch) = n) as Hn by (unfold subspan; rewrite length_take, length_drop; lia).
  case_decide as Hd; cbn [concat]; rewrite write_at_front, Hn.
  - assert (n = len - off)%nat as Hn' by lia. rewrite <-(assoc_L (++)), <-Hn', drop_app_le by lia.
    f_equal. unfold subspan. rewrite take_ge; [done|]. rewrite length_drop. lia.
  - assert (n = length iov) as Hn' by lia. rewrite IH by lia. rewrite Hn', drop_all, app_nil_r.
    rewrite drop_app_ge by lia. rewrite (assoc_L (++)). f_equal; [|f_equal; lia].
    rewrite <-Hn'. unfold subspan. rewrite <-(take_drop n (drop off scratch)) at 2. by rewrite drop_drop.
Qed.

Lemma read_into_spec dest len d :
  0 ≤ len → length d = Z.to_nat len → len ≤ Z.of_nat (length (concat (sg_iovs dest))) →
  concat (read_into dest len d) = d ++ drop (Z.to_nat len) (concat (sg_iovs dest)).
Proof.
  intros H0 Hd Hl. unfold read_into, in_place. destruct (sg_iovs dest) as [|iov [|iov2 iovs]] eqn:Hi.
  1,3: rewrite scatter_iovs_spec by lia; by rewrite Nat.sub_0_r.
  cbn [concat] in *. rewrite app_nil_r in *. rewrite (proj2 (Z.leb_le _ _) Hl). cbn [head default concat].
  by rewrite write_at_front, Hd, app_nil_r.
Qed.

Lemma to_io_descs l : to_io_extents (desc_of_extent <$> l) = l.
Proof.
  unfold to_io_extents. rewrite <-list_fmap_compose. induction l as [|x l IH]; [done|]. cbn [fmap list_fmap].
  f_equal; [|exact IH]. destruct x as [a n []]; done.
Qed.

(** ** The server's read *)

Lemma do_read_hdr m h1 h2 H addr len dest :
  ch_term h1 = ch_term h2 → ch_commit_lsn h1 = ch_commit_lsn h2 →
  do_read m h1 H addr len dest = do_read m h2 H addr len dest.
Proof. intros Ht Hc. unfold do_read. by rewrite Ht, Hc. Qed.

Lemma serve_read e s hdr H addr len rid layout lsns d m' :
  sv_session_active s = true → sv_session_term s = ch_term hdr →
  cvalid read_req_codec (Mk_read_req (Mk_req_hdr (ch_commit_lsn hdr) (ch_all_committed_lsn hdr)) H addr len) →
  in_u 16 rid → in_u 32 (sg_max_tx (sv_geo s)) →
  do_read (ra_mem (sv_replica s)) hdr H addr len (Mk_sg len [replicate (Z.to_nat len) 0]) =
    Some (Ok (Mk_read_result layout lsns, d), m') →
  serve_one e s (frame_message [] read 0 rid
      (enc read_req_codec (Mk_read_req (Mk_req_hdr (ch_commit_lsn hdr) (ch_all_committed_lsn hdr)) H addr len)) [] no_digest) =
    Some (frame_bytes no_digest (Mk_frame op_read_rsp (status_byte st_ok) rid
            (enc read_rsp_codec (Mk_read_rsp (lp_commit lsns) (lp_last_append lsns) (u32 (Z.of_nat (length layout))) 0))
            (enc_array extent_desc_codec (desc_of_extent <$> layout) ++ pack_extents addr (concat (sg_iovs d)) layout)),
          with_mem s m').
Proof.
  intros Ha Ht Hv Hrid Hmax Hrd. set (req := Mk_read_req _ _ _ _) in *.
  set (f := Mk_frame read 0 rid (enc read_req_codec req) []).
  assert (frame_ok (sg_max_tx (sv_geo s)) f) as Hf by by apply struct_frame_nil.
  change (frame_message _ _ _ _ _ _ _) with (frame_bytes no_digest f). serve_frame f.
  unfold on_read. cbn [parsed_frame m_op_header m_body m_hdr wf_oh wf_body f].
  rewrite <-(app_nil_r (enc read_req_codec req)), (dec_enc read_req_codec req []) by done.
  rewrite Ha. cbn [negb]. unfold req. cbn [rq_hdr rq_read_lsn rq_addr rq_len].
  rewrite (do_read_hdr _ _ hdr) by done. by rewrite Hrd.
Qed.

(** The bytes the journal's slots hold. *)
Definition journal_bytes (m : MemCraftReplica) : Prop := map_Forall (λ _ s, bytes_ok (default [] (js_bytes s))) (journal_ m).
Lemma read_image_bytes m H x : journal_bytes m → bytes_ok (block_bytes (page_size_ m) (read_image m H x)).
Proof.
  intros Hj. unfold block_bytes, read_image, image. pose proof (latest_spec (journal_ m) (-1) H x) as Hl.
  assert (bytes_ok (replicate (Z.to_nat (page_size_ m)) 0)) as Hz by (apply Forall_replicate; done).
  destruct (latest (journal_ m) (-1) H x) as [[d s]|]; [|done]. destruct Hl as (Hs & _). specialize (Hj d s Hs).
  destruct (js_all_zeros s); [done|]. destruct (all_zero _); [done|]. unfold subspan. simpl.
  by apply Forall_take, Forall_drop.
Qed.

(** A reply of a read of [len] bytes in pages of at least 512 bytes fits the client's limit. *)
Lemma reply_fits layout packed page len n :
  512 ≤ page → len = n * page → len ≤ k_default_max_tx → Z.of_nat (length layout) ≤ n →
  Forall (cvalid extent_desc_codec) (desc_of_extent <$> layout) → Z.of_nat (length packed) ≤ len →
  Z.of_nat (length (enc_array extent_desc_codec (desc_of_extent <$> layout) ++ packed)) ≤ k_max_tx.
Proof.
  intros Hp Hl Hm Hn Hv Hpk. rewrite length_app, length_enc_array, length_fmap by done.
  change (csize extent_desc_codec) with 24%nat. change k_max_tx with (524288 + 1024 * 24).
  change k_default_max_tx with (1024 * 512) in Hm. nia.
Qed.

Lemma pieces_bytes buf plan : bytes_ok buf → bytes_ok (concat (piece buf <$> plan)).
Proof.
  intros Hb. unfold bytes_ok. rewrite Forall_concat. apply Forall_fmap, Forall_forall. intros p _. simpl.
  unfold piece, subspan. by apply Forall_take, Forall_drop.
Qed.

(** ** One read over the wire *)

Section one_read.
Context (e : srv_env) (s : craft_tcp_server) (hdr : client_hdr) (H a n : Z) (c : wire_client).
Let m := ra_mem (sv_replica s).
Let page := page_size_ m.
Context (I : replica_inv m) (Ht : ch_term hdr = term_of m) (Hal : misaligned m (a * page) (n * page) = false).
Context (Ha : 0 ≤ a) (Hn : 0 < n) (Hw : (a + n) * page < 2 ^ 64) (Hp : 512 ≤ page) (Hm : n * page ≤ k_default_max_tx).
Context (HcH : commit_of m ≤ H) (HhH : ch_commit_lsn hdr ≤ H).
Context (Hact : sv_session_active s = true) (Hses : sv_session_term s = ch_term hdr).
Context (Hrid : in_u 16 (wc_next_rid c)) (Hmax : in_u 32 (sg_max_tx (sv_geo s))).
Context (HiH : in_i64 H) (Hic : in_i64 (ch_commit_lsn hdr)) (Hia : in_i64 (ch_all_committed_lsn hdr)).
Context (Hby : journal_bytes m) (Hfit : lsns_fit (apply_up_to (ch_commit_lsn hdr) m)).

Definition server_buf : list Z := range a (a + n - 1) ≫= λ x, block_bytes page (read_image m H x).
Definition server_layout : list io_extent := read_layout m H a n.
Definition server_after : MemCraftReplica := count_read (apply_up_to (ch_commit_lsn hdr) m).

Lemma length_server_buf : Z.of_nat (length server_buf) = n * page.
Proof.
  unfold server_buf, page. rewrite length_blocks by done. fold page.
  rewrite length_range. nia.
Qed.

Lemma server_buf_hole x :
  a ≤ x < a + n → is_hole m H x = true →
  subspan (Z.to_nat ((x - a) * page)) (Z.to_nat page) server_buf = replicate (Z.to_nat page) 0.
Proof.
  intros Hx Hh. unfold server_buf. rewrite subspan_blocks; [|intros y; by apply length_block|lia|lia].
  unfold is_hole in Hh. by destruct (read_image m H x).
Qed.

(** The replica's own read, into any destination. *)
Lemma local_read dest :
  n * page ≤ sg_size dest → n * page ≤ Z.of_nat (length (concat (sg_iovs dest))) →
  ∃ iovs, do_read m hdr H (a * page) (n * page) dest =
    Some (Ok (Mk_read_result server_layout (lsns_of server_after), Mk_sg (sg_size dest) iovs), server_after) ∧
    concat iovs = server_buf ++ drop (Z.to_nat (n * page)) (concat (sg_iovs dest)) ∧
    layout_tiles page (is_hole m H) a (a + n) server_layout.
Proof.
  intros Hs Hd. assert ((n * page) `div` page < 2 ^ 32) as Hn32.
  { rewrite Z.div_mul by lia. change k_default_max_tx with (1024 * 512) in Hm. nia. }
  assert (commit_of (apply_up_to (ch_commit_lsn hdr) m) ≤ H).
  { destruct (apply_up_to_spec (ch_commit_lsn hdr) m I) as (_ & _ & ? & _). lia. }
  destruct (do_read_aux m hdr H (a * page) (n * page) dest) as (iovs & H1 & H2 & H3); try done; try nia.
  fold page in H1, H2, H3. rewrite !Z.div_mul in H1, H2, H3 by lia. by exists iovs.
Qed.

(** What crosses the wire is valid. *)
Lemma server_layout_valid :
  Forall (cvalid extent_desc_codec) (desc_of_extent <$> server_layout) ∧ Z.of_nat (length server_layout) ≤ n ∧
  bytes_ok (pack_extents (a * page) server_buf server_layout) ∧
  Z.of_nat (length (pack_extents (a * page) server_buf server_layout)) ≤ n * page.
Proof.
  destruct (local_read (Mk_sg (n * page) [replicate (Z.to_nat (n * page)) 0])) as (_ & _ & _ & Htl);
    [done|simpl; rewrite app_nil_r, length_replicate; lia|].
  assert (0 < page ∧ Z.of_nat (length server_buf) = (a + n - a) * page) as [Hp0 Hlb] by (split; [lia|rewrite length_server_buf; lia]).
  rewrite (packed_pieces page (a * page) (is_hole m H) server_buf a (a + n)) by done. split_and!.
  - apply Forall_fmap, Forall_forall. intros x Hx. simpl.
    by eapply (extent_desc_valid page (a * page) (is_hole m H) server_buf a (a + n)).
  - apply (tiles_count page _ server_buf) in Htl. lia.
  - apply pieces_bytes. unfold server_buf, bytes_ok. apply Forall_bind, Forall_forall. intros x _. by apply read_image_bytes.
  - apply (tiles_length page (a * page) (is_hole m H) server_buf a (a + n)) in Htl; try done; lia.
Qed.

Lemma serve_the_read :
  serve_one e s (read_request c H (a * page) (n * page) (ch_commit_lsn hdr) (ch_all_committed_lsn hdr)) =
    Some (frame_bytes no_digest (Mk_frame op_read_rsp (status_byte st_ok) (wc_next_rid c)
            (enc read_rsp_codec (Mk_read_rsp (commit_of server_after) (append_of server_after)
                                   (u32 (Z.of_nat (length server_layout))) 0))
            (enc_array extent_desc_codec (desc_of_extent <$> server_layout) ++
             pack_extents (a * page) server_buf server_layout)), with_mem s server_after).
Proof.
  destruct (local_read (Mk_sg (n * page) [replicate (Z.to_nat (n * page)) 0])) as (iovs & Hrd & Hio & _);
    [done|simpl; rewrite app_nil_r, length_replicate; lia|].
  cbn [sg_iovs concat] in Hio. rewrite app_nil_r, drop_ge, app_nil_r in Hio by (rewrite length_replicate; lia).
  assert (cvalid read_req_codec (Mk_read_req (Mk_req_hdr (ch_commit_lsn hdr) (ch_all_committed_lsn hdr)) H (a * page) (n * page))) as Hv.
  { assert (in_u 64 (a * page) ∧ in_u 64 (n * page)) by (unfold in_u; nia). done. }
  pose proof (serve_read e s hdr H (a * page) (n * page) _ _ _ _ _ Hact Hses Hv Hrid Hmax Hrd) as Hs.
  cbn [sg_iovs] in Hs. rewrite Hio in Hs. exact Hs.
Qed.

Lemma wc_read_ok dest :
  Z.of_nat (length dest) = n * page →
  (wc_read (server_net e s) c H (a * page) (n * page) dest (ch_commit_lsn hdr) (ch_all_committed_lsn hdr)).1 =
    Ok (Mk_read_reply st_ok (commit_of server_after) (append_of server_after) (desc_of_extent <$> server_layout), server_buf).
Proof.
  intros Hd. destruct server_layout_valid as (Hv & Hcnt & Hpk & Hpl). pose proof serve_the_read as Hs.
  assert (n < 2 ^ 32) as Hn32 by (change k_default_max_tx with (1024 * 512) in Hm; nia).
  assert (u32 (Z.of_nat (length server_layout)) = Z.of_nat (length server_layout)) as Hu by (apply wrap_small; unfold in_u; lia).
  rewrite Hu in Hs.
  destruct (exchange_ok read_rsp_codec e s _ _ _ _ _ _ _ Hs) as (p & Hpp & Hps & Hpd & Hpb); try done.
  { destruct Hfit. change (in_i64 (commit_of server_after) ∧ in_i64 (append_of server_after) ∧
      in_u 32 (Z.of_nat (length server_layout)) ∧ in_u 32 0). split_and!; [done|done|unfold in_u; lia|by_eval]. }
  { apply Forall_app. split; [by apply enc_array_bytes|done]. }
  { by apply (reply_fits _ _ page (n * page) n). }
  { by right. }
  unfold wc_read. rewrite (proj2 (Z.ltb_ge _ _)) by lia. cbn [fst]. rewrite Hpp.
  destruct (local_read (Mk_sg (n * page) [replicate (Z.to_nat (n * page)) 0])) as (_ & _ & _ & Htl);
    [done|simpl; rewrite app_nil_r, length_replicate; lia|].
  pose proof length_server_buf as Hlb.
  replace (n * page) with ((a + n - a) * page) by lia.
  apply (read_reply_spec page (a * page) (is_hole m H)); try done; try lia. apply server_buf_hole.
Qed.
End one_read.

(** C16: A read through the proxy is a read on the replica behind the server. On a connection
    bound at the current term, block-aligned, of at most the default payload and in pages of
    at least 512 bytes, at a horizon at or above the commit of the replica and of the header,
    the caller gets the layout and watermarks the replica's own read returns, its iovecs
    hold the same bytes, and the replica is left as its own read leaves it: only the data
    extents crossed the wire. *)
Theorem tcp_read_refines e t s hdr reachable hnet H addr len dest :
  let m := ra_mem (sv_replica s) in
  let page := page_size_ m in
  bound_to t s (ch_term hdr) → replica_inv m → ch_term hdr = term_of m →
  misaligned m addr len = false → 0 ≤ addr → 0 < len → addr + len < 2 ^ 64 → 512 ≤ page → len ≤ k_default_max_tx →
  len ≤ sg_size dest → len ≤ Z.of_nat (length (concat (sg_iovs dest))) →
  commit_of m ≤ H → ch_commit_lsn hdr ≤ H → in_i64 H → in_i64 (ch_commit_lsn hdr) → in_i64 (ch_all_committed_lsn hdr) →
  journal_bytes m → lsns_fit (apply_up_to (ch_commit_lsn hdr) m) →
  ∃ layout iovs iovs' m',
    do_read m hdr H addr len dest = Some (Ok (Mk_read_result layout (lsns_of m'), Mk_sg (sg_size dest) iovs), m') ∧
    (tr_read reachable hnet (server_net e s) t hdr H addr len dest).1 =
      Ok (Mk_read_result layout (lsns_of m'), Mk_sg (sg_size dest) iovs') ∧
    concat iovs' = concat iovs ∧
    snd <$> serve_one e s (read_request (tr_conn t) H addr len (ch_commit_lsn hdr) (ch_all_committed_lsn hdr)) =
      Some (with_mem s m').
Proof.
  intros m page B I Ht Hal Ha Hl Hw Hp Hm Hsz Hdst HcH HhH HiH Hic Hia Hby Hfit.
  pose proof Hal as Hal'. unfold misaligned in Hal'. rewrite !orb_false_iff, !negb_false_iff, !Z.eqb_eq in Hal'.
  destruct Hal' as [[Ham Hlm] _]. fold page in Ham, Hlm.
  assert (∃ a, addr = a * page) as [a ->] by (exists (addr `div` page); pose proof (Z.div_mod addr page); lia).
  assert (∃ n, len = n * page) as [n ->] by (exists (len `div` page); pose proof (Z.div_mod len page); lia).
  assert (0 ≤ a ∧ 0 < n ∧ (a + n) * page < 2 ^ 64) as (Ha0 & Hn0 & Hw0) by nia. pose proof B as [_ _ _ B4 B5 B6 B7].
  destruct (local_read s hdr H a n I Ht Hal Ha0 Hn0 Hw0 Hp Hm HcH HhH dest Hsz Hdst) as (iovs & Hrd & Hio & _).
  pose proof (serve_the_read e s hdr H a n (tr_conn t) I Ht Hal Ha0 Hn0 Hw0 Hp Hm HcH HhH B5 B6 B4 B7 HiH Hic Hia) as Hs.
  assert (Z.of_nat (length (read_buffer dest (n * page))) = n * page) as Hrb by (rewrite length_read_buffer; lia).
  pose proof (wc_read_ok e s hdr H a n (tr_conn t) I Ht Hal Ha0 Hn0 Hw0 Hp Hm HcH HhH B5 B6 B4 B7 HiH Hic Hia Hby Hfit
    (read_buffer dest (n * page)) Hrb) as Hwc.
  eexists _, iovs, _, _. split; [exact Hrd|]. split; [|split; [|exact (f_equal (fmap snd) Hs)]].
  - unfold tr_read. rewrite (bound_call_ok t s hdr B _ _ _ _ _ _ Hwc). simpl. by rewrite to_io_descs.
  - rewrite Hio. apply (read_into_spec dest (n * page)); [lia| |done]. pose proof (length_server_buf s H a n I Hn0 Hp) as Hlb. fold m page in Hlb. lia.
Qed.
