(* ===== verification/RemotePeer.v ===== *)
(** * The peer plane over TCP

    [CraftTcpPeer] of [src/net/tcp_peer.cpp] against the server's peer handlers: a remote poll
    is the replica's own poll with its quiesce, a remote fetch is its own fetch with the
    payloads owned by the receiver, and so a replica that catches up over TCP ends up as one
    that reads its peers' journals directly. *)

From S2P Require Import Prelude Codec WireTypes Wire Types Replica Raft Conn TcpServer WireClient Remote.

Local Open Scope craft_scope.
Local Open Scope Z_scope.

(** ** Polls *)

(** The peer's side of an exchange whose reply's header is a struct. *)
Lemma peer_exchange {A} (cod : codec A) reachable e s t ro oh rbody o st rid v body s' :
  tp_connected t || reachable = true →
  serve_one e s (frame_message [] ro 0 (tp_next_rid t) oh rbody no_digest) =
    Some (frame_bytes no_digest (Mk_frame o st rid (enc cod v) body), s') →
  op_hdr_size (op_code o) = Some (csize cod) → cvalid cod v → byte_ok st → in_u 16 rid → bytes_ok body →
  Z.of_nat (length body) ≤ k_default_max_tx → (body = [] ∨ op_allows_body (op_code o) = true) →
  ∃ p, peer_call reachable (server_net e s) t ro oh rbody = (Ok p, Mk_tcp_peer true (u16 (tp_next_rid t + 1))) ∧
       status_of p = status_of_byte st ∧ dec cod (m_op_header p) = v ∧ m_body p = body.
Proof.
  intros Hc Hs Ho Hv Hst Hrid Hb Hl Ha. set (f := Mk_frame o st rid (enc cod v) body) in *.
  exists (parsed_frame no_digest f). split_and!; [|done| |done].
  - unfold peer_call, server_net. rewrite Hc, Hs. cbn [negb].
    rewrite (parse_whole k_default_max_tx f); [done|]. by apply struct_frame_ok; try done; by_eval.
  - cbn [parsed_frame m_op_header wf_oh f]. rewrite <-(app_nil_r (enc cod v)). by apply dec_enc.
Qed.

(** The frame of a poll. *)
Definition poll_frame (t : CraftTcpPeer) (term : Z) (is_login : bool) : list Z :=
  frame_message [] get_rs_commit_lsn 0 (tp_next_rid t)
    (enc get_rs_commit_lsn_req_codec (Mk_get_rs_commit_lsn_req term (if is_login then 1 else 0) (replicate 7 0))) [] no_digest.

(** A poll of a peer over TCP is the poll of the replica behind the server: the caller
    gets its watermarks, and a login poll raises its term and arms its quiesce timer as a
    direct call does. *)
Theorem tcp_poll_refines e s t reachable term is_login :
  let '(lsns, r) := do_get_rs_commit_lsn (sv_replica s) term is_login (se_timer e) in
  tp_connected t || reachable = true → in_u 16 (tp_next_rid t) → in_u 32 (sg_max_tx (sv_geo s)) → in_u 64 term →
  lsns_fit (ra_mem (sv_replica s)) →
  (peer_get_rs_commit_lsn reachable (server_net e s) t term is_login).1 = Ok lsns ∧
  snd <$> serve_one e s (poll_frame t term is_login) = Some (with_replica s r).
Proof.
  destruct (do_get_rs_commit_lsn (sv_replica s) term is_login (se_timer e)) as [lsns r] eqn:Hg.
  intros Hc Hrid Hmax Ht [Hf1 Hf2].
  assert (lsns = lsns_of (ra_mem (sv_replica s))) as Hl.
  { unfold do_get_rs_commit_lsn, get_rs_commit_lsn_begin in Hg. by destruct is_login; simplify_eq/=. }
  set (req := Mk_get_rs_commit_lsn_req term (if is_login then 1 else 0) (replicate 7 0)).
  assert (cvalid get_rs_commit_lsn_req_codec req) as Hv.
  { change (in_u 64 term ∧ in_u 8 (if is_login then 1 else 0) ∧ length (replicate 7 0) = 7%nat ∧ bytes_ok (replicate 7 0)).
    split_and!; [done|by destruct is_login|done|by_eval]. }
  set (f := Mk_frame get_rs_commit_lsn 0 (tp_next_rid t) (enc get_rs_commit_lsn_req_codec req) []).
  assert (frame_ok (sg_max_tx (sv_geo s)) f) as Hf by by apply struct_frame_nil.
  assert (serve_one e s (frame_bytes no_digest f) =
    Some (frame_bytes no_digest (Mk_frame op_get_rs_commit_lsn_rsp (status_byte st_ok) (tp_next_rid t)
      (enc get_rs_commit_lsn_rsp_codec (Mk_get_rs_commit_lsn_rsp (lp_commit lsns) (lp_last_append lsns))) []),
      with_replica s r)) as Hs.
  { serve_frame f. unfold on_get_rs_commit_lsn. cbn [parsed_frame m_op_header m_body m_hdr wf_oh wf_body f].
    rewrite <-(app_nil_r (enc get_rs_commit_lsn_req_codec req)), (dec_enc get_rs_commit_lsn_req_codec req []) by done.
    cbn [gq_term gq_is_login req]. replace (negb ((if is_login then 1 else 0) =? 0)) with is_login by by destruct is_login.
    by rewrite Hg. }
  split; [|exact (f_equal (fmap snd) Hs)].
  destruct (peer_exchange get_rs_commit_lsn_rsp_codec reachable e s t get_rs_commit_lsn
    (enc get_rs_commit_lsn_req_codec req) [] _ _ _ _ _ _ Hc Hs) as (p & Hp & Hps & Hpd & _);
    try done; [by rewrite Hl|constructor|by left|].
  unfold peer_get_rs_commit_lsn. fold req. rewrite Hp, Hpd, Hps. by destruct lsns.
Qed.

(** ** Fetches *)

(** A slot as the receiver holds it: its payload owned, in one iovec. *)
Definition slot_bytes (s : JournalSlot) : list Z := if slot_has_data s then concat (sg_iovs (jl_data s)) else [].
Definition owned (s : JournalSlot) : JournalSlot :=
  Mk_JournalSlot (jl_lsn s) (jl_is_empty s) (jl_all_zeros s) (jl_lba s) (jl_len s)
    (if slot_has_data s then Mk_sg (Z.of_nat (length (slot_bytes s))) [slot_bytes s] else Mk_sg 0 [])
    (if slot_has_data s then Some (slot_bytes s) else None).

(** A slot the wire can carry. *)
Definition slot_sound (s : JournalSlot) : Prop :=
  in_i64 (jl_lsn s) ∧ in_u 64 (jl_lba s) ∧ in_u 32 (jl_len s) ∧ bytes_ok (slot_bytes s) ∧
  (slot_has_data s = true → sg_size (jl_data s) = Z.of_nat (length (slot_bytes s))).

Lemma fetch_desc_valid s :
  slot_sound s → in_u 64 (Z.of_nat (length (slot_bytes s))) → cvalid fetch_slot_desc_codec (fetch_desc_of s).
Proof.
  intros (H1 & H2 & H3 & _ & H5) Hl. unfold fetch_desc_of.
  change (in_i64 (jl_lsn s) ∧ in_u 64 (jl_lba s) ∧ in_u 32 (jl_len s) ∧
    in_u 64 (if slot_has_data s then sg_size (jl_data s) else 0) ∧ in_u 8 (if jl_is_empty s then 1 else 0) ∧
    in_u 8 (if jl_all_zeros s then 1 else 0) ∧ length (replicate 2 0) = 2%nat ∧ bytes_ok (replicate 2 0)).
  split_and!; try done; [|by destruct (jl_is_empty s)|by destruct (jl_all_zeros s)|by_eval].
  destruct (slot_has_data s); [by rewrite H5|by_eval].
Qed.

(** One descriptor, at [i], whose payload starts at [off]. *)
Lemma fetch_slots_cons s todo i body off acc tail tail' :
  slot_sound s → in_u 64 (Z.of_nat (length body)) → (off ≤ length body)%nat →
  drop (i * csize fetch_slot_desc_codec) body = enc fetch_slot_desc_codec (fetch_desc_of s) ++ tail →
  drop off body = slot_bytes s ++ tail' →
  fetch_slots (S todo) i body (Z.of_nat off) acc =
    fetch_slots todo (S i) body (Z.of_nat (off + length (slot_bytes s))) (acc ++ [owned s]).
Proof.
  intros Hs Hu Ho Hd Hp. pose proof (f_equal length Hp) as Hl. rewrite length_drop, length_app in Hl.
  assert (in_u 64 (Z.of_nat (length (slot_bytes s)))) as Hsb by (unfold in_u in *; lia).
  pose proof (fetch_desc_valid s Hs Hsb) as Hv. pose proof (f_equal length Hd) as Hl'.
  rewrite length_drop, length_app, enc_length in Hl' by done. cbn [fetch_slots].
  assert (csize fetch_slot_desc_codec = 32%nat) as Hsize by done.
  rewrite decide_False by (rewrite Hsize in *; lia). rewrite Hd, dec_enc by done.
  assert (negb (fd_is_empty (fetch_desc_of s) =? 0) = jl_is_empty s) as -> by (simpl; by destruct (jl_is_empty s)).
  assert (negb (fd_all_zeros (fetch_desc_of s) =? 0) = jl_all_zeros s) as -> by (simpl; by destruct (jl_all_zeros s)).
  fold (slot_has_data s). unfold owned, slot_bytes in *. cbn [fetch_desc_of fd_lsn fd_lba fd_len fd_byte_len].
  destruct Hs as (_ & _ & _ & _ & Hsz). unfold slot_bytes in Hsz.
  destruct (slot_has_data s) eqn:Hhd; [|by rewrite Nat.add_0_r]. rewrite Hsz by done.
  unfold u64. rewrite wrap_small by (unfold in_u in *; lia). rewrite !decide_False by lia. rewrite !Nat2Z.id.
  unfold subspan. rewrite Hp, take_app_length. by rewrite Nat2Z.inj_add.
Qed.

Lemma fetch_slots_spec rest : ∀ i body off acc tail,
  Forall slot_sound rest → in_u 64 (Z.of_nat (length body)) → (off ≤ length body)%nat →
  (∀ k s, rest !! k = Some s → ∃ tail, drop ((i + k) * csize fetch_slot_desc_codec) body =
     enc fetch_slot_desc_codec (fetch_desc_of s) ++ tail) →
  drop off body = concat (slot_bytes <$> rest) ++ tail →
  fetch_slots (length rest) i body (Z.of_nat off) acc = Some (Ok (acc ++ (owned <$> rest))).
Proof.
  induction rest as [|s rest IH]; intros i body off acc tail Hf Hu Ho Hd Hp; [by rewrite app_nil_r|].
  apply Forall_cons in Hf as [Hs Hf]. cbn [fmap list_fmap concat] in Hp. rewrite <-app_assoc in Hp.
  destruct (Hd 0%nat s eq_refl) as [tl Htl]. rewrite Nat.add_0_r in Htl.
  pose proof (f_equal length Hp) as Hl. rewrite length_drop, length_app in Hl.
  cbn [length]. rewrite (fetch_slots_cons s _ i body off acc _ _ Hs Hu Ho Htl Hp).
  rewrite (IH (S i) body _ _ tail); try done.
  - by rewrite <-(assoc_L (++)).
  - lia.
  - intros k x Hx. destruct (Hd (S k) x Hx) as [tl' Ht]. exists tl'. by rewrite <-Nat.add_succ_comm in Ht.
  - by rewrite <-drop_drop, Hp, drop_app_length.
Qed.

(** The descriptors of the table at the front of the body. *)
Lemma drop_enc_array {A} (c : codec A) l rest k x :
  Forall (cvalid c) l → l !! k = Some x → ∃ tail, drop (k * csize c) (enc_array c l ++ rest) = enc c x ++ tail.
Proof.
  intros Hv. revert k. induction Hv as [|y l Hy Hv IH]; intros k Hk; [done|].
  change (enc_array c (y :: l)) with (enc c y ++ enc_array c l). rewrite <-(assoc_L (++)).
  destruct k as [|k]; [injection Hk as ->; by eexists|]. destruct (IH k Hk) as [tl Ht]. exists tl. rewrite <-Ht.
  change (S k * csize c)%nat with (csize c + k * csize c)%nat. rewrite <-drop_drop. f_equal.
  apply drop_app_length'. symmetry. by apply enc_length.
Qed.

(** The bytes of the reply's body. *)
Definition fetch_size (slots : list JournalSlot) : Z :=
  32 * Z.of_nat (length slots) + Z.of_nat (length (concat (slot_bytes <$> slots))).
(** A fetch of [lsns] fits a request and its reply. *)
Record fetch_fits (s : craft_tcp_server) (lsns : list Z) : Prop := {
  ff_max_tx : in_u 32 (sg_max_tx (sv_geo s));
  ff_lsns : Forall in_i64 lsns;
  ff_request : 8 * Z.of_nat (length lsns) ≤ sg_max_tx (sv_geo s);
  ff_slots : Forall slot_sound (srv_fetch_data (sv_replica s) lsns);
  ff_reply : fetch_size (srv_fetch_data (sv_replica s) lsns) ≤ k_default_max_tx;
}.

Lemma concat_payloads slots :
  concat ((λ s, concat (sg_iovs (jl_data s))) <$> filter (λ s, slot_has_data s = true) slots) =
  concat (slot_bytes <$> slots).
Proof.
  induction slots as [|s slots IH]; [done|]. rewrite filter_cons. cbn [fmap list_fmap concat]. rewrite <-IH.
  unfold slot_bytes at 1. case_decide as Hd; [by rewrite Hd|]. by destruct (slot_has_data s).
Qed.

Lemma fetch_body slots :
  Forall slot_sound slots → fetch_size slots < 2 ^ 32 →
  Forall (cvalid fetch_slot_desc_codec) (fetch_desc_of <$> slots) ∧ bytes_ok (concat (slot_bytes <$> slots)) ∧
  Z.of_nat (length (enc_array fetch_slot_desc_codec (fetch_desc_of <$> slots) ++ concat (slot_bytes <$> slots))) =
    fetch_size slots.
Proof.
  intros Hs Hr. unfold fetch_size in Hr.
  assert (∀ x, x ∈ slots → Z.of_nat (length (slot_bytes x)) < 2 ^ 32) as Hlen.
  { intros x (l1 & l2 & ->)%list_elem_of_split. rewrite fmap_app, concat_app, fmap_cons in Hr. cbn [concat] in Hr.
    rewrite !length_app in Hr. lia. }
  assert (Forall (cvalid fetch_slot_desc_codec) (fetch_desc_of <$> slots)) as Hv.
  { apply Forall_fmap, Forall_forall. intros x Hx. simpl. rewrite Forall_forall in Hs. apply fetch_desc_valid; [by apply Hs|].
    specialize (Hlen x Hx). unfold in_u. lia. }
  split_and!; [done| |unfold fetch_size; rewrite length_app, length_enc_array, length_fmap by done;
    change (csize fetch_slot_desc_codec) with 32%nat; lia].
  unfold bytes_ok. apply Forall_concat, Forall_fmap. eapply Forall_impl; [exact Hs|]. by intros x (_ & _ & _ & ? & _).
Qed.

(** The frame of a fetch. *)
Definition fetch_frame (rid : Z) (lsns : list Z) : wire_frame :=
  Mk_frame fetch_data 0 rid (enc fetch_data_req_codec (Mk_fetch_data_req (u32 (Z.of_nat (length lsns))) 0)) (enc_array cint64 lsns).
Definition fetch_reply (rid : Z) (slots : list JournalSlot) : wire_frame :=
  Mk_frame op_fetch_data_rsp (status_byte st_ok) rid
    (enc fetch_data_rsp_codec (Mk_fetch_data_rsp (u32 (Z.of_nat (length slots))) 0))
    (enc_array fetch_slot_desc_codec (fetch_desc_of <$> slots) ++ concat (slot_bytes <$> slots)).

Lemma serve_fetch e s rid lsns :
  in_u 32 (sg_max_tx (sv_geo s)) → Forall in_i64 lsns → 8 * Z.of_nat (length lsns) ≤ sg_max_tx (sv_geo s) → in_u 16 rid →
  serve_one e s (frame_bytes no_digest (fetch_frame rid lsns)) =
    Some (frame_bytes no_digest (fetch_reply rid (srv_fetch_data (sv_replica s) lsns)), s).
Proof.
  intros Hmax Hl Hq Hrid. assert (in_u 32 (Z.of_nat (length lsns))) as Hc by (unfold in_u in *; lia). unfold fetch_frame.
  assert (u32 (Z.of_nat (length lsns)) = Z.of_nat (length lsns)) as -> by by apply wrap_small.
  set (req := Mk_fetch_data_req _ _). assert (cvalid fetch_data_req_codec req) as Hv by done.
  assert (Forall (cvalid cint64) lsns) as Hl' by exact Hl.
  set (f := Mk_frame fetch_data 0 rid (enc fetch_data_req_codec req) (enc_array cint64 lsns)).
  assert (frame_ok (sg_max_tx (sv_geo s)) f) as Hf.
  { apply struct_frame_ok; try done; [by apply enc_array_bytes| |by right].
    rewrite length_enc_array by done. change (csize cint64) with 8%nat. lia. }
  serve_frame f. unfold on_fetch_data. cbn [parsed_frame m_op_header m_body m_hdr wf_oh wf_body f].
  rewrite <-(app_nil_r (enc fetch_data_req_codec req)), (dec_enc fetch_data_req_codec req []) by done.
  cbn [fq_lsn_count req]. rewrite decode_lsns_all by done. by rewrite concat_payloads.
Qed.

Lemma tcp_fetch_aux e s t reachable lsns :
  tp_connected t || reachable = true → in_u 16 (tp_next_rid t) → fetch_fits s lsns →
  peer_fetch_data reachable (server_net e s) t lsns =
    Some (Ok (owned <$> srv_fetch_data (sv_replica s) lsns), Mk_tcp_peer true (u16 (tp_next_rid t + 1))).
Proof.
  intros Hc Hrid [Hmax Hl Hq Hss Hr]. pose proof (serve_fetch e s _ lsns Hmax Hl Hq Hrid) as Hs. unfold fetch_reply in Hs.
  change (frame_bytes no_digest (fetch_frame _ lsns)) with (frame_message [] fetch_data 0 (tp_next_rid t)
    (enc fetch_data_req_codec (Mk_fetch_data_req (u32 (Z.of_nat (length lsns))) 0)) (enc_array cint64 lsns) no_digest) in Hs.
  set (slots := srv_fetch_data (sv_replica s) lsns) in *.
  destruct (fetch_body slots Hss) as (Hv & Hb & Hsz); [change k_default_max_tx with (1024 * 512) in Hr; lia|]. rewrite <-Hsz in Hr.
  assert (Z.of_nat (length slots) ≤ k_default_max_tx) as Hn by (unfold fetch_size in Hsz; lia).
  change k_default_max_tx with (1024 * 512) in Hn, Hr.
  assert (in_u 32 (Z.of_nat (length slots))) as Hc32 by (unfold in_u; lia).
  assert (u32 (Z.of_nat (length slots)) = Z.of_nat (length slots)) as Hu by by apply wrap_small. rewrite Hu in Hs.
  destruct (peer_exchange fetch_data_rsp_codec reachable e s t fetch_data _ _ _ _ _ _ _ _ Hc Hs) as (p & Hp & Hps & Hpd & Hpb);
    try done; [by apply Forall_app; split; [apply enc_array_bytes|]|by right|].
  unfold peer_fetch_data. rewrite Hp. unfold fetch_reply_of. rewrite Hps, Hpd, Hpb. cbn [status_of_byte fr_slot_count].
  change (status_of_byte (status_byte st_ok)) with st_ok. cbv iota. rewrite Nat2Z.id.
  assert (length (enc_array fetch_slot_desc_codec (fetch_desc_of <$> slots)) = (length slots * csize fetch_slot_desc_codec)%nat) as Hel.
  { rewrite length_enc_array by done. by rewrite length_fmap. }
  rewrite decide_False by (rewrite length_app; lia).
  rewrite (fetch_slots_spec slots 0 _ _ [] []); [done|done|unfold in_u; lia|rewrite length_app; lia| |].
  - intros k x Hx. cbn [Nat.add]. apply drop_enc_array; [done|]. by rewrite list_lookup_fmap, Hx.
  - by rewrite drop_app_length', app_nil_r by done.
Qed.

(** A fetch from a peer over TCP returns the slots the replica behind the server holds
    for the dLSNs asked for, in order, each payload a copy the caller owns, and leaves the
    connection up; every request the limits allow is answered. *)
Theorem tcp_fetch_refines e s t reachable lsns :
  tp_connected t || reachable = true → in_u 16 (tp_next_rid t) → fetch_fits s lsns →
  peer_fetch_data reachable (server_net e s) t lsns =
    Some (Ok (owned <$> srv_fetch_data (sv_replica s) lsns), Mk_tcp_peer true (u16 (tp_next_rid t + 1))).
Proof. apply tcp_fetch_aux. Qed.

(** ** Catching up over TCP *)

(** A connection to a server, as the commit worker uses it. *)
Record peer_link := Mk_link { lk_env : srv_env; lk_server : craft_tcp_server; lk_peer : CraftTcpPeer; lk_reachable : bool }.
Definition tcp_peer (l : peer_link) : fetch_peer := λ lsns,
  match peer_fetch_data (lk_reachable l) (server_net (lk_env l) (lk_server l)) (lk_peer l) lsns with
  | Some (Ok slots, _) => Some slots
  | _ => None
  end.
Definition direct_peer (l : peer_link) : fetch_peer := λ lsns,
  Some (srv_fetch_data (sv_replica (lk_server l)) lsns).

(** The call goes through: the peer is connected or can be, the request is within the
    server's transfer limit, and the reply, its 32-byte descriptors included, within the
    512 KiB the caller accepts. *)
Definition link_serves (l : peer_link) (lsns : list Z) : bool :=
  (tp_connected (lk_peer l) || lk_reachable l) &&
  bool_decide (8 * Z.of_nat (length lsns) ≤ sg_max_tx (sv_geo (lk_server l))) &&
  bool_decide (fetch_size (srv_fetch_data (sv_replica (lk_server l)) lsns) ≤ k_default_max_tx).
(** The peer whose journal is read directly, but not when its call would not go through. *)
Definition wired_peer (l : peer_link) : fetch_peer := λ lsns, if link_serves l lsns then direct_peer l lsns else None.

(** Values within their types, messages shorter than 2^32 bytes, and data slots that have
    data. *)
Record link_ok (l : peer_link) (lsns : list Z) : Prop := {
  lo_rid : in_u 16 (tp_next_rid (lk_peer l));
  lo_max_tx : in_u 32 (sg_max_tx (sv_geo (lk_server l)));
  lo_lsns : Forall in_i64 lsns;
  lo_request : 8 * Z.of_nat (length lsns) < 2 ^ 32;
  lo_slots : Forall slot_sound (srv_fetch_data (sv_replica (lk_server l)) lsns);
  lo_reply : fetch_size (srv_fetch_data (sv_replica (lk_server l)) lsns) < 2 ^ 32;
  lo_data : Forall (λ s, slot_has_data s = true → slot_bytes s ≠ []) (srv_fetch_data (sv_replica (lk_server l)) lsns);
}.

Lemma fetch_sublist m l k : l `sublist_of` k → do_fetch m l `sublist_of` do_fetch m k.
Proof.
  induction 1 as [|x l k _ IH|x l k _ IH]; [done| |]; unfold do_fetch in *; cbn [omap list_omap];
    destruct (journal_ m !! x); cbn [fmap option_fmap option_map]; try done; [by apply sublist_skip|by apply sublist_cons].
Qed.
Lemma fetch_size_sublist l k : l `sublist_of` k → fetch_size l ≤ fetch_size k.
Proof.
  unfold fetch_size. induction 1 as [|x l k _ IH|x l k _ IH]; [done| |]; cbn [length fmap list_fmap concat];
    rewrite ?length_app; lia.
Qed.
Lemma Forall_sublist {A} (P : A → Prop) l k : l `sublist_of` k → Forall P k → Forall P l.
Proof. intros Hs Hk. apply Forall_forall. intros x Hx. rewrite Forall_forall in Hk. by eapply Hk, elem_of_sublist. Qed.

(** What a smaller request needs. *)
Lemma link_ok_sublist l lsns lsns' : lsns' `sublist_of` lsns → link_ok l lsns → link_ok l lsns'.
Proof.
  intros Hs [H1 H2 H3 H4 H5 H6 H7]. pose proof (fetch_sublist (ra_mem (sv_replica (lk_server l))) _ _ Hs) as Hf.
  pose proof (sublist_length _ _ Hs). pose proof (fetch_size_sublist _ _ Hf).
  split; [done|done|by eapply Forall_sublist|lia|by eapply Forall_sublist|unfold srv_fetch_data in *; lia|by eapply Forall_sublist].
Qed.

(** A call that does not go through: refused by the connect, by the server's parser or by the
    caller's. *)
Lemma tcp_peer_fails l lsns : link_ok l lsns → link_serves l lsns = false → tcp_peer l lsns = None.
Proof.
  intros [H1 H2 H3 H4 H5 H6 _] Hs. unfold link_serves in Hs. unfold tcp_peer, peer_fetch_data, peer_call.
  destruct (tp_connected (lk_peer l) || lk_reachable l); [|done]. cbn [negb andb] in *.
  assert (in_u 32 (Z.of_nat (length lsns))) as Hc by (unfold in_u; lia).
  change (frame_message _ _ _ _ _ _ _) with (frame_bytes no_digest (fetch_frame (tp_next_rid (lk_peer l)) lsns)).
  set (f := fetch_frame (tp_next_rid (lk_peer l)) lsns). unfold server_net.
  assert (Z.of_nat (length (wf_body f)) = 8 * Z.of_nat (length lsns)) as Hlb.
  { cbn. rewrite length_enc_array by exact H3. change (csize cint64) with 8%nat. lia. }
  case_bool_decide as Hq; cbn [andb] in Hs.
  - set (slots := srv_fetch_data (sv_replica (lk_server l)) lsns) in *. destruct (fetch_body slots H5 H6) as (_ & _ & Hsz).
    case_bool_decide as Hr; [done|]. unfold f. rewrite serve_fetch by done. fold slots.
    rewrite (parse_too_long k_default_max_tx (fetch_reply _ slots)); [done|..]; [|done|done|cbn [fetch_reply wf_body]; rewrite Hsz; lia].
    cbn [fetch_reply wf_op wf_oh]. rewrite enc_length; [done|]. split; [|by_eval]. apply wrap_in_u. lia.
  - unfold serve_one. rewrite (parse_too_long (sg_max_tx (sv_geo (lk_server l))) f); [done|..]; [|done|done|rewrite Hlb; lia].
    cbn. rewrite enc_length; [done|]. split; [|by_eval]. apply wrap_in_u. lia.
Qed.

(** An owned slot installs what the original installs. *)
Lemma owned_installs s term :
  jl_owned_data s = None → (slot_has_data s = true → slot_bytes s ≠ []) → slot_sound s →
  (slot_has_data s = false → sg_size (jl_data s) = 0) →
  to_mem_journal_slot (owned s) term = to_mem_journal_slot s term.
Proof.
  intros Ho Hne (_ & _ & _ & _ & Hsz) Hz. unfold to_mem_journal_slot, owned, raft_take_payload. cbn. f_equal. rewrite Ho.
  destruct (slot_has_data s) eqn:Hd; [|by rewrite Hz]. rewrite Hsz by done. specialize (Hne eq_refl).
  unfold slot_bytes in *. rewrite Hd in *. destruct (concat (sg_iovs (jl_data s))); done.
Qed.
Lemma fetched_owned m lsns s :
  s ∈ do_fetch m lsns → jl_owned_data s = None ∧ (slot_has_data s = false → sg_size (jl_data s) = 0).
Proof.
  unfold do_fetch. intros (lsn & _ & Hl)%list_elem_of_omap. destruct (journal_ m !! lsn) as [j|]; [|done].
  injection Hl as <-. split; [done|]. unfold slot_has_data. simpl.
  destruct (js_is_empty j), (js_all_zeros j), (js_bytes j); done.
Qed.
Lemma find_owned lsn resp : find_slot lsn (owned <$> resp) = owned <$> find_slot lsn resp.
Proof.
  unfold find_slot. induction resp as [|s resp IH]; [done|]. cbn [fmap list_fmap]. rewrite !filter_cons.
  change (jl_lsn (owned s)) with (jl_lsn s). by case_decide.
Qed.

(** One peer's answer, over TCP or not. *)
Lemma sync_one_owned term m lsns acc l :
  Forall slot_sound (do_fetch m lsns) →
  Forall (λ s, slot_has_data s = true → slot_bytes s ≠ []) (do_fetch m lsns) →
  foldl (sync_one term (owned <$> do_fetch m lsns)) acc l = foldl (sync_one term (do_fetch m lsns)) acc l.
Proof.
  intros Hs Hd. revert acc. induction l as [|lsn l IH]; intros acc; [done|]. cbn [foldl]. rewrite <-IH. f_equal.
  destruct acc as [m' missing]. cbn [sync_one]. rewrite find_owned.
  destruct (find_slot lsn (do_fetch m lsns)) as [s|] eqn:Hf; [|done]. cbn [fmap option_fmap option_map].
  assert (s ∈ do_fetch m lsns) as Hin.
  { unfold find_slot in Hf. apply head_Some_elem_of, list_elem_of_filter in Hf. tauto. }
  destruct (fetched_owned _ _ _ Hin). rewrite Forall_forall in Hs, Hd. change (jl_is_empty (owned s)) with (jl_is_empty s).
  rewrite owned_installs; [done|done|by apply Hd|by apply Hs|done].
Qed.
Lemma sync_one_missing term resp l : ∀ m acc, ∃ l', l' `sublist_of` l ∧ (foldl (sync_one term resp) (m, acc) l).2 = acc ++ l'.
Proof.
  induction l as [|x l IH]; intros m acc; [exists []; by rewrite app_nil_r|]. cbn [foldl sync_one].
  destruct (find_slot x resp) as [s|]; [destruct (jl_is_empty s)|].
  1,2: edestruct IH as (l' & Hl & ->); exists l'; split; [by apply sublist_cons|done].
  edestruct IH as (l' & Hl & ->). exists (x :: l'). split; [by apply sublist_skip|]. by rewrite <-(assoc_L (++)).
Qed.

Lemma sync_peer_tcp term acc l :
  link_ok l acc.2 → sync_peer term acc (tcp_peer l) = sync_peer term acc (wired_peer l).
Proof.
  intros L. unfold sync_peer. destruct acc.2 as [|x missing]; [done|]. unfold wired_peer.
  destruct (link_serves l (x :: missing)) eqn:Hs; [|by rewrite tcp_peer_fails]. destruct L as [H1 H2 H3 H4 H5 H6 H7].
  unfold link_serves in Hs. rewrite !andb_true_iff, !bool_decide_eq_true in Hs. destruct Hs as [[Hup Hq] Hr].
  unfold tcp_peer, direct_peer. rewrite tcp_fetch_aux by (done || by split). by apply sync_one_owned.
Qed.
Lemma sync_peer_shrinks term acc l : (sync_peer term acc (wired_peer l)).2 `sublist_of` acc.2.
Proof.
  unfold sync_peer. destruct acc.2 as [|x missing] eqn:Ha; [by rewrite Ha|]. unfold wired_peer, direct_peer.
  destruct (link_serves l (x :: missing)); [|by rewrite Ha].
  destruct (sync_one_missing term (srv_fetch_data (sv_replica (lk_server l)) (x :: missing)) (x :: missing) acc.1 [])
    as (l' & Hl & ->). done.
Qed.
Lemma sync_links_tcp term links acc :
  Forall (λ l, link_ok l acc.2) links →
  foldl (sync_peer term) acc (tcp_peer <$> links) = foldl (sync_peer term) acc (wired_peer <$> links).
Proof.
  revert acc. induction links as [|l links IH]; intros acc Hl; [done|]. apply Forall_cons in Hl as [H1 Hl].
  cbn [fmap list_fmap foldl]. rewrite sync_peer_tcp by done. apply IH. eapply Forall_impl; [exact Hl|].
  intros l' Hl'. eapply link_ok_sublist; [apply sync_peer_shrinks|done].
Qed.

(** C18: A replica that runs a committed sync over TCP ends up exactly as one that reads its
    peers' journals directly, passing over the peers whose call does not go through:
    fetching the missing dLSNs over the wire, peer after peer, installs the same slots and
    verdicts and reaches the same frontier.  A call does not go through when the peer cannot
    be reached, when the request is over its transfer limit, or when the reply with its
    descriptors is over 512 KiB. *)
Theorem tcp_catch_up links r msg :
  let m := foldl (λ m lsn, cold_mark_empty lsn m) (ra_mem r) (sm_empty_slots msg) in
  Forall (λ l, link_ok l (get_missing_slots m (sm_rs_commit_lsn msg))) links →
  run_task (tcp_peer <$> links) r (task_sync msg) = run_task (wired_peer <$> links) r (task_sync msg).
Proof. intros m Hl. cbn [run_task]. unfold apply_sync. fold m. by rewrite sync_links_tcp. Qed.

(** A write of the full transfer limit cannot be fetched: its payload of 512 KiB fits a
    request, and with its descriptor it is 32 bytes over what the caller of a fetch accepts,
    whichever peer is asked, alone or with others. *)
Theorem full_write_not_fetched l lsns s :
  link_ok l lsns → s ∈ srv_fetch_data (sv_replica (lk_server l)) lsns → k_default_max_tx ≤ Z.of_nat (length (slot_bytes s)) →
  tcp_peer l lsns = None.
Proof.
  intros L Hs Hk. apply tcp_peer_fails; [done|]. unfold link_serves. rewrite andb_false_iff. right. apply bool_decide_eq_false.
  unfold fetch_size. apply list_elem_of_split in Hs as (l1 & l2 & ->). rewrite fmap_app, concat_app, fmap_cons. cbn [concat].
  rewrite !length_app. cbn [length]. lia.
Qed.

(** The bound a fetch checks on a payload wraps: a reply whose descriptor claims a length
    within 32 bytes of [2^64] passes it, and the caller copies from outside the body. *)
Theorem fetch_length_overflow sd rid total :
  cvalid fetch_slot_desc_codec sd → fd_is_empty sd = 0 → fd_all_zeros sd = 0 → 2 ^ 64 - 32 ≤ fd_byte_len sd →
  fetch_reply_of (Mk_message (Mk_msg_hdr (op_code op_fetch_data_rsp) (status_byte st_ok) rid 32)
    (enc fetch_data_rsp_codec (Mk_fetch_data_rsp 1 0)) (enc fetch_slot_desc_codec sd) total) = None.
Proof.
  intros Hv He Hz Hl. pose proof (enc_length _ sd Hv) as Hlen. change (csize fetch_slot_desc_codec) with 32%nat in Hlen.
  assert (fd_byte_len sd < 2 ^ 64) as Hu by (destruct Hv as (_ & _ & _ & [_ ?] & _); done).
  unfold fetch_reply_of. cbn [m_op_header m_body].
  change (status_of (Mk_message _ _ _ _)) with st_ok. cbv iota.
  rewrite <-(app_nil_r (enc fetch_data_rsp_codec _)), dec_enc by by_eval. cbn [fr_slot_count].
  change (Z.to_nat 1) with 1%nat. rewrite decide_False by (rewrite Hlen; change (csize fetch_slot_desc_codec) with 32%nat; lia).
  cbn [fetch_slots]. rewrite decide_False by (rewrite Hlen; change (csize fetch_slot_desc_codec) with 32%nat; lia). cbn [Nat.mul].
  rewrite drop_0, <-(app_nil_r (enc fetch_slot_desc_codec sd)), dec_enc by done. rewrite app_nil_r, He, Hz. cbn [negb andb Z.eqb].
  rewrite Hlen. change (Z.of_nat (csize fetch_slot_desc_codec + 0)) with 32.
  assert (u64 (32 + fd_byte_len sd) = 32 + fd_byte_len sd - 2 ^ 64) as ->.
  { unfold u64, wrap. symmetry. apply (Z.mod_unique _ _ 1); lia. }
  rewrite decide_False by lia. by rewrite decide_True by lia.
Qed.
