(* ===== verification/RemoteSession.v ===== *)
(** * Sessions over TCP

    What opens a session on a connection: a login that succeeds leaves the proxy bound to the
    server's session, and so does a HELO to a raft-backed server that knows the session.  Also
    what goes wrong: a refused login's reply is never a message to the client, and a server
    without raft binds a HELO to a term its replica does not have. *)

From S2P Require Import Prelude Codec WireTypes Crc Wire Types Replica ReplicaSpec ReplicaRun Raft Conn TcpServer WireClient Remote.

Local Open Scope craft_scope.
Local Open Scope Z_scope.

(** ** Login *)

Lemma decode_all_members ms :
  Forall member_ok ms → decode_members (foldl put_member [] ms) (Z.of_nat (length ms)) = Some ms.
Proof.
  intros Hm. unfold decode_members. rewrite Nat2Z.id.
  rewrite (decode_members_from_enc ms _ 0 [] []); [done|done|]. by rewrite foldl_put_member, app_nil_r by done.
Qed.

(** What a login's reply carries, within the widths of its fields. *)
Record login_fits (s : craft_tcp_server) (lg : LoginResult) (vol : list Z) (tok : Z) : Prop := {
  lf_vol : length vol = 16%nat ∧ bytes_ok vol;
  lf_token : in_u 64 tok;
  lf_term : 0 ≤ sv_next_term s < 2 ^ 64 - 1;
  lf_dlsn : in_i64 (lg_dLSN lg);
  lf_geo : in_u 64 (sg_capacity (sv_geo s)) ∧ in_u 32 (sg_lba_size (sv_geo s)) ∧ in_u 32 (sg_max_tx (sv_geo s));
  lf_members : Forall (λ e, member_ok (member_of e) ∧ bytes_ok (member_bytes (member_of e))) (lg_members lg);
  lf_reply : Z.of_nat (length (foldl put_member [] (member_of <$> lg_members lg))) ≤ k_max_tx;
}.

Lemma members_fit ms : Forall member_ok ms → (length ms ≤ length (foldl put_member [] ms))%nat.
Proof.
  intros Hm. rewrite foldl_put_member by done. cbn [app]. induction Hm as [|m ms [Hid _] _ IH]; [done|].
  rewrite bind_cons, length_app. unfold member_bytes at 1. rewrite !length_app, Hid. cbn [length]. lia.
Qed.

(** The session a login opens. *)
Definition login_term (s : craft_tcp_server) : Z := u64 (sv_next_term s + 1).
Definition login_state (s : craft_tcp_server) (r : RaftReplica) : craft_tcp_server :=
  Mk_server (sv_geo s) r (sv_registry s) (login_term s) (login_term s) true.

Lemma serve_login e s c vol tok lg sm lm r :
  login_fits s lg vol tok → in_u 16 (wc_next_rid c) →
  apply_login (se_login e) (sv_replica s) tok (login_term s) = (Ok lg, sm, lm, r) → lg_leader_hint lg = nil_uuid →
  serve_one e s (login_request c vol tok) =
    Some (frame_bytes no_digest (Mk_frame op_login_rsp (status_byte st_ok) (wc_next_rid c)
            (enc login_rsp_codec (Mk_login_rsp (login_term s) (lg_dLSN lg) (sg_capacity (sv_geo s)) (sg_lba_size (sv_geo s))
               (sg_max_tx (sv_geo s)) (u32 (Z.of_nat (length (lg_members lg)))) 0 (replicate 16 0)))
            (foldl put_member [] (member_of <$> lg_members lg))), login_state s r).
Proof.
  intros [[Hv1 Hv2] Ht _ _ (_ & _ & Hmax) _ _] Hrid Hl Hh. set (req := Mk_login_req vol tok).
  assert (cvalid login_req_codec req) as Hv by done.
  set (f := Mk_frame login 0 (wc_next_rid c) (enc login_req_codec req) []).
  assert (frame_ok (sg_max_tx (sv_geo s)) f) as Hf by by apply struct_frame_nil.
  change (login_request c vol tok) with (frame_bytes no_digest f). serve_frame f.
  unfold on_login. cbn [parsed_frame m_op_header m_body m_hdr wf_oh wf_body f sv_replica sv_session_term].
  rewrite <-(app_nil_r (enc login_req_codec req)), (dec_enc login_req_codec req []) by done. cbn [lq_client_token req].
  fold (login_term s). rewrite Hl, decide_True by done. done.
Qed.

(** The client's side of it. *)
Lemma wc_login_ok e s c vol tok lg sm lm r :
  login_fits s lg vol tok → in_u 16 (wc_next_rid c) →
  apply_login (se_login e) (sv_replica s) tok (login_term s) = (Ok lg, sm, lm, r) → lg_leader_hint lg = nil_uuid →
  wc_login (server_net e s) c vol tok =
    (Ok (Mk_login_result (login_term s) (lg_dLSN lg) (sg_capacity (sv_geo s)) (sg_lba_size (sv_geo s)) (sg_max_tx (sv_geo s))
           nil_uuid (member_of <$> lg_members lg)), wc_set_term (wc_rid c) (login_term s)).
Proof.
  intros F Hrid Hl Hh. pose proof (serve_login e s c vol tok lg sm lm r F Hrid Hl Hh) as Hs.
  destruct F as [_ _ Hterm Hd (Hg1 & Hg2 & Hg3) Hm Hr].
  assert (Forall member_ok (member_of <$> lg_members lg)) as Hmo.
  { apply Forall_fmap. eapply Forall_impl; [exact Hm|]. by intros x [? _]. }
  pose proof (members_fit _ Hmo) as Hn. rewrite length_fmap in Hn. pose proof k_max_tx_fits as Hk.
  assert (in_u 32 (Z.of_nat (length (lg_members lg)))) as Hc by (unfold in_u in *; lia).
  assert (u32 (Z.of_nat (length (lg_members lg))) = Z.of_nat (length (lg_members lg))) as Hu by by apply wrap_small.
  rewrite Hu in Hs.
  assert (in_u 64 (login_term s)) as Ht by (unfold login_term, u64; rewrite wrap_small; unfold in_u; lia).
  destruct (exchange_ok login_rsp_codec e s _ _ _ _ _ _ _ Hs) as (p & Hp & _ & Hpd & Hpb); try done.
  { change (in_u 64 (login_term s) ∧ in_i64 (lg_dLSN lg) ∧ in_u 64 (sg_capacity (sv_geo s)) ∧ in_u 32 (sg_lba_size (sv_geo s)) ∧
      in_u 32 (sg_max_tx (sv_geo s)) ∧ in_u 32 (Z.of_nat (length (lg_members lg))) ∧ in_u 32 0 ∧
      length (replicate 16 0) = 16%nat ∧ bytes_ok (replicate 16 0)). split_and!; try done; by_eval. }
  { rewrite foldl_put_member by done. apply Forall_bind, Forall_fmap. eapply Forall_impl; [exact Hm|]. by intros x [_ ?]. }
  { by right. }
  unfold wc_login. rewrite Hp, Hpd, Hpb. cbn [lr_member_count lr_term lr_dlsn lr_capacity lr_lba_size lr_max_tx lr_leader_hint].
  rewrite <-(length_fmap member_of (lg_members lg)) at 1. by rewrite decode_all_members.
Qed.

(** C19: A login over TCP that the replica grants reaches the caller whole (its members, dLSN
    and the server's geometry, at the server's next term) and binds the connection: the proxy
    ends up bound to the session the server opened, so its next request needs no HELO. *)
Theorem tcp_login_binds e s t reachable tok lg sm lm r :
  tr_connected t || reachable = true → in_u 16 (wc_next_rid (tr_conn t)) →
  login_fits s lg (tr_vol_id t) tok →
  apply_login (se_login e) (sv_replica s) tok (login_term s) = (Ok lg, sm, lm, r) → lg_leader_hint lg = nil_uuid →
  (tr_login reachable (server_net e s) t tok).1 =
    Ok (Mk_LoginResult (lg_members lg) (lg_dLSN lg) (login_term s) (sg_lba_size (sv_geo s)) (sg_capacity (sv_geo s))
          nil_uuid (sg_max_tx (sv_geo s))) ∧
  snd <$> serve_one e s (login_request (tr_conn (ensure_connected reachable t).2) (tr_vol_id t) tok) =
    Some (login_state s r) ∧
  bound_to (tr_login reachable (server_net e s) t tok).2 (login_state s r) (login_term s).
Proof.
  intros Hc Hrid F Hl Hh. unfold tr_login.
  assert (∃ t', ensure_connected reachable t = (true, t') ∧ in_u 16 (wc_next_rid (tr_conn t')) ∧ tr_vol_id t' = tr_vol_id t ∧
    tr_connected t' = true) as (t' & Ht & Hr' & Hv & Hct).
  { unfold ensure_connected. destruct (tr_connected t) eqn:Htc; [by exists t|]. simpl in Hc. rewrite Hc.
    eexists. split_and!; [done|by_eval|done|done]. }
  rewrite Ht. rewrite <-Hv in *. cbn [snd].
  rewrite (wc_login_ok e s _ _ tok lg sm lm r F Hr' Hl Hh), (serve_login e s _ _ tok lg sm lm r F Hr' Hl Hh).
  assert (0 < login_term s) as Hpos.
  { pose proof (lf_term _ _ _ _ F). unfold login_term, u64. rewrite wrap_small; unfold in_u; lia. }
  split_and!; [| done |].
  - cbn [fst ls_members ls_dlsn ls_term ls_lba_size ls_capacity ls_leader_hint ls_max_tx]. do 2 f_equal.
    rewrite <-list_fmap_compose. etransitivity; [|apply list_fmap_id]. apply list_fmap_ext. by intros i [].
  - cbn [snd]. split; cbn; try done; rewrite ?(proj2 (Z.ltb_lt _ _) Hpos); try done.
    + unfold u16, wrap, in_u. apply Z.mod_pos_bound. done.
    + by destruct F as [_ _ _ _ (_ & _ & ?) _ _].
Qed.

(** ** A refused login *)

(** The frame of a login reply without its header. *)
Lemma headless_incomplete code rid buf rest :
  byte_ok code → in_u 16 rid → frame_message [] op_login_rsp code rid [] [] no_digest = buf ++ rest →
  parse_message buf k_max_tx no_digest = Err incomplete.
Proof.
  intros Hs Hr Hf. set (f := Mk_frame op_login_rsp code rid (replicate 56 0) []).
  assert (frame_ok k_max_tx f) as Hok.
  { unfold f. split_and!; try done; by_eval. }
  apply (parse_prefix k_max_tx no_digest f buf (rest ++ replicate 56 0) Hok); [|by destruct rest].
  rewrite (assoc_L (++)), <-Hf. unfold frame_bytes, frame_message, f.
  cbn [no_digest dg_header dg_data wf_op wf_status wf_rid wf_oh wf_body]. by rewrite !app_nil_r.
Qed.

(** Receiving it, however it is cut. *)
Lemma recv_headless code rid chunks : ∀ rx ins,
  byte_ok code → in_u 16 rid → frame_message [] op_login_rsp code rid [] [] no_digest = rx ++ concat chunks →
  recv_message rx k_max_tx no_digest ((rv_bytes <$> chunks) ++ ins) =
    match ins with
    | [] => None
    | _ => recv_message (rx ++ concat chunks) k_max_tx no_digest ins
    end.
Proof.
  induction chunks as [|b chunks IH]; intros rx ins Hs Hr Hf.
  - cbn [fmap list_fmap app concat] in *. rewrite app_nil_r. destruct ins; [|done].
    cbn [recv_message]. by rewrite (headless_incomplete code rid rx [] Hs Hr).
  - cbn [fmap list_fmap app recv_message]. rewrite (headless_incomplete code rid rx (concat (b :: chunks)) Hs Hr Hf).
    cbn [concat] in *. rewrite (assoc_L (++)) in Hf |- *. by apply IH.
Qed.

(** A login the server does not grant: the replica fails it or names a leader. *)
Definition login_refused (res : result error_condition LoginResult) : Prop :=
  match res with Err _ => True | Ok lg => lg_leader_hint lg ≠ nil_uuid end.

(** The reply to a refused login carries no login header, so it is never a message to
    the client, however it arrives: the client still waits when it has every byte, its
    deadline turns the refusal (a status the reply does carry, [NOT_LEADER] among them) into
    a timeout, and the proxy drops the connection. *)
Theorem login_refusal_unreadable e s req chunks reachable t tok :
  let answer := (on_login e s req).1 in
  let lr := dec login_req_codec (m_op_header req) in
  login_refused (apply_login (se_login e) (sv_replica s) (lq_client_token lr) (login_term s)).1.1.1 →
  in_u 16 (mh_request_id (m_hdr req)) → concat chunks = answer →
  recv_message [] k_max_tx no_digest (rv_bytes <$> chunks) = None ∧
  recv_message [] k_max_tx no_digest ((rv_bytes <$> chunks) ++ [rv_late]) = Some (Err ne_timed_out, answer, []) ∧
  (tr_connected t || reachable = true →
   (tr_login reachable (λ _, Err ne_timed_out) t tok).1 = Err (ec_std timed_out) ∧
   tr_connected (tr_login reachable (λ _, Err ne_timed_out) t tok).2 = false).
Proof.
  intros answer lr Href Hrid Hch.
  assert (∃ code, byte_ok code ∧ answer = frame_message [] op_login_rsp code (mh_request_id (m_hdr req)) [] [] no_digest)
    as (code & Hcode & Hans).
  { unfold answer, on_login, reply. cbn [sv_replica sv_session_term]. fold (login_term s). fold lr.
    destruct (apply_login _ _ _ _) as [[[[lg|er] sm] lm] r]; cbn [fst login_refused] in Href.
    - rewrite decide_False by done. eexists. split; [|done]. by_eval.
    - eexists. split; [|done]. apply status_of_code. }
  rewrite Hans in Hch. split_and!.
  - rewrite <-(app_nil_r (rv_bytes <$> chunks)). by rewrite (recv_headless code (mh_request_id (m_hdr req))).
  - rewrite (recv_headless code (mh_request_id (m_hdr req))) by done. cbn [app]. rewrite Hch, <-Hans.
    cbn [recv_message]. by rewrite (headless_incomplete code (mh_request_id (m_hdr req)) answer []) by (rewrite ?app_nil_r; done).
  - intros Hc. unfold tr_login, ensure_connected. destruct (tr_connected t); [done|]. simpl in Hc. by rewrite Hc.
Qed.

(** ** HELO *)

Section helo.
Context (e : srv_env) (s : craft_tcp_server) (t : CraftTcpReplica) (reachable : bool) (tok term : Z).
Context (Hc : tr_connected t || reachable = true) (Hrid : in_u 16 (wc_next_rid (tr_conn t))).
Context (Hvol : length (tr_vol_id t) = 16%nat ∧ bytes_ok (tr_vol_id t)) (Htok : in_u 64 tok) (Hterm : in_u 64 term).
Context (Hmax : in_u 32 (sg_max_tx (sv_geo s))).
Context (Hnew : tr_bound t && (term =? tr_bound_term t) = false).

(** The connection the HELO goes out on. *)
Lemma connected_helo :
  ∃ t', ensure_connected reachable t = (true, t') ∧ tr_vol_id t' = tr_vol_id t ∧ in_u 16 (wc_next_rid (tr_conn t')) ∧
    tr_connected t' = true ∧ tr_bound t' && (term =? tr_bound_term t') = false.
Proof.
  unfold ensure_connected. destruct (tr_connected t) eqn:Htc; [by exists t|]. simpl in Hc. rewrite Hc.
  eexists. split_and!; [done|done|by_eval|done|exact Hnew].
Qed.

(** What a HELO comes to, from the server's answer to it. *)
Lemma helo_spec code s' :
  code = st_ok ∨ code = st_stale_term →
  (∀ req, m_op_header req = enc helo_req_codec (Mk_helo_req (tr_vol_id t) tok term) →
     on_helo e s req = (reply helo_rsp code req [] [], s')) →
  (ensure_bound reachable (server_net e s) t term tok).1 =
    match code with st_ok => None | _ => Some (status_to_error code) end ∧
  snd <$> serve_one e s (helo_request (tr_conn (ensure_connected reachable t).2) (tr_vol_id t) tok term) = Some s' ∧
  (code = st_ok → sv_geo s' = sv_geo s → sv_session_active s' = true → sv_session_term s' = term →
   bound_to (ensure_bound reachable (server_net e s) t term tok).2 s' term).
Proof.
  intros Hcode Hh. destruct connected_helo as (t' & Ht & Hv & Hr & Hct & Hb). unfold ensure_bound. rewrite Ht, Hb. cbn [snd].
  rewrite Hv. set (req := Mk_helo_req (tr_vol_id t) tok term) in *.
  assert (cvalid helo_req_codec req) as Hvr by (destruct Hvol; done).
  set (f := Mk_frame helo 0 (wc_next_rid (tr_conn t')) (enc helo_req_codec req) []).
  assert (frame_ok (sg_max_tx (sv_geo s)) f) as Hf by by apply struct_frame_nil.
  set (rf := Mk_frame helo_rsp (status_byte code) (wc_next_rid (tr_conn t')) [] []).
  assert (serve_one e s (frame_bytes no_digest f) = Some (frame_bytes no_digest rf, s')) as Hs.
  { serve_frame f. by rewrite Hh. }
  assert (round_trip (server_net e s) (frame_bytes no_digest f) helo_rsp = Ok (parsed_frame no_digest rf)) as Hrt.
  { apply (round_trip_ok _ _ rf); [unfold server_net; by rewrite Hs|]. apply bare_frame_ok; try done. by destruct Hcode as [-> | ->]. }
  unfold wc_helo, helo_request, request. fold req. change (frame_message _ _ _ _ _ _ _) with (frame_bytes no_digest f).
  rewrite Hrt, Hs. assert (status_of (parsed_frame no_digest rf) = code) as -> by (by destruct Hcode as [-> | ->]).
  split_and!; [by destruct code|done|]. intros -> Hg Ha Hst. cbn.
  split; try done; [unfold u16, wrap, in_u; by apply Z.mod_pos_bound|by rewrite Hg].
Qed.

(** A HELO to a raft-backed server fences: presenting the term and token of the session
    the replica knows binds the connection to it, anything else is answered [STALE_TERM] and
    leaves the server as it was. *)
Theorem tcp_helo_fences :
  le_enabled (se_login e) = true →
  if decide ((term, tok) = srv_session_info (sv_replica s)) then
    (ensure_bound reachable (server_net e s) t term tok).1 = None ∧
    bound_to (ensure_bound reachable (server_net e s) t term tok).2 (with_session s (sv_replica s) term true) term
  else
    (ensure_bound reachable (server_net e s) t term tok).1 = Some (ec_craft STALE_TERM) ∧
    snd <$> serve_one e s (helo_request (tr_conn (ensure_connected reachable t).2) (tr_vol_id t) tok term) = Some s.
Proof.
  intros Hen. destruct (helo_spec (if decide ((term, tok) = srv_session_info (sv_replica s)) then st_ok else st_stale_term)
    (if decide ((term, tok) = srv_session_info (sv_replica s)) then with_session s (sv_replica s) term true else s))
    as (H1 & H2 & H3).
  - case_decide; [by left|by right].
  - intros req Hq. unfold on_helo. rewrite Hq, <-(app_nil_r (enc helo_req_codec _)), dec_enc by (destruct Hvol; done).
    rewrite Hen. cbn [negb hq_term hq_client_token]. unfold srv_session_info.
    destruct (decide ((term, tok) = (term_of (ra_mem (sv_replica s)), token_of (ra_mem (sv_replica s))))) as [[= -> ->]|Hne].
    + by rewrite !Z.eqb_refl.
    + assert (negb (term =? term_of (ra_mem (sv_replica s))) || negb (tok =? token_of (ra_mem (sv_replica s))) = true) as ->.
      { destruct (Z.eqb_spec term (term_of (ra_mem (sv_replica s)))), (Z.eqb_spec tok (token_of (ra_mem (sv_replica s)))); try done.
        subst. done. }
      rewrite decide_False by done. by destruct s.
  - case_decide; [|done]. split; [done|]. by apply H3.
Qed.

(** A server without raft binds a HELO at the term presented, whatever it is, but
    establishes its replica at the term of its own session. When the two differ (a member the
    client did not log in on) the connection is bound, and yet everything sent on it is
    answered [STALE_TERM]: the term the server stamps is not the replica's. *)
Theorem helo_without_raft_stale :
  le_enabled (se_login e) = false → term ≠ sv_session_term s →
  (ensure_bound reachable (server_net e s) t term tok).1 = None ∧
  ∃ s', bound_to (ensure_bound reachable (server_net e s) t term tok).2 s' term ∧
    term_of (ra_mem (sv_replica s')) = sv_session_term s ∧
    ∀ hdr, ch_term hdr = term →
      (do_keep_alive (ra_mem (sv_replica s')) hdr).1 = Err (ec_craft STALE_TERM) ∧
      ∀ d addr len bytes, misaligned (ra_mem (sv_replica s')) addr len = false →
        (∀ b, bytes = Some b → Z.of_nat (length b) = len) →
        (do_write (ra_mem (sv_replica s')) hdr d addr len bytes).1 = Err (ec_craft STALE_TERM).
Proof.
  intros Hen Hne. set (m := ra_mem (sv_replica s)).
  set (r := set_mem (sv_replica s) (set_state m (Mk_ps (commit_of m) (append_of m) tok (sv_session_term s)))).
  destruct (helo_spec st_ok (with_session s r term true)) as (H1 & _ & H3); [by left| |].
  - intros req Hq. unfold on_helo. rewrite Hq, <-(app_nil_r (enc helo_req_codec _)), dec_enc by (destruct Hvol; done).
    unfold apply_login. rewrite Hen. done.
  - split; [done|]. exists (with_session s r term true). split; [by apply H3|]. split; [done|].
    change (sv_replica (with_session s r term true)) with r.
    intros hdr Hh. assert (ch_term hdr ≠ term_of (ra_mem r)) as Hst by by rewrite Hh. split.
    + by destruct (stale_term_aux (ra_mem r) hdr 0 0 0 None 0 (Mk_sg 0 []) 0 Hst) as (-> & _).
    + intros d addr len bytes Hal Hb.
      destruct (stale_term_aux (ra_mem r) hdr d addr len bytes 0 (Mk_sg 0 []) 0 Hst) as (_ & _ & (er & -> & Her) & _).
      by rewrite (Her Hal Hb).
Qed.
End helo.
