(* ===== verification/ServerRun.v ===== *)
(** * The server drives the replica by its own operations

    Whatever bytes arrive at [craft_tcp_server], the replica behind it moves by the events of
    the raft-backed replica ([raft_run]) and no others, so everything proved along those
    holds of a replica behind a server. *)

From S2P Require Import Prelude Codec WireTypes Wire WireTyped Types Replica ReplicaSpec ReplicaRun ReplicaApplied Raft RaftRun Conn TcpServer.

Local Open Scope craft_scope.
Local Open Scope Z_scope.

(** What a parsed message is made of. *)
Lemma message_parts buf max_tx req :
  bytes_ok buf → parse_message buf max_tx no_digest = Ok req →
  bytes_ok (m_op_header req) ∧ op_hdr_size (mh_op (m_hdr req)) = Some (length (m_op_header req)).
Proof.
  intros Hb. unfold parse_message. set (hdr := dec msg_hdr_codec buf).
  destruct (decide (length buf < csize msg_hdr_codec)%nat) as [|Hl]; [done|].
  destruct (op_hdr_size (mh_op hdr)) as [ohs|] eqn:Ho; [|done].
  destruct (decide (max_tx < mh_body_len hdr)); [done|]. destruct (_ && _); [done|]. cbn [no_digest dg_header dg_data andb digest_len].
  destruct (decide _) as [|Ht]; [done|]. intros [= <-]. cbn [m_op_header m_hdr]. fold hdr. unfold subspan.
  split; [by apply Forall_take, Forall_drop|]. rewrite Ho, length_take, length_drop. f_equal. lia.
Qed.

(** The dLSNs a message asks to write. *)
Definition write_named (max_tx : Z) (msg : list Z) (d : Z) : Prop :=
  ∃ req, parse_message msg max_tx no_digest = Ok req ∧ mh_op (m_hdr req) = op_code write ∧
    wq_dlsn (dec write_req_codec (m_op_header req)) = d.

Section server.
Context {J : Type} `{JS : !Json J}.

(** The events a request stands for: polls, logins and client requests within their types,
    which write only what [W] has. *)
Definition server_event (page : Z) (W : Z → Prop) (ev : raft_event J) : Prop :=
  event_typed page ev ∧
  match ev with
  | re_poll _ _ _ | re_login _ _ _ => True
  | re_client op => ∀ d, names d op → W d
  | _ => False
  end.

Lemma server_events_names page W (evs : list (raft_event J)) r d :
  Forall (server_event page W) evs → run_names d r evs → W d.
Proof.
  intros Hf. revert r. induction Hf as [|ev evs [_ Hev] _ IH]; intros r; cbn [run_names]; [done|].
  intros [Hn|Hn]; [|destruct (raft_exec r ev); [by eapply IH|done]].
  destruct ev; cbn [event_names] in Hn; try done. by apply Hev.
Qed.

Lemma raft_run_app r (evs1 evs2 : list (raft_event J)) r1 r2 :
  raft_run r evs1 = Some r1 → raft_run r1 evs2 = Some r2 → raft_run r (evs1 ++ evs2) = Some r2.
Proof.
  revert r. induction evs1 as [|ev evs IH]; intros r; simpl; [by intros [= <-]|].
  destruct (raft_exec r ev); [|done]. simpl. apply IH.
Qed.

Section handlers.
Context (e : srv_env) (s : craft_tcp_server) (req : message) (W : Z → Prop).
Let page := page_size_ (ra_mem (sv_replica s)).
Let steps (s' : craft_tcp_server) : Prop :=
  ∃ evs : list (raft_event J), raft_run (sv_replica s) evs = Some (sv_replica s') ∧ Forall (server_event page W) evs.

(** A client operation, and none. *)
Lemma client_steps op :
  client_request op = true → op_typed page op → (∀ d, names d op → W d) → steps (with_mem s (replica_exec (ra_mem (sv_replica s)) op)).
Proof. intros Hc Ht Hn. exists [re_client op]. split; [simpl; by rewrite Hc|]. by repeat constructor. Qed.
Lemma no_steps s' : sv_replica s' = sv_replica s → steps s'.
Proof. intros Hs. exists []. by rewrite Hs. Qed.
Lemma with_same_mem : sv_replica (with_mem s (ra_mem (sv_replica s))) = sv_replica s.
Proof. by destruct s as [? [] ? ? ? ?]. Qed.

Lemma write_steps :
  bytes_ok (m_op_header req) → length (m_op_header req) = csize write_req_codec →
  W (wq_dlsn (dec write_req_codec (m_op_header req))) → steps (on_write s req).2.
Proof.
  intros Hb Hl Hw. assert (Typed write_req_codec) as T by struct_typed.
  destruct (T (m_op_header req) Hb ltac:(lia)) as [Hv _]. unfold on_write.
  set (wr := dec write_req_codec (m_op_header req)) in *. destruct (sv_session_active s).
  - cbn [negb]. assert (in_u 64 (wq_addr wr) ∧ in_u 64 (wq_len wr)) as [Ha Hn] by (by destruct Hv as (_ & _ & ? & ?)).
    pose proof (client_steps (op_write (session_hdr_of s (wq_hdr wr)) (wq_dlsn wr) (wq_addr wr) (wq_len wr)
      (payload_arg (m_body req))) eq_refl (conj Ha Hn) ltac:(by intros d <-)) as Hs. cbn [replica_exec] in Hs.
    by destruct (do_write _ _ _ _ _ _) as [[l|er] m].
  - cbn [negb snd]. apply no_steps, with_same_mem.
Qed.

Lemma read_steps answer s' : on_read s req = Some (answer, s') → steps s'.
Proof.
  unfold on_read. set (rr := dec read_req_codec (m_op_header req)).
  destruct (sv_session_active s); [|intros [= _ <-]; by apply no_steps]. cbn [negb]. set (dest := Mk_sg _ _).
  pose proof (client_steps (op_read (session_hdr_of s (rq_hdr rr)) (rq_read_lsn rr) (rq_addr rr) (rq_len rr) dest) eq_refl I) as Hs.
  cbn [replica_exec] in Hs. destruct (do_read _ _ _ _ _ _) as [[r m]|]; [|done]. cbn [mbind option_bind].
  destruct r as [[res d]|er]; intros [= _ <-]; apply Hs; by intros ? [].
Qed.

Lemma keep_alive_steps : steps (on_keep_alive s req).2.
Proof.
  unfold on_keep_alive. destruct (sv_session_active s); [|by apply no_steps]. cbn [negb].
  pose proof (client_steps (op_keep_alive (session_hdr_of s (kq_hdr (dec keepalive_req_codec (m_op_header req))))) eq_refl I) as Hs.
  cbn [replica_exec] in Hs. destruct (do_keep_alive _ _) as [[l|er] m]; apply Hs; by intros ? [].
Qed.
Lemma resolve_steps : steps (on_resolve s req).2.
Proof.
  unfold on_resolve. set (rr := dec resolve_req_codec (m_op_header req)). destruct (sv_session_active s); [|by apply no_steps]. cbn [negb].
  pose proof (client_steps (op_resolve_local (session_hdr_of s (vq_hdr rr)) (vq_upto rr)) eq_refl I) as Hs.
  cbn [replica_exec] in Hs. destruct (do_resolve_local _ _ _) as [[l|er] m]; apply Hs; by intros ? [].
Qed.
Lemma logout_steps : steps (on_logout s req).2.
Proof.
  unfold on_logout. destruct (sv_session_active s); [|by apply no_steps]. apply (client_steps op_logout eq_refl I). by intros ? [].
Qed.
Lemma poll_steps : steps (on_get_rs_commit_lsn e s req).2.
Proof.
  unfold on_get_rs_commit_lsn. set (gr := dec get_rs_commit_lsn_req_codec (m_op_header req)).
  exists [re_poll (gq_term gr) (negb (gq_is_login gr =? 0)) (se_timer e)]. split; [|by repeat constructor]. simpl.
  by destruct (do_get_rs_commit_lsn _ _ _ _) as [l r].
Qed.

Context (Hresp : Forall (Forall (peer_slot_wf page)) (le_responses (se_login e))).
Lemma login_steps tok term s' : sv_replica s' = (apply_login (se_login e) (sv_replica s) tok term).2 → steps s'.
Proof. intros Hs. exists [re_login (se_login e) tok term]. split; [simpl; by rewrite Hs|]. by repeat constructor. Qed.
Lemma on_login_steps : steps (on_login e s req).2.
Proof.
  apply (login_steps (lq_client_token (dec login_req_codec (m_op_header req))) (u64 (sv_next_term s + 1))).
  unfold on_login. cbn [sv_replica sv_session_term].
  destruct (apply_login _ _ _ _) as [[[[lg|er] sm] lm] r]; [|done]. by destruct (decide (lg_leader_hint lg = nil_uuid)).
Qed.
Lemma on_helo_steps : steps (on_helo e s req).2.
Proof.
  unfold on_helo. set (hr := dec helo_req_codec (m_op_header req)).
  pose proof (login_steps (hq_client_token hr) (sv_session_term s)) as Hs.
  destruct (le_enabled (se_login e)); cbn [negb].
  - destruct (srv_session_info (sv_replica s)) as [term tok]. cbn [snd]. case_decide; by apply no_steps.
  - destruct (apply_login _ _ _ _) as [[[res sm] lm] r]. cbn [snd] in *. case_decide; by apply Hs.
Qed.
End handlers.

Lemma serve_steps e s msg answer s' :
  let page := page_size_ (ra_mem (sv_replica s)) in
  bytes_ok msg → Forall (Forall (peer_slot_wf page)) (le_responses (se_login e)) → serve_one e s msg = Some (answer, s') →
  ∃ evs : list (raft_event J), raft_run (sv_replica s) evs = Some (sv_replica s') ∧
    Forall (server_event page (write_named (sg_max_tx (sv_geo s)) msg)) evs.
Proof.
  intros page Hb Hr. set (W := write_named (sg_max_tx (sv_geo s)) msg).
  assert (∀ s', sv_replica s' = sv_replica s → ∃ evs : list (raft_event J), raft_run (sv_replica s) evs = Some (sv_replica s') ∧
    Forall (server_event page W) evs) as Hno by (intros; by apply no_steps).
  unfold serve_one. destruct (parse_message _ _ _) as [req|] eqn:Hp; [|done].
  destruct (message_parts _ _ _ Hb Hp) as [Hbo Hlo].
  destruct (Z.eqb_spec (mh_op (m_hdr req)) (op_code login)); [intros [= Hs]; pose proof (on_login_steps e s req W Hr) as H; by rewrite Hs in H|].
  destruct (Z.eqb_spec (mh_op (m_hdr req)) (op_code helo)); [intros [= Hs]; pose proof (on_helo_steps e s req W Hr) as H; by rewrite Hs in H|].
  destruct (Z.eqb_spec (mh_op (m_hdr req)) (op_code write)) as [Ho|].
  { intros [= Hs]. pose proof (write_steps s req W Hbo) as H. rewrite Ho in Hlo. injection Hlo as Hlo. rewrite Hs in H.
    apply H; [done|]. by exists req. }
  destruct (Z.eqb_spec (mh_op (m_hdr req)) (op_code read)); [apply read_steps|].
  destruct (Z.eqb_spec (mh_op (m_hdr req)) (op_code keepalive)); [intros [= Hs]; pose proof (keep_alive_steps s req W) as H; by rewrite Hs in H|].
  destruct (Z.eqb_spec (mh_op (m_hdr req)) (op_code resolve)); [intros [= Hs]; pose proof (resolve_steps s req W) as H; by rewrite Hs in H|].
  destruct (Z.eqb_spec (mh_op (m_hdr req)) (op_code logout)); [intros [= Hs]; pose proof (logout_steps s req W) as H; by rewrite Hs in H|].
  destruct (Z.eqb_spec (mh_op (m_hdr req)) (op_code create_volume)).
  { unfold on_create_volume. destruct (decode_members _ _); [destruct (srv_create_volume _ _ _ _)|]; intros [= _ <-]; by apply Hno. }
  destruct (Z.eqb_spec (mh_op (m_hdr req)) (op_code get_rs_commit_lsn)); [intros [= Hs]; pose proof (poll_steps e s req W) as H; by rewrite Hs in H|].
  destruct (Z.eqb_spec (mh_op (m_hdr req)) (op_code fetch_data)); [|done].
  unfold on_fetch_data. destruct (decode_lsns _ _); intros [= _ <-]; by apply Hno.
Qed.
End server.

Lemma serve_one_geo e s msg answer s' : serve_one e s msg = Some (answer, s') → sv_geo s' = sv_geo s.
Proof.
  unfold serve_one, on_login, on_helo, on_write, on_read, on_keep_alive, on_resolve, on_logout, on_create_volume,
    on_get_rs_commit_lsn, on_fetch_data.
  destruct (parse_message _ _ _); [|done]. cbn [sv_replica sv_session_term].
  repeat (case_match; try done); intros; simplify_option_eq; repeat case_match; by simplify_option_eq.
Qed.

(** ** Runs *)

(** The requests of all connections in the order they are served, each with what the raft
    service, the registry and the peers answer meanwhile; a message that does not parse ends
    its connection and changes nothing. *)
Definition server_exec (s : craft_tcp_server) (em : srv_env * list Z) : craft_tcp_server :=
  match serve_one em.1 s em.2 with Some (_, s) => s | None => s end.
Definition server_run (s : craft_tcp_server) (ems : list (srv_env * list Z)) : craft_tcp_server := foldl server_exec s ems.

Lemma server_run_events {J} `{JS : !Json J} s ems :
  let page := page_size_ (ra_mem (sv_replica s)) in
  Forall (λ em, bytes_ok em.2 ∧ Forall (Forall (peer_slot_wf page)) (le_responses (se_login em.1))) ems →
  Forall task_committed (ra_tasks (sv_replica s)) →
  ∃ evs : list (raft_event J), raft_run (sv_replica s) evs = Some (sv_replica (server_run s ems)) ∧
    Forall (server_event page (λ d, ∃ em, em ∈ ems ∧ write_named (sg_max_tx (sv_geo s)) em.2 d)) evs.
Proof.
  intros page Hf. subst page. revert s Hf. induction ems as [|[e msg] ems IH]; intros s Hf Hq; [by exists []|].
  apply Forall_cons in Hf as [[Hb Hr] Hf]. cbn [fst snd] in *.
  change (server_run s ((e, msg) :: ems)) with (server_run (server_exec s (e, msg)) ems). unfold server_exec. cbn [fst snd].
  assert (∀ (evs : list (raft_event J)) n, Forall (server_event n (λ d, ∃ em, em ∈ ems ∧ write_named (sg_max_tx (sv_geo s)) em.2 d)) evs →
    Forall (server_event n (λ d, ∃ em, em ∈ (e, msg) :: ems ∧ write_named (sg_max_tx (sv_geo s)) em.2 d)) evs) as Hmono.
  { intros evs n Hev. eapply Forall_impl; [exact Hev|]. intros ev [H1 H2]. split; [done|]. destruct ev; try done. intros d (em & ? & ?)%H2.
    exists em. split; [by right|done]. }
  destruct (serve_one e s msg) as [[answer s1]|] eqn:Hs; [|destruct (IH s Hf Hq) as (evs & ? & ?); exists evs; auto].
  destruct (serve_steps (J := J) e s msg answer s1 Hb Hr Hs) as (evs1 & H1 & N1).
  assert (Forall (event_typed (page_size_ (ra_mem (sv_replica s)))) evs1) as T1.
  { eapply Forall_impl; [exact N1|]. by intros ev []. }
  destruct (raft_run_replays _ _ _ H1 Hq T1) as [(ops & Hm & _) Hq1].
  assert (page_size_ (ra_mem (sv_replica s1)) = page_size_ (ra_mem (sv_replica s))) as Hp by by rewrite Hm, run_page.
  pose proof (serve_one_geo _ _ _ _ _ Hs) as Hg.
  destruct (IH s1) as (evs2 & H2 & N2); [by rewrite Hp|done|]. rewrite Hp, Hg in N2. exists (evs1 ++ evs2).
  split; [by eapply raft_run_app|]. apply Forall_app. split; [|by apply Hmono].
  eapply Forall_impl; [exact N1|]. intros ev [Ht Hn]. split; [done|]. destruct ev; try done. intros d Hd%Hn.
  exists (e, msg). split; [left|done].
Qed.

(** C15: Whatever bytes its connections deliver, a server moves its replica by the events of
    the raft-backed replica and no others: along any sequence of requests, malformed or
    refused ones and rewrites of committed dLSNs included, with peers whose slots hold the
    bytes they announce.  So the frontier never goes back, the slots the replica has committed
    stay what it serves, its journal stays complete up to the frontier, and a committed slot
    of the journal is the same unless a WRITE that names its dLSN was among the requests. *)
Theorem server_refines_raft {J} `{JS : !Json J} A s ems :
  let m := ra_mem (sv_replica s) in
  let s' := server_run s ems in
  let m' := ra_mem (sv_replica s') in
  Forall (λ em, bytes_ok em.2 ∧ Forall (Forall (peer_slot_wf (page_size_ m))) (le_responses (se_login em.1))) ems →
  Forall task_committed (ra_tasks (sv_replica s)) → applied A m → journal_inv m →
  (∃ evs : list (raft_event J), raft_run (sv_replica s) evs = Some (sv_replica s')) ∧
  (∃ A', A ⊆ A' ∧ applied A' m') ∧ commit_of m ≤ commit_of m' ∧ journal_inv m' ∧
  ∀ d, 0 ≤ d ≤ commit_of m → (∀ em, em ∈ ems → ¬ write_named (sg_max_tx (sv_geo s)) em.2 d) → journal_ m' !! d = journal_ m !! d.
Proof.
  intros m s' m' Hf Hq I Ij. destruct (server_run_events (J := J) s ems Hf Hq) as (evs & Hr & Hev).
  assert (Forall (event_typed (page_size_ m)) evs) as Ht by (eapply Forall_impl; [exact Hev|]; by intros ev []).
  destruct (raft_run_replays _ _ _ Hr Hq Ht) as [R _]. destruct (replays_keeps _ A _ _ R I) as (HA & Hc & Hj & Hn).
  split_and!; [by exists evs|done..|by apply Hj|]. intros d Hd Hw. apply Hn; [apply Hd|by apply (jv_prefix _ Ij)|].
  intros (em & Hin & Hem)%(server_events_names _ _ _ _ _ Hev). by apply (Hw em).
Qed.
(** Handling messages one by one. *)
Fixpoint serve_each (es : list srv_env) (s : craft_tcp_server) (msgs : list (list Z)) : list (list Z) * craft_tcp_server :=
  match es, msgs with
  | e :: es, msg :: msgs =>
      match serve_one e s msg with
      | None => ([], s)
      | Some (answer, s) => let '(answers, s) := serve_each es s msgs in (answer :: answers, s)
      end
  | _, _ => ([], s)
  end.

(** The server answers the requests of a connection in the order they were sent, however
    the network cuts or joins them: serving the byte stream is handling the framed requests
    one after the other. *)
Theorem serve_in_order es s fs chunks :
  Forall (frame_ok (sg_max_tx (sv_geo s))) fs → length es = length fs →
  concat chunks = concat (frame_bytes no_digest <$> fs) →
  serve es s [] (rv_bytes <$> chunks) = serve_each es s (frame_bytes no_digest <$> fs).
Proof.
  intros Hf Hl Hc. assert (∀ rx chunks, rx ++ concat chunks = concat (frame_bytes no_digest <$> fs) →
    serve es s rx (rv_bytes <$> chunks) = serve_each es s (frame_bytes no_digest <$> fs)) as H; [|by apply H].
  clear chunks Hc. revert es s Hf Hl. induction fs as [|f fs IH]; intros es s Hf Hl rx chunks Hc; destruct es as [|e es]; try done.
  apply Forall_cons in Hf as [H1 Hf]. cbn [fmap list_fmap concat] in Hc.
  destruct (recv_frame _ no_digest f chunks rx _ H1 Hc) as (rx' & chunks' & Hr & Hc'). cbn [serve serve_each fmap list_fmap].
  rewrite Hr. destruct (serve_one e s (frame_bytes no_digest f)) as [[answer s']|] eqn:Hs; [|done].
  pose proof (serve_one_geo _ _ _ _ _ Hs) as Hg. rewrite (IH es s'); [done|by rewrite Hg|by injection Hl|done].
Qed.
