(* ===== verification/RemoteRun.v ===== *)
(** * Remote calls on a running server

    A server of one volume with 512-byte blocks, a proxy that logs in to it and writes a
    block, and a second server to fetch from: the theorems of the four remote files applied
    to them. *)

From S2P Require Import Prelude Codec WireTypes Wire Types Replica ReplicaSpec ReplicaRun ReplicaApplied Raft RaftSpec RaftRun Conn TcpServer WireClient.
From S2P Require Import Remote RemoteRead RemotePeer RemoteSession ServerRun.
From stdpp Require Import strings.

Local Open Scope craft_scope.
Local Open Scope Z_scope.

Definition no_raft : login_env :=
  Mk_login_env false false nil_uuid [] [] [] (Ok tt) (Ok tt) true.
Definition with_raft : login_env :=
  Mk_login_env true true nil_uuid [] [] [] (Ok tt) (Ok tt) true.
Definition follower : login_env :=
  Mk_login_env true false (replicate 16 7) [] [] [] (Ok tt) (Ok tt) true.
Definition env_of (l : login_env) : srv_env := Mk_srv_env l (Ok tt) 1.

Definition geo : server_geometry := Mk_geometry 1048576 512 524288 (Mk_member (replicate 16 3) [104; 58; 49]).
Definition server0 : craft_tcp_server := mk_server geo (Mk_replica_manager ∅ ∅).
Definition vol : list Z := replicate 16 2.
Definition proxy0 : CraftTcpReplica := mk_tcp_replica vol.

(** After the login, and after a write of the first block. *)
Definition net0 : network := server_net (env_of no_raft) server0.
Definition proxy1 : CraftTcpReplica := (tr_login true net0 proxy0 5).2.
Definition server1 : craft_tcp_server :=
  login_state server0 (set_mem (sv_replica server0) (replica_run (mk_replica (Mk_endpoint (replicate 16 3) [104; 58; 49]) 512) [op_login 5 1])).
Definition hdr1 (commit : Z) : client_hdr := Mk_client_hdr 1 commit (-1) 5.
Definition block : list Z := replicate 512 7.
Definition server2 : craft_tcp_server :=
  with_mem server1 (replica_run (ra_mem (sv_replica server1)) [op_write (hdr1 (-1)) 0 0 512 (Some block)]).

Lemma proxy1_bound : bound_to proxy1 server1 1.
Proof. split; by_eval. Qed.
Lemma proxy1_bound2 : bound_to proxy1 server2 1.
Proof. split; by_eval. Qed.
Lemma server2_inv : replica_inv (ra_mem (sv_replica server2)).
Proof.
  eapply (replica_steps_inv (mk_replica (Mk_endpoint (replicate 16 3) [104; 58; 49]) 512)
    [op_login 5 1; op_write (hdr1 (-1)) 0 0 512 (Some block)]); [apply mk_replica_inv; by_eval|].
  apply replica_run_steps. ops_ok_by_eval.
Qed.

Definition granted : LoginResult := Mk_LoginResult [Mk_endpoint (replicate 16 3) [104; 58; 49]] (-1) 0 0 0 nil_uuid 0.
Lemma granted_fits : login_fits server0 granted vol 5.
Proof.
  split; [split; by_eval|by_eval..|split_and!; by_eval| |by_eval].
  apply Forall_singleton. split; [split; by_eval|by_eval].
Qed.

Lemma tcp_login_binds_witness :
  (tr_login true net0 proxy0 5).1 =
    Ok (Mk_LoginResult [Mk_endpoint (replicate 16 3) [104; 58; 49]] (-1) 1 512 1048576 nil_uuid 524288) ∧
  bound_to proxy1 server1 1.
Proof.
  destruct (tcp_login_binds (env_of no_raft) server0 proxy0 true 5 granted None None (sv_replica server1) eq_refl
    ltac:(by_eval) granted_fits ltac:(vm_compute; reflexivity) eq_refl) as (H1 & _ & H3).
  split; [exact H1|exact H3].
Defined.

Lemma tcp_write_refines_witness :
  (tr_write true net0 (server_net (env_of no_raft) server1) proxy1 (hdr1 (-1)) 0 0 512 (Mk_sg 512 [block])).1 =
    Ok (Mk_lsn_pair (-1) 0).
Proof.
  destruct (tcp_write_refines (env_of no_raft) proxy1 server1 (hdr1 (-1)) true net0 0 0 512 (Mk_sg 512 [block])
    proxy1_bound ltac:(by_eval) ltac:(by_eval) ltac:(by_eval) ltac:(by_eval) ltac:(by_eval) ltac:(by_eval) ltac:(by_eval)
    ltac:(split; by_eval)) as [-> _]. vm_compute. reflexivity.
Defined.

Lemma tcp_keep_alive_refines_witness :
  (tr_keep_alive true net0 (server_net (env_of no_raft) server2) proxy1 (hdr1 0)).1 = Ok (Mk_lsn_pair 0 0).
Proof.
  destruct (tcp_keep_alive_refines (env_of no_raft) proxy1 server2 (hdr1 0) true net0 proxy1_bound2
    ltac:(by_eval) ltac:(by_eval) ltac:(split; by_eval)) as [-> _]. vm_compute. reflexivity.
Defined.

Lemma tcp_resolve_refines_witness :
  (tr_request_resolution true net0 (server_net (env_of no_raft) server2) proxy1 (hdr1 0) 2).1 =
    Ok (Mk_resolution_result 2 [1; 2]).
Proof.
  destruct (tcp_resolve_refines (env_of no_raft) proxy1 server2 (hdr1 0) true net0 2 proxy1_bound2
    ltac:(by_eval) ltac:(by_eval) ltac:(by_eval) ltac:(split; [by_eval|split; by_eval])) as [-> _]. vm_compute. reflexivity.
Defined.

(** A read of the block written and the hole behind it, into two iovecs. *)
Lemma tcp_read_refines_witness :
  ∃ layout iovs,
    (tr_read true net0 (server_net (env_of no_raft) server2) proxy1 (hdr1 (-1)) 0 0 1024
       (Mk_sg 1024 [replicate 600 9; replicate 424 9])).1 =
      Ok (Mk_read_result layout (Mk_lsn_pair (-1) 0), Mk_sg 1024 iovs) ∧
    concat iovs = block ++ replicate 512 0.
Proof.
  destruct (tcp_read_refines (env_of no_raft) proxy1 server2 (hdr1 (-1)) true net0 0 0 1024
    (Mk_sg 1024 [replicate 600 9; replicate 424 9]) proxy1_bound2 server2_inv ltac:(by_eval) ltac:(by_eval) ltac:(by_eval)
    ltac:(by_eval) ltac:(by_eval) ltac:(by_eval) ltac:(by_eval) ltac:(by_eval) ltac:(by_eval) ltac:(by_eval) ltac:(by_eval)
    ltac:(by_eval) ltac:(by_eval) ltac:(by_eval)
    ltac:(by_eval) ltac:(split; by_eval)) as (layout & iovs & iovs' & m' & Hl & Hr & Hc & _).
  exists layout, iovs'. vm_compute in Hl. injection Hl. intros Hm Hi Hlay. rewrite Hr, Hc, <-Hm, <-Hi. split; [done|].
  vm_compute. reflexivity.
Defined.

(** ** The peer plane *)

Definition link2 : peer_link := Mk_link (env_of with_raft) server2 mk_tcp_peer true.

Lemma fetch2_fits : fetch_fits server2 [0; 1].
Proof. split; [by_eval|by_eval|by_eval| |by_eval]. apply Forall_singleton. split_and!; by_eval. Qed.

Lemma tcp_poll_refines_witness :
  (peer_get_rs_commit_lsn true (server_net (env_of with_raft) server2) mk_tcp_peer 8 true).1 = Ok (Mk_lsn_pair (-1) 0).
Proof.
  destruct (tcp_poll_refines (env_of with_raft) server2 mk_tcp_peer true 8 true eq_refl ltac:(by_eval) ltac:(by_eval)
    ltac:(by_eval) ltac:(split; by_eval)) as [H _]. exact H.
Defined.

Lemma tcp_fetch_refines_witness :
  peer_fetch_data true (server_net (env_of with_raft) server2) mk_tcp_peer [0; 1] =
    Some (Ok [Mk_JournalSlot 0 false false 0 1 (Mk_sg 512 [block]) (Some block)], Mk_tcp_peer true 2).
Proof.
  rewrite (tcp_fetch_refines (env_of with_raft) server2 mk_tcp_peer true [0; 1] eq_refl ltac:(by_eval) fetch2_fits).
  vm_compute. reflexivity.
Defined.

(** The first peer cannot be reached. *)
Definition link_down : peer_link := Mk_link (env_of with_raft) server2 mk_tcp_peer false.
Lemma tcp_catch_up_witness :
  commit_of (ra_mem (run_task (tcp_peer <$> [link_down; link2]) (sv_replica server1) (task_sync (Mk_sync_msg 1 5 [1])))) = 1.
Proof.
  rewrite (tcp_catch_up [link_down; link2] (sv_replica server1) (Mk_sync_msg 1 5 [1])); [vm_compute; reflexivity|].
  change (get_missing_slots _ _) with [0].
  assert (∀ b, link_ok (Mk_link (env_of with_raft) server2 mk_tcp_peer b) [0]) as H; [|apply Forall_cons; split; [apply H|]; apply Forall_singleton, H].
  intros b. split; [by_eval..| |by_eval|]; apply Forall_singleton; [split_and!; by_eval|intros _; discriminate].
Defined.

(** A peer that holds a write of 512 KiB. *)
Definition big_block : list Z := replicate (Z.to_nat k_default_max_tx) 7.
Definition server_big : craft_tcp_server :=
  with_mem server1 (set_journal (ra_mem (sv_replica server1)) {[0 := Mk_slot 1 0 1024 false false (Some big_block)]}).
Definition big_slot : JournalSlot := Mk_JournalSlot 0 false false 0 1024 (Mk_sg k_default_max_tx [big_block]) None.

Lemma full_write_not_fetched_witness :
  tcp_peer (Mk_link (env_of with_raft) server_big mk_tcp_peer true) [0] = None.
Proof.
  assert (srv_fetch_data (sv_replica server_big) [0] = [big_slot]) as Hf.
  { change (do_fetch (ra_mem (sv_replica server_big)) [0] = [big_slot]). unfold do_fetch. cbn [omap list_omap].
    change (journal_ (ra_mem (sv_replica server_big))) with ({[0 := Mk_slot 1 0 1024 false false (Some big_block)]} : gmap Z MemJournalSlot).
    rewrite lookup_singleton_eq. cbn [fmap option_fmap option_map]. unfold fetch_slot, big_slot. cbn [js_is_empty js_all_zeros js_lba js_len js_bytes orb].
    unfold big_block. by rewrite length_replicate, Z2Nat.id by done. }
  assert (length (slot_bytes big_slot) = Z.to_nat k_default_max_tx) as Hl.
  { change (length (big_block ++ []) = Z.to_nat k_default_max_tx). rewrite app_nil_r. apply length_replicate. }
  apply (full_write_not_fetched _ _ big_slot); cbn [lk_server]; rewrite ?Hf; [|by left|rewrite Hl, Z2Nat.id; done].
  split; cbn [lk_server lk_peer]; rewrite ?Hf; by_eval.
Defined.

Lemma fetch_length_overflow_witness :
  fetch_reply_of (Mk_message (Mk_msg_hdr (op_code op_fetch_data_rsp) (status_byte st_ok) 1 32)
    (enc fetch_data_rsp_codec (Mk_fetch_data_rsp 1 0))
    (enc fetch_slot_desc_codec (Mk_fetch_slot_desc 0 0 1 (2 ^ 64 - 1) 0 0 [0; 0])) 48) = None.
Proof. apply fetch_length_overflow; [split_and!; by_eval|by_eval|by_eval|by_eval]. Defined.

(** ** Sessions *)

Definition refused_req : message :=
  Mk_message (Mk_msg_hdr (op_code login) 0 1 0) (enc login_req_codec (Mk_login_req vol 5)) [] 32.
Lemma login_refusal_unreadable_witness :
  recv_message [] k_max_tx no_digest (rv_bytes <$> [(on_login (env_of follower) server0 refused_req).1]) = None.
Proof.
  apply (login_refusal_unreadable (env_of follower) server0 refused_req _ true proxy0 5); [|by_eval|by rewrite concat_cons, app_nil_r].
  vm_compute. discriminate.
Defined.

Lemma tcp_helo_fences_witness :
  (ensure_bound true (server_net (env_of with_raft) server2) proxy0 1 5).1 = None ∧
  (ensure_bound true (server_net (env_of with_raft) server2) proxy0 2 5).1 = Some (ec_craft STALE_TERM).
Proof.
  split.
  - pose proof (tcp_helo_fences (env_of with_raft) server2 proxy0 true 5 1 eq_refl ltac:(by_eval) ltac:(split; by_eval)
      ltac:(by_eval) ltac:(by_eval) ltac:(by_eval) eq_refl eq_refl) as H.
    rewrite decide_True in H by by_eval. exact (proj1 H).
  - pose proof (tcp_helo_fences (env_of with_raft) server2 proxy0 true 5 2 eq_refl ltac:(by_eval) ltac:(split; by_eval)
      ltac:(by_eval) ltac:(by_eval) ltac:(by_eval) eq_refl eq_refl) as H.
    rewrite decide_False in H by by_eval. exact (proj1 H).
Defined.

(** A member that was never logged in to, with the session's term 1. *)
Lemma helo_without_raft_stale_witness :
  (ensure_bound true (server_net (env_of no_raft) server0) proxy0 1 5).1 = None ∧
  ∃ s', bound_to (ensure_bound true (server_net (env_of no_raft) server0) proxy0 1 5).2 s' 1 ∧
    (do_keep_alive (ra_mem (sv_replica s')) (hdr1 (-1))).1 = Err (ec_craft STALE_TERM).
Proof.
  destruct (helo_without_raft_stale (env_of no_raft) server0 proxy0 true 5 1 eq_refl ltac:(by_eval) ltac:(split; by_eval)
      ltac:(by_eval) ltac:(by_eval) ltac:(by_eval) eq_refl eq_refl ltac:(by_eval)) as (H1 & s' & H2 & _ & H3).
  split; [exact H1|]. exists s'. split; [exact H2|]. by apply H3.
Defined.

(** ** Runs of the server *)

(** dLSN 0 is written, committed by the write of dLSN 1, and written again with another
    payload; then bytes that are no message arrive. *)
Definition run1 : list (srv_env * list Z) :=
  (λ msg, (env_of no_raft, msg)) <$>
    [write_request (tr_conn proxy1) 0 0 512 block (-1) (-1); write_request (tr_conn proxy1) 1 512 512 block 0 (-1);
     write_request (tr_conn proxy1) 0 0 512 (replicate 512 8) 0 (-1); [1; 2; 3]].
Definition server3 : craft_tcp_server := server_run server1 run1.

Lemma server1_inv : replica_inv (ra_mem (sv_replica server1)).
Proof.
  apply (replica_steps_inv (mk_replica (Mk_endpoint (replicate 16 3) [104; 58; 49]) 512) [op_login 5 1]);
    [apply mk_replica_inv; by_eval|]. apply replica_run_steps. ops_ok_by_eval.
Qed.

Lemma server_refines_raft_witness :
  commit_of (ra_mem (sv_replica server3)) = 0 ∧ journal_inv (ra_mem (sv_replica server3)) ∧
  ∃ A', applied A' (ra_mem (sv_replica server3)).
Proof.
  split; [vm_compute; reflexivity|].
  destruct (server_refines_raft (J := list (string * jvalue)) (committed_slots (ra_mem (sv_replica server1))) server1 run1) as (_ & (A' & _ & HA) & _ & Hj & _);
    [|constructor|exact (inv_applied _ server1_inv)|by destruct server1_inv|split; [exact Hj|by exists A']].
  apply Forall_fmap, Forall_forall. intros msg Hm. split; [|constructor]. cbn [snd].
  repeat (apply elem_of_cons in Hm as [->|Hm]; [by_eval|]). by apply not_elem_of_nil in Hm.
Defined.

(** A login and a write in one stream cut in two. *)
Definition stream : list wire_frame :=
  [Mk_frame login 0 1 (enc login_req_codec (Mk_login_req vol 5)) [];
   Mk_frame write 0 2 (enc write_req_codec (Mk_write_req (Mk_req_hdr (-1) (-1)) 0 0 512)) block].
Lemma serve_in_order_witness :
  let bytes := concat (frame_bytes no_digest <$> stream) in
  length (serve [env_of no_raft; env_of no_raft] server0 [] (rv_bytes <$> [take 40 bytes; drop 40 bytes])).1 = 2%nat.
Proof.
  intros bytes. rewrite (serve_in_order _ _ stream); [vm_compute; reflexivity| |done|].
  - repeat (apply Forall_cons; split; [by_eval|]). by apply Forall_nil.
  - cbn [concat]. by rewrite app_nil_r, take_drop.
Defined.
