(* ===== verification/ClusterServer.v ===== *)
(** * The cluster server

    [craft_cluster_server] of [src/net/cluster_server.cpp]: the in-process cluster of
    [Cluster] behind TCP, one listener per member and one session for all connections.  Each
    connection keeps its member, the term it is bound at and whether it is bound.  One
    definition per handler, from the parsed request to the frame it sends and what it leaves.

    A member with a delay sleeps between a request's checks and its effect, while other
    connections go on: [before] is the server whose faults the checks see, [s] the one the
    rest meets, the same one when there is no delay.  Sockets and threads are not modelled; the ports the
    listeners get are an argument. *)

From S2P Require Import Prelude Codec WireTypes Wire Types Replica Cluster Conn TcpServer.
From stdpp Require Import strings pretty.

Local Open Scope craft_scope.
Local Open Scope Z_scope.

(** ** State *)

Record craft_cluster_server := Mk_cluster_server {
  cs_page_size : Z;
  cs_capacity : Z;
  cs_max_tx : Z;
  cs_vol_id : volume_id_t;
  cs_net : MemTransport;
  cs_members : list member;
  cs_sess_active : bool;
  cs_sess_term : Z;
}.
(** One connection: the member whose port it came in on, and its binding. *)
Record cluster_conn := Mk_cluster_conn { cn_replica : peer_id_t; cn_term : Z; cn_bound : bool }.
Definition mk_cluster_conn (id : peer_id_t) : cluster_conn := Mk_cluster_conn id 0 false.

(** The constructor and [start] with the ports it binds. *)
Definition cluster_vol_id : volume_id_t := (λ i, wrap 8 (192 + i)) <$> range 0 15.
Definition loopback_addr (port : Z) : list Z := string_bytes ("127.0.0.1:" +:+ pretty port).
Definition mk_cluster_server (n page_size capacity max_tx : Z) (ports : list Z) : craft_cluster_server :=
  let net := make_mem_replica_group cluster_vol_id n page_size (2 ^ 30) k_default_max_tx in
  Mk_cluster_server page_size capacity max_tx cluster_vol_id net
    (zip_with (λ m port, Mk_member (ep_id m) (loopback_addr port)) (members_ net) ports) false 0.
(** The index of the leader: the last match of the constructor's loop. *)
Definition leader_index (s : craft_cluster_server) : nat :=
  foldl (λ acc '(i, m), if decide (ep_id m = leader (cs_net s)) then i else acc) 0%nat
    (imap pair (members_ (cs_net s))).

Definition cs_set_net (s : craft_cluster_server) (t : MemTransport) : craft_cluster_server :=
  Mk_cluster_server (cs_page_size s) (cs_capacity s) (cs_max_tx s) (cs_vol_id s) t (cs_members s) (cs_sess_active s) (cs_sess_term s).
Definition cs_set_session (s : craft_cluster_server) (active : bool) (term : Z) : craft_cluster_server :=
  Mk_cluster_server (cs_page_size s) (cs_capacity s) (cs_max_tx s) (cs_vol_id s) (cs_net s) (cs_members s) active term.
(** The member's replica, and the server after an operation on it. *)
Definition cs_replica (s : craft_cluster_server) (c : cluster_conn) : option MemCraftReplica :=
  replica_for (cs_net s) (cn_replica c).
Definition cs_put (s : craft_cluster_server) (c : cluster_conn) (m : MemCraftReplica) : craft_cluster_server :=
  cs_set_net s (set_by_id (cs_net s) (<[cn_replica c := m]> (by_id_ (cs_net s)))).
Definition conn_hdr (c : cluster_conn) (h : req_hdr) : client_hdr :=
  Mk_client_hdr (cn_term c) (rh_commit_lsn h) (rh_all_committed_lsn h) 0.

(** ** Faults and observers *)

Definition member_id (s : craft_cluster_server) (idx : nat) : peer_id_t :=
  default nil_uuid (ep_id <$> members_ (cs_net s) !! idx).
Definition cs_set_replica_up (idx : nat) (up : bool) (s : craft_cluster_server) : craft_cluster_server :=
  cs_set_net s (net_set_up (member_id s idx) up (cs_net s)).
Definition cs_force_subquorum (keep : list nat) (s : craft_cluster_server) : craft_cluster_server :=
  cs_set_net s (force_subquorum (member_id s <$> keep) (cs_net s)).
Definition cs_clear_faults (s : craft_cluster_server) : craft_cluster_server := cs_set_net s (net_clear_faults (cs_net s)).
Definition cs_set_delay (idx : nat) (d : Z) (s : craft_cluster_server) : craft_cluster_server :=
  cs_set_net s (net_set_delay (member_id s idx) d (cs_net s)).
Definition cs_replica_term (s : craft_cluster_server) (idx : nat) : Z :=
  match replica_for (cs_net s) (member_id s idx) with Some r => rt_term (stats_of r) | None => 0 end.
Definition cs_journal_slots (s : craft_cluster_server) (idx : nat) : nat :=
  match replica_for (cs_net s) (member_id s idx) with Some r => rt_journal_slots (stats_of r) | None => 0%nat end.
(** [read_replica]: whether the read was served, the buffer it filled, and the server after it. *)
Definition cs_read_replica (s : craft_cluster_server) (idx : nat) (read_lsn addr len : Z) :
    option (bool * list Z * craft_cluster_server) :=
  let c := Mk_cluster_conn (member_id s idx) (cs_sess_term s) true in
  let dest := replicate (Z.to_nat len) 0 in
  m ← cs_replica s c;
  '(r, m) ← do_read m (Mk_client_hdr (cs_sess_term s) (-1) (-1) 0) read_lsn addr len (Mk_sg len [dest]);
  match r with
  | Err _ => Some (false, dest, cs_put s c m)
  | Ok (_, d) => Some (true, concat (sg_iovs d), cs_put s c m)
  end.

(** ** Sessions *)

Definition empty_login_rsp : login_rsp := Mk_login_rsp 0 0 0 0 0 0 0 (replicate 16 0).
Definition cs_login_rsp (s : craft_cluster_server) (lr : LoginResult) (count : Z) (hint : list Z) : login_rsp :=
  Mk_login_rsp (lg_term lr) (lg_dLSN lr) (cs_capacity s) (cs_page_size s) (cs_max_tx s) count 0 hint.

Definition cs_on_login (s : craft_cluster_server) (c : cluster_conn) (req : message) :
    list Z * craft_cluster_server * cluster_conn :=
  let lreq := dec login_req_codec (m_op_header req) in
  let answer code rsp body := reply op_login_rsp code req (enc login_rsp_codec rsp) body in
  if negb (bool_decide (lq_volume_id lreq = cs_vol_id s)) then (answer st_invalid_argument empty_login_rsp [], s, c)
  else
    let '(r, t) := run_login (cs_net s) (cn_replica c) (lq_client_token lreq) in
    let s := cs_set_net s t in
    match r with
    | Err e => (answer (to_wire_status e) empty_login_rsp [], s, c)
    | Ok lr =>
        if lg_term lr =? 0 then (answer st_ok (cs_login_rsp s lr 0 (lg_leader_hint lr)) [], s, c)
        else
          (answer st_ok (cs_login_rsp s lr (u32 (Z.of_nat (length (cs_members s)))) (replicate 16 0))
             (foldl put_member [] (cs_members s)),
           cs_set_session s true (lg_term lr), Mk_cluster_conn (cn_replica c) (lg_term lr) true)
    end.

Definition cs_on_helo (s : craft_cluster_server) (c : cluster_conn) (req : message) :
    list Z * craft_cluster_server * cluster_conn :=
  let hreq := dec helo_req_codec (m_op_header req) in
  if cs_sess_active s && (hq_term hreq =? cs_sess_term s)
  then (reply helo_rsp st_ok req [] [], s, Mk_cluster_conn (cn_replica c) (cs_sess_term s) true)
  else (reply helo_rsp st_stale_term req [] [], s, c).

Definition cs_on_logout (s : craft_cluster_server) (c : cluster_conn) (req : message) :
    list Z * craft_cluster_server * cluster_conn :=
  let answer code := reply logout_rsp code req [] [] in
  if negb (cn_bound c) then (answer st_stale_term, s, c)
  else
    let '(r, t) := run_logout (cs_net s) (cn_replica c) in
    let s := cs_set_net s t in
    match r with
    | Err e => (answer (to_wire_status e), s, c)
    | Ok _ => (answer st_ok, cs_set_session s false 0, Mk_cluster_conn (cn_replica c) (cn_term c) false)
    end.

(** ** Requests *)

(** [None] throughout: the connection's member has no replica, or a read reads an invalid
    page. *)
Definition cs_on_write (before s : craft_cluster_server) (c : cluster_conn) (req : message) :
    option (list Z * craft_cluster_server) :=
  let wr := dec write_req_codec (m_op_header req) in
  let id := cn_replica c in
  let answer code lsns := reply op_write_rsp code req (enc write_rsp_codec (Mk_write_rsp (lp_commit lsns) (lp_last_append lsns))) [] in
  if negb (cn_bound c) then m ← cs_replica s c; Some (answer st_stale_term (peek_lsns m), s)
  else if negb (net_is_up (cs_net before) id) || negb (net_write_allowed (cs_net before) id)
  then m ← cs_replica s c; Some (answer st_replica_down (peek_lsns m), s)
  else
    m ← cs_replica s c;
    let '(r, m) := do_write m (conn_hdr c (wq_hdr wr)) (wq_dlsn wr) (wq_addr wr) (wq_len wr) (payload_arg (m_body req)) in
    match r with
    | Err e => Some (answer (to_wire_status e) (peek_lsns m), cs_put s c m)
    | Ok lsns => Some (answer st_ok lsns, cs_put s c m)
    end.

Definition cs_on_read (before s : craft_cluster_server) (c : cluster_conn) (req : message) :
    option (list Z * craft_cluster_server) :=
  let rr := dec read_req_codec (m_op_header req) in
  let answer code rsp body := reply op_read_rsp code req (enc read_rsp_codec rsp) body in
  if negb (cn_bound c) then Some (answer st_stale_term (Mk_read_rsp 0 0 0 0) [], s)
  else if negb (net_is_up (cs_net before) (cn_replica c)) then Some (answer st_replica_down (Mk_read_rsp 0 0 0 0) [], s)
  else
    m ← cs_replica s c;
    '(r, m) ← do_read m (conn_hdr c (rq_hdr rr)) (rq_read_lsn rr) (rq_addr rr) (rq_len rr)
                (Mk_sg (rq_len rr) [replicate (Z.to_nat (rq_len rr)) 0]);
    let s := cs_put s c m in
    match r with
    | Err e =>
        let lsns := peek_lsns m in
        Some (answer (to_wire_status e) (Mk_read_rsp (lp_commit lsns) (lp_last_append lsns) 0 0) [], s)
    | Ok (res, dest) =>
        let lsns := rd_lsns res in
        let layout := rd_extents res in
        Some (answer st_ok (Mk_read_rsp (lp_commit lsns) (lp_last_append lsns) (u32 (Z.of_nat (length layout))) 0)
                (enc_array extent_desc_codec (desc_of_extent <$> layout) ++
                 pack_extents (rq_addr rr) (concat (sg_iovs dest)) layout), s)
    end.

Definition cs_on_keep_alive (before s : craft_cluster_server) (c : cluster_conn) (req : message) :
    option (list Z * craft_cluster_server) :=
  let ka := dec keepalive_req_codec (m_op_header req) in
  let answer code rsp := reply op_keepalive_rsp code req (enc keepalive_rsp_codec rsp) [] in
  let none := Mk_keepalive_rsp (-1) (-1) in
  if negb (cn_bound c) then Some (answer st_stale_term none, s)
  else if negb (net_is_up (cs_net before) (cn_replica c)) then Some (answer st_replica_down none, s)
  else
    m ← cs_replica s c;
    let '(r, m) := do_keep_alive m (conn_hdr c (kq_hdr ka)) in
    match r with
    | Err e => Some (answer (to_wire_status e) none, cs_put s c m)
    | Ok lsns => Some (answer st_ok (Mk_keepalive_rsp (lp_commit lsns) (lp_last_append lsns)), cs_put s c m)
    end.

Definition cs_on_resolve (s : craft_cluster_server) (c : cluster_conn) (req : message) :
    list Z * craft_cluster_server :=
  let rq := dec resolve_req_codec (m_op_header req) in
  let answer code rsp body := reply op_resolve_rsp code req (enc resolve_rsp_codec rsp) body in
  let none := Mk_resolve_rsp 0 0 0 in
  if negb (cn_bound c) then (answer st_stale_term none [], s)
  else if negb (net_is_up (cs_net s) (cn_replica c)) then (answer st_replica_down none [], s)
  else
    let '(r, t) := run_resolution (cs_net s) (cn_replica c) (cn_term c) (vq_upto rq) in
    match r with
    | Err e => (answer (to_wire_status e) none [], cs_set_net s t)
    | Ok res =>
        (answer st_ok (Mk_resolve_rsp (rs_resolved_upto res) (u32 (Z.of_nat (length (rs_empty_slots res)))) 0)
           (enc_array cint64 (rs_empty_slots res)), cs_set_net s t)
    end.

(** ** Dispatch *)

(** One message of [serve]: the frame sent, the server and the connection after it; [None]
    when the connection is dropped. *)
Definition cs_serve_one (before s : craft_cluster_server) (c : cluster_conn) (msg : list Z) :
    option (list Z * craft_cluster_server * cluster_conn) :=
  match parse_message msg (cs_max_tx s) no_digest with
  | Err _ => None
  | Ok req =>
      let o := mh_op (m_hdr req) in
      let keep '(answer, s') := (answer, s', c) in
      if o =? op_code login then Some (cs_on_login s c req)
      else if o =? op_code helo then Some (cs_on_helo s c req)
      else if o =? op_code write then keep <$> cs_on_write before s c req
      else if o =? op_code read then keep <$> cs_on_read before s c req
      else if o =? op_code keepalive then keep <$> cs_on_keep_alive before s c req
      else if o =? op_code resolve then Some (keep (cs_on_resolve s c req))
      else if o =? op_code logout then Some (cs_on_logout s c req)
      else None
  end.
