(* ===== verification/ClusterServerRun.v ===== *)
(** * Sessions of the cluster server

    A login on the leader fences every connection of the sessions before it, on every member
    it reached; and what the handlers get wrong: a LOGOUT is not fenced, so a connection left
    from an earlier session ends the current one, and the status of a failed LOGIN is dropped
    by the client, which takes it for a redirect. *)

From S2P Require Import Prelude Codec WireTypes Wire Types Replica ReplicaSpec ReplicaRun Cluster ClusterSpec ClusterRun.
From S2P Require Import Conn TcpServer WireClient Remote RemoteSession ClusterServer.

Local Open Scope craft_scope.
Local Open Scope Z_scope.

(** Putting back the replica that is there. *)
Lemma cs_put_same s c m : cs_replica s c = Some m → cs_put s c m = s.
Proof.
  unfold cs_replica, replica_for, cs_put, set_by_id, cs_set_net. intros Hm. destruct s as [? ? ? ? t ? ? ?]. cbn in *. rewrite insert_id by done.
  by destruct t.
Qed.

(** A reply with a status that is not ok. *)
Definition refusal (o : op) (req : message) (answer : list Z) : Prop :=
  ∃ code oh, code ≠ st_ok ∧ answer = reply o code req oh [].

Lemma error_code e : to_wire_status e ≠ st_ok.
Proof. by destruct (status_of_code e) as (_ & _ & ? & _). Qed.
(** A branch that refuses and changes nothing. *)
Ltac refused := eexists; split; [reflexivity|]; eexists _, _; split; [|reflexivity]; first [discriminate | apply error_code].

(** ** Fencing *)

Section stale.
Context (s : craft_cluster_server) (c : cluster_conn) (m : MemCraftReplica) (req : message) (before : craft_cluster_server).
Context (Hm : cs_replica s c = Some m) (Hterm : cn_term c ≠ term_of m).

Lemma stale_write : ∃ answer, cs_on_write before s c req = Some (answer, s) ∧ refusal op_write_rsp req answer.
Proof.
  unfold cs_on_write. set (wr := dec write_req_codec (m_op_header req)). rewrite Hm. cbn [mbind option_bind].
  destruct (stale_term_aux m (conn_hdr c (wq_hdr wr)) (wq_dlsn wr) (wq_addr wr) (wq_len wr) (payload_arg (m_body req)) 0
    (Mk_sg 0 []) 0 Hterm) as (_ & _ & (e & -> & _) & _). rewrite (cs_put_same s c m Hm).
  repeat case_match; refused.
Qed.
Lemma stale_read : ∃ answer, cs_on_read before s c req = Some (answer, s) ∧ refusal op_read_rsp req answer.
Proof.
  unfold cs_on_read. set (rr := dec read_req_codec (m_op_header req)). rewrite Hm. cbn [mbind option_bind].
  destruct (stale_term_aux m (conn_hdr c (rq_hdr rr)) 0 (rq_addr rr) (rq_len rr) None (rq_read_lsn rr)
    (Mk_sg (rq_len rr) [replicate (Z.to_nat (rq_len rr)) 0]) 0 Hterm) as (_ & _ & _ & (e & -> & _)).
  cbn [mbind option_bind]. rewrite (cs_put_same s c m Hm).
  repeat case_match; refused.
Qed.
Lemma stale_keep_alive : ∃ answer, cs_on_keep_alive before s c req = Some (answer, s) ∧ refusal op_keepalive_rsp req answer.
Proof.
  unfold cs_on_keep_alive. rewrite Hm. cbn [mbind option_bind].
  destruct (stale_term_aux m (conn_hdr c (kq_hdr (dec keepalive_req_codec (m_op_header req)))) 0 0 0 None 0
    (Mk_sg 0 []) 0 Hterm) as (-> & _). rewrite (cs_put_same s c m Hm).
  repeat case_match; refused.
Qed.
End stale.

Lemma stale_resolve s c req :
  cn_term c ≠ term_ (cs_net s) → ∃ answer, cs_on_resolve s c req = (answer, s) ∧ refusal op_resolve_rsp req answer.
Proof.
  intros Ht. unfold cs_on_resolve, run_resolution, resolution_gate. apply Z.eqb_neq in Ht. rewrite Ht. cbn [negb].
  assert (cs_set_net s (cs_net s) = s) as Hs by (by destruct s).
  destruct (cn_bound c); cbn [negb]; [|refused].
  destruct (net_is_up (cs_net s) (cn_replica c)); cbn [negb]; [|refused].
  destruct (bool_decide (cn_replica c = leader_ (cs_net s))); cbn [negb craft_fail]; rewrite Hs; refused.
Qed.

(** A login request that the leader of a live quorum can grant. *)
Record login_ready (s : craft_cluster_server) (c : cluster_conn) (req : message) : Prop := {
  lr_inv : cluster_inv (cs_net s);
  lr_up : net_is_up (cs_net s) (cn_replica c) = true;
  lr_leader : cn_replica c = leader_ (cs_net s);
  lr_room : term_ (cs_net s) < 2 ^ 64 - 1;
  lr_quorum : (quorum (length (members_ (cs_net s))) ≤ length (live_replicas (cs_net s)))%nat;
  lr_vol : lq_volume_id (dec login_req_codec (m_op_header req)) = cs_vol_id s;
}.

Lemma cs_login_granted s c req :
  login_ready s c req →
  let '(_, s', c') := cs_on_login s c req in
  cs_sess_active s' = true ∧ cs_sess_term s' = term_ (cs_net s) + 1 ∧ term_ (cs_net s') = term_ (cs_net s) + 1 ∧
  c' = Mk_cluster_conn (cn_replica c) (term_ (cs_net s) + 1) true ∧ cluster_inv (cs_net s') ∧
  ∀ id, id ∈ live_replicas (cs_net s) → ∃ m, by_id_ (cs_net s') !! id = Some m ∧ term_of m = term_ (cs_net s) + 1.
Proof.
  intros [I Hup Hl Ht Hq Hv]. unfold cs_on_login. rewrite Hv, bool_decide_eq_true_2 by done. cbn [negb].
  set (tok := lq_client_token (dec login_req_codec (m_op_header req))).
  pose proof (run_login_lookup (cs_net s) (cn_replica c) tok I Hup Hl Hq) as Hc. cbv zeta in Hc.
  destruct (run_login_aux (cs_net s) (cn_replica c) tok I Hup Hl Ht Hq) as (t' & Hr & I' & _ & Hin). rewrite Hr in Hc |- *.
  pose proof (cv_term _ I) as Hct. cbn [lg_term]. rewrite (proj2 (Z.eqb_neq _ _)) by lia.
  destruct Hc as (_ & Hcfg & _). assert (term_ t' = term_ (cs_net s) + 1) as Htt.
  { unfold same_config in Hcfg. destruct_and! Hcfg. cbn [set_term term_] in *.
    rewrite <-(wrap_small 64 (term_ (cs_net s) + 1)) by (unfold in_u; lia). done. }
  split_and!; try done. intros id Hid. destruct (live_registered _ id Hid) as [r Hlk]. destruct (Hin id r Hid Hlk) as [Hn Ha].
  eexists. split; [exact Hn|]. destruct (cv_replicas _ I id r Hlk) as [Ir _].
  by destruct (login_replica_spec _ tok (term_ (cs_net s) + 1) r Ir Ha) as (_ & _ & ? & _).
Qed.

(** A login on the leader's port opens the next session and fences the ones before it: a
    connection still bound at an earlier term, to any member that was live, has its writes,
    reads, keep-alives and resolution rounds refused without effect, and a HELO at an
    earlier term does not bind. *)
Theorem cluster_login_fences s c req :
  login_ready s c req →
  let '(_, s', c') := cs_on_login s c req in
  cs_sess_active s' = true ∧ cs_sess_term s' = term_ (cs_net s) + 1 ∧ cn_bound c' = true ∧ cn_term c' = cs_sess_term s' ∧
  ∀ old rq before, cn_term old ≤ term_ (cs_net s) → cn_replica old ∈ live_replicas (cs_net s) →
    (∃ answer, cs_on_write before s' old rq = Some (answer, s') ∧ refusal op_write_rsp rq answer) ∧
    (∃ answer, cs_on_read before s' old rq = Some (answer, s') ∧ refusal op_read_rsp rq answer) ∧
    (∃ answer, cs_on_keep_alive before s' old rq = Some (answer, s') ∧ refusal op_keepalive_rsp rq answer) ∧
    (∃ answer, cs_on_resolve s' old rq = (answer, s') ∧ refusal op_resolve_rsp rq answer) ∧
    (hq_term (dec helo_req_codec (m_op_header rq)) ≤ term_ (cs_net s) →
     cs_on_helo s' old rq = (reply helo_rsp st_stale_term rq [] [], s', old)).
Proof.
  intros R. pose proof (cs_login_granted s c req R) as H. destruct (cs_on_login s c req) as [[a s'] c'].
  destruct H as (Ha & Hst & Htt & -> & I' & Hin). split_and!; try done.
  intros old rq before Hold Hlive. destruct (Hin _ Hlive) as (m & Hm & Hmt).
  assert (cn_term old ≠ term_of m) as Hne by lia.
  split_and!; [by eapply stale_write|by eapply stale_read|by eapply stale_keep_alive|apply stale_resolve; lia|].
  intros Hh. unfold cs_on_helo. rewrite Hst, (proj2 (Z.eqb_neq _ _)) by lia. by rewrite andb_false_r.
Qed.

(** ** Logout *)

(** LOGOUT checks that its connection is bound, not the term it is bound at: a connection to
    the leader left from an earlier session ends the current one, on every live member. *)
Theorem stale_logout_ends_session s c req :
  cluster_inv (cs_net s) → net_is_up (cs_net s) (cn_replica c) = true → cn_replica c = leader_ (cs_net s) →
  cn_bound c = true →
  let '(answer, s', _) := cs_on_logout s c req in
  answer = reply logout_rsp st_ok req [] [] ∧ cs_sess_active s' = false ∧
  ∀ id, id ∈ live_replicas (cs_net s) → ∃ m, by_id_ (cs_net s') !! id = Some m ∧ term_of m = 0.
Proof.
  intros I Hup Hl Hb. unfold cs_on_logout. rewrite Hb. cbn [negb]. unfold run_logout.
  rewrite Hup, bool_decide_eq_true_2 by done. cbn [negb]. split_and!; [done|done|].
  intros id Hid. cbn [cs_set_session cs_net cs_set_net].
  destruct (live_registered _ id Hid) as [r Hlk].
  destruct (updates_fold (on_replica cold_apply_logout) cold_apply_logout (cs_net s) (live_replicas (cs_net s))
    (on_replica_updates cold_apply_logout) (live_NoDup _ I)) as [_ Hlu].
  rewrite Hlu, decide_True, Hlk by done. by eexists.
Qed.

(** ** A failed login *)

(** The server at the other end of a connection. *)
Definition cluster_net (s : craft_cluster_server) (c : cluster_conn) : network :=
  λ frame, match cs_serve_one s s c frame with Some (answer, _, _) => Ok answer | None => Err ne_closed end.

(** A login that fails on the server, for whatever reason, succeeds on the client: the reply
    carries the error as its status, which the client does not look at, and a zero header,
    which reads as a redirect without a leader. *)
Theorem login_error_taken_for_redirect s c t reachable tok e :
  tr_connected t || reachable = true → in_u 16 (wc_next_rid (tr_conn t)) →
  tr_vol_id t = cs_vol_id s → length (tr_vol_id t) = 16%nat → bytes_ok (tr_vol_id t) → in_u 64 tok →
  in_u 32 (cs_max_tx s) → (run_login (cs_net s) (cn_replica c) tok).1 = Err e →
  (tr_login reachable (cluster_net s c) t tok).1 = Ok (Mk_LoginResult [] 0 0 0 0 (replicate 16 0) 0).
Proof.
  intros Hc Hrid Hvol Hl Hb Htok Hmax He. unfold tr_login.
  assert (∃ t', ensure_connected reachable t = (true, t') ∧ in_u 16 (wc_next_rid (tr_conn t')) ∧ tr_vol_id t' = tr_vol_id t)
    as (t' & Ht & Hr' & Hv).
  { unfold ensure_connected. destruct (tr_connected t) eqn:Htc; [by exists t|]. simpl in Hc. rewrite Hc.
    eexists. split_and!; [done|by_eval|done]. }
  rewrite Ht, Hv. set (req := Mk_login_req (tr_vol_id t) tok). assert (cvalid login_req_codec req) as Hvr by done.
  set (f := Mk_frame login 0 (wc_next_rid (tr_conn t')) (enc login_req_codec req) []).
  assert (frame_ok (cs_max_tx s) f) as Hf by by apply struct_frame_nil.
  assert (cluster_net s c (login_request (tr_conn t') (tr_vol_id t) tok) =
    Ok (frame_bytes no_digest (Mk_frame op_login_rsp (status_byte (to_wire_status e)) (wc_next_rid (tr_conn t'))
          (enc login_rsp_codec empty_login_rsp) []))) as Hn.
  { unfold cluster_net, cs_serve_one. change (login_request _ _ _) with (frame_bytes no_digest f). rewrite (parse_whole _ _ Hf).
    cbn [parsed_frame m_hdr frame_hdr mh_op wf_op]. cbn [Z.eqb op_code Pos.eqb]. unfold cs_on_login.
    cbn [parsed_frame m_op_header m_body m_hdr wf_oh wf_body f].
    rewrite <-(app_nil_r (enc login_req_codec req)), (dec_enc login_req_codec req []) by done. cbn [lq_volume_id lq_client_token req].
    rewrite bool_decide_eq_true_2 by done. cbn [negb]. destruct (run_login _ _ _) as [r t'']. cbn [fst] in He. by subst r. }
  destruct (exchange_net login_rsp_codec _ _ _ _ _ _ _ Hn) as (p & Hp & _ & Hpd & Hpb); try done;
    [split_and!; by_eval|apply status_of_code|constructor|by left|].
  unfold wc_login. rewrite Hp, Hpd, Hpb. done.
Qed.
