(* ===== verification/ClusterServerInv.v ===== *)
(** * Runs of the cluster server

    Many connections, their requests interleaved at will, with faults injected in between and
    delayed requests taking effect long after their checks: the cluster keeps its invariant,
    and the one session of the server is the cluster's current one. *)

From S2P Require Import Prelude Codec WireTypes Wire WireTyped Types Replica ReplicaSpec ReplicaRun Cluster ClusterSpec ClusterRun.
From S2P Require Import Conn TcpServer WireClient Remote ServerRun ClusterServer ClusterServerRun.

Local Open Scope craft_scope.
Local Open Scope Z_scope.

(** The session is the cluster's current term, and no connection is ahead of it. *)
Record cs_inv (s : craft_cluster_server) : Prop := {
  ci_net : cluster_inv (cs_net s);
  ci_session : cs_sess_active s = true → cs_sess_term s = term_ (cs_net s);
}.
Definition conn_ok (s : craft_cluster_server) (c : cluster_conn) : Prop :=
  cn_bound c = true → cn_term c ≤ term_ (cs_net s).

(** ** Client operations on one member *)

(** The operations a connection performs on its member keep the member's term. *)
Definition client_op (op : replica_op) : Prop :=
  match op with op_write _ _ _ _ _ | op_read _ _ _ _ _ | op_keep_alive _ => True | _ => False end.
Lemma client_op_term r op : client_op op → term_of (replica_exec r op) = term_of r.
Proof.
  assert (∀ n x, term_of (apply_up_to n x) = term_of x) as Ha by (intros; apply apply_loop_term).
  destruct op; try done; intros _; simpl.
  - apply do_write_term.
  - destruct (do_read r hdr read_lsn addr len dest) as [p|] eqn:Hr; [|done].
    apply do_read_state in Hr. destruct p as [res r']. cbn [snd] in Hr. destruct Hr as [->| ->]; [done|]. apply Ha.
  - unfold do_keep_alive. case_match; [done|]. cbn [snd]. etransitivity; [apply Ha|done].
Qed.

Lemma cs_put_inv s c m op :
  cs_inv s → cs_replica s c = Some m → op_ok m op → client_op op →
  cs_inv (cs_put s c (replica_exec m op)) ∧ term_ (cs_net (cs_put s c (replica_exec m op))) = term_ (cs_net s).
Proof.
  intros [[I1 I2 I3 I4 I5] Hs] Hm Hok Hop. split; [|done]. split; [|done].
  unfold cs_put, cs_set_net, set_by_id, cs_replica, replica_for in *. cbn [cs_net] in *.
  destruct (I3 _ _ Hm) as [Ir Ht]. pose proof (replica_exec_keeps m op Ir Hok) as (_ & Hp & _).
  split; cbn [members_ by_id_ term_ lba_size_]; try done.
  - intros x Hx. rewrite lookup_insert. case_decide; [by eexists|by apply I2].
  - intros id r. rewrite lookup_insert. case_decide; [|apply I3]. intros [= <-].
    split; [by apply replica_exec_inv|by rewrite client_op_term].
  - intros id r. rewrite lookup_insert. case_decide; [|apply I4]. intros [= <-]. rewrite Hp. by eapply I4.
Qed.

(** What the clients guarantee of a request: fresh writes, resolution rounds among members
    that agree on their verdicts, and room for another term. *)
Definition request_fresh (s : craft_cluster_server) (c : cluster_conn) (req : message) : Prop :=
  let wr := dec write_req_codec (m_op_header req) in
  (mh_op (m_hdr req) = op_code write → ∀ m, cs_replica s c = Some m →
     fresh_write m (conn_hdr c (wq_hdr wr)) (wq_dlsn wr) (wq_addr wr) (wq_len wr) (payload_arg (m_body req))) ∧
  (mh_op (m_hdr req) = op_code resolve → agreed (cs_net s) (live_replicas (cs_net s))) ∧
  term_ (cs_net s) < 2 ^ 64 - 1.

Section handlers.
Context (before s : craft_cluster_server) (c : cluster_conn) (req : message) (I : cs_inv s).
Let fine (s' : craft_cluster_server) : Prop := cs_inv s' ∧ term_ (cs_net s') = term_ (cs_net s).

Lemma fine_same : fine s.
Proof. by split. Qed.

Lemma cs_write_fine answer s' :
  bytes_ok (m_op_header req) → length (m_op_header req) = csize write_req_codec →
  mh_op (m_hdr req) = op_code write → request_fresh s c req →
  cs_on_write before s c req = Some (answer, s') → fine s'.
Proof.
  intros Hb Hl Ho [Hf _]. assert (Typed write_req_codec) as T by struct_typed.
  destruct (T (m_op_header req) Hb ltac:(lia)) as [Hv _]. specialize (Hf Ho). unfold cs_on_write.
  set (wr := dec write_req_codec (m_op_header req)) in *. destruct Hv as (_ & _ & Ha & Hn).
  destruct (cs_replica s c) as [m|] eqn:Hm; cbn [mbind option_bind]; [|by repeat case_match].
  pose proof (cs_put_inv s c m (op_write (conn_hdr c (wq_hdr wr)) (wq_dlsn wr) (wq_addr wr) (wq_len wr)
    (payload_arg (m_body req))) I Hm (conj Ha (conj Hn (Hf m eq_refl))) Logic.I) as Hp. cbn [replica_exec] in Hp.
  destruct (do_write m _ _ _ _ _) as [[l|e] m']; repeat case_match; intros [= _ <-]; first [exact Hp | exact fine_same].
Qed.

Lemma cs_read_fine answer s' : cs_on_read before s c req = Some (answer, s') → fine s'.
Proof.
  unfold cs_on_read. set (rr := dec read_req_codec (m_op_header req)).
  destruct (negb (cn_bound c)); [intros [= _ <-]; exact fine_same|].
  destruct (negb (net_is_up _ _)); [intros [= _ <-]; exact fine_same|].
  destruct (cs_replica s c) as [m|] eqn:Hm; cbn [mbind option_bind]; [|done]. set (dest := Mk_sg _ _).
  pose proof (cs_put_inv s c m (op_read (conn_hdr c (rq_hdr rr)) (rq_read_lsn rr) (rq_addr rr) (rq_len rr) dest)
    I Hm Logic.I Logic.I) as Hp. cbn [replica_exec] in Hp.
  destruct (do_read m _ _ _ _ _) as [[[[res d]|e] m']|]; cbn [mbind option_bind]; [..|done]; intros [= _ <-]; exact Hp.
Qed.

Lemma cs_keep_alive_fine answer s' : cs_on_keep_alive before s c req = Some (answer, s') → fine s'.
Proof.
  unfold cs_on_keep_alive. set (ka := dec keepalive_req_codec (m_op_header req)).
  destruct (negb (cn_bound c)); [intros [= _ <-]; exact fine_same|].
  destruct (negb (net_is_up _ _)); [intros [= _ <-]; exact fine_same|].
  destruct (cs_replica s c) as [m|] eqn:Hm; cbn [mbind option_bind]; [|done].
  pose proof (cs_put_inv s c m (op_keep_alive (conn_hdr c (kq_hdr ka))) I Hm Logic.I Logic.I) as Hp. cbn [replica_exec] in Hp.
  destruct (do_keep_alive m _) as [[l|e] m']; intros [= _ <-]; exact Hp.
Qed.

(** A change of the cluster that keeps its term. *)
Lemma net_fine t : cluster_inv t → term_ t = term_ (cs_net s) → fine (cs_set_net s t).
Proof. intros It Ht. split; [|done]. split; [done|]. cbn. rewrite Ht. apply I. Qed.

Lemma cs_resolve_fine :
  (agreed (cs_net s) (live_replicas (cs_net s))) → fine (cs_on_resolve s c req).2.
Proof.
  intros Ha. unfold cs_on_resolve. destruct (negb (cn_bound c)); [exact fine_same|].
  destruct (net_is_up (cs_net s) (cn_replica c)) eqn:Hup; cbn [negb]; [|exact fine_same].
  set (upto := vq_upto (dec resolve_req_codec (m_op_header req))).
  assert (fine (cs_set_net s (run_resolution (cs_net s) (cn_replica c) (cn_term c) upto).2)) as Hf.
  { destruct (resolution_gate (cs_net s) (cn_replica c) (cn_term c)) as [live|e] eqn:Hg.
    2:{ unfold run_resolution. rewrite Hg. apply net_fine; [apply I|done]. }
    unfold resolution_gate in Hg. rewrite Hup in Hg. cbn [negb] in Hg.
    destruct (bool_decide (cn_replica c = leader_ (cs_net s))) eqn:Hl; [|done]. apply bool_decide_eq_true_1 in Hl.
    destruct (Z.eqb_spec (cn_term c) (term_ (cs_net s))) as [Ht|]; [|done]. cbn [negb] in Hg.
    destruct (decide _) as [|Hq]; [done|]. apply Nat.nlt_ge in Hq.
    destruct (run_resolution_aux (cs_net s) (cn_replica c) (cn_term c) upto (ci_net _ I) Hup Hl Ht Hq Ha)
      as (t' & -> & Hcfg & I' & _). apply net_fine; [done|]. by destruct Hcfg as (_ & _ & ? & _). }
  by destruct (run_resolution (cs_net s) (cn_replica c) (cn_term c) upto) as [[res|e] t'].
Qed.
End handlers.

(** ** Sessions *)

Lemma run_login_cases s c tok :
  cs_inv s → term_ (cs_net s) < 2 ^ 64 - 1 →
  let '(r, t) := run_login (cs_net s) (cn_replica c) tok in
  (t = cs_net s ∧ ∀ lr, r = Ok lr → lg_term lr = 0) ∨
  (cluster_inv t ∧ term_ t = term_ (cs_net s) + 1 ∧ ∃ lr, r = Ok lr ∧ lg_term lr = term_ (cs_net s) + 1).
Proof.
  intros [I _] Hroom. destruct (login_gate (cs_net s) (cn_replica c)) as [g t0] eqn:Hg. unfold login_gate in Hg.
  destruct (net_is_up (cs_net s) (cn_replica c)) eqn:Hup; cbn [negb] in Hg.
  2:{ simplify_eq. unfold run_login, login_gate. rewrite Hup. by left. }
  destruct (bool_decide (cn_replica c = leader_ (cs_net s))) eqn:Hl; cbn [negb] in Hg.
  2:{ simplify_eq. unfold run_login, login_gate. rewrite Hup, Hl. left. split; [done|]. by intros lr [= <-]. }
  apply bool_decide_eq_true_1 in Hl. destruct (decide _) as [Hd|Hq] in Hg.
  { simplify_eq. unfold run_login, login_gate. rewrite Hup, bool_decide_eq_true_2, decide_True by done. by left. }
  apply Nat.nlt_ge in Hq. pose proof (run_login_lookup (cs_net s) (cn_replica c) tok I Hup Hl Hq) as Hc.
  destruct (run_login_aux (cs_net s) (cn_replica c) tok I Hup Hl Hroom Hq) as (t' & Hr & I' & _).
  cbv zeta in Hc. rewrite Hr in Hc |- *. destruct Hc as (_ & (_ & _ & Ht & _) & _). right. split_and!; [done| |by eexists].
  rewrite Ht. cbn. apply wrap_small. unfold in_u. pose proof (cv_term _ I). lia.
Qed.

Lemma cs_login_fine s c req :
  cs_inv s → conn_ok s c → term_ (cs_net s) < 2 ^ 64 - 1 →
  let '(_, s', c') := cs_on_login s c req in
  cs_inv s' ∧ conn_ok s' c' ∧ term_ (cs_net s) ≤ term_ (cs_net s').
Proof.
  intros I Hc Hroom. unfold cs_on_login. set (tok := lq_client_token (dec login_req_codec (m_op_header req))).
  destruct (negb _); [done|]. pose proof (run_login_cases s c tok I Hroom) as Hr.
  destruct (run_login (cs_net s) (cn_replica c) tok) as [r t]. destruct Hr as [[-> Hz]|(It & Ht & lr & -> & Hlt)].
  - assert (cs_set_net s (cs_net s) = s) as Hs by by destruct s.
    destruct r as [lr|e]; [|by rewrite Hs]. rewrite (Hz lr eq_refl), Z.eqb_refl. by rewrite Hs.
  - pose proof (cv_term _ (ci_net _ I)). rewrite (proj2 (Z.eqb_neq _ _)) by lia. rewrite Hlt. split_and!; [split; [done|]|..].
    + intros _. cbn. by rewrite Ht.
    + intros _. cbn. rewrite Ht. lia.
    + cbn. lia.
Qed.

Lemma cs_helo_fine s c req :
  cs_inv s → conn_ok s c →
  let '(_, s', c') := cs_on_helo s c req in s' = s ∧ conn_ok s c'.
Proof.
  intros I Hc. unfold cs_on_helo. destruct (cs_sess_active s) eqn:Ha; cbn [andb]; [|done].
  destruct (_ =? _); [|done]. split; [done|]. intros _. cbn. rewrite (ci_session _ I Ha). done.
Qed.

Lemma cs_logout_fine s c req :
  cs_inv s → conn_ok s c →
  let '(_, s', c') := cs_on_logout s c req in
  cs_inv s' ∧ conn_ok s' c' ∧ term_ (cs_net s') = term_ (cs_net s).
Proof.
  intros I Hc. unfold cs_on_logout. destruct (negb (cn_bound c)); [done|]. unfold run_logout.
  assert (cs_set_net s (cs_net s) = s) as Hs by by destruct s.
  destruct (negb (net_is_up _ _)); [by rewrite Hs|]. destruct (negb (bool_decide _)); [by rewrite Hs|].
  destruct (updates_fold (on_replica cold_apply_logout) cold_apply_logout (cs_net s) (live_replicas (cs_net s))
    (on_replica_updates cold_apply_logout) (live_NoDup _ (ci_net _ I))) as [(_ & _ & Ht & _) _].
  split_and!; [split; [|done]|done|by cbn]. cbn.
  apply (cluster_inv_updates _ cold_apply_logout); [apply I|apply on_replica_updates|apply live_NoDup, I|].
  intros id r _ _ Ir Hr. split_and!; [by apply cold_apply_logout_inv| |done].
  pose proof (cv_term _ (ci_net _ I)). cbn. unfold term_of. cbn. lia.
Qed.

(** ** Runs *)

Lemma cs_serve_fine before s c msg answer s' c' :
  cs_inv s → conn_ok s c → bytes_ok msg →
  (∀ req, parse_message msg (cs_max_tx s) no_digest = Ok req → request_fresh s c req) →
  cs_serve_one before s c msg = Some (answer, s', c') →
  cs_inv s' ∧ conn_ok s' c' ∧ term_ (cs_net s) ≤ term_ (cs_net s').
Proof.
  intros I Hc Hb Hf. unfold cs_serve_one. destruct (parse_message _ _ _) as [req|] eqn:Hp; [|done].
  destruct (message_parts _ _ _ Hb Hp) as [Hbo Hlo]. specialize (Hf req eq_refl).
  assert (∀ s', cs_inv s' ∧ term_ (cs_net s') = term_ (cs_net s) →
    cs_inv s' ∧ conn_ok s' c ∧ term_ (cs_net s) ≤ term_ (cs_net s')) as Hkeep.
  { intros s1 [I1 Ht]. split_and!; [done| |lia]. intros Hbd. rewrite Ht. by apply Hc. }
  destruct (Z.eqb_spec (mh_op (m_hdr req)) (op_code login)).
  { intros [= Hs]. pose proof (cs_login_fine s c req I Hc (proj2 (proj2 Hf))) as H. by rewrite Hs in H. }
  destruct (Z.eqb_spec (mh_op (m_hdr req)) (op_code helo)).
  { intros [= Hs]. pose proof (cs_helo_fine s c req I Hc) as H. rewrite Hs in H. destruct H as [-> ?]. done. }
  destruct (Z.eqb_spec (mh_op (m_hdr req)) (op_code write)) as [Ho|].
  { destruct (cs_on_write before s c req) as [[a s1]|] eqn:Hw; [|done]. cbn. intros [= _ <- <-]. rewrite Ho in Hlo. injection Hlo as Hlo.
    apply Hkeep. by apply (cs_write_fine before s c req I a). }
  destruct (Z.eqb_spec (mh_op (m_hdr req)) (op_code read)).
  { destruct (cs_on_read before s c req) as [[a s1]|] eqn:Hw; [|done]. cbn. intros [= _ <- <-].
    apply Hkeep. by apply (cs_read_fine before s c req I a). }
  destruct (Z.eqb_spec (mh_op (m_hdr req)) (op_code keepalive)).
  { destruct (cs_on_keep_alive before s c req) as [[a s1]|] eqn:Hw; [|done]. cbn. intros [= _ <- <-].
    apply Hkeep. by apply (cs_keep_alive_fine before s c req I a). }
  destruct (Z.eqb_spec (mh_op (m_hdr req)) (op_code resolve)) as [Ho|].
  { pose proof (cs_resolve_fine s c req I (proj1 (proj2 Hf) Ho)) as H. destruct (cs_on_resolve s c req) as [a s1].
    intros [= _ <- <-]. by apply Hkeep. }
  destruct (Z.eqb_spec (mh_op (m_hdr req)) (op_code logout)); [|done].
  intros [= Hs]. pose proof (cs_logout_fine s c req I Hc) as H. rewrite Hs in H. destruct H as (? & ? & ?). split_and!; [done|done|lia].
Qed.

(** Faults touch neither data nor terms. *)
Lemma fault_fine f t id :
  cluster_inv t → cluster_inv (on_replica (mutate_faults f) t id) ∧ term_ (on_replica (mutate_faults f) t id) = term_ t.
Proof.
  intros I. split; [|done]. apply (cluster_inv_updates (on_replica (mutate_faults f)) (mutate_faults f) t [id]);
    [done|apply on_replica_updates|apply NoDup_singleton|].
  intros x r _ _ Ir Hr. split_and!; [by apply mutate_faults_inv|done|done].
Qed.
Lemma faults_fine {A} (f : A → replica_faults → replica_faults) (name : A → peer_id_t) l t :
  cluster_inv t → let t' := foldl (λ t x, on_replica (mutate_faults (f x)) t (name x)) t l in
  cluster_inv t' ∧ term_ t' = term_ t.
Proof.
  revert t. induction l as [|x l IH]; intros t I; [done|]. cbn [foldl].
  destruct (fault_fine (f x) t (name x) I) as [I1 Ht]. by destruct (IH _ I1) as [? ->].
Qed.

Lemma read_replica_fine s idx read_lsn addr len ok d s' :
  cs_inv s → cs_read_replica s idx read_lsn addr len = Some (ok, d, s') →
  cs_inv s' ∧ term_ (cs_net s') = term_ (cs_net s).
Proof.
  intros I. unfold cs_read_replica. set (c := Mk_cluster_conn _ _ _). set (dest := Mk_sg _ _). set (hdr := Mk_client_hdr _ _ _ _).
  destruct (cs_replica s c) as [m|] eqn:Hm; cbn [mbind option_bind]; [|done].
  pose proof (cs_put_inv s c m (op_read hdr read_lsn addr len dest) I Hm Logic.I Logic.I) as Hp. cbn [replica_exec] in Hp.
  destruct (do_read m _ _ _ _ _) as [[[[res d']|e] m']|]; cbn [mbind option_bind]; [..|done]; intros [= _ _ <-]; exact Hp.
Qed.

(** The calls a test makes on the server itself. *)
Inductive fault_call : Type :=
| call_set_up (idx : nat) (up : bool)
| call_subquorum (keep : list nat)
| call_clear
| call_set_delay (idx : nat) (d : Z).
Definition run_fault (f : fault_call) (s : craft_cluster_server) : craft_cluster_server :=
  match f with
  | call_set_up idx up => cs_set_replica_up idx up s
  | call_subquorum keep => cs_force_subquorum keep s
  | call_clear => cs_clear_faults s
  | call_set_delay idx d => cs_set_delay idx d s
  end.
Lemma run_fault_fine f s : cs_inv s → cs_inv (run_fault f s) ∧ term_ (cs_net (run_fault f s)) = term_ (cs_net s).
Proof.
  intros I. assert (∀ t, cluster_inv t ∧ term_ t = term_ (cs_net s) → cs_inv (cs_set_net s t) ∧ term_ t = term_ (cs_net s)) as Hs.
  { intros t [It Ht]. by apply net_fine. }
  pose proof (ci_net _ I) as In. destruct f as [idx up|keep| |idx d]; cbn [run_fault]; apply Hs.
  - apply fault_fine, In.
  - exact (faults_fine (λ m x, Mk_faults (rf_up x) (negb (negb (bool_decide (ep_id m ∈ member_id s <$> keep)))) (rf_delay x)) ep_id _ _ In).
  - exact (faults_fine (λ _ _, no_faults) ep_id _ _ In).
  - apply fault_fine, In.
Qed.

(** The server with its open connections, one step at a time: a listener accepts, a
    connection is served one message (its checks made in any server state before), a
    connection ends, a test injects a fault or reads a replica. *)
Definition cluster_world : Type := craft_cluster_server * gmap nat cluster_conn.
Inductive cluster_step : cluster_world → cluster_world → Prop :=
| step_accept s cs i idx :
    cs !! i = None → cluster_step (s, cs) (s, <[i := mk_cluster_conn (member_id s idx)]> cs)
| step_serve s cs i c before msg answer s' c' :
    cs !! i = Some c → bytes_ok msg →
    (∀ req, parse_message msg (cs_max_tx s) no_digest = Ok req → request_fresh s c req) →
    cs_serve_one before s c msg = Some (answer, s', c') → cluster_step (s, cs) (s', <[i := c']> cs)
| step_drop s cs i : cluster_step (s, cs) (s, delete i cs)
| step_fault s cs f : cluster_step (s, cs) (run_fault f s, cs)
| step_observe s cs idx read_lsn addr len ok d s' :
    cs_read_replica s idx read_lsn addr len = Some (ok, d, s') → cluster_step (s, cs) (s', cs).

Definition world_inv (w : cluster_world) : Prop := cs_inv w.1 ∧ map_Forall (λ _, conn_ok w.1) w.2.

Lemma conns_grow s s' (cs : gmap nat cluster_conn) :
  term_ (cs_net s) ≤ term_ (cs_net s') → map_Forall (λ _, conn_ok s) cs → map_Forall (λ _, conn_ok s') cs.
Proof. intros Ht Hcs i c Hi Hb. specialize (Hcs i c Hi Hb). lia. Qed.

Lemma cluster_step_inv w w' : cluster_step w w' → world_inv w → world_inv w' ∧ term_ (cs_net w.1) ≤ term_ (cs_net w'.1).
Proof.
  intros Hs [I Hcs]. destruct Hs as [s cs i idx Hi|s cs i c before msg answer s' c' Hi Hb Hf Hs|s cs i|s cs f|s cs idx lsn addr len ok d s' Hr];
    unfold world_inv; cbn [fst snd] in *.
  - split; [|done]. split; [done|]. apply map_Forall_insert_2; [|done]. by intros ?.
  - destruct (cs_serve_fine before s c msg answer s' c' I (Hcs i c Hi) Hb Hf Hs) as (I' & Hc' & Ht).
    split; [|done]. split; [done|]. apply map_Forall_insert_2; [done|by eapply conns_grow].
  - split; [|done]. split; [done|by apply map_Forall_delete].
  - destruct (run_fault_fine f s I) as [I' Ht]. split; [|lia]. split; [done|]. eapply conns_grow; [|done]. lia.
  - destruct (read_replica_fine _ _ _ _ _ _ _ _ I Hr) as [I' Ht]. split; [|lia]. split; [done|]. eapply conns_grow; [|done]. lia.
Qed.

Lemma mk_cluster_server_inv n page capacity max_tx ports :
  0 < n ≤ 2 ^ 32 → 2 ≤ page < 2 ^ 32 → world_inv (mk_cluster_server n page capacity max_tx ports, ∅).
Proof. intros Hn Hp. split; [|apply map_Forall_empty]. split; [|done]. by apply group_inv. Qed.

(** Cluster server runs: from a fresh server, whatever connections open, send and close, in any
    interleaving, with delayed requests and faults in between, every member keeps its
    invariant and its term within the cluster's; an active session is the cluster's current
    term; no bound connection is ahead of it. *)
Theorem cluster_server_runs n page capacity max_tx ports s cs :
  0 < n ≤ 2 ^ 32 → 2 ≤ page < 2 ^ 32 →
  rtc cluster_step (mk_cluster_server n page capacity max_tx ports, ∅) (s, cs) →
  cluster_inv (cs_net s) ∧
  (cs_sess_active s = true → cs_sess_term s = term_ (cs_net s)) ∧
  ∀ i c, cs !! i = Some c → cn_bound c = true → cn_term c ≤ term_ (cs_net s).
Proof.
  intros Hn Hp Hr. assert (world_inv (s, cs)) as [I Hc].
  { refine (rtc_ind_r (λ w, world_inv w) _ _ _ _ Hr); [by apply mk_cluster_server_inv|].
    intros w w' _ Hs Iw. by destruct (cluster_step_inv w w' Hs Iw). }
  split_and!; [apply I|apply I|]. intros i c Hi Hb. by apply (Hc i c Hi).
Qed.

(** ** A cluster of three *)

Definition cserver0 : craft_cluster_server := mk_cluster_server 3 512 1048576 524288 [4001; 4002; 4003].
Definition leader_conn : cluster_conn := mk_cluster_conn (member_id cserver0 0).
Definition login_frame : wire_frame := Mk_frame login 0 1 (enc login_req_codec (Mk_login_req cluster_vol_id 9)) [].
Definition login_msg : message := parsed_frame no_digest login_frame.
Definition cserver1 : craft_cluster_server := (cs_on_login cserver0 leader_conn login_msg).1.2.
Definition leader_conn1 : cluster_conn := (cs_on_login cserver0 leader_conn login_msg).2.

Lemma cserver0_inv : cluster_inv (cs_net cserver0).
Proof. apply group_inv; by_eval. Qed.
Lemma login_msg_ready : login_ready cserver0 leader_conn login_msg.
Proof. split; [apply cserver0_inv|by_eval..]. Qed.

Lemma login_msg_ready1 : login_ready cserver1 leader_conn1 login_msg.
Proof.
  split; [|by_eval..]. pose proof (cs_login_granted _ _ _ login_msg_ready) as H.
  unfold cserver1. destruct (cs_on_login cserver0 leader_conn login_msg) as [[a s'] c']. apply H.
Qed.
Definition cserver2 : craft_cluster_server := (cs_on_login cserver1 leader_conn1 login_msg).1.2.

(** The second login fences the connection of the first. *)
Lemma cluster_login_fences_witness :
  login_ready cserver1 leader_conn1 login_msg ∧ cs_sess_term (cs_on_login cserver1 leader_conn1 login_msg).1.2 = 2 ∧
  ∃ answer, cs_on_keep_alive cserver1 (cs_on_login cserver1 leader_conn1 login_msg).1.2 leader_conn1 login_msg =
    Some (answer, (cs_on_login cserver1 leader_conn1 login_msg).1.2).
Proof.
  pose proof login_msg_ready1 as R.
  split; [exact R|]. pose proof (cluster_login_fences cserver1 leader_conn1 login_msg R) as H.
  destruct (cs_on_login cserver1 leader_conn1 login_msg) as [[a s'] c']. destruct H as (_ & Ht & _ & _ & H). cbn [fst snd].
  split; [rewrite Ht; vm_compute; reflexivity|].
  destruct (H leader_conn1 login_msg cserver1 ltac:(by_eval) ltac:(by_eval)) as (_ & _ & (answer & -> & _) & _). by exists answer.
Defined.

(** A connection of the first session, still bound at term 1, ends the second. *)
Lemma stale_logout_ends_session_witness :
  cn_term leader_conn1 = 1 ∧ cs_sess_term cserver2 = 2 ∧ cs_sess_active (cs_on_logout cserver2 leader_conn1 login_msg).1.2 = false.
Proof.
  split; [by_eval|]. split; [by_eval|]. assert (cluster_inv (cs_net cserver2)) as I.
  { pose proof (cs_login_granted _ _ _ login_msg_ready1) as H. unfold cserver2.
    destruct (cs_on_login cserver1 leader_conn1 login_msg) as [[a s'] c']. apply H. }
  pose proof (stale_logout_ends_session cserver2 leader_conn1 login_msg I ltac:(by_eval) ltac:(by_eval) ltac:(by_eval)) as H.
  destruct (cs_on_logout cserver2 leader_conn1 login_msg) as [[a s'] c']. apply H.
Defined.

(** A follower's port is taken down before the leader is logged in to. *)
Lemma cluster_server_runs_witness :
  ∃ s c, rtc cluster_step (cserver0, ∅) (s, {[0%nat := c]}) ∧ cs_sess_active s = true ∧ cn_bound c = true ∧
    cs_sess_term s = term_ (cs_net s) ∧ cn_term c ≤ term_ (cs_net s).
Proof.
  set (down := run_fault (call_set_up 2 false) cserver0). set (r := cs_on_login down leader_conn login_msg).
  assert (rtc cluster_step (cserver0, ∅) (r.1.2, {[0%nat := r.2]})) as Hr.
  { eapply rtc_l; [apply (step_fault cserver0 ∅ (call_set_up 2 false))|].
    eapply rtc_l; [apply (step_accept _ ∅ 0%nat 0%nat); done|].
    eapply rtc_l; [|apply rtc_refl]. rewrite <-(insert_singleton_eq 0%nat r.2 leader_conn).
    apply (step_serve down _ 0%nat leader_conn down (frame_bytes no_digest login_frame) r.1.1); [done|by_eval| |].
    - intros req Hp. assert (req = login_msg) as -> by (vm_compute in Hp |- *; congruence).
      split_and!; by_eval.
    - vm_compute. reflexivity. }
  destruct (cluster_server_runs 3 512 1048576 524288 [4001; 4002; 4003] r.1.2 {[0%nat := r.2]} ltac:(lia) ltac:(lia) Hr) as (_ & Hs & Hc).
  exists r.1.2, r.2. split; [exact Hr|]. split_and!; [by_eval|by_eval|apply Hs; by_eval|].
  apply (Hc 0%nat); [apply lookup_singleton_eq|by_eval].
Defined.
