(* ===== verification/AsyncConn.v ===== *)
(** * The connection on the caller's ring

    [craft_async_conn] of [src/net/async_conn.cpp]: many requests in flight on one socket,
    their replies handed out by request id.  Its coroutines are explicit: a leg is a
    [round_trip] frame with the point it is suspended at, a caller an [ensure_ready] frame,
    and [w_stack] holds what the running thread still has to do, innermost first, so that a
    resume nested in a loop is a task above the rest of the loop.

    The ring is the environment: [w_sqes] submissions succeed before the queue is full, and
    completions are events.  A leg that ends returns to its caller, whose next calls are
    steps of their own.  [None] is undefined behaviour: a frame destroyed while it runs. *)

From S2P Require Import Prelude Codec WireTypes Wire Types Conn WireClient.

Local Open Scope craft_scope.
Local Open Scope Z_scope.

(** ** Coroutine frames *)

Record reply_slot := Mk_slot { sl_waiter : bool; sl_msg : list Z; sl_ready : bool; sl_failed : bool }.
(** Where a leg is: parked for the send slot, with a send of its bytes from an offset on
    outstanding on a socket, running, waiting for the reply, or done. *)
Inductive leg_at :=
| at_park
| at_send (fd : option nat) (off : nat)
| at_run
| at_reply
| at_end (r : result net_error (list Z)).
(** [lg_for]: the caller whose HELO this is. *)
Record leg := Mk_leg { lg_rid : Z; lg_out : list Z; lg_slot : reply_slot; lg_at : leg_at; lg_for : option nat }.

Inductive caller :=
| c_parked
| c_connect (helo_oh : list Z)
| c_helo
| c_run
| c_end (r : result net_error unit).

(** The pump: no frame, suspended in its receive, running, at its final suspension. *)
Inductive pump := pump_none | pump_recv | pump_busy | pump_final.

(** ** The connection *)

Record async_conn := Mk_async_conn {
  ac_max_tx : Z;
  ac_fd : option nat;
  ac_ready : bool;
  ac_stopping : bool;
  ac_connecting : bool;
  ac_connect_waiters : list nat;
  ac_sending : bool;
  ac_send_waiters : list nat;
  ac_rx : list Z;
  ac_pending : gmap Z nat;
  ac_next_rid : Z;
  ac_pump : pump;
  ac_n_recv : Z;
  ac_n_reply : Z;
  ac_n_recv_bytes : Z;
}.
Definition mk_async_conn (max_tx : Z) : async_conn :=
  Mk_async_conn max_tx None false false false [] false [] [] ∅ 1 pump_none 0 0 0.

(** What the thread still has to do. *)
Inductive task :=
| t_unpark (id : nat)                    (* resume a leg parked for the send slot *)
| t_sent (id : nat) (ok : bool)          (* a leg after its [release_send] *)
| t_got (id : nat)                       (* resume a leg waiting for its reply *)
| t_fail (ids : list nat)                (* [fail_all]: the slots left *)
| t_fail_parked                          (* [fail_all]: the send slot and its queue *)
| t_resume_parked (ids : list nat)
| t_drain                                (* the pump's inner loop *)
| t_arm                                  (* the head of the pump's outer loop *)
| t_pump_exit
| t_send_helo (c id : nat) (oh : list Z) (* [ensure_ready] once the pump is armed *)
| t_helo (c : nat) (r : result net_error (list Z)) (* [ensure_ready] with the HELO's reply *)
| t_wake (cs : list nat)                 (* [finish]: the callers left *)
| t_return (c : nat) (r : result net_error unit).

(** [w_wire]: what was sent on each socket.  [w_orphans]: submissions outstanding whose
    frame is destroyed. *)
Record world := Mk_world {
  w_conn : async_conn;
  w_legs : gmap nat leg;
  w_callers : gmap nat caller;
  w_stack : list task;
  w_sqes : nat;
  w_wire : gmap nat (list Z);
  w_next_fd : nat;
  w_orphans : nat;
}.
Definition mk_world (max_tx : Z) : world := Mk_world (mk_async_conn max_tx) ∅ ∅ [] 0 ∅ 0 0.

(** ** Field updates *)

Definition upd_conn (f : async_conn → async_conn) (w : world) : world :=
  Mk_world (f (w_conn w)) (w_legs w) (w_callers w) (w_stack w) (w_sqes w) (w_wire w) (w_next_fd w) (w_orphans w).
Definition push (ts : list task) (w : world) : world :=
  Mk_world (w_conn w) (w_legs w) (w_callers w) (ts ++ w_stack w) (w_sqes w) (w_wire w) (w_next_fd w) (w_orphans w).
Definition set_stack (ts : list task) (w : world) : world :=
  Mk_world (w_conn w) (w_legs w) (w_callers w) ts (w_sqes w) (w_wire w) (w_next_fd w) (w_orphans w).
Definition set_sqes (n : nat) (w : world) : world :=
  Mk_world (w_conn w) (w_legs w) (w_callers w) (w_stack w) n (w_wire w) (w_next_fd w) (w_orphans w).
Definition set_leg (id : nat) (l : leg) (w : world) : world :=
  Mk_world (w_conn w) (<[id := l]> (w_legs w)) (w_callers w) (w_stack w) (w_sqes w) (w_wire w) (w_next_fd w) (w_orphans w).
Definition upd_leg (id : nat) (f : leg → leg) (w : world) : world :=
  Mk_world (w_conn w) (alter f id (w_legs w)) (w_callers w) (w_stack w) (w_sqes w) (w_wire w) (w_next_fd w) (w_orphans w).
Definition set_caller (c : nat) (a : caller) (w : world) : world :=
  Mk_world (w_conn w) (w_legs w) (<[c := a]> (w_callers w)) (w_stack w) (w_sqes w) (w_wire w) (w_next_fd w) (w_orphans w).
Definition put_wire (fd : nat) (bytes : list Z) (w : world) : world :=
  Mk_world (w_conn w) (w_legs w) (w_callers w) (w_stack w) (w_sqes w)
    (<[fd := default [] (w_wire w !! fd) ++ bytes]> (w_wire w)) (w_next_fd w) (w_orphans w).
Definition new_fd (w : world) : world :=
  Mk_world (w_conn w) (w_legs w) (w_callers w) (w_stack w) (w_sqes w) (<[w_next_fd w := []]> (w_wire w)) (S (w_next_fd w)) (w_orphans w).
Definition add_orphan (w : world) : world :=
  Mk_world (w_conn w) (w_legs w) (w_callers w) (w_stack w) (w_sqes w) (w_wire w) (w_next_fd w) (S (w_orphans w)).

Definition leg_to (a : leg_at) (l : leg) : leg := Mk_leg (lg_rid l) (lg_out l) (lg_slot l) a (lg_for l).
Definition leg_slot (f : reply_slot → reply_slot) (l : leg) : leg :=
  Mk_leg (lg_rid l) (lg_out l) (f (lg_slot l)) (lg_at l) (lg_for l).

Section setters.
Context (c : async_conn).
Definition set_fd (fd : option nat) : async_conn :=
  Mk_async_conn (ac_max_tx c) fd (ac_ready c) (ac_stopping c) (ac_connecting c) (ac_connect_waiters c) (ac_sending c) (ac_send_waiters c)
    (ac_rx c) (ac_pending c) (ac_next_rid c) (ac_pump c) (ac_n_recv c) (ac_n_reply c) (ac_n_recv_bytes c).
Definition set_ready (b : bool) : async_conn :=
  Mk_async_conn (ac_max_tx c) (ac_fd c) b (ac_stopping c) (ac_connecting c) (ac_connect_waiters c) (ac_sending c) (ac_send_waiters c)
    (ac_rx c) (ac_pending c) (ac_next_rid c) (ac_pump c) (ac_n_recv c) (ac_n_reply c) (ac_n_recv_bytes c).
Definition set_stopping (b : bool) : async_conn :=
  Mk_async_conn (ac_max_tx c) (ac_fd c) (ac_ready c) b (ac_connecting c) (ac_connect_waiters c) (ac_sending c) (ac_send_waiters c)
    (ac_rx c) (ac_pending c) (ac_next_rid c) (ac_pump c) (ac_n_recv c) (ac_n_reply c) (ac_n_recv_bytes c).
Definition set_connect (b : bool) (ws : list nat) : async_conn :=
  Mk_async_conn (ac_max_tx c) (ac_fd c) (ac_ready c) (ac_stopping c) b ws (ac_sending c) (ac_send_waiters c)
    (ac_rx c) (ac_pending c) (ac_next_rid c) (ac_pump c) (ac_n_recv c) (ac_n_reply c) (ac_n_recv_bytes c).
Definition set_send (b : bool) (ws : list nat) : async_conn :=
  Mk_async_conn (ac_max_tx c) (ac_fd c) (ac_ready c) (ac_stopping c) (ac_connecting c) (ac_connect_waiters c) b ws
    (ac_rx c) (ac_pending c) (ac_next_rid c) (ac_pump c) (ac_n_recv c) (ac_n_reply c) (ac_n_recv_bytes c).
Definition set_rx (rx : list Z) : async_conn :=
  Mk_async_conn (ac_max_tx c) (ac_fd c) (ac_ready c) (ac_stopping c) (ac_connecting c) (ac_connect_waiters c) (ac_sending c) (ac_send_waiters c)
    rx (ac_pending c) (ac_next_rid c) (ac_pump c) (ac_n_recv c) (ac_n_reply c) (ac_n_recv_bytes c).
Definition set_pending (p : gmap Z nat) : async_conn :=
  Mk_async_conn (ac_max_tx c) (ac_fd c) (ac_ready c) (ac_stopping c) (ac_connecting c) (ac_connect_waiters c) (ac_sending c) (ac_send_waiters c)
    (ac_rx c) p (ac_next_rid c) (ac_pump c) (ac_n_recv c) (ac_n_reply c) (ac_n_recv_bytes c).
Definition set_next_rid (rid : Z) : async_conn :=
  Mk_async_conn (ac_max_tx c) (ac_fd c) (ac_ready c) (ac_stopping c) (ac_connecting c) (ac_connect_waiters c) (ac_sending c) (ac_send_waiters c)
    (ac_rx c) (ac_pending c) rid (ac_pump c) (ac_n_recv c) (ac_n_reply c) (ac_n_recv_bytes c).
Definition set_pump (p : pump) : async_conn :=
  Mk_async_conn (ac_max_tx c) (ac_fd c) (ac_ready c) (ac_stopping c) (ac_connecting c) (ac_connect_waiters c) (ac_sending c) (ac_send_waiters c)
    (ac_rx c) (ac_pending c) (ac_next_rid c) p (ac_n_recv c) (ac_n_reply c) (ac_n_recv_bytes c).
Definition count_recv (n : Z) : async_conn :=
  Mk_async_conn (ac_max_tx c) (ac_fd c) (ac_ready c) (ac_stopping c) (ac_connecting c) (ac_connect_waiters c) (ac_sending c) (ac_send_waiters c)
    (ac_rx c) (ac_pending c) (ac_next_rid c) (ac_pump c) (u64 (ac_n_recv c + 1)) (ac_n_reply c) (u64 (ac_n_recv_bytes c + n)).
Definition count_reply : async_conn :=
  Mk_async_conn (ac_max_tx c) (ac_fd c) (ac_ready c) (ac_stopping c) (ac_connecting c) (ac_connect_waiters c) (ac_sending c) (ac_send_waiters c)
    (ac_rx c) (ac_pending c) (ac_next_rid c) (ac_pump c) (ac_n_recv c) (u64 (ac_n_reply c + 1)) (ac_n_recv_bytes c).
Definition drop_fd : async_conn :=
  Mk_async_conn (ac_max_tx c) None false (ac_stopping c) (ac_connecting c) (ac_connect_waiters c) (ac_sending c) (ac_send_waiters c)
    (ac_rx c) (ac_pending c) (ac_next_rid c) (ac_pump c) (ac_n_recv c) (ac_n_reply c) (ac_n_recv_bytes c).
End setters.

(** ** Operations *)

(** [acquire_sqe]: whether a submission was queued. *)
Definition acquire_sqe (w : world) : bool * world :=
  match w_sqes w with O => (false, w) | S n => (true, set_sqes n w) end.

Definition release_send (w : world) : world :=
  match ac_send_waiters (w_conn w) with
  | [] => upd_conn (λ c, set_send c false []) w
  | h :: ws => push [t_unpark h] (upd_conn (λ c, set_send c (ac_sending c) ws) w)
  end.

(** [release_send] and what follows it in the leg. *)
Definition after_send (id : nat) (ok : bool) (w : world) : world :=
  release_send (push [t_sent id ok] (upd_leg id (leg_to at_run) w)).

(** [ring_send_all] from [off] on: the loop's test, and the submission of the rest. *)
Definition send_more (id : nat) (off : nat) (w : world) : world :=
  match w_legs w !! id with
  | None => w
  | Some l =>
      if decide (length (lg_out l) ≤ off)%nat then after_send id true w
      else
        match acquire_sqe w with
        | (false, w) => after_send id false w
        | (true, w) => upd_leg id (leg_to (at_send (ac_fd (w_conn w)) off)) w
        end
  end.

(** The end of a leg: its result, and its caller where it is a HELO. *)
Definition end_leg (id : nat) (r : result net_error (list Z)) (w : world) : world :=
  match w_legs w !! id with
  | None => w
  | Some l =>
      let w := upd_leg id (leg_to (at_end r)) w in
      match lg_for l with Some c => push [t_helo c r] w | None => w end
  end.
Definition erase_pending (id : nat) (w : world) : world :=
  match w_legs w !! id with
  | None => w
  | Some l => upd_conn (λ c, set_pending c (delete (lg_rid l) (ac_pending c))) w
  end.

(** A leg from the end of [reply_awaitable] on. *)
Definition got_reply (id : nat) (w : world) : world :=
  match w_legs w !! id with
  | None => w
  | Some l => end_leg id (if sl_failed (lg_slot l) then Err ne_closed else Ok (sl_msg (lg_slot l))) (erase_pending id w)
  end.

(** [round_trip] up to its first suspension. *)
Definition start_leg (id : nat) (for_ : option nat) (o : op) (oh body : list Z) (w : world) : world :=
  let rid := ac_next_rid (w_conn w) in
  let next := u16 (rid + 1) in
  let out := frame_message [] o 0 rid oh body no_digest in
  let w := set_leg id (Mk_leg rid out (Mk_slot false [] false false) at_run for_) w in
  let w := upd_conn (λ c, set_pending (set_next_rid c (if next =? 0 then 1 else next)) (<[rid := id]> (ac_pending c))) w in
  if ac_sending (w_conn w)
  then upd_leg id (leg_to at_park) (upd_conn (λ c, set_send c true (ac_send_waiters c ++ [id])) w)
  else send_more id 0 (upd_conn (λ c, set_send c true (ac_send_waiters c)) w).

(** [finish] in [ensure_ready]. *)
Definition finish (c : nat) (r : result net_error unit) (w : world) : world :=
  push [t_wake (ac_connect_waiters (w_conn w)); t_return c r] (upd_conn (λ a, set_connect a false []) w).

(** Destroying the pump's frame: a receive that is outstanding keeps pointing into it. *)
Definition destroy_pump (w : world) : option world :=
  match ac_pump (w_conn w) with
  | pump_busy => None
  | pump_recv => Some (add_orphan (upd_conn (λ c, set_pump c pump_none) w))
  | _ => Some (upd_conn (λ c, set_pump c pump_none) w)
  end.

(** [ensure_ready] up to its first suspension; [can]: the socket is created and its address
    parses. *)
Definition ensure_ready (c : nat) (can : bool) (helo_oh : list Z) (w : world) : option world :=
  let a := w_conn w in
  if ac_ready a then Some (set_caller c (c_end (Ok tt)) w)
  else if ac_connecting a
  then Some (set_caller c c_parked (upd_conn (λ a, set_connect a true (ac_connect_waiters a ++ [c])) w))
  else
    w ← destroy_pump (upd_conn (λ a, set_connect a true (ac_connect_waiters a)) w);
    let w := upd_conn (λ a, set_stopping (set_rx (drop_fd a) []) false) w in
    let failed w := finish c (Err ne_connect) (set_caller c c_run (upd_conn drop_fd w)) in
    if negb can then Some (failed w)
    else
      let w := upd_conn (λ a, set_fd a (Some (w_next_fd w))) (new_fd w) in
      match acquire_sqe w with
      | (false, w) => Some (failed w)
      | (true, w) => Some (set_caller c (c_connect helo_oh) w)
      end.

(** The end of [ensure_ready], with the reply to the HELO. *)
Definition helo_done (c : nat) (r : result net_error (list Z)) (w : world) : world :=
  let refuse e w := finish c (Err e) (upd_conn drop_fd w) in
  match r with
  | Err e => finish c (Err e) w
  | Ok msg =>
      match parse_message msg (ac_max_tx (w_conn w)) no_digest with
      | Err _ => refuse ne_malformed w
      | Ok p =>
          if negb (mh_op (m_hdr p) =? op_code helo_rsp) then refuse ne_malformed w
          else match status_of p with
               | st_ok => finish c (Ok tt) (upd_conn (λ a, set_ready a true) w)
               | _ => refuse ne_closed w
               end
      end
  end.

Section machine.
(** The order in which [fail_all] visits the hash table. *)
Context (order : gmap Z nat → list nat).

Definition fail_all (w : world) : world :=
  push [t_fail (order (ac_pending (w_conn w))); t_fail_parked] (upd_conn (λ c, set_pending c ∅) w).

(** The pump gives up: everyone waiting fails, and its frame ends. *)
Definition pump_fails (w : world) : world := fail_all (push [t_pump_exit] w).

Definition drain_one (w : world) : world :=
  let rx := ac_rx (w_conn w) in
  match parse_message rx (ac_max_tx (w_conn w)) no_digest with
  | Err incomplete => push [t_arm] w
  | Err _ => pump_fails (upd_conn (λ c, set_ready c false) w)
  | Ok p =>
      let w := push [t_drain] (upd_conn (λ c, set_rx (count_reply c) (drop (m_total p) rx)) w) in
      match ac_pending (w_conn w) !! mh_request_id (m_hdr p) with
      | None => w
      | Some id =>
          let waiting := match w_legs w !! id with Some l => sl_waiter (lg_slot l) | None => false end in
          let w := upd_conn (λ c, set_pending c (delete (mh_request_id (m_hdr p)) (ac_pending c))) w in
          let w := upd_leg id (leg_slot (λ s, Mk_slot (sl_waiter s) (take (m_total p) rx) true (sl_failed s))) w in
          if waiting then push [t_got id] w else w
      end
  end.

(** One task. *)
Definition run_task (t : task) (w : world) : world :=
  match t with
  | t_unpark id => send_more id 0 w
  | t_sent id false => end_leg id (Err ne_send) (erase_pending id w)
  | t_sent id true =>
      match w_legs w !! id with
      | None => w
      | Some l =>
          if sl_ready (lg_slot l) then got_reply id w
          else upd_leg id (λ l, leg_to at_reply (leg_slot (λ s, Mk_slot true (sl_msg s) (sl_ready s) (sl_failed s)) l)) w
      end
  | t_got id => got_reply id w
  | t_fail [] => w
  | t_fail (id :: ids) =>
      let waiting := match w_legs w !! id with Some l => sl_waiter (lg_slot l) | None => false end in
      let w := push [t_fail ids] (upd_leg id (leg_slot (λ s, Mk_slot (sl_waiter s) (sl_msg s) true true)) w) in
      if waiting then push [t_got id] w else w
  | t_fail_parked =>
      let ws := ac_send_waiters (w_conn w) in
      push [t_resume_parked ws] (upd_conn (λ c, set_send c false []) w)
  | t_resume_parked [] => w
  | t_resume_parked (id :: ids) => push [t_unpark id; t_resume_parked ids] w
  | t_drain => drain_one w
  | t_arm =>
      match acquire_sqe w with
      | (false, w) => pump_fails w
      | (true, w) => upd_conn (λ c, set_pump c pump_recv) w
      end
  | t_pump_exit => upd_conn (λ c, set_pump c pump_final) w
  | t_send_helo c id oh => start_leg id (Some c) helo oh [] (set_caller c c_helo w)
  | t_helo c r => helo_done c r (set_caller c c_run w)
  | t_wake [] => w
  | t_wake (c :: cs) =>
      push [t_wake cs] (set_caller c (c_end (if ac_ready (w_conn w) then Ok tt else Err ne_connect)) w)
  | t_return c r => set_caller c (c_end r) w
  end.
Definition run_top (w : world) : option world :=
  match w_stack w with [] => None | t :: ts => Some (run_task t (set_stack ts w)) end.

(** ** Completions and calls *)

(** A send completes with [n]. *)
Definition send_cqe (id : nat) (n : Z) (w : world) : world :=
  match w_legs w !! id with
  | Some l =>
      match lg_at l with
      | at_send fd off =>
          if n <=? 0 then after_send id false w
          else
            let m := Z.to_nat n in
            let w := match fd with Some k => put_wire k (subspan off m (lg_out l)) w | None => w end in
            send_more id (off + m) w
      | _ => w
      end
  | None => w
  end.

(** The pump's receive completes: with bytes, or with end of stream or an error. *)
Definition recv_cqe (res : option (list Z)) (w : world) : world :=
  if ac_stopping (w_conn w) then upd_conn (λ c, set_pump c pump_final) w
  else
    let w := upd_conn (λ c, set_pump c pump_busy) w in
    match res with
    | None => pump_fails (upd_conn (λ c, set_ready c false) w)
    | Some bs => push [t_drain] (upd_conn (λ c, set_rx (count_recv c (Z.of_nat (length bs))) (ac_rx c ++ bs)) w)
    end.

(** The connect completes; the HELO is the leg [id]. *)
Definition connect_cqe (c : nat) (ok : bool) (id : nat) (w : world) : world :=
  match w_callers w !! c with
  | Some (c_connect oh) =>
      if ok then push [t_arm; t_send_helo c id oh] (upd_conn (λ a, set_pump a pump_busy) (set_caller c c_run w))
      else finish c (Err ne_connect) (upd_conn drop_fd (set_caller c c_run w))
  | _ => w
  end.

Definition shutdown (w : world) : option world :=
  w ← destroy_pump (upd_conn (λ c, set_stopping c true) w);
  Some (fail_all (upd_conn drop_fd w)).

Definition leg_done (l : leg) : bool := match lg_at l with at_end _ => true | _ => false end.
(** The next request id is not that of a request still in flight. *)
Definition rid_free (w : world) : Prop :=
  map_Forall (λ _ l, leg_done l = false → lg_rid l ≠ ac_next_rid (w_conn w)) (w_legs w).
(** [fail_all] is under way. *)
Definition failing_task (t : task) : bool :=
  match t with t_fail _ | t_fail_parked | t_resume_parked _ => true | _ => false end.
Definition failing (w : world) : bool := existsb failing_task (w_stack w).

(** What the machine does by itself next: a HELO, too, takes an id that is free. *)
Definition task_ok (w : world) : Prop :=
  match w_stack w with
  | t_send_helo _ id _ :: _ => w_legs w !! id = None ∧ rid_free w
  | _ => True
  end.

(** Steps: a task; a completion, reaped by the ring's owner when nothing else runs; a call.
    A request is made on a connection that [ensure_ready] has just found ready, with an id no
    request in flight has, and not from within [fail_all]. *)
Inductive ring_step : world → world → Prop :=
| rs_task w w' : run_top w = Some w' → task_ok w → ring_step w w'
| rs_room w n : ring_step w (set_sqes n w)
| rs_send w id l fd off n :
    w_stack w = [] → w_legs w !! id = Some l → lg_at l = at_send fd off →
    (0 < n → fd ≠ None ∧ (off + Z.to_nat n ≤ length (lg_out l))%nat) → ring_step w (send_cqe id n w)
| rs_recv w res :
    w_stack w = [] → ac_pump (w_conn w) = pump_recv → res ≠ Some [] → ring_step w (recv_cqe res w)
| rs_connect w c oh ok id :
    w_stack w = [] → w_callers w !! c = Some (c_connect oh) → ring_step w (connect_cqe c ok id w)
| rs_request w id o oh body :
    failing w = false → ac_ready (w_conn w) = true → w_legs w !! id = None → rid_free w →
    ring_step w (start_leg id None o oh body w)
| rs_ensure w c can oh w' :
    failing w = false → w_callers w !! c = None → ensure_ready c can oh w = Some w' → ring_step w w'.
End machine.
