(* ===== verification/AsyncInv.v ===== *)
(** * Requests in flight on the ring connection

    An invariant of every run of [AsyncConn]: each request is in exactly one place that will
    resume it (the send queue, a send outstanding, the table of pending replies, a task of
    the running thread), and a reply only ever reaches the request whose id it carries. *)

From S2P Require Import Prelude Codec WireTypes Wire Types Conn WireClient AsyncConn.

Local Open Scope craft_scope.

(** ** Places *)

Definition task_parks (t : task) : list nat :=
  match t with t_unpark id => [id] | t_resume_parked ids => ids | _ => [] end.
Definition task_sents (t : task) : list nat := match t with t_sent id _ => [id] | _ => [] end.
Definition task_gots (t : task) : list nat := match t with t_got id => [id] | _ => [] end.
Definition task_fails (t : task) : list nat := match t with t_fail ids => ids | _ => [] end.

(** A reply that answers the request of a leg. *)
Definition reply_for (max_tx : Z) (l : leg) (msg : list Z) : Prop :=
  ∃ p, parse_message msg max_tx no_digest = Ok p ∧ mh_request_id (m_hdr p) = lg_rid l.

Lemma reply_for_rid max_tx l l' msg : lg_rid l' = lg_rid l → reply_for max_tx l msg → reply_for max_tx l' msg.
Proof. intros Hr (p & ? & ?). exists p. by rewrite Hr. Qed.

(** Where the legs are: parked (in the queue or about to be resumed), back from their send,
    about to take their reply, about to be failed, in the table of pending replies. *)
Record places := Mk_places { pl_park : list nat; pl_sent : list nat; pl_got : list nat; pl_fail : list nat; pl_pending : gmap Z nat }.

Record leg_ok (max_tx : Z) (x : places) (id : nat) (l : leg) : Prop := {
  lo_park : id ∈ pl_park x ↔ lg_at l = at_park;
  lo_sent : id ∈ pl_sent x ↔ lg_at l = at_run;
  lo_got : id ∈ pl_got x ↔ lg_at l = at_reply ∧ sl_ready (lg_slot l) = true;
  lo_wait : pl_pending x !! lg_rid l = Some id ∨ id ∈ pl_fail x ↔ leg_done l = false ∧ sl_ready (lg_slot l) = false;
  lo_once : pl_pending x !! lg_rid l = Some id → id ∉ pl_fail x;
  lo_waiter : leg_done l = false → sl_ready (lg_slot l) = false → (sl_waiter (lg_slot l) = true ↔ lg_at l = at_reply);
  lo_msg : sl_ready (lg_slot l) = true → sl_failed (lg_slot l) = false → reply_for max_tx l (sl_msg (lg_slot l));
  lo_fresh : sl_ready (lg_slot l) = false → sl_failed (lg_slot l) = false;
  lo_end msg : lg_at l = at_end (Ok msg) → reply_for max_tx l msg;
}.

Record core (max_tx : Z) (legs : gmap nat leg) (x : places) : Prop := {
  k_park : NoDup (pl_park x);
  k_sent : NoDup (pl_sent x);
  k_got : NoDup (pl_got x);
  k_fail : NoDup (pl_fail x);
  k_dom id : id ∈ pl_park x ∨ id ∈ pl_sent x ∨ id ∈ pl_got x ∨ id ∈ pl_fail x → is_Some (legs !! id);
  k_pending rid id : pl_pending x !! rid = Some id → ∃ l, legs !! id = Some l ∧ lg_rid l = rid;
  k_rids i j li lj : legs !! i = Some li → legs !! j = Some lj → leg_done li = false → leg_done lj = false →
    lg_rid li = lg_rid lj → i = j;
  k_legs id l : legs !! id = Some l → leg_ok max_tx x id l;
}.

(** What a step on the leg [id] leaves as it was for the others. *)
Record others_same (id : nat) (x y : places) : Prop := {
  os_park j : j ≠ id → (j ∈ pl_park y ↔ j ∈ pl_park x);
  os_sent j : j ≠ id → (j ∈ pl_sent y ↔ j ∈ pl_sent x);
  os_got j : j ≠ id → (j ∈ pl_got y ↔ j ∈ pl_got x);
  os_fail j : j ≠ id → (j ∈ pl_fail y ↔ j ∈ pl_fail x);
  os_pending rid j : j ≠ id → (pl_pending y !! rid = Some j ↔ pl_pending x !! rid = Some j);
}.

Definition places_NoDup (x : places) : Prop :=
  NoDup (pl_park x) ∧ NoDup (pl_sent x) ∧ NoDup (pl_got x) ∧ NoDup (pl_fail x).

Lemma leg_ok_same max_tx x y id j l : others_same id x y → j ≠ id → leg_ok max_tx x j l → leg_ok max_tx y j l.
Proof.
  intros [H1 H2 H3 H4 H5] Hj []. split; rewrite ?H1, ?H2, ?H3, ?H4, ?H5 by done; done.
Qed.

(** The leg moves, its slot stays. *)
Lemma leg_ok_move max_tx x y id l l' :
  leg_ok max_tx x id l → lg_rid l' = lg_rid l → lg_slot l' = lg_slot l → leg_done l = false → leg_done l' = false →
  pl_pending y = pl_pending x → pl_fail y = pl_fail x →
  (id ∈ pl_park y ↔ lg_at l' = at_park) → (id ∈ pl_sent y ↔ lg_at l' = at_run) →
  (id ∈ pl_got y ↔ lg_at l' = at_reply ∧ sl_ready (lg_slot l) = true) →
  (sl_ready (lg_slot l) = false → lg_at l' = at_reply ↔ lg_at l = at_reply) → leg_ok max_tx y id l'.
Proof.
  intros [O1 O2 O3 O4 O5 O6 O7 O8 O9] Hr Hs Hd Hd' HP HF H1 H2 H3 H4. split; rewrite ?Hr, ?Hs, ?HP, ?HF; try done.
  - by rewrite O4, Hd, Hd'.
  - intros _ Hn. by rewrite O6, H4.
  - intros ? ?. eapply reply_for_rid; [done|]. by apply O7.
  - intros msg Hm. unfold leg_done in Hd'. by rewrite Hm in Hd'.
Qed.

(** The general step: one leg changes. *)
Lemma core_update max_tx legs x y id l l' :
  core max_tx legs x → legs !! id = Some l → lg_rid l' = lg_rid l → (leg_done l' = false → leg_done l = false) →
  places_NoDup y → others_same id x y → (∀ rid, pl_pending y !! rid = Some id → rid = lg_rid l) →
  leg_ok max_tx y id l' → core max_tx (<[id := l']> legs) y.
Proof.
  intros K Hl Hr Hd (?&?&?&?) O Hp Hok. split; try done.
  - intros j Hj. rewrite lookup_insert_is_Some. destruct (decide (id = j)) as [->|Hne]; [by left|]. right. split; [done|].
    apply (k_dom _ _ _ K). destruct O. naive_solver.
  - intros rid j Hj. destruct (decide (j = id)) as [->|Hne].
    + exists l'. rewrite lookup_insert_eq. split; [done|]. rewrite Hr. by rewrite (Hp _ Hj).
    + rewrite (os_pending _ _ _ O) in Hj by done. rewrite lookup_insert_ne by done. by apply (k_pending _ _ _ K).
  - assert (∀ i li, <[id:=l']> legs !! i = Some li → leg_done li = false → ∃ li', legs !! i = Some li' ∧ leg_done li' = false ∧ lg_rid li' = lg_rid li) as Hb.
    { intros i li. rewrite lookup_insert. case_decide as Hi; [|eauto]. subst i. intros [= <-] ?. exists l. auto. }
    intros i j li lj Hi Hj Hdi Hdj Hij. destruct (Hb i li Hi Hdi) as (li' & ? & ? & ?). destruct (Hb j lj Hj Hdj) as (lj' & ? & ? & ?).
    eapply (k_rids _ _ _ K i j li' lj'); congruence.
  - intros j lj. rewrite lookup_insert. case_decide as Hj; [by intros [= <-]; subst|]. intros Hlj.
    eapply leg_ok_same; [done|done|]. by apply (k_legs _ _ _ K).
Qed.

(** A new leg, on its way to its send. *)
Lemma core_start max_tx legs x id rid out for_ :
  core max_tx legs x → legs !! id = None → map_Forall (λ _ l, leg_done l = false → lg_rid l ≠ rid) legs →
  core max_tx (<[id := Mk_leg rid out (Mk_slot false [] false false) at_run for_]> legs)
    (Mk_places (pl_park x) (id :: pl_sent x) (pl_got x) (pl_fail x) (<[rid := id]> (pl_pending x))).
Proof.
  intros K Hid Hrid. set (l := Mk_leg _ _ _ _ _).
  assert (∀ j, j ∈ pl_park x ∨ j ∈ pl_sent x ∨ j ∈ pl_got x ∨ j ∈ pl_fail x → j ≠ id) as Hne.
  { intros j Hj ->. apply (k_dom _ _ _ K) in Hj. rewrite Hid in Hj. by destruct Hj. }
  assert (pl_pending x !! rid = None) as Hp.
  { destruct (pl_pending x !! rid) as [j|] eqn:Hj; [|done]. destruct (k_pending _ _ _ K rid j Hj) as (lj & Hlj & Hr). exfalso.
    eapply Hrid; [exact Hlj| |done]. apply (proj1 (lo_wait _ _ _ _ (k_legs _ _ _ K j lj Hlj))). left. by rewrite Hr. }
  assert (∀ j r, pl_pending x !! r = Some j → j ≠ id) as Hpn.
  { intros j r Hj ->. destruct (k_pending _ _ _ K r id Hj) as (? & ? & _). congruence. }
  split; cbn [pl_park pl_sent pl_got pl_fail pl_pending]; try apply K.
  - apply NoDup_cons. split; [|apply K]. intros Hj. apply (Hne id); [auto|done].
  - intros j Hj. rewrite lookup_insert_is_Some. destruct (decide (id = j)) as [->|]; [by left|]. right. split; [done|].
    apply (k_dom _ _ _ K). set_solver.
  - intros r j. rewrite lookup_insert. case_decide as Hr; [intros [= <-]; subst r; exists l; by rewrite lookup_insert_eq|].
    intros Hj. rewrite lookup_insert_ne by (intros <-; by eapply Hpn). by apply (k_pending _ _ _ K).
  - intros i j li lj. rewrite !lookup_insert. repeat case_decide; subst; intros Hi Hj Hdi Hdj Hr; simplify_eq/=; try done.
    + exfalso. by eapply Hrid; [exact Hj|done|].
    + exfalso. by eapply Hrid; [exact Hi|done|].
    + by eapply (k_rids _ _ _ K).
  - intros j lj. rewrite lookup_insert. case_decide as Hj.
    + intros [= <-]. subst j. split; cbn; rewrite ?lookup_insert_eq; try done; set_solver.
    + intros Hlj. pose proof (k_legs _ _ _ K j lj Hlj) as [? ? ? Hw Ho ? ? ? ?]. split; cbn; try done; [set_solver| |].
      * rewrite lookup_insert. case_decide as Hr; [|done]. rewrite <-Hw. subst rid. rewrite Hp. naive_solver.
      * rewrite lookup_insert. case_decide; [congruence|done].
Qed.

(** ** The invariant *)

Definition places_of (w : world) : places :=
  Mk_places (flat_map task_parks (w_stack w) ++ ac_send_waiters (w_conn w)) (flat_map task_sents (w_stack w))
    (flat_map task_gots (w_stack w)) (flat_map task_fails (w_stack w)) (ac_pending (w_conn w)).

(** What may be below a task: the pump runs at the bottom of the stack or of [ensure_ready],
    and no send is dealt with while slots are being failed. *)
Definition base_ok (ts : list task) : Prop := ts = [] ∨ ∃ c id oh, ts = [t_send_helo c id oh].
Definition below_ok (t : task) (ts : list task) : Prop :=
  match t with
  | t_drain | t_send_helo _ _ _ => ts = []
  | t_arm | t_pump_exit => base_ok ts
  | t_fail _ => ∃ ts', ts = t_fail_parked :: t_pump_exit :: ts'
  | t_fail_parked | t_resume_parked _ => ∃ ts', ts = t_pump_exit :: ts'
  | t_unpark _ | t_sent _ _ => flat_map task_fails ts = []
  | _ => True
  end.
Fixpoint stack_ok (ts : list task) : Prop :=
  match ts with [] => True | t :: ts => below_ok t ts ∧ stack_ok ts end.

Record inv (w : world) : Prop := {
  v_core : core (ac_max_tx (w_conn w)) (w_legs w) (places_of w);
  v_stack : stack_ok (w_stack w);
}.

Definition add_sent (id : nat) (x : places) : places :=
  Mk_places (pl_park x) (id :: pl_sent x) (pl_got x) (pl_fail x) (pl_pending x).

(** The leg [id] runs, held by no place: it counts as back from its send. *)
Record running (w : world) (id : nat) : Prop := {
  ru_core : core (ac_max_tx (w_conn w)) (alter (leg_to at_run) id (w_legs w)) (add_sent id (places_of w));
  ru_stack : stack_ok (w_stack w);
}.

Ltac world_simpl :=
  unfold places_of, add_sent, places_NoDup in *;
  cbn [w_conn w_legs w_callers w_stack w_sqes w_wire w_next_fd w_orphans upd_conn push set_stack set_sqes set_leg upd_leg
       set_caller put_wire new_fd add_orphan ac_max_tx ac_fd ac_ready ac_stopping ac_connecting ac_connect_waiters ac_sending
       ac_send_waiters ac_rx ac_pending ac_next_rid ac_pump set_fd set_ready set_stopping set_connect set_send set_rx set_pending
       set_next_rid set_pump count_recv count_reply drop_fd
       lg_rid lg_out lg_slot lg_at lg_for leg_to leg_slot sl_waiter sl_msg sl_ready sl_failed leg_done
       pl_park pl_sent pl_got pl_fail pl_pending
       flat_map task_parks task_sents task_gots task_fails app stack_ok below_ok] in *.

Lemma alter_insert_same {A} (f : A → A) (m : gmap nat A) i x : m !! i = Some x → alter f i m = <[i := f x]> m.
Proof.
  intros Hx. apply map_eq. intros j. destruct (decide (i = j)) as [<-|].
  - by rewrite lookup_alter_eq, lookup_insert_eq, Hx.
  - by rewrite lookup_alter_ne, lookup_insert_ne.
Qed.

Lemma core_perm max_tx legs x p :
  core max_tx legs x → p ≡ₚ pl_park x →
  core max_tx legs (Mk_places p (pl_sent x) (pl_got x) (pl_fail x) (pl_pending x)).
Proof.
  intros K Hp. split; cbn; try apply K; [rewrite Hp; apply K|intros id; rewrite Hp; apply K|].
  intros id l Hl. destruct (k_legs _ _ _ K id l Hl). split; cbn; rewrite ?Hp; done.
Qed.

Lemma running_leg w id : running w id → ∃ l, w_legs w !! id = Some l ∧
  alter (leg_to at_run) id (w_legs w) = <[id := leg_to at_run l]> (w_legs w).
Proof.
  intros [K _]. destruct (k_dom _ _ _ K id) as [l' Hl']; [cbn; set_solver|]. rewrite lookup_alter_eq in Hl'.
  destruct (w_legs w !! id) as [l|] eqn:Hl; [|done]. exists l. split; [done|]. by apply alter_insert_same.
Qed.

Lemma after_send_inv w id ok : running w id → flat_map task_fails (w_stack w) = [] → inv (after_send id ok w).
Proof.
  intros [K Hs] Hf. unfold after_send, release_send. world_simpl. destruct (ac_send_waiters (w_conn w)) as [|h ws] eqn:Hq.
  - split; world_simpl; [exact K|by split_and!].
  - split; world_simpl; [|by split_and!]. apply (core_perm _ _ _ (h :: flat_map task_parks (w_stack w) ++ ws)) in K; [exact K|].
    world_simpl. by rewrite Permutation_middle.
Qed.

(** The leg leaves the running state for one that no place holds. *)
Lemma running_rest w id l l' :
  running w id → w_legs w !! id = Some l → lg_rid l' = lg_rid l → lg_slot l' = lg_slot l →
  (∃ fd off, lg_at l' = at_send fd off) → core (ac_max_tx (w_conn w)) (<[id := l']> (w_legs w)) (places_of w).
Proof.
  intros R Hl Hr Hsl (fd & off & Ha). destruct (running_leg w id R) as (l0 & Hl0 & Hal). simplify_eq. destruct R as [K Hs].
  rewrite Hal in K. rewrite <-(insert_insert_eq (w_legs w) id l' (leg_to at_run l)).
  assert (<[id:=leg_to at_run l]> (w_legs w) !! id = Some (leg_to at_run l)) as Hlk by apply lookup_insert_eq.
  pose proof (k_legs _ _ _ K id _ Hlk) as [O1 O2 O3 O4 O5 O6 O7 O8 O9]. pose proof (k_sent _ _ _ K) as Hnd.
  eapply (core_update _ _ _ _ _ _ _ K Hlk); world_simpl; try done.
  - split_and!; try apply K. by apply NoDup_cons_1_2 in Hnd.
  - split; world_simpl; set_solver.
  - intros rid Hrid. destruct (k_pending _ _ _ K rid id Hrid) as (l1 & Hl1 & <-). rewrite Hlk in Hl1. by injection Hl1 as <-.
  - eapply (leg_ok_move _ _ _ _ (leg_to at_run l)); [by apply (k_legs _ _ _ K)|..]; try done; unfold leg_done; world_simpl; rewrite ?Ha; try done.
    + rewrite O1. naive_solver.
    + split; [|done]. intros Hi. by apply NoDup_cons in Hnd as [? _].
    + rewrite O3. naive_solver.
Qed.

Lemma send_more_inv w id off : running w id → flat_map task_fails (w_stack w) = [] → inv (send_more id off w).
Proof.
  intros R Hf. destruct (running_leg w id R) as (l & Hl & Hal). unfold send_more. rewrite Hl. case_decide; [by apply after_send_inv|].
  unfold acquire_sqe. destruct (w_sqes w) as [|n] eqn:Hq; [by apply after_send_inv|]. split; world_simpl; [|apply R].
  rewrite (alter_insert_same _ _ _ _ Hl). apply (running_rest w id l); try done. by eexists _, _.
Qed.

(** ** Legs that run *)

(** A leg that a task resumes is neither done nor sending. *)
Lemma task_leg w t ts i : inv w → w_stack w = t :: ts → i ∈ task_parks t ∨ i ∈ task_sents t ∨ i ∈ task_gots t →
  ∃ l, w_legs w !! i = Some l ∧ leg_done l = false ∧ ∀ fd off, lg_at l ≠ at_send fd off.
Proof.
  intros I Hs Hi. destruct (k_dom _ _ _ (v_core w I) i) as [l Hl]; [unfold places_of; rewrite Hs; cbn; set_solver|].
  exists l. split; [done|]. pose proof (k_legs _ _ _ (v_core w I) i l Hl) as [O1 O2 O3 _ _ _ _ _ _].
  assert (lg_at l = at_park ∨ lg_at l = at_run ∨ lg_at l = at_reply) as Ha.
  { unfold places_of in O1, O2, O3. rewrite Hs in O1, O2, O3. cbn in O1, O2, O3. destruct Hi as [Hi|[Hi|Hi]].
    - left. apply O1. set_solver.
    - right; left. apply O2. set_solver.
    - right; right. apply O3. set_solver. }
  unfold leg_done. destruct Ha as [-> | [-> | ->]]; done.
Qed.

(** A leg that a task resumes. *)
Lemma resumed_running w id t ts l :
  inv w → w_stack w = t :: ts → w_legs w !! id = Some l →
  (lg_at l = at_park ∧ t = t_unpark id ∨ lg_at l = at_run ∧ (∃ ok, t = t_sent id ok) ∨ t = t_got id) → running (set_stack ts w) id.
Proof.
  intros [K Hst] Hs Hl Ht. rewrite Hs in Hst. split; world_simpl; [|apply Hst]. rewrite (alter_insert_same _ _ _ _ Hl).
  rewrite Hs in K. pose proof (k_legs _ _ _ K id l Hl) as [O1 O2 O3 O4 O5 O6 O7 O8 O9].
  pose proof (k_park _ _ _ K) as Np. pose proof (k_sent _ _ _ K) as Ns. pose proof (k_got _ _ _ K) as Ng. pose proof (k_fail _ _ _ K) as Nf.
  assert (leg_done l = false) as Hd.
  { unfold leg_done. destruct Ht as [[-> _]|[[-> _]| ->]]; [done|done|]. destruct (proj1 O3) as [-> _]; [world_simpl; set_solver|done]. }
  assert (∀ rid, ac_pending (w_conn w) !! rid = Some id → rid = lg_rid l) as Hrid.
  { intros rid Hr. destruct (k_pending _ _ _ K rid id Hr) as (l1 & Hl1 & <-). congruence. }
  eapply (core_update _ _ _ _ _ _ _ K Hl); world_simpl; try done.
  - destruct Ht as [[Ha ->]|[[Ha [ok ->]]| ->]]; world_simpl; split_and!; try done; try (by eapply NoDup_cons_1_2).
    + apply NoDup_cons. split; [|done]. rewrite O2. congruence.
    + apply NoDup_cons. split; [|done]. rewrite O2. destruct (proj1 O3) as [? _]; [set_solver|congruence].
  - destruct Ht as [[_ ->]|[[_ [ok ->]]| ->]]; split; world_simpl; set_solver.
  - eapply (leg_ok_move _ _ _ _ l); [by apply (k_legs _ _ _ K)|..]; try done; world_simpl.
    + destruct Ht as [[Ha ->]|[[Ha [ok ->]]| ->]]; world_simpl; done.
    + split; [|done]. intros Hi. destruct Ht as [[Ha ->]|[[Ha [ok ->]]| ->]]; world_simpl.
      * by apply NoDup_cons in Np as [? _].
      * apply O1 in Hi. congruence.
      * apply O1 in Hi. destruct (proj1 O3) as [? _]; [set_solver|congruence].
    + set_solver.
    + split; [|by intros []]. intros Hi. destruct Ht as [[Ha ->]|[[Ha [ok ->]]| ->]]; world_simpl.
      * apply O3 in Hi as [? _]. congruence.
      * apply O3 in Hi as [? _]. congruence.
      * by apply NoDup_cons in Ng as [? _].
    + intros Hn. destruct Ht as [[Ha ->]|[[Ha [ok ->]]| ->]]; world_simpl; [rewrite Ha; done|rewrite Ha; done|].
      destruct (proj1 O3) as [_ ?]; [set_solver|congruence].
Qed.

Lemma sending_running w id l fd off :
  inv w → w_legs w !! id = Some l → lg_at l = at_send fd off → running w id.
Proof.
  intros [K Hst] Hl Ha. split; world_simpl; [|done]. rewrite (alter_insert_same _ _ _ _ Hl).
  pose proof (k_legs _ _ _ K id l Hl) as [O1 O2 O3 O4 O5 O6 O7 O8 O9]. rewrite Ha in *.
  assert (leg_done l = false) as Hd by (unfold leg_done; by rewrite Ha).
  eapply (core_update _ _ _ _ _ _ _ K Hl); world_simpl; try done.
  - split_and!; try apply K. apply NoDup_cons. split; [|apply K]. rewrite O2. done.
  - split; world_simpl; set_solver.
  - intros rid Hr. destruct (k_pending _ _ _ K rid id Hr) as (l1 & Hl1 & <-). congruence.
  - eapply (leg_ok_move _ _ _ _ l); [by apply (k_legs _ _ _ K)|..]; world_simpl; try done; try (by rewrite Ha).
    + by rewrite O1.
    + set_solver.
    + rewrite O3. naive_solver.
Qed.

(** From a running leg to any other state of it, in the places [y]. *)
Lemma running_update w id l l' y :
  running w id → w_legs w !! id = Some l → lg_rid l' = lg_rid l → places_NoDup y → others_same id (places_of w) y →
  (∀ rid, pl_pending y !! rid = Some id → rid = lg_rid l) → leg_ok (ac_max_tx (w_conn w)) y id l' →
  core (ac_max_tx (w_conn w)) (<[id := l']> (w_legs w)) y.
Proof.
  intros R Hl Hr Hnd O Hp Hok. destruct (running_leg w id R) as (l0 & Hl0 & Hal). simplify_eq. destruct R as [K _].
  rewrite Hal in K. rewrite <-(insert_insert_eq (w_legs w) id l' (leg_to at_run l)).
  eapply (core_update _ _ _ _ _ _ _ K (lookup_insert_eq _ _ _)); try done.
  destruct O as [P1 P2 P3 P4 P5]. split; try done. intros j Hj. rewrite P2 by done. world_simpl. set_solver.
Qed.

Lemma running_ok w id l : running w id → w_legs w !! id = Some l →
  leg_ok (ac_max_tx (w_conn w)) (add_sent id (places_of w)) id (leg_to at_run l).
Proof.
  intros R Hl. destruct (running_leg w id R) as (l0 & Hl0 & Hal). simplify_eq. destruct R as [K _]. rewrite Hal in K.
  apply (k_legs _ _ _ K), lookup_insert_eq.
Qed.
Lemma running_NoDup w id : running w id → places_NoDup (add_sent id (places_of w)).
Proof. intros [K _]. split_and!; apply K. Qed.
Lemma running_pending w id l rid : running w id → w_legs w !! id = Some l → ac_pending (w_conn w) !! rid = Some id → rid = lg_rid l.
Proof.
  intros R Hl Hp. destruct (running_leg w id R) as (l0 & Hl0 & Hal). simplify_eq. destruct R as [K _]. rewrite Hal in K.
  destruct (k_pending _ _ _ K rid id Hp) as (l1 & Hl1 & <-). rewrite lookup_insert_eq in Hl1. by injection Hl1 as <-.
Qed.

(** The table entry at the leg's id is its own. *)
Lemma running_entry w id l j : running w id → w_legs w !! id = Some l → ac_pending (w_conn w) !! lg_rid l = Some j → j = id.
Proof.
  intros R Hl Hp. destruct (running_leg w id R) as (l0 & Hl0 & Hal). simplify_eq. destruct R as [K _]. rewrite Hal in K.
  destruct (k_pending _ _ _ K _ j Hp) as (lj & Hlj & Hr). pose proof (k_legs _ _ _ K j lj Hlj) as O.
  eapply (k_rids _ _ _ K j id lj (leg_to at_run l)); try done; [apply lookup_insert_eq|].
  apply (proj1 (lo_wait _ _ _ _ O)). left. by rewrite Hr.
Qed.

Lemma end_leg_inv w id l r :
  running w id → w_legs w !! id = Some l → id ∉ flat_map task_fails (w_stack w) →
  (∀ msg, r = Ok msg → reply_for (ac_max_tx (w_conn w)) l msg) → inv (end_leg id r (erase_pending id w)).
Proof.
  intros R Hl HF Hmsg. unfold end_leg, erase_pending. rewrite Hl. world_simpl. rewrite Hl.
  assert (core (ac_max_tx (w_conn w)) (alter (leg_to (at_end r)) id (w_legs w))
    (Mk_places (pl_park (places_of w)) (pl_sent (places_of w)) (pl_got (places_of w)) (pl_fail (places_of w))
       (delete (lg_rid l) (ac_pending (w_conn w))))) as Hk.
  { rewrite (alter_insert_same _ _ _ _ Hl). pose proof (running_NoDup w id R) as (N1 & N2 & N3 & N4).
    pose proof (running_ok w id l R Hl) as [O1 O2 O3 O4 O5 O6 O7 O8 O9].
    eapply (running_update w id l); try done; world_simpl.
    - split_and!; try done. by eapply NoDup_cons_1_2.
    - split; world_simpl; try done. intros rid j Hj. rewrite lookup_delete. case_decide as Hr; [|done]. subst rid. split; [done|].
      intros Hp. by apply (running_entry w id l) in Hp.
    - intros rid Hp. apply lookup_delete_Some in Hp as [_ Hp]. by apply (running_pending w id l).
    - split; world_simpl; try done.
      + rewrite O1. done.
      + split; [|done]. intros Hi. by apply NoDup_cons in N2 as [? _].
      + rewrite O3. naive_solver.
      + rewrite lookup_delete_eq. naive_solver.
      + intros msg [= ->]. eapply reply_for_rid; [|by apply Hmsg]. done. }
  destruct (lg_for l) as [c|]; split; world_simpl; try exact Hk; try apply R. split; [done|apply R].
Qed.

Lemma got_reply_inv w id : running w id → (∀ l, w_legs w !! id = Some l → sl_ready (lg_slot l) = true) → inv (got_reply id w).
Proof.
  intros R Hrd. destruct (running_leg w id R) as (l & Hl & _). specialize (Hrd l Hl). unfold got_reply. rewrite Hl.
  pose proof (running_ok w id l R Hl) as [O1 O2 O3 O4 O5 O6 O7 O8 O9]. world_simpl. apply (end_leg_inv w id l); try done.
  - intros Hi. destruct (proj1 O4) as [_ ?]; [by right|congruence].
  - intros msg. destruct (sl_failed (lg_slot l)) eqn:Hf; [done|]. intros [= <-]. apply (reply_for_rid _ (leg_to at_run l)); [done|]. by apply O7.
Qed.

(** The reply is not there yet: the leg waits. *)
Lemma wait_reply_inv w id l :
  running w id → w_legs w !! id = Some l → sl_ready (lg_slot l) = false →
  inv (upd_leg id (λ l, leg_to at_reply (leg_slot (λ s, Mk_slot true (sl_msg s) (sl_ready s) (sl_failed s)) l)) w).
Proof.
  intros R Hl Hrd. split; world_simpl; [|apply R]. rewrite (alter_insert_same _ _ _ _ Hl).
  pose proof (running_NoDup w id R) as (N1 & N2 & N3 & N4). pose proof (running_ok w id l R Hl) as [O1 O2 O3 O4 O5 O6 O7 O8 O9].
  eapply (running_update w id l); try done; world_simpl.
  - split_and!; try done. by eapply NoDup_cons_1_2.
  - intros rid Hp. by apply (running_pending w id l).
  - split; world_simpl; try done.
    + rewrite O1. done.
    + split; [|done]. intros Hi. by apply NoDup_cons in N2 as [? _].
    + rewrite O3. rewrite Hrd. naive_solver.
Qed.

(** The leg joins the send queue. *)
Lemma park_inv w id l b :
  running w id → w_legs w !! id = Some l →
  inv (upd_leg id (leg_to at_park) (upd_conn (λ c, set_send c b (ac_send_waiters c ++ [id])) w)).
Proof.
  intros R Hl. split; world_simpl; [|apply R]. rewrite (alter_insert_same _ _ _ _ Hl).
  pose proof (running_NoDup w id R) as (N1 & N2 & N3 & N4). pose proof (running_ok w id l R Hl) as [O1 O2 O3 O4 O5 O6 O7 O8 O9].
  eapply (running_update w id l); try done; world_simpl.
  - split_and!; try done; [|by eapply NoDup_cons_1_2]. rewrite (assoc_L (++)). apply NoDup_app. split_and!; [done| |apply NoDup_singleton].
    intros j Hj ->%list_elem_of_singleton. by apply O1 in Hj.
  - split; world_simpl; try done. intros j Hj. rewrite (assoc_L (++)). set_solver.
  - intros rid Hp. by apply (running_pending w id l).
  - split; world_simpl; try done.
    + rewrite (assoc_L (++)). set_solver.
    + split; [|done]. intros Hi. by apply NoDup_cons in N2 as [? _].
    + rewrite O3. naive_solver.
    + intros _ Hn. rewrite O6 by done. naive_solver.
Qed.

Lemma start_leg_inv w id for_ o oh body :
  inv w → w_legs w !! id = None → rid_free w → flat_map task_fails (w_stack w) = [] → inv (start_leg id for_ o oh body w).
Proof.
  intros [K Hst] Hid Hr HF. unfold start_leg. set (out := frame_message _ _ _ _ _ _ _).
  set (w1 := upd_conn _ (set_leg id _ w)). set (l := Mk_leg (ac_next_rid (w_conn w)) out (Mk_slot false [] false false) at_run for_).
  assert (w_legs w1 !! id = Some l) as Hl by (unfold w1; world_simpl; apply lookup_insert_eq).
  assert (running w1 id) as R.
  { split; [|exact Hst]. rewrite (alter_insert_same _ _ _ _ Hl). unfold w1. world_simpl. rewrite insert_insert_eq.
    exact (core_start _ _ _ id (ac_next_rid (w_conn w)) out for_ K Hid Hr). }
  destruct (ac_sending (w_conn w1)).
  - by apply (park_inv w1 id l).
  - apply send_more_inv; [|done]. destruct R as [RK RS]. by split.
Qed.

(** ** Replies and failures *)

(** The slot of a leg that was waited for is filled. *)
Lemma slot_core max_tx legs x id l msg failed F P :
  core max_tx legs x → legs !! id = Some l → leg_done l = false → sl_ready (lg_slot l) = false →
  (failed = false → reply_for max_tx l msg) →
  (∀ rid j, j ≠ id → (P !! rid = Some j ↔ pl_pending x !! rid = Some j)) → (∀ rid, P !! rid ≠ Some id) →
  NoDup F → (∀ j, j ≠ id → (j ∈ F ↔ j ∈ pl_fail x)) → id ∉ F →
  core max_tx (<[id := leg_slot (λ s, Mk_slot (sl_waiter s) msg true failed) l]> legs)
    (Mk_places (pl_park x) (pl_sent x) (if sl_waiter (lg_slot l) then id :: pl_got x else pl_got x) F P).
Proof.
  intros K Hl Hd Hn Hm HP HPi NF HF HFi. pose proof (k_legs _ _ _ K id l Hl) as [O1 O2 O3 O4 O5 O6 O7 O8 O9].
  assert (id ∉ pl_got x) as Hg by (intros [_ Hi]%O3; congruence).
  apply (core_update _ _ x _ id l); [done..| | | |]; world_simpl.
  - split_and!; try apply K; [|done]. destruct (sl_waiter _); [|apply K]. apply NoDup_cons. split; [done|apply K].
  - split; world_simpl; try done. intros j Hj. destruct (sl_waiter _); set_solver.
  - intros rid Hp. by apply HPi in Hp.
  - split; world_simpl; try done.
    + rewrite <-O6 by done. destruct (sl_waiter (lg_slot l)); set_solver.
    + split; [|by intros []]. intros [Hp|Hf]; [by apply HPi in Hp|done].
Qed.

Lemma base_plain ts : base_ok ts →
  flat_map task_parks ts = [] ∧ flat_map task_sents ts = [] ∧ flat_map task_gots ts = [] ∧ flat_map task_fails ts = [].
Proof. by intros [->|(c & id & oh & ->)]. Qed.

Lemma stack_gots w id ts : stack_ok (w_stack w) → ts = t_got id :: w_stack w → stack_ok ts.
Proof. intros Hs ->. by split. Qed.

Section order.
Context (order : gmap Z nat → list nat).
Context (order_spec : ∀ m, order m ≡ₚ (map_to_list m).*2).

Lemma order_elem m id : id ∈ order m ↔ ∃ rid, m !! rid = Some id.
Proof.
  rewrite order_spec, list_elem_of_fmap. split.
  - intros ([rid j] & -> & Hj). exists rid. by apply elem_of_map_to_list.
  - intros [rid Hr]. exists (rid, id). split; [done|]. by apply elem_of_map_to_list.
Qed.

Lemma order_NoDup m : (∀ r1 r2 id, m !! r1 = Some id → m !! r2 = Some id → r1 = r2) → NoDup (order m).
Proof.
  intros Hinj. rewrite order_spec. apply NoDup_fmap_2_strong; [|apply NoDup_map_to_list].
  intros [r1 i] [r2 j] H1%elem_of_map_to_list H2%elem_of_map_to_list Hij. cbn in Hij. subst j. by rewrite (Hinj r1 r2 i).
Qed.

(** [fail_all] of the pump, which is all that runs. *)
Lemma pump_fails_inv w : inv w → base_ok (w_stack w) → inv (pump_fails order w).
Proof.
  intros [K Hst] Hb. split; [|unfold pump_fails, fail_all; world_simpl; split_and!; eauto].
  unfold pump_fails, fail_all. world_simpl. destruct (base_plain _ Hb) as (B1 & B2 & B3 & B4).
  rewrite B1, B2, B3, B4 in *. world_simpl. rewrite app_nil_r. split; try apply K.
  - apply order_NoDup. intros r1 r2 id H1 H2. destruct (k_pending _ _ _ K r1 id H1) as (l1 & Hl1 & <-).
    destruct (k_pending _ _ _ K r2 id H2) as (l2 & Hl2 & <-). congruence.
  - intros id [Hi|[Hi|[Hi|Hi]]]; [apply (k_dom _ _ _ K); auto..|]. apply order_elem in Hi as [rid Hr].
    destruct (k_pending _ _ _ K rid id Hr) as (l & ? & _). by eexists.
  - intros rid id Hp. world_simpl. by rewrite lookup_empty in Hp.
  - intros id l Hl. pose proof (k_legs _ _ _ K id l Hl) as [O1 O2 O3 O4 O5 O6 O7 O8 O9]. split; world_simpl; try done.
    rewrite <-O4, lookup_empty, order_elem. split; [|intros [?|Hf%not_elem_of_nil]; [right; by eexists|done]]. intros [?|[rid Hr]]; [done|]. left.
    destruct (k_pending _ _ _ K rid id Hr) as (l1 & Hl1 & <-). congruence.
Qed.

(** A change that no place and no leg sees. *)
Lemma inv_same w w' :
  inv w → w_legs w' = w_legs w → w_stack w' = w_stack w → ac_max_tx (w_conn w') = ac_max_tx (w_conn w) →
  ac_send_waiters (w_conn w') = ac_send_waiters (w_conn w) → ac_pending (w_conn w') = ac_pending (w_conn w) → inv w'.
Proof. intros [K Hst] Hl Hs Hm Hq Hp. split; unfold places_of; rewrite ?Hl, ?Hs, ?Hm, ?Hq, ?Hp; done. Qed.

(** Tasks that hold no leg. *)
Definition plain (t : task) : Prop := task_parks t = [] ∧ task_sents t = [] ∧ task_gots t = [] ∧ task_fails t = [].
Lemma inv_push w t : inv w → plain t → below_ok t (w_stack w) → inv (push [t] w).
Proof.
  intros [K Hst] (H1 & H2 & H3 & H4) Hb. split; [|by split]. unfold places_of. cbn [push w_stack w_conn w_legs app flat_map].
  rewrite H1, H2, H3, H4. exact K.
Qed.
Lemma inv_pop w t ts : inv w → w_stack w = t :: ts → plain t → inv (set_stack ts w).
Proof.
  intros [K Hst] Hs (H1 & H2 & H3 & H4). rewrite Hs in Hst. split; [|apply Hst]. unfold places_of in *. rewrite Hs in K.
  cbn [flat_map] in K. rewrite H1, H2, H3, H4 in K. exact K.
Qed.

Lemma drain_one_inv w : inv w → w_stack w = [] → inv (drain_one order w).
Proof.
  intros I Hs. unfold drain_one. set (rx := ac_rx (w_conn w)).
  destruct (parse_message rx (ac_max_tx (w_conn w)) no_digest) as [p|e] eqn:Hp.
  2:{ destruct e; [apply inv_push; [done|done|by left]|..]; apply pump_fails_inv; try (by left); by eapply inv_same. }
  set (w1 := push [t_drain] _).
  assert (inv w1) as I1 by (apply inv_push; [by eapply inv_same|done|exact Hs]).
  assert (w_stack w1 = [t_drain]) as Hs1 by (unfold w1; world_simpl; by rewrite Hs).
  destruct (ac_pending (w_conn w1) !! mh_request_id (m_hdr p)) as [id|] eqn:Hid; [|done].
  destruct I1 as [K1 Hst1]. destruct (k_pending _ _ _ K1 _ _ Hid) as (l & Hl & Hr). rewrite Hl.
  pose proof (k_legs _ _ _ K1 id l Hl) as O. destruct (proj1 (lo_wait _ _ _ _ O)) as [Hd Hn]; [left; by rewrite Hr|].
  assert (reply_for (ac_max_tx (w_conn w1)) l (take (m_total p) rx)) as Hrep.
  { exists p. split; [|by rewrite Hr]. by apply (parse_message_take rx (ac_max_tx (w_conn w)) no_digest p). }
  pose proof (slot_core _ _ _ id l (take (m_total p) rx) (sl_failed (lg_slot l)) [] (delete (mh_request_id (m_hdr p)) (ac_pending (w_conn w1)))
    K1 Hl Hd Hn (λ _, Hrep)) as H.
  assert (core (ac_max_tx (w_conn w1)) (<[id := leg_slot (λ s, Mk_slot (sl_waiter s) (take (m_total p) rx) true (sl_failed (lg_slot l))) l]> (w_legs w1))
    (Mk_places (pl_park (places_of w1)) (pl_sent (places_of w1)) (if sl_waiter (lg_slot l) then id :: pl_got (places_of w1) else pl_got (places_of w1))
       [] (delete (mh_request_id (m_hdr p)) (ac_pending (w_conn w1))))) as Hc.
  { apply H; try done.
    - intros rid j Hj. rewrite lookup_delete. case_decide as Hrid; [|done]. subst rid. split; [done|]. world_simpl. rewrite Hid. congruence.
    - intros rid [Hne Hlk]%lookup_delete_Some. destruct (k_pending _ _ _ K1 rid id Hlk) as (l2 & Hl2 & Hr2). congruence.
    - apply NoDup_nil_2.
    - intros j Hj. unfold places_of. rewrite Hs1. done.
    - apply not_elem_of_nil. }
  clear H. unfold places_of in Hc. rewrite Hs1 in Hc.
  destruct (sl_waiter (lg_slot l)); (split; unfold places_of; cbn [push upd_leg upd_conn w_stack w_conn w_legs app]; rewrite ?Hs1; [|by split_and!]);
    rewrite (alter_insert_same _ _ _ _ Hl); exact Hc.
Qed.

Lemma inv_finish w c r : inv w → inv (finish c r w).
Proof.
  intros I. change (finish c r w) with (push [t_wake (ac_connect_waiters (w_conn w))] (push [t_return c r] (upd_conn (λ a, set_connect a false []) w))).
  apply inv_push; [|done|done]. apply inv_push; [|done|done]. by eapply inv_same.
Qed.

Lemma helo_done_inv w c r : inv w → inv (helo_done c r w).
Proof.
  intros I. unfold helo_done. destruct r as [msg|e]; [|by apply inv_finish].
  repeat case_match; apply inv_finish; by eapply inv_same.
Qed.

(** A slot is failed. *)
Lemma fail_one_inv w id ids ts : inv w → w_stack w = t_fail (id :: ids) :: t_fail_parked :: t_pump_exit :: ts →
  inv (run_task order (t_fail (id :: ids)) (set_stack (t_fail_parked :: t_pump_exit :: ts) w)).
Proof.
  intros [K Hst] Hs. rewrite Hs in Hst. destruct Hst as (_ & _ & Hb & Hst).
  cbn [run_task]. unfold places_of in K. rewrite Hs in K. world_simpl.
  destruct (base_plain _ Hb) as (B1 & B2 & B3 & B4). rewrite B1, B2, B3, B4 in *.
  destruct (k_dom _ _ _ K id) as [l Hl]; [world_simpl; set_solver|]. rewrite Hl.
  pose proof (k_legs _ _ _ K id l Hl) as O. destruct (proj1 (lo_wait _ _ _ _ O)) as [Hd Hn]; [right; world_simpl; set_solver|].
  pose proof (k_fail _ _ _ K) as Nf. world_simpl. rewrite app_nil_r in *. apply NoDup_cons in Nf as [Ni Nf].
  assert (core (ac_max_tx (w_conn w)) (<[id := leg_slot (λ s, Mk_slot (sl_waiter s) (sl_msg (lg_slot l)) true true) l]> (w_legs w))
    (Mk_places (ac_send_waiters (w_conn w)) [] (if sl_waiter (lg_slot l) then [id] else []) ids (ac_pending (w_conn w)))) as Hc.
  { apply (slot_core _ _ _ id l _ _ ids (ac_pending (w_conn w)) K Hl Hd Hn); try done; world_simpl.
    - intros rid Hr. destruct (k_pending _ _ _ K rid id Hr) as (l2 & Hl2 & <-). assert (l2 = l) as -> by congruence.
      apply (lo_once _ _ _ _ O) in Hr. world_simpl. set_solver.
    - set_solver. }
  destruct (sl_waiter (lg_slot l)); (split; world_simpl; rewrite ?B1, ?B2, ?B3, ?B4, ?app_nil_r; [|split_and!; eauto]);
    rewrite (alter_insert_same _ _ _ _ Hl); exact Hc.
Qed.

(** The queue is emptied. *)
Lemma fail_parked_inv w ts : inv w → w_stack w = t_fail_parked :: t_pump_exit :: ts →
  inv (run_task order t_fail_parked (set_stack (t_pump_exit :: ts) w)).
Proof.
  intros [K Hst] Hs. rewrite Hs in Hst. destruct Hst as (_ & Hb & Hst).
  cbn [run_task]. unfold places_of in K. rewrite Hs in K. destruct (base_plain _ Hb) as (B1 & _).
  split; world_simpl; [|split_and!; eauto]. rewrite B1 in *. by rewrite !app_nil_r.
Qed.

Lemma run_task_inv w t ts : inv w → w_stack w = t :: ts → task_ok w → inv (run_task order t (set_stack ts w)).
Proof.
  intros I Hs Hok. pose proof (v_stack w I) as Hst. rewrite Hs in Hst. destruct Hst as [Hb Hst].
  assert (∀ i, i ∈ task_parks t ∨ i ∈ task_sents t ∨ i ∈ task_gots t → ∃ l, w_legs w !! i = Some l ∧ leg_ok (ac_max_tx (w_conn w)) (places_of w) i l) as Hleg.
  { intros i Hi. destruct (k_dom _ _ _ (v_core w I) i) as [l Hl]; [unfold places_of; rewrite Hs; cbn; set_solver|].
    exists l. split; [done|]. by apply (k_legs _ _ _ (v_core w I)). }
  assert (plain t → inv (set_stack ts w)) as Hpop by by apply inv_pop.
  destruct t as [id|id ok|id|[|id ids]| |[|id ids]| | | |c id oh|c r|[|c cs]|c r]; cbn [run_task below_ok] in *; subst; try (by apply Hpop).
  - destruct (Hleg id) as (l & Hl & O); [cbn; set_solver|]. apply send_more_inv; [|done].
    apply (resumed_running w id (t_unpark id) ts l); try done. left. split; [|done].
    apply (lo_park _ _ _ _ O). unfold places_of. rewrite Hs. cbn. set_solver.
  - destruct (Hleg id) as (l & Hl & O); [cbn; set_solver|].
    assert (running (set_stack ts w) id) as R.
    { apply (resumed_running w id (t_sent id ok) ts l); try done. right; left. split; [|by eexists].
      apply (lo_sent _ _ _ _ O). unfold places_of. rewrite Hs. cbn. set_solver. }
    destruct ok.
    + cbn [set_stack w_legs]. rewrite Hl. destruct (sl_ready (lg_slot l)) eqn:Hr; [|by apply (wait_reply_inv _ id l)].
      apply got_reply_inv; [done|]. intros l' Hl'. cbn in Hl'. congruence.
    + apply (end_leg_inv _ id l); try done. cbn. rewrite Hb. apply not_elem_of_nil.
  - destruct (Hleg id) as (l & Hl & O); [cbn; set_solver|]. apply got_reply_inv.
    + apply (resumed_running w id (t_got id) ts l); auto.
    + intros l' Hl'. cbn in Hl'. assert (l' = l) as -> by congruence. apply (lo_got _ _ _ _ O). unfold places_of. rewrite Hs. cbn. set_solver.
  - destruct Hb as [ts' ->]. by apply fail_one_inv.
  - destruct Hb as [ts' ->]. by apply fail_parked_inv.
  - destruct I as [K _]. destruct Hb as [ts' ->]. split; [unfold places_of in *; rewrite Hs in K; exact K|].
    destruct Hst as [Hb Hst]. destruct (base_plain _ Hb) as (_ & _ & _ & B4). world_simpl. split_and!; eauto.
  - apply drain_one_inv; [by apply Hpop|done].
  - unfold acquire_sqe. cbn [set_stack w_sqes]. destruct (w_sqes w) as [|n]; [by apply pump_fails_inv; [apply Hpop|]|].
    apply (inv_same (set_stack ts w)); [by apply Hpop|done..].
  - eapply inv_same; [by apply Hpop|done..].
  - unfold task_ok in Hok. rewrite Hs in Hok. destruct Hok as [Hid Hrid]. apply start_leg_inv; [|done..].
    eapply inv_same; [by apply Hpop|done..].
  - apply helo_done_inv. eapply inv_same; [by apply Hpop|done..].
  - apply inv_push; [|done|done]. eapply inv_same; [by apply Hpop|done..].
  - eapply inv_same; [by apply Hpop|done..].
Qed.

(** ** Steps *)

Lemma inv_fails_empty w : failing w = false → flat_map task_fails (w_stack w) = [].
Proof.
  unfold failing. induction (w_stack w) as [|t ts IH]; [done|]. cbn. intros [Ht Hts]%orb_false_iff. rewrite IH by done. by destruct t.
Qed.

Lemma ensure_ready_inv w c can oh w' : inv w → ensure_ready c can oh w = Some w' → inv w'.
Proof.
  intros I. unfold ensure_ready. destruct (ac_ready (w_conn w)); [intros [= <-]; by eapply inv_same|].
  destruct (ac_connecting (w_conn w)); [intros [= <-]; by eapply inv_same|].
  destruct (destroy_pump _) as [w1|] eqn:Hd; cbn [mbind option_bind]; [|done].
  assert (inv w1) as I1.
  { unfold destroy_pump in Hd. repeat case_match; try discriminate; injection Hd as <-; by eapply inv_same. }
  destruct (negb can); [intros [= <-]; apply inv_finish; by eapply inv_same|].
  unfold acquire_sqe. destruct (w_sqes _) as [|n]; intros [= <-]; [apply inv_finish|]; by eapply inv_same.
Qed.

Lemma ring_step_inv w w' : ring_step order w w' → inv w → inv w'.
Proof.
  intros Hs I. destruct Hs as [w w' Hr Hok|w n|w id l fd off n Hst Hl Ha Hn|w res Hst Hp Hres|w c oh ok id Hst Hc|w id o oh body Hf Hrd Hid Hrid|w c can oh w' Hf Hc He].
  - unfold run_top in Hr. destruct (w_stack w) as [|t ts] eqn:Hst; [done|]. injection Hr as <-. by apply run_task_inv.
  - by eapply inv_same.
  - unfold send_cqe. rewrite Hl, Ha. pose proof (sending_running w id l fd off I Hl Ha) as R. destruct (n <=? 0)%Z.
    + apply after_send_inv; [done|by rewrite Hst].
    + apply send_more_inv; [|destruct fd; cbn; by rewrite Hst]. destruct R as [RK RS]. destruct fd; by split.
  - unfold recv_cqe. destruct (ac_stopping (w_conn w)); [by eapply inv_same|]. destruct res as [bs|].
    + apply inv_push; [by eapply inv_same|done|done].
    + apply pump_fails_inv; [by eapply inv_same|by left].
  - unfold connect_cqe. rewrite Hc. destruct ok.
    + set (w1 := upd_conn _ _). change (push [t_arm; t_send_helo c id oh] w1) with (push [t_arm] (push [t_send_helo c id oh] w1)).
      apply inv_push; [apply inv_push; [by eapply inv_same|done|done]|done|]. right. exists c, id, oh. unfold w1. world_simpl. by rewrite Hst.
    + apply inv_finish. by eapply inv_same.
  - apply start_leg_inv; [done..|by apply inv_fails_empty].
  - by eapply ensure_ready_inv.
Qed.

Lemma mk_world_inv max_tx : inv (mk_world max_tx).
Proof.
  split; [|done]. split; cbn; try apply NoDup_nil_2; intros *; rewrite ?lookup_empty; try done.
  set_solver.
Qed.

Lemma reachable_inv max_tx w : rtc (ring_step order) (mk_world max_tx) w → inv w.
Proof.
  intros Hr. refine (rtc_ind_r (λ w, inv w) _ _ _ _ Hr); [apply mk_world_inv|]. intros w1 w2 _ Hs I. by eapply ring_step_inv.
Qed.
End order.
