(* ===== verification/AsyncLive.v ===== *)
(** * A session on the ring connection

    From the moment [ensure_ready] succeeds with nothing outstanding, whatever requests are
    made and however sends, receives and faults interleave: no request is forgotten, unless
    the pump ends for want of a ring entry.  [AsyncWire] has what goes out on the socket. *)

From S2P Require Import Prelude Codec WireTypes Wire Types Conn WireClient AsyncConn AsyncInv.

Local Open Scope craft_scope.

(** ** Sessions *)

(** The connection is established and idle, on the socket [k]. *)
Record session_start (k : nat) (w : world) : Prop := {
  st_inv : inv w;
  st_stack : w_stack w = [];
  st_ready : ac_ready (w_conn w) = true;
  st_stopping : ac_stopping (w_conn w) = false;
  st_pump : ac_pump (w_conn w) = pump_recv;
  st_fd : ac_fd (w_conn w) = Some k;
  st_sending : ac_sending (w_conn w) = false;
  st_queue : ac_send_waiters (w_conn w) = [];
  st_legs id l : w_legs w !! id = Some l → leg_done l = true;
}.

Section session.
Context (order : gmap Z nat → list nat).
Context (order_spec : ∀ m, order m ≡ₚ (map_to_list m).*2).

(** The steps of a session: all but those of [ensure_ready], which does nothing as long as
    the connection is ready and starts the next session when it is not. *)
Inductive session_step : world → world → Prop :=
| ss_task w w' : run_top order w = Some w' → task_ok w → session_step w w'
| ss_room w n : session_step w (set_sqes n w)
| ss_send w id l fd off n :
    w_stack w = [] → w_legs w !! id = Some l → lg_at l = at_send fd off →
    (0 < n → fd ≠ None ∧ (off + Z.to_nat n ≤ length (lg_out l))%nat)%Z → session_step w (send_cqe id n w)
| ss_recv w res :
    w_stack w = [] → ac_pump (w_conn w) = pump_recv → res ≠ Some [] → session_step w (recv_cqe order res w)
| ss_request w id o oh body :
    failing w = false → ac_ready (w_conn w) = true → w_legs w !! id = None → rid_free w →
    session_step w (start_leg id None o oh body w).

Lemma session_ring w w' : session_step w w' → ring_step order w w'.
Proof. intros []; by econstructor. Qed.
Lemma session_inv w w' : session_step w w' → inv w → inv w'.
Proof. intros Hs%session_ring. by eapply ring_step_inv. Qed.

(** ** No request is forgotten *)

(** The pump will look at what arrives. *)
Definition live (w : world) : Prop :=
  ac_pump (w_conn w) = pump_recv ∨ t_drain ∈ w_stack w ∨ t_arm ∈ w_stack w.
(** The pump has ended, or is about to. *)
Definition ended (w : world) : Prop := ac_pump (w_conn w) = pump_final ∨ t_pump_exit ∈ w_stack w.
(** Someone has the send slot. *)
Definition slot_held (w : world) : Prop :=
  (∃ id l fd off, w_legs w !! id = Some l ∧ lg_at l = at_send fd off) ∨ ∃ id, t_unpark id ∈ w_stack w.

(** Nothing of [ensure_ready] runs in a session. *)
Definition session_task (t : task) : Prop :=
  match t with t_send_helo _ _ _ | t_helo _ _ | t_wake _ | t_return _ _ => False | _ => True end.

Record live_core (w : world) : Prop := {
  n_stopping : ac_stopping (w_conn w) = false;
  n_pending rid id : ac_pending (w_conn w) !! rid = Some id → live w ∨ ac_ready (w_conn w) = true;
  n_ready : ac_ready (w_conn w) = true → live w ∨ ended w;
  n_for id l : w_legs w !! id = Some l → leg_done l = false → lg_for l = None;
  n_queue : ac_send_waiters (w_conn w) ≠ [] → ac_sending (w_conn w) = true;
  n_pump : t_drain ∈ w_stack w ∨ t_arm ∈ w_stack w ∨ t_pump_exit ∈ w_stack w → ac_pump (w_conn w) ≠ pump_recv;
  n_tasks : Forall session_task (w_stack w);
}.
Record live_inv (w : world) : Prop := {
  n_core : live_core w;
  n_held : ac_sending (w_conn w) = true → slot_held w;
}.

Lemma session_start_live k w : session_start k w → live_inv w.
Proof.
  intros S. split; [|by rewrite (st_sending _ _ S)].
  split; rewrite ?(st_stack _ _ S), ?(st_queue _ _ S).
  - apply S.
  - intros. left. left. apply S.
  - intros. left. left. apply S.
  - intros id l Hl Hd. by rewrite (st_legs _ _ S id l Hl) in Hd.
  - done.
  - intros [H|[H|H]]; by apply not_elem_of_nil in H.
  - by apply Forall_nil.
Qed.

(** A task is done that is not the pump's. *)
Lemma pop_core w t ts : live_core w → w_stack w = t :: ts → t ≠ t_drain → t ≠ t_arm → t ≠ t_pump_exit → live_core (set_stack ts w).
Proof.
  intros [H1 H2 H3 H4 H5 H7 H6] Hs Hd Ha Hx. assert (live w → live (set_stack ts w)) as Hl.
  { unfold live. rewrite Hs. world_simpl. set_solver. }
  assert (ended w → ended (set_stack ts w)) as He by (unfold ended; rewrite Hs; world_simpl; set_solver).
  split; world_simpl; eauto; [intros rid i Hp; destruct (H2 rid i Hp); auto|intros Hr; destruct (H3 Hr); auto|intros Ht; apply H7; rewrite Hs; set_solver|]. rewrite Hs in H6. apply Forall_cons_1 in H6 as [_ H6]. exact H6.
Qed.

(** A leg changes on its way, or ends. *)
Lemma leg_core w id f : live_core w → (∀ l, lg_for (f l) = lg_for l) →
  (∀ l, w_legs w !! id = Some l → leg_done (f l) = false → leg_done l = false) → live_core (upd_leg id f w).
Proof.
  intros [H1 H2 H3 H4 H5 H7 H6] Hf Hd. split; world_simpl; try done. intros i l. rewrite lookup_alter. case_decide; [|apply H4].
  intros (l0 & Hl0 & ->)%fmap_Some. subst i. rewrite Hf. intros Hdl. eapply H4; [done|by apply Hd].
Qed.

Lemma push_core w t : live_core w →
  match t with t_send_helo _ _ _ | t_helo _ _ | t_wake _ | t_return _ _ | t_drain | t_arm | t_pump_exit => False | _ => True end →
  live_core (push [t] w).
Proof.
  intros [H1 H2 H3 H4 H5 H7 H6] Ht. assert (live w → live (push [t] w)) as Hl by (unfold live; world_simpl; set_solver).
  assert (ended w → ended (push [t] w)) as He by (unfold ended; world_simpl; set_solver).
  split; world_simpl; eauto; [intros rid i Hp; destruct (H2 rid i Hp); auto|intros Hr; destruct (H3 Hr); auto|intros Hp; apply H7; destruct t; set_solver|]. constructor; [by destruct t|done].
Qed.

Lemma after_send_live w id ok :
  live_core w → (∀ l, w_legs w !! id = Some l → leg_done l = false) → live_inv (after_send id ok w).
Proof.
  intros C Hd. unfold after_send.
  assert (live_core (push [t_sent id ok] (upd_leg id (leg_to at_run) w))) as [H1 H2 H3 H4 H5 H7 H6].
  { apply push_core; [|done]. apply leg_core; [done|done|]. intros l Hl _. by apply Hd. }
  unfold release_send. destruct (ac_send_waiters _) as [|h ws] eqn:Hq.
  - split; [|done]. by split; world_simpl.
  - split; [|intros _; right; exists h; world_simpl; set_solver].
    set (w1 := push [t_sent id ok] (upd_leg id (leg_to at_run) w)) in *.
    assert (live w1 → live (push [t_unpark h] (upd_conn (λ c, set_send c (ac_sending c) ws) w1))) as Hl by (unfold live; world_simpl; set_solver).
    assert (ended w1 → ended (push [t_unpark h] (upd_conn (λ c, set_send c (ac_sending c) ws) w1))) as He by (unfold ended; world_simpl; set_solver).
    split; try exact H1; try exact H4.
    + intros rid i Hp. destruct (H2 rid i Hp); auto.
    + intros Hr. destruct (H3 Hr); auto.
    + intros _. by apply H5.
    + intros Ht. apply H7. revert Ht. unfold w1. world_simpl. set_solver.
    + constructor; [done|exact H6].
Qed.

Lemma send_more_live w id off :
  live_core w → (∀ l, w_legs w !! id = Some l → leg_done l = false) → is_Some (w_legs w !! id) → live_inv (send_more id off w).
Proof.
  intros C Hd [l Hl]. unfold send_more. rewrite Hl. case_decide; [by apply after_send_live|].
  unfold acquire_sqe. destruct (w_sqes w) as [|n]; [by apply after_send_live|]. split.
  - apply leg_core; [destruct C; by split|done|]. world_simpl. intros l' Hl' _. by apply Hd.
  - intros _. left. exists id, (leg_to (at_send (ac_fd (w_conn w)) off) l), (ac_fd (w_conn w)), off. world_simpl.
    by rewrite lookup_alter_eq, Hl.
Qed.

Lemma end_leg_core w id r l :
  live_core w → w_legs w !! id = Some l → leg_done l = false → live_core (end_leg id r (erase_pending id w)).
Proof.
  intros C Hl Hd. unfold end_leg, erase_pending. rewrite Hl. world_simpl. rewrite Hl, (n_for _ C id l Hl Hd).
  apply leg_core; [|done|done]. destruct C as [H1 H2 H3 H4 H5 H7 H6]. split; world_simpl; try done.
  intros rid j Hj. apply lookup_delete_Some in Hj as [_ Hj]. by apply (H2 rid j).
Qed.

(** The slot stays held. *)
Lemma held_frame w w' :
  slot_held w → (∀ id, t_unpark id ∈ w_stack w → t_unpark id ∈ w_stack w') →
  (∀ id l fd off, w_legs w !! id = Some l → lg_at l = at_send fd off → ∃ l', w_legs w' !! id = Some l' ∧ lg_at l' = at_send fd off) →
  slot_held w'.
Proof.
  intros [(id & l & fd & off & Hl & Ha)|[id Hu]] Hst Hlegs; [left|right; by eauto].
  destruct (Hlegs id l fd off Hl Ha) as (l' & ? & ?). by exists id, l', fd, off.
Qed.

(** One leg changes that is not sending, or keeps its place. *)
Lemma held_alter w w' id f :
  slot_held w → (∀ j, t_unpark j ∈ w_stack w → t_unpark j ∈ w_stack w') → w_legs w' = alter f id (w_legs w) →
  (∀ l, w_legs w !! id = Some l → lg_at (f l) = lg_at l ∨ ∀ fd off, lg_at l ≠ at_send fd off) → slot_held w'.
Proof.
  intros H Hst Hlg Hf. eapply held_frame; [done|done|]. intros j l fd off Hl Ha. rewrite Hlg, lookup_alter. case_decide; [|by eauto].
  subst j. rewrite Hl. exists (f l). split; [done|]. destruct (Hf l Hl) as [->|Hn]; [done|]. by apply Hn in Ha.
Qed.

Lemma unpark_pop w t ts j : w_stack w = t :: ts → (∀ id, t ≠ t_unpark id) → t_unpark j ∈ w_stack w → t_unpark j ∈ ts.
Proof. intros -> Ht Hj. apply elem_of_cons in Hj as [Hj|?]; [|done]. by destruct (Ht j). Qed.

Lemma end_leg_live w id r l :
  live_core w → slot_held w ∨ ac_sending (w_conn w) = false → w_legs w !! id = Some l → leg_done l = false →
  (∀ fd off, lg_at l ≠ at_send fd off) → live_inv (end_leg id r (erase_pending id w)).
Proof.
  intros C Hh Hl Hd Ha. split; [by eapply end_leg_core|]. unfold end_leg, erase_pending. rewrite Hl. world_simpl. rewrite Hl.
  rewrite (n_for _ C id l Hl Hd). world_simpl. intros Hs. destruct Hh as [Hh|Hh]; [|congruence].
  eapply (held_alter w _ id); [done|done|done|]. intros l' Hl'. right. by simplify_eq.
Qed.

Lemma got_reply_live w id l :
  live_core w → slot_held w ∨ ac_sending (w_conn w) = false → w_legs w !! id = Some l → leg_done l = false →
  (∀ fd off, lg_at l ≠ at_send fd off) → live_inv (got_reply id w).
Proof. intros C Hh Hl Hd Ha. unfold got_reply. rewrite Hl. by eapply end_leg_live. Qed.

(** What the pump leaves as it is. *)
Record pump_core (w : world) : Prop := {
  q_stopping : ac_stopping (w_conn w) = false;
  q_for id l : w_legs w !! id = Some l → leg_done l = false → lg_for l = None;
  q_queue : ac_send_waiters (w_conn w) ≠ [] → ac_sending (w_conn w) = true;
}.

Lemma pump_fails_live w :
  pump_core w → w_stack w = [] → ac_pump (w_conn w) ≠ pump_recv → slot_held w ∨ ac_sending (w_conn w) = false →
  live_inv (pump_fails order w).
Proof.
  intros [H1 H4 H5] Hs Hp Hh. unfold pump_fails, fail_all. split.
  - split; world_simpl; try done; [intros _; right; right; do 2 right; left|]. rewrite Hs. by repeat constructor.
  - world_simpl. intros Hsd. destruct Hh as [Hh|Hh]; [|congruence]. eapply held_frame; [done|rewrite Hs; set_solver|world_simpl; eauto].
Qed.

Lemma drain_one_live w :
  inv w → pump_core w → w_stack w = [] → ac_pump (w_conn w) ≠ pump_recv → slot_held w ∨ ac_sending (w_conn w) = false →
  live_inv (drain_one order w).
Proof.
  intros [K _] C Hs Hp Hh. unfold drain_one. set (rx := ac_rx (w_conn w)). pose proof C as [H1 H4 H5].
  assert (∀ w', w_legs w' = w_legs w → ac_sending (w_conn w') = ac_sending (w_conn w) →  ac_sending (w_conn w') = true → slot_held w') as Hheld.
  { intros w' Hl Hsd Ht. destruct Hh as [Hh|Hh]; [|congruence]. eapply held_frame; [done|rewrite Hs; set_solver|rewrite Hl; eauto]. }
  destruct (parse_message rx (ac_max_tx (w_conn w)) no_digest) as [p|e] eqn:Hpm.
  2:{ destruct e; [|by apply pump_fails_live..]. split; [|by apply Hheld].
      assert (live (push [t_arm] w)) as Hlv by (right; right; left).
      split; world_simpl; try done; try (by intros; left). rewrite Hs. by repeat constructor. }
  set (w1 := push [t_drain] _).
  assert (live w1) as Hlv by (right; left; left).
  assert (live_core w1) as C1.
  { split; unfold w1; world_simpl; try done; try (by intros; left). rewrite Hs. by repeat constructor. }
  destruct (ac_pending (w_conn w1) !! mh_request_id (m_hdr p)) as [id|] eqn:Hid; [|by split; [done|apply Hheld]].
  set (w2 := upd_conn _ w1). assert (live_core w2) as C2.
  { destruct C1 as [G1 G2 G3 G4 G5 G7 G6]. split; unfold w2; world_simpl; try done. by intros; left. }
  assert (∀ f, (∀ l, lg_at (leg_slot f l) = lg_at l) → live_inv (upd_leg id (leg_slot f) w2)) as Hupd.
  { intros f Hf. split; [by apply leg_core|]. intros Hsd. eapply (held_alter w2 _ id); [by apply Hheld|done|done|]. intros. by left. }
  destruct (match w_legs w1 !! id with Some _ => _ | None => _ end); [|by apply Hupd].
  match goal with |- live_inv (push _ ?x) => assert (live_inv x) as [C3 Hh3] by by apply Hupd end.
  split; [by apply push_core|]. intros Hsd. eapply held_frame; [by apply Hh3|world_simpl; set_solver|world_simpl; eauto].
Qed.

(** A slot is failed, and its leg resumed where it waits. *)
Lemma fail_one_live w id ids ts :
  live_core w → (ac_sending (w_conn w) = true → slot_held w) → w_stack w = ts →
  live_inv (run_task order (t_fail (id :: ids)) w).
Proof.
  intros C Hh _. cbn [run_task]. set (w1 := push [t_fail ids] _).
  assert (live_inv w1) as [C1 H1].
  { split; [apply push_core; [by apply leg_core|done]|]. intros Hsd. eapply (held_alter w _ id); [by apply Hh|world_simpl; set_solver|done|]. intros. by left. }
  destruct (match w_legs w !! id with Some _ => _ | None => _ end); [|done]. split; [by apply push_core|].
  intros Hsd. eapply held_frame; [by apply H1|world_simpl; set_solver|world_simpl; eauto].
Qed.

Lemma base_nil ts : Forall session_task ts → base_ok ts → ts = [].
Proof. intros Hf [?|(c & i & oh & ->)]; [done|]. by apply Forall_cons_1 in Hf as [? _]. Qed.

Lemma run_task_live w t ts : inv w → live_inv w → w_stack w = t :: ts → task_ok w → live_inv (run_task order t (set_stack ts w)).
Proof.
  intros I [C Hh] Hs Hok. pose proof (v_stack w I) as Hst. rewrite Hs in Hst. destruct Hst as [Hb _].
  pose proof (λ i, task_leg w t ts i I Hs) as Hleg.
  assert (t ≠ t_drain → t ≠ t_arm → t ≠ t_pump_exit → live_core (set_stack ts w)) as Hpop by (intros; by eapply pop_core).
  assert ((∀ id, t ≠ t_unpark id) → ac_sending (w_conn w) = true → slot_held (set_stack ts w)) as Hheld.
  { intros Hu Hsd. eapply held_frame; [by apply Hh|intros j; by eapply unpark_pop|world_simpl; eauto]. }
  assert ((∀ id, t ≠ t_unpark id) → slot_held (set_stack ts w) ∨ ac_sending (w_conn (set_stack ts w)) = false) as Hor.
  { intros Hu. destruct (ac_sending (w_conn w)) eqn:Hsd; [left; by apply Hheld|by right]. }
  pose proof (n_tasks _ C) as Hf. rewrite Hs in Hf. apply Forall_cons_1 in Hf as [Hf Hfs].
  destruct t as [id|id ok|id|[|id ids]| |[|id ids]| | | |c id oh|c r|[|c cs]|c r]; try done;
    try (by split; [apply Hpop|apply Hheld]); cbn [run_task below_ok] in *.
  - destruct (Hleg id) as (l & Hl & Hd & _); [cbn; set_solver|]. apply send_more_live; [by apply Hpop| |by eexists].
    intros l' Hl'. world_simpl. congruence.
  - destruct (Hleg id) as (l & Hl & Hd & Ha); [cbn; set_solver|]. destruct ok; [|apply (end_leg_live _ _ _ l); auto].
    cbn [set_stack w_legs]. rewrite Hl. destruct (sl_ready (lg_slot l)); [by apply (got_reply_live _ _ l); auto|].
    split; [apply leg_core; [by apply Hpop|done|world_simpl; intros; congruence]|]. intros Hsd.
    eapply (held_alter (set_stack ts w) _ id); [by apply Hheld|done|done|]. intros l' Hl'. right. world_simpl. by simplify_eq.
  - destruct (Hleg id) as (l & Hl & Hd & Ha); [cbn; set_solver|]. by apply (got_reply_live _ _ l); auto.
  - eapply (fail_one_live _ _ _ ts); [by apply Hpop| |done]. by apply Hheld.
  - split; [|done]. apply push_core; [|done]. destruct (Hpop ltac:(done) ltac:(done) ltac:(done)). by split.
  - change (push [t_unpark id; t_resume_parked ids] (set_stack ts w)) with (push [t_unpark id] (push [t_resume_parked ids] (set_stack ts w))).
    split; [apply push_core; [apply push_core; [by apply Hpop|done]|done]|]. intros _. right. exists id. world_simpl. set_solver.
  - subst ts. apply drain_one_live; [by eapply inv_pop|by destruct C|done| |by apply Hor].
    apply (n_pump _ C). left. rewrite Hs. set_solver.
  - apply base_nil in Hb as ->; [|done]. assert (ac_pump (w_conn w) ≠ pump_recv) as Hp.
    { apply (n_pump _ C). right; left. rewrite Hs. left. }
    unfold acquire_sqe. cbn [set_stack w_sqes]. destruct (w_sqes w) as [|n].
    { apply pump_fails_live; [by destruct C|done|done|by apply Hor]. }
    destruct C as [H1 H2 H3 H4 H5 H7 H6]. split; [|by apply Hheld]. split; world_simpl; try done; try (intros; left; by left).
    intros [H|[H|H]]; by apply not_elem_of_nil in H.
  - apply base_nil in Hb as ->; [|done]. assert (¬ live w) as Hnl.
    { pose proof (n_pump _ C) as Hp. rewrite Hs in Hp. unfold live. rewrite Hs. intros [?|[?|?]]; [apply Hp; [set_solver|done]|set_solver..]. }
    destruct C as [H1 H2 H3 H4 H5 H7 H6]. split; [|by apply Hheld]. split; world_simpl; try done.
    + intros rid j Hj. destruct (H2 rid j Hj); [done|by right].
    + intros _. right. by left.
Qed.

(** A request is made on a connection that is ready. *)
Lemma start_leg_live w id o oh body :
  live_inv w → ac_ready (w_conn w) = true → w_legs w !! id = None → live_inv (start_leg id None o oh body w).
Proof.
  intros [C Hh] Hrd Hid. unfold start_leg. set (l := Mk_leg _ _ _ _ _). set (w1 := upd_conn _ (set_leg id l w)).
  assert (w_legs w1 = <[id := l]> (w_legs w)) as Hl1 by done.
  assert (live_core w1) as C1.
  { destruct C as [H1 H2 H3 H4 H5 H7 H6]. split; unfold w1; world_simpl; try done; [by intros; right|].
    intros j lj. rewrite lookup_insert. case_decide; [by intros [= <-]|apply H4]. }
  assert (∀ l', w_legs w1 !! id = Some l' → leg_done l' = false) as Hd.
  { intros l'. rewrite Hl1, lookup_insert_eq. by intros [= <-]. }
  destruct (ac_sending (w_conn w1)) eqn:Hsd.
  - split; [|intros _].
    + apply leg_core; [|done|intros l' Hl' _; by apply (Hd l')]. destruct C1. by split.
    + eapply (held_frame w); [by apply Hh|done|]. intros j lj fd off Hlj Ha. world_simpl.
      exists lj. rewrite lookup_alter_ne, Hl1, lookup_insert_ne; [done|congruence..].
  - apply send_more_live; [|done|exists l; world_simpl; rewrite Hl1; apply lookup_insert_eq]. destruct C1. by split.
Qed.

Lemma session_live w w' : session_step w w' → inv w → live_inv w → live_inv w'.
Proof.
  intros Hs I L. pose proof L as [C Hh]. destruct Hs as [w w' Hr Hok|w n|w id l fd off n Hst Hl Ha Hn|w res Hst Hp Hres|w id o oh body Hf Hrd Hid Hrid].
  - unfold run_top in Hr. destruct (w_stack w) as [|t ts] eqn:Hst; [done|]. injection Hr as <-. by apply run_task_live.
  - destruct C. by split.
  - unfold send_cqe. rewrite Hl, Ha. assert (leg_done l = false) as Hd by (unfold leg_done; by rewrite Ha).
    destruct (n <=? 0)%Z; [apply after_send_live; [done|intros; congruence]|].
    apply send_more_live; [destruct fd; destruct C; by split|destruct fd; world_simpl; intros; congruence|destruct fd; by exists l].
  - unfold recv_cqe. rewrite (n_stopping _ C). set (w1 := upd_conn (λ c, set_pump c pump_busy) w).
    assert (pump_core w1) as C1 by (destruct C; by split).
    assert (slot_held w1 ∨ ac_sending (w_conn w1) = false) as H1 by (destruct (ac_sending (w_conn w1)) eqn:Hsd; [left; by apply Hh|by right]).
    destruct res as [bs|]; [|by apply pump_fails_live; [destruct C1; by split|..]].
    destruct C1 as [Q1 Q2 Q3]. split; [|].
    + split; world_simpl; try done; [intros; left; right; left; apply list_elem_of_here..|]. unfold w1. world_simpl. rewrite Hst. by repeat constructor.
    + intros Hsd. destruct H1 as [H1|H1]; [|exfalso; change (ac_sending (w_conn w1) = true) in Hsd; congruence]. eapply (held_frame w1); [done|unfold w1; world_simpl; set_solver|unfold w1; world_simpl; eauto].
  - by apply start_leg_live.
Qed.

Lemma session_reach k w0 w : session_start k w0 → rtc session_step w0 w → inv w ∧ live_inv w.
Proof.
  intros S Hr. refine (rtc_ind_r (λ w, inv w ∧ live_inv w) _ _ _ _ Hr); [split; [apply S|by eapply session_start_live]|].
  intros w1 w2 _ Hs [I L]. split; [by eapply session_inv|by eapply session_live].
Qed.

(** C22: No request on the ring connection is forgotten.  In a session that starts with no
    request outstanding, whatever requests are made (each with an id no request in flight
    has, and none from within [fail_all]) and however sends, receives and faults interleave:
    whenever nothing is left to run, a request that is not done has a send outstanding, or is
    queued behind one that has, or waits for its reply with the table naming it and the
    pump's receive outstanding; unless the pump has ended for want of a submission entry,
    which leaves the connection ready with nobody to receive ([exhausted_pump_strands]). *)
Theorem no_request_stranded k w0 w id l :
  session_start k w0 → rtc session_step w0 w → w_stack w = [] → w_legs w !! id = Some l → leg_done l = false →
  (∃ fd off, lg_at l = at_send fd off) ∨
  lg_at l = at_park ∧ id ∈ ac_send_waiters (w_conn w) ∧ (∃ j lj fd off, w_legs w !! j = Some lj ∧ lg_at lj = at_send fd off) ∨
  lg_at l = at_reply ∧ ac_pending (w_conn w) !! lg_rid l = Some id ∧
    (ac_pump (w_conn w) = pump_recv ∨ ac_pump (w_conn w) = pump_final ∧ ac_ready (w_conn w) = true).
Proof.
  intros S Hr Hst Hl Hd. destruct (session_reach k w0 w S Hr) as [I [C Hh]].
  pose proof (k_legs _ _ _ (v_core w I) id l Hl) as [O1 O2 O3 O4 _ _ _ _ _]. unfold places_of in *. rewrite Hst in *. cbn in *.
  destruct (lg_at l) as [|fd off| | |r] eqn:Ha; [|by eauto|..].
  - right; left. assert (id ∈ ac_send_waiters (w_conn w)) as Hq by by apply O1. split_and!; try done.
    destruct Hh as [?|[j Hj]]; [apply (n_queue _ C); intros Hn; by rewrite Hn in Hq; apply not_elem_of_nil in Hq|done|].
    rewrite Hst in Hj. by apply not_elem_of_nil in Hj.
  - exfalso. by apply (not_elem_of_nil id), O2.
  - right; right. assert (sl_ready (lg_slot l) = false) as Hn.
    { destruct (sl_ready (lg_slot l)); [|done]. exfalso. by apply (not_elem_of_nil id), O3. }
    destruct (proj2 O4 (conj Hd Hn)) as [Hp|Hf]; [|by apply not_elem_of_nil in Hf]. split_and!; try done.
    assert (live w → ac_pump (w_conn w) = pump_recv) as Hlv.
    { intros [?|[Hq|Hq]]; [done|rewrite Hst in Hq; by apply not_elem_of_nil in Hq..]. }
    destruct (n_pending _ C _ _ Hp) as [?|Hrd]; [left; auto|]. destruct (n_ready _ C Hrd) as [?|[?|Hq]]; [left; auto|by right|].
    rewrite Hst in Hq. by apply not_elem_of_nil in Hq.
  - unfold leg_done in Hd. by rewrite Ha in Hd.
Qed.
End session.
