(* ===== verification/AsyncWire.v ===== *)
(** * What a session sends

    The send slot of the ring connection: as long as no send fails, the bytes on the socket
    are the requests, whole and one after the other, with at most the beginning of one more. *)

From S2P Require Import Prelude Codec WireTypes Wire Types Conn WireClient AsyncConn AsyncInv AsyncLive.

Local Open Scope craft_scope.

(** ** The send slot *)

Definition task_unparks (t : task) : list nat := match t with t_unpark id => [id] | _ => [] end.
Definition send_view (l : leg) : option (option nat * nat * list Z) :=
  match lg_at l with at_send fd off => Some (fd, off, lg_out l) | _ => None end.
(** The sends outstanding: their socket, offset and message. *)
Definition sends (legs : gmap nat leg) : gmap nat (option nat * nat * list Z) := omap send_view legs.

(** Who has the slot, and what of its message is on the socket: nobody, a leg about to be
    resumed, a leg that sends. *)
Inductive slot_state (k : nat) : bool → list nat → gmap nat (option nat * nat * list Z) → list Z → Prop :=
| slot_free : slot_state k false [] ∅ []
| slot_next id : slot_state k true [id] ∅ []
| slot_busy id off out : slot_state k true [] {[id := (Some k, off, out)]} (take off out).
Definition slot_of (k : nat) (w : world) : list Z → Prop :=
  slot_state k (ac_sending (w_conn w)) (flat_map task_unparks (w_stack w)) (sends (w_legs w)).

Lemma send_view_none l : (∀ fd off, lg_at l ≠ at_send fd off) → send_view l = None.
Proof. unfold send_view. destruct (lg_at l); try done. intros H. by destruct (H fd off). Qed.

Lemma sends_alter_same f id (legs : gmap nat leg) :
  (∀ l, legs !! id = Some l → send_view (f l) = send_view l) → sends (alter f id legs) = sends legs.
Proof.
  intros Hf. apply map_eq. intros j. unfold sends. rewrite !lookup_omap. destruct (decide (j = id)) as [->|]; [|by rewrite lookup_alter_ne].
  rewrite lookup_alter_eq. destruct (legs !! id) as [l|] eqn:Hl; [|done]. cbn. by apply Hf.
Qed.
Lemma sends_alter f id l (legs : gmap nat leg) :
  legs !! id = Some l → sends (alter f id legs) = partial_alter (λ _, send_view (f l)) id (sends legs).
Proof.
  intros Hl. apply map_eq. intros j. unfold sends. rewrite lookup_omap, lookup_partial_alter. case_decide as Hj.
  - subst j. by rewrite lookup_alter_eq, Hl.
  - by rewrite lookup_alter_ne, lookup_omap.
Qed.
Lemma sends_insert id l (legs : gmap nat leg) : legs !! id = None → send_view l = None → sends (<[id := l]> legs) = sends legs.
Proof.
  intros Hl Hv. apply map_eq. intros j. unfold sends. rewrite !lookup_omap, lookup_insert. case_decide as Hj; [|done].
  subst j. rewrite Hl. cbn. done.
Qed.

(** Every request in flight is a frame with its id. *)
Definition framed (l : leg) : Prop := ∃ f, lg_out l = frame_bytes no_digest f ∧ wf_rid f = lg_rid l.
Lemma framed_nonempty l : framed l → (0 < length (lg_out l))%nat.
Proof.
  intros (f & -> & _). unfold frame_bytes, frame_message, put. cbn [dg_header dg_data no_digest]. rewrite !length_app.
  assert (∀ h, length (enc msg_hdr_codec h) = 8%nat) as -> by done. lia.
Qed.

Section wire.
Context (order : gmap Z nat → list nat).
Context (order_spec : ∀ m, order m ≡ₚ (map_to_list m).*2).

(** A session in which no send fails while the connection lives. *)
Definition clean (w : world) : Prop := ∀ id, t_sent id false ∉ w_stack w.
Definition clean_step (w w' : world) : Prop := session_step order w w' ∧ (live w' → clean w').

Record wire_inv (k : nat) (base : list Z) (w : world) : Prop := {
  x_frames id l : w_legs w !! id = Some l → leg_done l = false → framed l;
  x_fd : ac_fd (w_conn w) = Some k;
  x_wire : ∃ fs rest, w_wire w !! k = Some (base ++ concat (frame_bytes no_digest <$> fs) ++ rest) ∧ slot_of k w rest;
}.

(** A step that neither sends nor starts a request. *)
Lemma wire_same k base w w' :
  wire_inv k base w → (∀ id l', w_legs w' !! id = Some l' → leg_done l' = false → ∃ l, w_legs w !! id = Some l ∧ leg_done l = false ∧
    lg_out l' = lg_out l ∧ lg_rid l' = lg_rid l) →
  sends (w_legs w') = sends (w_legs w) → flat_map task_unparks (w_stack w') = flat_map task_unparks (w_stack w) →
  ac_sending (w_conn w') = ac_sending (w_conn w) → ac_fd (w_conn w') = ac_fd (w_conn w) → w_wire w' = w_wire w → wire_inv k base w'.
Proof.
  intros [H1 H2 H3] Hl Hs Hu Hsd Hfd Hw. split.
  - intros id l' Hl' Hd. destruct (Hl id l' Hl' Hd) as (l & Hl0 & Hd0 & Ho & Hr). destruct (H1 id l Hl0 Hd0) as (f & Hf & Hfr).
    exists f. by rewrite Ho, Hr.
  - congruence.
  - unfold slot_of. by rewrite Hw, Hs, Hu, Hsd.
Qed.

Lemma wire_alter k base w w' id f :
  wire_inv k base w → w_legs w' = alter f id (w_legs w) →
  (∀ l, w_legs w !! id = Some l → send_view (f l) = send_view l ∧ lg_out (f l) = lg_out l ∧ lg_rid (f l) = lg_rid l ∧ (leg_done (f l) = false → leg_done l = false)) →
  flat_map task_unparks (w_stack w') = flat_map task_unparks (w_stack w) →
  ac_sending (w_conn w') = ac_sending (w_conn w) → ac_fd (w_conn w') = ac_fd (w_conn w) → w_wire w' = w_wire w → wire_inv k base w'.
Proof.
  intros W Hl Hf. apply wire_same; [done| |].
  - intros j l'. rewrite Hl, lookup_alter. case_decide as Hj; [|eauto 10]. subst j. intros (l & Hl0 & ->)%fmap_Some Hd.
    exists l. destruct (Hf l Hl0) as (_ & ? & ? & ?). auto.
  - rewrite Hl. apply sends_alter_same. intros l Hl0. by apply Hf.
Qed.

Lemma framed_alter w id a :
  (∀ i l, w_legs w !! i = Some l → leg_done l = false → framed l) → (∀ l, w_legs w !! id = Some l → leg_done l = false) →
  ∀ i l, alter (leg_to a) id (w_legs w) !! i = Some l → leg_done l = false → framed l.
Proof.
  intros H Hd i l. rewrite lookup_alter. case_decide as Hi; [|apply H]. subst i. intros (l0 & Hl0 & ->)%fmap_Some _.
  destruct (H id l0 Hl0 (Hd l0 Hl0)) as (f & ? & ?). by exists f.
Qed.

Lemma failed_not_clean w id : ¬ clean (after_send id false w).
Proof. intros H. apply (H id). unfold after_send, release_send. destruct (ac_send_waiters _); world_simpl; set_solver. Qed.

(** The leg that has the slot goes on sending, or passes the slot on. *)
Lemma send_more_wire k base w id l off fs :
  (∀ i l, w_legs w !! i = Some l → leg_done l = false → framed l) → ac_fd (w_conn w) = Some k →
  w_legs w !! id = Some l → leg_done l = false → ac_sending (w_conn w) = true → flat_map task_unparks (w_stack w) = [] →
  delete id (sends (w_legs w)) = ∅ → (off ≤ length (lg_out l))%nat →
  w_wire w !! k = Some (base ++ concat (frame_bytes no_digest <$> fs) ++ take off (lg_out l)) →
  clean (send_more id off w) → wire_inv k base (send_more id off w).
Proof.
  intros Hfr Hfd Hl Hd Hsd Hu Hs Hoff Hw. unfold send_more. rewrite Hl. destruct (Hfr id l Hl Hd) as (f & Hf & _).
  assert (∀ i l', w_legs w !! i = Some l' → i = id → leg_done l' = false) as Hd' by (intros; congruence).
  case_decide as Hlen.
  - intros _. rewrite take_ge, Hf in Hw by done. unfold after_send, release_send.
    assert (sends (alter (leg_to at_run) id (w_legs w)) = ∅) as Hs'.
    { rewrite (sends_alter _ _ _ _ Hl). exact Hs. }
    assert (w_wire w !! k = Some (base ++ concat (frame_bytes no_digest <$> (fs ++ [f])) ++ [])) as Hw'.
    { rewrite fmap_app, concat_app. cbn. by rewrite !app_nil_r. }
    destruct (ac_send_waiters _) as [|h ws]; (split; world_simpl; [by apply framed_alter; eauto|done|]);
      (exists (fs ++ [f]), []); (split; [exact Hw'|]); unfold slot_of; world_simpl; rewrite Hs'; cbn [task_unparks app]; rewrite Hu, ?Hsd; constructor.
  - unfold acquire_sqe. destruct (w_sqes w) as [|n]; [intros Hc; by apply failed_not_clean in Hc|]. intros _.
    split; world_simpl; [by apply framed_alter; eauto|done|]. exists fs, (take off (lg_out l)). split; [done|]. unfold slot_of. world_simpl.
    rewrite Hsd, Hu, (sends_alter _ _ _ _ Hl). unfold send_view. world_simpl. rewrite Hfd.
    assert (partial_alter (λ _, Some (Some k, off, lg_out l)) id (sends (w_legs w)) = {[id := (Some k, off, lg_out l)]}) as ->; [|constructor].
    apply map_eq. intros j. rewrite lookup_partial_alter, lookup_singleton. case_decide; [done|].
    rewrite <-(lookup_delete_ne _ id) by done. by rewrite Hs, lookup_empty.
Qed.

(** ** A dead connection stays dead *)

Lemma live_after_send w id ok : live (after_send id ok w) → live w.
Proof. unfold after_send, release_send, live. destruct (ac_send_waiters _); world_simpl; set_solver. Qed.
Lemma live_send_more w id off : live (send_more id off w) → live w.
Proof.
  unfold send_more. destruct (w_legs w !! id); [|done]. case_decide; [apply live_after_send|].
  unfold acquire_sqe. destruct (w_sqes w); [apply live_after_send|done].
Qed.
Lemma live_end_leg w id r : live (end_leg id r (erase_pending id w)) → live w.
Proof.
  unfold end_leg, erase_pending. destruct (w_legs w !! id) as [l|] eqn:Hl; world_simpl; rewrite Hl; [|done].
  destruct (lg_for l); unfold live; world_simpl; set_solver.
Qed.
Lemma live_got w id : live (got_reply id w) → live w.
Proof. unfold got_reply. destruct (w_legs w !! id); [apply live_end_leg|done]. Qed.
Lemma live_start w id for_ o oh body : live (start_leg id for_ o oh body w) → live w.
Proof. unfold start_leg. cbv zeta. destruct (ac_sending _); [done|]. intros H%live_send_more. exact H. Qed.

Lemma live_task w t ts : live_inv w → w_stack w = t :: ts → live (run_task order t (set_stack ts w)) → live w.
Proof.
  intros [C _] Hs. assert (∀ w', live w' → w_stack w' = ts → ac_pump (w_conn w') = ac_pump (w_conn w) → live w) as Hsub.
  { unfold live. intros w' Hw' Hst Hp. rewrite Hs. rewrite Hst, Hp in Hw'. set_solver. }
  assert (live (set_stack ts w) → live w) as Hpop by (intros H; by apply (Hsub _ H)).
  pose proof (n_tasks _ C) as Hf. rewrite Hs in Hf. apply Forall_cons_1 in Hf as [Hf _].
  destruct t as [id|id ok|id|[|id ids]| |[|id ids]| | | |c id oh|c r|[|c cs]|c r]; try done; cbn [run_task].
  - intros H%live_send_more. by apply Hpop.
  - destruct ok; [|intros H%live_end_leg; by apply Hpop]. destruct (w_legs _ !! id); [|done].
    destruct (sl_ready _); [intros H%live_got; by apply Hpop|]. intros H. by apply Hpop.
  - intros H%live_got. by apply Hpop.
  - destruct (match w_legs _ !! id with Some _ => _ | None => _ end); intros H; apply Hpop; revert H; unfold live; world_simpl; set_solver.
  - intros H. apply Hpop. revert H. unfold live. world_simpl. set_solver.
  - intros H. apply Hpop. revert H. unfold live. world_simpl. set_solver.
  - intros _. right; left. rewrite Hs. set_solver.
  - intros _. right; right. rewrite Hs. set_solver.
  - intros H. apply Hpop. revert H. unfold live. world_simpl. set_solver.
Qed.

Lemma live_back w w' : session_step order w w' → live_inv w → live w' → live w.
Proof.
  intros Hs L. destruct Hs as [w w' Hr Hok|w n|w id l fd off n Hst Hl Ha Hn|w res Hst Hp Hres|w id o oh body Hf Hrd Hid Hrid].
  - unfold run_top in Hr. destruct (w_stack w) as [|t ts] eqn:Hst; [done|]. injection Hr as <-. by apply live_task.
  - done.
  - unfold send_cqe. rewrite Hl, Ha. destruct (n <=? 0)%Z; [apply live_after_send|]. intros H%live_send_more. by destruct fd.
  - intros _. by left.
  - apply live_start.
Qed.

(** ** The invariant of a clean session *)

Lemma end_leg_wire k base w id r l :
  wire_inv k base w → live_core w → w_legs w !! id = Some l → leg_done l = false → send_view l = None →
  wire_inv k base (end_leg id r (erase_pending id w)).
Proof.
  intros W C Hl Hd Hv. unfold end_leg, erase_pending. rewrite Hl. world_simpl. rewrite Hl, (n_for _ C id l Hl Hd).
  eapply (wire_alter k base w _ id); try done. intros l' Hl'. simplify_eq. rewrite Hv. done.
Qed.
Lemma got_reply_wire k base w id l :
  wire_inv k base w → live_core w → w_legs w !! id = Some l → leg_done l = false → send_view l = None →
  wire_inv k base (got_reply id w).
Proof. intros W C Hl Hd Hv. unfold got_reply. rewrite Hl. by eapply end_leg_wire. Qed.

Lemma drain_one_wire k base w : wire_inv k base w → ac_pump (w_conn w) ≠ pump_recv → w_stack w = [] → live (drain_one order w) →
  wire_inv k base (drain_one order w).
Proof.
  intros W Hp Hs. unfold drain_one. set (rx := ac_rx (w_conn w)). destruct (parse_message _ _ _) as [p|e].
  2:{ destruct e; [|unfold pump_fails, fail_all, live; world_simpl; rewrite Hs; set_solver..].
      intros _. apply (wire_same k base w); try done; eauto 10. }
  intros _. set (w1 := push [t_drain] _). assert (wire_inv k base w1) as W1 by (apply (wire_same k base w); try done; eauto 10).
  destruct (ac_pending (w_conn w1) !! _) as [id|]; [|done].
  destruct (match w_legs w1 !! id with Some _ => _ | None => _ end); (eapply (wire_alter k base w1 _ id); [exact W1|reflexivity|..]; done).
Qed.

(** While slots are failed the connection is dead. *)
Lemma failing_dead w t ts : inv w → live_core w → w_stack w = t :: ts → failing_task t = true ∨ t = t_pump_exit → ¬ live w.
Proof.
  intros I C Hs Ht Hlv. pose proof (v_stack w I) as Hst. rewrite Hs in Hst. destruct Hst as [Hb Hst].
  pose proof (n_pump _ C) as Hp. pose proof (n_tasks _ C) as Hf. unfold live in Hlv. rewrite Hs in Hp, Hlv, Hf.
  assert (∃ us, t :: ts = us ++ [t_pump_exit] ∧ t_drain ∉ us ∧ t_arm ∉ us) as (us & Hus & Hd & Ha).
  { destruct t; destruct Ht as [Ht|Ht]; try discriminate; cbn in Hb, Hst; try (destruct Hb as [ts' ->]); cbn in Hst;
      decompose_Forall_hyps; destruct_and?; match goal with H : base_ok ?us |- _ => rewrite (base_nil us) by done end.
    - by exists [t_fail ids; t_fail_parked]; split_and!; [done|set_solver..].
    - by exists [t_fail_parked]; split_and!; [done|set_solver..].
    - by exists [t_resume_parked ids]; split_and!; [done|set_solver..].
    - by exists []; split_and!; [done|set_solver..]. }
  rewrite Hus in Hp, Hlv. destruct Hlv as [?|[?|?]]; [apply Hp; [set_solver|done]|set_solver..].
Qed.

Lemma run_task_wire k base w t ts :
  inv w → live_inv w → wire_inv k base w → clean w → w_stack w = t :: ts → task_ok w → live w →
  live (run_task order t (set_stack ts w)) → clean (run_task order t (set_stack ts w)) → wire_inv k base (run_task order t (set_stack ts w)).
Proof.
  intros I [C Hh] W Hc Hs Hok Hlv Hlv' Hc'.
  assert ((∀ id, t ≠ t_unpark id) → wire_inv k base (set_stack ts w)) as Hpop.
  { intros Hu. apply (wire_same k base w); try done; eauto 10. rewrite Hs. destruct t; try done. by destruct (Hu id). }
  assert (t ≠ t_drain → t ≠ t_arm → t ≠ t_pump_exit → live_core (set_stack ts w)) as Cpop by (intros; by eapply pop_core).
  pose proof (n_tasks _ C) as Hf. rewrite Hs in Hf. apply Forall_cons_1 in Hf as [Hf Hfs].
  destruct t as [id|id ok|id|ids| |ids| | | |c id oh|c r|cs|c r]; try done; try (by destruct (failing_dead w _ ts I C Hs (or_introl eq_refl)));
    cbn [run_task] in *.
  - destruct (task_leg w _ ts id I Hs) as (l & Hl & Hd & Ha%send_view_none); [cbn; set_solver|].
    destruct W as [H1 H2 (fs & rest & Hw & Hslot)]. unfold slot_of in Hslot. rewrite Hs in Hslot. cbn in Hslot.
    inversion Hslot as [|id' Hsd Hu Hsn|]; subst. apply (send_more_wire k base _ id l 0 fs); try done; [|lia].
    change (delete id (sends (w_legs w)) = ∅). rewrite <-Hsn. apply delete_empty.
  - destruct (task_leg w _ ts id I Hs) as (l & Hl & Hd & Ha%send_view_none); [cbn; set_solver|].
    destruct ok; [|exfalso; apply (Hc id); rewrite Hs; set_solver]. cbn [set_stack w_legs] in *. rewrite Hl in *.
    destruct (sl_ready (lg_slot l)); [by apply (got_reply_wire k base _ id l); auto|].
    eapply (wire_alter k base (set_stack ts w) _ id); [by apply Hpop|done| |done..]. intros l' Hl'. cbn in Hl'. simplify_eq. by rewrite Ha.
  - destruct (task_leg w _ ts id I Hs) as (l & Hl & Hd & Ha%send_view_none); [cbn; set_solver|]. by apply (got_reply_wire k base _ id l); auto.
  - pose proof (v_stack w I) as Hst. rewrite Hs in Hst. destruct Hst as [-> _]. apply drain_one_wire; try done; [by apply Hpop|].
    apply (n_pump _ C). left. rewrite Hs. set_solver.
  - unfold acquire_sqe in *. cbn [set_stack w_sqes] in *. destruct (w_sqes w) as [|n].
    { exfalso. pose proof (v_stack w I) as Hst. rewrite Hs in Hst. destruct Hst as [Hb _]. apply base_nil in Hb as ->; [|done].
      assert (ac_pump (w_conn w) ≠ pump_recv) by (apply (n_pump _ C); right; left; rewrite Hs; left).
      revert Hlv'. unfold pump_fails, fail_all, live. world_simpl. set_solver. }
    apply (wire_same k base (set_stack ts w)); [by apply Hpop|eauto 10|done..].
  - by destruct (failing_dead w _ ts I C Hs (or_intror eq_refl)).
Qed.

Lemma start_leg_wire k base w id o oh body :
  wire_inv k base w → w_legs w !! id = None → clean (start_leg id None o oh body w) → wire_inv k base (start_leg id None o oh body w).
Proof.
  intros [H1 H2 (fs & rest & Hw & Hslot)] Hid. unfold start_leg. set (l := Mk_leg _ _ _ _ _). set (w1 := upd_conn _ (set_leg id l w)).
  assert (w_legs w1 = <[id := l]> (w_legs w)) as Hl1 by done.
  assert (w_legs w1 !! id = Some l) as Hl by (rewrite Hl1; apply lookup_insert_eq).
  assert (∀ i li, w_legs w1 !! i = Some li → leg_done li = false → framed li) as Hfr.
  { intros i li. rewrite Hl1, lookup_insert. case_decide; [intros [= <-] _|apply H1].
    by exists (Mk_frame o 0 (ac_next_rid (w_conn w)) oh body). }
  assert (sends (w_legs w1) = sends (w_legs w)) as Hs1 by (rewrite Hl1; by apply sends_insert).
  destruct (ac_sending (w_conn w1)) eqn:Hsd.
  - intros _. apply (wire_alter k base w1 _ id (leg_to at_park)); try done; [|intros l' Hl'; by simplify_eq].
    split; [done|done|]. exists fs, rest. split; [done|]. unfold slot_of. by rewrite Hs1.
  - unfold slot_of in Hslot. change (ac_sending (w_conn w) = false) in Hsd. rewrite Hsd in Hslot.
    remember (flat_map task_unparks (w_stack w)) as u eqn:Hu. remember (sends (w_legs w)) as sn eqn:Hsn.
    inversion Hslot; subst u rest. apply (send_more_wire k base _ id l 0 fs); try done.
    + change (delete id (sends (w_legs w1)) = ∅). rewrite Hs1. subst sn. by rewrite <-H3, delete_empty.
    + lia.
Qed.

Lemma clean_step_wire k base w w' :
  clean_step w w' → inv w → live_inv w → (live w → wire_inv k base w ∧ clean w) → live w' → wire_inv k base w' ∧ clean w'.
Proof.
  intros [Hs Hc'] I L HW Hlv'. pose proof (live_back w w' Hs L Hlv') as Hlv. destruct (HW Hlv) as [W Hc]. specialize (Hc' Hlv'). split; [|done].
  destruct Hs as [w w' Hr Hok|w n|w id l fd off n Hst Hl Ha Hn|w res Hst Hp Hres|w id o oh body Hf Hrd Hid Hrid].
  - unfold run_top in Hr. destruct (w_stack w) as [|t ts] eqn:Hst; [done|]. injection Hr as <-. by apply run_task_wire.
  - apply (wire_same k base w); try done; eauto 10.
  - destruct W as [H1 H2 (fs & rest & Hw & Hslot)]. unfold slot_of in Hslot. rewrite Hst in Hslot. cbn in Hslot.
    assert (sends (w_legs w) !! id = Some (fd, off, lg_out l)) as Hsl by (unfold sends; rewrite lookup_omap, Hl; unfold send_view; cbn; by rewrite Ha).
    assert (leg_done l = false) as Hd by (unfold leg_done; by rewrite Ha).
    remember (sends (w_legs w)) as sn eqn:Hsn. remember (ac_sending (w_conn w)) as sd eqn:Hsd.
    destruct Hslot as [| |id' off' out]; [by rewrite lookup_empty in Hsl|by rewrite lookup_empty in Hsl|].
    apply lookup_singleton_Some in Hsl as [-> [= <- -> ->]]. unfold send_cqe in *. rewrite Hl, Ha in *.
    destruct (Z.leb_spec n 0); [by apply failed_not_clean in Hc'|]. destruct (Hn ltac:(lia)) as [_ Hle].
    apply (send_more_wire k base _ id l (off + Z.to_nat n) fs); try done.
    + world_simpl. by rewrite Hst.
    + world_simpl. rewrite <-Hsn. apply delete_singleton_eq.
    + world_simpl. rewrite lookup_insert_eq, Hw. cbn. f_equal. rewrite <-!(assoc_L (++)). do 2 f_equal. unfold subspan. by rewrite take_take_drop.
  - unfold recv_cqe in *. rewrite (n_stopping _ (n_core _ L)) in *. destruct res as [bs|].
    + apply (wire_same k base w); try done; eauto 10.
    + exfalso. revert Hlv'. unfold pump_fails, fail_all, live. world_simpl. rewrite Hst. set_solver.
  - by apply start_leg_wire.
Qed.

(** C21: Requests go out whole.  In a session that starts with no request outstanding, of this
    or of an earlier connection, as long as the connection lives and no send fails, what the
    session has put on its socket is a sequence of whole frames, followed by nothing or by
    the beginning of the one frame that is being sent.  With a send of an earlier connection
    still outstanding it is false ([stale_send_interleaves]), and so it is once a send has
    failed ([half_frame_stays]). *)
Theorem requests_whole k base w0 w :
  session_start k w0 → w_wire w0 !! k = Some base → rtc clean_step w0 w → live w →
  ∃ fs rest, w_wire w !! k = Some (base ++ concat (frame_bytes no_digest <$> fs) ++ rest) ∧
    (rest = [] ∨ ∃ id l f off, w_legs w !! id = Some l ∧ lg_at l = at_send (Some k) off ∧ lg_out l = frame_bytes no_digest f ∧
       wf_rid f = lg_rid l ∧ rest = take off (lg_out l)).
Proof.
  intros S Hb Hr Hlv. assert (inv w ∧ live_inv w ∧ (live w → wire_inv k base w ∧ clean w)) as (_ & _ & HW).
  { refine (rtc_ind_r (λ w, inv w ∧ live_inv w ∧ (live w → wire_inv k base w ∧ clean w)) _ _ _ _ Hr).
    - split_and!; [apply S|by eapply session_start_live|]. intros _. split; [|intros id; rewrite (st_stack _ _ S); apply not_elem_of_nil].
      split; [intros id l Hl Hd; by rewrite (st_legs _ _ S id l Hl) in Hd|apply S|]. exists [], []. split; [by rewrite !app_nil_r|].
      unfold slot_of. rewrite (st_sending _ _ S), (st_stack _ _ S).
      assert (sends (w_legs w0) = ∅) as ->; [|constructor]. apply map_empty. intros j. unfold sends. rewrite lookup_omap.
      destruct (w_legs w0 !! j) as [l|] eqn:Hl; [|done]. cbn. apply (st_legs _ _ S) in Hl. unfold send_view. unfold leg_done in Hl. by destruct (lg_at l).
    - intros w1 w2 _ Hs (I & L & HW). pose proof Hs as [Hss _]. split_and!; [by eapply session_inv|by eapply session_live|].
      intros Hlv2. by eapply clean_step_wire. }
  destruct (HW Hlv) as [[H1 H2 (fs & rest & Hw & Hslot)] _]. exists fs, rest. split; [done|]. unfold slot_of in Hslot.
  remember (sends (w_legs w)) as sn eqn:Hsn. destruct Hslot as [| |id off out]; [by left|by left|right].
  assert (sends (w_legs w) !! id = Some (Some k, off, out)) as Hsl by (rewrite <-Hsn; apply lookup_singleton_eq).
  unfold sends in Hsl. rewrite lookup_omap in Hsl. destruct (w_legs w !! id) as [l|] eqn:Hl; [|done]. cbn in Hsl. unfold send_view in Hsl.
  destruct (lg_at l) eqn:Ha; simplify_eq. destruct (H1 id l Hl) as (f & Hf & Hfr); [unfold leg_done; by rewrite Ha|].
  by exists id, l, f, off.
Qed.
End wire.
