(* ===== verification/AsyncTerm.v ===== *)
(** * Nested resumptions end

    Resuming one coroutine of the ring connection can resume others: a reply wakes a leg, a
    fault fails all of them, a finished HELO wakes the callers behind it.  A weight on the
    tasks and on what the connection still holds decreases with every task, so control always
    returns to the ring's owner. *)

From S2P Require Import Prelude Codec WireTypes Wire Types Conn WireClient AsyncConn AsyncInv.

Local Open Scope craft_scope.
Local Open Scope nat_scope.

(** What a task can still cause, and what the entries of the connection's tables can. *)
Definition task_weight (t : task) : nat :=
  match t with
  | t_return _ _ | t_pump_exit => 1
  | t_wake cs => 1 + length cs
  | t_helo _ _ => 4
  | t_sent _ _ | t_got _ => 6
  | t_unpark _ => 8
  | t_fail ids => 1 + 8 * length ids
  | t_fail_parked => 3
  | t_resume_parked ids => 1 + 10 * length ids
  | t_arm => 7
  | t_drain => 9
  | t_send_helo _ _ _ => 30
  end.
Definition weight (w : world) : nat :=
  sum_list_with task_weight (w_stack w) + length (ac_rx (w_conn w)) + 8 * size (ac_pending (w_conn w)) +
  10 * length (ac_send_waiters (w_conn w)) + length (ac_connect_waiters (w_conn w)).

Ltac weigh := unfold weight in *; cbn [sum_list_with task_weight length app] in *; world_simpl; cbn [sum_list_with task_weight length app] in *.

Lemma after_send_weight id ok w : weight (after_send id ok w) ≤ weight w + 6.
Proof.
  unfold after_send, release_send. world_simpl. destruct (ac_send_waiters (w_conn w)) as [|h ws] eqn:Hq; weigh; rewrite ?Hq; simpl; lia.
Qed.
Lemma send_more_weight id off w : weight (send_more id off w) ≤ weight w + 6.
Proof.
  unfold send_more. destruct (w_legs w !! id); [|lia]. case_decide; [apply after_send_weight|]. unfold acquire_sqe.
  destruct (w_sqes w); [apply after_send_weight|]. weigh. lia.
Qed.
Lemma end_leg_weight id r w : weight (end_leg id r (erase_pending id w)) ≤ weight w + 4.
Proof.
  unfold end_leg, erase_pending. destruct (w_legs w !! id) as [l|] eqn:Hl; world_simpl; rewrite Hl; [|lia].
  assert (size (delete (lg_rid l) (ac_pending (w_conn w))) ≤ size (ac_pending (w_conn w))) by (rewrite map_size_delete; case_match; unfold Datatypes.id; lia).
  destruct (lg_for l); weigh; lia.
Qed.
Lemma got_reply_weight id w : weight (got_reply id w) ≤ weight w + 4.
Proof. unfold got_reply. destruct (w_legs w !! id); [apply end_leg_weight|lia]. Qed.
Lemma start_leg_weight id for_ o oh body w : weight (start_leg id for_ o oh body w) ≤ weight w + 18.
Proof.
  unfold start_leg. cbv zeta. set (w1 := upd_conn _ (set_leg _ _ w)).
  assert (weight w1 ≤ weight w + 8) as H1.
  { unfold w1. weigh. rewrite map_size_insert. case_match; unfold Datatypes.id; lia. }
  destruct (ac_sending (w_conn w1)).
  - revert H1. weigh. rewrite length_app. simpl. lia.
  - etransitivity; [apply send_more_weight|]. revert H1. weigh. lia.
Qed.
Lemma finish_weight c r w : weight (finish c r w) ≤ weight w + 2.
Proof. unfold finish. weigh. lia. Qed.
Lemma helo_done_weight c r w : weight (helo_done c r w) ≤ weight w + 2.
Proof. unfold helo_done. repeat case_match; etransitivity; try apply finish_weight; weigh; lia. Qed.

Section term.
Context (order : gmap Z nat → list nat).
Context (order_spec : ∀ m, order m ≡ₚ (map_to_list m).*2).

Lemma pump_fails_weight w : weight (pump_fails order w) ≤ weight w + 5.
Proof.
  assert (length (order (ac_pending (w_conn w))) = size (ac_pending (w_conn w))) as Hl.
  { rewrite order_spec, length_fmap. apply length_map_to_list. }
  unfold pump_fails, fail_all. weigh. rewrite Hl, map_size_empty. lia.
Qed.
Lemma drain_one_weight w : weight (drain_one order w) < weight w + 9.
Proof.
  unfold drain_one. destruct (parse_message _ _ _) as [p|e] eqn:Hp.
  2:{ destruct e; [weigh; lia|..]; (eapply Nat.le_lt_trans; [apply pump_fails_weight|weigh; lia]). }
  pose proof (parse_message_total _ _ _ _ Hp) as Ht. destruct (parse_message_take _ _ _ _ Hp) as [H8 _]. change (csize msg_hdr_codec) with 8 in H8.
  world_simpl. destruct (ac_pending (w_conn w) !! _) as [id|] eqn:Hid; [|weigh; rewrite length_drop; lia].
  assert (size (ac_pending (w_conn w)) = S (size (delete (mh_request_id (m_hdr p)) (ac_pending (w_conn w))))) as Hsz.
  { rewrite map_size_delete, Hid. assert (size (ac_pending (w_conn w)) ≠ 0); [|lia]. by apply (map_size_ne_0_lookup_2 _ (mh_request_id (m_hdr p))); eexists. }
  destruct (match w_legs w !! id with Some _ => _ | None => _ end); weigh; rewrite length_drop; lia.
Qed.

Lemma run_task_weight w t ts : w_stack w = t :: ts → weight (run_task order t (set_stack ts w)) < weight w.
Proof.
  intros Hs. assert (weight (set_stack ts w) + task_weight t = weight w) as Hw by (weigh; rewrite Hs; cbn [sum_list_with]; lia).
  destruct t as [id|id ok|id|[|id ids]| |[|id ids]| | | |c id oh|c r|[|c cs]|c r]; cbn [run_task task_weight length] in *; try lia.
  - pose proof (send_more_weight id 0 (set_stack ts w)). lia.
  - destruct ok; [|pose proof (end_leg_weight id (Err ne_send) (set_stack ts w)); lia].
    destruct (w_legs (set_stack ts w) !! id) as [l|]; [|lia]. destruct (sl_ready _); [pose proof (got_reply_weight id (set_stack ts w)); lia|].
    revert Hw. weigh. lia.
  - pose proof (got_reply_weight id (set_stack ts w)). lia.
  - destruct (match w_legs (set_stack ts w) !! id with Some _ => _ | None => _ end); revert Hw; weigh; lia.
  - revert Hw. weigh. lia.
  - revert Hw. weigh. lia.
  - pose proof (drain_one_weight (set_stack ts w)). lia.
  - unfold acquire_sqe. destruct (w_sqes _); [pose proof (pump_fails_weight (set_stack ts w)); lia|]. revert Hw. weigh. lia.
  - revert Hw. weigh. lia.
  - pose proof (start_leg_weight id (Some c) helo oh [] (set_caller c c_helo (set_stack ts w))). revert Hw H. weigh. lia.
  - pose proof (helo_done_weight c r (set_caller c c_run (set_stack ts w))). revert Hw H. weigh. lia.
  - revert Hw. weigh. lia.
  - revert Hw. weigh. lia.
Qed.

(** Running tasks until none is left. *)
Fixpoint run_all (fuel : nat) (w : world) : option world :=
  match run_top order w, fuel with
  | None, _ => Some w
  | Some _, O => None
  | Some w, S fuel => run_all fuel w
  end.

Lemma run_all_ends fuel w : weight w ≤ fuel → ∃ w', run_all fuel w = Some w' ∧ w_stack w' = [].
Proof.
  revert w. induction fuel as [|fuel IH]; intros w Hw.
  - exists w. assert (w_stack w = []) as Hs.
    { destruct (w_stack w) as [|t ts] eqn:Hs; [done|]. pose proof (run_task_weight w t ts Hs). lia. }
    cbn. unfold run_top. by rewrite Hs.
  - cbn. unfold run_top. destruct (w_stack w) as [|t ts] eqn:Hs; [by exists w|]. apply IH. pose proof (run_task_weight w t ts Hs). lia.
Qed.

(** C23: Whatever the running thread has to do, it is done after as many tasks as the weight of
    the connection, and control is back at the ring's owner. *)
Theorem resumptions_end w : ∃ w', run_all (weight w) w = Some w' ∧ w_stack w' = [].
Proof. by apply run_all_ends. Qed.
End term.
