(* ===== verification/AsyncRun.v ===== *)
(** * Runs of the ring connection

    An executable driver for the machine of [AsyncConn], sound for its step relation; the
    theorems about it applied to a session; and the runs in which the connection goes wrong:
    a reconnect while a send of the last connection is outstanding, a refused HELO, a nested
    reconnect, a full submission queue. *)

From S2P Require Import Prelude Codec WireTypes Wire Types Conn WireClient AsyncConn AsyncInv AsyncLive AsyncWire AsyncTerm.

Local Open Scope craft_scope.
Local Open Scope Z_scope.

(** The hash table visited in the order of its keys. *)
Definition by_key (m : gmap Z nat) : list nat := (map_to_list m).*2.
Lemma by_key_spec m : by_key m ≡ₚ (map_to_list m).*2.
Proof. done. Qed.

(** ** Delivery *)

(** C20: A request that ends with a reply has its own: the message parses and carries the
    request's id, over any interleaving of requests, reconnects, sends, receives and faults. *)
Theorem reply_has_request_id order max_tx w id l msg :
  (∀ m, order m ≡ₚ (map_to_list m).*2) → rtc (ring_step order) (mk_world max_tx) w →
  w_legs w !! id = Some l → lg_at l = at_end (Ok msg) →
  ∃ p, parse_message msg (ac_max_tx (w_conn w)) no_digest = Ok p ∧ mh_request_id (m_hdr p) = lg_rid l.
Proof.
  intros Ho Hr Hl Ha. pose proof (reachable_inv order Ho max_tx w Hr) as I. exact (lo_end _ _ _ _ (k_legs _ _ _ (v_core w I) id l Hl) msg Ha).
Qed.

(** ** The driver *)

Inductive event :=
| ev_room (n : nat)
| ev_tasks
| ev_send (id : nat) (n : Z)
| ev_recv (res : option (list Z))
| ev_connect (c : nat) (ok : bool) (id : nat)
| ev_request (id : nat) (o : op) (oh body : list Z)
| ev_ensure (c : nat) (can : bool) (oh : list Z).

#[export] Instance rid_free_dec w : Decision (rid_free w).
Proof. unfold rid_free. apply _. Defined.
#[export] Instance task_ok_dec w : Decision (task_ok w).
Proof. unfold task_ok. destruct (w_stack w) as [|[]]; apply _. Defined.

(** Every task left, each checked. *)
Fixpoint run_tasks (fuel : nat) (w : world) : option world :=
  match run_top by_key w, fuel with
  | None, _ => Some w
  | Some _, O => None
  | Some w', S fuel => if decide (task_ok w) then run_tasks fuel w' else None
  end.
Definition is_nil {A} (l : list A) : bool := match l with [] => true | _ => false end.
Definition run_event (e : event) (w : world) : option world :=
  match e with
  | ev_room n => Some (set_sqes n w)
  | ev_tasks => run_tasks (weight w) w
  | ev_send id n =>
      match w_legs w !! id with
      | Some l =>
          match lg_at l with
          | at_send fd off =>
              if is_nil (w_stack w) && ((n <=? 0) || (bool_decide (fd ≠ None) && bool_decide (off + Z.to_nat n ≤ length (lg_out l))%nat))
              then Some (send_cqe id n w) else None
          | _ => None
          end
      | None => None
      end
  | ev_recv res =>
      match ac_pump (w_conn w) with
      | pump_recv => if is_nil (w_stack w) && bool_decide (res ≠ Some []) then Some (recv_cqe by_key res w) else None
      | _ => None
      end
  | ev_connect c ok id =>
      match w_callers w !! c with
      | Some (c_connect oh) => if is_nil (w_stack w) then Some (connect_cqe c ok id w) else None
      | _ => None
      end
  | ev_request id o oh body =>
      if negb (failing w) && ac_ready (w_conn w) && bool_decide (rid_free w) then
        match w_legs w !! id with None => Some (start_leg id None o oh body w) | Some _ => None end
      else None
  | ev_ensure c can oh =>
      if failing w then None else match w_callers w !! c with None => ensure_ready c can oh w | Some _ => None end
  end.
Definition run_events (es : list event) (w : world) : option world := foldl (λ w e, w ≫= run_event e) (Some w) es.

Lemma run_tasks_steps fuel w w' : run_tasks fuel w = Some w' → rtc (session_step by_key) w w'.
Proof.
  revert w. induction fuel as [|fuel IH]; intros w; cbn; destruct (run_top by_key w) as [w1|] eqn:Hr; try done; try (by intros [= <-]; apply rtc_refl).
  destruct (decide (task_ok w)) as [Hok|]; [|done]. intros H. eapply rtc_l; [by apply ss_task|by apply IH].
Qed.

Definition session_event (e : event) : bool := match e with ev_connect _ _ _ | ev_ensure _ _ _ => false | _ => true end.
Lemma is_nil_true {A} (l : list A) : is_nil l = true → l = [].
Proof. by destruct l. Qed.

Lemma run_event_session e w w' : session_event e = true → run_event e w = Some w' → rtc (session_step by_key) w w'.
Proof.
  destruct e as [n| |id n|res|c ok id|id o oh body|c can oh]; try done; intros _; cbn.
  - intros [= <-]. apply rtc_once, ss_room.
  - apply run_tasks_steps.
  - destruct (w_legs w !! id) as [l|] eqn:Hl; [|done]. destruct (lg_at l) as [|fd off| | |] eqn:Ha; try done.
    destruct (is_nil (w_stack w)) eqn:Hs; [|done]. cbn [andb]. destruct (_ || _) eqn:Hn; [|done]. intros [= <-].
    apply rtc_once. eapply ss_send; [by apply is_nil_true|done|done|]. intros Hpos.
    apply orb_true_iff in Hn as [Hn|Hn]; [lia|]. by apply andb_true_iff in Hn as [?%bool_decide_eq_true_1 ?%bool_decide_eq_true_1].
  - destruct (ac_pump (w_conn w)) eqn:Hp; try done. destruct (is_nil (w_stack w)) eqn:Hs; [|done]. cbn [andb].
    destruct (bool_decide _) eqn:Hb; [|done]. intros [= <-]. apply rtc_once, ss_recv; [by apply is_nil_true|done|by apply bool_decide_eq_true_1 in Hb].
  - destruct (failing w) eqn:Hf; [done|]. destruct (ac_ready (w_conn w)) eqn:Hr; [|done]. cbn [negb andb].
    destruct (bool_decide (rid_free w)) eqn:Hb; [|done]. destruct (w_legs w !! id) eqn:Hl; [done|]. intros [= <-].
    apply rtc_once, ss_request; try done. by apply bool_decide_eq_true_1 in Hb.
Qed.

Lemma run_event_steps e w w' : run_event e w = Some w' → rtc (ring_step by_key) w w'.
Proof.
  destruct (session_event e) eqn:Hs.
  - intros H%run_event_session; [|done]. eapply rtc_subrel; [|exact H]. intros x y. apply session_ring.
  - destruct e as [| | | |c ok id| |c can oh]; try done; cbn.
    + destruct (w_callers w !! c) as [[]|] eqn:Hc; try done. destruct (is_nil (w_stack w)) eqn:Hn; [|done]. intros [= <-].
      apply rtc_once. eapply rs_connect; [by apply is_nil_true|done].
    + destruct (failing w) eqn:Hf; [done|]. destruct (w_callers w !! c) eqn:Hc; [done|]. intros H. apply rtc_once. by eapply rs_ensure.
Qed.

Lemma run_events_app es e w : run_events (es ++ [e]) w = run_events es w ≫= run_event e.
Proof. unfold run_events. by rewrite foldl_app. Qed.
Lemma run_events_steps es w w' : run_events es w = Some w' → rtc (ring_step by_key) w w'.
Proof.
  revert w'. induction es as [|e es IH] using rev_ind; intros w'; [intros [= <-]; apply rtc_refl|]. rewrite run_events_app.
  intros (w1 & H1 & H2)%bind_Some. etransitivity; [by apply IH|by apply (run_event_steps e)].
Qed.
Lemma run_events_session es w w' : forallb session_event es = true → run_events es w = Some w' → rtc (session_step by_key) w w'.
Proof.
  revert w'. induction es as [|e es IH] using rev_ind; intros w' Hf; [intros [= <-]; apply rtc_refl|]. rewrite run_events_app.
  rewrite forallb_app in Hf. apply andb_true_iff in Hf as [Hes He]. cbn in He. rewrite andb_true_r in He.
  intros (w1 & H1 & H2)%bind_Some. etransitivity; [by apply IH|by apply (run_event_session e)].
Qed.

(** ** Establishing a connection *)

Definition helo_oh (term : Z) : list Z := enc helo_req_codec (Mk_helo_req (replicate 16 2) 5 term).
Definition reply_bytes (o : op) (st : status) (rid : Z) (oh : list Z) : list Z := frame_message [] o (status_byte st) rid oh [] no_digest.
Definition alive_oh : list Z := enc keepalive_req_codec (Mk_keepalive_req (Mk_req_hdr 3 1)).
Definition alive_reply (rid : Z) : list Z := reply_bytes op_keepalive_rsp st_ok rid (enc keepalive_rsp_codec (Mk_keepalive_rsp 3 4)).

(** [ensure_ready] by the caller [c] with the HELO [id], answered with [st]. *)
Definition handshake (c id : nat) (rid : Z) (st : status) : list event :=
  [ev_room 9; ev_ensure c true (helo_oh 1); ev_connect c true id; ev_tasks; ev_send id 40; ev_tasks;
   ev_recv (Some (reply_bytes helo_rsp st rid [])); ev_tasks].
Definition world_after (es : list event) : world := default (mk_world 4096) (run_events es (mk_world 4096)).
Definition session0 : world := world_after (handshake 0 0 1 st_ok).

Lemma session0_reached : rtc (ring_step by_key) (mk_world 4096) session0.
Proof. apply (run_events_steps (handshake 0 0 1 st_ok)). vm_compute. reflexivity. Qed.
Lemma session0_start : session_start 0 session0.
Proof.
  split; try (vm_compute; reflexivity); [exact (reachable_inv by_key by_key_spec 4096 session0 session0_reached)|].
  intros id l Hl. assert (map_Forall (λ _ l, leg_done l = true) (w_legs session0)) as H by by_eval. by apply (H id l Hl).
Qed.

(** Two requests in flight, answered in the other order, the second answer in two pieces. *)
Definition two_requests : list event :=
  [ev_room 9; ev_request 1 keepalive alive_oh []; ev_request 2 keepalive alive_oh []; ev_send 1 10; ev_tasks; ev_send 1 14; ev_tasks;
   ev_send 2 24; ev_tasks; ev_recv (Some (alive_reply 3 ++ take 5 (alive_reply 2))); ev_tasks; ev_recv (Some (drop 5 (alive_reply 2))); ev_tasks].
Definition session_after (es : list event) : world := default session0 (run_events es session0).

Lemma proj_lookup {A B} (f : A → B) (o : option A) x y : o = Some x → f <$> o = Some y → f x = y.
Proof. intros ->. by intros [= ->]. Qed.

Lemma reply_has_request_id_witness :
  ∃ w l p, rtc (ring_step by_key) (mk_world 4096) w ∧ w_legs w !! 2%nat = Some l ∧ lg_at l = at_end (Ok (alive_reply 3)) ∧ lg_rid l = 3 ∧
    parse_message (alive_reply 3) (ac_max_tx (w_conn w)) no_digest = Ok p ∧ mh_request_id (m_hdr p) = 3.
Proof.
  set (w := session_after two_requests).
  assert (rtc (ring_step by_key) (mk_world 4096) w) as Hr.
  { etransitivity; [apply session0_reached|]. apply (run_events_steps two_requests). vm_compute. reflexivity. }
  destruct (w_legs w !! 2%nat) as [l|] eqn:Hl; [|exfalso; vm_compute in Hl; discriminate].
  assert (lg_at l = at_end (Ok (alive_reply 3)) ∧ lg_rid l = 3) as [Ha Hid].
  { split; apply (proj_lookup _ _ _ _ Hl); vm_compute; reflexivity. }
  destruct (reply_has_request_id by_key 4096 w 2 l (alive_reply 3) by_key_spec Hr Hl Ha) as (p & Hp & Hrid).
  exists w, l, p. split_and!; [exact Hr|exact Hl|exact Ha|exact Hid|exact Hp|by rewrite Hrid].
Defined.

(** The first request is being sent, the second waits behind it. *)
Lemma no_request_stranded_witness :
  ∃ w l, rtc (session_step by_key) session0 w ∧ w_legs w !! 2%nat = Some l ∧ lg_at l = at_park ∧
    ∃ j lj fd off, w_legs w !! j = Some lj ∧ lg_at lj = at_send fd off.
Proof.
  set (w := session_after (take 4 two_requests)).
  assert (rtc (session_step by_key) session0 w) as Hr.
  { apply (run_events_session (take 4 two_requests)); [done|]. vm_compute. reflexivity. }
  destruct (w_legs w !! 2%nat) as [l|] eqn:Hl; [|exfalso; vm_compute in Hl; discriminate].
  assert (lg_at l = at_park) as Ha.
  { apply (proj_lookup _ _ _ _ Hl). vm_compute. reflexivity. }
  exists w, l. split; [exact Hr|]. split; [exact Hl|]. split; [exact Ha|].
  destruct (no_request_stranded by_key by_key_spec 0 session0 w 2 l session0_start Hr) as [(fd & off & H)|[(_ & _ & H)|(H & _)]];
    [vm_compute; reflexivity|exact Hl|unfold leg_done; by rewrite Ha|congruence|exact H|congruence].
Defined.

Definition cleanb (w : world) : bool := forallb (λ t, match t with t_sent _ false => false | _ => true end) (w_stack w).
Lemma cleanb_clean w : cleanb w = true → clean w.
Proof. intros H id Hin. unfold cleanb in H. rewrite forallb_forall in H. by apply list_elem_of_In, H in Hin. Qed.

Lemma requests_whole_witness :
  ∃ w fs rest, rtc (clean_step by_key) session0 w ∧
    w_wire w !! 0%nat = Some (default [] (w_wire session0 !! 0%nat) ++ concat (frame_bytes no_digest <$> fs) ++ rest).
Proof.
  set (w1 := start_leg 1 None keepalive alive_oh [] session0). set (w := send_cqe 1 10 w1).
  assert (rtc (clean_step by_key) session0 w) as Hr.
  { apply (rtc_l _ _ w1); [split; [apply ss_request|intros _; apply cleanb_clean]|apply rtc_once; split; [|intros _; apply cleanb_clean]];
      try (vm_compute; reflexivity).
    - apply (bool_decide_eq_true_1 (rid_free session0)). vm_compute. reflexivity.
    - destruct (w_legs w1 !! 1%nat) as [l|] eqn:Hl; [|exfalso; vm_compute in Hl; discriminate].
      assert (lg_at l = at_send (Some 0%nat) 0 ∧ length (lg_out l) = 24%nat) as [Ha Hlen].
      { split; [apply (proj_lookup lg_at _ _ _ Hl)|apply (proj_lookup (λ l, length (lg_out l)) _ _ _ Hl)]; vm_compute; reflexivity. }
      apply (ss_send by_key w1 1 l (Some 0%nat) 0 10); [vm_compute; reflexivity|exact Hl|exact Ha|]. intros _. split; [done|]. rewrite Hlen. lia. }
  destruct (requests_whole by_key by_key_spec 0 (default [] (w_wire session0 !! 0%nat)) session0 w session0_start) as (fs & rest & Hw & _);
    [vm_compute; reflexivity|exact Hr|left; vm_compute; reflexivity|].
  exists w, fs, rest. split; [exact Hr|exact Hw].
Defined.

Lemma resumptions_end_witness : ∃ w', run_all by_key (weight session0) session0 = Some w' ∧ w_stack w' = [].
Proof. exact (resumptions_end by_key by_key_spec session0). Defined.

(** ** Where it goes wrong *)

(** [fail_all] frees the send slot while a send is outstanding.  The request of the first
    connection is being sent when the connection fails; its send completes, with an error,
    while a request of the second connection is half sent, and gives away a slot it does
    not hold: a third request goes out in the middle of the second. *)
Definition stale_send : list event :=
  handshake 0 0 1 st_ok ++ [ev_request 1 keepalive alive_oh []; ev_recv None; ev_tasks] ++ handshake 1 2 3 st_ok ++
  [ev_request 3 keepalive alive_oh []; ev_send 3 10; ev_tasks; ev_send 1 (-104); ev_tasks; ev_request 4 keepalive alive_oh []; ev_send 4 10; ev_tasks].
Theorem stale_send_interleaves :
  let w := world_after stale_send in
  rtc (ring_step by_key) (mk_world 4096) w ∧ ac_ready (w_conn w) = true ∧ w_stack w = [] ∧
  ∃ l3 l4, w_legs w !! 3%nat = Some l3 ∧ w_legs w !! 4%nat = Some l4 ∧
    lg_at l3 = at_send (ac_fd (w_conn w)) 10 ∧ lg_at l4 = at_send (ac_fd (w_conn w)) 10 ∧
    w_wire w !! 1%nat = Some (frame_message [] helo 0 3 (helo_oh 1) [] no_digest ++ take 10 (lg_out l3) ++ take 10 (lg_out l4)).
Proof.
  split; [apply (run_events_steps stale_send); vm_compute; reflexivity|]. split; [vm_compute; reflexivity|]. split; [vm_compute; reflexivity|].
  eexists _, _. split_and!; vm_compute; reflexivity.
Qed.

(** A refused HELO leaves the pump with its receive outstanding, and the next [ensure_ready]
    destroys the frame the completion will be written to. *)
Theorem refused_helo_orphans_receive :
  let w := world_after (handshake 0 0 1 st_stale_term ++ [ev_ensure 1 true (helo_oh 2)]) in
  rtc (ring_step by_key) (mk_world 4096) w ∧ w_callers w !! 0%nat = Some (c_end (Err ne_closed)) ∧ w_orphans w = 1%nat.
Proof.
  split; [apply (run_events_steps (handshake 0 0 1 st_stale_term ++ [ev_ensure 1 true (helo_oh 2)])); vm_compute; reflexivity|].
  split; vm_compute; reflexivity.
Qed.

(** When a fault fails the requests in flight, a caller that reconnects from there destroys
    the pump's frame while the pump is running it. *)
Definition failing_world : world :=
  let w := world_after (handshake 0 0 1 st_ok ++ [ev_request 1 keepalive alive_oh []; ev_send 1 24; ev_tasks; ev_recv None]) in
  default w (run_top by_key w ≫= run_top by_key).
Theorem nested_reconnect_undefined c can oh :
  rtc (ring_step by_key) (mk_world 4096) failing_world ∧ lg_at <$> w_legs failing_world !! 1%nat = Some (at_end (Err ne_closed)) ∧
  ensure_ready c can oh failing_world = None.
Proof.
  split; [|by split; vm_compute].
  set (es := handshake 0 0 1 st_ok ++ [ev_request 1 keepalive alive_oh []; ev_send 1 24; ev_tasks; ev_recv None]).
  etransitivity; [apply (run_events_steps es (mk_world 4096) (world_after es)); vm_compute; reflexivity|].
  apply (rtc_l _ _ (default (world_after es) (run_top by_key (world_after es)))); [|apply rtc_once];
    (apply rs_task; [vm_compute; reflexivity|exact I]).
Qed.

(** The pump that finds no room for its receive ends without clearing [ready_]: the next
    request is sent and waits for a reply nobody receives. *)
Definition no_room_run : list event :=
  [ev_room 0; ev_recv (Some [0]); ev_tasks; ev_room 9; ev_request 1 keepalive alive_oh []; ev_send 1 24; ev_tasks].
Definition no_room : world := session_after no_room_run.
Theorem exhausted_pump_strands :
  rtc (session_step by_key) session0 no_room ∧
  ac_ready (w_conn no_room) = true ∧ w_stack no_room = [] ∧ ac_pump (w_conn no_room) = pump_final ∧
  lg_at <$> w_legs no_room !! 1%nat = Some at_reply ∧ ac_pending (w_conn no_room) !! 2 = Some 1%nat.
Proof.
  split; [apply (run_events_session no_room_run); [done|vm_compute; reflexivity]|]. split_and!; vm_compute; reflexivity.
Qed.

(** A request cut short by a full queue leaves its first bytes on a connection that stays
    ready, and the next request follows them. *)
Definition half_sent : world :=
  let w := start_leg 2 None keepalive alive_oh [] (start_leg 1 None keepalive alive_oh [] session0) in
  let w := send_cqe 1 10 (set_sqes 0 w) in
  let w := set_sqes 9 w in
  let w := default w (run_all by_key (weight w) w) in
  send_cqe 2 24 w.
Theorem half_frame_stays :
  ac_ready (w_conn half_sent) = true ∧ ac_pump (w_conn half_sent) = pump_recv ∧
  lg_at <$> w_legs half_sent !! 1%nat = Some (at_end (Err ne_send)) ∧
  w_wire half_sent !! 0%nat = Some (default [] (w_wire session0 !! 0%nat) ++ take 10 (frame_message [] keepalive 0 2 alive_oh [] no_digest) ++
    frame_message [] keepalive 0 3 alive_oh [] no_digest).
Proof. split_and!; vm_compute; reflexivity. Qed.
