(* ===== verification/RingProxy.v ===== *)
(** * The proxy on the caller's ring

    The verbs of [craft_async_conn] over its [round_trip], the on-ring tier of
    [CraftTcpReplica] above them and its table of connections per ring.  The tier sends the
    frames the blocking one sends and makes the same of the replies. *)

From S2P Require Import Prelude Codec WireTypes Wire Types Replica Conn WireClient AsyncConn.

Local Open Scope craft_scope.
Local Open Scope Z_scope.

(** ** Verbs *)

(** The operation, header and body of a request. *)
Record ring_request := Mk_ring_request { rr_op : op; rr_oh : list Z; rr_body : list Z }.
Definition ring_frame (rid : Z) (r : ring_request) : list Z := frame_message [] (rr_op r) 0 rid (rr_oh r) (rr_body r) no_digest.

Definition write_req_on (dlsn addr len : Z) (data : list Z) (commit all : Z) : ring_request :=
  Mk_ring_request write (enc write_req_codec (Mk_write_req (Mk_req_hdr commit all) dlsn addr len)) data.
Definition keep_alive_req_on (commit all : Z) : ring_request :=
  Mk_ring_request keepalive (enc keepalive_req_codec (Mk_keepalive_req (Mk_req_hdr commit all))) [].
Definition read_req_on (read_lsn addr len commit all : Z) : ring_request :=
  Mk_ring_request read (enc read_req_codec (Mk_read_req (Mk_req_hdr commit all) read_lsn addr len)) [].
Definition resolve_req_on (upto commit all : Z) : ring_request :=
  Mk_ring_request resolve (enc resolve_req_codec (Mk_resolve_req (Mk_req_hdr commit all) upto)) [].

(** What a verb makes of what its leg ends with. *)
Definition typed_reply (max_tx : Z) (expect : op) (r : result net_error (list Z)) : result net_error message :=
  let? msg := r in
  match parse_message msg max_tx no_digest with
  | Err _ => Err ne_malformed
  | Ok p => if negb (mh_op (m_hdr p) =? op_code expect) then Err ne_malformed else Ok p
  end.
Definition ac_write (max_tx : Z) (r : result net_error (list Z)) : result net_error lsn_reply :=
  let? p := typed_reply max_tx op_write_rsp r in
  let wr := dec write_rsp_codec (m_op_header p) in
  Ok (Mk_lsn_reply (status_of p) (wr_commit_lsn wr) (wr_last_append_lsn wr)).
Definition ac_keep_alive (max_tx : Z) (r : result net_error (list Z)) : result net_error lsn_reply :=
  let? p := typed_reply max_tx op_keepalive_rsp r in
  let ka := dec keepalive_rsp_codec (m_op_header p) in
  Ok (Mk_lsn_reply (status_of p) (kr_commit_lsn ka) (kr_last_append_lsn ka)).
#[export] Instance status_eq_dec : EqDecision status.
Proof. solve_decision. Defined.

(** One extent of [read]'s scatter: the buffer and the position in the packed data, until one
    goes past its end. *)
Definition ac_copy (packed : list Z) (st : option (nat * list Z)) (e : Z * Z) : option (nat * list Z) :=
  '(src, dest) ← st;
  let n := Z.to_nat e.2 in
  if decide (src + n ≤ length packed)%nat then Some ((src + n)%nat, write_at (Z.to_nat e.1) (take n (drop src packed)) dest) else None.
Definition ac_read (max_tx addr len : Z) (dest : list Z) (r : result net_error (list Z)) : result net_error (read_reply * list Z) :=
  let? p := typed_reply max_tx op_read_rsp r in
  let rr := dec read_rsp_codec (m_op_header p) in
  let out := Mk_read_reply (status_of p) (rr_commit_lsn rr) (rr_last_append_lsn rr) in
  if decide (status_of p ≠ st_ok) then Ok (out [], dest)
  else
    match decode_extents (m_body p) (rr_extent_count rr) with
    | None => Err ne_malformed
    | Some extents =>
        let plan := plan_scatter extents addr len in
        if sp_ok plan then
          let packed := drop (Z.to_nat (rr_extent_count rr) * csize extent_desc_codec) (m_body p) in
          match foldl (ac_copy packed) (Some (0%nat, dest)) (sp_data plan) with
          | None => Err ne_malformed
          | Some (_, dest) =>
              Ok (out extents, foldl (λ d h, write_at (Z.to_nat h.1) (replicate (Z.to_nat h.2) 0) d) dest (sp_holes plan))
          end
        else Err ne_malformed
    end.
Definition ac_resolve (max_tx : Z) (r : result net_error (list Z)) : result net_error resolve_reply :=
  let? p := typed_reply max_tx op_resolve_rsp r in
  let rr := dec resolve_rsp_codec (m_op_header p) in
  match status_of p with
  | st_ok =>
      match decode_lsns (m_body p) (vr_empty_count rr) with
      | None => Err ne_malformed
      | Some l => Ok (Mk_resolve_reply st_ok (vr_resolved_upto rr) l)
      end
  | st => Ok (Mk_resolve_reply st (vr_resolved_upto rr) [])
  end.

(** ** The on-ring tier of the proxy *)

(** [ensure_ready], then the verb; a fault, a status that is not ok, or the reply. *)
Definition ring_call {A B} (ready : result net_error unit) (reply : result net_error A) (code : A → status) (ret : A → B) :
    result error_condition B :=
  match ready with
  | Err e => Err (net_to_error e)
  | Ok _ =>
      match reply with
      | Err e => Err (net_to_error e)
      | Ok a => match code a with st_ok => Ok (ret a) | st => Err (status_to_error st) end
      end
  end.
Definition lsns_of_reply (r : lsn_reply) : lsn_pair := Mk_lsn_pair (lq_commit_lsn r) (lq_last_append_lsn r).
Definition ring_write (max_tx : Z) (ready : result net_error unit) (r : result net_error (list Z)) : result error_condition lsn_pair :=
  ring_call ready (ac_write max_tx r) lq_status lsns_of_reply.
Definition ring_keep_alive (max_tx : Z) (ready : result net_error unit) (r : result net_error (list Z)) : result error_condition lsn_pair :=
  ring_call ready (ac_keep_alive max_tx r) lq_status lsns_of_reply.
Definition ring_resolution (max_tx : Z) (ready : result net_error unit) (r : result net_error (list Z)) :
    result error_condition resolution_result :=
  ring_call ready (ac_resolve max_tx r) vp_status (λ r, Mk_resolution_result (vp_resolved_upto r) (vp_empty_slots r)).
Definition ring_read (max_tx addr len : Z) (dest : sg_list) (ready : result net_error unit) (r : result net_error (list Z)) :
    result error_condition (read_result * sg_list) :=
  ring_call ready (ac_read max_tx addr len (read_buffer dest len) r) (λ r, rp_status r.1)
    (λ r, (Mk_read_result (to_io_extents (rp_extents r.1)) (Mk_lsn_pair (rp_commit_lsn r.1) (rp_last_append_lsn r.1)),
           Mk_sg (sg_size dest) (read_into dest len r.2))).
(** The bound on a reply's body, from the volume's geometry. *)
Definition ring_max_tx (t : CraftTcpReplica) : Z := framed_body_max (tr_max_tx t) (tr_lba t).

(** ** One connection per ring *)

Definition k_max_queues : nat := 64.
(** [conn_for]: the index of the ring's connection, or the blocking tier; and the table,
    which is only ever appended to. *)
Definition conn_for (slots : list nat) (q : option nat) : option nat * list nat :=
  match q with
  | None => (None, slots)
  | Some ring =>
      match list_find (eq ring) slots with
      | Some (i, _) => (Some i, slots)
      | None => if decide (length slots = k_max_queues) then (None, slots) else (Some (length slots), slots ++ [ring])
      end
  end.

(** ** Agreement with the blocking tier *)

(** A reply that fits two bounds parses the same under both. *)
Lemma parse_bound buf m1 m2 dg :
  mh_body_len (dec msg_hdr_codec buf) ≤ m1 → mh_body_len (dec msg_hdr_codec buf) ≤ m2 →
  parse_message buf m1 dg = parse_message buf m2 dg.
Proof.
  intros H1 H2. unfold parse_message. case_decide; [done|]. cbv zeta. destruct (op_hdr_size _); [|done].
  destruct (decide (m1 < _)); [lia|]. by destruct (decide (m2 < _)); [lia|].
Qed.

(** What a leg ends with: a fault, or a reply whose body fits both tiers' bounds. *)
Definition fits_both (max_tx : Z) (r : result net_error (list Z)) : Prop :=
  match r with Err _ => True | Ok msg => mh_body_len (dec msg_hdr_codec msg) ≤ Z.min max_tx k_max_tx end.

Lemma typed_round_trip max_tx net frame expect r :
  net frame = r → fits_both max_tx r → round_trip net frame expect = typed_reply max_tx expect r.
Proof.
  intros Hn Hf. unfold round_trip, typed_reply. rewrite Hn. destruct r as [msg|e]; [|done]. cbn in *.
  by rewrite (parse_bound msg k_max_tx max_tx) by lia.
Qed.

Lemma ac_copy_none packed plan : foldl (ac_copy packed) None plan = None.
Proof. by induction plan. Qed.
Lemma scatter_copies packed plan src dest :
  scatter_data plan packed src dest = snd <$> foldl (ac_copy packed) (Some (src, dest)) plan.
Proof.
  revert src dest. induction plan as [|[off n] plan IH]; intros src dest; [done|]. cbn [scatter_data foldl ac_copy mbind option_bind fst snd].
  destruct (decide (src + Z.to_nat n ≤ length packed)%nat).
  - rewrite decide_False by lia. apply IH.
  - rewrite decide_True by lia. by rewrite ac_copy_none.
Qed.

Lemma ac_read_reply max_tx addr len dest r :
  ac_read max_tx addr len dest r = (let? p := typed_reply max_tx op_read_rsp r in read_reply_of p addr len dest).
Proof.
  unfold ac_read, read_reply_of. destruct (typed_reply max_tx op_read_rsp r) as [p|]; [|done]. cbn.
  case_decide as Hst; [by destruct (status_of p)|]. rewrite Hst.
  destruct (decode_extents _ _); [|done].
  destruct (sp_ok _); [|done]. cbn. rewrite scatter_copies. by destruct (foldl _ _ (sp_data _)) as [[]|].
Qed.

Section agree.
Context (t : CraftTcpReplica) (hdr : client_hdr) (net helo_net : network) (reachable : bool) (max_tx : Z) (r : result net_error (list Z)).
Context (Hconn : tr_connected t = true) (Hbound : tr_bound t = true) (Hterm : tr_bound_term t = ch_term hdr).
Context (Hfits : fits_both max_tx r).

Lemma bound_call_now {A B} (call : wire_client → result net_error A * wire_client) (code : A → status) (ret : A → B) :
  (bound_call call code ret reachable helo_net t hdr).1 = ring_call (Ok tt) (call (tr_conn t)).1 code ret.
Proof.
  unfold bound_call, ensure_bound, ensure_connected. rewrite Hconn, Hbound, Hterm, Z.eqb_refl. cbn [andb].
  destruct (call (tr_conn t)) as [[a|e] c]; cbn; [|done]. by destruct (code a).
Qed.

(** C24: The on-ring tier and the blocking tier are the same to the client, where both are bound
    at the term of the call: every mid-session verb sends the same frame, and when that frame
    has the same outcome, a transport fault, a malformed reply or any reply whose body is
    within both tiers' bounds, it returns the same result, data read included.  Binding is
    not the same: a ready ring connection takes no notice of a new term, and a refused HELO
    reads as a fault ([refused_helo_tiers]). *)
Theorem ring_tier_agrees :
  let rid := wc_next_rid (tr_conn t) in
  let commit := ch_commit_lsn hdr in
  let all := ch_all_committed_lsn hdr in
  (∀ dlsn addr len data, net (ring_frame rid (write_req_on dlsn addr len (payload_bytes data) commit all)) = r →
     (tr_write reachable helo_net net t hdr dlsn addr len data).1 = ring_write max_tx (Ok tt) r) ∧
  (∀ read_lsn addr len dest, 0 ≤ len → net (ring_frame rid (read_req_on read_lsn addr len commit all)) = r →
     (tr_read reachable helo_net net t hdr read_lsn addr len dest).1 = ring_read max_tx addr len dest (Ok tt) r) ∧
  (net (ring_frame rid (keep_alive_req_on commit all)) = r →
     (tr_keep_alive reachable helo_net net t hdr).1 = ring_keep_alive max_tx (Ok tt) r) ∧
  (∀ upto, net (ring_frame rid (resolve_req_on upto commit all)) = r →
     (tr_request_resolution reachable helo_net net t hdr upto).1 = ring_resolution max_tx (Ok tt) r).
Proof.
  intros rid commit all. split_and!.
  - intros dlsn addr len data Hn. unfold tr_write. rewrite bound_call_now. unfold ring_write, ac_write, wc_write.
    by rewrite (typed_round_trip max_tx _ _ _ r Hn).
  - intros read_lsn addr len dest Hl Hn. unfold tr_read. rewrite bound_call_now. unfold ring_read, wc_read.
    rewrite length_read_buffer, Z2Nat.id, Z.ltb_irrefl, ac_read_reply by done. by rewrite (typed_round_trip max_tx _ _ _ r Hn).
  - intros Hn. unfold tr_keep_alive. rewrite bound_call_now. unfold ring_keep_alive, ac_keep_alive, wc_keep_alive.
    by rewrite (typed_round_trip max_tx _ _ _ r Hn).
  - intros upto Hn. unfold tr_request_resolution. rewrite bound_call_now. unfold ring_resolution, ac_resolve, wc_resolve.
    by rewrite (typed_round_trip max_tx _ _ _ r Hn).
Qed.
End agree.

(** ** The table *)

(** A ring keeps the connection it was given, distinct rings have distinct ones, and past
    the table's size a new ring falls back to the blocking tier. *)
Theorem conn_for_stable slots q :
  NoDup slots → (length slots ≤ k_max_queues)%nat →
  let '(i, slots') := conn_for slots (Some q) in
  NoDup slots' ∧ (length slots' ≤ k_max_queues)%nat ∧ slots `prefix_of` slots' ∧
  match i with
  | Some i => slots' !! i = Some q
  | None => q ∉ slots ∧ length slots = k_max_queues
  end ∧ (conn_for slots' (Some q)) = (i, slots').
Proof.
  intros Hnd Hlen. unfold conn_for. destruct (list_find (eq q) slots) as [[i x]|] eqn:Hf.
  - rewrite Hf. apply list_find_Some in Hf as (Hi & <- & _). by split_and!.
  - pose proof Hf as Hq. apply list_find_None in Hq. assert (q ∉ slots) as Hn by (intros Hin; rewrite Forall_forall in Hq; by apply (Hq q)).
    case_decide as Hl; [rewrite Hf, decide_True by done; by split_and!|]. split_and!.
    + apply NoDup_app. split_and!; [done|set_solver|apply NoDup_singleton].
    + rewrite length_app. simpl. lia.
    + by apply prefix_app_r.
    + by rewrite list_lookup_middle.
    + rewrite list_find_app_r by done. cbn. rewrite decide_True by done. done.
Qed.

(** A bound proxy whose read of two blocks, the second a hole, is answered. *)
Definition ring_proxy : CraftTcpReplica := Mk_tcp_replica (replicate 16 2) mk_wire_client k_default_max_tx 4 true true 1.
Definition read_answer : list Z :=
  frame_message [] op_read_rsp 0 1 (enc read_rsp_codec (Mk_read_rsp 3 4 2 0))
    (enc extent_desc_codec (Mk_extent_desc 0 4 0 [0; 0; 0; 0; 0; 0; 0]) ++ enc extent_desc_codec (Mk_extent_desc 4 4 1 [0; 0; 0; 0; 0; 0; 0]) ++ [1; 2; 3; 4]) no_digest.
Definition ring_hdr : client_hdr := Mk_client_hdr 1 3 2 5.
Lemma ring_tier_agrees_witness :
  (tr_read true (λ _, Err ne_closed) (λ _, Ok read_answer) ring_proxy ring_hdr 4 0 8 (Mk_sg 8 [[9; 9; 9; 9; 9; 9; 9; 9]])).1 =
    Ok (Mk_read_result [Mk_io_extent 0 4 false; Mk_io_extent 4 4 true] (Mk_lsn_pair 3 4), Mk_sg 8 [[1; 2; 3; 4; 0; 0; 0; 0]]).
Proof.
  destruct (ring_tier_agrees ring_proxy ring_hdr (λ _, Ok read_answer) (λ _, Err ne_closed) true (ring_max_tx ring_proxy)
    (Ok read_answer) eq_refl eq_refl eq_refl) as (_ & H & _).
  - vm_compute. discriminate.
  - rewrite H; [vm_compute; reflexivity|lia|reflexivity].
Defined.

(** Where the tiers differ: a HELO refused for its term is [STALE_TERM] to a caller of the
    blocking tier and a timeout to one of the ring, and a ring connection that is ready does
    not send the HELO of a new term at all. *)
Definition refused_helo : list Z := frame_message [] helo_rsp (status_byte st_stale_term) 1 [] [] no_digest.
Theorem refused_helo_tiers c w can term_oh reply :
  0 ≤ ac_max_tx (w_conn w) → ac_ready (w_conn w) = true →
  (tr_keep_alive true (λ _, Ok refused_helo) (λ _, Err ne_closed) ring_proxy (Mk_client_hdr 2 3 2 5)).1 = Err (ec_craft STALE_TERM) ∧
  helo_done c (Ok refused_helo) w = finish c (Err ne_closed) (upd_conn drop_fd w) ∧
  ring_keep_alive (ring_max_tx ring_proxy) (Err ne_closed) reply = Err (ec_std timed_out) ∧
  ensure_ready c can term_oh w = Some (set_caller c (c_end (Ok tt)) w).
Proof.
  intros Hm Hr. split_and!; [vm_compute; reflexivity| |done|unfold ensure_ready; by rewrite Hr].
  unfold helo_done. rewrite (parse_bound refused_helo _ 0); [|exact Hm|by vm_compute].
  assert (∃ p, parse_message refused_helo 0 no_digest = Ok p ∧ mh_op (m_hdr p) = op_code helo_rsp ∧ status_of p = st_stale_term)
    as (p & -> & -> & ->) by (eexists; vm_compute; split_and!; reflexivity).
  by rewrite Z.eqb_refl.
Qed.

Lemma conn_for_stable_witness : conn_for [7; 9]%nat (Some 9%nat) = (Some 1%nat, [7; 9]%nat) ∧ (conn_for [7; 9]%nat (Some 9%nat)).2 !! 1%nat = Some 9%nat.
Proof.
  split; [vm_compute; reflexivity|].
  exact (proj1 (proj2 (proj2 (proj2 (conn_for_stable [7; 9]%nat 9%nat ltac:(by_eval) ltac:(by_eval)))))).
Defined.
