(* ===== verification/SessionMgr.v ===== *)
(** * The session manager

    [craft_session_mgr] of [src/net/session_mgr.cpp], the one admin thread all proxies share,
    with the [hop] and [shutdown] of [CraftTcpReplica] that feed and fence it.  Posting a job,
    taking one, completing an event, awaiting it and finishing an operation are steps, in any
    interleaving of threads; the queue's and the proxy's locks make each of them atomic.
    Jobs run in the order they were posted, each once; a manager told to stop first runs all
    of them and leaves no operation waiting; and a proxy whose shutdown fence has run has
    nothing left on the admin thread. *)

From S2P Require Import Prelude.

Local Open Scope craft_scope.

(** ** State *)

(** A job completes the event of the operation [op], or is the fence of a [drain]. *)
Inductive job := job_hop (op : nat) | job_fence (f : nat).
#[export] Instance job_eq_dec : EqDecision job.
Proof. solve_decision. Defined.

(** The admin thread waits, has taken a job, runs the operation the job resumed, or is gone. *)
Inductive thread_at := th_waiting | th_running (j : job) | th_op (op : nat) | th_exited.
#[export] Instance thread_at_eq_dec : EqDecision thread_at.
Proof. solve_decision. Defined.
(** [sm_posted] and [sm_done] record every job posted and every job run to its end. *)
Record session_mgr := Mk_session_mgr {
  sm_jobs : list job;
  sm_stop : bool;
  sm_thread : thread_at;
  sm_posted : list job;
  sm_done : list job;
}.
Definition mk_session_mgr : session_mgr := Mk_session_mgr [] false th_waiting [] [].

(** An operation that hopped: its event is neither complete nor awaited, awaited, or complete
    and not yet awaited; it runs on the admin thread, or on the thread that called it; or it
    has ended. *)
Inductive hop_at := ev_open | ev_awaited | ev_set | on_mgr | on_caller | op_ended.
#[export] Instance hop_at_eq_dec : EqDecision hop_at.
Proof. solve_decision. Defined.
(** [mw_stopped]: the proxies with [stop_] set.  [mw_ops]: each operation's proxy and where it is. *)
Record mgr_world := Mk_mgr_world { mw_mgr : session_mgr; mw_stopped : gset nat; mw_ops : gmap nat (nat * hop_at) }.
Definition mk_mgr_world : mgr_world := Mk_mgr_world mk_session_mgr ∅ ∅.

(** ** Operations *)

Definition post (j : job) (m : session_mgr) : session_mgr :=
  Mk_session_mgr (sm_jobs m ++ [j]) (sm_stop m) (sm_thread m) (sm_posted m ++ [j]) (sm_done m).
(** The destructor, up to joining or detaching the thread. *)
Definition request_stop (m : session_mgr) : session_mgr :=
  Mk_session_mgr (sm_jobs m) true (sm_thread m) (sm_posted m) (sm_done m).
(** [drain] may return. *)
Definition fence_hit (f : nat) (m : session_mgr) : bool := bool_decide (job_fence f ∈ sm_done m).

Definition thread_to (t : thread_at) (js : list job) (m : session_mgr) : session_mgr :=
  Mk_session_mgr js (sm_stop m) t (sm_posted m) (sm_done m).
Definition finish_job (j : job) (m : session_mgr) : session_mgr :=
  Mk_session_mgr (sm_jobs m) (sm_stop m) th_waiting (sm_posted m) (sm_done m ++ [j]).
Definition set_mgr (f : session_mgr → session_mgr) (w : mgr_world) : mgr_world :=
  Mk_mgr_world (f (mw_mgr w)) (mw_stopped w) (mw_ops w).
Definition set_op (op : nat) (h : hop_at) (w : mgr_world) : mgr_world :=
  Mk_mgr_world (mw_mgr w) (mw_stopped w) (alter (λ q, (q.1, h)) op (mw_ops w)).

(** The loop of the thread.  [None]: the wait goes on, or the thread is gone.  Completing an
    event that is awaited resumes the operation inside the job. *)
Definition thread_step (w : mgr_world) : option mgr_world :=
  let m := mw_mgr w in
  match sm_thread m with
  | th_waiting =>
      match sm_jobs m with
      | [] => if sm_stop m then Some (set_mgr (thread_to th_exited []) w) else None
      | j :: js => Some (set_mgr (thread_to (th_running j) js) w)
      end
  | th_running (job_fence f) => Some (set_mgr (finish_job (job_fence f)) w)
  | th_running (job_hop op) =>
      match snd <$> mw_ops w !! op with
      | Some ev_awaited => Some (set_op op on_mgr (set_mgr (thread_to (th_op op) (sm_jobs m)) w))
      | Some ev_open => Some (set_op op ev_set (set_mgr (finish_job (job_hop op)) w))
      | _ => Some (set_mgr (finish_job (job_hop op)) w)
      end
  | th_op op => Some (set_op op op_ended (set_mgr (finish_job (job_hop op)) w))
  | th_exited => None
  end.

(** [hop]: under the proxy's lock it posts, unless the proxy has stopped. *)
Definition hop (p op : nat) (w : mgr_world) : mgr_world :=
  if decide (p ∈ mw_stopped w) then Mk_mgr_world (mw_mgr w) (mw_stopped w) (<[op := (p, ev_set)]> (mw_ops w))
  else Mk_mgr_world (post (job_hop op) (mw_mgr w)) (mw_stopped w) (<[op := (p, ev_open)]> (mw_ops w)).
(** [co_await *ev]: an event that is complete does not suspend the caller. *)
Definition await (op : nat) (w : mgr_world) : mgr_world :=
  match snd <$> mw_ops w !! op with
  | Some ev_open => set_op op ev_awaited w
  | Some ev_set => set_op op on_caller w
  | _ => w
  end.
(** [shutdown]: set [stop_], then [drain]'s fence (from a thread other than the admin thread). *)
Definition set_proxy_stop (p : nat) (w : mgr_world) : mgr_world := Mk_mgr_world (mw_mgr w) ({[p]} ∪ mw_stopped w) (mw_ops w).
Definition drain (f : nat) (w : mgr_world) : mgr_world := set_mgr (post (job_fence f)) w.

(** Steps of any thread; whoever posts keeps the manager alive. *)
Inductive mgr_step : mgr_world → mgr_world → Prop :=
| ms_hop w p op : sm_thread (mw_mgr w) ≠ th_exited → mw_ops w !! op = None → mgr_step w (hop p op w)
| ms_await w op : mgr_step w (await op w)
| ms_caller w op p : mw_ops w !! op = Some (p, on_caller) → mgr_step w (set_op op op_ended w)
| ms_flip w p : mgr_step w (set_proxy_stop p w)
| ms_drain w f : sm_thread (mw_mgr w) ≠ th_exited → job_fence f ∉ sm_posted (mw_mgr w) → mgr_step w (drain f w)
| ms_thread w w' : thread_step w = Some w' → mgr_step w w'
| ms_stop w : mgr_step w (set_mgr request_stop w).

(** ** Invariant *)

Definition in_hand (m : session_mgr) : list job :=
  match sm_thread m with th_running j => [j] | th_op op => [job_hop op] | _ => [] end.
(** The operation neither waits for the admin thread nor runs there. *)
Definition off_mgr (h : hop_at) : bool := match h with ev_open | ev_awaited | on_mgr => false | _ => true end.
(** An operation that is waiting for the admin thread has its job to come; one that runs
    there is the thread's. *)
Definition op_place (w : mgr_world) (op : nat) (h : hop_at) : Prop :=
  match h with
  | ev_open | ev_awaited => sm_thread (mw_mgr w) = th_running (job_hop op) ∨ job_hop op ∈ sm_jobs (mw_mgr w)
  | on_mgr => sm_thread (mw_mgr w) = th_op op
  | _ => True
  end.
(** Every job posted is done, in hand or queued, in this order, and posted once. *)
Record mgr_inv (w : mgr_world) : Prop := {
  mi_order : sm_posted (mw_mgr w) = sm_done (mw_mgr w) ++ in_hand (mw_mgr w) ++ sm_jobs (mw_mgr w);
  mi_once : NoDup (sm_posted (mw_mgr w));
  mi_exit : sm_thread (mw_mgr w) = th_exited → sm_jobs (mw_mgr w) = [] ∧ sm_stop (mw_mgr w) = true;
  mi_known op : job_hop op ∈ sm_posted (mw_mgr w) → is_Some (mw_ops w !! op);
  mi_place op p h : mw_ops w !! op = Some (p, h) → op_place w op h;
}.

Lemma set_op_lookup op h w o p k : mw_ops (set_op op h w) !! o = Some (p, k) →
  (o = op ∧ k = h ∧ ∃ k0, mw_ops w !! op = Some (p, k0)) ∨ (o ≠ op ∧ mw_ops w !! o = Some (p, k)).
Proof.
  cbn. intros H. destruct (decide (o = op)) as [->|Hn]; [left|right].
  - rewrite lookup_alter_eq in H. destruct (mw_ops w !! op) as [[q k0]|]; [|done]. cbn in H. simplify_eq. eauto.
  - rewrite lookup_alter_ne in H by done. done.
Qed.
(** Moving one operation keeps the invariant when its new place is right and the manager's own part holds. *)
Lemma set_op_inv op h w : mgr_inv w → op_place w op h → mgr_inv (set_op op h w).
Proof.
  intros [Ho Hu He Hk Hp] Hh. split; [done..| |].
  - intros o Hin%Hk. cbn. by rewrite lookup_alter_is_Some.
  - intros o p k [(-> & -> & _)|[_ ?]]%set_op_lookup; [done|]. by eapply Hp.
Qed.
Lemma post_inv j w : sm_thread (mw_mgr w) ≠ th_exited → j ∉ sm_posted (mw_mgr w) →
  (∀ op, j = job_hop op → is_Some (mw_ops w !! op)) → mgr_inv w → mgr_inv (set_mgr (post j) w).
Proof.
  intros Hx Hj Hop [Ho Hu He Hk Hp]. split; cbn.
  - change (in_hand (post j (mw_mgr w))) with (in_hand (mw_mgr w)). rewrite Ho. by rewrite <-!(assoc_L (++)).
  - apply NoDup_app. split_and!; [done|set_solver|apply NoDup_singleton].
  - done.
  - intros op [?|<-%list_elem_of_singleton]%elem_of_app; [by apply Hk|by apply Hop].
  - intros op p h Hl%Hp. destruct h; cbn in Hl |- *; set_solver.
Qed.
Lemma insert_op_inv op p h w : mw_ops w !! op = None → op_place w op h → mgr_inv w →
  mgr_inv (Mk_mgr_world (mw_mgr w) (mw_stopped w) (<[op := (p, h)]> (mw_ops w))).
Proof.
  intros Hn Hh [Ho Hu He Hk Hp]. split; [done..| |].
  - intros o Hin%Hk. cbn. rewrite lookup_insert_is_Some. destruct (decide (op = o)); auto.
  - intros o q k. cbn. rewrite lookup_insert_Some. intros [(-> & [= <- <-])|(_ & Hl)]; [done|by eapply Hp].
Qed.
Lemma hop_inv p op w : sm_thread (mw_mgr w) ≠ th_exited → mw_ops w !! op = None → mgr_inv w → mgr_inv (hop p op w).
Proof.
  intros Hx Hn I. unfold hop. case_decide; [by apply insert_op_inv|].
  assert (job_hop op ∉ sm_posted (mw_mgr w)) as Hj.
  { intros Hin%(mi_known _ I). rewrite Hn in Hin. by destruct Hin. }
  destruct I as [Ho Hu He Hk Hp]. split; cbn.
  - change (in_hand (post (job_hop op) (mw_mgr w))) with (in_hand (mw_mgr w)). rewrite Ho. by rewrite <-!(assoc_L (++)).
  - apply NoDup_app. split_and!; [done|set_solver|apply NoDup_singleton].
  - done.
  - intros o [Hin|Hin%list_elem_of_singleton]%elem_of_app; rewrite lookup_insert_is_Some; [|left; congruence].
    destruct (decide (op = o)); auto.
  - intros o q k. rewrite lookup_insert_Some. intros [(-> & [= <- <-])|(_ & Hl%Hp)]; cbn; [right; apply elem_of_app; right; by apply list_elem_of_singleton|].
    destruct k; cbn in Hl |- *; set_solver.
Qed.

(** The thread's bookkeeping: a finished job moves from the hand to the end of what is done. *)
Lemma finish_inv j w : in_hand (mw_mgr w) = [j] →
  (∀ op p h, j = job_hop op → mw_ops w !! op = Some (p, h) → off_mgr h = true) → mgr_inv w → mgr_inv (set_mgr (finish_job j) w).
Proof.
  intros Hj Hf [Ho Hu He Hk Hp]. split; cbn; [|done|done|done|].
  - rewrite Ho, Hj. by rewrite <-(assoc_L (++)).
  - intros o p h Hl. pose proof (Hp _ _ _ Hl) as Hpl. unfold in_hand in Hj. destruct h; cbn in Hpl |- *; try done.
    1,2: destruct Hpl as [Ht|?]; [|by right]; rewrite Ht in Hj; injection Hj as <-; by pose proof (Hf o p _ eq_refl Hl).
    rewrite Hpl in Hj. injection Hj as <-. by pose proof (Hf o p _ eq_refl Hl).
Qed.
Lemma hop_resume_inv op w : sm_thread (mw_mgr w) = th_running (job_hop op) → mgr_inv w →
  mgr_inv (set_op op on_mgr (set_mgr (thread_to (th_op op) (sm_jobs (mw_mgr w))) w)).
Proof.
  intros Ht [Ho Hu He Hk Hp]. unfold in_hand in Ho. rewrite Ht in Ho. split; cbn; [done|done|done| |].
  - intros o Hin%Hk. by rewrite lookup_alter_is_Some.
  - intros o p k [(-> & -> & _)|[Hn Hl%Hp]]%set_op_lookup; [done|]. destruct k; cbn in Hl |- *; try done; rewrite Ht in Hl.
    1,2: destruct Hl as [[= <-]|?]; [done|by right].
    done.
Qed.
Lemma take_inv j js w : sm_thread (mw_mgr w) = th_waiting → sm_jobs (mw_mgr w) = j :: js → mgr_inv w →
  mgr_inv (set_mgr (thread_to (th_running j) js) w).
Proof.
  intros Ht Hj [Ho Hu He Hk Hp]. unfold in_hand in Ho. rewrite Ht, Hj in Ho. split; cbn; [done..|].
  intros o p k Hl%Hp. destruct k; cbn in Hl |- *; try done; rewrite Ht in Hl; [..|done].
  all: rewrite Hj in Hl; destruct Hl as [?|[->|?]%elem_of_cons]; [done|by left|by right].
Qed.
Lemma exit_inv w : sm_thread (mw_mgr w) = th_waiting → sm_jobs (mw_mgr w) = [] → sm_stop (mw_mgr w) = true → mgr_inv w →
  mgr_inv (set_mgr (thread_to th_exited []) w).
Proof.
  intros Ht Hj Hs [Ho Hu He Hk Hp]. unfold in_hand in Ho. rewrite Ht, Hj in Ho. split; cbn; [done..|].
  intros o p k Hl%Hp. destruct k; cbn in Hl |- *; try done; rewrite Ht in Hl; [..|done]; rewrite Hj in Hl; set_solver.
Qed.

Lemma thread_step_inv w w' : thread_step w = Some w' → mgr_inv w → mgr_inv w'.
Proof.
  unfold thread_step. intros H I. destruct (sm_thread (mw_mgr w)) as [|[op|f]|op|] eqn:Ht; [| | | |done].
  - destruct (sm_jobs (mw_mgr w)) eqn:Hj; [destruct (sm_stop (mw_mgr w)) eqn:Hs; [|done]|]; injection H as <-;
      [by apply exit_inv|by apply take_inv].
  - assert (in_hand (mw_mgr w) = [job_hop op]) as Hh by (unfold in_hand; by rewrite Ht).
    destruct (mw_ops w !! op) as [[q h]|] eqn:Hl; cbn in H.
    2: { injection H as <-. apply finish_inv; [done| |done]. intros o p h [= ->]. by rewrite Hl. }
    destruct h; injection H as <-; try (apply finish_inv; [done| |done]; intros o p h [= ->]; rewrite Hl; by intros [= _ <-]).
    + apply (finish_inv (job_hop op) (set_op op ev_set w)); [done| |by apply set_op_inv].
      intros o p h [= ->] [(_ & -> & _)|[? _]]%set_op_lookup; done.
    + by apply hop_resume_inv.
    + pose proof (mi_place _ I _ _ _ Hl) as Hc. cbn in Hc. congruence.
  - injection H as <-. apply finish_inv; [unfold in_hand; by rewrite Ht|by intros|done].
  - injection H as <-. apply (finish_inv (job_hop op) (set_op op op_ended w)); [unfold in_hand; cbn; by rewrite Ht| |by apply set_op_inv].
    intros o p h [= ->] [(_ & -> & _)|[? _]]%set_op_lookup; done.
Qed.
Lemma await_inv op w : mgr_inv w → mgr_inv (await op w).
Proof.
  intros I. unfold await. destruct (mw_ops w !! op) as [[p h]|] eqn:Hl; cbn; [|done]. pose proof (mi_place _ I _ _ _ Hl).
  destruct h; try done; by apply set_op_inv.
Qed.
Lemma mgr_step_inv w w' : mgr_step w w' → mgr_inv w → mgr_inv w'.
Proof.
  intros [w0 p op Hx Hn|w0 op|w0 op p Hl|w0 p|w0 f Hx Hf|w0 w1 Ht|w0] I.
  - by apply hop_inv.
  - by apply await_inv.
  - by apply set_op_inv.
  - by destruct I.
  - by apply post_inv.
  - by eapply thread_step_inv.
  - destruct I as [Ho Hu He Hk Hp]. split; [done|done| |done|done]. cbn. intros Hx. by destruct (He Hx).
Qed.
Lemma mgr_reachable w w' : rtc mgr_step w w' → mgr_inv w → mgr_inv w'.
Proof. intros Hr. induction Hr as [|w w1 w' Hs Hr IH]; [done|]. intros I. apply IH. by eapply mgr_step_inv. Qed.
Lemma mk_mgr_inv : mgr_inv mk_mgr_world.
Proof. split; cbn; [done|constructor|done|set_solver|]. intros op p h. by rewrite lookup_empty. Qed.

(** ** Shutdown *)

(** What happens after a point only adds to what was posted; a stopped proxy adds nothing, and
    no fence is posted twice. *)
Record mgr_later (p f : nat) (w w' : mgr_world) : Prop := {
  ml_stopped : p ∈ mw_stopped w → p ∈ mw_stopped w';
  ml_proxy op q h : mw_ops w !! op = Some (q, h) → ∃ h', mw_ops w' !! op = Some (q, h');
  ml_posted : ∃ tail, sm_posted (mw_mgr w') = sm_posted (mw_mgr w) ++ tail ∧
    (p ∈ mw_stopped w → ∀ op, job_hop op ∈ tail → ∃ q h, mw_ops w' !! op = Some (q, h) ∧ q ≠ p) ∧
    (job_fence f ∈ sm_posted (mw_mgr w) → job_fence f ∉ tail);
}.
Lemma later_same p f w w' : mw_stopped w ⊆ mw_stopped w' → sm_posted (mw_mgr w') = sm_posted (mw_mgr w) →
  (∀ op q h, mw_ops w !! op = Some (q, h) → ∃ h', mw_ops w' !! op = Some (q, h')) → mgr_later p f w w'.
Proof. intros Hs Hp Ho. split; [set_solver|done|]. exists []. rewrite app_nil_r. split_and!; [done|set_solver..]. Qed.
Lemma set_op_proxy o k w op q h : mw_ops w !! op = Some (q, h) → ∃ h', mw_ops (set_op o k w) !! op = Some (q, h').
Proof.
  intros Hl. cbn. destruct (decide (op = o)) as [->|?]; [rewrite lookup_alter_eq, Hl|rewrite lookup_alter_ne by done]; eauto.
Qed.
Lemma later_thread p f w w' : thread_step w = Some w' → mgr_later p f w w'.
Proof.
  unfold thread_step. intros H. apply later_same; repeat case_match; simplify_eq; try done; eauto using set_op_proxy.
Qed.
Lemma later_step p f w w' : mgr_step w w' → mgr_later p f w w'.
Proof.
  intros [w0 q op Hx Hn|w0 op|w0 op q Hl|w0 q|w0 g Hx Hg|w0 w1 Ht|w0].
  - assert (∀ o r h k, mw_ops w0 !! o = Some (r, h) → ∃ h', <[op:=(q, k)]> (mw_ops w0) !! o = Some (r, h')) as Hpr.
    { intros o r h k Hl. rewrite lookup_insert_ne by congruence. eauto. }
    unfold hop. case_decide as Hq; [apply later_same; [done|done|by eauto]|]. split; [done|by eauto|].
    exists [job_hop op]. split_and!; [done| |set_solver].
    intros Hp o [= ->]%list_elem_of_singleton. exists q, ev_open. cbn. rewrite lookup_insert_eq. split; congruence.
  - unfold await. apply later_same; repeat case_match; try done; eauto using set_op_proxy.
  - apply later_same; [done|done|]. intros ???. apply set_op_proxy.
  - apply later_same; [cbn; set_solver|done|eauto].
  - split; [done|by eauto|]. exists [job_fence g]. split_and!; [done|set_solver|].
    intros Hf [= ->]%list_elem_of_singleton. done.
  - by apply later_thread.
  - apply later_same; [done|done|eauto].
Qed.
Lemma later_trans p f w1 w2 w3 : mgr_later p f w1 w2 → mgr_later p f w2 w3 → mgr_later p f w1 w3.
Proof.
  intros [S1 O1 (t1 & P1 & N1 & F1)] [S2 O2 (t2 & P2 & N2 & F2)]. split; [auto| |].
  - intros op q h (h' & ?)%O1. by eapply O2.
  - exists (t1 ++ t2). rewrite P2, P1, (assoc_L (++)). split_and!; [done| |].
    + intros Hp op [Hin|Hin]%elem_of_app; [|by apply N2; auto].
      destruct (N1 Hp op Hin) as (q & h & Hl & Hq). destruct (O2 _ _ _ Hl) as [h' ?]. eauto.
    + intros Hf [?|Hin]%elem_of_app; [by apply F1|]. apply F2; [|done]. rewrite P1. set_solver.
Qed.
Lemma later_steps p f w w' : rtc mgr_step w w' → mgr_later p f w w'.
Proof. intros Hr. induction Hr; [by apply later_same; eauto|]. eapply later_trans; [by apply later_step|done]. Qed.

(** A list that has an element starts with everything before its only occurrence. *)
Lemma prefix_past (x : job) pre d rest tail :
  x ∉ pre → x ∉ tail → x ∈ d → d ++ rest = pre ++ [x] ++ tail → ∃ t, d = pre ++ [x] ++ t ∧ tail = t ++ rest.
Proof.
  intros Hp Ht Hd He. revert pre Hp He. induction d as [|y d IH]; intros pre Hp He; [by apply not_elem_of_nil in Hd|].
  destruct pre as [|z pre].
  - injection He as -> He. exists d. by split.
  - injection He as -> He. apply elem_of_cons in Hd as [->|Hd]; [set_solver|].
    destruct (IH Hd pre) as (t & -> & ->); [set_solver|done|]. by exists t.
Qed.
(** An operation the admin thread still has to do with has its job in hand or queued. *)
Lemma pending_job w op p h : mgr_inv w → mw_ops w !! op = Some (p, h) → off_mgr h = false →
  job_hop op ∈ in_hand (mw_mgr w) ++ sm_jobs (mw_mgr w).
Proof.
  intros I Hl%(mi_place _ I) Ho. unfold in_hand. destruct h; try done; cbn in Hl; [..|rewrite Hl; set_solver].
  all: destruct Hl as [->|?]; set_solver.
Qed.

(** C25: Shutting a proxy down: once [stop_] is set and the fence posted after it has run, no
    operation of the proxy waits for the admin thread or runs on it, and this stays so
    whatever happens next: later operations run on their caller's thread. *)
Theorem shutdown_quiesces w0 p f w op h :
  rtc mgr_step mk_mgr_world w0 → p ∈ mw_stopped w0 →
  sm_thread (mw_mgr w0) ≠ th_exited → job_fence f ∉ sm_posted (mw_mgr w0) →
  rtc mgr_step (drain f w0) w → fence_hit f (mw_mgr w) = true →
  mw_ops w !! op = Some (p, h) → off_mgr h = true.
Proof.
  intros Hr0 Hs Hx Hf Hr Hh Hl. apply bool_decide_eq_true_1 in Hh. destruct (off_mgr h) eqn:Hoff; [done|exfalso].
  assert (mgr_inv w) as I.
  { apply (mgr_reachable (drain f w0)); [done|]. apply post_inv; [done|done|done|]. by eapply mgr_reachable; [|apply mk_mgr_inv]. }
  destruct (later_steps p f _ _ Hr) as [_ _ (tail & Hp & Hn & Hft)]. cbn in Hp, Hn, Hft.
  specialize (Hn Hs). specialize (Hft ltac:(set_solver)). pose proof (mi_order _ I) as Ho.
  rewrite Hp, <-(assoc_L (++)) in Ho. destruct (prefix_past _ _ _ _ _ Hf Hft Hh (eq_sym Ho)) as (t & _ & Ht).
  destruct (Hn op) as (q & k & Hl' & Hq); [|congruence].
  rewrite Ht. apply elem_of_app. right. by eapply pending_job.
Qed.

(** ** Order and stopping *)

(** The admin thread runs the jobs in the order they were posted, each once: what is done is
    always a prefix of what was posted, nothing is posted twice, at most one operation runs on
    the thread, and the thread only ends when no job is left. *)
Theorem jobs_in_order w :
  rtc mgr_step mk_mgr_world w →
  sm_done (mw_mgr w) `prefix_of` sm_posted (mw_mgr w) ∧ NoDup (sm_done (mw_mgr w)) ∧
  (∀ o1 o2 p1 p2, mw_ops w !! o1 = Some (p1, on_mgr) → mw_ops w !! o2 = Some (p2, on_mgr) → o1 = o2) ∧
  (sm_thread (mw_mgr w) = th_exited → sm_done (mw_mgr w) = sm_posted (mw_mgr w)).
Proof.
  intros Hr. destruct (mgr_reachable _ _ Hr mk_mgr_inv) as [Ho Hu He _ Hp]. split_and!.
  - rewrite Ho. by apply prefix_app_r.
  - rewrite Ho in Hu. by apply NoDup_app in Hu as [? _].
  - intros o1 o2 p1 p2 H1%Hp H2%Hp. cbn in H1, H2. congruence.
  - intros Hx. destruct (He Hx) as [Hj _]. rewrite Ho, Hj. unfold in_hand. rewrite Hx. by rewrite !app_nil_r.
Qed.

(** The thread on its own: [fuel] turns of its loop, or fewer. *)
Fixpoint run_thread (fuel : nat) (w : mgr_world) : mgr_world :=
  match thread_step w, fuel with Some w, S fuel => run_thread fuel w | _, _ => w end.
Definition thread_work (m : session_mgr) : nat :=
  3 * length (sm_jobs m) + match sm_thread m with th_running _ => 3 | th_op _ => 2 | th_waiting => 1 | th_exited => 0 end.

Lemma thread_step_work w : sm_stop (mw_mgr w) = true → sm_thread (mw_mgr w) ≠ th_exited →
  ∃ w', thread_step w = Some w' ∧ thread_work (mw_mgr w') < thread_work (mw_mgr w) ∧
    sm_stop (mw_mgr w') = true ∧ sm_posted (mw_mgr w') = sm_posted (mw_mgr w).
Proof.
  intros Hs Hx. unfold thread_step, thread_work. destruct (sm_thread (mw_mgr w)) as [|[op|f]|op|] eqn:Ht; [| | | |done].
  - destruct (sm_jobs (mw_mgr w)) as [|j js] eqn:Hj; [rewrite Hs|]; (eexists; split_and!; [reflexivity|cbn; lia|done|done]).
  - repeat case_match; (eexists; split_and!; [reflexivity|cbn; lia|done|done]).
  - eexists. split_and!; [reflexivity|cbn; lia|done|done].
  - eexists. split_and!; [reflexivity|cbn; lia|done|done].
Qed.

Definition drained (posted : list job) (w : mgr_world) : Prop :=
  sm_thread (mw_mgr w) = th_exited ∧ sm_done (mw_mgr w) = posted ∧
  ∀ op p h, mw_ops w !! op = Some (p, h) → off_mgr h = true.
Lemma exited_drained w : mgr_inv w → sm_thread (mw_mgr w) = th_exited → drained (sm_posted (mw_mgr w)) w.
Proof.
  intros I Hx. destruct (mi_exit _ I Hx) as [Hj _]. assert (in_hand (mw_mgr w) = []) as Hh by (unfold in_hand; by rewrite Hx).
  split_and!; [done|by rewrite (mi_order _ I), Hh, Hj, !app_nil_r|].
  intros op p h Hl. destruct (off_mgr h) eqn:Ho; [done|]. pose proof (pending_job _ _ _ _ I Hl Ho) as Hin.
  rewrite Hh, Hj in Hin. by apply not_elem_of_nil in Hin.
Qed.
Lemma run_thread_drained n w : thread_work (mw_mgr w) ≤ n → mgr_inv w → sm_stop (mw_mgr w) = true →
  drained (sm_posted (mw_mgr w)) (run_thread n w).
Proof.
  revert w. induction n as [|n IH]; intros w Hn I Hs; destruct (decide (sm_thread (mw_mgr w) = th_exited)) as [Hx|Hx].
  1,3: cbn [run_thread]; unfold thread_step; rewrite Hx; by apply exited_drained.
  all: destruct (thread_step_work w Hs Hx) as (w' & Ht & Hw & Hs' & Hp).
  { lia. }
  cbn [run_thread]. rewrite Ht, <-Hp. apply IH; [lia|by eapply thread_step_inv|done].
Qed.

(** Once the manager is told to stop, its thread ends: after at most three steps per job it
    has run every job that was posted and exited, and no operation is left waiting for it. *)
Theorem stop_drains w :
  rtc mgr_step mk_mgr_world w → sm_stop (mw_mgr w) = true →
  drained (sm_posted (mw_mgr w)) (run_thread (thread_work (mw_mgr w)) w).
Proof. intros Hr Hs. apply run_thread_drained; [done| |done]. by eapply mgr_reachable; [|apply mk_mgr_inv]. Qed.

(** ** The race of a hop with its own completion *)

(** An operation may run on its caller's thread although its proxy had not stopped, and go on
    after the shutdown's fence: the admin thread completes the event before the caller awaits
    it, so the await does not suspend.  The operation [7] is still running when the fence that
    was posted after it has run; and a second one, [8], runs on the admin thread meanwhile. *)
Theorem hop_outlives_fence :
  ∃ w, rtc mgr_step mk_mgr_world w ∧ sm_posted (mw_mgr w) = [job_hop 7; job_hop 8; job_fence 0] ∧
    mw_ops w !! 7 = Some (1, on_caller) ∧ mw_ops w !! 8 = Some (1, on_mgr) ∧
    ∃ w', rtc mgr_step w w' ∧ fence_hit 0 (mw_mgr w') = true ∧ mw_ops w' !! 7 = Some (1, on_caller).
Proof.
  set (run w := default w (thread_step w)).
  set (w1 := run (run (hop 1 7 mk_mgr_world))). set (w2 := run (run (await 8 (hop 1 8 (await 7 w1))))).
  set (w3 := drain 0 (set_proxy_stop 1 w2)). set (w4 := run (run (run w3))).
  exists w3. split_and!; [|reflexivity..|].
  - eapply rtc_l; [by apply (ms_hop _ 1 7)|]. do 2 (eapply rtc_l; [apply ms_thread; reflexivity|]).
    eapply rtc_l; [apply (ms_await _ 7)|]. eapply rtc_l; [by apply (ms_hop _ 1 8)|]. eapply rtc_l; [apply (ms_await _ 8)|].
    do 2 (eapply rtc_l; [apply ms_thread; reflexivity|]). eapply rtc_l; [apply (ms_flip _ 1)|].
    eapply rtc_l; [apply (ms_drain _ 0); by_eval|]. vm_compute; apply rtc_refl.
  - exists w4. split_and!; [|reflexivity..]. do 3 (eapply rtc_l; [apply ms_thread; reflexivity|]). vm_compute; apply rtc_refl.
Qed.

(** Two proxies; the first shuts down with an operation queued, the second posts on. *)
Definition two_proxies : mgr_world := set_proxy_stop 1 (await 7 (hop 1 7 mk_mgr_world)).
Lemma two_proxies_reached : rtc mgr_step mk_mgr_world two_proxies.
Proof.
  eapply rtc_l; [by apply (ms_hop _ 1 7)|]. eapply rtc_l; [apply (ms_await _ 7)|]. apply rtc_once, ms_flip.
Qed.
Lemma shutdown_quiesces_witness :
  ∃ w, mw_ops w !! 7 = Some (1, op_ended) ∧ off_mgr op_ended = true ∧ mw_ops w !! 8 = Some (2, ev_open).
Proof.
  set (run w := default w (thread_step w)).
  exists (run (run (run (run (run (hop 2 8 (drain 0 two_proxies))))))). split; [reflexivity|]. split; [|reflexivity].
  apply (shutdown_quiesces two_proxies 1 0 (run (run (run (run (run (hop 2 8 (drain 0 two_proxies)))))))  7).
  - apply two_proxies_reached.
  - by_eval.
  - done.
  - by_eval.
  - eapply rtc_l; [by apply (ms_hop _ 2 8)|]. do 5 (eapply rtc_l; [apply ms_thread; reflexivity|]). apply rtc_refl.
  - by_eval.
  - reflexivity.
Defined.
Lemma jobs_in_order_witness : sm_done (mw_mgr two_proxies) `prefix_of` [job_hop 7].
Proof. apply (jobs_in_order two_proxies). apply two_proxies_reached. Defined.
Lemma stop_drains_witness : drained [job_hop 7] (run_thread 4 (set_mgr request_stop two_proxies)).
Proof. apply (stop_drains (set_mgr request_stop two_proxies)); [|done]. eapply rtc_r; [apply two_proxies_reached|apply ms_stop]. Defined.
