(* ===== verification/Builder.v ===== *)
(** * Building a client's backends

    The remote builder [make_tcp_cluster] of [src/net/tcp_cluster.cpp] with the address it
    parses, the test set [make_tcp_replica_set] of [src/net/tcp_set.hpp], and the in-process
    builder [make_local_cluster] of [src/local.cpp] with its fault calls by index.  A proxy
    built from an address that a server advertises reaches that server; the fault calls by
    index are the transport's by id. *)

From S2P Require Import Prelude Codec WireTypes Wire Types Replica Cluster Raft TcpServer WireClient ClusterServer.
From stdpp Require Import strings pretty.

Local Open Scope craft_scope.
Local Open Scope Z_scope.

(** ** Addresses *)

(** [std::string::rfind]: [None] is [npos]. *)
Fixpoint rfind (c : Z) (s : list Z) : option nat :=
  match s with
  | [] => None
  | x :: s => match rfind c s with Some i => Some (S i) | None => if x =? c then Some 0%nat else None end
  end.

(** What [std::stoul] throws. *)
Inductive stoul_error := invalid_argument_ex | out_of_range_ex.
Definition is_space (c : Z) : bool := (c =? 32) || ((9 <=? c) && (c <=? 13)).
Definition digit_of (c : Z) : option Z := if (48 <=? c) && (c <=? 57) then Some (c - 48) else None.
Fixpoint drop_space (s : list Z) : list Z :=
  match s with c :: r => if is_space c then drop_space r else s | [] => [] end.
(** The digits from the front; the rest of the text is ignored. *)
Fixpoint digits (acc : Z) (s : list Z) : Z :=
  match s with
  | c :: s => match digit_of c with Some d => digits (acc * 10 + d) s | None => acc end
  | [] => acc
  end.
(** [std::stoul(s)]: spaces, a sign, digits; a minus sign negates in [unsigned long]. *)
Definition stoul (s : list Z) : result stoul_error Z :=
  let s := drop_space s in
  let '(neg, s) := match s with c :: r => if c =? 45 then (true, r) else if c =? 43 then (false, r) else (false, s) | [] => (false, s) end in
  match head s ≫= digit_of with
  | None => Err invalid_argument_ex
  | Some _ =>
      let v := digits 0 s in
      if 2 ^ 64 <=? v then Err out_of_range_ex else Ok (if neg then u64 (- v) else v)
  end.
(** The host and the port of a member's address; [substr(npos + 1)] is the whole string. *)
Definition split_addr (addr : list Z) : result stoul_error (list Z * Z) :=
  let colon := rfind 58 addr in
  let host := match colon with Some i => take i addr | None => addr end in
  let text := match colon with Some i => drop (S i) addr | None => addr end in
  let? port := stoul text in
  Ok (host, u16 port).

(** ** Proxies *)

(** A proxy as constructed: its endpoint, and the connection state it starts with. *)
Record tcp_proxy := Mk_tcp_proxy {
  px_host : list Z;
  px_port : Z;
  px_id : peer_id_t;
  px_op_timeout : Z;
  px_state : CraftTcpReplica;
}.
Definition mk_tcp_proxy (host : list Z) (port : Z) (id : peer_id_t) (vol : list Z) (op_timeout : Z) : tcp_proxy :=
  Mk_tcp_proxy host port id op_timeout (mk_tcp_replica vol).

(** [make_tcp_cluster]: an address that does not parse throws. *)
Fixpoint make_tcp_cluster (members : list replica_endpoint) (vol : volume_id_t) (op_timeout : Z) : result stoul_error (list tcp_proxy) :=
  match members with
  | [] => Ok []
  | m :: members =>
      let? hp := split_addr (ep_addr m) in
      let? rest := make_tcp_cluster members vol op_timeout in
      Ok (mk_tcp_proxy hp.1 hp.2 (ep_id m) vol op_timeout :: rest)
  end.

(** [make_tcp_replica_set], with the ports the server bound. *)
Definition make_tcp_replica_set (n page_size capacity max_tx : Z) (ports : list Z) (op_timeout : Z) :
    craft_cluster_server * list tcp_proxy :=
  let server := mk_cluster_server n page_size capacity max_tx ports in
  (server, zip_with (λ m port, mk_tcp_proxy (string_bytes "127.0.0.1") port (wm_id m) (cs_vol_id server) op_timeout)
             (cs_members server) ports).

(** ** The in-process builder *)

Definition make_local_cluster (vol : volume_id_t) (n page_size capacity max_tx : Z) : MemTransport :=
  make_mem_replica_group vol n page_size capacity max_tx.
(** [group_.replicas\[i\]] past the end is undefined: [None]. *)
Definition set_replica_up (i : nat) (up : bool) (t : MemTransport) : option MemTransport :=
  (λ m, net_set_up (ep_id m) up t) <$> members_ t !! i.
Definition set_replica_delay (i : nat) (d : Z) (t : MemTransport) : option MemTransport :=
  (λ m, net_set_delay (ep_id m) d t) <$> members_ t !! i.
Definition lc_force_subquorum (keep : list nat) (t : MemTransport) : MemTransport :=
  foldl (λ t '(i, m), on_replica (drop_writes (negb (bool_decide (i ∈ keep)))) t (ep_id m)) t (imap pair (members_ t)).
Definition lc_clear_faults (t : MemTransport) : MemTransport :=
  foldl (λ t m, on_replica clear_faults t (ep_id m)) t (members_ t).

(** ** Addresses round trip *)

Lemma rfind_none c s : c ∉ s → rfind c s = None.
Proof.
  induction s as [|x s IH]; [done|]. intros [Hx Hs]%not_elem_of_cons. cbn. rewrite IH by done.
  by rewrite (proj2 (Z.eqb_neq _ _)).
Qed.
Lemma rfind_last c pre s : c ∉ s → rfind c (pre ++ c :: s) = Some (length pre).
Proof.
  intros Hs. induction pre as [|x pre IH]; cbn; [by rewrite rfind_none, Z.eqb_refl|by rewrite IH].
Qed.

(** The decimal digits that [std::to_string] writes are read back by the digit loop. *)
Definition char_code (c : Ascii.ascii) : Z := Z.of_nat (Ascii.nat_of_ascii c).
Lemma digit_of_char (d : N) : (d < 10)%N → digit_of (char_code (pretty_N_char d)) = Some (Z.of_N d).
Proof.
  intros Hd. assert (d ∈ N.of_nat <$> seq 0 10) as Hin.
  { apply list_elem_of_fmap. exists (N.to_nat d). split; [lia|]. apply elem_of_seq. lia. }
  cbn in Hin. repeat (apply elem_of_cons in Hin as [->|Hin]; [reflexivity|]). by apply not_elem_of_nil in Hin.
Qed.
Lemma digits_pretty_go (x : N) (s : string) : digits 0 (string_bytes (pretty_N_go x s)) = digits (Z.of_N x) (string_bytes s).
Proof.
  revert s. induction (N.lt_wf_0 x) as [x _ IH]. intros s. destruct (decide (x = 0)%N) as [->|Hx]; [by rewrite pretty_N_go_0|].
  rewrite pretty_N_go_step by lia. rewrite IH by (apply N.div_lt; lia).
  change (digits (Z.of_N (x `div` 10)) (char_code (pretty_N_char (x `mod` 10)) :: string_bytes s) = digits (Z.of_N x) (string_bytes s)).
  cbn [digits]. rewrite digit_of_char by (apply N.mod_lt; lia). f_equal.
  pose proof (N.div_mod x 10 ltac:(lia)). lia.
Qed.
Definition all_digits (s : list Z) : Prop := Forall (λ c, is_Some (digit_of c)) s.
Lemma pretty_go_digits (x : N) (s : string) : all_digits (string_bytes s) → all_digits (string_bytes (pretty_N_go x s)).
Proof.
  revert s. induction (N.lt_wf_0 x) as [x _ IH]. intros s Hs. destruct (decide (x = 0)%N) as [->|Hx]; [by rewrite pretty_N_go_0|].
  rewrite pretty_N_go_step by lia. apply IH; [apply N.div_lt; lia|]. constructor; [|done].
  change (is_Some (digit_of (char_code (pretty_N_char (x `mod` 10))))). rewrite digit_of_char by (apply N.mod_lt; lia). done.
Qed.
Lemma pretty_port (p : Z) : 0 ≤ p →
  all_digits (string_bytes (pretty p)) ∧ string_bytes (pretty p) ≠ [] ∧ digits 0 (string_bytes (pretty p)) = p.
Proof.
  intros Hp. destruct p as [|p|p]; [split_and!; [|done|done]; repeat constructor; eauto| |lia].
  assert (pretty (Z.pos p) = pretty_N_go (N.pos p) "") as -> by reflexivity.
  assert (digits 0 (string_bytes (pretty_N_go (N.pos p) "")) = Z.pos p) as Hd by (rewrite digits_pretty_go; done).
  split_and!; [apply pretty_go_digits; constructor| |done]. intros H. rewrite H in Hd. done.
Qed.
Lemma digit_code c : is_Some (digit_of c) → 48 ≤ c ≤ 57.
Proof. unfold digit_of. destruct (_ && _) eqn:H; [|by intros []]. lia. Qed.
Lemma stoul_digits s : all_digits s → s ≠ [] → digits 0 s < 2 ^ 64 → stoul s = Ok (digits 0 s).
Proof.
  intros Hs Hn Hv. destruct s as [|c s]; [done|]. inversion Hs as [|?? Hc _]; subst. pose proof (digit_code _ Hc) as Hr.
  unfold stoul. cbn [drop_space]. assert (is_space c = false) as -> by (unfold is_space; lia).
  rewrite (proj2 (Z.eqb_neq c 45)), (proj2 (Z.eqb_neq c 43)) by lia. cbn [head mbind option_bind].
  destruct Hc as [d ->]. by rewrite (proj2 (Z.leb_gt _ _)).
Qed.
Lemma colon_not_digit s : all_digits s → 58 ∉ s.
Proof. intros Hs Hin. pose proof (digit_code _ (proj1 (Forall_forall _ _) Hs _ Hin)). lia. Qed.

(** The address that a host and a port are printed as is split into them again, whatever the
    host holds, colons included. *)
Lemma split_host_port host port : in_u 16 port → split_addr (host_port host port) = Ok (host, port).
Proof.
  intros Hp. unfold in_u in Hp. destruct (pretty_port port ltac:(lia)) as (Hd & Hn & Hv). unfold split_addr, host_port.
  change (string_bytes (":" +:+ pretty port)) with (58 :: string_bytes (pretty port)).
  rewrite rfind_last by (by apply colon_not_digit). rewrite take_app_length, (cons_middle 58), (assoc_L (++)).
  replace (drop (S (length host)) _) with (string_bytes (pretty port))
    by (rewrite drop_app_ge; rewrite length_app; cbn; [by rewrite Nat.add_1_r, Nat.sub_diag|lia]).
  rewrite stoul_digits by (rewrite ?Hv; done || lia). rewrite Hv. unfold u16. by rewrite wrap_small.
Qed.
Lemma loopback_host_port port : loopback_addr port = host_port (string_bytes "127.0.0.1") port.
Proof. reflexivity. Qed.

(** The remote builder makes one proxy per member, in order, each with the member's id and the
    host and port its address was written from, presenting the volume's id. *)
Theorem tcp_cluster_reaches (eps : list (peer_id_t * list Z * Z)) vol op_timeout :
  Forall (λ e, in_u 16 e.2) eps →
  make_tcp_cluster ((λ e, Mk_endpoint e.1.1 (host_port e.1.2 e.2)) <$> eps) vol op_timeout =
  Ok ((λ e, mk_tcp_proxy e.1.2 e.2 e.1.1 vol op_timeout) <$> eps).
Proof.
  induction 1 as [|[[id host] port] eps Hp _ IH]; [done|]. cbn in Hp. cbn [fmap list_fmap make_tcp_cluster ep_addr ep_id fst snd].
  rewrite split_host_port by done. by rewrite IH.
Qed.

(** A port above 16 bits is not refused: the proxy is built for the port modulo 65536; and an
    address without a port throws, unless it is itself a number, which is then host and port. *)
Theorem port_truncated :
  split_addr (string_bytes "db1:70000") = Ok (string_bytes "db1", 4464) ∧
  split_addr (string_bytes "db1:-1") = Ok (string_bytes "db1", 65535) ∧
  split_addr (string_bytes "db1") = Err invalid_argument_ex ∧
  split_addr (string_bytes "8080") = Ok (string_bytes "8080", 8080).
Proof. vm_compute. auto. Qed.

Lemma register_members ms t page :
  members_ (foldl (λ t m, register_replica (mk_replica m page) t) t ms) = members_ t ∧
  leader_ (foldl (λ t m, register_replica (mk_replica m page) t) t ms) = leader_ t.
Proof. revert t. induction ms as [|m ms IH]; intros t; [done|]. cbn. by destruct (IH (register_replica (mk_replica m page) t)) as [-> ->]. Qed.
(** The test set's proxies are those a client would build from the members the server
    advertises at login. *)
Theorem replica_set_is_tcp_cluster n page_size capacity max_tx ports op_timeout :
  Forall (in_u 16) ports → length ports = Z.to_nat n →
  let '(server, proxies) := make_tcp_replica_set n page_size capacity max_tx ports op_timeout in
  length proxies = Z.to_nat n ∧
  make_tcp_cluster ((λ m, Mk_endpoint (wm_id m) (wm_addr m)) <$> cs_members server) (cs_vol_id server) op_timeout = Ok proxies.
Proof.
  intros Hp Hl. unfold make_tcp_replica_set. cbn [cs_members cs_vol_id mk_cluster_server].
  set (ms := members_ _). assert (length ms = length ports) as Hm.
  { unfold ms. destruct (register_members (mem_members cluster_vol_id n) (mk_transport (mem_members cluster_vol_id n) page_size (2 ^ 30) k_default_max_tx) page_size) as [Hm _].
    unfold make_mem_replica_group. rewrite Hm. cbn. unfold mem_members. rewrite length_fmap, length_range, Hl. f_equal. lia. }
  clearbody ms. rewrite <-Hl. clear Hl. revert ms Hm. induction Hp as [|port ports Hport Hp IH]; intros [|m ms] Hm; try done.
  injection Hm as Hm. destruct (IH ms Hm) as [IHl IHe]. cbn [zip_with fmap list_fmap make_tcp_cluster wm_id wm_addr ep_addr ep_id].
  split; [cbn [length]; by rewrite IHl|]. rewrite loopback_host_port, split_host_port by done. by rewrite IHe.
Qed.

(** ** Faults by index *)

(** A loop over the members by index that does the same as one by id. *)
Lemma foldl_imap_ext {A B} (f : A → nat * B → A) (g : A → B → A) l a :
  (∀ i x a, l !! i = Some x → f a (i, x) = g a x) → foldl f a (imap pair l) = foldl g a l.
Proof.
  induction l as [|x l IH] using rev_ind; intros Hf; [done|].
  rewrite imap_app, !foldl_app. cbn. rewrite IH.
  - apply Hf. rewrite Nat.add_0_r, lookup_app_r, Nat.sub_diag by lia. done.
  - intros i y b Hi. apply Hf. by apply lookup_app_l_Some.
Qed.
Lemma fold_on_replica_other (g : replica_endpoint → MemCraftReplica → MemCraftReplica) ms t id :
  id ∉ ep_id <$> ms → replica_for (foldl (λ t m, on_replica (g m) t (ep_id m)) t ms) id = replica_for t id.
Proof.
  revert t. induction ms as [|m ms IH]; intros t Hid; [done|]. cbn in Hid. apply not_elem_of_cons in Hid as [Hm Hid].
  cbn. rewrite IH by done. unfold replica_for, on_replica. cbn. by apply lookup_alter_ne.
Qed.
Lemma fold_on_replica (g : replica_endpoint → MemCraftReplica → MemCraftReplica) ms t m :
  NoDup (ep_id <$> ms) → m ∈ ms →
  replica_for (foldl (λ t m, on_replica (g m) t (ep_id m)) t ms) (ep_id m) = g m <$> replica_for t (ep_id m).
Proof.
  revert t. induction ms as [|x ms IH]; intros t Hnd Hm; [by apply not_elem_of_nil in Hm|]. cbn in Hnd. inversion Hnd as [|?? Hx Hnd']; subst.
  apply elem_of_cons in Hm as [->|Hm]; cbn.
  - rewrite fold_on_replica_other by done. unfold replica_for, on_replica. cbn. by rewrite lookup_alter_eq.
  - rewrite IH by done. f_equal. unfold replica_for, on_replica. cbn. apply lookup_alter_ne.
    intros He. apply Hx. rewrite He. by apply list_elem_of_fmap_2.
Qed.

(** [force_subquorum] by index is the transport's by id: the members at the given indices, and
    only they, still accept writes; nothing else of any replica changes. *)
Theorem local_subquorum_exact t keep i m r :
  NoDup (ep_id <$> members_ t) → Forall (λ k, (k < length (members_ t))%nat) keep →
  members_ t !! i = Some m → replica_for t (ep_id m) = Some r →
  lc_force_subquorum keep t = force_subquorum (omap (λ k, ep_id <$> members_ t !! k) keep) t ∧
  replica_for (lc_force_subquorum keep t) (ep_id m) = Some (drop_writes (negb (bool_decide (i ∈ keep))) r) ∧
  net_write_allowed (lc_force_subquorum keep t) (ep_id m) = bool_decide (i ∈ keep).
Proof.
  intros Hnd Hk Hi Hr.
  assert (∀ j x, members_ t !! j = Some x → bool_decide (j ∈ keep) = bool_decide (ep_id x ∈ omap (λ k, ep_id <$> members_ t !! k) keep)) as Hj.
  { intros j x Hx. apply bool_decide_ext. rewrite list_elem_of_omap. split.
    - intros Hin. exists j. by rewrite Hx.
    - intros (k & Hin & Hex). destruct (members_ t !! k) as [y|] eqn:Hy; [|done]. cbn in Hex. injection Hex as Hex.
      replace j with k; [done|]. apply (NoDup_lookup _ _ _ (ep_id x) Hnd); rewrite list_lookup_fmap; [by rewrite Hy, <-Hex|by rewrite Hx]. }
  assert (lc_force_subquorum keep t = force_subquorum (omap (λ k, ep_id <$> members_ t !! k) keep) t) as He.
  { apply foldl_imap_ext. intros j x a Hx. by rewrite (Hj j x Hx). }
  assert (replica_for (lc_force_subquorum keep t) (ep_id m) = Some (drop_writes (negb (bool_decide (i ∈ keep))) r)) as Hrep.
  { rewrite He. unfold force_subquorum. rewrite (fold_on_replica (λ m, drop_writes _)) by (done || by eapply list_elem_of_lookup_2).
    rewrite Hr, (Hj i m Hi). done. }
  split_and!; [done|done|]. unfold net_write_allowed. rewrite Hrep. cbn. by rewrite negb_involutive.
Qed.

(** ** Examples *)

Lemma tcp_cluster_reaches_witness :
  make_tcp_cluster [Mk_endpoint [1] (host_port (string_bytes "::1") 5); Mk_endpoint [2] (host_port (string_bytes "db2") 65535)] [9] 0 =
  Ok [mk_tcp_proxy (string_bytes "::1") 5 [1] [9] 0; mk_tcp_proxy (string_bytes "db2") 65535 [2] [9] 0].
Proof. apply (tcp_cluster_reaches [([1], string_bytes "::1", 5); ([2], string_bytes "db2", 65535)] [9] 0). repeat constructor; by_eval. Defined.
Lemma replica_set_is_tcp_cluster_witness :
  let '(server, proxies) := make_tcp_replica_set 2 4 4096 4096 [40001; 40002] 0 in length proxies = 2%nat.
Proof. apply (replica_set_is_tcp_cluster 2 4 4096 4096 [40001; 40002] 0); [repeat constructor; by_eval|reflexivity]. Defined.
Definition local_example : MemTransport := make_local_cluster (replicate 16 7) 3 4 4096 4096.
Lemma local_subquorum_exact_witness :
  ∃ m, members_ local_example !! 1%nat = Some m ∧ net_write_allowed (lc_force_subquorum [0; 2]%nat local_example) (ep_id m) = false.
Proof.
  exists (Mk_endpoint (mem_replica_id (replicate 16 7) 1) (mem_replica_addr 1)). split; [reflexivity|].
  apply (local_subquorum_exact local_example [0; 2]%nat 1 _
           (mk_replica (Mk_endpoint (mem_replica_id (replicate 16 7) 1) (mem_replica_addr 1)) 4)).
  - by_eval.
  - by_eval.
  - reflexivity.
  - vm_compute. reflexivity.
Defined.
