(* ===== verification/RaftState.v ===== *)
(** * The raft state manager

    [raft_state_mgr] of [src/raft/raft_state_manager.cpp], with [jsonObjectFromFile] of
    [src/helper.hpp]: what a replica writes down of its raft term, vote and cluster
    configuration, and what it reads back after a restart.  The JSON library is an interface
    ([JsonLib], [JsonLaws]); raft's records are the fields the code copies. *)

From S2P Require Import Prelude Types.
From stdpp Require Import strings pretty countable.

Local Open Scope craft_scope.
Local Open Scope Z_scope.

(** ** The JSON library *)

(** Building values, looking into them, and their text.  [field]: [None] when the key is
    absent; [as_int], [as_bool], [as_str]: [None] when the conversion throws; [parse]: [None]
    when the text is not JSON.  A value that is not [printable] (a string in it is not UTF-8)
    stops its own output with an exception; [dump] is what was written until then. *)
Class JsonLib (json : Type) := {
  j_int : Z → json;
  j_bool : bool → json;
  j_str : list Z → json;
  j_arr : list json → json;
  j_obj : list (string * json) → json;
  is_object : json → bool;
  field : string → json → option json;
  elems : json → list json;
  as_int : json → option Z;
  as_bool : json → option bool;
  as_str : json → option (list Z);
  printable : json → bool;
  dump : json → list Z;
  parse : list Z → option json;
}.
(** What the library documents of them. *)
Class JsonLaws (json : Type) `{JsonLib json} := {
  parse_dump j : printable j = true → parse (dump j) = Some j;
  is_object_obj kvs : is_object (j_obj kvs) = true;
  field_obj kvs k v : NoDup kvs.*1 → (k, v) ∈ kvs → field k (j_obj kvs) = Some v;
  field_obj_none kvs k : k ∉ kvs.*1 → field k (j_obj kvs) = None;
  elems_arr l : elems (j_arr l) = l;
  as_int_int z : as_int (j_int z) = Some z;
  as_bool_bool b : as_bool (j_bool b) = Some b;
  as_str_str s : as_str (j_str s) = Some s;
}.

(** ** Raft's records *)

Record srv_config := Mk_srv_config {
  sc_id : Z;
  sc_dc_id : Z;
  sc_endpoint : list Z;
  sc_aux : list Z;
  sc_learner : bool;
  sc_priority : Z;
}.
Record cluster_config := Mk_cluster_config {
  cc_log_idx : Z;
  cc_prev_log_idx : Z;
  cc_async : bool;
  cc_user_ctx : list Z;
  cc_servers : list srv_config;
}.
Record srv_state := Mk_srv_state { ss_term : Z; ss_voted_for : Z }.

(** ** Files *)

(** The files by path, and the directories that exist: opening a file in another one fails. *)
Record disk := Mk_disk { dk_files : gmap (list Z) (list Z); dk_dirs : gset (list Z) }.
Record raft_state_mgr := Mk_state_mgr { rsm_srv_id : Z; rsm_srv_addr : list Z; rsm_group_id : list Z }.

Definition state_dir (m : raft_state_mgr) : list Z := rsm_group_id m ++ string_bytes ("_s" +:+ pretty (rsm_srv_id m)).
Definition config_file (m : raft_state_mgr) : list Z := state_dir m ++ string_bytes "/config.json".
Definition state_file (m : raft_state_mgr) : list Z := state_dir m ++ string_bytes "/state.json".
Definition write_file (m : raft_state_mgr) (path text : list Z) (d : disk) : disk :=
  if decide (state_dir m ∈ dk_dirs d) then Mk_disk (<[path := text]> (dk_files d)) (dk_dirs d) else d.

(** What loading can run into: a text that is not JSON or a value of another type, which throw;
    a key that is not in a [const] value, which is undefined. *)
Inductive load_fault := lf_parse | lf_type | lf_no_key.
Definition throws {A} (f : load_fault) (o : option A) : result load_fault A := match o with Some a => Ok a | None => Err f end.

Section state_manager.
Context {json : Type} `{JsonLib json}.

(** [jsonObjectFromFile]: [Ok None] is an error the callers test for. *)
Definition jsonObjectFromFile (path : list Z) (d : disk) : result load_fault (option json) :=
  match dk_files d !! path with
  | None => Ok None
  | Some text =>
      let? j := throws lf_parse (parse text) in
      Ok (if is_object j then Some j else None)
  end.

(** A field of a [const] value, converted. *)
Definition get_field {A} (conv : json → option A) (k : string) (j : json) : result load_fault A :=
  let? v := throws lf_no_key (field k j) in throws lf_type (conv v).

Definition fromServer (j : json) : result load_fault srv_config :=
  let? id := get_field as_int "id" j in
  let? dc_id := get_field as_int "dc_id" j in
  let? endpoint := get_field as_str "endpoint" j in
  let? aux := get_field as_str "aux" j in
  let? learner := get_field as_bool "learner" j in
  let? priority := get_field as_int "priority" j in
  Ok (Mk_srv_config (to_i32 id) (to_i32 dc_id) endpoint aux learner (to_i32 priority)).
Fixpoint fromServers (js : list json) : result load_fault (list srv_config) :=
  match js with
  | [] => Ok []
  | j :: js => let? s := fromServer j in let? ss := fromServers js in Ok (s :: ss)
  end.
Definition server_json (s : srv_config) : json :=
  j_obj [("id", j_int (sc_id s)); ("dc_id", j_int (sc_dc_id s)); ("endpoint", j_str (sc_endpoint s));
         ("aux", j_str (sc_aux s)); ("learner", j_bool (sc_learner s)); ("priority", j_int (sc_priority s))].
Definition toServers (ss : list srv_config) : json := j_arr (server_json <$> ss).
(** The constructor leaves the user context empty. *)
Definition fromClusterConfig (j : json) : result load_fault cluster_config :=
  let? log_idx := get_field as_int "log_idx" j in
  let? prev_log_idx := get_field as_int "prev_log_idx" j in
  let? eventual := get_field as_bool "eventual_consistency" j in
  let? servers := throws lf_no_key (field "servers" j) in
  let? ss := fromServers (elems servers) in
  Ok (Mk_cluster_config (u64 log_idx) (u64 prev_log_idx) eventual [] ss).

(** [save_config] and [save_state]. *)
Definition config_json (c : cluster_config) : json :=
  j_obj [("log_idx", j_int (cc_log_idx c)); ("prev_log_idx", j_int (cc_prev_log_idx c));
         ("eventual_consistency", j_bool (cc_async c)); ("user_ctx", j_str (cc_user_ctx c)); ("servers", toServers (cc_servers c))].
Definition save_config (m : raft_state_mgr) (c : cluster_config) (d : disk) : disk :=
  write_file m (config_file m) (dump (config_json c)) d.
Definition state_json (s : srv_state) : json := j_obj [("term", j_int (ss_term s)); ("voted_for", j_int (ss_voted_for s))].
Definition save_state (m : raft_state_mgr) (s : srv_state) (d : disk) : disk :=
  write_file m (state_file m) (dump (state_json s)) d.

(** The records raft's constructors make: a server of an id and an address, a fresh state. *)
Context (new_srv : Z → list Z → srv_config) (new_state : srv_state).

Definition load_config (m : raft_state_mgr) (d : disk) : result load_fault cluster_config :=
  let? j := jsonObjectFromFile (config_file m) d in
  match j with
  | Some j => fromClusterConfig j
  | None => Ok (Mk_cluster_config 0 0 false [] [new_srv (rsm_srv_id m) (rsm_srv_addr m)])
  end.
(** The value is not [const]: a missing key reads as null, whose conversion throws a type
    error, not the [std::out_of_range] that is caught. *)
Definition read_state (m : raft_state_mgr) (d : disk) : result load_fault srv_state :=
  let? j := jsonObjectFromFile (state_file m) d in
  match j with
  | Some j =>
      let? term := throws lf_type (v ← field "term" j; as_int v) in
      let? voted_for := throws lf_type (v ← field "voted_for" j; as_int v) in
      Ok (Mk_srv_state (u64 term) (to_i32 voted_for))
  | None => Ok new_state
  end.

(** ** Restart *)

Lemma state_config_files m : state_file m ≠ config_file m.
Proof. intros [=]%app_inv_head. Qed.
Lemma write_read m path text d : state_dir m ∈ dk_dirs d → dk_files (write_file m path text d) !! path = Some text.
Proof. intros Hd. unfold write_file. rewrite decide_True by done. apply lookup_insert_eq. Qed.
Lemma write_other m path path' text d : path ≠ path' → dk_files (write_file m path text d) !! path' = dk_files d !! path'.
Proof. intros Hn. unfold write_file. case_decide; [|done]. by apply lookup_insert_ne. Qed.
Lemma write_dirs m path text d : dk_dirs (write_file m path text d) = dk_dirs d.
Proof. unfold write_file. by case_decide. Qed.

Context `{!JsonLaws json}.

Lemma get_obj {A} (conv : json → option A) k v a kvs :
  NoDup kvs.*1 → (k, v) ∈ kvs → conv v = Some a → get_field conv k (j_obj kvs) = Ok a.
Proof. intros Hn Hk Hv. unfold get_field. rewrite (field_obj kvs k v) by done. cbn. by rewrite Hv. Qed.

Definition srv_ok (s : srv_config) : Prop := in_i32 (sc_id s) ∧ in_i32 (sc_dc_id s) ∧ in_i32 (sc_priority s).
Definition config_ok (c : cluster_config) : Prop := in_u 64 (cc_log_idx c) ∧ in_u 64 (cc_prev_log_idx c) ∧ Forall srv_ok (cc_servers c).

(** A key among the literal ones of an object. *)
Local Ltac literal_keys := first [by_eval | set_solver].
Lemma fromServer_json s : srv_ok s → fromServer (server_json s) = Ok s.
Proof.
  intros (Hi & Hd & Hp). unfold fromServer, server_json.
  rewrite (get_obj as_int "id" (j_int (sc_id s)) (sc_id s)) by (literal_keys || apply as_int_int).
  rewrite (get_obj as_int "dc_id" (j_int (sc_dc_id s)) (sc_dc_id s)) by (literal_keys || apply as_int_int).
  rewrite (get_obj as_str "endpoint" (j_str (sc_endpoint s)) (sc_endpoint s)) by (literal_keys || apply as_str_str).
  rewrite (get_obj as_str "aux" (j_str (sc_aux s)) (sc_aux s)) by (literal_keys || apply as_str_str).
  rewrite (get_obj as_bool "learner" (j_bool (sc_learner s)) (sc_learner s)) by (literal_keys || apply as_bool_bool).
  rewrite (get_obj as_int "priority" (j_int (sc_priority s)) (sc_priority s)) by (literal_keys || apply as_int_int).
  rewrite !to_i32_small by done. by destruct s.
Qed.
Lemma fromServers_json ss : Forall srv_ok ss → fromServers (server_json <$> ss) = Ok ss.
Proof. induction 1 as [|s ss Hs _ IH]; [done|]. cbn. rewrite fromServer_json by done. by rewrite IH. Qed.
Definition drop_user_ctx (c : cluster_config) : cluster_config :=
  Mk_cluster_config (cc_log_idx c) (cc_prev_log_idx c) (cc_async c) [] (cc_servers c).
Lemma fromClusterConfig_json c : config_ok c → fromClusterConfig (config_json c) = Ok (drop_user_ctx c).
Proof.
  intros (Hl & Hp & Hs). unfold fromClusterConfig, config_json.
  rewrite (get_obj as_int "log_idx" (j_int (cc_log_idx c)) (cc_log_idx c)) by (literal_keys || apply as_int_int).
  rewrite (get_obj as_int "prev_log_idx" (j_int (cc_prev_log_idx c)) (cc_prev_log_idx c)) by (literal_keys || apply as_int_int).
  rewrite (get_obj as_bool "eventual_consistency" (j_bool (cc_async c)) (cc_async c)) by (literal_keys || apply as_bool_bool).
  rewrite (field_obj _ "servers" (toServers (cc_servers c))) by literal_keys. cbn [throws]. unfold toServers.
  rewrite elems_arr, fromServers_json by done. unfold u64. by rewrite !wrap_small.
Qed.
Lemma load_saved m c d : state_dir m ∈ dk_dirs d → config_ok c → printable (config_json c) = true →
  dk_files d !! config_file m = Some (dump (config_json c)) → load_config m d = Ok (drop_user_ctx c).
Proof.
  intros Hd Hc Hp Hf. unfold load_config, jsonObjectFromFile. rewrite Hf, parse_dump by done. cbn [throws].
  unfold config_json at 1. rewrite is_object_obj. by apply fromClusterConfig_json.
Qed.
Lemma read_saved m s d : in_u 64 (ss_term s) → in_i32 (ss_voted_for s) → printable (state_json s) = true →
  dk_files d !! state_file m = Some (dump (state_json s)) → read_state m d = Ok s.
Proof.
  intros Ht Hv Hp Hf. unfold read_state, jsonObjectFromFile. rewrite Hf, parse_dump by done. cbn [throws].
  unfold state_json. rewrite is_object_obj.
  rewrite (field_obj _ "term" (j_int (ss_term s))) by literal_keys. rewrite (field_obj _ "voted_for" (j_int (ss_voted_for s))) by literal_keys.
  cbn [mbind option_bind]. rewrite !as_int_int. cbn [throws]. unfold u64. rewrite wrap_small, to_i32_small by done. by destruct s.
Qed.

(** C28: What survives a restart.  Where the replica's state directory exists and the values
    saved are printable (their strings are UTF-8), a replica that restarts reads back the term
    and the vote it saved last, and the cluster configuration but for its user context, which
    is written and never read; each file is kept whatever is saved to the other.  Where the
    directory does not exist, and no code creates it, every save leaves the disk as it was,
    without an error. *)
Theorem raft_state_persists m c c' s s' d :
  config_ok c → printable (config_json c) = true →
  in_u 64 (ss_term s) → in_i32 (ss_voted_for s) → printable (state_json s) = true →
  let d1 := save_config m c' (save_state m s d) in
  let d2 := save_state m s' (save_config m c d) in
  (state_dir m ∈ dk_dirs d → read_state m d1 = Ok s ∧ load_config m d2 = Ok (drop_user_ctx c)) ∧
  (state_dir m ∉ dk_dirs d → d1 = d ∧ d2 = d).
Proof.
  intros Hc Hpc Ht Hv Hps d1 d2. split; [intros Hd; split|intros Hd].
  - apply read_saved; [done..|]. unfold d1, save_config. rewrite write_other by (apply not_eq_sym, state_config_files). by apply write_read.
  - apply load_saved; [unfold d2, save_state, save_config; by rewrite !write_dirs|done|done|].
    unfold d2, save_state. rewrite write_other by apply state_config_files. by apply write_read.
  - unfold d1, d2, save_state, save_config, write_file. by rewrite !decide_False by (rewrite ?decide_False by done; done).
Qed.

(** Where its directory does not exist nothing is saved, and nothing says so: a replica that
    voted starts again at a fresh term, having voted for nobody. *)
Theorem vote_forgotten m s d :
  state_dir m ∉ dk_dirs d → dk_files d !! state_file m = None → read_state m (save_state m s d) = Ok new_state.
Proof.
  intros Hd Hf. unfold save_state, write_file. rewrite decide_False by done. unfold read_state, jsonObjectFromFile. by rewrite Hf.
Qed.

(** A state file that lacks a key is not survived: the conversion's exception leaves
    [read_state], whose handler is for another one. *)
Theorem bad_state_escapes m d kvs :
  "term" ∉ kvs.*1 → printable (j_obj kvs) = true →
  dk_files d !! state_file m = Some (dump (j_obj kvs)) → read_state m d = Err lf_type.
Proof.
  intros Ht Hp Hf. unfold read_state, jsonObjectFromFile. rewrite Hf, parse_dump by done. cbn [throws].
  by rewrite is_object_obj, field_obj_none.
Qed.
End state_manager.

(** ** A JSON library *)

(** Trees, with a node of alternating keys and values for an object; the text of a tree is its
    number. *)
Definition tree_json : Type := gen_tree (Z + (bool + (list Z + string))).
Fixpoint tree_field (k : string) (l : list tree_json) : option tree_json :=
  match l with
  | GenLeaf (inr (inr (inr k'))) :: v :: l => if decide (k' = k) then Some v else tree_field k l
  | _ => None
  end.
#[export] Instance tree_json_lib : JsonLib tree_json := {|
  j_int z := GenLeaf (inl z);
  j_bool b := GenLeaf (inr (inl b));
  j_str s := GenLeaf (inr (inr (inl s)));
  j_arr l := GenNode 0 l;
  j_obj kvs := GenNode 1 (kvs ≫= (λ kv, [GenLeaf (inr (inr (inr kv.1))); kv.2]));
  is_object j := match j with GenNode 1 _ => true | _ => false end;
  field k j := match j with GenNode 1 l => tree_field k l | _ => None end;
  elems j := match j with GenNode 0 l => l | _ => [] end;
  as_int j := match j with GenLeaf (inl z) => Some z | _ => None end;
  as_bool j := match j with GenLeaf (inr (inl b)) => Some b | _ => None end;
  as_str j := match j with GenLeaf (inr (inr (inl s))) => Some s | _ => None end;
  printable _ := true;
  dump j := [Z.pos (encode j)];
  parse t := match t with [Z.pos p] => decode p | _ => None end;
|}.
#[export] Instance tree_json_laws : JsonLaws tree_json.
Proof.
  split; try done.
  - intros j _. apply decode_encode.
  - intros kvs k v. cbn. induction kvs as [|[k' v'] kvs IH]; intros Hn Hk; [by apply not_elem_of_nil in Hk|].
    cbn in Hn |- *. inversion Hn as [|?? Hk' Hn']; subst. apply elem_of_cons in Hk as [[= -> ->]|Hk]; [by rewrite decide_True|].
    rewrite decide_False; [by apply IH|]. intros ->. apply Hk'. by apply (list_elem_of_fmap_2 fst _ (k, v)).
  - intros kvs k. cbn. induction kvs as [|[k' v'] kvs IH]; intros Hk; [done|]. cbn in Hk |- *.
    apply not_elem_of_cons in Hk as [Hn Hk]. rewrite decide_False by done. by apply IH.
Qed.

(** ** Examples *)

Definition example_mgr : raft_state_mgr := Mk_state_mgr 7 (string_bytes "a1") (string_bytes "g").
Definition example_srv (id : Z) (addr : list Z) : srv_config := Mk_srv_config id 0 addr [] false 1.
Definition example_config : cluster_config := Mk_cluster_config 5 4 false (string_bytes "ctx") [example_srv 7 (string_bytes "a1"); example_srv (-3) (string_bytes "a2")].
Definition example_disk : disk := Mk_disk ∅ {[ string_bytes "g_s7" ]}.

Lemma raft_state_persists_witness :
  read_state (json := tree_json) (Mk_srv_state 0 (-1)) example_mgr
    (save_config example_mgr example_config (save_state example_mgr (Mk_srv_state 3 7) example_disk)) = Ok (Mk_srv_state 3 7) ∧
  load_config (json := tree_json) example_srv example_mgr
    (save_state example_mgr (Mk_srv_state 4 1) (save_config example_mgr example_config example_disk)) = Ok (drop_user_ctx example_config).
Proof.
  apply (raft_state_persists (json := tree_json) example_srv (Mk_srv_state 0 (-1)) example_mgr example_config example_config
           (Mk_srv_state 3 7) (Mk_srv_state 4 1) example_disk).
  - unfold config_ok, srv_ok. split_and!; [by_eval|by_eval|]. repeat constructor; by_eval.
  - reflexivity.
  - by_eval.
  - by_eval.
  - reflexivity.
  - by_eval.
Defined.
Lemma vote_forgotten_witness :
  read_state (json := tree_json) (Mk_srv_state 0 (-1)) example_mgr (save_state example_mgr (Mk_srv_state 3 7) (Mk_disk ∅ ∅)) = Ok (Mk_srv_state 0 (-1)).
Proof. apply (vote_forgotten (json := tree_json) (Mk_srv_state 0 (-1)) example_mgr (Mk_srv_state 3 7) (Mk_disk ∅ ∅)); by_eval. Defined.
Lemma bad_state_escapes_witness :
  read_state (json := tree_json) (Mk_srv_state 0 (-1)) example_mgr
    (Mk_disk {[ state_file example_mgr := dump (json := tree_json) (j_obj [("voted_for", j_int 2)]) ]} ∅) = Err lf_type.
Proof.
  apply (bad_state_escapes (json := tree_json) (Mk_srv_state 0 (-1)) example_mgr _ [("voted_for", j_int 2)]).
  - by_eval.
  - reflexivity.
  - apply lookup_singleton_eq.
Defined.
