(* ===== verification/RaftService.v ===== *)
(** * The raft service

    [raft_service] of [src/raft/raft_service.cpp], the bridge between the server and the
    consensus library, and the state machine's [commit] of [src/raft/raft_state_machine.hpp].
    The library's answers are arguments: [lib] answers a call given the calls before it,
    [repl_ctx] is what a group's context says when asked, [append_status] what an append
    returns. *)

From S2P Require Import Prelude Codec WireTypes Wire Types Replica Raft RaftRun RaftState.
From stdpp Require Import strings.

Local Open Scope craft_scope.
Local Open Scope Z_scope.

(** ** State *)

(** [rs_enabled]: [consensus_] is set.  [rs_once]: the [once_flag] is spent. *)
Record raft_service := Mk_raft_service {
  rs_enabled : bool;
  rs_once : bool;
  rs_server_uuid : peer_id_t;
  rs_state_mgrs : gmap volume_id_t raft_state_mgr;
  rs_has_commit_cb : bool;
}.
Definition mk_raft_service : raft_service := Mk_raft_service false false nil_uuid ∅ false.

(** What a group's context says. *)
Record repl_ctx := Mk_repl_ctx { rx_is_leader : bool; rx_leader_id : list Z }.
(** What is asked of the library. *)
Inductive raft_call := rc_create_group (g : volume_id_t) | rc_add_member (g : volume_id_t) (c : srv_config).

(** [start_raft_service]: the flag is spent even when the replica is not known. *)
Definition start_raft_service (uuid : peer_id_t) (reg : replica_manager) (s : raft_service) : raft_service :=
  if rs_once s then s
  else match get_replica reg uuid with
       | None => Mk_raft_service (rs_enabled s) true (rs_server_uuid s) (rs_state_mgrs s) (rs_has_commit_cb s)
       | Some _ => Mk_raft_service true true uuid (rs_state_mgrs s) (rs_has_commit_cb s)
       end.
Definition get_state_mgr (g : volume_id_t) (s : raft_service) : result error_condition raft_state_mgr :=
  match rs_state_mgrs s !! g with None => Err (ec_craft INTERNAL) | Some m => Ok m end.
Definition add_state_mgr (g : volume_id_t) (m : raft_state_mgr) (s : raft_service) : raft_service :=
  Mk_raft_service (rs_enabled s) (rs_once s) (rs_server_uuid s) (<[g := m]> (rs_state_mgrs s)) (rs_has_commit_cb s).
Definition add_commit_cb (s : raft_service) : raft_service :=
  if negb (rs_enabled s) then s else Mk_raft_service (rs_enabled s) (rs_once s) (rs_server_uuid s) (rs_state_mgrs s) true.

Section service.
(** The library's name for a replica and default priority, and a uuid's text both ways. *)
Context (to_server_id : peer_id_t → Z) (init_priority : Z) (uuid_string : peer_id_t → list Z) (uuid_of_string : list Z → peer_id_t).

Definition create_state_mgr (srv_id : Z) (g : volume_id_t) (s : raft_service) : raft_state_mgr * raft_service :=
  match get_state_mgr g s with
  | Ok m => (m, s)
  | Err _ => let m := Mk_state_mgr srv_id (uuid_string (rs_server_uuid s)) (uuid_string g) in (m, add_state_mgr g m s)
  end.

(** *** Creating a volume *)

Context (lib : list raft_call → bool).

Definition member_config (id : peer_id_t) : srv_config := Mk_srv_config (to_server_id id) 0 (uuid_string id) [] false init_priority.
(** The loop over the members, with the calls made so far. *)
Fixpoint add_members (self : peer_id_t) (reg : replica_manager) (g : volume_id_t) (members : list replica_endpoint)
    (calls : list raft_call) : result error_condition unit * list raft_call :=
  match members with
  | [] => (Ok tt, calls)
  | m :: members =>
      match lookup_peer reg (ep_id m) with
      | [] => (Err (ec_craft INTERNAL), calls)
      | _ :: _ =>
          if decide (ep_id m = self) then add_members self reg g members calls
          else
            let calls := calls ++ [rc_add_member g (member_config (ep_id m))] in
            if lib calls then add_members self reg g members calls else (Err (ec_craft INTERNAL), calls)
      end
  end.
Definition rs_create_volume (s : raft_service) (reg : replica_manager) (g : volume_id_t) (members : list replica_endpoint)
    (calls : list raft_call) : result error_condition unit * list raft_call :=
  if negb (rs_enabled s) then (Err (ec_craft INTERNAL), calls)
  else
    let calls := calls ++ [rc_create_group g] in
    if lib calls then add_members (rs_server_uuid s) reg g members calls else (Err (ec_craft INTERNAL), calls).

(** *** Leadership *)

Definition is_leader (s : raft_service) (g : volume_id_t) (ctx : option repl_ctx) : bool :=
  if negb (rs_enabled s) then false
  else match get_state_mgr g s, ctx with
       | Ok _, Some c => rx_is_leader c
       | _, _ => false
       end.
Definition leader_id (s : raft_service) (g : volume_id_t) (ctx : option repl_ctx) : peer_id_t :=
  if negb (rs_enabled s) then nil_uuid
  else match get_state_mgr g s, ctx with
       | Ok _, Some c => match rx_leader_id c with [] => nil_uuid | _ :: _ => uuid_of_string (rx_leader_id c) end
       | _, _ => nil_uuid
       end.

(** *** Proposing *)

(** [append]: what the library returned, its acceptance and result code, or no result at all;
    [None]: the result is asked for its code although there is none. *)
Definition propose (to_condition : Z → error_condition) (s : raft_service) (g : volume_id_t) (ctx : option repl_ctx)
    (append : option (bool * Z)) : option (result error_condition unit) :=
  match get_state_mgr g s, ctx with
  | Err _, _ | _, None => Some (Err (ec_craft INTERNAL))
  | Ok _, Some _ =>
      match append with
      | Some (true, _) => Some (Ok tt)
      | Some (false, code) => Some (Err (to_condition code))
      | None => None
      end
  end.

(** ** Properties *)

(** The calls a volume's creation makes: the group, then every other member, in order. *)
Definition planned (self : peer_id_t) (g : volume_id_t) (members : list replica_endpoint) : list raft_call :=
  rc_create_group g :: ((λ m, rc_add_member g (member_config (ep_id m))) <$> filter (λ m, ep_id m ≠ self) members).
Fixpoint accepted (calls new : list raft_call) : bool :=
  match new with [] => true | c :: new => lib (calls ++ [c]) && accepted (calls ++ [c]) new end.
Definition known (reg : replica_manager) (m : replica_endpoint) : Prop := is_Some (rm_replicas reg !! ep_id m).

Lemma lookup_known reg m : lookup_peer reg (ep_id m) ≠ [] ↔ known reg m.
Proof.
  unfold lookup_peer, known. destruct (rm_replicas reg !! ep_id m) as [i|]; [|split; [done|by intros []]].
  split; [eauto|]. intros _. unfold host_port. intros [_ He]%app_eq_nil. done.
Qed.
Lemma add_members_spec self reg g members calls r calls' :
  add_members self reg g members calls = (r, calls') →
  let new := (λ m, rc_add_member g (member_config (ep_id m))) <$> filter (λ m, ep_id m ≠ self) members in
  (r = Ok tt ↔ Forall (known reg) members ∧ accepted calls new = true) ∧ (r = Ok tt → calls' = calls ++ new) ∧
  (∃ pre, pre `prefix_of` new ∧ calls' = calls ++ pre) ∧ (r = Ok tt ∨ r = Err (ec_craft INTERNAL)).
Proof.
  cbv zeta. revert calls. induction members as [|m members IH]; intros calls H; cbn in H.
  { injection H as <- <-. cbn. split_and!; [done|by rewrite app_nil_r| |by left]. exists []. by rewrite app_nil_r. }
  destruct (lookup_peer reg (ep_id m)) as [|b addr] eqn:Hl.
  { injection H as <- <-. split_and!; [|done| |by right].
    - split; [done|]. intros [Hk _]. inversion Hk as [|?? Hm _]; subst. by apply lookup_known in Hm.
    - exists []. rewrite app_nil_r. split; [apply prefix_nil|done]. }
  assert (known reg m) as Hm by (apply lookup_known; congruence). rewrite filter_cons.
  destruct (decide (ep_id m = self)) as [He|He].
  - rewrite decide_False by (by intros ?). destruct (IH _ H) as (H1 & H2 & H3 & H4). split_and!; [|done..].
    rewrite H1, Forall_cons. tauto.
  - rewrite decide_True by done. cbn [fmap list_fmap accepted]. destruct (lib _) eqn:Hlib; cbn [andb].
    + destruct (IH _ H) as (H1 & H2 & (pre & H3 & H5) & H4). split_and!; [|by intros Hr; rewrite H2, <-(assoc_L (++))| |done].
      * rewrite H1, Forall_cons. tauto.
      * exists (rc_add_member g (member_config (ep_id m)) :: pre). split; [by apply prefix_cons|]. by rewrite H5, <-(assoc_L (++)).
    + injection H as <- <-. split_and!; [|done| |by right]; [by split; [done|intros [_ ?]]|].
      eexists. split; [|done]. apply prefix_cons, prefix_nil.
Qed.

(** C39: A volume is created exactly when raft is on, every member is in the registry and the
    library accepts the group and each other member; the calls are then the group's creation
    and one addition per other member, in order.  Any failure is INTERNAL, after a prefix of
    those calls. *)
Theorem create_volume_spec s reg g members calls :
  let '(r, calls') := rs_create_volume s reg g members calls in
  let plan := planned (rs_server_uuid s) g members in
  (r = Ok tt ↔ rs_enabled s = true ∧ Forall (known reg) members ∧ accepted calls plan = true) ∧
  (r = Ok tt → calls' = calls ++ plan) ∧
  (∃ pre, pre `prefix_of` plan ∧ calls' = calls ++ pre) ∧ (r = Ok tt ∨ r = Err (ec_craft INTERNAL)).
Proof.
  unfold rs_create_volume. destruct (rs_enabled s); cbn [negb].
  2: { split_and!; [by split; [|intros [? _]]|done| |by right]. exists []. rewrite app_nil_r. split; [apply prefix_nil|done]. }
  cbv zeta. unfold planned. cbn [accepted]. destruct (lib (calls ++ [rc_create_group g])) eqn:Hlib; cbn [andb].
  - destruct (add_members _ _ _ _ _) as [r calls'] eqn:Ha. destruct (add_members_spec _ _ _ _ _ _ _ Ha) as (H1 & H2 & (pre & H3 & H4) & H5).
    split_and!; [rewrite H1; tauto|by intros Hr; rewrite H2, <-(assoc_L (++))| |done].
    exists (rc_create_group g :: pre). split; [by apply prefix_cons|]. by rewrite H4, <-(assoc_L (++)).
  - split_and!; [|done| |by right]; [by split; [done|intros (_ & _ & ?)]|].
    exists [rc_create_group g]. split; [apply prefix_cons, prefix_nil|done].
Qed.

(** A login at a replica that has no raft group for the volume is a redirect to no one: the
    result is not an error, its term is 0 and the leader it names is the nil uuid. *)
Theorem login_without_group_redirects s g ctx e r client_token term :
  get_state_mgr g s = Err (ec_craft INTERNAL) →
  le_enabled e = true → le_is_leader e = is_leader s g ctx → le_leader_id e = leader_id s g ctx →
  apply_login e r client_token term = (Ok (Mk_LoginResult [] (-1) 0 0 0 nil_uuid 0), None, None, r).
Proof.
  intros Hg He Hl Hi. unfold apply_login. rewrite He, Hl, Hi. unfold is_leader, leader_id. rewrite Hg.
  by destruct (rs_enabled s).
Qed.
End service.

(** The manager of a group is made once: asking again returns the one that is there. *)
Theorem state_mgr_stable uuid_string srv_id srv_id' g s :
  let '(m, s1) := create_state_mgr uuid_string srv_id g s in
  get_state_mgr g s1 = Ok m ∧ create_state_mgr uuid_string srv_id' g s1 = (m, s1).
Proof.
  unfold create_state_mgr. destruct (get_state_mgr g s) as [m|e] eqn:Hg.
  - split; [done|]. by rewrite Hg.
  - unfold get_state_mgr, add_state_mgr. cbn. by rewrite lookup_insert_eq.
Qed.

(** A first start with a uuid that is not in the registry spends the flag: no later start
    enables raft. *)
Theorem raft_start_once uuid reg starts s :
  rs_once s = false → rs_enabled s = false → get_replica reg uuid = None →
  rs_enabled (foldl (λ s '(u, r), start_raft_service u r s) (start_raft_service uuid reg s) starts) = false.
Proof.
  intros Ho He Hu. unfold start_raft_service at 2. rewrite Ho, Hu, He.
  assert (∀ t, rs_once t = true → foldl (λ s '(u, r), start_raft_service u r s) t starts = t) as Hf.
  { induction starts as [|[u r] starts IH]; intros t Ht; [done|]. cbn. unfold start_raft_service at 2. rewrite Ht. by apply IH. }
  by rewrite Hf.
Qed.

(** ** Messages through the log *)

(** MessagePack and the library's buffers: a byte string put into a buffer is taken out of it
    again. *)
Class Msgpack (J : Type) := { to_msgpack : J → list Z; from_msgpack : list Z → option J; }.
Class RaftBuffer (B : Type) := { buf_put : list Z → B; buf_get_bytes : B → list Z; }.

Section log.
Context {J B : Type} `{!Json J, !Msgpack J, !RaftBuffer B}.

Definition create_message (j : J) : B := buf_put (to_msgpack j).
Definition unwrap_buffer (b : B) : option J := from_msgpack (buf_get_bytes b).

(** [echo_state_machine]: the commands handed on, and the last index. *)
Record echo_state_machine := Mk_echo { es_cb : bool; es_last_commit_idx : Z }.
(** [commit]: a message that does not decode is dropped and the index stays; [None]: the
    callback throws. *)
Definition echo_commit (s : echo_state_machine) (log_idx : Z) (b : B) : option (list commit_task * echo_state_machine) :=
  match unwrap_buffer b with
  | None => Some ([], s)
  | Some j =>
      tasks ← (if es_cb s then commit_cb j else Some []);
      Some (tasks, Mk_echo (es_cb s) log_idx)
  end.

Context (pack_inv : ∀ j : J, from_msgpack (to_msgpack j) = Some j) (buf_inv : ∀ l : list Z, buf_get_bytes (buf_put (B := B) l) = l).

(** A round proposed by the leader reaches every replica's worker as it was proposed, with its
    voided dLSNs; a login reaches it without the watermark it was proposed with. *)
Theorem proposal_reaches_worker s idx sync login :
  es_cb s = true →
  echo_commit s idx (create_message (sync_to_json sync)) = Some ([task_sync sync], Mk_echo true idx) ∧
  echo_commit s idx (create_message (login_to_json login)) =
    Some ([task_login (Mk_login_msg (lm_client_token login) (lm_term login) (-1))], Mk_echo true idx).
Proof.
  intros Hcb. unfold echo_commit, unwrap_buffer, create_message. rewrite !buf_inv, !pack_inv, Hcb. split.
  - rewrite commit_sync. done.
  - rewrite commit_login. done.
Qed.
End log.

(** The hooks of the state machine that are not commits: nothing is kept for a snapshot, one
    that arrives is accepted as it is, and the handler of a new one is told it is done. *)
Definition echo_pre_commit (s : echo_state_machine) : option (list Z) * echo_state_machine := (None, s).
Definition echo_rollback (s : echo_state_machine) : echo_state_machine := s.
Definition echo_apply_snapshot (s : echo_state_machine) : bool * echo_state_machine := (true, s).
Definition echo_read_snapshot_data (s : echo_state_machine) : Z * echo_state_machine := (0, s).
Definition echo_last_snapshot (s : echo_state_machine) : option (list Z) := None.
Definition echo_create_snapshot (handler : bool) (s : echo_state_machine) : option bool * echo_state_machine :=
  (if handler then Some true else None, s).

(** ** The process's raft runtime

    [nuraft_global_mgr] is initialised at every start and shut down by the destructor of a
    service that has its consensus manager. *)
Record raft_process := Mk_raft_process { rp_service : raft_service; rp_global : bool }.
Definition start_process (uuid : peer_id_t) (reg : replica_manager) (p : raft_process) : raft_process :=
  Mk_raft_process (start_raft_service uuid reg (rp_service p)) true.
Definition destroy_service (p : raft_process) : raft_process :=
  let s := rp_service p in
  if rs_enabled s then Mk_raft_process (Mk_raft_service false (rs_once s) (rs_server_uuid s) (rs_state_mgrs s) (rs_has_commit_cb s)) false
  else p.

(** The destructor undoes a start of a replica that the registry knows, and leaves the
    runtime of one it does not know initialised. *)
Theorem destroy_undoes_start uuid reg :
  let p := destroy_service (start_process uuid reg (Mk_raft_process mk_raft_service false)) in
  rs_enabled (rp_service p) = false ∧ rp_global p = bool_decide (get_replica reg uuid = None).
Proof.
  unfold destroy_service, start_process, start_raft_service. simpl. destruct (get_replica reg uuid); by split.
Qed.

(** ** Examples *)

Definition example_registry : replica_manager :=
  Mk_replica_manager (list_to_map ((λ i, (replicate 16 i, Mk_replica_info (replicate 16 i) [104] 10 20)) <$> [1; 2; 3])) ∅.
Definition example_service : raft_service := start_raft_service (replicate 16 1) example_registry mk_raft_service.
Definition example_members (ids : list Z) : list replica_endpoint := (λ i, Mk_endpoint (replicate 16 i) []) <$> ids.

(** The creation is not undone where it fails: with a member that is not in the registry the
    call is INTERNAL, and the group exists with the members before it. *)
Theorem create_volume_partial :
  rs_create_volume (λ id, default 0 (head id)) 1 id (λ _, true) example_service example_registry (replicate 16 9) (example_members [1; 2; 4; 3]) [] =
  (Err (ec_craft INTERNAL), [rc_create_group (replicate 16 9); rc_add_member (replicate 16 9) (Mk_srv_config 2 0 (replicate 16 2) [] false 1)]).
Proof. vm_compute. reflexivity. Qed.
(** A proposal for which the library returns no result is answered by reading that result. *)
Theorem propose_without_result to_condition s g m ctx : get_state_mgr g s = Ok m → propose to_condition s g (Some ctx) None = None.
Proof. intros Hm. unfold propose. by rewrite Hm. Qed.

Lemma raft_start_once_witness :
  rs_enabled (foldl (λ s '(u, r), start_raft_service u r s)
    (start_raft_service (replicate 16 7) example_registry mk_raft_service) [(replicate 16 1, example_registry)]) = false.
Proof. apply (raft_start_once (replicate 16 7) example_registry [(replicate 16 1, example_registry)] mk_raft_service); [done|done|by_eval]. Defined.
Lemma login_without_group_redirects_witness :
  apply_login (Mk_login_env true false nil_uuid [] [] [] (Ok tt) (Ok tt) true) (mk_raft (Mk_endpoint (replicate 16 1) []) 4 4096) 5 1 =
  (Ok (Mk_LoginResult [] (-1) 0 0 0 nil_uuid 0), None, None, mk_raft (Mk_endpoint (replicate 16 1) []) 4 4096).
Proof.
  apply (login_without_group_redirects id example_service (replicate 16 9) (Some (Mk_repl_ctx true [49]))); reflexivity.
Defined.
Lemma propose_without_result_witness :
  propose (λ _, ec_craft INTERNAL) (create_state_mgr id 3 (replicate 16 9) example_service).2 (replicate 16 9) (Some (Mk_repl_ctx true [])) None = None.
Proof.
  apply (propose_without_result _ _ _ (Mk_state_mgr 3 (replicate 16 1) (replicate 16 9))). vm_compute. reflexivity.
Defined.

(** A MessagePack for the objects of the examples: their number. *)
Definition jv_code (v : jvalue) : Z + list Z := match v with Raft.j_int z => inl z | j_ints l => inr l end.
Definition jv_decode (v : Z + list Z) : jvalue := match v with inl z => Raft.j_int z | inr l => j_ints l end.
#[local] Instance example_msgpack : Msgpack (list (string * jvalue)) := {|
  to_msgpack j := [Z.pos (encode ((λ f, (f.1, jv_code f.2)) <$> j))];
  from_msgpack b := match b with [Z.pos p] => fmap (λ f : string * (Z + list Z), (f.1, jv_decode f.2)) <$> decode p | _ => None end;
|}.
#[local] Instance example_buffer : RaftBuffer (list Z) := {| buf_put l := Z.of_nat (length l) :: l; buf_get_bytes := tail |}.
Lemma proposal_reaches_worker_witness :
  echo_commit (J := list (string * jvalue)) (B := list Z) (Mk_echo true 4) 5 (create_message (sync_to_json (J := list (string * jvalue)) (Mk_sync_msg 3 5 [2]))) =
  Some ([task_sync (Mk_sync_msg 3 5 [2])], Mk_echo true 5).
Proof.
  apply (proposal_reaches_worker (J := list (string * jvalue)) (B := list Z)) with (login := Mk_login_msg 5 8 0).
  - intros j. unfold to_msgpack, from_msgpack. cbn. rewrite decode_encode. cbn. f_equal. rewrite <-list_fmap_compose.
    rewrite <-(list_fmap_id j) at 2. apply list_fmap_ext. intros i [k [z|l]] _; reflexivity.
  - done.
  - done.
Defined.
