(* ===== verification/Driver.v ===== *)
(** * The test driver's volume creation

    [tools/craft_test_driver/craft_wire.py] and [VolumeRegistry.create] of [volumes.py]: the
    Python program packs a CREATE_VOLUME request by hand, sends it to the first member's
    server and reads the reply.  What it packs is the frame the C++ framer makes, and the
    status it returns is the server's, however the reply is cut into receives. *)

From S2P Require Import Prelude Codec WireTypes Wire Types Replica Raft Conn TcpServer WireClient Remote RemoteSession.
From stdpp Require Import strings.

Local Open Scope craft_scope.
Local Open Scope Z_scope.

(** ** Packing *)

(** What the program raises. *)
Inductive py_error := value_error | struct_error | connection_error | runtime_error | index_error.

(** [struct.pack] of one unsigned integer of [n] bytes, little-endian: out of range raises. *)
Definition pack (n : nat) (z : Z) : result py_error (list Z) :=
  if decide (in_u (8 * Z.of_nat n) z) then Ok (le_bytes n z) else Err struct_error.
Definition OP_CREATE_VOLUME : Z := 15.
Definition MSG_HDR_SIZE : nat := 8.

Definition py_put_member (id addr : list Z) : result py_error (list Z) :=
  if negb (bool_decide (length id = 16%nat)) then Err value_error
  else let? n := pack 2 (Z.of_nat (length addr)) in Ok (id ++ n ++ addr).
(** [b"".join(...)]. *)
Fixpoint join_members (ms : list member) : result py_error (list Z) :=
  match ms with
  | [] => Ok []
  | m :: ms => let? b := py_put_member (wm_id m) (wm_addr m) in let? rest := join_members ms in Ok (b ++ rest)
  end.
(** What [create_volume] sends: header, operation header, body. *)
Definition py_request (vol : list Z) (capacity lba_size : Z) (ms : list member) : result py_error (list Z) :=
  let? body := join_members ms in
  let? cap := pack 8 capacity in
  let? lba := pack 4 lba_size in
  let? count := pack 4 (Z.of_nat (length ms)) in
  let? o := pack 1 OP_CREATE_VOLUME in
  let? st := pack 1 0 in
  let? rid := pack 2 1 in
  let? len := pack 4 (Z.of_nat (length body)) in
  Ok ((o ++ st ++ rid ++ len) ++ (vol ++ cap ++ lba ++ count) ++ body).

(** ** Receiving *)

(** [recv_exact]: the bytes asked for and what is left, over the non-empty chunks the socket
    delivers until it ends. *)
Fixpoint recv_exact (n : nat) (buf : list Z) (chunks : list (list Z)) : result py_error (list Z * list (list Z)) :=
  if decide (n ≤ length buf)%nat then Ok (buf, chunks)
  else match chunks with
       | [] => Err connection_error
       | c :: chunks =>
           let k := (n - length buf)%nat in
           if decide (length c ≤ k)%nat then recv_exact n (buf ++ c) chunks else Ok (buf ++ take k c, drop k c :: chunks)
       end.
(** The reply: its header unpacked, and its body read if it has one. *)
Definition py_reply (chunks : list (list Z)) : result py_error Z :=
  let? h := recv_exact MSG_HDR_SIZE [] chunks in
  let status := le_value (subspan 1 1 h.1) in
  let body_len := le_value (subspan 4 4 h.1) in
  if body_len =? 0 then Ok status
  else let? _ := recv_exact (Z.to_nat body_len) [] h.2 in Ok status.
(** [create_volume]: [net] is what the server at an endpoint sends back to the bytes it gets;
    [None] when there is no connection. *)
Definition py_create_volume (net : list Z → option (list (list Z))) (vol : list Z) (capacity lba_size : Z) (ms : list member) :
    result py_error Z :=
  let? msg := py_request vol capacity lba_size ms in
  match net msg with
  | None => Err connection_error
  | Some chunks => py_reply chunks
  end.

Definition status_name (code : Z) : option string :=
  if code =? 0 then Some "ok" else if code =? 1 then Some "stale_term" else if code =? 2 then Some "not_leader"
  else if code =? 3 then Some "no_quorum" else if code =? 4 then Some "wrong_token" else if code =? 5 then Some "not_eligible"
  else if code =? 6 then Some "replica_down" else if code =? 7 then Some "invalid_argument"
  else if code =? 255 then Some "internal" else None.

(** ** The registry of the test run *)

Record py_volume := Mk_py_volume { pv_members : list replica_info; pv_capacity : Z; pv_lba_size : Z }.
(** [create], with the volume id it was given or made; [net] by host and port. *)
Definition registry_create (net : list Z → Z → list Z → option (list (list Z))) (members : list replica_info) (vol : list Z)
    (capacity lba_size : Z) (volumes : gmap (list Z) py_volume) : result py_error (gmap (list Z) py_volume) :=
  match members with
  | [] => Err index_error
  | leader :: _ =>
      let wire_members := (λ m, Mk_member (ri_id m) (host_port (ri_host m) (ri_tcp_port m))) <$> members in
      let? code := py_create_volume (net (ri_host leader) (ri_tcp_port leader)) vol capacity lba_size wire_members in
      if code =? 0 then Ok (<[vol := Mk_py_volume members capacity lba_size]> volumes) else Err runtime_error
  end.

(** ** The request *)

Lemma pack_ok n z b : pack n z = Ok b → in_u (8 * Z.of_nat n) z ∧ b = le_bytes n z.
Proof. unfold pack. case_decide; [by intros [= <-]|done]. Qed.
Lemma join_members_ok ms body : join_members ms = Ok body → Forall member_ok ms ∧ body = foldl put_member [] ms.
Proof.
  intros H. assert (Forall member_ok ms ∧ body = ms ≫= member_bytes) as [Hm ->]; [|split; [done|by rewrite foldl_put_member]].
  revert body H. induction ms as [|m ms IH]; intros body H; [by injection H as <-|]. cbn in H. unfold py_put_member in H.
  destruct (bool_decide (length (wm_id m) = 16%nat)) eqn:Hid; [|done]. apply bool_decide_eq_true_1 in Hid. cbn [negb] in H.
  destruct (pack 2 _) as [n|] eqn:Hn; [|done]. apply pack_ok in Hn as [Hl ->]. destruct (join_members ms) as [rest|] eqn:Hr; [|done].
  injection H as <-. destruct (IH rest eq_refl) as [Hms ->]. split; [by constructor|].
  cbn. unfold member_bytes. cbn. by rewrite <-!(assoc_L (++)).
Qed.
Definition volume_req (vol : list Z) (capacity lba_size : Z) (ms : list member) : volume_create_req :=
  Mk_volume_create_req vol capacity lba_size (Z.of_nat (length ms)).

(** What the driver packs is the frame the C++ side makes for the same request. *)
Lemma py_request_frame vol capacity lba_size ms msg :
  py_request vol capacity lba_size ms = Ok msg →
  Forall member_ok ms ∧ in_u 64 capacity ∧ in_u 32 lba_size ∧ in_u 32 (Z.of_nat (length ms)) ∧
  in_u 32 (Z.of_nat (length (foldl put_member [] ms))) ∧
  msg = frame_message [] create_volume 0 1 (enc volume_create_req_codec (volume_req vol capacity lba_size ms)) (foldl put_member [] ms) no_digest.
Proof.
  unfold py_request. destruct (join_members ms) as [body|] eqn:Hb; [|done]. apply join_members_ok in Hb as [Hm ->].
  destruct (pack 8 capacity) as [cap|] eqn:Hc; [|done]. apply pack_ok in Hc as [Hcr ->].
  destruct (pack 4 lba_size) as [lba|] eqn:Hl; [|done]. apply pack_ok in Hl as [Hlr ->].
  destruct (pack 4 (Z.of_nat (length ms))) as [count|] eqn:Hn; [|done]. apply pack_ok in Hn as [Hnr ->].
  destruct (pack 1 OP_CREATE_VOLUME) as [o|] eqn:Ho; [|done]. apply pack_ok in Ho as [_ ->].
  destruct (pack 1 0) as [st|] eqn:Hst; [|done]. apply pack_ok in Hst as [_ ->].
  destruct (pack 2 1) as [rid|] eqn:Hrid; [|done]. apply pack_ok in Hrid as [_ ->].
  destruct (pack 4 (Z.of_nat (length (foldl put_member [] ms)))) as [len|] eqn:Hlen; [|done]. apply pack_ok in Hlen as [Hlenr ->].
  intros H. match type of H with Ok ?x = _ => assert (msg = x) as -> by congruence end. split_and!; [done..|].
  unfold frame_message, put, u32. rewrite wrap_small by done. cbv beta zeta. cbn [dg_header dg_data no_digest].
  rewrite app_nil_l, <-(assoc_L (++)). reflexivity.
Qed.

(** ** The reply *)

Lemma recv_exact_all chunks : ∀ n buf,
  length (buf ++ concat chunks) = n → ∃ rest, recv_exact n buf chunks = Ok (buf ++ concat chunks, rest).
Proof.
  induction chunks as [|c chunks IH]; intros n buf Hn; cbn in Hn |- *; rewrite length_app in Hn.
  - cbn in Hn. rewrite decide_True by lia. rewrite app_nil_r. eauto.
  - rewrite length_app in Hn. case_decide as Hd.
    + assert (c = [] ∧ concat chunks = []) as [-> ->] by (split; apply nil_length_inv; lia). rewrite app_nil_r. eauto.
    + rewrite decide_True by lia. rewrite (assoc_L (++)). apply IH. rewrite !length_app. lia.
Qed.
(** A reply without header or body is read to its status. *)
Lemma py_reply_status o code rid chunks :
  byte_ok code → concat chunks = frame_message [] o code rid [] [] no_digest → py_reply chunks = Ok code.
Proof.
  intros Hc He. unfold py_reply. destruct (recv_exact_all chunks MSG_HDR_SIZE []) as [rest Hr].
  { cbn [app]. rewrite He. reflexivity. }
  rewrite Hr. cbn [app fst snd]. rewrite He.
  assert (le_value (subspan 4 4 (frame_message [] o code rid [] [] no_digest)) = 0) as -> by reflexivity.
  assert (le_value (subspan 1 1 (frame_message [] o code rid [] [] no_digest)) = code) as ->; [|done].
  change (le_value (le_bytes 1 code) = code). rewrite le_value_bytes. apply Z.mod_small. done.
Qed.

(** ** End to end *)

Definition endpoint_of (m : member) : replica_endpoint := Mk_endpoint (wm_id m) (wm_addr m).
Definition created_status (r : result error_condition unit) : status := match r with Ok _ => st_ok | Err e => to_wire_status e end.

(** C30: The driver's request, handled by the server: whatever it packed without an exception and
    the server's transfer limit admits creates the volume as a call of [srv_create_volume]
    with the same members would, in the registry and in the status, which the driver returns
    however the reply arrives. *)
Theorem driver_creates_volume e s vol capacity lba_size ms msg :
  py_request vol capacity lba_size ms = Ok msg →
  length vol = 16%nat → bytes_ok vol → Forall (λ m, bytes_ok (wm_id m) ∧ bytes_ok (wm_addr m)) ms →
  in_u 32 (sg_max_tx (sv_geo s)) → Z.of_nat (length (foldl put_member [] ms)) ≤ sg_max_tx (sv_geo s) →
  let '(r, g) := srv_create_volume (se_created e) vol (endpoint_of <$> ms) (sv_registry s) in
  ∃ answer s', serve_one e s msg = Some (answer, s') ∧ sv_registry s' = g ∧ sv_replica s' = sv_replica s ∧
    ∀ chunks, concat chunks = answer →
      py_create_volume (λ _, Some chunks) vol capacity lba_size ms = Ok (status_byte (created_status r)).
Proof.
  intros Hreq Hvl Hvb Hmb Hmax Hlen. destruct (py_request_frame _ _ _ _ _ Hreq) as (Hm & Hc & Hl & Hn & Hbl & Hmsg).
  set (q := volume_req vol capacity lba_size ms) in *. set (body := foldl put_member [] ms) in *.
  assert (bytes_ok body) as Hbody.
  { unfold body. rewrite foldl_put_member by done. cbn [app]. apply Forall_bind. eapply Forall_impl; [exact Hmb|].
    intros m [Hi Ha]. unfold member_bytes. by repeat apply Forall_app_2; [done|apply le_bytes_ok|]. }
  assert (cvalid volume_create_req_codec q) as Hq by exact (conj (conj Hvl Hvb) (conj Hc (conj Hl Hn))).
  assert (frame_ok (sg_max_tx (sv_geo s)) (Mk_frame create_volume 0 1 (enc volume_create_req_codec q) body)) as Hf
    by (apply struct_frame_ok; [done|done|by_eval|by_eval|done|done|done|by right]).
  destruct (srv_create_volume _ _ _ _) as [r g] eqn:Hsrv.
  exists (frame_message [] create_volume_rsp (status_byte (created_status r)) 1 [] [] no_digest).
  exists (Mk_server (sv_geo s) (sv_replica s) g (sv_next_term s) (sv_session_term s) (sv_session_active s)).
  split; [|split; [done|split; [done|]]].
  - unfold serve_one. rewrite Hmsg. change (frame_message [] create_volume 0 1 (enc volume_create_req_codec q) body no_digest)
      with (frame_bytes no_digest (Mk_frame create_volume 0 1 (enc volume_create_req_codec q) body)).
    rewrite parse_whole by done. cbn [parsed_frame m_hdr mh_op frame_hdr wf_op wf_status wf_rid wf_body op_code Z.eqb Pos.eqb].
    unfold on_create_volume. unfold parsed_frame at 1 2 3. cbn [m_op_header m_body wf_oh wf_body wf_op wf_status wf_rid].
    assert (dec volume_create_req_codec (enc volume_create_req_codec q) = q) as ->
      by (rewrite <-(app_nil_r (enc volume_create_req_codec q)); by apply dec_enc).
    change (cq_member_count q) with (Z.of_nat (length ms)). unfold body. rewrite decode_all_members by done.
    change ((λ m : member, Mk_endpoint (wm_id m) (wm_addr m)) <$> ms) with (endpoint_of <$> ms).
    change (cq_volume_id q) with vol. rewrite Hsrv. by destruct r.
  - intros chunks Hch. unfold py_create_volume. rewrite Hreq. eapply py_reply_status; [|exact Hch].
    destruct r as [[]|er]; [by_eval|]. apply (status_of_code er).
Qed.

(** ** Examples *)

Definition driver_info (i : Z) : replica_info := Mk_replica_info (replicate 16 i) (string_bytes "h") 10 20.
Definition driver_server : craft_tcp_server :=
  mk_server (Mk_geometry 4096 4 4096 (Mk_member (replicate 16 1) []))
    (Mk_replica_manager (list_to_map ((λ i, (ri_id i, i)) <$> (driver_info <$> [1; 2]))) ∅).
Definition driver_env : srv_env := Mk_srv_env (Mk_login_env true true nil_uuid [] [] [] (Ok tt) (Ok tt) true) (Ok tt) 0.
Definition driver_members : list member := (λ m, Mk_member (ri_id m) (host_port (ri_host m) (ri_tcp_port m))) <$> (driver_info <$> [1; 2]).

Lemma driver_creates_volume_witness :
  ∃ msg answer s', py_request (replicate 16 9) 4096 4 driver_members = Ok msg ∧ serve_one driver_env driver_server msg = Some (answer, s') ∧
    rm_volumes (sv_registry s') !! replicate 16 9 = Some [replicate 16 1; replicate 16 2] ∧
    py_create_volume (λ _, Some [take 3 answer; drop 3 answer]) (replicate 16 9) 4096 4 driver_members = Ok 0.
Proof.
  destruct (py_request (replicate 16 9) 4096 4 driver_members) as [msg|] eqn:Hm; [|vm_compute in Hm; discriminate].
  pose proof (driver_creates_volume driver_env driver_server (replicate 16 9) 4096 4 driver_members msg Hm) as H.
  destruct H as (answer & s' & Hs & Hg & _ & Hr); [reflexivity|by_eval|repeat constructor; by_eval|by_eval|by_eval|].
  exists msg, answer, s'. split; [done|]. split; [exact Hs|]. split; [rewrite Hg; vm_compute; reflexivity|].
  apply Hr. cbn. by rewrite app_nil_r, take_drop.
Defined.
