(* ===== verification/Sockets.v ===== *)
(** * Descriptors and rings of connections

    [craft_conn] and [craft_listener] of [src/net/conn.cpp] as owners of a descriptor and an
    io_uring: [connect], [adopt], the moves, [close_all], [bind_listen], [accept] and the
    destructors, over a kernel that keeps what is open.  What the system calls return is an
    argument.  Every descriptor and ring that is open belongs to exactly one object, and none
    is closed twice, as long as rings can be set up. *)

From S2P Require Import Prelude Codec WireTypes Wire Conn.

Local Open Scope craft_scope.
Local Open Scope Z_scope.

(** ** The kernel *)

(** The open descriptors and rings; [kn_bad] counts closes of what is not open. *)
Record kernel := Mk_kernel { kn_fds : gset nat; kn_rings : gset nat; kn_bad : nat }.
Definition sys_open (fd : nat) (k : kernel) : kernel := Mk_kernel ({[fd]} ∪ kn_fds k) (kn_rings k) (kn_bad k).
Definition sys_close (fd : nat) (k : kernel) : kernel :=
  if decide (fd ∈ kn_fds k) then Mk_kernel (kn_fds k ∖ {[fd]}) (kn_rings k) (kn_bad k)
  else Mk_kernel (kn_fds k) (kn_rings k) (S (kn_bad k)).
Definition ring_init (r : nat) (k : kernel) : kernel := Mk_kernel (kn_fds k) ({[r]} ∪ kn_rings k) (kn_bad k).
Definition ring_exit (r : nat) (k : kernel) : kernel :=
  if decide (r ∈ kn_rings k) then Mk_kernel (kn_fds k) (kn_rings k ∖ {[r]}) (kn_bad k)
  else Mk_kernel (kn_fds k) (kn_rings k) (S (kn_bad k)).

(** ** Connections and listeners *)

(** [None]: [fd_] is -1; [ring_ready_] is false. *)
Record craft_conn := Mk_conn { co_fd : option nat; co_ring : option nat; co_rx : list Z }.
Record craft_listener := Mk_listener { ls_fd : option nat; ls_port : Z }.
Definition new_conn : craft_conn := Mk_conn None None [].

Definition close_all (c : craft_conn) (k : kernel) : craft_conn * kernel :=
  let k := match co_ring c with Some r => ring_exit r k | None => k end in
  let k := match co_fd c with Some fd => sys_close fd k | None => k end in
  (Mk_conn None None (co_rx c), k).
(** The moves: the target, and what the source is left with. *)
Definition move_conn (src : craft_conn) : craft_conn * craft_conn := (src, Mk_conn None None []).
Definition move_assign (dst src : craft_conn) (k : kernel) : craft_conn * craft_conn * kernel :=
  let '(_, k) := close_all dst k in (src, Mk_conn None None [], k).
(** [adopt]; [ring] is what [io_uring_queue_init] sets up.  On its failure the descriptor is
    closed, and again by the destructor of the local connection that holds it. *)
Definition adopt (fd : nat) (ring : option nat) (k : kernel) : result net_error craft_conn * kernel :=
  let c := Mk_conn (Some fd) None [] in
  match ring with
  | None => (Err ne_setup, (close_all c (sys_close fd k)).2)
  | Some r => (Ok (Mk_conn (Some fd) (Some r) []), ring_init r k)
  end.

Inductive poll_ret := pr_ready | pr_none | pr_intr | pr_error.
(** The poll loop, over the time left and the answer of each round: ready, given up, or
    [None] while it goes on. *)
Fixpoint poll_loop (rounds : list (Z * poll_ret)) : option bool :=
  match rounds with
  | [] => None
  | (rem, p) :: rounds =>
      if rem <=? 0 then Some false
      else match p with pr_ready => Some true | pr_none | pr_error => Some false | pr_intr => poll_loop rounds end
  end.
Inductive connect_ret := cr_done | cr_in_progress | cr_failed.
Record connect_env := Mk_connect_env {
  ce_socket : option nat;
  ce_pton : bool;
  ce_fcntl : bool;
  ce_connect : connect_ret;
  ce_polls : list (Z * poll_ret);
  ce_so_error : bool;
  ce_ring : option nat;
}.
(** [connect]; [None] while it waits for the handshake. *)
Definition conn_connect (e : connect_env) (k : kernel) : option (result net_error craft_conn * kernel) :=
  match ce_socket e with
  | None => Some (Err ne_setup, k)
  | Some fd =>
      let k := sys_open fd k in
      if negb (ce_pton e) then Some (Err ne_setup, sys_close fd k)
      else if negb (ce_fcntl e) then Some (Err ne_setup, sys_close fd k)
      else match ce_connect e with
           | cr_failed => Some (Err ne_connect, sys_close fd k)
           | cr_done => Some (adopt fd (ce_ring e) k)
           | cr_in_progress =>
               ready ← poll_loop (ce_polls e);
               if negb ready then Some (Err ne_connect, sys_close fd k)
               else if negb (ce_so_error e) then Some (Err ne_connect, sys_close fd k)
               else Some (adopt fd (ce_ring e) k)
           end
  end.
(** [bind_listen]: the socket, whether bind and listen succeed, and the port bound. *)
Definition bind_listen (sock : option nat) (bound : bool) (port : Z) (k : kernel) : result net_error craft_listener * kernel :=
  match sock with
  | None => (Err ne_setup, k)
  | Some fd =>
      let k := sys_open fd k in
      if negb bound then (Err ne_setup, sys_close fd k) else (Ok (Mk_listener (Some fd) port), k)
  end.
Definition accept (cfd ring : option nat) (k : kernel) : result net_error craft_conn * kernel :=
  match cfd with
  | None => (Err ne_connect, k)
  | Some fd => adopt fd ring (sys_open fd k)
  end.
Definition close_listener (l : craft_listener) (k : kernel) : craft_listener * kernel :=
  (Mk_listener None (ls_port l), match ls_fd l with Some fd => sys_close fd k | None => k end).
Definition move_assign_listener (dst src : craft_listener) (k : kernel) : craft_listener * craft_listener * kernel :=
  (src, Mk_listener None (ls_port src), (close_listener dst k).2).

(** ** A program's objects *)

Inductive sock_obj := ob_conn (c : craft_conn) | ob_listener (l : craft_listener).
Definition ob_fd (o : sock_obj) : option nat := match o with ob_conn c => co_fd c | ob_listener l => ls_fd l end.
Definition ob_ring (o : sock_obj) : option nat := match o with ob_conn c => co_ring c | ob_listener _ => None end.
Record sockets := Mk_sockets { so_kernel : kernel; so_objs : gmap nat sock_obj }.

Definition put_conn (i : nat) (r : result net_error craft_conn * kernel) (s : sockets) : sockets :=
  Mk_sockets r.2 (match r.1 with Ok c => <[i := ob_conn c]> (so_objs s) | Err _ => so_objs s end).
(** The numbers the kernel hands out are not in use. *)
Definition fresh (fd ring : option nat) (k : kernel) : Prop :=
  (∀ f, fd = Some f → f ∉ kn_fds k) ∧ (∀ r, ring = Some r → r ∉ kn_rings k).

Inductive sock_step : sockets → sockets → Prop :=
| sk_connect s i e r :
    so_objs s !! i = None → fresh (ce_socket e) (ce_ring e) (so_kernel s) → is_Some (ce_ring e) →
    conn_connect e (so_kernel s) = Some r → sock_step s (put_conn i r s)
| sk_accept s i j l cfd ring :
    so_objs s !! j = Some (ob_listener l) → so_objs s !! i = None → fresh cfd ring (so_kernel s) → is_Some ring →
    sock_step s (put_conn i (accept cfd ring (so_kernel s)) s)
| sk_listen s i sock bound port l k :
    so_objs s !! i = None → fresh sock None (so_kernel s) → bind_listen sock bound port (so_kernel s) = (Ok l, k) →
    sock_step s (Mk_sockets k (<[i := ob_listener l]> (so_objs s)))
| sk_listen_failed s sock bound port e k :
    fresh sock None (so_kernel s) → bind_listen sock bound port (so_kernel s) = (Err e, k) → sock_step s (Mk_sockets k (so_objs s))
| sk_move s i j c :
    so_objs s !! i = Some (ob_conn c) → so_objs s !! j = None →
    sock_step s (Mk_sockets (so_kernel s) (<[j := ob_conn (move_conn c).1]> (<[i := ob_conn (move_conn c).2]> (so_objs s))))
| sk_assign s i j src dst src' dst' k :
    i ≠ j → so_objs s !! i = Some (ob_conn src) → so_objs s !! j = Some (ob_conn dst) →
    move_assign dst src (so_kernel s) = (dst', src', k) →
    sock_step s (Mk_sockets k (<[j := ob_conn dst']> (<[i := ob_conn src']> (so_objs s))))
| sk_assign_listener s i j src dst src' dst' k :
    i ≠ j → so_objs s !! i = Some (ob_listener src) → so_objs s !! j = Some (ob_listener dst) →
    move_assign_listener dst src (so_kernel s) = (dst', src', k) →
    sock_step s (Mk_sockets k (<[j := ob_listener dst']> (<[i := ob_listener src']> (so_objs s))))
| sk_destroy s i c :
    so_objs s !! i = Some (ob_conn c) → sock_step s (Mk_sockets (close_all c (so_kernel s)).2 (delete i (so_objs s)))
| sk_destroy_listener s i l :
    so_objs s !! i = Some (ob_listener l) → sock_step s (Mk_sockets (close_listener l (so_kernel s)).2 (delete i (so_objs s))).
Definition no_sockets : sockets := Mk_sockets (Mk_kernel ∅ ∅ 0) ∅.

(** ** Ownership *)

(** The handles in [S] are those the objects hold, each held by one. *)
Record owned (S : gset nat) (g : sock_obj → option nat) (m : gmap nat sock_obj) : Prop := {
  ow_held f : f ∈ S ↔ ∃ i o, m !! i = Some o ∧ g o = Some f;
  ow_once i j oi oj f : m !! i = Some oi → m !! j = Some oj → g oi = Some f → g oj = Some f → i = j;
}.
Definition sock_inv (s : sockets) : Prop :=
  owned (kn_fds (so_kernel s)) ob_fd (so_objs s) ∧ owned (kn_rings (so_kernel s)) ob_ring (so_objs s) ∧ kn_bad (so_kernel s) = 0%nat.

Section owned.
Context (S : gset nat) (g : sock_obj → option nat) (m : gmap nat sock_obj) (O : owned S g m).

(** A slot that holds nothing. *)
Definition vacant (i : nat) : Prop := ∀ o, m !! i = Some o → g o = None.

Lemma owned_put i o f : vacant i → g o = Some f → f ∉ S → owned ({[f]} ∪ S) g (<[i := o]> m).
Proof.
  intros Hv Ho Hf. destruct O as [Hh H1]. split.
  - intros x. rewrite elem_of_union, elem_of_singleton, Hh. split.
    + intros [->|(j & oj & Hj & Hx)]; [exists i, o; by rewrite lookup_insert_eq|].
      exists j, oj. rewrite lookup_insert_ne; [done|]. intros ->. rewrite (Hv oj Hj) in Hx. done.
    + intros (j & oj & [[-> ->]|[Hn Hj]]%lookup_insert_Some & Hx); [left; congruence|right; eauto].
  - intros a b oa ob x Ha Hb Hxa Hxb. apply lookup_insert_Some in Ha as [[-> ->]|[Hna Ha]], Hb as [[-> ->]|[Hnb Hb]]; [done|..|by eapply H1].
    + exfalso. apply Hf. apply Hh. exists b, ob. split; [done|]. congruence.
    + exfalso. apply Hf. apply Hh. exists a, oa. split; [done|]. congruence.
Qed.
Lemma owned_put_none i o : vacant i → g o = None → owned S g (<[i := o]> m).
Proof.
  intros Hv Ho. destruct O as [Hh H1]. split.
  - intros x. rewrite Hh. split; intros (j & oj & Hj & Hx).
    + exists j, oj. rewrite lookup_insert_ne; [done|]. intros ->. rewrite (Hv oj Hj) in Hx. done.
    + apply lookup_insert_Some in Hj as [[-> ->]|[Hn Hj]]; [congruence|eauto].
  - intros a b oa ob x Ha Hb Hxa Hxb. apply lookup_insert_Some in Ha as [[-> ->]|[Hna Ha]], Hb as [[-> ->]|[Hnb Hb]]; [done|congruence|congruence|by eapply H1].
Qed.
Lemma owned_close i o o' f : m !! i = Some o → g o = Some f → g o' = None → f ∈ S ∧ owned (S ∖ {[f]}) g (<[i := o']> m).
Proof.
  intros Hi Ho Ho'. destruct O as [Hh H1]. split; [apply Hh; eauto|]. split.
  - intros x. rewrite elem_of_difference, elem_of_singleton, Hh. split.
    + intros [(j & oj & Hj & Hx) Hne]. exists j, oj. rewrite lookup_insert_ne; [done|]. intros ->. congruence.
    + intros (j & oj & [[-> ->]|[Hn Hj]]%lookup_insert_Some & Hx); [congruence|]. split; [eauto|].
      intros ->. by destruct (Hn (H1 i j o oj f Hi Hj Ho Hx)).
  - intros a b oa ob x Ha Hb Hxa Hxb. apply lookup_insert_Some in Ha as [[-> ->]|[Hna Ha]], Hb as [[-> ->]|[Hnb Hb]]; [done|congruence|congruence|by eapply H1].
Qed.
Lemma owned_move i j o o1 o2 : m !! i = Some o → vacant j → i ≠ j → g o1 = g o → g o2 = None → owned S g (<[j := o1]> (<[i := o2]> m)).
Proof.
  intros Hi Hv Hij Ho1 Ho2. destruct O as [Hh H1].
  assert (∀ a oa x, <[j := o1]> (<[i := o2]> m) !! a = Some oa → g oa = Some x →
    ∃ b ob, m !! b = Some ob ∧ g ob = Some x ∧ a = (if decide (b = i) then j else b)) as Hback.
  { intros a oa x [[-> ->]|[Hna Ha]]%lookup_insert_Some Hx; [exists i, o; rewrite decide_True by done; split_and!; congruence|].
    apply lookup_insert_Some in Ha as [[-> ->]|[Hnb Ha]]; [congruence|]. exists a, oa. by rewrite decide_False. }
  split.
  - intros x. rewrite Hh. split.
    + intros (a & oa & Ha & Hx). destruct (decide (a = i)) as [->|Hn].
      * exists j, o1. rewrite lookup_insert_eq. split; [done|]. congruence.
      * exists a, oa. rewrite !lookup_insert_ne; [done|done|]. intros ->. rewrite (Hv oa Ha) in Hx. done.
    + intros (a & oa & Ha & Hx). destruct (Hback a oa x Ha Hx) as (b & ob & Hb & Hxb & _). eauto.
  - intros a b oa ob x Ha Hb Hxa Hxb. destruct (Hback a oa x Ha Hxa) as (a' & oa' & Ha' & Hxa' & ->), (Hback b ob x Hb Hxb) as (b' & ob' & Hb' & Hxb' & ->).
    by rewrite (H1 a' b' oa' ob' x Ha' Hb' Hxa' Hxb').
Qed.
Lemma owned_same i o o' : m !! i = Some o → g o' = g o → owned S g (<[i := o']> m).
Proof.
  intros Hi Hg. destruct O as [Hh H1].
  assert (∀ j x, <[i := o']> m !! j = Some x → ∃ y, m !! j = Some y ∧ g x = g y) as Hback
    by (intros j x [[-> ->]|[_ Hj]]%lookup_insert_Some; eauto).
  split.
  - intros f. rewrite Hh. split; intros (j & oj & Hj & Hf).
    + destruct (decide (j = i)) as [->|Hn]; [exists i, o'; rewrite lookup_insert_eq; split; congruence|].
      exists j, oj. by rewrite lookup_insert_ne.
    + destruct (Hback j oj Hj) as (y & Hy & He). exists j, y. split; congruence.
  - intros a b oa ob f Ha Hb Hfa Hfb. destruct (Hback a oa Ha) as (ya & Hya & Hea), (Hback b ob Hb) as (yb & Hyb & Heb).
    apply (H1 a b ya yb f); congruence.
Qed.
Lemma owned_delete i : vacant i → owned S g (delete i m).
Proof.
  intros Hv. destruct O as [Hh H1]. split.
  - intros x. rewrite Hh. split; intros (j & oj & Hj & Hx).
    + exists j, oj. rewrite lookup_delete_ne; [done|]. intros ->. rewrite (Hv oj Hj) in Hx. done.
    + apply lookup_delete_Some in Hj as [_ Hj]. eauto.
  - intros a b oa ob x [_ Ha]%lookup_delete_Some [_ Hb]%lookup_delete_Some. by apply (H1 a b oa ob x).
Qed.
End owned.

(** ** Steps *)

Lemma open_close fd k : fd ∉ kn_fds k → sys_close fd (sys_open fd k) = k.
Proof.
  intros Hf. unfold sys_close, sys_open. cbn. rewrite decide_True by set_solver. destruct k as [fds rings bad]. cbn in *. f_equal.
  apply set_eq. set_solver.
Qed.
Lemma vacant_none g m i : m !! i = None → vacant g m i.
Proof. intros Hi o. by rewrite Hi. Qed.
Lemma vacant_at g m i o : m !! i = Some o → g o = None → vacant g m i.
Proof. intros Hi Hg o'. rewrite Hi. by intros [= <-]. Qed.

Lemma adopt_inv s i fd r : sock_inv s → so_objs s !! i = None → fd ∉ kn_fds (so_kernel s) → r ∉ kn_rings (so_kernel s) →
  sock_inv (put_conn i (adopt fd (Some r) (sys_open fd (so_kernel s))) s).
Proof.
  intros (Hf & Hr & Hb) Hi Hfd Hring. split_and!; cbn; [| |done].
  - apply owned_put; [done|by apply vacant_none|done|done].
  - apply owned_put; [done|by apply vacant_none|done|done].
Qed.
Lemma connect_inv s i e r : sock_inv s → so_objs s !! i = None → fresh (ce_socket e) (ce_ring e) (so_kernel s) → is_Some (ce_ring e) →
  conn_connect e (so_kernel s) = Some r → sock_inv (put_conn i r s).
Proof.
  intros I Hi [Hfd Hr] [rg Hring] H. assert (∀ err, sock_inv (put_conn i (Err err, so_kernel s) s)) as Herr by (by destruct s).
  unfold conn_connect in H. destruct (ce_socket e) as [fd|] eqn:Hs; [|injection H as <-; apply Herr].
  specialize (Hfd fd eq_refl). rewrite Hring in H. specialize (Hr rg Hring).
  destruct (ce_pton e); cbn [negb] in H; [|injection H as <-; rewrite open_close by done; apply Herr].
  destruct (ce_fcntl e); cbn [negb] in H; [|injection H as <-; rewrite open_close by done; apply Herr].
  destruct (ce_connect e).
  - injection H as <-. by apply adopt_inv.
  - destruct (poll_loop _) as [[]|]; cbn in H; [|injection H as <-; rewrite open_close by done; apply Herr|done].
    destruct (ce_so_error e); cbn in H; injection H as <-; [by apply adopt_inv|rewrite open_close by done; apply Herr].
  - injection H as <-. rewrite open_close by done. apply Herr.
Qed.
Lemma close_fd_inv s i o o' : sock_inv s → so_objs s !! i = Some o → ob_fd o' = None → ob_ring o' = ob_ring o →
  sock_inv (Mk_sockets (match ob_fd o with Some fd => sys_close fd (so_kernel s) | None => so_kernel s end) (<[i := o']> (so_objs s))).
Proof.
  intros (Hf & Hr & Hb) Hi Ho' Hring.
  pose proof (owned_same _ _ _ Hr i o o' Hi Hring) as Hr'.
  destruct (ob_fd o) as [fd|] eqn:Hfd.
  - destruct (owned_close _ _ _ Hf i o o' fd Hi Hfd Ho') as [Hin Hc]. unfold sys_close. rewrite decide_True by done. by split_and!.
  - split_and!; [|done|done]. cbn. apply owned_put_none; [done|by eapply vacant_at|done].
Qed.
Lemma close_ring_inv s i c : sock_inv s → so_objs s !! i = Some (ob_conn c) →
  sock_inv (Mk_sockets (match co_ring c with Some r => ring_exit r (so_kernel s) | None => so_kernel s end)
              (<[i := ob_conn (Mk_conn (co_fd c) None (co_rx c))]> (so_objs s))).
Proof.
  intros (Hf & Hr & Hb) Hi.
  pose proof (owned_same _ _ _ Hf i (ob_conn c) (ob_conn (Mk_conn (co_fd c) None (co_rx c))) Hi eq_refl) as Hf'.
  destruct (co_ring c) as [r|] eqn:Hring.
  - destruct (owned_close _ _ _ Hr i (ob_conn c) (ob_conn (Mk_conn (co_fd c) None (co_rx c))) r Hi Hring eq_refl) as [Hin Hc].
    unfold ring_exit. rewrite decide_True by done. by split_and!.
  - split_and!; [done| |done]. cbn. apply owned_put_none; [done|by eapply vacant_at|done].
Qed.
Lemma close_conn_inv s i c : sock_inv s → so_objs s !! i = Some (ob_conn c) →
  sock_inv (Mk_sockets (close_all c (so_kernel s)).2 (<[i := ob_conn (close_all c (so_kernel s)).1]> (so_objs s))).
Proof.
  intros I Hi. pose proof (close_ring_inv s i c I Hi) as I1.
  pose proof (close_fd_inv _ i _ (ob_conn (Mk_conn None None (co_rx c))) I1 (lookup_insert_eq _ _ _) eq_refl eq_refl) as I2.
  cbn in I2. by rewrite insert_insert_eq in I2.
Qed.
Lemma close_listener_inv s i l : sock_inv s → so_objs s !! i = Some (ob_listener l) →
  sock_inv (Mk_sockets (close_listener l (so_kernel s)).2 (<[i := ob_listener (close_listener l (so_kernel s)).1]> (so_objs s))).
Proof. intros I Hi. exact (close_fd_inv s i (ob_listener l) (ob_listener (Mk_listener None (ls_port l))) I Hi eq_refl eq_refl). Qed.
Lemma delete_inv s i o : sock_inv s → so_objs s !! i = Some o → ob_fd o = None → ob_ring o = None → sock_inv (Mk_sockets (so_kernel s) (delete i (so_objs s))).
Proof. intros (Hf & Hr & Hb) Hi Ho1 Ho2. split_and!; cbn; [..|done]; apply owned_delete; try done; by eapply vacant_at. Qed.
Lemma move_inv s i j o oj o1 o2 : sock_inv s → i ≠ j → so_objs s !! i = Some o → (so_objs s !! j = oj) →
  (∀ x, oj = Some x → ob_fd x = None ∧ ob_ring x = None) → ob_fd o1 = ob_fd o → ob_ring o1 = ob_ring o → ob_fd o2 = None → ob_ring o2 = None →
  sock_inv (Mk_sockets (so_kernel s) (<[j := o1]> (<[i := o2]> (so_objs s)))).
Proof.
  intros (Hf & Hr & Hb) Hij Hi Hj Hv ? ? ? ?. split_and!; cbn; [..|done]; (eapply owned_move; [done|exact Hi| |done|done|done]);
    intros x Hx; rewrite Hj in Hx; by destruct (Hv x Hx).
Qed.
Lemma sock_step_inv s s' : sock_step s s' → sock_inv s → sock_inv s'.
Proof.
  intros Hs I. destruct Hs as [s i e r Hi Hfr Hring Hc|s i j l cfd ring Hj Hi Hfr Hring|s i sock bound port l k Hi Hfr Hl|s sock bound port e k Hfr Hl
    |s i j c Hi Hj|s i j src dst src' dst' k Hij Hi Hj Hm|s i j src dst src' dst' k Hij Hi Hj Hm|s i c Hi|s i l Hi].
  - by eapply connect_inv.
  - destruct Hring as [r ->], Hfr as [Hfd Hr]. destruct cfd as [fd|]; cbn; [apply adopt_inv; auto|by destruct s].
  - destruct Hfr as [Hfd _]. unfold bind_listen in Hl. destruct sock as [fd|]; [|done]. destruct bound; [|done]. injection Hl as <- <-.
    destruct I as (Hf & Hr & Hb). split_and!; [|apply owned_put_none; [done|by apply vacant_none|done]|done].
    apply owned_put; [done|by apply vacant_none|done|by apply Hfd].
  - destruct Hfr as [Hfd _]. unfold bind_listen in Hl. destruct sock as [fd|]; [|injection Hl as <- <-; by destruct s].
    destruct bound; [done|]. injection Hl as <- <-. rewrite open_close by (by apply Hfd). by destruct s.
  - eapply (move_inv s i j); [done|congruence|exact Hi|exact Hj|done|done|done|done|done].
  - injection Hm as <- <- <-. pose proof (close_conn_inv s j dst I Hj) as I1.
    eapply (move_inv _ i j _ _ (ob_conn src) (ob_conn (Mk_conn None None []))) in I1;
      [|done|cbn; rewrite lookup_insert_ne by done; exact Hi|cbn; apply lookup_insert_eq|by intros x [= <-]|done|done|done|done].
    cbn in I1. by rewrite (insert_insert_ne _ i j), insert_insert_eq in I1 by done.
  - injection Hm as <- <- <-. pose proof (close_listener_inv s j dst I Hj) as I1.
    eapply (move_inv _ i j _ _ (ob_listener src) (ob_listener (Mk_listener None (ls_port src)))) in I1;
      [|done|cbn; rewrite lookup_insert_ne by done; exact Hi|cbn; apply lookup_insert_eq|by intros x [= <-]|done|done|done|done].
    cbn in I1. by rewrite (insert_insert_ne _ i j), insert_insert_eq in I1 by done.
  - pose proof (close_conn_inv s i c I Hi) as I1. eapply delete_inv in I1; [|apply lookup_insert_eq|done|done]. cbn in I1. by rewrite delete_insert_eq in I1.
  - pose proof (close_listener_inv s i l I Hi) as I1. eapply delete_inv in I1; [|apply lookup_insert_eq|done|done]. cbn in I1. by rewrite delete_insert_eq in I1.
Qed.

(** ** Properties *)

(** C29: As long as rings can be set up, no descriptor or ring leaks and none is closed twice:
    after any sequence of connects (failed ones included), accepts, moves and destructions,
    what is open is what the objects hold, each held by one object, no close ever hit
    something that was not open, and without objects nothing is open. *)
Theorem descriptors_owned s :
  rtc sock_step no_sockets s →
  kn_bad (so_kernel s) = 0%nat ∧
  (∀ fd, fd ∈ kn_fds (so_kernel s) ↔ ∃ i o, so_objs s !! i = Some o ∧ ob_fd o = Some fd) ∧
  (∀ i j oi oj fd, so_objs s !! i = Some oi → so_objs s !! j = Some oj → ob_fd oi = Some fd → ob_fd oj = Some fd → i = j) ∧
  (so_objs s = ∅ → kn_fds (so_kernel s) = ∅ ∧ kn_rings (so_kernel s) = ∅).
Proof.
  intros Hr. assert (sock_inv s) as ([Hf H1] & [Hg _] & Hb).
  { assert (sock_inv no_sockets) as I0.
    { split_and!; [split|split|done]; cbn; [split; [set_solver|intros (i & o & Ho & _); by rewrite lookup_empty in Ho]
        |intros i j oi oj f Hi; by rewrite lookup_empty in Hi|split; [set_solver|intros (i & o & Ho & _); by rewrite lookup_empty in Ho]
        |intros i j oi oj f Hi; by rewrite lookup_empty in Hi]. }
    revert I0. induction Hr as [|x y z Hs Hr IH]; [done|]. intros I. by eapply IH, sock_step_inv. }
  split_and!; [done|done|done|]. intros He.
  split; apply set_eq; intros x; (split; [|set_solver]); intros Hx; [apply Hf in Hx|apply Hg in Hx];
    destruct Hx as (i & o & Ho & _); by rewrite He, lookup_empty in Ho.
Qed.

(** Where a ring cannot be set up, [adopt] closes the descriptor and its local connection's
    destructor closes it again; a descriptor that another thread opened in between, under the
    same number, is closed under its owner. *)
Theorem adopt_double_close fd other k :
  fd ∉ kn_fds k →
  kn_bad (adopt fd None (sys_open fd k)).2 = S (kn_bad k) ∧
  let between := sys_close fd (sys_open fd k) in
  other = fd → other ∈ kn_fds (sys_open other between) ∧
  other ∉ kn_fds (close_all (Mk_conn (Some fd) None []) (sys_open other between)).2.
Proof.
  intros Hf. cbv zeta. rewrite open_close by done. split.
  - unfold adopt. rewrite open_close by done. cbn. unfold sys_close. by rewrite decide_False.
  - intros ->. split; [cbn; set_solver|]. cbn. by rewrite open_close.
Qed.

(** The wait for a handshake is bounded: with a millisecond passing per round, the loop has
    an answer after at most one round more than its timeout has milliseconds, however many
    signals interrupt it. *)
Theorem connect_bounded timeout rounds :
  0 ≤ timeout → (∀ i rem p, rounds !! i = Some (rem, p) → rem ≤ timeout - Z.of_nat i) → timeout < Z.of_nat (length rounds) →
  is_Some (poll_loop rounds).
Proof.
  revert timeout. induction rounds as [|[rem p] rounds IH]; intros timeout Ht Hrem Hlen; [cbn in Hlen; lia|]. cbn [poll_loop].
  destruct (Z.leb_spec rem 0); [eauto|]. destruct p; [eauto..| |eauto].
  pose proof (Hrem 0%nat rem pr_intr eq_refl). apply (IH (timeout - 1)); [lia| |cbn [length] in Hlen; lia].
  intros i rem' p' Hi. specialize (Hrem (S i) rem' p' Hi). lia.
Qed.

(** ** Examples *)

Definition example_connect : connect_env := Mk_connect_env (Some 3%nat) true true cr_in_progress [(20, pr_intr); (15, pr_ready)] true (Some 0%nat).
Definition one_conn : sockets := put_conn 0 (adopt 3 (Some 0%nat) (sys_open 3 (so_kernel no_sockets))) no_sockets.
Lemma one_conn_reached : rtc sock_step no_sockets one_conn.
Proof.
  apply rtc_once, (sk_connect _ 0 example_connect); [done| |eauto|reflexivity]. split; intros x; cbn; intros [= <-]; by_eval.
Qed.
Lemma descriptors_owned_witness :
  ∃ s, rtc sock_step no_sockets s ∧ so_objs s = ∅ ∧ kn_fds (so_kernel s) = ∅ ∧ kn_rings (so_kernel s) = ∅.
Proof.
  set (s := Mk_sockets (close_all (Mk_conn (Some 3%nat) (Some 0%nat) []) (so_kernel one_conn)).2 (delete 0%nat (so_objs one_conn))).
  assert (rtc sock_step no_sockets s) as Hr by (eapply rtc_r; [apply one_conn_reached|by apply sk_destroy]).
  exists s. split; [done|]. split; [done|]. by apply (descriptors_owned s Hr).
Defined.
Lemma adopt_double_close_witness : kn_bad (adopt 3 None (sys_open 3 (Mk_kernel ∅ ∅ 0))).2 = 1%nat.
Proof. apply (adopt_double_close 3 3 (Mk_kernel ∅ ∅ 0)). by_eval. Defined.
Lemma connect_bounded_witness : is_Some (poll_loop [(1, pr_intr); (0, pr_intr)]).
Proof.
  apply (connect_bounded 1); [lia| |cbn; lia]. intros i rem p Hi. destruct i as [|[|i]]; cbn in Hi; simplify_eq; cbn; lia.
Defined.
