(* ===== verification/Gate.v ===== *)
(** * The resolution gate

    [resolution_gate] of [src/dlsn_tracker.hpp], the lock-free event that stalled reads wait
    on, with the loop of [dlsn_tracker::plan_read] that waits and the [signal] at the end of
    [dlsn_tracker::resolve].  Readers and resolvers are threads of single shared-memory steps
    in any interleaving; the sequentially consistent fences of [enter] and [signal] order the
    counter against the published state, and the steps are taken in one order for all
    threads accordingly.  What is published, and which state stalls which read, is a
    parameter.  No wakeup is lost. *)

From S2P Require Import Prelude.

Local Open Scope craft_scope.

(** ** Threads *)

(** [plan_read] by the step it takes next; [ev] is the event it captured.  [rd_leave]: it goes
    round the loop afterwards; [rd_out]: it has its plan. *)
Inductive reader :=
| rd_start | rd_arm | rd_enter (ev : nat) | rd_compute (ev : nat) | rd_await (ev : nat) | rd_parked (ev : nat)
| rd_leave | rd_out | rd_done.
(** [resolve] from where its outcome is published, then [signal]. *)
Inductive resolver := rs_check | rs_exchange | rs_complete (ev : nat).

#[export] Instance reader_eq_dec : EqDecision reader.
Proof. solve_decision. Defined.
#[export] Instance resolver_eq_dec : EqDecision resolver.
Proof. solve_decision. Defined.

Section gate.
(** The published state, and whether it stalls the read of a reader. *)
Context {P : Type} (stall : nat → P → bool).

(** [gt_cur]: events are numbered in the order they become current; [gt_set]: the completed
    ones; [gt_resolvers]: the resolvers between their publication and the end of [signal]. *)
Record gate := Mk_gate {
  gt_waiters : nat;
  gt_cur : nat;
  gt_set : gset nat;
  gt_state : P;
  gt_readers : gmap nat reader;
  gt_resolvers : gmap nat resolver;
}.
Definition set_reader (i : nat) (r : reader) (g : gate) : gate :=
  Mk_gate (gt_waiters g) (gt_cur g) (gt_set g) (gt_state g) (<[i := r]> (gt_readers g)) (gt_resolvers g).
Definition add_waiters (f : nat → nat) (g : gate) : gate :=
  Mk_gate (f (gt_waiters g)) (gt_cur g) (gt_set g) (gt_state g) (gt_readers g) (gt_resolvers g).
Definition set_resolvers (f : gmap nat resolver → gmap nat resolver) (g : gate) : gate :=
  Mk_gate (gt_waiters g) (gt_cur g) (gt_set g) (gt_state g) (gt_readers g) (f (gt_resolvers g)).

(** One step of a reader; [None] while it is parked, and once it is done. *)
Definition reader_step (i : nat) (r : reader) (g : gate) : option gate :=
  match r with
  | rd_start => Some (set_reader i (if stall i (gt_state g) then rd_arm else rd_done) g)
  | rd_arm => Some (set_reader i (rd_enter (gt_cur g)) g)
  | rd_enter ev => Some (set_reader i (rd_compute ev) (add_waiters S g))
  | rd_compute ev => Some (set_reader i (if stall i (gt_state g) then rd_await ev else rd_out) g)
  | rd_await ev => Some (set_reader i (if decide (ev ∈ gt_set g) then rd_leave else rd_parked ev) g)
  | rd_parked ev => if decide (ev ∈ gt_set g) then Some (set_reader i rd_leave g) else None
  | rd_leave => Some (set_reader i rd_arm (add_waiters pred g))
  | rd_out => Some (set_reader i rd_done (add_waiters pred g))
  | rd_done => None
  end.
(** One step of a resolver: [signal] returns at once when nobody waits. *)
Definition resolver_step (j : nat) (s : resolver) (g : gate) : gate :=
  match s with
  | rs_check => set_resolvers (if decide (gt_waiters g = 0) then delete j else <[j := rs_exchange]>) g
  | rs_exchange =>
      Mk_gate (gt_waiters g) (S (gt_cur g)) (gt_set g) (gt_state g) (gt_readers g) (<[j := rs_complete (gt_cur g)]> (gt_resolvers g))
  | rs_complete ev =>
      Mk_gate (gt_waiters g) (gt_cur g) ({[ev]} ∪ gt_set g) (gt_state g) (gt_readers g) (delete j (gt_resolvers g))
  end.

Inductive gate_step : gate → gate → Prop :=
| gs_read g i : gt_readers g !! i = None → gate_step g (set_reader i rd_start g)
| gs_reader g i r g' : gt_readers g !! i = Some r → reader_step i r g = Some g' → gate_step g g'
| gs_publish g j p : gt_resolvers g !! j = None →
    gate_step g (Mk_gate (gt_waiters g) (gt_cur g) (gt_set g) p (gt_readers g) (<[j := rs_check]> (gt_resolvers g)))
| gs_resolver g j s : gt_resolvers g !! j = Some s → gate_step g (resolver_step j s g).
Definition new_gate (p : P) : gate := Mk_gate 0 0 ∅ p ∅ ∅.

(** ** Invariant *)

Definition counted (r : reader) : bool :=
  match r with rd_compute _ | rd_await _ | rd_parked _ | rd_leave | rd_out => true | _ => false end.
Definition holds (r : reader) : option nat :=
  match r with rd_enter ev | rd_compute ev | rd_await ev | rd_parked ev => Some ev | _ => None end.
Definition waits (r : reader) : option nat := match r with rd_await ev | rd_parked ev => Some ev | _ => None end.
(** A resolver that will complete the event, or is about to find out that it must. *)
Definition coming (g : gate) (ev : nat) : Prop :=
  ∃ j s, gt_resolvers g !! j = Some s ∧ (s = rs_complete ev ∨ (ev = gt_cur g ∧ (s = rs_check ∨ s = rs_exchange))).

Record gate_inv (g : gate) : Prop := {
  gi_count : gt_waiters g = size (filter (λ r, counted r.2 = true) (gt_readers g));
  gi_old i r ev : gt_readers g !! i = Some r → holds r = Some ev → ev ≤ gt_cur g;
  gi_set ev : ev < gt_cur g → ev ∈ gt_set g ∨ ∃ j, gt_resolvers g !! j = Some (rs_complete ev);
  gi_wake i r ev : gt_readers g !! i = Some r → waits r = Some ev → ev ∉ gt_set g →
    stall i (gt_state g) = false → coming g ev;
}.

(** How many readers are counted after one of them moved. *)
Definition census (m : gmap nat reader) : nat := size (filter (λ r, counted r.2 = true) m).
Lemma census_insert m i r r' : m !! i = Some r → census (<[i := r']> m) + Nat.b2n (counted r) = census m + Nat.b2n (counted r').
Proof.
  intros Hi. unfold census. rewrite <-(insert_delete_id m i r Hi) at 2. rewrite <-insert_delete_eq.
  rewrite !map_filter_insert. pose proof (lookup_delete_eq m i) as Hd.
  assert (filter (λ r0, counted r0.2 = true) (delete i m) !! i = None) as Hf by (by apply map_lookup_filter_None_2; left).
  destruct (counted r) eqn:Hr, (counted r') eqn:Hr'; cbn [snd]; repeat case_decide; try congruence;
    rewrite ?delete_delete_eq, ?map_size_insert_None by done; cbn; lia.
Qed.
Lemma census_new m i r : m !! i = None → counted r = false → census (<[i := r]> m) = census m.
Proof. intros Hi Hr. unfold census. by rewrite map_filter_insert_False, delete_id by (cbn; congruence). Qed.
Lemma counted_pos g i r : gate_inv g → gt_readers g !! i = Some r → counted r = true → 0 < gt_waiters g.
Proof.
  intros I Hi Hr. rewrite (gi_count _ I). apply Nat.neq_0_lt_0. intros Hz%map_size_empty_iff.
  assert (filter (λ r, counted r.2 = true) (gt_readers g) !! i = Some r) as Hf by (by apply map_lookup_filter_Some_2).
  by rewrite Hz, lookup_empty in Hf.
Qed.

(** Moving one reader: the count, its event, and why it may wait. *)
Lemma reader_moved g g' i r r' :
  gate_inv g → gt_readers g !! i = Some r → gt_readers g' = <[i := r']> (gt_readers g) →
  gt_cur g' = gt_cur g → gt_set g' = gt_set g → gt_state g' = gt_state g → gt_resolvers g' = gt_resolvers g →
  gt_waiters g' + Nat.b2n (counted r) = gt_waiters g + Nat.b2n (counted r') →
  (∀ ev, holds r' = Some ev → ev ≤ gt_cur g) →
  (∀ ev, waits r' = Some ev → ev ∉ gt_set g → stall i (gt_state g) = false → coming g ev) → gate_inv g'.
Proof.
  intros [Hc Ho Hs Hw] Hi Hr Hcur Hset Hst Hres Hcount Hhold Hwait. split; rewrite ?Hr, ?Hcur, ?Hset, ?Hst, ?Hres.
  - pose proof (census_insert (gt_readers g) i r r' Hi) as Hn. unfold census in Hn. lia.
  - intros i' r0 ev [[-> ->]|[_ H]]%lookup_insert_Some; [apply Hhold|by apply (Ho i')].
  - done.
  - assert (∀ ev, coming g ev → coming g' ev) as Hcm by (intros ev (j & s & Hj & Hd); exists j, s; by rewrite Hres, Hcur).
    intros i' r0 ev [[-> ->]|[_ H]]%lookup_insert_Some Hv Hns Hstall; apply Hcm; [by apply Hwait|by eapply Hw].
Qed.
Lemma reader_step_inv g i r g' : gate_inv g → gt_readers g !! i = Some r → reader_step i r g = Some g' → gate_inv g'.
Proof.
  intros I Hi H. destruct r; cbn in H.
  - injection H as <-. apply (reader_moved g _ i _ (if stall i (gt_state g) then rd_arm else rd_done) I Hi); try done; by destruct (stall _ _).
  - injection H as <-. apply (reader_moved g _ i _ (rd_enter (gt_cur g)) I Hi); try done. by intros ev [= <-].
  - injection H as <-. apply (reader_moved g _ i _ (rd_compute ev) I Hi); try done; [cbn; lia|].
    intros x [= <-]. by eapply (gi_old _ I).
  - injection H as <-. destruct (stall i (gt_state g)) eqn:Hst.
    + apply (reader_moved g _ i _ (rd_await ev) I Hi); try done; [intros x [= <-]; by eapply (gi_old _ I)|congruence].
    + by apply (reader_moved g _ i _ rd_out I Hi).
  - injection H as <-. case_decide as Hd.
    + by apply (reader_moved g _ i _ rd_leave I Hi).
    + apply (reader_moved g _ i _ (rd_parked ev) I Hi); try done; intros x [= <-]; [by eapply (gi_old _ I)|by eapply (gi_wake _ I)].
  - case_decide; [|done]. injection H as <-. by apply (reader_moved g _ i _ rd_leave I Hi).
  - injection H as <-. assert (0 < gt_waiters g) as Hpos by by eapply counted_pos.
    apply (reader_moved g _ i _ rd_arm I Hi); try done. cbn. lia.
  - injection H as <-. assert (0 < gt_waiters g) as Hpos by by eapply counted_pos.
    apply (reader_moved g _ i _ rd_done I Hi); try done. cbn. lia.
  - done.
Qed.
Lemma resolver_step_inv g j s : gate_inv g → gt_resolvers g !! j = Some s → gate_inv (resolver_step j s g).
Proof.
  intros I Hj. pose proof I as [Hc Ho Hs Hw]. destruct s as [| |e]; cbn.
  - case_decide as Hz; (split; [done|done| |]); cbn.
    + intros ev Hev. destruct (Hs ev Hev) as [?|[k Hk]]; [by left|right]. exists k. rewrite lookup_delete_ne; [done|congruence].
    + intros i r ev Hi Hv. assert (counted r = true) as Hcr by (by destruct r). pose proof (counted_pos g i r I Hi Hcr). lia.
    + intros ev Hev. destruct (Hs ev Hev) as [?|[k Hk]]; [by left|right]. exists k. rewrite lookup_insert_ne; [done|congruence].
    + intros i r ev Hi Hv Hn Hst. destruct (Hw i r ev Hi Hv Hn Hst) as (k & s & Hk & Hd). destruct (decide (k = j)) as [->|Hkj].
      * exists j, rs_exchange. cbn. rewrite lookup_insert_eq. split; [done|]. right. split; [|by right]. destruct Hd as [->|[? _]]; [congruence|done].
      * exists k, s. cbn. by rewrite lookup_insert_ne.
  - split; cbn; [done|by intros i r ev Hi Hh; pose proof (Ho i r ev Hi Hh); lia| |].
    + intros ev Hev. destruct (decide (ev = gt_cur g)) as [->|Hn]; [right; exists j; by rewrite lookup_insert_eq|].
      destruct (Hs ev ltac:(lia)) as [?|[k Hk]]; [by left|right]. exists k. rewrite lookup_insert_ne; [done|congruence].
    + intros i r ev Hi Hv Hn Hst. unfold coming. cbn. assert (holds r = Some ev) as Hh by (by destruct r).
      destruct (decide (ev = gt_cur g)) as [->|Hne]; [exists j, (rs_complete (gt_cur g)); rewrite lookup_insert_eq; auto|].
      pose proof (Ho i r ev Hi Hh). destruct (Hs ev ltac:(lia)) as [?|[k Hk]]; [done|].
      exists k, (rs_complete ev). rewrite lookup_insert_ne by congruence. auto.
  - split; cbn; [done|done| |].
    + intros ev Hev. destruct (Hs ev Hev) as [?|[k Hk]]; [left; set_solver|]. destruct (decide (ev = e)) as [->|Hn]; [left; set_solver|].
      right. exists k. rewrite lookup_delete_ne; [done|congruence].
    + intros i r ev Hi Hv Hn Hst. destruct (Hw i r ev Hi Hv ltac:(set_solver) Hst) as (k & s & Hk & Hd).
      exists k, s. cbn. rewrite lookup_delete_ne; [done|]. intros <-. rewrite Hj in Hk. injection Hk as <-. destruct Hd as [[= ->]|[_ [?|?]]]; set_solver.
Qed.
Lemma gate_step_inv g g' : gate_step g g' → gate_inv g → gate_inv g'.
Proof.
  intros [g0 i Hi|g0 i r g1 Hi Hr|g0 j p Hj|g0 j s Hj] I; [| by eapply reader_step_inv | |by apply resolver_step_inv].
  - destruct I as [Hc Ho Hs Hw]. split; cbn; [|..|].
    + rewrite Hc. symmetry. by apply census_new.
    + intros i' r ev [[-> <-]|[_ H]]%lookup_insert_Some; [done|by apply (Ho i')].
    + done.
    + intros i' r ev [[-> <-]|[_ H]]%lookup_insert_Some; [done|by apply (Hw i')].
  - destruct I as [Hc Ho Hs Hw]. split; cbn; [done|done| |].
    + intros ev Hev. destruct (Hs ev Hev) as [?|[k Hk]]; [by left|right]. exists k. rewrite lookup_insert_ne; [done|congruence].
    + intros i r ev Hi Hv Hn _. unfold coming. cbn. assert (holds r = Some ev) as Hh by (by destruct r).
      destruct (decide (ev = gt_cur g0)) as [->|Hne]; [exists j, rs_check; rewrite lookup_insert_eq; auto|].
      pose proof (Ho i r ev Hi Hh). destruct (Hs ev ltac:(lia)) as [?|[k Hk]]; [done|].
      exists k, (rs_complete ev). rewrite lookup_insert_ne by congruence. auto.
Qed.
Lemma gate_reach_inv p g : rtc gate_step (new_gate p) g → gate_inv g.
Proof.
  intros Hr. assert (gate_inv (new_gate p)) as I0.
  { split; cbn; [done|intros i r ev Hi; by rewrite lookup_empty in Hi|lia|intros i r ev Hi; by rewrite lookup_empty in Hi]. }
  revert I0. induction Hr as [|x y z Hs Hr IH]; [done|]. intros I. by eapply IH, gate_step_inv.
Qed.

(** A resolver on its way to the event completes it, and touches no reader. *)
Lemma coming_completes g i r ev : gate_inv g → gt_readers g !! i = Some r → counted r = true → coming g ev →
  ∃ g', rtc gate_step g g' ∧ ev ∈ gt_set g' ∧ gt_readers g' = gt_readers g.
Proof.
  intros I Hi Hcr (j & s & Hj & Hd).
  assert (∀ g0, gt_resolvers g0 !! j = Some (rs_complete ev) → ∃ g', rtc gate_step g0 g' ∧ ev ∈ gt_set g' ∧ gt_readers g' = gt_readers g0) as Hcomplete.
  { intros g0 H0. eexists. split; [by apply rtc_once, (gs_resolver _ j)|]. split; [cbn; set_solver|done]. }
  assert (∀ g0, gt_resolvers g0 !! j = Some rs_exchange → ev = gt_cur g0 → ∃ g', rtc gate_step g0 g' ∧ ev ∈ gt_set g' ∧ gt_readers g' = gt_readers g0) as Hexchange.
  { intros g0 H0 ->. destruct (Hcomplete (resolver_step j rs_exchange g0)) as (g' & Hg & Hset & Hrd); [cbn; by rewrite lookup_insert_eq|].
    exists g'. split; [|by split]. eapply rtc_l; [|exact Hg]. by apply gs_resolver. }
  destruct Hd as [->|[He [->| ->]]]; [by apply Hcomplete| |by apply Hexchange].
  pose proof (counted_pos g i r I Hi Hcr). destruct (Hexchange (resolver_step j rs_check g)) as (g' & Hg & Hset & Hrd);
    [cbn; rewrite decide_False by lia; by rewrite lookup_insert_eq|done|].
  exists g'. split; [|by split]. eapply rtc_l; [|exact Hg]. by apply gs_resolver.
Qed.

(** C27: No wakeup is lost: a parked read whose reason to wait is gone is woken by a resolver that
    is still on its way, in a few steps of that resolver alone; so where no resolver is on
    its way, every parked read still has to wait. *)
Theorem gate_wakes p g i ev :
  rtc gate_step (new_gate p) g → gt_readers g !! i = Some (rd_parked ev) → stall i (gt_state g) = false →
  (∃ g', rtc gate_step g g' ∧ gt_readers g' !! i = Some rd_leave) ∧ (gt_resolvers g = ∅ → ev ∈ gt_set g).
Proof.
  intros Hr%gate_reach_inv Hi Hst.
  assert (∀ g0, gt_readers g0 !! i = Some (rd_parked ev) → ev ∈ gt_set g0 → gate_step g0 (set_reader i rd_leave g0)) as Hresume.
  { intros g0 H0 Hs. apply (gs_reader g0 i (rd_parked ev)); [done|]. cbn. by rewrite decide_True. }
  destruct (decide (ev ∈ gt_set g)) as [Hs|Hs].
  - split; [|done]. eexists. split; [by apply rtc_once, Hresume|]. cbn. apply lookup_insert_eq.
  - pose proof (gi_wake _ Hr i _ ev Hi eq_refl Hs Hst) as Hcm. split.
    + destruct (coming_completes g i _ ev Hr Hi eq_refl Hcm) as (g' & Hg & Hset & Hrd).
      exists (set_reader i rd_leave g'). split; [|cbn; apply lookup_insert_eq]. eapply rtc_r; [exact Hg|]. apply Hresume; [congruence|done].
    + intros He. destruct Hcm as (j & s & Hj & _). by rewrite He, lookup_empty in Hj.
Qed.
End gate.

(** A read that waits for a slot, and its resolution arriving. *)
Definition slot_stall (i : nat) (resolved : bool) : bool := negb resolved.
Definition run_reader (i : nat) (g : gate (P := bool)) : gate :=
  default g (r ← gt_readers g !! i; reader_step slot_stall i r g).
Definition parked_gate : gate (P := bool) :=
  run_reader 0 (run_reader 0 (run_reader 0 (run_reader 0 (run_reader 0 (set_reader 0 rd_start (new_gate false)))))).
Definition woken_gate : gate (P := bool) :=
  Mk_gate (gt_waiters parked_gate) (gt_cur parked_gate) (gt_set parked_gate) true (gt_readers parked_gate) {[ 0 := rs_check ]}.
Lemma run_reader_step i g : is_Some (r ← gt_readers g !! i; reader_step slot_stall i r g) → gate_step slot_stall g (run_reader i g).
Proof.
  unfold run_reader. destruct (gt_readers g !! i) as [r|] eqn:Hr; [|by intros []]. cbn. intros [g' Hg]. rewrite Hg. cbn.
  by apply (gs_reader _ g i r).
Qed.
Lemma gate_wakes_witness : ∃ g', rtc (gate_step slot_stall) woken_gate g' ∧ gt_readers g' !! 0 = Some rd_leave.
Proof.
  apply (gate_wakes slot_stall false woken_gate 0 0); [|reflexivity|reflexivity].
  eapply rtc_r; [|apply (gs_publish slot_stall parked_gate 0 true); reflexivity].
  unfold parked_gate. do 5 (eapply rtc_r; [|apply run_reader_step; vm_compute; eauto]). by apply rtc_once, gs_read.
Defined.
