(* ===== verification/RefServer.v ===== *)
(** * The reference server program

    [tools/craft_reference_tcp_srv.cpp]: what its options give, the exits before it serves,
    the server it constructs, and the accept loop with its stop flag as a machine whose
    events are the program's own steps, the signals, and what [accept] returns. *)

From S2P Require Import Prelude Codec WireTypes Wire Types Replica Raft Conn TcpServer Sockets RaftState RaftService.
From stdpp Require Import strings pretty.

Local Open Scope craft_scope.
Local Open Scope Z_scope.

(** ** Options *)

(** The options after they are loaded: [None] where there is no value and no default. *)
Record srv_options := Mk_srv_options {
  op_port : Z;
  op_server_uuid : option string;
  op_server_config_file : option string;
  op_capacity : Z;
  op_lba_size : Z;
  op_max_tx : Z;
  op_log_mods : option string;
}.

(** [std::string::contains]. *)
Fixpoint contains (sub s : string) : bool :=
  String.prefix sub s || match s with EmptyString => false | String _ s => contains sub s end.

(** The modules set to the info level: those that [--log_mods] does not name. *)
Definition quiet_modules (log_mods : option string) : list string :=
  let s := default ""%string log_mods in
  filter (λ m, contains m s = false) ["nuraft_mesg"; "grpc_server"]%string.

(** ** Start-up *)

(** The constructor of [craft_tcp_server]: with a configuration file it starts the replica
    registry and the raft service first.  [files] is what reading a file gives. *)
Definition tcp_server_ctor (files : string → option (list replica_info)) (geo : server_geometry) (config : string)
    (reg : replica_manager) (rs : raft_service) : craft_tcp_server * raft_service :=
  if bool_decide (config = ""%string) then (mk_server geo reg, rs)
  else
    let reg := start_replica_service (files config) reg in
    (mk_server geo reg, start_raft_service (wm_id (sg_member geo)) reg rs).

Record srv_boot := Mk_boot {
  bt_logger : string;
  bt_quiet : list string;
  bt_listener : craft_listener;
  bt_server : craft_tcp_server;
  bt_service : raft_service;
}.
(** [main] up to its loop: a return code, an exception nothing catches, or the server. *)
Inductive srv_start := ss_return (code : Z) | ss_uncaught | ss_serving (b : srv_boot).

Section start.
Context (uuid_of : string → option (list Z)) (random_id : list Z) (files : string → option (list replica_info)).

Definition option_id (o : srv_options) : option (list Z) :=
  match op_server_uuid o with None => Some random_id | Some s => uuid_of s end.
Definition srv_geometry (o : srv_options) (id : list Z) : server_geometry :=
  Mk_geometry (if op_capacity o =? 0 then 2 ^ 30 else op_capacity o) (op_lba_size o)
    (if op_max_tx o =? 0 then k_default_max_tx else op_max_tx o)
    (Mk_member id (host_port (string_bytes "127.0.0.1") (op_port o))).

(** [sock] and [bound]: the listening socket and whether binding it succeeds. *)
Definition reference_main (sock : option nat) (bound : bool) (reg : replica_manager) (rs : raft_service) (k : kernel)
    (o : srv_options) : srv_start * kernel :=
  match option_id o with
  | None => (ss_return 2, k)
  | Some id =>
      match op_server_uuid o with
      | None => (ss_uncaught, k)
      | Some uuid =>
          if op_port o =? 0 then (ss_return 2, k)
          else match bind_listen sock bound (op_port o) k with
               | (Err _, k) => (ss_return 1, k)
               | (Ok l, k) =>
                   let '(s, rs) := tcp_server_ctor files (srv_geometry o id) (default ""%string (op_server_config_file o)) reg rs in
                   (ss_serving (Mk_boot ("craft_tcp_srv_" +:+ uuid) (quiet_modules (op_log_mods o)) l s rs), k)
               end
      end
  end.
End start.

(** ** The accept loop *)

(** Where the main thread is: about to test [g_stop]; past the test and not yet in the
    system call; blocked in [accept]; about to test [g_stop] again after an error; back
    from [main]. *)
Inductive srv_pc := pc_test | pc_enter | pc_blocked | pc_retest | pc_returned.
#[global] Instance srv_pc_eq_dec : EqDecision srv_pc.
Proof. solve_decision. Defined.

Record worker := Mk_worker { wk_fd : nat; wk_serving : bool; wk_detached : bool }.
Record srv_loop := Mk_loop {
  lp_pc : srv_pc;
  lp_stop : bool;
  lp_workers : list worker;
  lp_stats : nat;      (* calls of [log_stats] *)
  lp_server : bool;    (* the shared server object is alive *)
}.
Definition srv_loop0 : srv_loop := Mk_loop pc_test false [] 0 true.

Inductive srv_event :=
| sv_own                 (* the main thread's next step *)
| sv_signal              (* SIGINT or SIGTERM, handled *)
| sv_accepted (fd : nat)
| sv_accept_failed
| sv_disconnect (i : nat).

(** After the loop: detach the workers, log the statistics, return; the server is
    destroyed with [main]'s frame. *)
Definition leave (s : srv_loop) : srv_loop :=
  Mk_loop pc_returned (lp_stop s) ((λ w, Mk_worker (wk_fd w) (wk_serving w) true) <$> lp_workers s) (S (lp_stats s)) false.
Definition at_pc (s : srv_loop) (pc : srv_pc) : srv_loop :=
  Mk_loop pc (lp_stop s) (lp_workers s) (lp_stats s) (lp_server s).

Definition loop_exec (s : srv_loop) (e : srv_event) : option srv_loop :=
  match e with
  | sv_own =>
      match lp_pc s with
      | pc_test => Some (if lp_stop s then leave s else at_pc s pc_enter)
      | pc_enter => Some (at_pc s pc_blocked)
      | pc_retest => Some (if lp_stop s then leave s else at_pc s pc_test)
      | pc_blocked | pc_returned => None
      end
  | sv_signal =>
      let pc := match lp_pc s with pc_blocked => pc_retest | pc => pc end in
      if decide (lp_pc s = pc_returned) then None
      else Some (Mk_loop pc true (lp_workers s) (lp_stats s) (lp_server s))
  | sv_accepted fd =>
      if decide (lp_pc s = pc_blocked)
      then Some (Mk_loop pc_test (lp_stop s) (lp_workers s ++ [Mk_worker fd true false]) (lp_stats s) (lp_server s))
      else None
  | sv_accept_failed => if decide (lp_pc s = pc_blocked) then Some (at_pc s pc_retest) else None
  | sv_disconnect i =>
      w ← lp_workers s !! i;
      if wk_serving w
      then Some (Mk_loop (lp_pc s) (lp_stop s) (<[i := Mk_worker (wk_fd w) false (wk_detached w)]> (lp_workers s))
                   (lp_stats s) (lp_server s))
      else None
  end.
Fixpoint loop_run (s : srv_loop) (es : list srv_event) : option srv_loop :=
  match es with [] => Some s | e :: es => s ← loop_exec s e; loop_run s es end.

Definition accepted_fds (es : list srv_event) : list nat :=
  omap (λ e, match e with sv_accepted fd => Some fd | _ => None end) es.
Definition is_own (e : srv_event) : bool := match e with sv_own => true | _ => false end.

(** ** What starting does *)

Lemma or_default z d : d ≠ 0 → (if z =? 0 then d else z) ≠ 0.
Proof. by destruct (Z.eqb_spec z 0). Qed.

(** Every way the program starts.  It returns 2 for a malformed uuid or a missing port and 1
    when the port cannot be bound, each time with no descriptor left open; without a uuid an
    exception ends it; and otherwise it serves, under the uuid and the port it was given,
    with a capacity and a transfer limit that are not 0. *)
Theorem reference_start_cases uuid_of random_id files sock bound reg rs k o :
  kn_fds k ## from_option (λ fd, {[fd]}) ∅ sock →
  match reference_main uuid_of random_id files sock bound reg rs k o with
  | (ss_return c, k') => kn_fds k' = kn_fds k ∧
      (c = 2 ∧ (op_server_uuid o ≫= uuid_of = None ∨ op_port o = 0) ∨ c = 1 ∧ (sock = None ∨ bound = false))
  | (ss_uncaught, k') => k' = k ∧ op_server_uuid o = None
  | (ss_serving b, k') => ∃ uuid id fd, op_server_uuid o = Some uuid ∧ uuid_of uuid = Some id ∧ op_port o ≠ 0 ∧
      sock = Some fd ∧ bt_listener b = Mk_listener (Some fd) (op_port o) ∧ kn_fds k' = {[fd]} ∪ kn_fds k ∧
      let geo := sv_geo (bt_server b) in
      wm_id (sg_member geo) = id ∧ sg_capacity geo ≠ 0 ∧ sg_max_tx geo ≠ 0 ∧ sg_lba_size geo = op_lba_size o ∧
      sv_session_active (bt_server b) = false
  end.
Proof.
  intros Hk. unfold reference_main, option_id. destruct (op_server_uuid o) as [uuid|] eqn:Hu; simpl; [|done].
  destruct (uuid_of uuid) as [id|] eqn:Hid; [|by eauto]. destruct (Z.eqb_spec (op_port o) 0) as [Hp|Hp]; [by eauto|].
  unfold bind_listen. destruct sock as [fd|]; [|by eauto 6]. destruct bound; simpl.
  - unfold tcp_server_ctor. case_bool_decide; exists uuid, id, fd; simpl; split_and!; try done; by apply or_default.
  - simpl in Hk. unfold sys_close. rewrite decide_True by (simpl; set_solver). simpl. split; [set_solver|by eauto].
Qed.

(** ** What stopping does *)

(** What holds along a run with events [es]. *)
Record loop_inv (es : list srv_event) (s : srv_loop) : Prop := {
  li_workers : wk_fd <$> lp_workers s = accepted_fds es;
  li_stats : lp_stats s = if decide (lp_pc s = pc_returned) then 1%nat else 0%nat;
  li_server : lp_server s = bool_decide (lp_pc s ≠ pc_returned);
  li_stop : lp_pc s = pc_returned → lp_stop s = true;
}.

Lemma accepted_snoc es e :
  accepted_fds (es ++ [e]) = accepted_fds es ++ match e with sv_accepted fd => [fd] | _ => [] end.
Proof. unfold accepted_fds. rewrite omap_app. by destruct e. Qed.

Lemma loop_exec_inv es s e s' : loop_inv es s → loop_exec s e = Some s' → loop_inv (es ++ [e]) s'.
Proof.
  intros [Hw Hst Hse Hp] He. destruct s as [pc stop ws st se]; simpl in *. 
  assert (∀ ws', wk_fd <$> ws' = (wk_fd <$> ws) ++ match e with sv_accepted fd => [fd] | _ => [] end →
            wk_fd <$> ws' = accepted_fds (es ++ [e])) as Ha by (intros ws' ->; by rewrite accepted_snoc, Hw).
  destruct e; cbn in He; rewrite ?app_nil_r in Ha.
  - destruct pc; simpl in *; try done; subst; [destruct stop| |destruct stop]; injection He as <-; split; simpl; try done;
      apply Ha; try done; by rewrite <-list_fmap_compose.
  - case_decide; [done|]. injection He as <-. subst. destruct pc; split; simpl; try done; by apply Ha.
  - case_decide; [|done]. injection He as <-. subst. split; simpl in *; try done. apply Ha. by rewrite fmap_app.
  - case_decide; [|done]. injection He as <-. subst. split; simpl; try done. by apply Ha.
  - destruct (ws !! i) as [w|] eqn:Hi; simpl in He; [|done]. destruct (wk_serving w); [|done]. injection He as <-.
    split; simpl; try done. apply Ha. rewrite list_fmap_insert. simpl. apply list_insert_id. by rewrite list_lookup_fmap, Hi.
Qed.

Lemma loop_run_inv es0 s es s' : loop_inv es0 s → loop_run s es = Some s' → loop_inv (es0 ++ es) s'.
Proof.
  revert es0 s. induction es as [|e es IH]; intros es0 s I; simpl; [intros [= <-]; by rewrite app_nil_r|].
  destruct (loop_exec s e) as [s1|] eqn:He; simpl; [|done]. intros Hr.
  rewrite cons_middle, app_assoc. eapply IH; [by eapply loop_exec_inv|done].
Qed.

(** Once the flag is set, [accept] returns at most once more. *)
Lemma stopped_accepts s es s' :
  lp_stop s = true → loop_run s es = Some s' →
  (length (accepted_fds es) ≤ match lp_pc s with pc_enter | pc_blocked => 1 | _ => 0 end)%nat.
Proof.
  revert s. induction es as [|e es IH]; intros s Hs Hr; [simpl; lia|]. simpl in Hr.
  destruct (loop_exec s e) as [s1|] eqn:He; simpl in Hr; [|done]. destruct s as [pc stop ws st se]. simpl in Hs. subst.
  assert (accepted_fds (e :: es) = match e with sv_accepted fd => [fd] | _ => [] end ++ accepted_fds es) as -> by by destruct e.
  rewrite length_app. destruct e; cbn in He; cbn [length plus lp_pc].
  - destruct pc; try done; injection He as <-; by apply IH in Hr.
  - case_decide; [done|]. injection He as <-. apply IH in Hr; [|done]. destruct pc; simpl in *; try done; lia.
  - case_decide; [|done]. injection He as <-. subst. apply IH in Hr; [|done]. simpl in Hr. lia.
  - case_decide; [|done]. injection He as <-. subst. apply IH in Hr; [|done]. simpl in Hr. lia.
  - destruct (ws !! i) as [w|]; simpl in He; [|done]. destruct (wk_serving w); [|done]. injection He as <-. by apply IH in Hr.
Qed.

(** A signal stops the server.  Whatever connections came and went before it, and unless it
    falls between the test of the flag and the call of [accept], the main thread's next step
    returns from the loop: one worker was started for each connection, in order, all of them
    are detached, and the statistics are logged once.  And wherever it falls, at most one more
    connection is accepted. *)
Theorem signal_stops es s s1 :
  loop_run srv_loop0 es = Some s → loop_exec s sv_signal = Some s1 →
  (lp_pc s ≠ pc_enter → ∃ s2, loop_exec s1 sv_own = Some s2 ∧ lp_pc s2 = pc_returned ∧
     wk_fd <$> lp_workers s2 = accepted_fds es ∧ Forall (λ w, wk_detached w = true) (lp_workers s2) ∧ lp_stats s2 = 1%nat) ∧
  ∀ es' s', loop_run s1 es' = Some s' → (length (accepted_fds es') ≤ 1)%nat.
Proof.
  intros Hr Hsg. assert (loop_inv [] srv_loop0) as I0 by by split.
  pose proof (loop_run_inv _ _ _ _ I0 Hr) as [Hw Hst Hse Hp]. simpl in *.
  assert (lp_stop s1 = true) as H1 by (cbn in Hsg; case_decide; [done|]; by injection Hsg as <-).
  split.
  - intros Hne. cbn in Hsg. case_decide as Hd; [done|]. injection Hsg as <-. exists (leave (Mk_loop pc_test true (lp_workers s) (lp_stats s) (lp_server s))).
    rewrite ?decide_False in Hst by done.
    split; [by destruct (lp_pc s)|]. simpl. split_and!; [done|by rewrite <-list_fmap_compose| |by rewrite Hst].
    apply Forall_fmap, Forall_true. done.
  - intros es' s' H'. pose proof (stopped_accepts _ _ _ H1 H'). by destruct (lp_pc s1); lia.
Qed.

Lemma signal_stops_witness :
  ∃ s s1 s2, loop_run srv_loop0 [sv_own; sv_own; sv_accepted 5; sv_own; sv_own; sv_disconnect 0] = Some s ∧
    loop_exec s sv_signal = Some s1 ∧ loop_exec s1 sv_own = Some s2 ∧ lp_pc s2 = pc_returned ∧
    wk_fd <$> lp_workers s2 = [5%nat].
Proof.
  destruct (signal_stops [sv_own; sv_own; sv_accepted 5; sv_own; sv_own; sv_disconnect 0]
              (Mk_loop pc_blocked false [Mk_worker 5 false false] 0 true) (Mk_loop pc_retest true [Mk_worker 5 false false] 0 true))
    as [(s2 & H2 & Hp & Hw & _) _]; [reflexivity|reflexivity|done|].
  do 3 eexists. split_and!; [reflexivity|reflexivity|exact H2|exact Hp|exact Hw].
Defined.

(** A signal between the test of the flag and the call is not seen: the thread blocks in
    [accept] with the flag set and has no step of its own. *)
Theorem signal_missed :
  loop_run srv_loop0 [sv_own; sv_signal; sv_own] = Some (Mk_loop pc_blocked true [] 0 true) ∧
  loop_exec (Mk_loop pc_blocked true [] 0 true) sv_own = None.
Proof. done. Qed.

(** The program returns from [main], and so destroys the server, while a detached worker is
    still serving a connection with it. *)
Theorem server_destroyed_in_use :
  ∃ s, loop_run srv_loop0 [sv_own; sv_own; sv_accepted 5; sv_own; sv_own; sv_signal; sv_own] = Some s ∧
    lp_server s = false ∧ lp_workers s = [Mk_worker 5 true true].
Proof. eexists. split; [reflexivity|done]. Qed.
