(* ===== verification/Harness.v ===== *)
(** * The test driver

    [tools/craft_test_driver]: the program that starts a cluster of reference servers and a
    disk over them, runs the named tests, and stops or leaves the processes.  The operating
    system is a table of processes with a clock: how long each process lives, and how it
    takes a SIGTERM, are arguments, as are the disk's log file and one Ctrl-C.  Each Python
    function is an action on that state that returns a value or raises. *)

From S2P Require Import Prelude Codec WireTypes Wire Types Replica Raft Driver RefServer.
From stdpp Require Import strings pretty.

Local Open Scope craft_scope.
Local Open Scope Z_scope.

(** ** Processes *)

(** A process: its command, when it started, and when it was sent SIGTERM or SIGKILL (the
    times are in milliseconds). *)
Record proc := Mk_proc { pr_cmd : list string; pr_start : Z; pr_term : option Z; pr_kill : option Z }.
(** What it does of itself: when it exits and with which code, and how long after a SIGTERM;
    [None] for never. *)
Record behaviour := Mk_behaviour { bh_exit : option (Z * Z); bh_term : option (Z * Z) }.

Definition earlier (a b : option (Z * Z)) : option (Z * Z) :=
  match a, b with
  | Some (x, _), Some (y, _) => if x <=? y then a else b
  | None, _ => b
  | _, None => a
  end.
(** When and with what code a process ends. *)
Definition exit_of (b : behaviour) (p : proc) : option (Z * Z) :=
  earlier ((λ e, (pr_start p + e.1, e.2)) <$> bh_exit b)
    (earlier (t ← pr_term p; e ← bh_term b; Some (t + e.1, e.2))
             ((λ t, (t, -9)) <$> pr_kill p)).

(** ** Objects *)

Record member_cfg := Mk_member_cfg { mc_uuid : string; mc_host : list Z; mc_raft_port : Z; mc_tcp_port : Z }.
Record ClusterManager := Mk_cluster { cm_binary : string; cm_config_path : string; cm_members : list member_cfg;
  cm_log_args : string; cm_procs : list (string * nat) }.
Record CraftDisk := Mk_disk { dk_binary : string; dk_config_path : string; dk_vol : string; dk_ready_timeout : Z;
  dk_log_args : string; dk_proc : option nat; dk_device_path : option (list Z) }.

(** [d[k] = v] of a [dict], which keeps the place of a key that is there. *)
Fixpoint dict_set {A} (k : string) (v : A) (d : list (string * A)) : list (string * A) :=
  match d with
  | [] => [(k, v)]
  | (k', v') :: d => if String.eqb k k' then (k', v) :: d else (k', v') :: dict_set k v d
  end.
Fixpoint dict_get {A} (k : string) (d : list (string * A)) : option A :=
  match d with [] => None | (k', v) :: d => if String.eqb k k' then Some v else dict_get k d end.

(** The state: the clock, the process table, the Ctrl-C to come, the module [registry] with
    the objects it refers to, and the jobs run. *)
Record harness := Mk_harness {
  hs_now : Z;
  hs_procs : list proc;
  hs_intr : option Z;
  hs_cluster : option ClusterManager;
  hs_heap : list CraftDisk;             (* the disk objects *)
  hs_volumes : gmap (list Z) py_volume;
  hs_disks : list (string * nat);
  hs_fio : list (list string);
}.

(** What the program raises. *)
Inductive py_exc :=
| exc_interrupt | exc_timeout | exc_timeout_expired | exc_os | exc_runtime | exc_key | exc_value | exc_attribute
| exc_not_found | exc_fio | exc_create (e : py_error) | exc_exit (code : Z) | exc_killed.

(** An action; [None] when it has not ended. *)
Definition io (A : Type) : Type := harness → option (result py_exc A * harness).
Definition ret {A} (a : A) : io A := λ st, Some (Ok a, st).
Definition raise {A} (e : py_exc) : io A := λ st, Some (Err e, st).
Definition io_bind {A B} (m : io A) (f : A → io B) : io B := λ st,
  match m st with
  | Some (Ok a, st) => f a st
  | Some (Err e, st) => Some (Err e, st)
  | None => None
  end.
Definition gets {A} (f : harness → A) : io A := λ st, Some (Ok (f st), st).
Definition modify (f : harness → harness) : io unit := λ st, Some (Ok tt, f st).
Notation "'do' x <- m ; k" := (io_bind m (λ x, k)) (at level 10, x binder, m at level 100, k at level 200) : craft_scope.
Notation "'do_' m ; k" := (io_bind m (λ _, k)) (at level 10, m at level 100, k at level 200) : craft_scope.
(** [try] with its two handlers: [except KeyboardInterrupt] and [except Exception]. *)
Definition try_except {A} (m : io A) (interrupted : io A) (failed : py_exc → io A) : io A := λ st,
  match m st with
  | Some (Err exc_interrupt, st) => interrupted st
  | Some (Err (exc_exit c), st) => Some (Err (exc_exit c), st)
  | Some (Err exc_killed, st) => Some (Err exc_killed, st)
  | Some (Err e, st) => failed e st
  | r => r
  end.

Definition set_now (t : Z) (st : harness) : harness :=
  Mk_harness t (hs_procs st) (hs_intr st) (hs_cluster st) (hs_heap st) (hs_volumes st) (hs_disks st) (hs_fio st).
Definition set_procs (ps : list proc) (st : harness) : harness :=
  Mk_harness (hs_now st) ps (hs_intr st) (hs_cluster st) (hs_heap st) (hs_volumes st) (hs_disks st) (hs_fio st).
Definition taken_intr (t : Z) (st : harness) : harness :=
  Mk_harness (Z.max (hs_now st) t) (hs_procs st) None (hs_cluster st) (hs_heap st) (hs_volumes st) (hs_disks st) (hs_fio st).
Definition set_cluster (c : ClusterManager) (st : harness) : harness :=
  Mk_harness (hs_now st) (hs_procs st) (hs_intr st) (Some c) (hs_heap st) (hs_volumes st) (hs_disks st) (hs_fio st).
Definition set_heap (h : list CraftDisk) (st : harness) : harness :=
  Mk_harness (hs_now st) (hs_procs st) (hs_intr st) (hs_cluster st) h (hs_volumes st) (hs_disks st) (hs_fio st).
Definition set_volumes (v : gmap (list Z) py_volume) (st : harness) : harness :=
  Mk_harness (hs_now st) (hs_procs st) (hs_intr st) (hs_cluster st) (hs_heap st) v (hs_disks st) (hs_fio st).
Definition add_disk (vol_id : string) (disk : nat) (st : harness) : harness :=
  Mk_harness (hs_now st) (hs_procs st) (hs_intr st) (hs_cluster st) (hs_heap st) (hs_volumes st)
    (dict_set vol_id disk (hs_disks st)) (hs_fio st).
Definition get_disk (vol_id : string) (st : harness) : result py_exc nat :=
  match dict_get vol_id (hs_disks st) with Some d => Ok d | None => Err exc_key end.
Definition volumes_get (vol : list Z) (st : harness) : result py_exc py_volume :=
  match hs_volumes st !! vol with Some v => Ok v | None => Err exc_key end.
Definition all_disks (st : harness) : list nat := (hs_disks st).*2.
Definition add_fio (args : list string) (st : harness) : harness :=
  Mk_harness (hs_now st) (hs_procs st) (hs_intr st) (hs_cluster st) (hs_heap st) (hs_volumes st) (hs_disks st) (hs_fio st ++ [args]).

Definition log_level_dict (verbose : Z) : option string :=
  if verbose =? 0 then Some "trace" else if verbose =? 1 then Some "debug" else if verbose =? 2 then Some "info" else None.

Section driver.
(** [os]: the life of the process with a given pid; [can_exec]: whether a command can be
    started; [log]: the contents of the disk's log file over time, [None] while there is
    none; [fio_time] and [fio_rc]: how long a fio job takes and its exit code. *)
Context (os : nat → behaviour) (can_exec : list string → bool) (log : Z → option (list Z))
  (fio_time fio_rc : list string → Z).

(** ** The [subprocess] module and the clock *)

Definition poll_at (st : harness) (pid : nat) : option Z :=
  p ← hs_procs st !! pid;
  e ← exit_of (os pid) p;
  if e.1 <=? hs_now st then Some e.2 else None.
Definition poll (pid : nat) : io (option Z) := gets (λ st, poll_at st pid).

(** The state passes to time [t], or the Ctrl-C comes first. *)
Definition until {A} (t : Z) (k : io A) : io A := λ st,
  match hs_intr st with
  | Some i => if i <=? t then Some (Err exc_interrupt, taken_intr i st) else k (set_now t st)
  | None => k (set_now t st)
  end.
Definition sleep (ms : Z) : io unit := λ st, until (hs_now st + ms) (ret tt) st.

Definition Popen (cmd : list string) : io nat := λ st,
  if can_exec cmd then Some (Ok (length (hs_procs st)), set_procs (hs_procs st ++ [Mk_proc cmd (hs_now st) None None]) st)
  else Some (Err exc_os, st).
Definition terminate (now : Z) (p : proc) : proc :=
  Mk_proc (pr_cmd p) (pr_start p) (match pr_term p with None => Some now | t => t end) (pr_kill p).
Definition killed (now : Z) (p : proc) : proc :=
  Mk_proc (pr_cmd p) (pr_start p) (pr_term p) (Some (from_option (Z.min now) now (pr_kill p))).
Definition send_sigterm (pid : nat) : io unit := modify (λ st, set_procs (alter (terminate (hs_now st)) pid (hs_procs st)) st).
Definition kill (pid : nat) : io unit := modify (λ st, set_procs (alter (killed (hs_now st)) pid (hs_procs st)) st).
(** [proc.wait(timeout)] and [proc.wait()]. *)
Definition wait_for (timeout : Z) (pid : nat) : io Z := λ st,
  let limit := hs_now st + timeout in
  match hs_procs st !! pid ≫= exit_of (os pid) with
  | Some (e, rc) => if e <=? limit then until (Z.max (hs_now st) e) (ret rc) st else until limit (raise exc_timeout_expired) st
  | None => until limit (raise exc_timeout_expired) st
  end.
Definition wait (pid : nat) : io Z := λ st,
  match hs_procs st !! pid ≫= exit_of (os pid) with
  | Some (e, rc) => until (Z.max (hs_now st) e) (ret rc) st
  | None => match hs_intr st with Some i => Some (Err exc_interrupt, taken_intr i st) | None => None end
  end.
(** [wait] for five seconds after a SIGTERM, then SIGKILL. *)
Definition reap (pid : nat) : io unit := λ st,
  match wait_for 5000 pid st with
  | Some (Ok _, st) => Some (Ok tt, st)
  | Some (Err exc_timeout_expired, st) => (do_ kill pid; do_ wait pid; ret tt) st
  | Some (Err e, st) => Some (Err e, st)
  | None => None
  end.

Fixpoint for_each {A} (xs : list A) (f : A → io unit) : io unit :=
  match xs with [] => ret tt | x :: xs => do_ f x; for_each xs f end.

(** ** [cluster.py] *)

Definition the_cluster : io ClusterManager := λ st,
  match hs_cluster st with Some c => Some (Ok c, st) | None => Some (Err exc_attribute, st) end.

Definition mk_cluster_manager (binary config_path : string) (members : list member_cfg) (verbose : Z) : result py_exc ClusterManager :=
  match log_level_dict verbose with
  | None => Err exc_key
  | Some lvl => Ok (Mk_cluster binary config_path members ("base:" +:+ lvl +:+ ",nuraft_mesg:info") [])
  end.
Definition server_cmd (c : ClusterManager) (m : member_cfg) : list string :=
  [cm_binary c; "--port"; pretty (mc_tcp_port m); "--server_config_file"; cm_config_path c;
   "--server_uuid"; mc_uuid m; "--log_mods"; cm_log_args c]%string.
Definition track (uuid : string) (pid : nat) (c : ClusterManager) : ClusterManager :=
  Mk_cluster (cm_binary c) (cm_config_path c) (cm_members c) (cm_log_args c) (dict_set uuid pid (cm_procs c)).
Definition start_one (m : member_cfg) : io unit :=
  do c <- the_cluster; do pid <- Popen (server_cmd c m); modify (set_cluster (track (mc_uuid m) pid c)).
Definition start_all : io unit := do c <- the_cluster; for_each (cm_members c) start_one.
Definition dead_in (st : harness) (procs : list (string * nat)) : list string :=
  omap (λ up, match poll_at st up.2 with Some _ => Some up.1 | None => None end) procs.
Definition any_dead : io (list string) := do c <- the_cluster; gets (λ st, dead_in st (cm_procs c)).
Definition term_if_running (pid : nat) : io unit :=
  do rc <- poll pid; match rc with None => send_sigterm pid | Some _ => ret tt end.
Definition shutdown : io unit :=
  do c <- the_cluster;
  do_ for_each (cm_procs c).*2 term_if_running;
  for_each (cm_procs c).*2 reap.

(** ** [craft_disk.py] *)

Definition mk_craft_disk (binary config_path vol : string) (verbose : Z) : result py_exc CraftDisk :=
  match log_level_dict verbose with
  | None => Err exc_key
  | Some lvl =>
      Ok (Mk_disk binary config_path vol 15000
            ("base:" +:+ lvl +:+ ",ublksrv:" +:+ lvl +:+ ",ublk_tgt:" +:+ lvl +:+ ",ublk_raid:" +:+ lvl +:+ ",ublk_drivers:" +:+ lvl) None None)
  end.
Definition disk_cmd (d : CraftDisk) : list string :=
  ["stdbuf"; "-oL"; dk_binary d; "--craft_tcp"; "--server_config_file"; dk_config_path d;
   "--vol_id"; dk_vol d; "--log_mods"; dk_log_args d]%string.
Definition the_disk (i : nat) : io CraftDisk := λ st,
  match hs_heap st !! i with Some d => Some (Ok d, st) | None => Some (Err exc_attribute, st) end.
Definition set_proc (pid : nat) (d : CraftDisk) : CraftDisk :=
  Mk_disk (dk_binary d) (dk_config_path d) (dk_vol d) (dk_ready_timeout d) (dk_log_args d) (Some pid) (dk_device_path d).
Definition set_device (dev : list Z) (d : CraftDisk) : CraftDisk :=
  Mk_disk (dk_binary d) (dk_config_path d) (dk_vol d) (dk_ready_timeout d) (dk_log_args d) (dk_proc d) (Some dev).
Definition update_disk (i : nat) (f : CraftDisk → CraftDisk) : io unit := modify (λ st, set_heap (alter f i (hs_heap st)) st).

(** [_DEVICE_RE.search]. *)
Definition marker : list Z := string_bytes "exposed as UBD device: [".
Definition dev_prefix : list Z := string_bytes "/dev/ublkb".
Definition is_digit (c : Z) : bool := (48 <=? c) && (c <=? 57).
Fixpoint take_digits (s : list Z) : list Z * list Z :=
  match s with
  | [] => ([], [])
  | c :: r => if is_digit c then let '(a, b) := take_digits r in (c :: a, b) else ([], s)
  end.
Definition strip (pre s : list Z) : option (list Z) :=
  if bool_decide (take (length pre) s = pre) then Some (drop (length pre) s) else None.
Definition match_here (s : list Z) : option (list Z) :=
  r ← strip marker s;
  d ← strip dev_prefix r;
  match take_digits d with
  | ([], _) => None
  | (ds, c :: _) => if c =? 93 then Some (dev_prefix ++ ds) else None
  | (_, []) => None
  end.
Fixpoint device_search (s : list Z) : option (list Z) :=
  match match_here s with
  | Some d => Some d
  | None => match s with [] => None | _ :: s => device_search s end
  end.
(** [f.readline()] on what is left of the file: through the newline, or to its end. *)
Fixpoint readline (s : list Z) : list Z :=
  match s with [] => [] | c :: s => if c =? 10 then [c] else c :: readline s end.

(** The two loops of [_wait_ready]. *)
Fixpoint wait_log (fuel : nat) (deadline : Z) (pid : nat) : io unit := λ st,
  match fuel with
  | O => None
  | S fuel =>
      match log (hs_now st) with
      | Some _ => ret tt st
      | None =>
          if deadline <=? hs_now st then raise exc_timeout st
          else match poll_at st pid with
               | Some _ => raise exc_runtime st
               | None => (do_ sleep 50; wait_log fuel deadline pid) st
               end
      end
  end.
Definition cluster_dead (st : harness) : list string :=
  match hs_cluster st with Some c => dead_in st (cm_procs c) | None => [] end.
Fixpoint wait_device (fuel : nat) (deadline : Z) (pid : nat) (pos : nat) : io (list Z) := λ st,
  match fuel with
  | O => None
  | S fuel =>
      if deadline - hs_now st <=? 0 then raise exc_timeout st
      else match poll_at st pid with
           | Some _ => raise exc_runtime st
           | None =>
               match cluster_dead st with
               | _ :: _ => raise exc_runtime st
               | [] =>
                   match readline (drop pos (default [] (log (hs_now st)))) with
                   | [] => (do_ sleep 100; wait_device fuel deadline pid pos) st
                   | line =>
                       match device_search line with
                       | Some d => ret d st
                       | None => wait_device fuel deadline pid (pos + length line) st
                       end
                   end
               end
           end
  end.
(** Every pass sleeps or reads on: the time to the deadline and the length the file has by
    then bound the passes. *)
Definition log_fuel (timeout : Z) : nat := S (S (Z.to_nat (timeout `div` 50))).
Definition device_fuel (timeout deadline : Z) : nat :=
  S (S (Z.to_nat (timeout `div` 100) + length (default [] (log deadline)))).
Definition wait_ready (i : nat) (pid : nat) : io unit :=
  do d <- the_disk i;
  do now <- gets hs_now;
  let deadline := now + dk_ready_timeout d in
  do_ wait_log (log_fuel (dk_ready_timeout d)) deadline pid;
  do dev <- wait_device (device_fuel (dk_ready_timeout d) deadline) deadline pid 0;
  update_disk i (set_device dev).
Definition disk_start (i : nat) : io unit :=
  do d <- the_disk i;
  do pid <- Popen (disk_cmd d);
  do_ update_disk i (set_proc pid);
  wait_ready i pid.
Definition is_alive (i : nat) : io bool :=
  do d <- the_disk i;
  match dk_proc d with
  | None => ret false
  | Some pid => do rc <- poll pid; ret (bool_decide (rc = None))
  end.
Definition disk_stop (i : nat) : io unit :=
  do d <- the_disk i;
  match dk_proc d with
  | None => ret tt
  | Some pid => do rc <- poll pid; match rc with Some _ => ret tt | None => do_ send_sigterm pid; reap pid end
  end.

(** ** [fio_runner.py] and [tests/basic.py] *)

Definition fio_args (device job_name rw size bs ioengine : string) (direct : bool) (runtime : option Z)
    (extra_args : list (string * string)) : list string :=
  ["fio"; "--name=" +:+ job_name; "--filename=" +:+ device; "--rw=" +:+ rw; "--bs=" +:+ bs; "--size=" +:+ size;
   "--ioengine=" +:+ ioengine; if direct then "--direct=1" else "--direct=0"; "--status-interval=1"]%string ++
  match runtime with Some r => ["--runtime=" +:+ pretty r; "--time_based"]%string | None => [] end ++
  ((λ kv, "--" +:+ kv.1 +:+ "=" +:+ kv.2) <$> extra_args).
Definition run_fio (args : list string) : io Z :=
  do_ modify (add_fio args);
  do_ sleep (fio_time args);
  ret (fio_rc args).
Definition timed (fn : io Z) : io unit := do rc <- fn; if rc =? 0 then ret tt else raise exc_fio.
Definition write_args (device : string) : list string :=
  fio_args device "basic_write" "write" "64m" "4k" "io_uring" true None [("verify", "crc32c"); ("do_verify", "0")]%string.
Definition verify_args (device : string) : list string :=
  fio_args device "basic_verify" "read" "64m" "4k" "io_uring" true None [("verify", "crc32c"); ("do_verify", "1")]%string.
Definition mixed_args (device : string) (runtime : Z) : list string :=
  fio_args device "mixed_readwrite" "randrw" "500m" "4k" "io_uring" true (Some runtime)
    [("verify", "crc32c"); ("do_verify", "1"); ("rwmixread", "50")]%string.
Definition write_read_test (device : string) : io unit :=
  do_ timed (run_fio (write_args device)); timed (run_fio (verify_args device)).
Definition mixed_readwrite_test (device : string) (runtime : Z) : io unit := timed (run_fio (mixed_args device runtime)).
Definition run_all (device : string) : io unit := do_ write_read_test device; mixed_readwrite_test device 30.

(** ** [test_registry.py] *)

Definition TESTS : list (string * (string → io unit)) := [("basic"%string, run_all)].
Definition list_tests : list string := TESTS.*1.
Definition run_test (name device : string) : io unit :=
  match dict_get name TESTS with None => raise exc_not_found | Some test => test device end.

(** ** [main.py] *)

Record driver_args := Mk_args {
  ar_config : string;
  ar_tcp_srv_binary : string;
  ar_craft_disk_binary : option string;
  ar_startup_wait : Z;
  ar_vol_id : option string;
  ar_capacity : Z;
  ar_lba_size : Z;
  ar_cleanup : bool;
  ar_run_test : list string;
  ar_list_tests : bool;
  ar_verbose : Z;
}.

(** [uuid.UUID] of a string and of random bytes, a uuid's text, and what the server at a
    host and port sends back. *)
Context (uuid_of : string → option (list Z)) (uuid4 : list Z) (uuid_text : list Z → string) (path_text : list Z → string)
  (net : list Z → Z → list Z → option (list (list Z))).

Definition info_of (m : member_cfg) : option replica_info :=
  id ← uuid_of (mc_uuid m); Some (Mk_replica_info id (mc_host m) (mc_raft_port m) (mc_tcp_port m)).
(** [registry.volumes.create]. *)
Definition create_volume_on (members : list member_cfg) (vol : list Z) (capacity lba_size : Z) : io unit := λ st,
  match mapM info_of members with
  | None => raise exc_value st
  | Some infos =>
      match registry_create net infos vol capacity lba_size (hs_volumes st) with
      | Ok v => Some (Ok tt, set_volumes v st)
      | Err e => raise (exc_create e) st
      end
  end.

Definition check_servers : io unit := do dead <- any_dead; match dead with [] => ret tt | _ => raise exc_runtime end.
Definition attach_disk (args : driver_args) (vol : list Z) : io (option nat) :=
  match ar_craft_disk_binary args with
  | None => ret None
  | Some bin =>
      match mk_craft_disk bin (ar_config args) (uuid_text vol) (ar_verbose args) with
      | Err e => raise e
      | Ok d => do i <- gets (λ st, length (hs_heap st)); do_ modify (λ st, set_heap (hs_heap st ++ [d]) st); ret (Some i)
      end
  end.
Definition start_disk (vol : list Z) (disk : option nat) : io unit :=
  match disk with
  | None => ret tt
  | Some i => do_ disk_start i; modify (add_disk (uuid_text vol) i)
  end.
(** [disk.device_path], where [disk] may be [None]. *)
Definition device_of (disk : option nat) : io string :=
  match disk with
  | None => raise exc_attribute
  | Some i => do d <- the_disk i; ret (default "None"%string (path_text <$> dk_device_path d))
  end.
Definition run_tests (names : list string) (disk : option nat) : io unit :=
  for_each names (λ name, do dev <- device_of disk; run_test name dev).
(** [while True], with [fuel] passes. *)
Fixpoint watch (fuel : nat) (disk : option nat) : io unit := λ st,
  match fuel with
  | O => None
  | S fuel =>
      (do_ sleep 1000;
       do_ check_servers;
       do_ (match disk with None => ret tt | Some i => do a <- is_alive i; if a then ret tt else raise exc_runtime end);
       watch fuel disk) st
  end.

(** The body of [try] up to the disk object, and from there. *)
Definition run_setup (args : driver_args) (members : list member_cfg) (vol : list Z) : io (option nat) :=
  do_ start_all;
  do_ sleep (ar_startup_wait args);
  do_ check_servers;
  do_ create_volume_on members vol (ar_capacity args) (ar_lba_size args);
  do_ sleep (ar_startup_wait args);
  attach_disk args vol.
Definition run_rest (fuel : nat) (args : driver_args) (vol : list Z) (disk : option nat) : io unit :=
  do_ start_disk vol disk;
  do_ sleep (ar_startup_wait args);
  do_ run_tests (ar_run_test args) disk;
  watch fuel disk.

(** The handlers: Ctrl-C stops the disk, if there is one, and the cluster; any other
    exception leaves the processes running and exits with 1. *)
Definition on_interrupt (disk : option nat) : io unit :=
  do_ (match disk with None => ret tt | Some i => disk_stop i end); shutdown.
Definition on_exception (e : py_exc) : io unit := raise (exc_exit 1).

(** [try] around both halves: the handlers see the variable [disk] as it is by then. *)
Definition run (fuel : nat) (args : driver_args) (members : list member_cfg) : io unit := λ st,
  match (match ar_vol_id args with None => Some uuid4 | Some s => uuid_of s end) with
  | None => raise exc_value st
  | Some vol =>
      match mk_cluster_manager (ar_tcp_srv_binary args) (ar_config args) members (ar_verbose args) with
      | Err e => raise e st
      | Ok c =>
          match run_setup args members vol (set_cluster c st) with
          | None => None
          | Some (Err e, st) => try_except (raise e) (on_interrupt None) on_exception st
          | Some (Ok disk, st) => try_except (run_rest fuel args vol disk) (on_interrupt disk) on_exception st
          end
      end
  end.

(** [pkill -9 -f name] for each program; [self] is the driver's own command line. *)
Definition cmdline (cmd : list string) : string := String.concat " " cmd.
Definition pkill (self name : string) : io unit := λ st,
  let st := set_procs ((λ p, if contains name (cmdline (pr_cmd p)) then killed (hs_now st) p else p) <$> hs_procs st) st in
  if contains name self then Some (Err exc_killed, st) else Some (Ok tt, st).
Definition stray_names : list string := ["craft_reference_tcp_srv"; "ublkpp_disk"]%string.
Definition cleanup_stray_processes (self : string) : io unit := for_each stray_names (pkill self).

(** [load_members]: what the file gives, [None] without the key. *)
Definition load_members (cfg : option (list member_cfg)) : result py_exc (list member_cfg) :=
  match cfg with None => Err exc_key | Some [] => Err exc_value | Some ms => Ok ms end.
Definition main (self : string) (cfg : option (list member_cfg)) (fuel : nat) (args : driver_args) : io unit :=
  if ar_list_tests args then ret tt
  else if ar_cleanup args then cleanup_stray_processes self
  else match load_members cfg with Err e => raise e | Ok members => run fuel args members end.
End driver.
