(* ===== verification/HarnessRun.v ===== *)
(** * Runs of the test driver

    A run of the driver ends: on a Ctrl-C while it sleeps or waits with every process it
    started gone, on an error with every process as it was.  The command lines it builds
    start the reference server; and the runs that leave a server behind or do not find the
    disk. *)

From S2P Require Import Prelude Codec WireTypes Wire Types Replica Raft Conn TcpServer Sockets RaftState RaftService Builder Driver RefServer Harness.
From stdpp Require Import strings pretty.

Local Open Scope craft_scope.
Local Open Scope Z_scope.

(** ** When a process ends *)

Definition exits_by (b : behaviour) (p : proc) (t : Z) : Prop :=
  match exit_of b p with Some (e, _) => e ≤ t | None => False end.

Lemma earlier_by a b t :
  match earlier a b with Some (e, _) => e ≤ t | None => False end ↔
  match a with Some (e, _) => e ≤ t | None => False end ∨ match b with Some (e, _) => e ≤ t | None => False end.
Proof. destruct a as [[x rx]|], b as [[y ry]|]; simpl; try tauto. destruct (Z.leb_spec x y); lia. Qed.

Lemma exits_by_iff b p t :
  exits_by b p t ↔
    (∃ d rc, bh_exit b = Some (d, rc) ∧ pr_start p + d ≤ t) ∨
    (∃ s d rc, pr_term p = Some s ∧ bh_term b = Some (d, rc) ∧ s + d ≤ t) ∨
    (∃ k, pr_kill p = Some k ∧ k ≤ t).
Proof.
  unfold exits_by, exit_of. rewrite !earlier_by.
  destruct (bh_exit b) as [[d rc]|], (pr_term p) as [s|], (bh_term b) as [[d' rc']|], (pr_kill p) as [k|]; simpl; naive_solver.
Qed.

(** A process that was sent more signals. *)
Record signalled (p p' : proc) : Prop := {
  sg_start : pr_start p' = pr_start p;
  sg_term t : pr_term p = Some t → pr_term p' = Some t;
  sg_kill t : pr_kill p = Some t → ∃ t', pr_kill p' = Some t' ∧ t' ≤ t;
}.
Lemma signalled_refl p : signalled p p.
Proof. split; [done|done|]. intros t Ht. by exists t. Qed.
Lemma signalled_trans p1 p2 p3 : signalled p1 p2 → signalled p2 p3 → signalled p1 p3.
Proof.
  intros [? ? K1] [? ? K2]. split; [congruence|eauto|].
  intros t (t2 & H2 & ?)%K1. destruct (K2 t2 H2) as (t3 & ? & ?). exists t3. split; [done|lia].
Qed.
Lemma signalled_term now p : signalled p (terminate now p).
Proof. split; simpl; [done|by intros t ->|]. intros t Ht. by exists t. Qed.
Lemma signalled_kill now p : signalled p (killed now p).
Proof. split; simpl; [done|done|]. intros t ->. eexists. split; [done|]. simpl. lia. Qed.
Lemma exits_signalled b p p' t t' : signalled p p' → t ≤ t' → exits_by b p t → exits_by b p' t'.
Proof.
  intros [Hs Ht Hk] Hle. rewrite !exits_by_iff. intros [(d & rc & ? & ?)|[(s & d & rc & ? & ? & ?)|(k & ? & ?)]].
  - left. exists d, rc. split; [done|lia].
  - right; left. exists s, d, rc. split_and!; [eauto|done|lia].
  - right; right. destruct (Hk k) as (k' & ? & ?); [done|]. exists k'. split; [done|lia].
Qed.
#[export] Hint Resolve signalled_refl signalled_term signalled_kill : craft.

Section runs.
Context (os : nat → behaviour) (can_exec : list string → bool) (log : Z → option (list Z))
  (fio_time fio_rc : list string → Z)
  (uuid_of : string → option (list Z)) (uuid4 : list Z) (uuid_text path_text : list Z → string)
  (net : list Z → Z → list Z → option (list (list Z))).

Definition exited (st : harness) (pid : nat) : Prop := is_Some (poll_at os st pid).
Lemma exited_iff st pid : exited st pid ↔ ∃ p, hs_procs st !! pid = Some p ∧ exits_by (os pid) p (hs_now st).
Proof.
  unfold exited, poll_at, exits_by. destruct (hs_procs st !! pid) as [p|]; simpl; [|split; [by intros [? ?]|by intros (? & ? & ?)]].
  split.
  - destruct (exit_of (os pid) p) as [[e rc]|] eqn:He; simpl; [|by intros [? ?]].
    destruct (Z.leb_spec e (hs_now st)); [|by intros [? ?]]. intros _. exists p. by rewrite He.
  - intros (p' & [= <-] & H). destruct (exit_of (os pid) p) as [[e rc]|]; simpl; [|done].
    by rewrite (proj2 (Z.leb_le _ _) H).
Qed.

(** [st'] comes after [st], with the same processes and objects and no Ctrl-C to come. *)
Record later (st st' : harness) : Prop := {
  lt_now : hs_now st ≤ hs_now st';
  lt_intr : hs_intr st' = hs_intr st;
  lt_cluster : hs_cluster st' = hs_cluster st;
  lt_heap : hs_heap st' = hs_heap st;
  lt_length : length (hs_procs st') = length (hs_procs st);
  lt_procs i p : hs_procs st !! i = Some p → ∃ p', hs_procs st' !! i = Some p' ∧ signalled p p';
}.
Lemma later_refl st : later st st.
Proof. split; try done. eauto with craft. Qed.
Lemma later_compose st1 st2 st3 : later st1 st2 → later st2 st3 → later st1 st3.
Proof.
  intros [? ? ? ? ? H1] [? ? ? ? ? H2]. split; try lia; try congruence.
  intros i p (p2 & Hp2 & S1)%H1. destruct (H2 i p2 Hp2) as (p3 & Hp3 & S2). exists p3. split; [done|]. by eapply signalled_trans.
Qed.
Lemma later_exited st st' pid : later st st' → exited st pid → exited st' pid.
Proof.
  intros [Hn _ _ _ _ Hp]. rewrite !exited_iff. intros (p & Hl & He).
  destruct (Hp _ _ Hl) as (p' & Hl' & Hs). exists p'. split; [done|]. by eapply exits_signalled.
Qed.
Lemma later_alter (f : proc → proc) pid st :
  (∀ p, signalled p (f p)) → later st (set_procs (alter f pid (hs_procs st)) st).
Proof.
  intros Hf. split; simpl; try done; [by rewrite length_alter|]. intros i p Hp.
  destruct (decide (i = pid)) as [->|Hne].
  - rewrite list_lookup_alter_eq, Hp. eexists. split; [done|]. apply Hf.
  - rewrite list_lookup_alter_ne by done. eauto with craft.
Qed.

(** *** Stopping *)

Lemma until_quiet {A} t (k : io A) st : hs_intr st = None → until t k st = k (set_now t st).
Proof. intros H. unfold until. by rewrite H. Qed.
Lemma later_until st t : hs_now st ≤ t → later st (set_now t st).
Proof. intros H. destruct (later_refl st). by split. Qed.

Lemma term_step pid st :
  term_if_running os pid st =
    Some (Ok tt, match poll_at os st pid with
                 | Some _ => st
                 | None => set_procs (alter (terminate (hs_now st)) pid (hs_procs st)) st
                 end).
Proof. unfold term_if_running, io_bind, poll, gets. by destruct (poll_at os st pid). Qed.

(** The processes [pids] that are still running get a SIGTERM. *)
Lemma terms_later pids st :
  ∃ st', for_each pids (term_if_running os) st = Some (Ok tt, st') ∧ later st st' ∧ hs_now st' = hs_now st ∧
    ∀ i p p', hs_procs st !! i = Some p → hs_procs st' !! i = Some p' →
      p' = terminate (hs_now st) p ∨ p' = p ∧ (i ∈ pids → exited st i).
Proof.
  revert st. induction pids as [|pid pids IH]; intros st; simpl.
  { exists st. split_and!; [done|apply later_refl|done|]. intros i p p' -> [= ->]. right. split; [done|]. by intros ?%elem_of_nil. }
  unfold io_bind. rewrite term_step. destruct (poll_at os st pid) as [rc|] eqn:Hp.
  - destruct (IH st) as (st' & -> & L & Hn & Hc). exists st'. split_and!; try done. intros i p p' Hi Hi'.
    destruct (Hc i p p' Hi Hi') as [?|[? He]]; [by left|]. right. split; [done|].
    intros [->|?]%elem_of_cons; [by exists rc|auto].
  - set (st1 := set_procs _ st). destruct (IH st1) as (st' & -> & L & Hn & Hc).
    assert (later st st1) as L1 by (apply later_alter; intros; apply signalled_term).
    exists st'. split_and!; [done|by eapply later_compose|done|]. intros i p p' Hi Hi'.
    change (hs_now st1) with (hs_now st) in Hc. destruct (decide (i = pid)) as [->|Hne].
    + left. destruct (Hc pid (terminate (hs_now st) p) p') as [->|[-> _]]; try done.
      { unfold st1. simpl. by rewrite list_lookup_alter_eq, Hi. }
      unfold terminate. simpl. by destruct (pr_term p).
    + destruct (Hc i p p') as [?|[? He]]; [|done|by left|].
      { unfold st1. simpl. by rewrite list_lookup_alter_ne. }
      right. split; [done|]. intros [?|Hin]%elem_of_cons; [done|]. specialize (He Hin).
      apply exited_iff in He as (q & Hq & He). apply exited_iff. unfold st1 in Hq. simpl in Hq.
      rewrite list_lookup_alter_ne in Hq by done. eauto.
Qed.

Lemma wait_for_cases pid p st :
  hs_intr st = None → hs_procs st !! pid = Some p →
  (∃ e rc, e ≤ hs_now st + 5000 ∧ exit_of (os pid) p = Some (e, rc) ∧
     wait_for os 5000 pid st = Some (Ok rc, set_now (Z.max (hs_now st) e) st)) ∨
  (¬ exits_by (os pid) p (hs_now st + 5000) ∧
     wait_for os 5000 pid st = Some (Err exc_timeout_expired, set_now (hs_now st + 5000) st)).
Proof.
  intros Hi Hp. unfold wait_for, exits_by. rewrite Hp. simpl. rewrite !until_quiet by done.
  destruct (exit_of (os pid) p) as [[e rc]|]; [|right; split; [tauto|done]].
  destruct (Z.leb_spec e (hs_now st + 5000)); [left|right; split; [lia|done]].
  exists e, rc. by rewrite until_quiet.
Qed.

(** [reap] ends with the process gone; it kills only a process that does not end within
    five seconds. *)
Lemma reap_later pid st :
  hs_intr st = None → (pid < length (hs_procs st))%nat →
  ∃ st', reap os pid st = Some (Ok tt, st') ∧ later st st' ∧ exited st' pid ∧ hs_now st' ≤ hs_now st + 5000 ∧
    ∀ i p p', hs_procs st !! i = Some p → hs_procs st' !! i = Some p' →
      p' = p ∨ i = pid ∧ ¬ exits_by (os i) p (hs_now st + 5000).
Proof.
  intros Hi Hlt. destruct (lookup_lt_is_Some_2 _ _ Hlt) as [p Hp]. unfold reap.
  assert (∀ i q q', hs_procs st !! i = Some q → hs_procs st !! i = Some q' → q' = q) as Hsame by (intros; congruence).
  destruct (wait_for_cases pid p st Hi Hp) as [(e & rc & Hle & He & ->)|[He ->]].
  - eexists. split_and!; [done|apply later_until; lia| |simpl; lia|by eauto].
    apply exited_iff. exists p. split; [done|]. unfold exits_by. rewrite He. simpl. lia.
  - unfold io_bind, kill, modify, wait. simpl. rewrite list_lookup_alter_eq, Hp. simpl.
    set (t := hs_now st + 5000) in *.
    assert (exits_by (os pid) (killed t p) t) as Hk.
    { apply exits_by_iff. right. right. eexists. split; [done|]. destruct (pr_kill p); simpl; lia. }
    unfold exits_by in Hk. destruct (exit_of (os pid) (killed t p)) as [[e rc]|] eqn:Hx; [|done].
    rewrite until_quiet by done. set (st1 := set_procs _ _). exists (set_now (Z.max t e) st1).
    assert (later st (set_now (Z.max t e) st1)) as L.
    { eapply later_compose; [apply (later_until st t); unfold t; lia|].
      eapply later_compose; [apply (later_alter (killed t)); intros; apply signalled_kill|]. apply later_until. simpl. lia. }
    split_and!; [done|done| |simpl; lia|].
    + apply exited_iff. exists (killed t p). simpl. rewrite list_lookup_alter_eq, Hp. split; [done|].
      unfold exits_by. rewrite Hx. lia.
    + intros i q q' Hq. simpl. destruct (decide (i = pid)) as [->|Hne]; [right; split; congruence|].
      rewrite list_lookup_alter_ne by done. left. congruence.
Qed.

Lemma reaps_later pids st :
  hs_intr st = None → Forall (λ pid, pid < length (hs_procs st))%nat pids →
  ∃ st', for_each pids (reap os) st = Some (Ok tt, st') ∧ later st st' ∧ Forall (exited st') pids ∧
    hs_now st' ≤ hs_now st + 5000 * Z.of_nat (length pids) ∧
    ∀ i p p', hs_procs st !! i = Some p → hs_procs st' !! i = Some p' →
      p' = p ∨ i ∈ pids ∧ ¬ exits_by (os i) p (hs_now st + 5000).
Proof.
  revert st. induction pids as [|pid pids IH]; intros st Hi Hf; simpl.
  { exists st. split_and!; [done|apply later_refl|constructor|lia|]. intros i p p' -> [= ->]. by left. }
  inversion Hf as [|? ? Hlt Hf']; subst. destruct (reap_later pid st Hi Hlt) as (st1 & H1 & L1 & E1 & T1 & C1).
  unfold io_bind. rewrite H1. destruct (IH st1) as (st' & -> & L & E & Ht & Hc).
  { by rewrite (lt_intr _ _ L1). }
  { by rewrite (lt_length _ _ L1). }
  exists st'. pose proof (lt_now _ _ L1) as Hn1. split_and!; [done|by eapply later_compose|constructor; [by eapply later_exited|done]|lia|].
  intros i p p' Hp Hp'. destruct (lt_procs _ _ L1 i p Hp) as (p1 & Hp1 & S1).
  destruct (C1 i p p1 Hp Hp1) as [->|[-> Hx]]; [|right; split; [by left|done]].
  destruct (Hc i p p' Hp1 Hp') as [?|[Hin Hx]]; [by left|]. right. split; [by right|].
  intros Hy. apply Hx. eapply exits_signalled; [apply signalled_refl| |exact Hy]. lia.
Qed.

(** What [shutdown] leaves. *)
Lemma shutdown_later st c :
  hs_intr st = None → hs_cluster st = Some c → Forall (λ pid, pid < length (hs_procs st))%nat (cm_procs c).*2 →
  ∃ st', shutdown os st = Some (Ok tt, st') ∧ later st st' ∧ Forall (exited st') (cm_procs c).*2 ∧
    hs_now st' ≤ hs_now st + 5000 * Z.of_nat (length (cm_procs c)) ∧
    ∀ i p p', hs_procs st !! i = Some p → hs_procs st' !! i = Some p' →
      pr_kill p' ≠ pr_kill p → i ∈ (cm_procs c).*2 ∧ ¬ exits_by (os i) (terminate (hs_now st) p) (hs_now st + 5000).
Proof.
  intros Hi Hcl Hf. unfold shutdown, io_bind at 1, the_cluster. rewrite Hcl. unfold io_bind.
  destruct (terms_later (cm_procs c).*2 st) as (st1 & -> & L1 & Hn1 & C1).
  destruct (reaps_later (cm_procs c).*2 st1) as (st2 & -> & L2 & E2 & T2 & C2).
  { by rewrite (lt_intr _ _ L1). }
  { by rewrite (lt_length _ _ L1). }
  rewrite Hn1, length_fmap in *. exists st2. split_and!; try done; [by eapply later_compose|].
  intros i p p' Hp Hp' Hk. destruct (lt_procs _ _ L1 i p Hp) as (p1 & Hp1 & S1).
  destruct (C2 i p1 p' Hp1 Hp') as [->|[Hin Hx]].
  - by destruct (C1 i p p1 Hp Hp1) as [->|[-> _]].
  - split; [done|]. destruct (C1 i p p1 Hp Hp1) as [->|[-> He]]; [done|].
    apply He, exited_iff in Hin as (q & Hq & Hex). destruct Hx. rewrite Hp in Hq. injection Hq as <-.
    eapply exits_signalled; [apply signalled_refl| |exact Hex]. lia.
Qed.

(** *** Until the Ctrl-C *)

Definition unsignalled (p : proc) : Prop := pr_term p = None ∧ pr_kill p = None.
(** The processes the driver has a handle on. *)
Definition pids_of (st : harness) : list nat :=
  match hs_cluster st with Some c => (cm_procs c).*2 | None => [] end ++ omap dk_proc (hs_heap st).
(** No process has been signalled, and every one is in reach of the handlers. *)
Record driven (k : nat) (st : harness) : Prop := {
  dv_procs : Forall unsignalled (hs_procs st);
  dv_cluster : is_Some (hs_cluster st);
  dv_heap : length (hs_heap st) = k;
  dv_timeout : Forall (λ d, 0 ≤ dk_ready_timeout d) (hs_heap st);
  dv_pids pid : pid ∈ pids_of st ↔ (pid < length (hs_procs st))%nat;
}.
(** With the Ctrl-C to come at [T], and after an action. *)
Definition ready (lo T : Z) (k : nat) (st : harness) : Prop :=
  driven k st ∧ hs_intr st = Some T ∧ lo ≤ hs_now st ≤ T.
Definition after {A} (lo T : Z) (k : nat) (r : result py_exc A) (st : harness) : Prop :=
  match r with
  | Err exc_interrupt => driven k st ∧ hs_intr st = None
  | Err (exc_exit _) | Err exc_killed => False
  | _ => ready lo T k st
  end.
Definition ends {A} (lo T : Z) (k : nat) (m : io A) : Prop :=
  ∀ st, ready lo T k st → ∃ r st', m st = Some (r, st') ∧ after lo T k r st'.

Section ends.
Context (lo T : Z) (k : nat).
Implicit Types (st : harness).
Local Notation ends := (ends lo T k).
Local Notation ready := (ready lo T k).
Local Notation after := (after lo T k).

Lemma ends_ret {A} (a : A) : ends (ret a).
Proof. intros st R. by exists (Ok a), st. Qed.
Definition plain (e : py_exc) : bool := match e with exc_interrupt | exc_exit _ | exc_killed => false | _ => true end.
Lemma ends_raise {A} e : plain e = true → ends (@raise A e).
Proof. intros He st R. exists (Err e), st. split; [done|]. by destruct e. Qed.
Lemma ends_gets {A} (f : harness → A) : ends (gets f).
Proof. intros st R. by exists (Ok (f st)), st. Qed.
Lemma ends_bind {A B} (m : io A) (f : A → io B) : ends m → (∀ a, ends (f a)) → ends (io_bind m f).
Proof.
  intros Hm Hf st R. destruct (Hm st R) as ([a|e] & st' & Hs & Ha); unfold io_bind; rewrite Hs; [by apply Hf|].
  exists (Err e), st'. split; [done|]. by destruct e.
Qed.
Lemma ends_modify f : (∀ st, ready st → ready (f st)) → ends (modify f).
Proof. intros Hf st R. eexists _, _. split; [done|]. by apply Hf. Qed.
Lemma ends_for_each {A} (xs : list A) f : (∀ x, ends (f x)) → ends (for_each xs f).
Proof. intros Hf. induction xs as [|x xs IH]; simpl; [apply ends_ret|]. by apply ends_bind. Qed.
Lemma sleep_cases ms st :
  0 ≤ ms → ready st →
  (sleep ms st = Some (Err exc_interrupt, taken_intr T st) ∧ driven k (taken_intr T st)) ∨
  (sleep ms st = Some (Ok tt, set_now (hs_now st + ms) st) ∧ ready (set_now (hs_now st + ms) st)).
Proof.
  intros Hms ([] & Hi & Hn). unfold sleep, until. rewrite Hi. destruct (Z.leb_spec T (hs_now st + ms)).
  - left. split; [done|]. by split.
  - right. split; [done|]. split; [by split|]. simpl. split; [done|lia].
Qed.
Lemma ends_sleep ms : 0 ≤ ms → ends (sleep ms).
Proof. intros Hms st R. by destruct (sleep_cases ms st Hms R) as [[-> D]|[-> R']]; eexists _, _. Qed.
Lemma ends_the_cluster : ends the_cluster.
Proof.
  intros st R. unfold the_cluster. destruct R as [D R]. destruct (dv_cluster _ _ D) as [c Hc]. rewrite Hc.
  eexists _, _. split; [done|]. by split.
Qed.
Lemma ends_the_disk i : ends (the_disk i).
Proof. intros st R. unfold the_disk. by destruct (hs_heap st !! i); eexists _, _. Qed.
Lemma ends_any_dead : ends (any_dead os).
Proof. apply ends_bind; [apply ends_the_cluster|]. intros c. apply ends_gets. Qed.
Lemma ends_check_servers : ends (check_servers os).
Proof. apply ends_bind; [apply ends_any_dead|]. intros [|? ?]; [apply ends_ret|by apply ends_raise]. Qed.
Lemma ends_is_alive i : ends (is_alive os i).
Proof.
  apply ends_bind; [apply ends_the_disk|]. intros d. destruct (dk_proc d); [|apply ends_ret].
  apply ends_bind; [apply ends_gets|]. intros rc. apply ends_ret.
Qed.

Lemma omap_alter_proc f (i : nat) (h : list CraftDisk) : (∀ d, dk_proc (f d) = dk_proc d) → omap dk_proc (alter f i h) = omap dk_proc h.
Proof.
  intros Hf. revert i. induction h as [|d h IH]; intros [|i]; simpl; [done..|by rewrite Hf|]. unfold alter in IH. by rewrite IH.
Qed.
Lemma ends_set_device i dev : ends (update_disk i (set_device dev)).
Proof.
  apply ends_modify. intros st ([Hp Hc Hh Hto Hpid] & R). split; [|done]. split; simpl; try done.
  - by rewrite length_alter.
  - by apply Forall_alter.
  - intros pid. unfold pids_of. simpl. rewrite omap_alter_proc by done. apply Hpid.
Qed.
Lemma ends_create members vol capacity lba_size : ends (create_volume_on uuid_of net members vol capacity lba_size).
Proof.
  intros st R. unfold create_volume_on. destruct (mapM _ _); [|by eexists _, _].
  destruct (registry_create _ _ _ _ _ _); eexists _, _; (split; [done|]); [|done]. destruct R as [[] R]. split; [by split|done].
Qed.

(** *** The tests *)

Hypothesis (fio_ok : ∀ a, 0 ≤ fio_time a).
Lemma ends_run_fio args : ends (timed (run_fio fio_time fio_rc args)).
Proof.
  apply ends_bind; [|intros rc; case_match; [apply ends_ret|by apply ends_raise]].
  apply ends_bind; [|intros _; apply ends_bind; [by apply ends_sleep|intros _; apply ends_ret]].
  apply ends_modify. intros st [[] R]. split; [by split|done].
Qed.
Lemma ends_run_all device : ends (run_all fio_time fio_rc device).
Proof. repeat (apply ends_bind; [|intros _]); apply ends_run_fio. Qed.
Lemma ends_run_test name device : ends (run_test fio_time fio_rc name device).
Proof.
  unfold run_test. simpl. destruct (String.eqb name "basic"); [apply ends_run_all|by apply ends_raise].
Qed.
Lemma ends_run_tests names disk : ends (run_tests fio_time fio_rc path_text names disk).
Proof.
  apply ends_for_each. intros name. apply ends_bind; [|intros dev; apply ends_run_test].
  unfold device_of. destruct disk as [i|]; [|by apply ends_raise].
  apply ends_bind; [apply ends_the_disk|intros d; apply ends_ret].
Qed.
End ends.

(** *** Waiting for the disk *)

Definition log_grows : Prop := ∀ t t' c, t ≤ t' → log t = Some c → ∃ x, log t' = Some (c ++ x).
Context (Hlog : log_grows).

Lemma log_length t t' : t ≤ t' → (length (default [] (log t)) ≤ length (default [] (log t')))%nat.
Proof.
  intros Ht. destruct (log t) as [c|] eqn:Hc; simpl; [|lia]. destruct (Hlog t t' c Ht Hc) as [x ->]. simpl.
  rewrite length_app. lia.
Qed.
Lemma readline_length s : (length (readline s) ≤ length s)%nat.
Proof. induction s as [|c s IH]; simpl; [done|]. destruct (c =? 10); simpl; lia. Qed.

Lemma wait_log_ends lo T k deadline pid fuel kk st :
  ready lo T k st → deadline - hs_now st < 50 * Z.of_nat kk → (kk < fuel)%nat →
  ∃ r st', wait_log os log fuel deadline pid st = Some (r, st') ∧ after lo T k r st'.
Proof.
  revert kk st. induction fuel as [|fuel IH]; intros kk st R Hk Hf; [lia|]. cbn [wait_log].
  destruct (log (hs_now st)); [by eexists _, _|]. destruct (Z.leb_spec deadline (hs_now st)); [by eexists _, _|].
  destruct (poll_at os st pid); [by eexists _, _|]. unfold io_bind.
  destruct (sleep_cases lo T k 50 st ltac:(lia) R) as [[-> D]|[-> R']]; [by eexists _, _|].
  apply (IH (pred kk)); [done|simpl; lia|lia].
Qed.

Lemma wait_device_ends lo T k deadline pid fuel pos kk st :
  let len := length (default [] (log deadline)) in
  ready lo T k st → deadline - hs_now st < 100 * Z.of_nat kk → (pos ≤ len)%nat → (len - pos + kk < fuel)%nat →
  ∃ r st', wait_device os log fuel deadline pid pos st = Some (r, st') ∧ after lo T k r st'.
Proof.
  intros len. revert pos kk st. induction fuel as [|fuel IH]; intros pos kk st R Hk Hp Hf; [lia|]. cbn [wait_device].
  destruct (Z.leb_spec (deadline - hs_now st) 0); [by eexists _, _|].
  destruct (poll_at os st pid); [by eexists _, _|]. destruct (cluster_dead os st); [|by eexists _, _].
  destruct (readline _) as [|c line] eqn:Hl.
  - unfold io_bind. destruct (sleep_cases lo T k 100 st ltac:(lia) R) as [[-> D]|[-> R']]; [by eexists _, _|].
    apply (IH pos (pred kk)); [done|simpl; lia|done|lia].
  - destruct (device_search _); [by eexists _, _|]. rewrite <-Hl.
    pose proof (readline_length (drop pos (default [] (log (hs_now st))))) as Hr. rewrite length_drop in Hr.
    pose proof (log_length (hs_now st) deadline ltac:(lia)) as Hg. fold len in Hg. rewrite Hl in *. simpl in *.
    apply (IH _ kk); [done|done|lia|lia].
Qed.

Lemma after_mono {A} lo lo' T k (r : result py_exc A) st : lo ≤ lo' → after lo' T k r st → after lo T k r st.
Proof. intros Hl. destruct r as [a|[]]; simpl; try done; intros (D & Hi & Hn); (split; [done|]); (split; [done|lia]). Qed.

Lemma wait_ready_ends lo T k i pid : ends lo T k (wait_ready os log i pid).
Proof.
  intros st R. unfold wait_ready, io_bind at 1, the_disk. destruct (hs_heap st !! i) as [d|] eqn:Hd; [|by eexists _, _].
  unfold io_bind at 1, gets. set (to := dk_ready_timeout d). set (deadline := hs_now st + to).
  assert (0 ≤ to) as Hto by (destruct R as [[_ _ _ Hf _] _]; by apply (Forall_lookup_1 _ _ _ _ Hf Hd)).
  assert (ready (hs_now st) T k st) as R0 by (destruct R as (D & Hi & Hn); split; [done|]; split; [done|lia]).
  assert (lo ≤ hs_now st) as Hlo by (destruct R as (_ & _ & Hn); lia).
  assert (∃ r st', (do_ wait_log os log (log_fuel to) deadline pid;
                    do dev <- wait_device os log (device_fuel log to deadline) deadline pid 0;
                    update_disk i (set_device dev)) st = Some (r, st') ∧ after (hs_now st) T k r st') as (r & st' & Hs & Ha).
  2: { exists r, st'. split; [exact Hs|]. by eapply after_mono. }
  unfold io_bind at 1.
  destruct (wait_log_ends (hs_now st) T k deadline pid (log_fuel to) (S (Z.to_nat (to `div` 50))) st R0) as ([[]|e] & st1 & -> & H1).
  { unfold deadline. pose proof (Z.div_pos to 50). pose proof (Z.mod_pos_bound to 50). pose proof (Z.div_mod to 50). lia. }
  { unfold log_fuel. lia. }
  2: { exists (Err e), st1. split; [done|]. by destruct e. }
  simpl in H1. unfold io_bind.
  destruct (wait_device_ends (hs_now st) T k deadline pid (device_fuel log to deadline) 0 (S (Z.to_nat (to `div` 100))) st1 H1)
    as ([dev|e] & st2 & -> & H2).
  { destruct H1 as (_ & _ & Hn). unfold deadline. pose proof (Z.div_pos to 100). pose proof (Z.mod_pos_bound to 100).
    pose proof (Z.div_mod to 100). lia. }
  { lia. }
  { unfold device_fuel. lia. }
  2: { exists (Err e), st2. split; [done|]. by destruct e. }
  by apply ends_set_device.
Qed.

(** *** Starting *)

Lemma dict_set_fresh {A} (u : string) (v : A) d : u ∉ d.*1 → dict_set u v d = d ++ [(u, v)].
Proof.
  induction d as [|[u' v'] d IH]; intros Hu; simpl in *; [done|]. apply not_elem_of_cons in Hu as [Hne Hu].
  by rewrite (proj2 (String.eqb_neq u u') Hne), IH.
Qed.

(** A process started and entered among the cluster's or as the disk's. *)
Lemma driven_spawn k st cmd f :
  driven k st → is_Some (hs_cluster (f st)) → length (hs_heap (f st)) = k → Forall (λ d, 0 ≤ dk_ready_timeout d) (hs_heap (f st)) →
  hs_procs (f st) = hs_procs st ++ [Mk_proc cmd (hs_now st) None None] →
  (∀ pid, pid ∈ pids_of (f st) ↔ pid ∈ pids_of st ∨ pid = length (hs_procs st)) → driven k (f st).
Proof.
  intros [Hp Hc Hh Hto Hpid] Hc' Hh' Hto' Hps Hpids. split; try done.
  - rewrite Hps. apply Forall_app. split; [done|]. by repeat constructor.
  - intros pid. rewrite Hpids, Hpid, Hps, length_app. simpl. lia.
Qed.

Lemma start_one_ends lo T k m st c :
  ready lo T k st → hs_cluster st = Some c → mc_uuid m ∉ (cm_procs c).*1 →
  ∃ r st', start_one can_exec m st = Some (r, st') ∧ after lo T k r st' ∧
    (r = Ok tt → ∃ pid, hs_cluster st' = Some (track (mc_uuid m) pid c)).
Proof.
  intros (D & R) Hc Hu. unfold start_one, io_bind, the_cluster. rewrite Hc. unfold Popen.
  destruct (can_exec _); [|by eexists _, _]. eexists _, _. split; [done|]. split; [|intros _; eexists; done].
  split; [|done]. eapply (driven_spawn k st (server_cmd c m) (λ st, set_cluster _ (set_procs _ st)) D); simpl; try done; try apply D.
  intros pid. unfold pids_of. simpl. rewrite Hc, dict_set_fresh by done. rewrite fmap_app, !elem_of_app. simpl. set_solver.
Qed.

Lemma start_all_ends lo T k ms st c :
  ready lo T k st → hs_cluster st = Some c → NoDup (mc_uuid <$> ms) → (∀ u, u ∈ mc_uuid <$> ms → u ∉ (cm_procs c).*1) →
  ∃ r st', for_each ms (start_one can_exec) st = Some (r, st') ∧ after lo T k r st'.
Proof.
  revert st c. induction ms as [|m ms IH]; intros st c R Hc Hnd Hu; simpl; [by eexists _, _|].
  inversion Hnd as [|? ? Hm Hnd']; subst. unfold io_bind.
  destruct (start_one_ends lo T k m st c R Hc) as ([[]|e] & st1 & -> & H1 & Hcl); [apply Hu; by left| |].
  - destruct (Hcl eq_refl) as [pid Hc1]. apply (IH st1 _ H1 Hc1 Hnd'). intros u Hin. simpl.
    rewrite dict_set_fresh by (apply Hu; by left). rewrite fmap_app, not_elem_of_app. simpl. split; [apply Hu; by right|].
    intros ->%list_elem_of_singleton. done.
  - exists (Err e), st1. split; [done|]. by destruct e.
Qed.

Lemma disk_start_ends lo T st d :
  ready lo T 1 st → hs_heap st = [d] → dk_proc d = None →
  ∃ r st', disk_start os can_exec log 0 st = Some (r, st') ∧ after lo T 1 r st'.
Proof.
  intros (D & R) Hh Hp. unfold disk_start, io_bind at 1, the_disk. rewrite Hh. simpl. unfold io_bind at 1, Popen.
  destruct (can_exec _); [|by eexists _, _]. unfold io_bind, update_disk, modify. apply wait_ready_ends.
  split; [|done]. pose proof (dv_timeout _ _ D) as Hto. rewrite Hh in Hto. inversion Hto; subst.
  eapply (driven_spawn 1 st (disk_cmd d) (λ st, set_heap _ (set_procs _ st)) D); simpl; rewrite ?Hh; try done; try apply D.
  - by repeat constructor.
  - intros pid. unfold pids_of. simpl. rewrite Hh. simpl. rewrite Hp. rewrite app_nil_r. set_solver.
Qed.

Lemma watch_ends lo T k disk fuel st :
  ready lo T k st → T - hs_now st < 1000 * Z.of_nat fuel →
  ∃ r st', watch os fuel disk st = Some (r, st') ∧ after lo T k r st'.
Proof.
  revert st. induction fuel as [|fuel IH]; intros st R Hf; [destruct R as (_ & _ & ?); lia|]. cbn [watch]. unfold io_bind at 1.
  destruct (sleep_cases lo T k 1000 st ltac:(lia) R) as [[-> D]|[-> R']]; [by eexists _, _|].
  set (st1 := set_now _ st) in *. assert (T - hs_now st1 < 1000 * Z.of_nat fuel) as Hf1 by (simpl; lia).
  set (alive := match disk with None => ret tt | Some i => do a <- is_alive os i; if a then ret tt else raise exc_runtime end).
  assert (ends (hs_now st1) T k (do_ check_servers os; alive)) as He.
  { apply ends_bind; [apply ends_check_servers|]. intros _. unfold alive. destruct disk as [i|]; [|apply ends_ret].
    apply ends_bind; [apply ends_is_alive|]. intros []; [apply ends_ret|by apply ends_raise]. }
  assert (ready (hs_now st1) T k st1) as R1 by (destruct R' as (D & Hi & Hn); split; [done|]; split; [done|lia]).
  assert (lo ≤ hs_now st1) as Hlo by (destruct R' as (_ & _ & Hn); lia).
  destruct (He st1 R1) as (r & st2 & H2 & A2). unfold io_bind in H2 |- *. fold alive.
  destruct (check_servers os st1) as [[[[]|e] st3]|]; [|injection H2 as <- <-|done].
  - rewrite H2. destruct r as [[]|e]; [|exists (Err e), st2; split; [done|]; by eapply after_mono].
    apply IH; [by apply (after_mono lo _ _ _ (Ok tt) _ Hlo)|]. destruct A2 as (_ & _ & Hn). lia.
  - exists (Err e), st3. split; [done|]. by eapply after_mono.
Qed.

(** *** The handlers *)

Lemma disk_stop_later st d :
  hs_intr st = None → hs_heap st = [d] → (∀ pid, dk_proc d = Some pid → pid < length (hs_procs st))%nat →
  ∃ st', disk_stop os 0 st = Some (Ok tt, st') ∧ later st st' ∧ ∀ pid, dk_proc d = Some pid → exited st' pid.
Proof.
  intros Hi Hh Hlt. unfold disk_stop, io_bind at 1, the_disk. rewrite Hh. simpl.
  destruct (dk_proc d) as [pid|]; [|by exists st; split; [done|split; [apply later_refl|]]].
  unfold io_bind, poll, gets. destruct (poll_at os st pid) as [rc|] eqn:Hp.
  { exists st. split; [done|]. split; [apply later_refl|]. intros ? [= <-]. by exists rc. }
  unfold send_sigterm, modify. set (st1 := set_procs _ st).
  assert (later st st1) as L1 by (apply later_alter; intros; apply signalled_term).
  destruct (reap_later pid st1) as (st2 & -> & L2 & E2 & _); [done|rewrite (lt_length _ _ L1); by apply Hlt|].
  exists st2. split; [done|]. split; [by eapply later_compose|]. by intros ? [= <-].
Qed.

(** The disk variable of [run] and the number of disk objects. *)
Definition disk_var (disk : option nat) (k : nat) : Prop :=
  disk = None ∧ k = 0%nat ∨ disk = Some 0%nat ∧ k = 1%nat.

Lemma on_interrupt_later k disk st :
  driven k st → hs_intr st = None → disk_var disk k →
  ∃ st', on_interrupt os disk st = Some (Ok tt, st') ∧ length (hs_procs st') = length (hs_procs st) ∧
    ∀ pid, (pid < length (hs_procs st'))%nat → exited st' pid.
Proof.
  intros D Hi Hd. destruct (dv_cluster _ _ D) as [c Hc]. pose proof (dv_pids _ _ D) as Hpids. unfold pids_of in Hpids. rewrite Hc in Hpids.
  assert (∃ st1, (match disk with None => ret tt | Some i => disk_stop os i end) st = Some (Ok tt, st1) ∧ later st st1 ∧
            ∀ pid, pid ∈ omap dk_proc (hs_heap st) → exited st1 pid) as (st1 & H1 & L1 & E1).
  { pose proof (dv_heap _ _ D) as Hk. destruct Hd as [[-> ->]|[-> ->]]; destruct (hs_heap st) as [|d [|]] eqn:Hh; try done.
    - exists st. split; [done|]. split; [apply later_refl|]. by intros pid ?%elem_of_nil.
    - destruct (disk_stop_later st d Hi Hh) as (st1 & H1 & L1 & E1).
      { intros pid Hp. apply Hpids, elem_of_app. right. simpl. rewrite Hp. by left. }
      exists st1. split; [done|]. split; [done|]. intros pid. simpl. destruct (dk_proc d) as [p|]; [|by intros ?%elem_of_nil].
      intros ->%list_elem_of_singleton. by apply E1. }
  unfold on_interrupt, io_bind. rewrite H1.
  destruct (shutdown_later st1 c) as (st2 & -> & L2 & E2 & _).
  { by rewrite (lt_intr _ _ L1). }
  { by rewrite (lt_cluster _ _ L1). }
  { apply Forall_forall. intros pid Hin. rewrite (lt_length _ _ L1). apply Hpids, elem_of_app. by left. }
  pose proof (lt_length _ _ L1) as N1. pose proof (lt_length _ _ L2) as N2.
  exists st2. split; [done|]. split; [lia|]. intros pid Hlt. rewrite N2, N1 in Hlt.
  apply Hpids, elem_of_app in Hlt as [Hin|Hin]; [by eapply Forall_forall in E2|]. eapply later_exited; [done|]. by apply E1.
Qed.

(** What [run] leaves behind. *)
Definition run_left (r : result py_exc unit) (st : harness) : Prop :=
  match r with
  | Ok _ => ∀ pid, (pid < length (hs_procs st))%nat → exited st pid
  | Err (exc_exit c) => c = 1 ∧ Forall unsignalled (hs_procs st)
  | Err _ => hs_procs st = []
  end.

Lemma handled lo T k disk (m : io unit) st r st' :
  m st = Some (r, st') → after lo T k r st' → disk_var disk k → r ≠ Ok tt →
  ∃ r st', try_except m (on_interrupt os disk) on_exception st = Some (r, st') ∧ run_left r st'.
Proof.
  intros Hm Ha Hd Hr. unfold try_except. rewrite Hm. destruct r as [[]|e]; [done|]. destruct e; try done.
  { destruct Ha as [D Hi]. destruct (on_interrupt_later k disk st' D Hi Hd) as (st2 & H2 & _ & E2). by exists (Ok tt), st2. }
  all: eexists _, _; split; [done|]; split; [done|]; apply Ha.
Qed.

Lemma bind_ok {A B} (m : io A) (f : A → io B) st b st' :
  io_bind m f st = Some (Ok b, st') → ∃ a st1, m st = Some (Ok a, st1) ∧ f a st1 = Some (Ok b, st').
Proof. unfold io_bind. destruct (m st) as [[[a|e] st1]|]; [eauto|done..]. Qed.

Lemma watch_forever disk fuel st st' : watch os fuel disk st ≠ Some (Ok tt, st').
Proof.
  revert st. induction fuel as [|fuel IH]; intros st; cbn [watch]; [done|].
  intros (? & ? & _ & (? & ? & _ & (? & ? & _ & H)%bind_ok)%bind_ok)%bind_ok. by apply IH in H.
Qed.

Lemma attach_cases lo T args vol st :
  ready lo T 0 st →
  ∃ r st', attach_disk uuid_text args vol st = Some (r, st') ∧
    match r with
    | Ok None => ready lo T 0 st'
    | Ok (Some i) => i = 0%nat ∧ ready lo T 1 st' ∧ ∃ d, hs_heap st' = [d] ∧ dk_proc d = None
    | Err e => plain e = true ∧ ready lo T 0 st'
    end.
Proof.
  intros R. unfold attach_disk. destruct (ar_craft_disk_binary args) as [bin|]; [|by eexists _, _].
  unfold mk_craft_disk. destruct (log_level_dict _) as [lvl|]; [|by eexists _, _].
  unfold io_bind, gets, modify. eexists _, _. split; [done|]. destruct R as ([Hp Hc Hh Hto Hpid] & R).
  apply nil_length_inv in Hh. simpl. rewrite Hh. split; [done|]. split; [|by eexists].
  split; [|done]. split; simpl; rewrite ?Hh; try done; [by repeat constructor|].
  intros pid. rewrite <-Hpid. unfold pids_of. simpl. by rewrite Hh.
Qed.

Lemma run_rest_ends lo T args vol fuel disk st k :
  (∀ a, 0 ≤ fio_time a) → 0 ≤ ar_startup_wait args → T - lo < 1000 * Z.of_nat fuel → ready lo T k st → disk_var disk k →
  (disk = None ∨ ∃ d, hs_heap st = [d] ∧ dk_proc d = None) →
  ∃ r st', run_rest os can_exec log fio_time fio_rc uuid_text path_text fuel args vol disk st = Some (r, st') ∧
    after lo T k r st' ∧ r ≠ Ok tt.
Proof.
  intros Hfio Hw Hf R Hd Hh. unfold run_rest, io_bind at 1.
  assert (∃ r st1, start_disk os can_exec log uuid_text vol disk st = Some (r, st1) ∧ after lo T k r st1) as ([[]|e] & st1 & -> & H1).
  { destruct Hd as [[-> ->]|[-> ->]]; [by eexists _, _|]. destruct Hh as [?|(d & Hh & Hp)]; [done|].
    unfold start_disk, io_bind. destruct (disk_start_ends lo T st d R Hh Hp) as ([[]|e] & st1 & -> & H1).
    - eexists _, _. split; [done|]. destruct H1 as [[] H1]. split; [by split|done].
    - exists (Err e), st1. split; [done|]. by destruct e. }
  2: { exists (Err e), st1. split; [done|]. split; [by destruct e|done]. }
  assert (ends lo T k (do_ sleep (ar_startup_wait args); run_tests fio_time fio_rc path_text (ar_run_test args) disk)) as He
    by (apply ends_bind; [by apply ends_sleep|intros _; by apply ends_run_tests]).
  destruct (He st1 H1) as (r & st2 & H2 & A2). unfold io_bind in H2 |- *.
  destruct (sleep (ar_startup_wait args) st1) as [[[[]|e] st3]|]; [|injection H2 as <- <-|done].
  - rewrite H2. destruct r as [[]|e]; [|by exists (Err e), st2].
    destruct (watch_ends lo T k disk fuel st2 A2) as (r & st4 & H4 & A4); [destruct A2 as (_ & _ & Hn); lia|].
    exists r, st4. split; [done|]. split; [done|]. intros ->. by apply watch_forever in H4.
  - by exists (Err e), st3.
Qed.

Lemma run_setup_ends lo T args members vol st c :
  0 ≤ ar_startup_wait args → NoDup (mc_uuid <$> members) → ready lo T 0 st → hs_cluster st = Some c →
  cm_members c = members → cm_procs c = [] →
  ∃ r st', run_setup os can_exec uuid_of uuid_text net args members vol st = Some (r, st') ∧
    match r with
    | Ok disk => ∃ k, disk_var disk k ∧ ready lo T k st' ∧ (disk = None ∨ ∃ d, hs_heap st' = [d] ∧ dk_proc d = None)
    | Err e => after (A := unit) lo T 0 (Err e) st'
    end.
Proof.
  intros Hw Hnd R Hc Hm Hps. unfold run_setup, io_bind at 1, start_all, io_bind at 1, the_cluster. rewrite Hc, Hm.
  destruct (start_all_ends lo T 0 members st c R Hc Hnd) as ([[]|e] & st1 & -> & H1).
  { intros u _. rewrite Hps. by apply not_elem_of_nil. }
  2: { by exists (Err e), st1. }
  assert (ends lo T 0 (do_ sleep (ar_startup_wait args); do_ check_servers os;
            do_ create_volume_on uuid_of net members vol (ar_capacity args) (ar_lba_size args); sleep (ar_startup_wait args))) as He.
  { repeat (apply ends_bind; [|intros _]);
      first [by apply ends_sleep|apply ends_check_servers|apply ends_create]. }
  destruct (He st1 H1) as (r & st2 & H2 & A2). unfold io_bind in H2 |- *.
  repeat match type of H2 with
         | match ?m with _ => _ end = _ => destruct m as [[[[]|?e] ?st']|]; [|injection H2 as <- <-; by eexists _, _|done]
         end.
  rewrite H2. destruct r as [[]|e]; [|by exists (Err e), st2].
  destruct (attach_cases lo T args vol st2 A2) as (r & st3 & -> & H3). exists r, st3. split; [done|].
  destruct r as [[i|]|e]; [destruct H3 as (-> & R3 & Hd)|..].
  - exists 1%nat. split; [by right|]. split; [done|]. by right.
  - exists 0%nat. split; [by left|]. split; [done|]. by left.
  - destruct H3 as [Hp R3]. by destruct e.
Qed.

End runs.

(** ** The server the driver starts *)

Definition plain_value (v : string) : Prop := match v with EmptyString => False | String c _ => Ascii.nat_of_ascii c ≠ 45%nat end.
Definition pairs_argv (kvs : list (string * string)) : list string := kvs ≫= λ kv, ["--" +:+ kv.1; kv.2]%string.
(** The options library: a long option followed by its value has that value, the others have
    none; a decimal number is read as the number. *)
Class OptionParser := {
  parse_option : list string → string → option string;
  parse_number : string → option Z;
  parse_pairs bin kvs name : NoDup kvs.*1 → Forall (λ kv, plain_value kv.2) kvs →
    parse_option (bin :: pairs_argv kvs) name = dict_get name kvs;
  parse_decimal p : 0 ≤ p → parse_number (pretty p) = Some p;
}.

Section start.
Context `{OP : !OptionParser}.
(** [SISL_OPTIONS_LOAD]: the defaults, and [None] for a value that is not a number of the
    option's width ([value<uint16_t>] and the like), which throws. *)
Definition number_option (w : Z) (argv : list string) (name : string) (default : Z) : option Z :=
  match parse_option argv name with
  | None => Some default
  | Some v => n ← parse_number v; if decide (0 ≤ n < 2 ^ w) then Some n else None
  end.
Definition load_options (argv : list string) : option srv_options :=
  port ← number_option 16 argv "port" 0;
  capacity ← number_option 64 argv "capacity" 0;
  lba_size ← number_option 32 argv "lba_size" 4096;
  max_tx ← number_option 32 argv "max_tx" 0;
  Some (Mk_srv_options port (parse_option argv "server_uuid") (parse_option argv "server_config_file") capacity lba_size max_tx
          (parse_option argv "log_mods")).

Definition server_pairs (c : ClusterManager) (m : member_cfg) : list (string * string) :=
  [("port", pretty (mc_tcp_port m)); ("server_config_file", cm_config_path c); ("server_uuid", mc_uuid m);
   ("log_mods", cm_log_args c)]%string.

Lemma pretty_plain p : 0 ≤ p → plain_value (pretty p).
Proof.
  intros Hp. destruct (pretty_port p Hp) as (Hd & Hne & _). unfold plain_value. destruct (pretty p) as [|a s]; [done|].
  inversion Hd as [|? ? H1 _]; subst. intros Ha. rewrite Ha in H1. by destruct H1.
Qed.

(** C32: The servers the driver starts are the ones its configuration names.  For a member
    whose uuid is one and a configuration path, neither of which begins with a dash, the
    command line the driver builds, read by the reference server's options: with a port above
    65535 the server refuses the command line, and with port 0 it exits with 2; otherwise,
    where its socket can be bound, it listens on the member's port under the member's uuid,
    with the registry of the configuration file, volumes of 1 GiB in blocks of 4096 bytes and
    the wire's default transfer limit, and [nuraft_mesg] at the level the driver asked for. *)
Theorem driver_starts_server bin config members verbose c m uuid_of random_id files fd reg rs k id :
  mk_cluster_manager bin config members verbose = Ok c → plain_value config → plain_value (mc_uuid m) →
  0 ≤ mc_tcp_port m → uuid_of (mc_uuid m) = Some id →
  match load_options (server_cmd c m) with
  | None => 2 ^ 16 ≤ mc_tcp_port m
  | Some o =>
      mc_tcp_port m < 2 ^ 16 ∧
      match reference_main uuid_of random_id files (Some fd) true reg rs k o with
      | (ss_serving b, _) =>
          mc_tcp_port m ≠ 0 ∧ bt_listener b = Mk_listener (Some fd) (mc_tcp_port m) ∧ bt_quiet b = ["grpc_server"%string] ∧
          bt_server b = mk_server (Mk_geometry (2 ^ 30) 4096 k_default_max_tx
                                     (Mk_member id (host_port (string_bytes "127.0.0.1") (mc_tcp_port m))))
                                  (start_replica_service (files config) reg)
      | (ss_return code, _) => mc_tcp_port m = 0 ∧ code = 2
      | (ss_uncaught, _) => False
      end
  end.
Proof.
  intros Hc Hcfg Hu Hp Hid. unfold mk_cluster_manager in Hc. destruct (log_level_dict verbose) as [lvl|] eqn:Hl; [|done].
  injection Hc as <-. set (c := Mk_cluster _ _ _ _ _).
  change (server_cmd c m) with (bin :: pairs_argv (server_pairs c m)).
  assert (∀ name, parse_option (bin :: pairs_argv (server_pairs c m)) name = dict_get name (server_pairs c m)) as Hget.
  { intros name. apply parse_pairs; [by_eval|]. repeat constructor; simpl; try done. by apply pretty_plain. }
  unfold load_options, number_option. rewrite !Hget. simpl. rewrite parse_decimal by done. simpl.
  case_decide as Hw; simpl; [|lia]. split; [lia|]. unfold reference_main, option_id. simpl. rewrite Hid.
  destruct (Z.eqb_spec (mc_tcp_port m) 0); [done|].
  unfold tcp_server_ctor. rewrite bool_decide_false by (intros ->; done). simpl. split_and!; try done.
  unfold log_level_dict in Hl. by repeat case_match; simplify_eq.
Qed.
End start.

(** An options library that reads pairs. *)
Fixpoint scan_pairs (argv : list string) (name : string) : option string :=
  match argv with
  | o :: v :: argv => if String.eqb ("--" +:+ name) o then Some v else scan_pairs argv name
  | _ => None
  end.
Lemma scan_pairs_get kvs name : scan_pairs (pairs_argv kvs) name = dict_get name kvs.
Proof.
  induction kvs as [|[n v] kvs IH]; [done|]. unfold pairs_argv in *. cbn [mbind list_bind app scan_pairs dict_get fst snd].
  rewrite IH. cbn. done.
Qed.
Definition simple_parser : OptionParser.
Proof.
  refine {| parse_option argv := scan_pairs (tail argv); parse_number s := Some (digits 0 (string_bytes s)) |}.
  - intros bin kvs name _ _. apply scan_pairs_get.
  - intros p Hp. f_equal. by apply pretty_port.
Defined.

(** ** Runs

    Two servers and a disk; server 1 ignores SIGTERM. *)
Definition run_members : list member_cfg :=
  [Mk_member_cfg "u0" (string_bytes "h") 10 20; Mk_member_cfg "u1" (string_bytes "h") 11 21]%string.
Definition run_uuid_of (s : string) : option (list Z) := Some (take 16 (string_bytes s ++ replicate 16 0)).
Definition run_args : driver_args :=
  Mk_args "cfg.json" "./craft_reference_tcp_srv" (Some "./ublkpp_disk"%string) 1000 None (2 ^ 30) 4096 false ["basic"%string] false 2.
Definition run_os (pid : nat) : behaviour := Mk_behaviour None (if decide (pid = 1%nat) then None else Some (20, 0)).
Definition device_line (n : string) : list Z := string_bytes ("exposed as UBD device: [/dev/ublkb" +:+ n +:+ "]") ++ [10].
Definition run_log (t : Z) : option (list Z) := if t <? 3000 then None else Some (device_line "3").
(** A server that creates every volume. *)
Definition run_net (_ : list Z) (_ : Z) (_ : list Z) : option (list (list Z)) := Some [[16; 0; 1; 0; 0; 0; 0; 0]].
Definition run_state : harness := Mk_harness 0 [] (Some 20000) None [] ∅ [] [].
Definition run_result (members : list member_cfg) : option (result py_exc unit * harness) :=
  run run_os (λ _, true) run_log (λ _, 100) (λ _, 0) run_uuid_of (replicate 16 9) (λ _, "vol"%string) (λ _, "dev"%string) run_net
    30 run_args members run_state.

Lemma driver_starts_server_witness :
  match load_options (OP := simple_parser)
      ["srv"; "--port"; "20"; "--server_config_file"; "cfg"; "--server_uuid"; "u0"; "--log_mods"; "base:info,nuraft_mesg:info"]%string with
  | None => False
  | Some o =>
      match reference_main run_uuid_of [] (λ _, None) (Some 3%nat) true (Mk_replica_manager ∅ ∅) mk_raft_service (Mk_kernel ∅ ∅ 0) o with
      | (ss_serving b, _) => ls_port (bt_listener b) = 20
      | _ => False
      end
  end.
Proof.
  pose proof (driver_starts_server (OP := simple_parser) "srv" "cfg" run_members 2
    (Mk_cluster "srv" "cfg" run_members "base:info,nuraft_mesg:info" []) (Mk_member_cfg "u0" (string_bytes "h") 10 20) run_uuid_of [] (λ _, None) 3
    (Mk_replica_manager ∅ ∅) mk_raft_service (Mk_kernel ∅ ∅ 0) (take 16 (string_bytes "u0" ++ replicate 16 0))
    eq_refl ltac:(done) ltac:(done) ltac:(by_eval) eq_refl) as H.
  change (server_cmd _ _) with
    ["srv"; "--port"; "20"; "--server_config_file"; "cfg"; "--server_uuid"; "u0"; "--log_mods"; "base:info,nuraft_mesg:info"]%string in H.
  destruct (load_options _) as [o|]; [|simpl in H; lia]. destruct H as [_ H].
  destruct (reference_main _ _ _ _ _ _ _ _ o) as [[code| |b] k']; [by destruct H|done|]. by destruct H as (_ & -> & _).
Defined.

Lemma run_log_grows : log_grows run_log.
Proof.
  intros t t' c Ht. unfold run_log. destruct (Z.ltb_spec t 3000); [done|]. intros [= <-].
  destruct (Z.ltb_spec t' 3000); [lia|]. exists []. by rewrite app_nil_r.
Qed.


(** A line of the log that is read in two parts is not recognised: the device is in the file
    from 3050 on, and the driver gives up at its deadline. *)
Definition cut_log (t : Z) : option (list Z) :=
  if t <? 3000 then None else if t <? 3050 then Some (take 20 (device_line "3")) else Some (device_line "3").
Definition waiting : harness := Mk_harness 3000 [Mk_proc ["disk"%string] 0 None None] None None [] ∅ [] [].
Theorem cut_line_missed :
  device_search (device_line "3") = Some (string_bytes "/dev/ublkb3") ∧
  (fst <$> wait_device run_os cut_log (device_fuel cut_log 15000 15000) 15000 0 0 waiting) = Some (Err exc_timeout).
Proof. split; vm_compute; reflexivity. Qed.

(** A line that an earlier run left in the log is taken for this run's device. *)
Theorem stale_line_taken :
  (fst <$> wait_device run_os (λ _, Some (device_line "7")) 200 15000 0 0 waiting) = Some (Ok (string_bytes "/dev/ublkb7")).
Proof. vm_compute. reflexivity. Qed.

(** With a repeated uuid the first of the two servers is lost to the driver: after the
    Ctrl-C it is still running. *)
Theorem repeated_uuid_leaks :
  match run_result [Mk_member_cfg "u0" (string_bytes "h") 10 20; Mk_member_cfg "u0" (string_bytes "h") 11 21]%string with
  | Some (Ok _, st) => poll_at run_os st 0 = None ∧ length (hs_procs st) = 3%nat
  | _ => False
  end.
Proof. vm_compute. split; reflexivity. Qed.

(** A Ctrl-C between a server's start and its entry in [procs]: the handler stops the servers
    it knows, and this one is still running. *)
Definition interrupted_start (m : member_cfg) : io unit :=
  do c <- the_cluster; do_ Popen (λ _, true) (server_cmd c m); raise exc_interrupt.
Theorem unrecorded_server_leaks m c st :
  hs_cluster st = Some c → cm_procs c = [] →
  ∃ st', try_except (interrupted_start m) (on_interrupt run_os None) on_exception st = Some (Ok tt, st') ∧
    hs_procs st' = hs_procs st ++ [Mk_proc (server_cmd c m) (hs_now st) None None].
Proof.
  intros Hc Hp. unfold try_except, interrupted_start, the_cluster, io_bind. rewrite Hc. simpl.
  unfold on_interrupt, shutdown, the_cluster, io_bind, ret. simpl. rewrite Hc, Hp. simpl. by eexists.
Qed.

(** [--run-test] without a disk raises: there is no device to give the test. *)
Theorem test_without_disk (t r : list string → Z) path name names st :
  run_tests t r path (name :: names) None st = Some (Err exc_attribute, st).
Proof. done. Qed.

(** ** [--cleanup] *)

(** Every process of either program is killed, unless the driver's own command line names
    one of them. *)
Theorem cleanup_kills os self st :
  contains "craft_reference_tcp_srv" self = false → contains "ublkpp_disk" self = false →
  ∃ st', cleanup_stray_processes self st = Some (Ok tt, st') ∧ hs_now st' = hs_now st ∧
    ∀ pid p, hs_procs st !! pid = Some p → Exists (λ n, contains n (cmdline (pr_cmd p)) = true) stray_names → exited os st' pid.
Proof.
  intros H1 H2. unfold cleanup_stray_processes, stray_names. cbn [for_each]. unfold io_bind, pkill. rewrite H1, H2.
  eexists. split; [done|]. split; [done|]. intros pid p Hp Hn. apply exited_iff. simpl. rewrite !list_lookup_fmap, Hp. simpl.
  eexists. split; [done|]. assert (∀ q, exits_by (os pid) (killed (hs_now st) q) (hs_now st)) as Hk.
  { intros q. apply exits_by_iff. right. right. eexists. split; [done|]. destruct (pr_kill q); simpl; lia. }
  inversion Hn as [? ? Hc|? ? Hn']; subst.
  - rewrite Hc. simpl. case_match; apply Hk.
  - inversion Hn' as [? ? Hc|? ? Hn'']; subst; [|by inversion Hn''].
    destruct (contains "craft_reference_tcp_srv" (cmdline (pr_cmd p))); simpl; rewrite Hc; apply Hk.
Qed.

(** Run again with the same arguments and [--cleanup], the driver kills itself with the
    servers, and the disk goes on. *)
Definition rerun : string := "python3 main.py --tcp_srv_binary ./craft_reference_tcp_srv --craft_disk_binary ./ublkpp_disk --cleanup".
Theorem cleanup_kills_itself :
  match cleanup_stray_processes rerun
          (Mk_harness 0 [Mk_proc ["./craft_reference_tcp_srv"] 0 None None; Mk_proc ["./ublkpp_disk"] 0 None None]%string None None [] ∅ [] []) with
  | Some (r, st) => r = Err exc_killed ∧ (pr_kill <$> hs_procs st) = [Some 0; None]
  | None => False
  end.
Proof. vm_compute. split; reflexivity. Qed.
