(* ===== verification/CommitWorker.v ===== *)
(** * The commit worker's thread

    [RaftReplica::RaftCommitWorker] of [src/raft/raft_replica.cpp]: a queue of tasks under a
    lock, a thread that waits on it with a stop token, and the threads that push.  The
    accesses interleave step by step. *)

From S2P Require Import Prelude Codec WireTypes Wire Types Replica Raft.

Local Open Scope craft_scope.

(** Where the thread is: at the test of the token, in [cv_.wait], holding a task, returned. *)
Inductive worker_pc := wp_test | wp_wait | wp_task (t : commit_task) | wp_returned.
Record RaftCommitWorker := Mk_commit_worker {
  cw_queue : list commit_task;
  cw_stop : bool;
  cw_pc : worker_pc;
  cw_done : list commit_task;    (* the tasks run, in order *)
}.
Definition new_worker : RaftCommitWorker := Mk_commit_worker [] false wp_test [].

Inductive worker_event := we_push (t : commit_task) | we_stop | we_thread.

(** One step of [run]: the predicate of the wait holds, or the token ends it. *)
Definition worker_thread (w : RaftCommitWorker) : option RaftCommitWorker :=
  match cw_pc w with
  | wp_test => Some (Mk_commit_worker (cw_queue w) (cw_stop w) (if cw_stop w then wp_returned else wp_wait) (cw_done w))
  | wp_wait =>
      match cw_queue w with
      | t :: q => Some (Mk_commit_worker q (cw_stop w) (wp_task t) (cw_done w))
      | [] => if cw_stop w then Some (Mk_commit_worker [] true wp_returned (cw_done w)) else None
      end
  | wp_task t => Some (Mk_commit_worker (cw_queue w) (cw_stop w) wp_test (cw_done w ++ [t]))
  | wp_returned => None
  end.
Definition worker_exec (w : RaftCommitWorker) (e : worker_event) : option RaftCommitWorker :=
  match e with
  | we_push t => Some (Mk_commit_worker (cw_queue w ++ [t]) (cw_stop w) (cw_pc w) (cw_done w))
  | we_stop => Some (Mk_commit_worker (cw_queue w) true (cw_pc w) (cw_done w))
  | we_thread => worker_thread w
  end.
Fixpoint worker_run (w : RaftCommitWorker) (es : list worker_event) : option RaftCommitWorker :=
  match es with [] => Some w | e :: es => w ← worker_exec w e; worker_run w es end.

Definition pushed (es : list worker_event) : list commit_task :=
  omap (λ e, match e with we_push t => Some t | _ => None end) es.
Definition in_hand (w : RaftCommitWorker) : list commit_task := match cw_pc w with wp_task t => [t] | _ => [] end.
(** Done, in hand and queued are what was pushed, in order. *)
Lemma worker_exec_tasks w e w' :
  worker_exec w e = Some w' →
  cw_done w' ++ in_hand w' ++ cw_queue w' = cw_done w ++ in_hand w ++ cw_queue w ++ pushed [e].
Proof.
  destruct w as [q st pc dn]. destruct e; cbn; unfold worker_thread, in_hand; simpl.
  - intros [= <-]. simpl. done.
  - intros [= <-]. simpl. by rewrite app_nil_r.
  - rewrite app_nil_r. destruct pc; simpl; try done.
    + intros [= <-]. simpl. by destruct st.
    + destruct q; [destruct st; [|done]|]; by intros [= <-].
    + intros [= <-]. simpl. by rewrite <-app_assoc.
Qed.

Lemma worker_run_tasks w es w' :
  worker_run w es = Some w' →
  cw_done w' ++ in_hand w' ++ cw_queue w' = (cw_done w ++ in_hand w ++ cw_queue w) ++ pushed es.
Proof.
  revert w. induction es as [|e es IH]; intros w; simpl; [intros [= <-]; by rewrite app_nil_r|].
  destruct (worker_exec w e) as [w1|] eqn:He; simpl; [|done]. intros Hr. rewrite (IH w1 Hr), (worker_exec_tasks _ _ _ He).
  unfold pushed. simpl. destruct e; simpl; by rewrite <-!app_assoc, ?app_nil_r.
Qed.

Lemma worker_stop_kept w es w' : worker_run w es = Some w' → we_stop ∉ es → cw_stop w' = cw_stop w.
Proof.
  revert w. induction es as [|e es IH]; intros w; simpl; [by intros [= <-]|]. intros Hr [Hne Hin]%not_elem_of_cons.
  destruct (worker_exec w e) as [w1|] eqn:He; simpl in Hr; [|done]. rewrite (IH w1 Hr Hin).
  destruct e; cbn in He; [by injection He as <-|done|]. unfold worker_thread in He.
  destruct (cw_pc w); [|destruct (cw_queue w) as [|]; [destruct (cw_stop w); [|done]|]| |done]; by injection He as <-.
Qed.
Lemma not_returned w es w' :
  worker_run w es = Some w' → cw_stop w = false → we_stop ∉ es → cw_pc w ≠ wp_returned → cw_pc w' ≠ wp_returned.
Proof.
  revert w. induction es as [|e es IH]; intros w; simpl; [by intros [= <-]|]. intros Hr Hs [Hne Hin]%not_elem_of_cons Hp.
  destruct (worker_exec w e) as [w1|] eqn:He; simpl in Hr; [|done].
  assert (cw_stop w1 = false ∧ cw_pc w1 ≠ wp_returned) as [? ?]; [|by eapply IH].
  destruct e; cbn in He; [by injection He as <-|done|]. unfold worker_thread in He. rewrite Hs in He.
  destruct (cw_pc w); [|destruct (cw_queue w) as [|]; [done|]| |done]; by injection He as <-.
Qed.

(** Three steps of the thread run the first task. *)
Lemma worker_takes w t q :
  cw_stop w = false → cw_pc w = wp_test → cw_queue w = t :: q →
  worker_run w [we_thread; we_thread; we_thread] = Some (Mk_commit_worker q false wp_test (cw_done w ++ [t])).
Proof. destruct w as [q0 st pc dn]. simpl. intros -> -> ->. done. Qed.
Lemma worker_drains w :
  cw_stop w = false → cw_pc w = wp_test →
  worker_run w (replicate (3 * length (cw_queue w)) we_thread) = Some (Mk_commit_worker [] false wp_test (cw_done w ++ cw_queue w)).
Proof.
  destruct w as [q st pc dn]. simpl. intros -> ->. revert dn. induction q as [|t q IH]; intros dn; simpl; [by rewrite app_nil_r|].
  replace (length q + S (length q + S (length q + 0)))%nat with (S (S (3 * length q)))%nat by lia. simpl.
  rewrite IH. by rewrite <-app_assoc.
Qed.

(** The worker runs the tasks that are pushed once each and in the order they were pushed,
    and it never sleeps on one: at every moment the tasks run, the one in hand and the
    queued ones are the pushed ones in order; and until a stop is requested, steps of the
    thread alone run them all. *)
Theorem worker_runs_all es w :
  worker_run new_worker es = Some w →
  cw_done w ++ in_hand w ++ cw_queue w = pushed es ∧
  (we_stop ∉ es → ∃ k w', worker_run w (replicate k we_thread) = Some w' ∧ cw_done w' = pushed es).
Proof.
  intros Hr. pose proof (worker_run_tasks _ _ _ Hr) as Ht. simpl in Ht. split; [done|]. intros Hns.
  pose proof (worker_stop_kept _ _ _ Hr Hns) as Hs. pose proof (not_returned _ _ _ Hr eq_refl Hns ltac:(done)) as Hp.
  simpl in Hs. rewrite <-Ht. destruct w as [q st pc dn]; simpl in *. subst st. unfold in_hand in *. simpl in *.
  destruct pc as [| |t|]; [| | |done]; simpl in *.
  - eexists _, _. split; [apply (worker_drains (Mk_commit_worker q false wp_test dn)); done|done].
  - destruct q as [|t q]; [exists 0%nat; eexists; split; [done|by rewrite app_nil_r]|].
    eexists (S (S (3 * length q))), _. simpl. split.
    + apply (worker_drains (Mk_commit_worker q false wp_test (dn ++ [t]))); done.
    + simpl. by rewrite <-app_assoc.
  - eexists (S (3 * length q)), _. simpl. split.
    + apply (worker_drains (Mk_commit_worker q false wp_test (dn ++ [t]))); done.
    + simpl. by rewrite <-app_assoc.
Qed.
Lemma worker_runs_all_witness :
  ∃ w, worker_run new_worker [we_thread; we_push (task_login (Mk_login_msg 1 2 3)); we_thread] = Some w ∧
    in_hand w = [task_login (Mk_login_msg 1 2 3)] ∧ cw_done w ++ in_hand w ++ cw_queue w = [task_login (Mk_login_msg 1 2 3)].
Proof.
  eexists. split; [reflexivity|]. split; [reflexivity|].
  apply (worker_runs_all [we_thread; we_push (task_login (Mk_login_msg 1 2 3)); we_thread]). reflexivity.
Defined.

(** After a stop at most the task at the front is still run: the ones behind it are dropped. *)
Theorem stop_drops_tasks t1 t2 :
  ∃ w, worker_run new_worker [we_thread; we_push t1; we_push t2; we_stop; we_thread; we_thread; we_thread] = Some w ∧
    cw_pc w = wp_returned ∧ cw_done w = [t1] ∧ cw_queue w = [t2].
Proof. by eexists. Qed.
