(* ===== verification/Listeners.v ===== *)
(** * The cluster server's threads

    [start], [accept_loop] and [stop] of [src/net/cluster_server.cpp]: one acceptor thread
    for each member's listener, one thread for each connection, and the stopping thread,
    which wakes every acceptor with a connection of its own and joins them all.  The threads
    interleave step by step. *)

From S2P Require Import Prelude.

Local Open Scope craft_scope.

(** ** State *)

(** A connection waiting in a listener's queue: a client's, or the one of [poke_port]. *)
Inductive pending := pd_client | pd_poke.
#[global] Instance pending_eq_dec : EqDecision pending.
Proof. solve_decision. Defined.
(** An acceptor: in [accept]; back from it with a connection or an error, before the test of
    [stopping]; past the test with a connection; returned. *)
Inductive acceptor := ac_accept | ac_test (c : option pending) | ac_register (c : pending) | ac_done.
#[global] Instance acceptor_eq_dec : EqDecision acceptor.
Proof. solve_decision. Defined.
(** A connection's thread: its listener, whether the peer's end is open, whether [serve] has
    returned. *)
Record conn_thread := Mk_conn_thread { ct_idx : nat; ct_open : bool; ct_done : bool }.
(** Where [stop] is. *)
Inductive stop_phase := sp_none | sp_poke (i : nat) | sp_join_acceptors (i : nat) | sp_join_conns (i : nat) | sp_returned.

Record server_threads := Mk_threads {
  th_queues : list (list pending);
  th_acceptors : list acceptor;
  th_conns : list conn_thread;
  th_accepted : nat;
  th_stopping : bool;
  th_stop : stop_phase;
  th_listening : bool;
}.

Definition start (n : nat) : server_threads :=
  Mk_threads (replicate n []) (replicate n ac_accept) [] 0 false sp_none true.

(** ** Steps *)

Inductive thread_event :=
| te_connect (i : nat)       (* a client connects to member [i] *)
| te_close (j : nat)         (* the peer of connection [j] closes *)
| te_accept (i : nat)        (* [accept] returns the first in the queue *)
| te_accept_error (i : nat)
| te_acceptor (i : nat)      (* acceptor [i] goes on *)
| te_serve_ends (j : nat)    (* connection [j] has read the end of its stream *)
| te_stop (ok : bool).       (* the stopping thread goes on; a poke of it connects or not *)

Definition set_queue (i : nat) (q : list pending) (s : server_threads) : server_threads :=
  Mk_threads (<[i := q]> (th_queues s)) (th_acceptors s) (th_conns s) (th_accepted s) (th_stopping s) (th_stop s) (th_listening s).
Definition set_acceptor (i : nat) (a : acceptor) (s : server_threads) : server_threads :=
  Mk_threads (th_queues s) (<[i := a]> (th_acceptors s)) (th_conns s) (th_accepted s) (th_stopping s) (th_stop s) (th_listening s).
Definition set_conn (j : nat) (c : conn_thread) (s : server_threads) : server_threads :=
  Mk_threads (th_queues s) (th_acceptors s) (<[j := c]> (th_conns s)) (th_accepted s) (th_stopping s) (th_stop s) (th_listening s).
Definition set_stop (p : stop_phase) (s : server_threads) : server_threads :=
  Mk_threads (th_queues s) (th_acceptors s) (th_conns s) (th_accepted s) (th_stopping s) p (th_listening s).
Definition register (i : nat) (s : server_threads) : server_threads :=
  Mk_threads (th_queues s) (<[i := ac_accept]> (th_acceptors s)) (th_conns s ++ [Mk_conn_thread i true false])
    (S (th_accepted s)) (th_stopping s) (th_stop s) (th_listening s).

(** The acceptor past its call: it leaves when the server is stopping, goes on after an
    error, and otherwise counts the connection and starts its thread. *)
Definition acceptor_step (i : nat) (s : server_threads) : option server_threads :=
  a ← th_acceptors s !! i;
  match a with
  | ac_test c =>
      Some (set_acceptor i (if th_stopping s then ac_done else match c with Some c => ac_register c | None => ac_accept end) s)
  | ac_register _ => Some (register i s)
  | ac_accept | ac_done => None
  end.

(** [stop]: set the flag, poke every port, join the acceptors, join the connections, close
    the listeners.  [poke_port] gives up in silence when it has no socket or its [connect]
    fails ([ok] is false). *)
Definition stop_step (ok : bool) (s : server_threads) : option server_threads :=
  match th_stop s with
  | sp_none => Some (Mk_threads (th_queues s) (th_acceptors s) (th_conns s) (th_accepted s) true (sp_poke 0) (th_listening s))
  | sp_poke i =>
      match th_queues s !! i with
      | Some q => Some (set_stop (sp_poke (S i)) (if ok then set_queue i (q ++ [pd_poke]) s else s))
      | None => Some (set_stop (sp_join_acceptors 0) s)
      end
  | sp_join_acceptors i =>
      match th_acceptors s !! i with
      | Some ac_done => Some (set_stop (sp_join_acceptors (S i)) s)
      | Some _ => None
      | None => Some (set_stop (sp_join_conns 0) s)
      end
  | sp_join_conns j =>
      match th_conns s !! j with
      | Some c => if ct_done c then Some (set_stop (sp_join_conns (S j)) s) else None
      | None => Some (Mk_threads (th_queues s) (th_acceptors s) (th_conns s) (th_accepted s) (th_stopping s) sp_returned false)
      end
  | sp_returned => None
  end.

Definition threads_exec (s : server_threads) (e : thread_event) : option server_threads :=
  match e with
  | te_connect i => q ← th_queues s !! i; if th_listening s then Some (set_queue i (q ++ [pd_client]) s) else None
  | te_close j => c ← th_conns s !! j; Some (set_conn j (Mk_conn_thread (ct_idx c) false (ct_done c)) s)
  | te_accept i =>
      a ← th_acceptors s !! i;
      q ← th_queues s !! i;
      match a, q with
      | ac_accept, c :: q => Some (set_acceptor i (ac_test (Some c)) (set_queue i q s))
      | _, _ => None
      end
  | te_accept_error i =>
      a ← th_acceptors s !! i;
      match a with ac_accept => Some (set_acceptor i (ac_test None) s) | _ => None end
  | te_acceptor i => acceptor_step i s
  | te_serve_ends j =>
      c ← th_conns s !! j;
      if ct_open c || ct_done c then None else Some (set_conn j (Mk_conn_thread (ct_idx c) false true) s)
  | te_stop ok => stop_step ok s
  end.
Fixpoint threads_run (s : server_threads) (es : list thread_event) : option server_threads :=
  match es with [] => Some s | e :: es => s ← threads_exec s e; threads_run s es end.

(** ** The invariant *)

Definition is_server (e : thread_event) : bool := match e with te_connect _ | te_close _ => false | _ => true end.

(** How many listeners [stop] has poked. *)
Definition poked (s : server_threads) : nat :=
  match th_stop s with sp_none => 0 | sp_poke i => i | _ => length (th_queues s) end.
(** Acceptor [i] has left, has the poke in hand, or will find it in its queue. *)
Definition woken (s : server_threads) (i : nat) : Prop :=
  th_acceptors s !! i = Some ac_done ∨ th_acceptors s !! i = Some (ac_test (Some pd_poke)) ∨
  ∃ q, th_queues s !! i = Some q ∧ pd_poke ∈ q.
Definition no_poke (s : server_threads) : Prop :=
  (∀ i q, th_queues s !! i = Some q → pd_poke ∉ q) ∧ ∀ i, th_acceptors s !! i ≠ Some (ac_test (Some pd_poke)).
Definition joined (s : server_threads) : Prop :=
  match th_stop s with
  | sp_join_acceptors i => ∀ k, (k < i)%nat → th_acceptors s !! k = Some ac_done
  | sp_join_conns j => Forall (eq ac_done) (th_acceptors s) ∧ ∀ k c, (k < j)%nat → th_conns s !! k = Some c → ct_done c = true
  | sp_returned => Forall (eq ac_done) (th_acceptors s) ∧ Forall (λ c, ct_done c = true) (th_conns s) ∧ th_listening s = false
  | _ => True
  end.

(** [all]: every poke so far has connected. *)
Record threads_inv (n : nat) (all : bool) (s : server_threads) : Prop := {
  ti_queues : length (th_queues s) = n;
  ti_acceptors : length (th_acceptors s) = n;
  ti_accepted : th_accepted s = length (th_conns s);
  ti_stopping : th_stopping s = true ↔ th_stop s ≠ sp_none;
  ti_no_poke : th_stopping s = false → no_poke s;
  ti_register i : th_acceptors s !! i ≠ Some (ac_register pd_poke);
  ti_woken i : all = true → (i < poked s)%nat → (i < n)%nat → woken s i;
  ti_joined : joined s;
}.

Lemma start_inv n all : threads_inv n all (start n).
Proof.
  split; simpl; try done; try (by rewrite length_replicate).
  - intros _. split; simpl.
    + intros i q [-> _]%lookup_replicate. by apply not_elem_of_nil.
    + intros i [? _]%lookup_replicate. done.
  - intros i [? _]%lookup_replicate. done.
  - unfold poked. simpl. lia.
Qed.

(** An acceptor that has not left moves on. *)
Lemma set_acceptor_woken s i a j :
  woken s j → (i = j → a ≠ ac_done → a ≠ ac_test (Some pd_poke) → ∃ q, th_queues s !! j = Some q ∧ pd_poke ∈ q) →
  (i < length (th_acceptors s))%nat → woken (set_acceptor i a s) j.
Proof.
  unfold woken. simpl. intros Hw Ha Hi. destruct (decide (i = j)) as [->|Hne].
  - rewrite list_lookup_insert_eq by done. destruct (decide (a = ac_done)) as [->|]; [by left|].
    destruct (decide (a = ac_test (Some pd_poke))) as [->|]; [by right; left|]. right; right. by apply Ha.
  - by rewrite list_lookup_insert_ne.
Qed.

Lemma joined_acceptor s i a a' :
  joined s → th_acceptors s !! i = Some a → a ≠ ac_done → joined (set_acceptor i a' s).
Proof.
  unfold joined. simpl. intros Hj Hi Ha.
  assert (Forall (eq ac_done) (th_acceptors s) → False) as Hno.
  { intros Hf. by specialize (Forall_lookup_1 _ _ _ _ Hf Hi) as <-. }
  destruct (th_stop s) as [| |k|j|]; try done; [|by destruct Hno, Hj|by destruct Hno; apply Hj].
  intros k' Hk. rewrite list_lookup_insert_ne; [by apply Hj|]. intros ->. specialize (Hj _ Hk). congruence.
Qed.
Lemma joined_conn s j c c' :
  joined s → th_conns s !! j = Some c → (ct_done c = true → ct_done c' = true) → joined (set_conn j c' s).
Proof.
  unfold joined. simpl. intros Hj Hc Hd. destruct (th_stop s) as [| | |k|]; try done.
  - destruct Hj as [? Hj]. split; [done|]. intros k' x Hk Hx. apply list_lookup_insert_Some in Hx as [(<- & <- & _)|[_ Hx]]; eauto.
  - destruct Hj as (? & Hj & ?). split; [done|]. split; [|done]. apply Forall_insert; [done|]. apply Hd.
    by apply (Forall_lookup_1 _ _ _ _ Hj Hc).
Qed.
Lemma woken_queue s i q q' j :
  th_queues s !! i = Some q → (pd_poke ∈ q → pd_poke ∈ q') → woken s j → woken (set_queue i q' s) j.
Proof.
  intros Hq Hin [?|[?|(x & Hx & Hp)]]; [by left|by right; left|]. right; right. simpl.
  destruct (decide (i = j)) as [->|Hne]; [|exists x; by rewrite list_lookup_insert_ne].
  exists q'. rewrite list_lookup_insert_eq by by eapply lookup_lt_Some. split; [done|]. apply Hin. congruence.
Qed.

Lemma queue_client_inv n all s i q : threads_inv n all s → th_queues s !! i = Some q → threads_inv n all (set_queue i (q ++ [pd_client]) s).
Proof.
  intros [] Hq. split; simpl; try done.
  - by rewrite length_insert.
  - intros [Hn Ha]%ti_no_poke0. split; [|done]. simpl. intros k x Hx.
    apply list_lookup_insert_Some in Hx as [(<- & <- & _)|[_ Hx]]; [|by eapply Hn].
    rewrite not_elem_of_app. split; [by eapply Hn|]. by intros ?%list_elem_of_singleton.
  - intros k Hall Hk Hkn. eapply woken_queue; [done|set_solver|]. apply ti_woken0; [done| |done].
    unfold poked in *. simpl in Hk. by rewrite length_insert in Hk.
Qed.

Lemma conn_inv n all s j c c' :
  threads_inv n all s → th_conns s !! j = Some c → (ct_done c = true → ct_done c' = true) → threads_inv n all (set_conn j c' s).
Proof.
  intros [] Hc Hd. split; simpl; try done; [by rewrite length_insert|]. by eapply joined_conn.
Qed.

(** Acceptor [i] moves to [a]. *)
Lemma acceptor_inv n all s i a0 a :
  threads_inv n all s → th_acceptors s !! i = Some a0 → a0 ≠ ac_done → a ≠ ac_register pd_poke →
  (th_stopping s = false → a ≠ ac_test (Some pd_poke)) →
  (a ≠ ac_done → a ≠ ac_test (Some pd_poke) → all = true → (i < poked s)%nat → (i < n)%nat → ∃ q, th_queues s !! i = Some q ∧ pd_poke ∈ q) →
  threads_inv n all (set_acceptor i a s).
Proof.
  intros [] Hi Hne Hr Ht Hw. pose proof (lookup_lt_Some _ _ _ Hi) as Hlt. split; simpl; try done.
  - by rewrite length_insert.
  - intros Hs. destruct (ti_no_poke0 Hs) as [Hn Ha]. split; [done|]. simpl. intros k Hk.
    apply list_lookup_insert_Some in Hk as [(<- & -> & _)|[_ Hk]]; [by apply (Ht Hs)|by eapply Ha].
  - intros k Hk. apply list_lookup_insert_Some in Hk as [(<- & -> & _)|[_ Hk]]; [done|by eapply ti_register0].
  - intros k Hall Hk Hkn. apply set_acceptor_woken; [by apply ti_woken0| |done]. intros <- H1 H2. by apply Hw.
  - by eapply joined_acceptor.
Qed.

Lemma accept_inv n all s i c q :
  threads_inv n all s → th_acceptors s !! i = Some ac_accept → th_queues s !! i = Some (c :: q) →
  threads_inv n all (set_acceptor i (ac_test (Some c)) (set_queue i q s)).
Proof.
  intros I Hi Hq. pose proof I as []. pose proof (lookup_lt_Some _ _ _ Hi) as Hlt.
  assert (th_stopping s = false → c ≠ pd_poke ∧ pd_poke ∉ q) as Hc.
  { intros [Hn _]%ti_no_poke0. specialize (Hn _ _ Hq). by apply not_elem_of_cons in Hn as [? ?]. }
  split; simpl; rewrite ?length_insert; try done.
  - intros Hs. destruct (ti_no_poke0 Hs) as [Hn Ha]. destruct (Hc Hs) as [Hcp Hqp]. split; simpl.
    + intros k x Hx. apply list_lookup_insert_Some in Hx as [(<- & <- & _)|[_ Hx]]; [done|by eapply Hn].
    + intros k Hk. apply list_lookup_insert_Some in Hk as [(<- & [= ->] & _)|[_ Hk]]; [done|by eapply Ha].
  - intros k Hk. apply list_lookup_insert_Some in Hk as [(<- & ? & _)|[_ Hk]]; [done|by eapply ti_register0].
  - intros k Hall Hk Hkn. unfold poked in Hk. simpl in Hk. rewrite length_insert in Hk. specialize (ti_woken0 k Hall Hk Hkn).
    destruct (decide (i = k)) as [<-|Hne].
    + destruct ti_woken0 as [?|[?|(x & Hx & Hp)]]; [congruence..|]. rewrite Hq in Hx. injection Hx as <-.
      apply elem_of_cons in Hp as [<-|Hp]; [right; left|right; right]; simpl; [by rewrite list_lookup_insert_eq|].
      exists q. rewrite list_lookup_insert_eq; [done|by eapply lookup_lt_Some].
    + unfold woken. simpl. by rewrite !list_lookup_insert_ne.
  - change (joined (set_acceptor i (ac_test (Some c)) s)). by eapply joined_acceptor.
Qed.

Lemma register_inv n all s i c :
  threads_inv n all s → th_acceptors s !! i = Some (ac_register c) → threads_inv n all (register i s).
Proof.
  intros I Hi. assert (threads_inv n all (set_acceptor i ac_accept s)) as I1.
  { eapply acceptor_inv; try done. intros _ _ Hall Hk Hkn. destruct (ti_woken _ _ _ I i Hall Hk Hkn) as [?|[?|?]]; [congruence..|done]. }
  assert (Forall (eq ac_done) (th_acceptors s) → False) as Hno.
  { intros Hf. by specialize (Forall_lookup_1 _ _ _ _ Hf Hi). }
  pose proof (ti_joined _ _ _ I) as Hj0. destruct I1 as [Hq Ha Hacc Hst Hnp Hr Hw Hj]. split; simpl in *; try done.
  - rewrite length_app. simpl. lia.
  - unfold joined in *. simpl in *. destruct (th_stop s); try done; destruct Hno; apply Hj0.
Qed.

Lemma acceptor_step_inv n all s i s' : threads_inv n all s → acceptor_step i s = Some s' → threads_inv n all s'.
Proof.
  intros I. unfold acceptor_step. destruct (th_acceptors s !! i) as [[|c|c|]|] eqn:Hi; simpl; try done; intros [= <-].
  - destruct (th_stopping s) eqn:Hs; [by eapply acceptor_inv|].
    assert (c ≠ Some pd_poke) as Hc by (intros ->; by apply (ti_no_poke _ _ _ I Hs) in Hi).
    assert (poked s = 0%nat) as Hp.
    { unfold poked. destruct (th_stop s) eqn:Hst; try done; exfalso;
        (assert (th_stopping s = true) as ? by (apply (ti_stopping _ _ _ I); by rewrite Hst)); congruence. }
    eapply acceptor_inv; try done; [destruct c; congruence|by destruct c|rewrite Hp; lia].
  - by eapply register_inv.
Qed.

Lemma stop_step_inv n all ok s s' :
  (all = true → ok = true) → threads_inv n all s → stop_step ok s = Some s' → threads_inv n all s'.
Proof.
  intros Hok I. pose proof I as [Hq Ha Hacc Hst Hnp Hr Hw Hj]. unfold stop_step, poked in *. unfold joined in Hj.
  destruct (th_stop s) as [|i|i|j|] eqn:Hp; simpl in *; try done.
  - intros [= <-]. by split.
  - assert (th_stopping s = true) as Hs by (by apply Hst).
    destruct (th_queues s !! i) as [q|] eqn:Hqi; intros [= <-].
    + split; simpl; destruct ok; simpl; rewrite ?length_insert; try done; try (by rewrite Hs);
        intros k Hall Hk Hkn; [|by specialize (Hok Hall)]. unfold poked in Hk. simpl in Hk. destruct (decide (k = i)) as [->|Hne].
      * right; right. simpl. rewrite list_lookup_insert_eq by by eapply lookup_lt_Some. eexists. split; [done|]. set_solver.
      * change (woken (set_queue i (q ++ [pd_poke]) s) k). eapply woken_queue; [done|set_solver|]. apply Hw; [done|lia|done].
    + apply lookup_ge_None_1 in Hqi. split; simpl; try done.
      * intros k Hall _ Hkn. apply (Hw k); [done|lia..].
      * unfold joined. simpl. intros; lia.
  - destruct (th_acceptors s !! i) as [[]|] eqn:Hai; try done; intros [= <-].
    + split; simpl; try done; try (by rewrite Hst). unfold joined. simpl. intros k Hk.
      destruct (decide (k = i)) as [->|]; [done|]. apply Hj. lia.
    + split; simpl; try done; try (by rewrite Hst). unfold joined. simpl. split; [|intros; lia].
      apply lookup_ge_None_1 in Hai. apply Forall_lookup. intros k a Hk. pose proof (lookup_lt_Some _ _ _ Hk).
      specialize (Hj k ltac:(lia)). congruence.
  - destruct (th_conns s !! j) as [c|] eqn:Hcj; [destruct (ct_done c) eqn:Hd; [|done]|]; intros [= <-].
    + split; simpl; try done; try (by rewrite Hst). unfold joined. simpl. destruct Hj as [? Hj]. split; [done|].
      intros k x Hk Hx. destruct (decide (k = j)) as [->|]; [congruence|]. eapply Hj; [|done]. lia.
    + split; simpl; try done; try (by rewrite Hst). unfold joined. simpl. destruct Hj as [? Hj]. split; [done|]. split; [|done].
      apply lookup_ge_None_1 in Hcj. apply Forall_lookup. intros k x Hx. pose proof (lookup_lt_Some _ _ _ Hx).
      eapply Hj; [|done]. lia.
Qed.

Definition poke_fails (e : thread_event) : bool := match e with te_stop false => true | _ => false end.

Lemma threads_exec_inv n all s e s' :
  (all = true → poke_fails e = false) → threads_inv n all s → threads_exec s e = Some s' → threads_inv n all s'.
Proof.
  intros Hok I. destruct e; cbn [threads_exec].
  - destruct (th_queues s !! i) as [q|] eqn:Hq; simpl; [|done]. destruct (th_listening s); [|done]. intros [= <-]. by apply queue_client_inv.
  - destruct (th_conns s !! j) as [c|] eqn:Hc; simpl; [|done]. intros [= <-]. by eapply conn_inv.
  - destruct (th_acceptors s !! i) as [[]|] eqn:Ha; simpl; try done; (destruct (th_queues s !! i) as [[|x q]|] eqn:Hq; simpl; try done).
    intros [= <-]. by apply accept_inv.
  - destruct (th_acceptors s !! i) as [[]|] eqn:Ha; simpl; try done. intros [= <-]. eapply acceptor_inv; try done.
    intros _ _ Hall Hk Hkn. destruct (ti_woken _ _ _ I i Hall Hk Hkn) as [?|[?|?]]; [congruence..|done].
  - by apply acceptor_step_inv.
  - destruct (th_conns s !! j) as [c|] eqn:Hc; simpl; [|done]. destruct (ct_open c || ct_done c); [done|]. intros [= <-]. by eapply conn_inv.
  - apply stop_step_inv; [|done]. by destruct ok, all; cbn in *; intuition.
Qed.

Lemma threads_run_inv n all s es s' :
  (all = true → Forall (λ e, poke_fails e = false) es) → threads_inv n all s → threads_run s es = Some s' → threads_inv n all s'.
Proof.
  revert s. induction es as [|e es IH]; intros s Hok I; simpl; [by intros [= <-]|].
  destruct (threads_exec s e) as [s1|] eqn:He; simpl; [|done].
  apply IH; [intros Hall; by apply Hok, Forall_cons_1 in Hall as [_ ?]|]. eapply threads_exec_inv; [|done|done].
  intros Hall. by apply Hok, Forall_cons_1 in Hall as [? _].
Qed.

(** ** Stopping *)

(** The steps left to the threads once the server is stopping. *)
Definition acceptor_left (a : acceptor) : nat :=
  match a with ac_register _ => 5 | ac_accept => 2 | ac_test _ => 1 | ac_done => 0 end.
Definition conn_left (c : conn_thread) : nat := if ct_done c then 0 else 1.
Definition stop_left (s : server_threads) : nat :=
  let n := length (th_queues s) in
  let m := length (th_acceptors s) in
  let k := length (th_conns s) in
  match th_stop s with
  | sp_none => 0
  | sp_poke i => (n - i) + 1 + (m + 1) + (k + 1)
  | sp_join_acceptors i => (m - i) + 1 + (k + 1)
  | sp_join_conns j => (k - j) + 1
  | sp_returned => 0
  end.
Definition steps_left (s : server_threads) : nat :=
  sum_list_with acceptor_left (th_acceptors s) + sum_list_with conn_left (th_conns s) + stop_left s.

Lemma sum_insert {A} (f : A → nat) l i x y :
  l !! i = Some x → sum_list_with f (<[i := y]> l) + f x = sum_list_with f l + f y.
Proof.
  revert i. induction l as [|z l IH]; intros [|i] Hi; simpl in *; [done..|injection Hi as ->; lia|]. specialize (IH i Hi). lia.
Qed.

Lemma acceptor_steps s i a0 a d :
  th_acceptors s !! i = Some a0 → acceptor_left a + d = acceptor_left a0 → steps_left (set_acceptor i a s) + d = steps_left s.
Proof.
  intros Hi Ha. unfold steps_left, stop_left. simpl. rewrite length_insert.
  pose proof (sum_insert acceptor_left (th_acceptors s) i a0 a Hi). lia.
Qed.
Lemma queue_steps s i q : steps_left (set_queue i q s) = steps_left s.
Proof. unfold steps_left, stop_left. simpl. by rewrite length_insert. Qed.
Lemma conn_steps s j c c' d :
  th_conns s !! j = Some c → conn_left c' + d = conn_left c → steps_left (set_conn j c' s) + d = steps_left s.
Proof.
  intros Hc Hd. unfold steps_left, stop_left. simpl. rewrite length_insert.
  pose proof (sum_insert conn_left (th_conns s) j c c' Hc). lia.
Qed.
Lemma register_steps s i c :
  th_acceptors s !! i = Some (ac_register c) → steps_left (register i s) < steps_left s.
Proof.
  intros Hi. pose proof (sum_insert acceptor_left (th_acceptors s) i (ac_register c) ac_accept Hi) as Hs. simpl in Hs.
  unfold steps_left, stop_left, register. simpl. rewrite length_insert, length_app, sum_list_with_app. simpl. destruct (th_stop s); lia.
Qed.
Lemma stop_steps ok s s' : th_stop s ≠ sp_none → stop_step ok s = Some s' → steps_left s' < steps_left s.
Proof.
  unfold stop_step, steps_left, stop_left. destruct (th_stop s) as [|i|i|j|]; try done; intros _.
  - destruct (th_queues s !! i) eqn:Hq; intros [= <-]; simpl; [apply lookup_lt_Some in Hq; destruct ok; simpl; rewrite ?length_insert|]; lia.
  - destruct (th_acceptors s !! i) as [[]|] eqn:Ha; try done; intros [= <-]; simpl; [apply lookup_lt_Some in Ha|]; lia.
  - destruct (th_conns s !! j) as [c|] eqn:Hc; [destruct (ct_done c); [|done]|]; intros [= <-]; simpl; [apply lookup_lt_Some in Hc|]; lia.
Qed.

Lemma exec_steps n all s e s' :
  threads_inv n all s → th_stop s ≠ sp_none → threads_exec s e = Some s' →
  th_stop s' ≠ sp_none ∧ steps_left s' + (if is_server e then 1 else 0) ≤ steps_left s.
Proof.
  intros I Hs. assert (th_stopping s = true) as Hst by by apply (ti_stopping _ _ _ I).
  destruct e; cbn [threads_exec is_server].
  - destruct (th_queues s !! i) as [q|] eqn:Hq; simpl; [|done]. destruct (th_listening s); [|done]. intros [= <-].
    rewrite queue_steps. split; [done|lia].
  - destruct (th_conns s !! j) as [c|] eqn:Hc; simpl; [|done]. intros [= <-]. split; [done|].
    rewrite (conn_steps s j c _ 0 Hc); [lia|]. unfold conn_left. simpl. lia.
  - destruct (th_acceptors s !! i) as [[]|] eqn:Ha; simpl; try done; (destruct (th_queues s !! i) as [[|x q]|] eqn:Hq; simpl; try done).
    intros [= <-]. split; [done|]. rewrite (acceptor_steps (set_queue i q s) i ac_accept _ 1 Ha) by done. rewrite queue_steps. lia.
  - destruct (th_acceptors s !! i) as [[]|] eqn:Ha; simpl; try done. intros [= <-]. split; [done|].
    rewrite (acceptor_steps s i ac_accept _ 1 Ha) by done. lia.
  - unfold acceptor_step. rewrite Hst. destruct (th_acceptors s !! i) as [[|c|c|]|] eqn:Ha; simpl; try done; intros [= <-]; (split; [done|]).
    + rewrite (acceptor_steps s i _ _ 1 Ha) by done. lia.
    + pose proof (register_steps s i c Ha). lia.
  - destruct (th_conns s !! j) as [c|] eqn:Hc; simpl; [|done]. destruct (ct_open c || ct_done c) eqn:Hd; [done|]. intros [= <-].
    apply orb_false_iff in Hd as [_ Hd]. split; [done|]. rewrite (conn_steps s j c _ 1 Hc); [lia|]. unfold conn_left. by rewrite Hd.
  - intros H. pose proof (stop_steps ok s s' Hs H). split; [|lia]. unfold stop_step in H.
    repeat case_match; simplify_eq; done.
Qed.

Lemma run_steps n s es s' :
  threads_inv n false s → th_stop s ≠ sp_none → threads_run s es = Some s' →
  length (filter (λ e, is_server e = true) es) ≤ steps_left s.
Proof.
  revert s. induction es as [|e es IH]; intros s I Hs; simpl; [intros; lia|].
  destruct (threads_exec s e) as [s1|] eqn:He; simpl; [|done]. intros Hr.
  destruct (exec_steps n false s e s1 I Hs He) as [Hs1 Hle]. pose proof (IH s1 (threads_exec_inv n false s e s1 ltac:(done) I He) Hs1 Hr).
  rewrite filter_cons. destruct (is_server e); [rewrite decide_True by done; simpl|rewrite decide_False by done]; lia.
Qed.

(** Where the stopping thread waits, another thread can go on, without an error of [accept]
    to help it. *)
Definition goes_on (e : thread_event) : bool := match e with te_accept_error _ => false | _ => is_server e end.
Lemma stop_unblocked n s :
  threads_inv n true s → th_stop s ≠ sp_returned → Forall (λ c, ct_open c = false) (th_conns s) →
  ∃ e s', goes_on e = true ∧ threads_exec s e = Some s'.
Proof.
  intros I Hr Ho. destruct (stop_step true s) as [s'|] eqn:Hs; [by exists (te_stop true), s'|].
  unfold stop_step in Hs. destruct (th_stop s) as [|i|i|j|] eqn:Hp; try done.
  - by destruct (th_queues s !! i).
  - destruct (th_acceptors s !! i) as [a|] eqn:Ha; [|done]. pose proof (lookup_lt_Some _ _ _ Ha) as Hlt.
    rewrite (ti_acceptors _ _ _ I) in Hlt. destruct a as [|c|c|]; try done.
    + destruct (ti_woken _ _ _ I i eq_refl) as [?|[?|(q & Hq & Hin)]]; [unfold poked; rewrite Hp, (ti_queues _ _ _ I); lia|done|congruence..|].
      destruct q as [|x q]; [by apply elem_of_nil in Hin|]. eexists (te_accept i), _. cbn [threads_exec]. rewrite Ha, Hq. done.
    + eexists (te_acceptor i), _. split; [done|]. cbn [threads_exec]. unfold acceptor_step. by rewrite Ha.
    + eexists (te_acceptor i), _. split; [done|]. cbn [threads_exec]. unfold acceptor_step. by rewrite Ha.
  - destruct (th_conns s !! j) as [c|] eqn:Hc; [|done]. destruct (ct_done c) eqn:Hd; [done|].
    eexists (te_serve_ends j), _. split; [done|]. cbn [threads_exec]. rewrite Hc. simpl.
    rewrite (Forall_lookup_1 _ _ _ _ Ho Hc : ct_open c = false), Hd. done.
Qed.

(** C26: [stop] returns, with every thread joined, if each of its pokes connects.  After any
    interleaving of clients connecting and leaving, connections accepted and served, and a
    call of [stop] at any moment: the server's threads have a bounded number of steps left,
    whatever the clients do; if every connection [stop] makes to wake an acceptor went
    through, then while no client is connected and [stop] has not returned, one of the
    threads can go on; and when it has returned, every acceptor and every connection's thread
    has ended, each connection counted was given a thread, and the listeners are closed.  A
    poke that fails is not noticed, and [stop] waits ([failed_poke_hangs]). *)
Theorem stop_returns n es s :
  threads_run (start n) es = Some s → th_stop s ≠ sp_none →
  (∀ es' s', threads_run s es' = Some s' → length (filter (λ e, is_server e = true) es') ≤ steps_left s) ∧
  (Forall (λ e, poke_fails e = false) es → th_stop s ≠ sp_returned → Forall (λ c, ct_open c = false) (th_conns s) →
     ∃ e s', goes_on e = true ∧ threads_exec s e = Some s') ∧
  (th_stop s = sp_returned → Forall (eq ac_done) (th_acceptors s) ∧ Forall (λ c, ct_done c = true) (th_conns s) ∧
     th_accepted s = length (th_conns s) ∧ th_listening s = false).
Proof.
  intros Hrun Hs. pose proof (threads_run_inv n false _ es _ ltac:(done) (start_inv n false) Hrun) as I. split_and!.
  - intros es' s' H. by eapply run_steps.
  - intros Hok. eapply stop_unblocked, (threads_run_inv n true); [|apply start_inv|exact Hrun]. done.
  - intros Hr. pose proof (ti_joined _ _ _ I) as Hj. unfold joined in Hj. rewrite Hr in Hj. destruct Hj as (? & ? & ?).
    split_and!; try done. apply I.
Qed.

Definition stop_events : list thread_event :=
  [te_connect 0; te_accept 0; te_acceptor 0; te_acceptor 0; te_connect 0; te_accept 0; te_stop true; te_stop true; te_close 0;
   te_acceptor 0; te_stop true].
Definition stop_state : server_threads :=
  Mk_threads [[pd_poke]] [ac_done] [Mk_conn_thread 0 false false] 1 true (sp_join_acceptors 0) true.
Lemma stop_returns_witness :
  threads_run (start 1) stop_events = Some stop_state ∧ ∃ e s', goes_on e = true ∧ threads_exec stop_state e = Some s'.
Proof.
  split; [reflexivity|]. apply (stop_returns 1 stop_events stop_state); [reflexivity|done|by repeat constructor|done|by repeat constructor].
Defined.

(** When the poke of a listener fails and no client connects to it, [stop] waits for its
    acceptor, which waits in [accept]. *)
Theorem failed_poke_hangs :
  ∃ s, threads_run (start 1) [te_stop true; te_stop false; te_stop true] = Some s ∧
    th_stop s = sp_join_acceptors 0 ∧ ∀ e, goes_on e = true → threads_exec s e = None.
Proof.
  eexists. split; [reflexivity|]. split; [reflexivity|]. intros [i|j|i|i|i|j|ok]; try done; intros _.
  - by destruct i.
  - by destruct i.
Qed.
