(* ===== verification/System.v ===== *)
(** * A client and its cluster

    The composition: one session of the client of [Client] over the in-process cluster of
    [Cluster], the writes travelling between them and the answers on their way back.
    [sys_exec] runs one event, whoever causes it: an access of a client verb to the shared
    tracker or router, a leg of a write reaching its member, failing or timing out, a
    keep-alive or a read at a member, a resolution round at the leader, a fault.  Any
    sequence of events is a run.

    A leg is handed to its member at most once and answered at most once, possibly by a
    timeout while the message still travels; this is what [Delivery] establishes of the
    transport.  A round is one event.  A request has fewer than 2^32 bytes, the range of the
    volume's [max_tx].  The dLSNs, payloads and headers of the writes sent
    are recorded in [sy_sent], the abstract session and the holder history in [sy_session]
    and [sy_hist]; none of these is program state. *)

From S2P Require Import Prelude Codec WireTypes Wire Types Replica ReplicaSpec Cluster ClusterSpec StreamTracker DlsnTracker DlsnSpec DlsnPlan IntervalMap ReadRoute RouteSpec Client ClientSpec.

Local Open Scope craft_scope.
Local Open Scope Z_scope.

(** A write as the client sent it, and one of its legs. *)
Record sent := Mk_sent { se_hdr : client_hdr; se_addr : Z; se_len : Z; se_bytes : option (list Z) }.
Record leg := Mk_leg { le_travels : bool; le_reply : option (result error_condition lsn_pair) }.

Inductive sys_event :=
| ev_take
| ev_create (d addr len : Z)
| ev_send (d : Z) (bytes : option (list Z))
| ev_deliver (d : Z) (i : nat)
| ev_refuse (d : Z) (i : nat) (e : error_condition)
| ev_timeout (d : Z) (i : nat) (e : error_condition)
| ev_complete (d : Z) (i : nat)
| ev_settle (d : Z) (acks : nat)
| ev_keep_alive (i : nat) (hdr : client_hdr)
| ev_read (i : nat) (hdr : client_hdr) (H addr len : Z) (dest : sg_list)
| ev_synced (i : nat) (C : Z)
| ev_round (i : nat) (hdr : client_hdr) (upto : Z)
| ev_verdict (k : nat)
| ev_fold (F : Z)
| ev_flags (ka rr : list bool)
| ev_want (upto : Z)
| ev_plan (addr len : Z)
| ev_faults (i : nat) (f : replica_faults → replica_faults)
| ev_leader (id : peer_id_t).

Definition member_id (t : MemTransport) (i : nat) : option peer_id_t := ep_id <$> members_ t !! i.
Definition member (t : MemTransport) (i : nat) : option MemCraftReplica := member_id t i ≫= λ id, by_id_ t !! id.

(** A call on member [i]. *)
Definition on_member {A} (i : nat) (f : MemCraftReplica → A * MemCraftReplica) (t : MemTransport) :
    option (A * MemTransport) :=
  id ← member_id t i;
  r ← by_id_ t !! id;
  Some ((f r).1, set_by_id t (<[id := (f r).2]> (by_id_ t))).

(** What an answer says of its member's commit frontier. *)
Definition report (i : nat) (res : result error_condition lsn_pair) : list (nat * Z) :=
  match res with Ok p => [(i, lp_commit p)] | Err _ => [] end.

(** [agreed], decided.  A round relies on it: a member that was down while the others voided
    a write it holds does not take part before it has been brought up to date. *)
Definition is_voided (r : MemCraftReplica) (d : Z) : bool :=
  match journal_ r !! d with Some s => js_is_empty s | None => false end.
Definition agrees (r r' : MemCraftReplica) : bool :=
  bool_decide (map_Forall (λ d s, js_is_empty s = true → 0 ≤ d ≤ commit_of r → is_voided r d = true) (journal_ r')).
Definition live_members (t : MemTransport) : list MemCraftReplica := omap (λ id, by_id_ t !! id) (live_replicas t).
Definition agreed_check (t : MemTransport) : bool :=
  forallb (λ r, forallb (agrees r) (live_members t)) (live_members t).

Section system.
Context {T U M : Type} `{ST : !StreamTracker dlsn_slot T} `{SU : !StreamTracker route_slot U}
  `{IM : !IntervalMap M} `{MS : !MissSort}.

Record system := Mk_system {
  sy_session : session;
  sy_hist : gmap Z route_slot;
  sy_client : craft_client T U M;
  sy_net : MemTransport;
  sy_sent : gmap Z sent;
  sy_legs : gmap Z (list leg);
  sy_reports : list (nat * Z);
  sy_rounds : list (nat * resolution_result);
}.

(** After a login that member [i] granted: [run_login] on the cluster, [login_accept] in the
    client. *)
Definition sys_login (t : MemTransport) (i : nat) (tok : Z) (c : craft_client T U M) : option system :=
  id ← member_id t i;
  match replica_login t id tok with
  | (Ok res, t) =>
      if lg_term res =? 0 then None
      else Some (Mk_system (Mk_session (lg_dLSN res) (lg_dLSN res + 1) ∅) ∅
                   (login_accept c tok (Z.of_nat i) res) t ∅ ∅ [] [])
  | (Err _, _) => None
  end.

Definition set_client (σ : system) (s : session) (h : gmap Z route_slot) (c : craft_client T U M) : system :=
  Mk_system s h c (sy_net σ) (sy_sent σ) (sy_legs σ) (sy_reports σ) (sy_rounds σ).
Definition set_net (σ : system) (t : MemTransport) (rp : list (nat * Z)) : system :=
  Mk_system (sy_session σ) (sy_hist σ) (sy_client σ) t (sy_sent σ) (sy_legs σ) (sy_reports σ ++ rp) (sy_rounds σ).
Definition set_leg (σ : system) (d : Z) (i : nat) (l : leg) : system :=
  Mk_system (sy_session σ) (sy_hist σ) (sy_client σ) (sy_net σ) (sy_sent σ)
    (alter (λ ls, <[i := l]> ls) d (sy_legs σ)) (sy_reports σ) (sy_rounds σ).
Definition add_round (σ : system) (i : nat) (rr : resolution_result) : system :=
  Mk_system (sy_session σ) (sy_hist σ) (sy_client σ) (sy_net σ) (sy_sent σ) (sy_legs σ) (sy_reports σ)
    (sy_rounds σ ++ [(i, rr)]).
Definition leg_at (σ : system) (d : Z) (i : nat) : option leg := sy_legs σ !! d ≫= λ ls, ls !! i.
(** The answers of a write's legs. *)
Definition replies (σ : system) (d : Z) : list (result error_condition lsn_pair) :=
  omap le_reply (default [] (sy_legs σ !! d)).

(** A header the client has made in this session. *)
Definition hdr_ok (c : craft_client T U M) (hdr : client_hdr) : Prop :=
  ch_term hdr = cc_term c ∧ ch_commit_lsn hdr ≤ frontier (cc_tracker c).
#[global] Instance hdr_ok_dec c hdr : Decision (hdr_ok c hdr).
Proof. unfold hdr_ok. apply _. Defined.
#[global] Instance slot_ok_dec sl : Decision (slot_ok sl).
Proof. unfold slot_ok. apply _. Defined.
#[global] Instance round_known_dec s h F rr : Decision (round_known s h F rr).
Proof.
  refine (cast_if (decide (Forall (λ d, is_Some (h !! d))
    (filled s (rs_empty_slots rr) (F + 1) (Z.min (rs_resolved_upto rr) (ss_next s - 1))))));
    unfold round_known; rewrite <-Forall_forall; done.
Defined.

Definition sys_exec (σ : system) (e : sys_event) : option system :=
  let s := sy_session σ in
  let h := sy_hist σ in
  let c := sy_client σ in
  let t := sy_net σ in
  match e with
  | ev_take => Some (set_client σ (spec_take s) h (with_tracker c (reserve_take (cc_tracker c)).2))
  | ev_create d addr len =>
      if decide (ss_login s < d < ss_next s ∧ ss_slots s !! d = None ∧
                 slot_ok (Mk_dlsn_slot addr len in_flight) ∧ len < 2 ^ 32 ∧ precheck c addr len = None)
      then tr ← reserve_create (cc_tracker c) d addr len;
           Some (set_client σ (spec_create s d addr len) h (with_tracker c tr))
      else None
  | ev_send d bytes =>
      sl ← ss_slots s !! d;
      if decide (h !! d = None ∧ d < kNever ∧ ds_outcome sl = in_flight)
      then r ← route_create (cc_route c) d (ds_addr sl) (ds_len sl);
           let c := with_route c r in
           Some (Mk_system s (<[d := Mk_route_slot d (ds_addr sl) (ds_len sl) 0 0 0]> h) c t
                   (<[d := Mk_sent (make_hdr c) (ds_addr sl) (ds_len sl) bytes]> (sy_sent σ))
                   (<[d := replicate (cc_n c) (Mk_leg true None)]> (sy_legs σ)) (sy_reports σ) (sy_rounds σ))
      else None
  | ev_deliver d i =>
      w ← sy_sent σ !! d;
      l ← leg_at σ d i;
      if le_travels l then
        '(res, t) ← on_member i (λ r, do_write r (se_hdr w) d (se_addr w) (se_len w) (se_bytes w)) t;
        Some (set_net (set_leg σ d i (Mk_leg false (Some (default res (le_reply l))))) t
                (match le_reply l with None => report i res | Some _ => [] end))
      else None
  | ev_refuse d i e =>
      l ← leg_at σ d i;
      if decide (le_travels l = true ∧ le_reply l = None)
      then Some (set_leg σ d i (Mk_leg false (Some (Err e)))) else None
  | ev_timeout d i e =>
      l ← leg_at σ d i;
      if decide (le_travels l = true ∧ le_reply l = None)
      then Some (set_leg σ d i (Mk_leg true (Some (Err e)))) else None
  | ev_complete d i =>
      rs ← h !! d;
      l ← leg_at σ d i;
      res ← le_reply l;
      if decide ((i < cc_n c)%nat ∧ holds (rs_completed rs) i = false)
      then r ← record_completion (cc_route c) d i (is_ok res);
           Some (set_client σ s (<[d := complete_slot rs (bit i) (is_ok res)]> h) (with_route c r))
      else None
  | ev_settle d acks =>
      rs ← h !! d;
      let results := replies σ d in
      if decide ((acks ≤ popcount (rs_holders rs))%nat ∧
                 ((acks < cc_n c / 2 + 1)%nat → length results = cc_n c ∧ results_check rs results = true))
      then tr ← resolve (cc_tracker c) d (settle_outcome (cc_n c) acks results);
           Some (set_client σ (spec_resolve s d (settle_outcome (cc_n c) acks results)) h (with_tracker c tr))
      else None
  | ev_keep_alive i hdr =>
      if decide (hdr_ok c hdr)
      then '(res, t) ← on_member i (λ r, do_keep_alive r hdr) t; Some (set_net σ t (report i res))
      else None
  | ev_read i hdr H addr len dest =>
      if decide (hdr_ok c hdr)
      then '(res, t) ← on_member i (λ r, match do_read r hdr H addr len dest with
                                         | Some (Ok (rr, _), r) => (Ok (rd_lsns rr), r)
                                         | Some (Err e, r) => (Err e, r)
                                         | None => (Err (ec_std invalid_argument), r)
                                         end) t;
           Some (set_net σ t (report i res))
      else None
  | ev_synced i C =>
      if decide ((i < cc_n c)%nat ∧ (i, C) ∈ sy_reports σ)
      then Some (set_client σ s h (with_route c (advance_synced (cc_route c) i C))) else None
  | ev_round i hdr upto =>
      id ← member_id t i;
      if decide (hdr_ok c hdr ∧ agreed_check t = true)
      then match request_resolution t id hdr upto with
           | (Ok rr, t) => Some (add_round (set_net σ t []) i rr)
           | (Err _, t) => Some (set_net σ t [])
           end
      else None
  | ev_verdict k =>
      '(i, rr) ← sy_rounds σ !! k;
      if decide ((i < cc_n c)%nat ∧ round_known s h (frontier (cc_tracker c)) rr)
      then c' ← resolution_retire c i rr;
           Some (set_client σ (spec_round s rr)
                   (hist_round i (filled s (rs_empty_slots rr) (frontier (cc_tracker c) + 1)
                                    (Z.min (rs_resolved_upto rr) (ss_next s - 1))) h) c')
      else None
  | ev_fold F =>
      if decide (F ≤ frontier (cc_tracker c))
      then r ← fold_to (cc_route c) F; Some (set_client σ s h (with_route c r)) else None
  | ev_flags ka rr => Some (set_client σ s h (with_route c (set_flags (cc_route c) ka rr)))
  | ev_want upto => Some (set_client σ s h (with_tracker c (note_resolution_want (cc_tracker c) upto)))
  | ev_plan addr len =>
      '(_, tr) ← compute (cc_tracker c) addr len; Some (set_client σ s h (with_tracker c tr))
  | ev_faults i f =>
      '(_, t) ← on_member i (λ r, (tt, mutate_faults f r)) t; Some (set_net σ t [])
  | ev_leader id => Some (set_net σ (set_leader id t) [])
  end.

Fixpoint sys_run (σ : system) (es : list sys_event) : option system :=
  match es with [] => Some σ | e :: es => σ ← sys_exec σ e; sys_run σ es end.
End system.
Arguments system : clear implicits.
