(* ===== verification/SystemSpec.v ===== *)
(** * What a client and its cluster keep

    The invariant of every run of [System]: above the session's start a member's journal has
    nothing but the writes the client sent and Empty slots; who is on record as holding a
    write has a slot for it; an Empty slot stands on a quorum that never acknowledged the
    write; what a round reported filled, a quorum holds.  From it, an acknowledged write is
    never Empty anywhere ([acked_data]). *)

From S2P Require Import Prelude Codec WireTypes Wire Types Replica ReplicaSpec ReplicaRun Cluster ClusterSpec ClusterRun StreamTracker DlsnTracker DlsnSpec DlsnPlan IntervalMap ReadRoute RouteSpec Client ClientSpec ClientRun System.

Local Open Scope craft_scope.
Local Open Scope Z_scope.

(** ** Quorums of members *)

Definition ids (t : MemTransport) : list peer_id_t := ep_id <$> members_ t.

Definition quorate (t : MemTransport) (P : peer_id_t → Prop) : Prop :=
  ∃ Q, NoDup Q ∧ Q ⊆ ids t ∧ (quorum (length (members_ t)) ≤ length Q)%nat ∧ ∀ id, id ∈ Q → P id.

Lemma quorate_meet t P P' : quorate t P → quorate t P' → ∃ id, id ∈ ids t ∧ P id ∧ P' id.
Proof.
  intros (Q & Hnd & Hs & Hq & HP) (Q' & Hnd' & Hs' & Hq' & HP').
  destruct (quorum_meet (ids t) Q Q') as (id & H1 & H2); unfold ids; rewrite ?length_fmap; try done.
  exists id. split_and!; auto.
Qed.

Lemma quorate_mono t t' (P P' : peer_id_t → Prop) :
  members_ t' = members_ t → (∀ id, id ∈ ids t → P id → P' id) → quorate t P → quorate t' P'.
Proof.
  intros Hm HP (Q & Hnd & Hs & Hq & HQ). exists Q. unfold ids. rewrite Hm. split_and!; auto.
Qed.

Lemma live_quorate t :
  cluster_inv t → (quorum (length (members_ t)) ≤ length (live_replicas t))%nat →
  quorate t (λ id, id ∈ live_replicas t).
Proof. intros I Hq. exists (live_replicas t). split_and!; [by apply live_NoDup|apply live_subset|done|done]. Qed.

(** ** Slots of members *)

Definition data_at (t : MemTransport) (d : Z) (id : peer_id_t) : Prop :=
  ∃ s, slot_at t id d = Some s ∧ js_is_empty s = false.
Definition void_at (t : MemTransport) (d : Z) (id : peer_id_t) : Prop :=
  ∃ s, slot_at t id d = Some s ∧ js_is_empty s = true.

Lemma data_not_void t d id : data_at t d id → void_at t d id → False.
Proof. intros (s & Hs & He) (s' & Hs' & He'). congruence. Qed.

Lemma slot_cases t d id : is_Some (slot_at t id d) → data_at t d id ∨ void_at t d id.
Proof. intros [s Hs]. destruct (js_is_empty s) eqn:He; [right|left]; by exists s. Qed.

Lemma member_id_ids t i id : member_id t i = Some id → id ∈ ids t.
Proof.
  unfold member_id, ids. intros (m & Hm & ->)%fmap_Some. apply list_elem_of_fmap.
  exists m. split; [done|by eapply list_elem_of_lookup_2].
Qed.

Lemma member_id_inj t i j id :
  cluster_inv t → member_id t i = Some id → member_id t j = Some id → i = j.
Proof.
  intros [Hnd] Hi Hj. unfold member_id in *. apply (NoDup_lookup (ids t) i j id Hnd);
    unfold ids; by rewrite list_lookup_fmap.
Qed.

Lemma member_id_lt t i id : member_id t i = Some id → (i < length (members_ t))%nat.
Proof. unfold member_id. intros (m & Hm & _)%fmap_Some. by eapply lookup_lt_Some. Qed.

Lemma member_id_Some t i : (i < length (members_ t))%nat → is_Some (member_id t i).
Proof. intros Hi. unfold member_id. destruct (lookup_lt_is_Some_2 _ _ Hi) as [m ->]. eauto. Qed.

Lemma length_filter_fmap {A B} (f : A → B) (P : B → Prop) `{!∀ x, Decision (P x)} l :
  length (filter P (f <$> l)) = length (filter (λ x, P (f x)) l).
Proof. induction l as [|x l IH]; [done|]. rewrite fmap_cons, !filter_cons. destruct (decide (P (f x))); simpl; congruence. Qed.

(** The journal entry of a write that was sent. *)
Definition slot_of (page : Z) (w : sent) : MemJournalSlot :=
  Mk_slot (ch_term (se_hdr w)) (se_addr w `div` page) (u32 (se_len w `div` page))
    (match se_bytes w with None => true | Some _ => false end) false (se_bytes w).

Lemma write_slot_of r w : write_slot r (se_hdr w) (se_addr w) (se_len w) (se_bytes w) = slot_of (page_size_ r) w.
Proof. done. Qed.

(** *** A call on one member *)

Lemma slot_at_insert t id r' id' d :
  slot_at (set_by_id t (<[id := r']> (by_id_ t))) id' d =
    if decide (id' = id) then journal_ r' !! d else slot_at t id' d.
Proof.
  unfold slot_at, replica_for, peek_slot. simpl. rewrite lookup_insert.
  destruct (decide (id = id')), (decide (id' = id)); congruence || done.
Qed.

Lemma cluster_inv_insert t id r r' :
  cluster_inv t → by_id_ t !! id = Some r → replica_inv r' → term_of r' = term_of r →
  page_size_ r' = page_size_ r → cluster_inv (set_by_id t (<[id := r']> (by_id_ t))).
Proof.
  intros [Hnd Hreg Hrep Hpage Hterm] Hr Hi Ht Hp. split; simpl; try done.
  - intros m Hm. rewrite lookup_insert. case_decide; eauto.
  - intros i ri. rewrite lookup_insert. case_decide; [|apply Hrep]. intros [= <-].
    rewrite Ht. split; [done|]. by eapply Hrep.
  - intros i ri. rewrite lookup_insert. case_decide; [|apply Hpage]. intros [= <-].
    rewrite Hp. by eapply Hpage.
Qed.

(** [t'] is [t] with the journals unchanged and commit frontiers at or above. *)
Record net_ext (t t' : MemTransport) : Prop := {
  ne_members : members_ t' = members_ t;
  ne_lba : Cluster.lba_size_ t' = Cluster.lba_size_ t;
  ne_slots id d : slot_at t' id d = slot_at t id d;
  ne_commit id r : by_id_ t !! id = Some r → ∃ r', by_id_ t' !! id = Some r' ∧ commit_of r ≤ commit_of r';
}.

Lemma net_ext_insert t id r r' :
  by_id_ t !! id = Some r → journal_ r' = journal_ r → commit_of r ≤ commit_of r' →
  net_ext t (set_by_id t (<[id := r']> (by_id_ t))).
Proof.
  intros Hr Hj Hc. split; try done.
  - intros i d. rewrite slot_at_insert. case_decide; [|done]. subst. rewrite Hj. symmetry. by apply slot_at_lookup.
  - intros i ri Hi. simpl. rewrite lookup_insert. case_decide; [|by exists ri]. subst.
    rewrite Hr in Hi. injection Hi as <-. eauto.
Qed.

Lemma member_ext t t' i r :
  members_ t' = members_ t →
  (∀ id r, by_id_ t !! id = Some r → ∃ r', by_id_ t' !! id = Some r' ∧ commit_of r ≤ commit_of r') →
  member t i = Some r → ∃ r', member t' i = Some r' ∧ commit_of r ≤ commit_of r'.
Proof.
  intros Hm Hc. unfold member, member_id. rewrite Hm. destruct (members_ t !! i) as [m|]; simpl; [|done]. apply Hc.
Qed.

Lemma member_lt t i r : member t i = Some r → (i < length (members_ t))%nat.
Proof. unfold member. intros (id & Hid & _)%bind_Some. by eapply member_id_lt. Qed.

Lemma member_registered t i : cluster_inv t → (i < length (members_ t))%nat → is_Some (member t i).
Proof.
  intros I Hi. unfold member, member_id. destruct (lookup_lt_is_Some_2 _ _ Hi) as [m Hm]. rewrite Hm. simpl.
  apply (cv_registered t I). by eapply list_elem_of_lookup_2.
Qed.

Lemma on_member_spec {A} i (f : MemCraftReplica → A * MemCraftReplica) t a t' :
  on_member i f t = Some (a, t') →
  ∃ id r, member_id t i = Some id ∧ by_id_ t !! id = Some r ∧ a = (f r).1 ∧
    t' = set_by_id t (<[id := (f r).2]> (by_id_ t)).
Proof.
  unfold on_member. destruct (member_id t i) as [id|] eqn:Hid; simpl; [|done].
  destruct (by_id_ t !! id) as [r|] eqn:Hr; simpl; [|done]. intros [= <- <-]. eauto 6.
Qed.

(** What a call that keeps the journal may do to a member, and what its answer may say. *)
Record quiet (r r' : MemCraftReplica) : Prop := {
  qt_inv : replica_inv r';
  qt_journal : journal_ r' = journal_ r;
  qt_commit : commit_of r ≤ commit_of r';
  qt_term : term_of r' = term_of r;
  qt_page : page_size_ r' = page_size_ r;
}.

Lemma quiet_refl r : replica_inv r → quiet r r.
Proof. intros I. by split. Qed.

Lemma quiet_apply target r : replica_inv r → quiet r (apply_up_to target r).
Proof.
  intros I. destruct (apply_up_to_spec target r I) as (I' & Hs & Hc & _). unfold same_but_applied in Hs.
  destruct_and! Hs. split; try done. lia.
Qed.

Lemma keep_alive_quiet r hdr p r' :
  replica_inv r → do_keep_alive r hdr = (p, r') → quiet r r' ∧ ∀ l, p = Ok l → lp_commit l = commit_of r'.
Proof.
  intros I. unfold do_keep_alive. destruct (negb _); intros [= <- <-]; [split; [by apply quiet_refl|done]|].
  split; [|by intros l [= <-]].
  destruct (quiet_apply (ch_commit_lsn hdr) (count_keepalive r)) as []; [by apply count_keepalive_inv|]. by split.
Qed.

Lemma read_quiet r hdr H addr len dest p r' :
  replica_inv r → do_read r hdr H addr len dest = Some (p, r') →
  quiet r r' ∧ ∀ l, p = Ok l → lp_commit (rd_lsns l.1) = commit_of r'.
Proof.
  intros I. unfold do_read. repeat case_match; try (intros [= <- <-]; split; [by apply quiet_refl|done]).
  destruct (read_range _ _ _ _ _) as [[]|]; simpl; [|done]. intros [= <- <-].
  destruct (quiet_apply (ch_commit_lsn hdr) r I) as []. split; [|by intros ? [= <-]].
  split; try done. by apply count_read_inv.
Qed.

(** A write at a member: refused without effect, or entered in the journal. *)
Lemma write_cases r hdr d addr len bytes p r' :
  replica_inv r → in_u 64 addr → in_u 64 len →
  (¬ voided r d → fresh_write r hdr d addr len bytes) → do_write r hdr d addr len bytes = (p, r') →
  (∃ e, p = Err e) ∧ r' = r ∨
  p = Ok (lsns_of r') ∧ ¬ voided r d ∧ replica_inv r' ∧ commit_of r ≤ commit_of r' ∧
    journal_ r' = <[d := write_slot r hdr addr len bytes]> (journal_ r) ∧
    term_of r' = term_of r ∧ page_size_ r' = page_size_ r.
Proof.
  intros I Ha Hl Hf Hw. destruct (decide (is_voided r d = true)) as [Hv|Hv].
  { unfold is_voided in Hv. destruct (journal_ r !! d) as [s|] eqn:Hs; [|done].
    destruct (do_write_voided r hdr d addr len bytes) as [e He]; [by exists s|]. left.
    rewrite He in Hw. injection Hw as <- <-. eauto. }
  assert (¬ voided r d) as Hnv.
  { intros (s & Hs & He). unfold is_voided in Hv. by rewrite Hs in Hv. }
  specialize (Hf Hnv). pose proof (do_write_inv r hdr d addr len bytes I Ha Hl Hf) as I'.
  pose proof (do_write_keeps r hdr d addr len bytes I Ha Hl Hf) as (Hc & Hp & _).
  pose proof (do_write_term r hdr d addr len bytes) as Ht. rewrite Hw in I', Hc, Hp, Ht. simpl in I', Hc, Hp, Ht.
  unfold do_write in Hw. destruct (misaligned r addr len); [left; injection Hw as <- <-; eauto|].
  destruct (match bytes with Some b => _ | None => _ end) eqn:Hb; [left; injection Hw as <- <-; eauto|].
  destruct (negb _); [left; injection Hw as <- <-; eauto|].
  destruct (match journal_ r !! d with Some s => _ | None => _ end); [left; injection Hw as <- <-; eauto|].
  right. injection Hw as <- <-. split_and!; try done. rewrite apply_journal; [done|].
  apply (insert_above_inv r d); [done| |].
  - apply write_slot_wf; try done; [apply I|]. destruct bytes; [|done]. by apply negb_false_iff, Z.eqb_eq in Hb.
  - destruct Hf as [|Hf]; [by left|]. right. right. by rewrite Hf.
Qed.

(** ** Rounds *)

Lemma agreed_check_ok t : agreed_check t = true → agreed t (live_replicas t).
Proof.
  unfold agreed_check. intros Hc id id' r r' d Hid Hid' Hr Hr' Hd (s & Hs & He).
  assert (∀ i x, i ∈ live_replicas t → by_id_ t !! i = Some x → In x (live_members t)) as Hin.
  { intros i x Hi Hx. apply list_elem_of_In, list_elem_of_omap. eauto. }
  rewrite forallb_forall in Hc. specialize (Hc r (Hin id r Hid Hr)). rewrite forallb_forall in Hc.
  specialize (Hc r' (Hin id' r' Hid' Hr')). unfold agrees in Hc. apply bool_decide_eq_true in Hc.
  specialize (Hc d s Hs He Hd). unfold is_voided in Hc. unfold voided.
  destruct (journal_ r !! d) as [s0|]; [eauto|done].
Qed.

(** What a round leaves behind. *)
Record round_done (t t' : MemTransport) (caller : peer_id_t) (rr : resolution_result) : Prop := {
  rd_config : same_config t t';
  rd_cluster : cluster_inv t';
  rd_quorum : quorate t (λ id, id ∈ live_replicas t);
  rd_agreed : agreed t (live_replicas t);
  rd_caller : caller ∈ live_replicas t;
  rd_out id : id ∉ live_replicas t → by_id_ t' !! id = by_id_ t !! id;
  rd_floor id r : id ∈ live_replicas t → by_id_ t !! id = Some r →
    resolution_floor t (live_replicas t) ≤ commit_of r;
  rd_live id r : id ∈ live_replicas t → by_id_ t !! id = Some r →
    ∃ r', by_id_ t' !! id = Some r' ∧ commit_of r' = Z.max (commit_of r) (rs_resolved_upto rr) ∧
      ∀ d, journal_ r' !! d =
        if decide (d ∈ range (resolution_floor t (live_replicas t) + 1) (rs_resolved_upto rr))
        then resolved_slot (find_copy t d (live_replicas t) None) (term_of r) (journal_ r !! d)
        else journal_ r !! d;
  rd_empties r' d : by_id_ t' !! caller = Some r' → d ∉ rs_empty_slots rr → d ≤ rs_resolved_upto rr → ¬ voided r' d;
}.

Lemma resolution_done t caller hdr upto res t' :
  cluster_inv t → agreed_check t = true → caller ∈ ids t → request_resolution t caller hdr upto = (res, t') →
  (∃ e, res = Err e) ∧ t' = t ∨ ∃ rr, res = Ok rr ∧ round_done t t' caller rr.
Proof.
  intros I Ha%agreed_check_ok Hid. unfold request_resolution.
  destruct (net_is_up t caller) eqn:Hup; simpl; [|intros [= <- <-]; left; split; [by eexists|done]].
  destruct (negb _); [intros [= <- <-]; left; split; [by eexists|done]|]. intros Hr.
  destruct (resolution_gate t caller (ch_term hdr)) as [live|e] eqn:Hg;
    [|unfold run_resolution in Hr; rewrite Hg in Hr; injection Hr as <- <-; left; eauto].
  unfold resolution_gate in Hg. rewrite Hup in Hg. simpl in Hg.
  case_bool_decide as Hl; [|done]. simpl in Hg. destruct (Z.eqb_spec (ch_term hdr) (term_ t)) as [Ht|]; [|done].
  simpl in Hg. case_decide as Hq; [done|]. apply Nat.nlt_ge in Hq.
  destruct (run_resolution_aux t caller (ch_term hdr) upto I Hup Hl Ht Hq Ha) as (t1 & Hr1 & Hc & I1 & Ho & Hi).
  rewrite Hr in Hr1. injection Hr1 as -> ->. right. eexists. split; [done|].
  assert (caller ∈ live_replicas t) as Hcl.
  { apply elem_of_live. split; [done|]. unfold ids in Hid. apply list_elem_of_fmap in Hid as (m & -> & Hm).
    destruct (cv_registered t I m Hm) as [r Hr0]. exists r. split; [done|].
    unfold net_is_up, replica_for in Hup. by rewrite Hr0 in Hup. }
  split; simpl; try done.
  - by apply live_quorate.
  - intros id r Hin Hrr. assert (∀ id, id ∈ live_replicas t → -1 ≤ lp_commit (peek_of t id)) as Hb.
    { intros i Hil. unfold peek_of, replica_for. destruct (live_registered t i Hil) as [x Hx]. rewrite Hx.
      apply (rv_commit x (proj1 (cv_replicas t I i x Hx))). }
    destruct (resolution_floor_spec t _ Hb) as [_ Hf]. specialize (Hf id Hin). unfold peek_of, replica_for in Hf.
    by rewrite Hrr in Hf.
  - intros id r Hin Hrr. destruct (Hi id r Hin Hrr) as (r' & ? & _ & ? & ?). eauto.
  - intros r' d Hr'. rewrite Hr'. rewrite elem_of_peek_empties. tauto.
Qed.

(** One dLSN in a round: untouched, filled on the live members from one of them, or voided. *)
Inductive round_at (t t' : MemTransport) (floor upto d : Z) : Prop :=
| ra_same :
    ¬ floor < d ≤ upto → (∀ id, slot_at t' id d = slot_at t id d) → round_at t t' floor upto d
| ra_filled c i :
    i ∈ live_replicas t → slot_at t i d = Some c → js_is_empty c = false →
    (∀ id s, id ∈ live_replicas t → slot_at t id d = Some s → js_is_empty s = false) →
    (∀ id, id ∉ live_replicas t → slot_at t' id d = slot_at t id d) →
    (∀ id, id ∈ live_replicas t → slot_at t' id d = Some (default c (slot_at t id d))) →
    round_at t t' floor upto d
| ra_void :
    (∃ i, i ∈ live_replicas t ∧ void_at t d i) ∨ (∀ i, i ∈ live_replicas t → slot_at t i d = None) →
    (∀ id, id ∉ live_replicas t → slot_at t' id d = slot_at t id d) →
    (∀ id, id ∈ live_replicas t → void_at t' d id) → round_at t t' floor upto d.

Lemma round_cases t t' caller rr d :
  round_done t t' caller rr → round_at t t' (resolution_floor t (live_replicas t)) (rs_resolved_upto rr) d.
Proof.
  intros R.
  assert (∀ id, id ∉ live_replicas t → slot_at t' id d = slot_at t id d) as Hout.
  { intros id Hid. unfold slot_at, replica_for. by rewrite (rd_out _ _ _ _ R id Hid). }
  destruct (decide (d ∈ range (resolution_floor t (live_replicas t) + 1) (rs_resolved_upto rr))) as [Hd|Hd].
  - assert (∀ id, id ∈ live_replicas t → ∃ tm, slot_at t' id d =
      resolved_slot (find_copy t d (live_replicas t) None) tm (slot_at t id d)) as Hin.
    { intros id Hid. destruct (live_registered t id Hid) as [r Hr].
      destruct (rd_live _ _ _ _ R id r Hid Hr) as (r' & Hr' & _ & Hj). exists (term_of r).
      by rewrite (slot_at_lookup t' id r'), (slot_at_lookup t id r), Hj, decide_True. }
    pose proof (find_copy_spec t d (live_replicas t) None) as Hf. unfold resolved_slot in Hin.
    destruct (find_copy t d (live_replicas t) None) as [[] [c|]].
    1,2: destruct Hf as (i & s & Hi & Hs & He); apply ra_void; [left; by exists i; split; [|exists s]|done|];
      intros id Hid; destruct (Hin id Hid) as [tm Ht]; by exists (empty_slot tm).
    + destruct Hf as [Hne [[=]|[_ (i & Hi & Hc)]]]. apply (ra_filled _ _ _ _ _ c i); eauto.
      intros id Hid. by destruct (Hin id Hid) as [_ ->].
    + destruct Hf as (_ & _ & Hf). apply ra_void; [by right|done|].
      intros id Hid. destruct (Hin id Hid) as [tm Ht]. by exists (empty_slot tm).
  - apply ra_same; [rewrite elem_of_range in Hd; lia|].
    intros id. destruct (decide (id ∈ live_replicas t)) as [Hid|Hid]; [|by apply Hout].
    destruct (live_registered t id Hid) as [r Hr].
    destruct (rd_live _ _ _ _ R id r Hid Hr) as (r' & Hr' & _ & Hj).
    by rewrite (slot_at_lookup t' id r'), (slot_at_lookup t id r), Hj, decide_False.
Qed.

(** ** The invariant *)

Section invariant.
Context {T U M : Type} `{ST : !StreamTracker dlsn_slot T} `{SU : !StreamTracker route_slot U}
  `{IM : !IntervalMap M} `{MS : !MissSort}.
Implicit Types (σ : system T U M) (c : craft_client T U M).

(** Member [id] has acknowledged [d]: an ack is on its way, or the history has it. *)
Definition acked_by σ (d : Z) (id : peer_id_t) : Prop :=
  ∃ i, member_id (sy_net σ) i = Some id ∧
    ((∃ b p, leg_at σ d i = Some (Mk_leg b (Some (Ok p)))) ∨
     ∃ rs, sy_hist σ !! d = Some rs ∧ holds (rs_holders rs) i = true).

(** A write that was sent and its entry in the history. *)
Definition linked (w : option sent) (rs : option route_slot) : Prop :=
  match w, rs with
  | Some w, Some rs => rs_addr rs = se_addr w ∧ rs_len rs = se_len w
  | None, None => True
  | _, _ => False
  end.

Record sys_inv (n : nat) (L term : Z) σ : Prop := {
  sv_client : client_reach n L (sy_session σ) (sy_hist σ) (sy_client σ);
  sv_cluster : cluster_inv (sy_net σ);
  sv_n : length (members_ (sy_net σ)) = n;
  sv_term : cc_term (sy_client σ) = term;
  sv_lba : Cluster.lba_size_ (sy_net σ) = DlsnTracker.lba_size_ (cc_tracker (sy_client σ));
  sv_small d sl : ss_slots (sy_session σ) !! d = Some sl → slot_ok sl ∧ ds_len sl < 2 ^ 32;
  sv_sent d w : sy_sent σ !! d = Some w → L < d ∧ ch_term (se_hdr w) = term;
  sv_link d : linked (sy_sent σ !! d) (sy_hist σ !! d);
  sv_legs d : is_Some (sy_legs σ !! d) → is_Some (sy_sent σ !! d);
  sv_slots id d s : id ∈ ids (sy_net σ) → L < d → slot_at (sy_net σ) id d = Some s → js_is_empty s = false →
    ∃ w, sy_sent σ !! d = Some w ∧ s = slot_of (Cluster.lba_size_ (sy_net σ)) w;
  sv_bits d rs i : sy_hist σ !! d = Some rs → holds (rs_holders rs) i = true → (i < n)%nat;
  sv_acked d id : acked_by σ d id → is_Some (slot_at (sy_net σ) id d);
  sv_void d id : L < d → id ∈ ids (sy_net σ) → void_at (sy_net σ) d id →
    quorate (sy_net σ) (λ id, void_at (sy_net σ) d id ∧ ¬ acked_by σ d id);
  sv_rounds i rr : (i, rr) ∈ sy_rounds σ → ∃ id, member_id (sy_net σ) i = Some id ∧
    ∀ d, L < d ≤ rs_resolved_upto rr → d ∉ rs_empty_slots rr →
      data_at (sy_net σ) d id ∧ quorate (sy_net σ) (data_at (sy_net σ) d);
  sv_verdict d rs : sy_hist σ !! d = Some rs → rs_verdict rs ≠ 0 → quorate (sy_net σ) (data_at (sy_net σ) d);
  sv_reports i C : (i, C) ∈ sy_reports σ → ∃ r, member (sy_net σ) i = Some r ∧ C ≤ commit_of r;
  sv_synced i r : member (sy_net σ) i = Some r → synced_at (cc_route (sy_client σ)) i ≤ commit_of r;
}.

Lemma linked_sent w rs : linked (Some w) rs → ∃ r, rs = Some r ∧ rs_addr r = se_addr w ∧ rs_len r = se_len w.
Proof. destruct rs; simpl; [eauto|done]. Qed.
Lemma linked_hist w rs : linked w (Some rs) → ∃ x, w = Some x ∧ rs_addr rs = se_addr x ∧ rs_len rs = se_len x.
Proof. destruct w; simpl; [eauto|done]. Qed.

(** A quorum with the data leaves no Empty slot. *)
Lemma filled_not_void n L term σ d id :
  sys_inv n L term σ → L < d → quorate (sy_net σ) (data_at (sy_net σ) d) → id ∈ ids (sy_net σ) →
  ¬ void_at (sy_net σ) d id.
Proof.
  intros I Hd Hq Hid Hv. pose proof (sv_void _ _ _ _ I d id Hd Hid Hv) as Hqv.
  destruct (quorate_meet _ _ _ Hq Hqv) as (id' & _ & H1 & H2 & _). by eapply data_not_void.
Qed.

(** The holders of a durable slot are a quorum. *)
Lemma holders_quorate n L term σ d rs :
  sys_inv n L term σ → (n ≤ k_max_members)%nat → sy_hist σ !! d = Some rs →
  (n / 2 + 1 ≤ popcount (rs_holders rs))%nat → quorate (sy_net σ) (acked_by σ d).
Proof.
  intros I Hn Hd Hp. pose proof (sv_n _ _ _ _ I) as Hlen.
  set (hs := filter (λ i, holds (rs_holders rs) i = true) (seq 0 64)).
  assert (length hs = popcount (rs_holders rs)) as Hlis.
  { unfold hs, popcount. assert (range 0 63 = Z.of_nat <$> seq 0 64) as -> by by_eval.
    by rewrite length_filter_fmap. }
  assert (∀ i, i ∈ hs → is_Some (member_id (sy_net σ) i)) as Hsome.
  { intros i [Hi _]%list_elem_of_filter. apply member_id_Some. rewrite Hlen. by eapply sv_bits. }
  assert (Hlo : length (omap (member_id (sy_net σ)) hs) = length hs).
  { clear Hlis. induction hs as [|i hs' IH]; [done|]. simpl. destruct (Hsome i ltac:(left)) as [id ->].
    simpl. f_equal. apply IH. intros j Hj. apply Hsome. by right. }
  exists (omap (member_id (sy_net σ)) hs). split_and!.
  - assert (NoDup hs) as Hnd by (apply NoDup_filter, NoDup_seq). clear -Hnd I.
    induction Hnd as [|i hs' Hi _ IH]; simpl; [constructor|].
    destruct (member_id (sy_net σ) i) as [id|] eqn:Hid; [|done]. constructor; [|done].
    intros (j & Hj & Hjd)%list_elem_of_omap. destruct Hi.
    by rewrite (member_id_inj _ _ _ _ (sv_cluster _ _ _ _ I) Hid Hjd).
  - intros id (i & _ & Hid)%list_elem_of_omap. by eapply member_id_ids.
  - rewrite Hlo, Hlis, Hlen. done.
  - intros id (i & [Hi _]%list_elem_of_filter & Hid)%list_elem_of_omap. exists i. split; [done|]. right. eauto.
Qed.

(** An acknowledged write has data on a quorum, and so hs Empty nowhere. *)
Lemma durable_data n L term σ d rs :
  sys_inv n L term σ → (n ≤ k_max_members)%nat → sy_hist σ !! d = Some rs →
  slot_durable (n / 2 + 1) rs = true → L < d → quorate (sy_net σ) (data_at (sy_net σ) d).
Proof.
  intros I Hn Hd Hdur HL. unfold slot_durable in Hdur. apply orb_true_iff in Hdur as [Hp|Hv].
  - apply bool_decide_eq_true in Hp. pose proof (holders_quorate _ _ _ _ _ _ I Hn Hd Hp) as Hq.
    eapply quorate_mono; [done| |exact Hq]. intros id Hid Hack.
    destruct (slot_cases _ _ _ (sv_acked _ _ _ _ I d id Hack)) as [|Hvoid]; [done|]. exfalso.
    destruct (quorate_meet _ _ _ Hq (sv_void _ _ _ _ I d id HL Hid Hvoid)) as (id' & _ & H1 & _ & H2). done.
  - apply negb_true_iff, Z.eqb_neq in Hv. by eapply sv_verdict.
Qed.

Lemma acked_data n L term σ d sl :
  sys_inv n L term σ → (1 ≤ n ≤ k_max_members)%nat → ss_slots (sy_session σ) !! d = Some sl →
  ds_outcome sl = acked → L < d ∧ (∃ rs, sy_hist σ !! d = Some rs) ∧ quorate (sy_net σ) (data_at (sy_net σ) d).
Proof.
  intros I Hn Hd Hoc. pose proof (client_reach_inv _ _ _ _ _ Hn (sv_client _ _ _ _ I)) as C.
  destruct (ci_acked _ _ _ _ _ C d sl Hd Hoc) as (rs & Hrs & Hdur).
  assert (L < d) as HL.
  { pose proof (sv_link _ _ _ _ I d) as Hlk. rewrite Hrs in Hlk. apply linked_hist in Hlk as (w & Hw & _).
    by apply (sv_sent _ _ _ _ I d w). }
  split_and!; [done|eauto|]. eapply durable_data; [done|lia|done..].
Qed.

(** ** Events of the client alone *)

Lemma sys_inv_client n L term σ s' c' :
  sys_inv n L term σ → client_reach n L s' (sy_hist σ) c' →
  cc_term c' = cc_term (sy_client σ) →
  DlsnTracker.lba_size_ (cc_tracker c') = DlsnTracker.lba_size_ (cc_tracker (sy_client σ)) →
  (∀ d sl, ss_slots s' !! d = Some sl → slot_ok sl ∧ ds_len sl < 2 ^ 32) →
  (∀ i r, member (sy_net σ) i = Some r → synced_at (cc_route c') i ≤ commit_of r) →
  sys_inv n L term (set_client σ s' (sy_hist σ) c').
Proof. intros [] Hc Ht Hl Hs Hsy. split; simpl; try done; congruence. Qed.

(** The history changes: no one is on record who has not acknowledged, a quorum filled the
    rest. *)
Lemma sys_inv_hist n L term σ s' h' c' :
  let σ' := set_client σ s' h' c' in
  sys_inv n L term σ → client_reach n L s' h' c' →
  cc_term c' = cc_term (sy_client σ) →
  DlsnTracker.lba_size_ (cc_tracker c') = DlsnTracker.lba_size_ (cc_tracker (sy_client σ)) →
  (∀ d sl, ss_slots s' !! d = Some sl → slot_ok sl ∧ ds_len sl < 2 ^ 32) →
  (∀ i r, member (sy_net σ) i = Some r → synced_at (cc_route c') i ≤ commit_of r) →
  (∀ d, linked (sy_sent σ !! d) (h' !! d)) →
  (∀ d rs i, h' !! d = Some rs → holds (rs_holders rs) i = true → (i < n)%nat) →
  (∀ d id, acked_by σ' d id → acked_by σ d id ∨
     L < d ∧ data_at (sy_net σ) d id ∧ quorate (sy_net σ) (data_at (sy_net σ) d)) →
  (∀ d rs, h' !! d = Some rs → rs_verdict rs ≠ 0 → quorate (sy_net σ) (data_at (sy_net σ) d)) →
  sys_inv n L term σ'.
Proof.
  intros σ' I Hc Ht Hl Hs Hsy Hlk Hb Ha Hv. pose proof I as []. split; simpl; try done; try congruence.
  - intros d id [Hack|(_ & (x & -> & _) & _)]%Ha; [by apply sv_acked0|eauto].
  - intros d id HL Hid Hvoid. eapply quorate_mono; [done| |by eapply sv_void0].
    intros id' Hid' [Hv' Hn]. split; [done|]. intros [?|(_ & _ & Hq)]%Ha; [done|].
    by apply (filled_not_void _ _ _ _ d id' I HL Hq Hid').
Qed.

Lemma leg_at_set σ d i l d' i' l' :
  leg_at (set_leg σ d i l) d' i' = Some l' → leg_at σ d' i' = Some l' ∨ d' = d ∧ i' = i ∧ l' = l.
Proof.
  unfold leg_at. simpl. destruct (decide (d' = d)) as [->|Hne]; [|rewrite lookup_alter_ne by done; by left].
  rewrite lookup_alter_eq. destruct (sy_legs σ !! d) as [ls|]; simpl; [|done].
  destruct (decide (i' = i)) as [->|Hne]; [|rewrite list_lookup_insert_ne by done; by left].
  intros [[_ Hl]|[_ Hl]]%list_lookup_insert_Some; [naive_solver|]. by left.
Qed.

(** A leg's state changes, without a new ack. *)
Lemma acked_by_leg σ d i l' :
  (∀ p, le_reply l' = Some (Ok p) → ∃ b, leg_at σ d i = Some (Mk_leg b (Some (Ok p)))) →
  ∀ d' id, acked_by (set_leg σ d i l') d' id → acked_by σ d' id.
Proof.
  intros Hl' d' id (j & Hj & [(b' & p & Hl)|Hr]); exists j; (split; [done|]); [left|by right].
  apply leg_at_set in Hl as [Hl|(-> & -> & <-)]; [eauto|]. destruct (Hl' p eq_refl) as [b ?]. eauto.
Qed.

Lemma sys_inv_leg n L term σ d i l' :
  (∀ p, le_reply l' = Some (Ok p) → ∃ b, leg_at σ d i = Some (Mk_leg b (Some (Ok p)))) →
  sys_inv n L term σ → sys_inv n L term (set_leg σ d i l').
Proof.
  intros Hl' I. pose proof (acked_by_leg σ d i l' Hl') as Ha.
  pose proof I as []. split; simpl; try done; auto.
  - intros d'. rewrite lookup_alter_is_Some. auto.
  - intros d' id HL Hid Hvoid. eapply quorate_mono; [done| |by eapply sv_void0]. naive_solver.
Qed.

(** ** Events at the members *)

(** The members move on and legs with them: slots stay, Empty ones too, data that a quorum
    has stays data, a new Empty slot stands on a quorum, a new ack is of a slot with data. *)
Record net_grow σ (t' : MemTransport) (legs' : gmap Z (list leg)) (L : Z) : Prop := {
  ng_cluster : cluster_inv t';
  ng_members : members_ t' = members_ (sy_net σ);
  ng_lba : Cluster.lba_size_ t' = Cluster.lba_size_ (sy_net σ);
  ng_legs d : is_Some (legs' !! d) → is_Some (sy_legs σ !! d);
  ng_slots id d s : id ∈ ids (sy_net σ) → L < d → slot_at t' id d = Some s → js_is_empty s = false →
    ∃ w, sy_sent σ !! d = Some w ∧ s = slot_of (Cluster.lba_size_ (sy_net σ)) w;
  ng_keep id d : is_Some (slot_at (sy_net σ) id d) → is_Some (slot_at t' id d);
  ng_void id d : void_at (sy_net σ) d id → void_at t' d id;
  ng_data id d : L < d → quorate (sy_net σ) (data_at (sy_net σ) d) → id ∈ ids (sy_net σ) →
    data_at (sy_net σ) d id → data_at t' d id;
  ng_new id d : L < d → id ∈ ids (sy_net σ) → void_at t' d id →
    (∃ id', id' ∈ ids (sy_net σ) ∧ void_at (sy_net σ) d id') ∨
    quorate (sy_net σ) (λ id, void_at t' d id ∧ slot_at (sy_net σ) id d = None);
  ng_ack id d i b p : member_id (sy_net σ) i = Some id →
    legs' !! d ≫= (.!! i) = Some (Mk_leg b (Some (Ok p))) →
    (∃ b p, leg_at σ d i = Some (Mk_leg b (Some (Ok p)))) ∨ data_at t' d id;
  ng_commit id r : by_id_ (sy_net σ) !! id = Some r → ∃ r', by_id_ t' !! id = Some r' ∧ commit_of r ≤ commit_of r';
}.

Definition moved σ (t' : MemTransport) (legs' : gmap Z (list leg)) (rp : list (nat * Z)) : system T U M :=
  Mk_system (sy_session σ) (sy_hist σ) (sy_client σ) t' (sy_sent σ) legs' (sy_reports σ ++ rp) (sy_rounds σ).

Lemma moved_acked n L term σ t' legs' rp d id :
  sys_inv n L term σ → net_grow σ t' legs' L → acked_by (moved σ t' legs' rp) d id →
  acked_by σ d id ∨ data_at t' d id.
Proof.
  intros I G (i & Hi & [(b & p & Hl)|Hh]).
  - assert (member_id (sy_net σ) i = Some id) as Hid by (unfold member_id in *; by rewrite <-(ng_members _ _ _ _ G)).
    destruct (ng_ack _ _ _ _ G id d i b p Hid Hl) as [Hold|]; [|by right]. left. exists i. auto.
  - left. exists i. split; [|by right]. unfold member_id in *. by rewrite <-(ng_members _ _ _ _ G).
Qed.

Lemma moved_void n L term σ t' legs' rp d id :
  sys_inv n L term σ → net_grow σ t' legs' L → L < d → id ∈ ids (sy_net σ) → void_at t' d id →
  quorate t' (λ id, void_at t' d id ∧ ¬ acked_by (moved σ t' legs' rp) d id).
Proof.
  intros I G HL Hid Hv. pose proof (ng_members _ _ _ _ G) as Hm.
  destruct (ng_new _ _ _ _ G id d HL Hid Hv) as [(id' & Hid' & Hv')|Hq].
  - eapply (quorate_mono (sy_net σ)); [done| |by eapply (sv_void _ _ _ _ I)].
    intros id0 _ [H0 Hn]. apply (ng_void _ _ _ _ G) in H0. split; [done|].
    intros [?|?]%(moved_acked n L term); [done| |done..]. by eapply data_not_void.
  - eapply (quorate_mono (sy_net σ)); [done| |exact Hq]. intros id0 _ [H0 Hn]. split; [done|].
    intros [Ha|?]%(moved_acked n L term); [| |done..]; [|by eapply data_not_void].
    apply (sv_acked _ _ _ _ I) in Ha. rewrite Hn in Ha. by destruct Ha.
Qed.

Lemma sys_inv_grow n L term σ t' legs' rp :
  sys_inv n L term σ → net_grow σ t' legs' L →
  (∀ i C, (i, C) ∈ rp → ∃ r, member t' i = Some r ∧ C ≤ commit_of r) →
  sys_inv n L term (moved σ t' legs' rp).
Proof.
  intros I G Hrp. pose proof I as []. pose proof G as [C' Hm Hl Hlg Hs Hk Hv Hd Hn Ha Hc].
  assert (ids t' = ids (sy_net σ)) as Hids by (unfold ids; by rewrite Hm).
  assert (∀ d, L < d → quorate (sy_net σ) (data_at (sy_net σ) d) → quorate t' (data_at t' d)) as Hq.
  { intros d HLd Hq. eapply (quorate_mono (sy_net σ)); [done| |exact Hq]. intros id Hid. by apply Hd. }
  split; simpl; try done; rewrite ?Hm, ?Hl, ?Hids; try done; auto.
  - intros d id [Hack|(s & -> & _)]%(moved_acked n L term); eauto.
  - intros d id HLd Hid Hvoid. by eapply (moved_void n L term).
  - intros i rr Hin. destruct (sv_rounds0 i rr Hin) as (id & Hi & Hdi). exists id.
    split; [unfold member_id in *; by rewrite Hm|]. intros d HLd He. destruct (Hdi d HLd He) as [Hda Hqd].
    split; [|apply Hq; [lia|done]]. eapply Hd; [lia|done|by eapply member_id_ids|done].
  - intros d rs Hrs Hvd. apply Hq; [|by eapply sv_verdict0]. pose proof (sv_link0 d) as Hlk. rewrite Hrs in Hlk.
    apply linked_hist in Hlk as (w & Hw & _). by apply (sv_sent0 d w).
  - intros i C [Hin|Hin]%elem_of_app; [|by apply Hrp]. destruct (sv_reports0 i C Hin) as (r & Hr & HC).
    destruct (member_ext _ t' i r Hm Hc Hr) as (r' & ? & ?). exists r'. split; [done|lia].
  - intros i r' Hr'. destruct (member_registered (sy_net σ) i sv_cluster0) as [r Hr].
    { rewrite <-Hm. by eapply member_lt. }
    destruct (member_ext _ t' i r Hm Hc Hr) as (r1 & Hr1 & Hle). rewrite Hr' in Hr1. injection Hr1 as <-.
    specialize (sv_synced0 i r Hr). lia.
Qed.

(** Events that keep the journals. *)
Lemma ext_grow n L term σ t' legs' :
  sys_inv n L term σ → cluster_inv t' → net_ext (sy_net σ) t' →
  (∀ d, is_Some (legs' !! d) → is_Some (sy_legs σ !! d)) →
  (∀ d i b p, legs' !! d ≫= (.!! i) = Some (Mk_leg b (Some (Ok p))) →
     ∃ b p, leg_at σ d i = Some (Mk_leg b (Some (Ok p)))) →
  net_grow σ t' legs' L.
Proof.
  intros I C' [Hm Hl Hs Hc] Hd Ha. split; try done; unfold void_at, data_at; repeat intros ?; rewrite ?Hs in *; try done.
  - by eapply sv_slots.
  - left. eauto.
  - left. by eapply Ha.
Qed.

Lemma sys_inv_net n L term σ t' rp :
  sys_inv n L term σ → cluster_inv t' → net_ext (sy_net σ) t' →
  (∀ i C, (i, C) ∈ rp → ∃ r, member t' i = Some r ∧ C ≤ commit_of r) →
  sys_inv n L term (set_net σ t' rp).
Proof.
  intros I C' E Hrp. apply (sys_inv_grow n L term σ t' (sy_legs σ)); [done| |done].
  apply (ext_grow n L term); try done. intros. unfold leg_at. eauto.
Qed.

Lemma call_grow {R} n L term σ i (f : MemCraftReplica → R * MemCraftReplica) res t' :
  sys_inv n L term σ → (∀ r, replica_inv r → quiet r (f r).2) → on_member i f (sy_net σ) = Some (res, t') →
  net_grow σ t' (sy_legs σ) L.
Proof.
  intros I Hf (id & r & Hid & Hr & -> & ->)%on_member_spec.
  destruct (cv_replicas _ (sv_cluster _ _ _ _ I) id r Hr) as [Ir _]. destruct (Hf r Ir) as [].
  apply (ext_grow n L term); try done.
  - by eapply cluster_inv_insert; [apply I|exact Hr|..].
  - by apply net_ext_insert with (r := r).
  - intros. unfold leg_at. eauto.
Qed.

Lemma sys_inv_call n L term σ i (f : MemCraftReplica → result error_condition lsn_pair * MemCraftReplica) res t' :
  sys_inv n L term σ →
  (∀ r, replica_inv r → quiet r (f r).2 ∧ ∀ l, (f r).1 = Ok l → lp_commit l = commit_of (f r).2) →
  on_member i f (sy_net σ) = Some (res, t') → sys_inv n L term (set_net σ t' (report i res)).
Proof.
  intros I Hf Ho. apply (sys_inv_grow n L term σ t' (sy_legs σ)); [done| |].
  { eapply call_grow; [done| |done]. intros r Ir. by apply Hf. }
  apply on_member_spec in Ho as (id & r & Hid & Hr & -> & ->).
  destruct (cv_replicas _ (sv_cluster _ _ _ _ I) id r Hr) as [Ir _]. destruct (Hf r Ir) as [_ Hl].
  intros j C Hin. unfold report in Hin. destruct (f r) as [[l|e] r'] eqn:Hfr; simpl in *;
    [|by apply elem_of_nil in Hin].
  apply list_elem_of_singleton in Hin as [= -> ->]. exists r'. unfold member. simpl.
  change (member_id (set_by_id _ _) i) with (member_id (sy_net σ) i). rewrite Hid. simpl.
  rewrite lookup_insert_eq. split; [done|]. rewrite (Hl l); done.
Qed.

(** ** A leg reaches its member *)

(** The write a leg carries is new to its member, or there already. *)
Lemma leg_fresh n L term σ id r d w :
  sys_inv n L term σ → -1 ≤ L → (1 ≤ n ≤ k_max_members)%nat →
  id ∈ ids (sy_net σ) → by_id_ (sy_net σ) !! id = Some r → sy_sent σ !! d = Some w →
  in_u 64 (se_addr w) ∧ in_u 64 (se_len w) ∧
  (¬ voided r d → fresh_write r (se_hdr w) d (se_addr w) (se_len w) (se_bytes w)).
Proof.
  intros I HL Hn Hid Hr Hw. destruct (sv_sent _ _ _ _ I d w Hw) as [HLd Ht].
  pose proof (sv_link _ _ _ _ I d) as Hlk. rewrite Hw in Hlk. apply linked_sent in Hlk as (rs & Hrs & Ha & Hl).
  pose proof (client_reach_inv _ _ _ _ _ Hn (sv_client _ _ _ _ I)) as C.
  destruct (ci_link _ _ _ _ _ C d rs Hrs) as (sl & Hsl & Ha' & Hl').
  destruct (sv_small _ _ _ _ I d sl Hsl) as [(? & ? & ?) ?]. unfold in_u. split_and!; [lia..|].
  intros Hv. destruct (decide (commit_of r < d)) as [|Hc]; [by left|]. right.
  destruct (cv_replicas _ (sv_cluster _ _ _ _ I) id r Hr) as [Ir _].
  destruct (rv_prefix r Ir d) as [s Hs]; [lia|].
  destruct (sv_slots _ _ _ _ I id d s Hid HLd) as (w' & Hw' & ->).
  - by rewrite (slot_at_lookup _ _ r).
  - destruct (js_is_empty s) eqn:He; [|done]. destruct Hv. by exists s.
  - rewrite Hw in Hw'. injection Hw' as <-. rewrite Hs, write_slot_of.
    by rewrite (cv_page _ (sv_cluster _ _ _ _ I) id r Hr).
Qed.

(** The member takes the write: its journal has it, no Empty slot is lost, and the ack is
    the only new one. *)
Lemma wrote_grow n L term σ d i id r r' w l' :
  let t' := set_by_id (sy_net σ) (<[id := r']> (by_id_ (sy_net σ))) in
  sys_inv n L term σ → member_id (sy_net σ) i = Some id → by_id_ (sy_net σ) !! id = Some r →
  sy_sent σ !! d = Some w → ¬ voided r d → replica_inv r' → commit_of r ≤ commit_of r' →
  journal_ r' = <[d := write_slot r (se_hdr w) (se_addr w) (se_len w) (se_bytes w)]> (journal_ r) →
  term_of r' = term_of r → page_size_ r' = page_size_ r →
  net_grow σ t' (sy_legs (set_leg σ d i l')) L.
Proof.
  intros t' I Hid Hr Hw Hnv Ir' Hc Hj Ht Hp. pose proof (sv_cluster _ _ _ _ I) as C.
  set (ws := slot_of (Cluster.lba_size_ (sy_net σ)) w).
  assert (∀ id' d', slot_at t' id' d' =
    if decide (id' = id ∧ d' = d) then Some ws else slot_at (sy_net σ) id' d') as Hs.
  { intros id' d'. unfold t'. rewrite slot_at_insert. destruct (decide (id' = id)) as [->|].
    - rewrite Hj, write_slot_of, (cv_page _ C id r Hr), lookup_insert, (slot_at_lookup _ _ r) by done.
      destruct (decide (d = d')), (decide (id = id ∧ d' = d)); naive_solver.
    - by rewrite decide_False by naive_solver. }
  assert (∀ d' id', void_at (sy_net σ) d' id' ↔ void_at t' d' id') as Hv.
  { intros d' id'. unfold void_at. rewrite Hs. case_decide as Hd; [|done]. destruct Hd as [-> ->].
    split; [|by intros (s & [= <-] & ?)]. intros (s & Hsl & He). destruct Hnv. exists s.
    by rewrite (slot_at_lookup _ _ r) in Hsl. }
  split; try done.
  - by eapply cluster_inv_insert.
  - intros d'. simpl. by rewrite lookup_alter_is_Some.
  - intros id' d' s Hin HLd. rewrite Hs. case_decide as Hdd; [|by apply (sv_slots _ _ _ _ I)].
    destruct Hdd as [-> ->]. intros [= <-] _. eauto.
  - intros id' d' ?. rewrite Hs. case_decide; eauto.
  - intros id' d'. by apply Hv.
  - intros id' d' _ _ _ (s & Hsl & He). unfold data_at. rewrite Hs. case_decide; [by exists ws|by exists s].
  - intros id' d' _ Hin Hvoid%Hv. left. eauto.
  - intros id' d' j b p Hjd Hl. apply (leg_at_set σ d i l') in Hl as [Hl|(-> & -> & _)]; [left; eauto|].
    right. rewrite Hid in Hjd. injection Hjd as <-. exists ws. by rewrite Hs, decide_True.
  - intros id0 r0 H0. simpl. rewrite lookup_insert. case_decide; [|by exists r0]. subst. exists r'.
    rewrite Hr in H0. injection H0 as <-. done.
Qed.

Lemma deliver_grow n L term σ σ' d i :
  sys_inv n L term σ → -1 ≤ L → (1 ≤ n ≤ k_max_members)%nat → sys_exec σ (ev_deliver d i) = Some σ' →
  ∃ legs' rp, σ' = moved σ (sy_net σ') legs' rp ∧ net_grow σ (sy_net σ') legs' L ∧
    ∀ j C, (j, C) ∈ rp → ∃ r, member (sy_net σ') j = Some r ∧ C ≤ commit_of r.
Proof.
  intros I HL Hn. cbn [sys_exec]. destruct (sy_sent σ !! d) as [w|] eqn:Hw; cbn [mbind option_bind]; [|done].
  destruct (leg_at σ d i) as [l|] eqn:Hleg; cbn [mbind option_bind]; [|done].
  destruct (le_travels l) eqn:Htr; [|done]. destruct (on_member _ _ _) as [[res t']|] eqn:Hon; [|done].
  cbn [mbind option_bind]. apply on_member_spec in Hon as (id & r & Hid & Hr & -> & ->). intros [= <-].
  pose proof (member_id_ids _ _ _ Hid) as Hin. pose proof (sv_cluster _ _ _ _ I) as C.
  destruct (cv_replicas _ C id r Hr) as [Ir _].
  destruct (leg_fresh _ _ _ _ _ _ _ _ I HL Hn Hin Hr Hw) as (Ha & Hl & Hf).
  destruct (do_write _ _ _ _ _ _) as [res r'] eqn:Hdo. cbn [fst snd].
  set (l' := Mk_leg false (Some (default res (le_reply l)))).
  exists (sy_legs (set_leg σ d i l')). eexists. split; [done|].
  destruct (write_cases _ _ _ _ _ _ _ _ Ir Ha Hl Hf Hdo)
    as [[[e ->] ->]|(-> & Hnv & Ir' & Hc & Hj & Ht & Hp)].
  - split; [|destruct (le_reply l); simpl; by intros ? ? ?%elem_of_nil]. apply (ext_grow n L term); [done|..].
    + by eapply cluster_inv_insert.
    + by apply net_ext_insert with (r := r).
    + intros d'. simpl. by rewrite lookup_alter_is_Some.
    + intros d' j b p [Hl0|(-> & -> & Hl0)]%(leg_at_set σ d i l'); [eauto|].
      destruct l as [b0 [q|]]; simpl in *; [|done]. injection Hl0 as -> <-. eauto.
  - split; [by eapply wrote_grow|]. intros j C0. destruct (le_reply l); simpl; [by intros ?%elem_of_nil|].
    intros [= -> ->]%list_elem_of_singleton. exists r'. unfold member.
    change (member_id (set_by_id _ _) i) with (member_id (sy_net σ) i). rewrite Hid. simpl.
    by rewrite lookup_insert_eq.
Qed.

Lemma sys_inv_deliver n L term σ σ' d i :
  sys_inv n L term σ → -1 ≤ L → (1 ≤ n ≤ k_max_members)%nat →
  sys_exec σ (ev_deliver d i) = Some σ' → sys_inv n L term σ'.
Proof.
  intros I HL Hn He. destruct (deliver_grow _ _ _ _ _ _ _ I HL Hn He) as (legs' & rp & -> & G & Hrp).
  by apply sys_inv_grow.
Qed.

(** ** A round *)

Lemma round_grow n L term σ t' caller rr :
  sys_inv n L term σ → round_done (sy_net σ) t' caller rr → net_grow σ t' (sy_legs σ) L.
Proof.
  intros I R. set (t := sy_net σ) in *.
  assert (∀ id, id ∈ live_replicas t → id ∈ ids t) as Hsub by (intros id Hid; by apply live_subset).
  destruct (rd_config _ _ _ _ R) as (Hm & _ & _ & Hl & _).
  split; try done; try apply R.
  - intros id d s Hin HLd Hs He.
    destruct (round_cases t t' caller rr d R) as [Hrg Heq|c i Hi Hc Hce Hne Hout Hlive|Hv Hout Hlive].
    + rewrite Heq in Hs. by apply (sv_slots _ _ _ _ I id d s).
    + destruct (decide (id ∈ live_replicas t)) as [Hlv|Hlv]; [|rewrite Hout in Hs by done; by apply (sv_slots _ _ _ _ I id d s)].
      rewrite Hlive in Hs by done. injection Hs as <-. destruct (slot_at t id d) as [s|] eqn:Hs; simpl in *;
        [by apply (sv_slots _ _ _ _ I id d s)|by apply (sv_slots _ _ _ _ I i d c (Hsub i Hi))].
    + destruct (decide (id ∈ live_replicas t)) as [Hlv|Hlv]; [|rewrite Hout in Hs by done; by apply (sv_slots _ _ _ _ I id d s)].
      destruct (Hlive id Hlv) as (s' & Hs' & He'). congruence.
  - intros id d Hk. fold t in Hk.
    destruct (round_cases t t' caller rr d R) as [Hrg Heq|c i Hi Hc Hce Hne Hout Hlive|Hv Hout Hlive]; [by rewrite Heq|..];
      (destruct (decide (id ∈ live_replicas t)) as [Hlv|Hlv]; [|by rewrite Hout]).
    + by rewrite Hlive.
    + destruct (Hlive id Hlv) as (s' & -> & _). eauto.
  - intros id d (s & Hs & He). fold t in Hs. unfold void_at.
    destruct (round_cases t t' caller rr d R) as [Hrg Heq|c i Hi Hc Hce Hne Hout Hlive|Hv Hout Hlive];
      [rewrite Heq; eauto|..]; (destruct (decide (id ∈ live_replicas t)) as [Hlv|Hlv]; [|rewrite Hout; eauto]).
    + by rewrite (Hne id s Hlv Hs) in He.
    + by apply Hlive.
  - intros id d HLd Hq Hin (s & Hs & He). fold t in Hs, Hq, Hin. unfold data_at.
    destruct (round_cases t t' caller rr d R) as [Hrg Heq|c i Hi Hc Hce Hne Hout Hlive|Hv Hout Hlive];
      [rewrite Heq; eauto|..]; (destruct (decide (id ∈ live_replicas t)) as [Hlv|Hlv]; [|rewrite Hout; eauto]).
    + rewrite Hlive, Hs by done. simpl. eauto.
    + exfalso. destruct Hv as [(i & Hi & Hvi)|Hnone]; [|by rewrite Hnone in Hs].
      by apply (filled_not_void n L term σ d i I HLd Hq (Hsub i Hi)).
  - intros id d HLd Hin Hvoid. fold t in Hin |- *.
    destruct (round_cases t t' caller rr d R) as [Hrg Heq|c i Hi Hc Hce Hne Hout Hlive|Hv Hout Hlive].
    + left. exists id. split; [done|]. unfold void_at in *. by rewrite Heq in Hvoid.
    + left. exists id. split; [done|]. destruct Hvoid as (s & Hs & He).
      destruct (decide (id ∈ live_replicas t)) as [Hlv|Hlv]; [|exists s; by rewrite <-Hout].
      rewrite Hlive in Hs by done. injection Hs as <-. destruct (slot_at t id d) as [s|] eqn:Hs; simpl in He;
        [by rewrite (Hne id s Hlv Hs) in He|congruence].
    + destruct Hv as [(i & Hi & Hvi)|Hnone]; [left; eauto|]. right.
      eapply (quorate_mono t); [done| |apply R]. intros id0 _ Hi0. split; [by apply Hlive|by apply Hnone].
  - intros id d i b p _ Hlg. left. eauto.
  - intros id r Hr. destruct (decide (id ∈ live_replicas t)) as [Hin|Hin].
    + destruct (rd_live _ _ _ _ R id r Hin Hr) as (r' & ? & ? & _). exists r'. split; [done|lia].
    + exists r. split; [|done]. by rewrite (rd_out _ _ _ _ R id Hin).
Qed.

(** What the round reports filled, the leader and a quorum hold. *)
Lemma round_filled t t' caller rr d :
  cluster_inv t → round_done t t' caller rr → 0 ≤ d ≤ rs_resolved_upto rr → d ∉ rs_empty_slots rr →
  data_at t' d caller ∧ quorate t' (data_at t' d).
Proof.
  intros I R Hd He.
  assert (∀ id, id ∈ live_replicas t → ∃ r', by_id_ t' !! id = Some r' ∧ is_Some (journal_ r' !! d)) as Hall.
  { intros id Hin. destruct (live_registered t id Hin) as [r Hr].
    destruct (rd_live _ _ _ _ R id r Hin Hr) as (r' & Hr' & Hc & _). exists r'. split; [done|].
    apply (rv_prefix r'); [apply (cv_replicas _ (rd_cluster _ _ _ _ R) id r' Hr')|lia]. }
  assert (data_at t' d caller) as Hcd.
  { destruct (Hall caller (rd_caller _ _ _ _ R)) as (r' & Hr' & [s Hs]). exists s.
    rewrite (slot_at_lookup _ _ r') by done. split; [done|]. destruct (js_is_empty s) eqn:Hes; [|done].
    destruct (rd_empties _ _ _ _ R r' d Hr' He); [lia|]. by exists s. }
  split; [done|]. destruct (rd_config _ _ _ _ R) as (Hm & _).
  eapply (quorate_mono t); [done| |apply R]. intros id _ Hin.
  destruct (round_cases t t' caller rr d R) as [Hrg Heq|c i Hi Hc Hce Hne Hout Hlive|Hv Hout Hlive].
  - destruct (Hall id Hin) as (r' & Hr' & Hj). rewrite <-(slot_at_lookup t' id r') in Hj by done.
    apply slot_cases in Hj as [|(s & Hs & Hes)]; [done|]. exfalso.
    destruct (live_registered t id Hin) as [r Hr]. destruct (live_registered t caller (rd_caller _ _ _ _ R)) as [l Hl].
    apply (data_not_void _ _ _ Hcd). unfold void_at. rewrite Heq, (slot_at_lookup t caller l) by done.
    rewrite Heq, (slot_at_lookup t id r) in Hs by done.
    apply (rd_agreed _ _ _ _ R caller id l r d (rd_caller _ _ _ _ R) Hin Hl Hr); [|by exists s].
    pose proof (rd_floor _ _ _ _ R caller l (rd_caller _ _ _ _ R) Hl). lia.
  - unfold data_at. rewrite Hlive by done.
    destruct (slot_at t id d) as [s|] eqn:Hs; simpl; [|by exists c].
    exists s. split; [done|exact (Hne id s Hin Hs)].
  - destruct (data_not_void _ _ _ Hcd (Hlive caller (rd_caller _ _ _ _ R))).
Qed.
End invariant.
