(* ===== verification/SystemInv.v ===== *)
(** * Every run of a client and its cluster

    Each event of [System] keeps the invariant of [SystemSpec], and the state after a login
    has it. *)

From S2P Require Import Prelude Codec WireTypes Wire Types Replica ReplicaSpec ReplicaRun Cluster ClusterSpec ClusterRun StreamTracker DlsnTracker DlsnSpec DlsnPlan IntervalMap ReadRoute RouteSpec Client ClientSpec ClientRun System SystemSpec.

Local Open Scope craft_scope.
Local Open Scope Z_scope.

Section events.
Context {T U M : Type} `{ST : !StreamTracker dlsn_slot T} `{SU : !StreamTracker route_slot U}
  `{IM : !IntervalMap M} `{MS : !MissSort}.
Implicit Types (σ : system T U M) (c : craft_client T U M).

(** ** The router's frames *)

Lemma record_synced (r r' : read_route_map U M) d i ok :
  record_completion r d i ok = Some r' → synced_ r' = synced_ r.
Proof.
  unfold record_completion. destruct (overlay_ r); simpl; [|done]. destruct (st_update _ _ _ _) as [? []].
  by intros [= <-].
Qed.

Lemma create_synced (r r' : read_route_map U M) d addr len : route_create r d addr len = Some r' → synced_ r' = synced_ r.
Proof. unfold route_create. destruct (overlay_ r); simpl; [|done]. by intros [= <-]. Qed.

Lemma filled_synced (r : read_route_map U M) i ds r' :
  foldl (λ x d, note_filled_at i d x) (Some r) ds = Some r' → synced_ r' = synced_ r.
Proof.
  revert r. induction ds as [|d ds IH]; intros r; simpl; [by intros [= <-]|].
  destruct (note_filled r d i) as [r1|] eqn:H1.
  - intros ->%IH. unfold note_filled in H1. destruct (overlay_ r); simpl in H1; [|done].
    destruct (st_update _ _ _ _) as [? []]. by injection H1 as <-.
  - clear. induction ds; simpl; done.
Qed.

Lemma synced_at_eq (r r' : read_route_map U M) i : synced_ r' = synced_ r → synced_at r' i = synced_at r i.
Proof. unfold synced_at. by intros ->. Qed.

(** ** The history after a round *)

Lemma hist_round_origin i ds (h : gmap Z route_slot) d rs' :
  hist_round i ds h !! d = Some rs' →
  ∃ rs, h !! d = Some rs ∧ rs_addr rs' = rs_addr rs ∧ rs_len rs' = rs_len rs ∧
    (∀ j, holds (rs_holders rs') j = true → holds (rs_holders rs) j = true ∨ j = i ∧ d ∈ ds) ∧
    (rs_verdict rs' ≠ 0 → rs_verdict rs ≠ 0 ∨ d ∈ ds).
Proof.
  revert h. unfold hist_round. induction ds as [|d0 ds IH]; intros h; simpl; [by exists rs'; split_and!; auto|].
  intros (rs1 & H1 & Ha & Hl & Hh & Hv)%IH. destruct (decide (d = d0)) as [->|Hne].
  - rewrite lookup_alter_eq in H1. destruct (h !! d0) as [rs|] eqn:Hd; simpl in H1; [|done]. injection H1 as <-.
    exists rs. split_and!; try done; [|right; left]. intros j [Hj|[-> Hin]]%Hh; [|right; split; [done|by right]].
    simpl in Hj. rewrite holds_lor in Hj. apply orb_true_iff in Hj as [|Hj]; [by left|].
    apply bool_decide_eq_true in Hj. right. split; [done|left].
  - rewrite lookup_alter_ne in H1 by done. exists rs1. split_and!; try done.
    + intros j [|[-> ?]]%Hh; [by left|]. right. split; [done|by right].
    + intros [|?]%Hv; [by left|]. right. by right.
Qed.

(** ** Events *)

Lemma inv_small_ranges n L term σ s' :
  sys_inv n L term σ → same_ranges (sy_session σ) s' →
  ∀ d sl, ss_slots s' !! d = Some sl → slot_ok sl ∧ ds_len sl < 2 ^ 32.
Proof.
  intros I Hr d sl Hd. destruct (same_ranges_lookup _ _ _ _ Hr Hd) as (sl0 & H0 & Ha & Hl).
  pose proof (sv_small _ _ _ _ I d sl0 H0) as Hs. unfold slot_ok in *. by rewrite <-Ha, <-Hl.
Qed.

Lemma sys_inv_send n L term σ d bytes σ' :
  sys_inv n L term σ → (1 ≤ n ≤ k_max_members)%nat → sys_exec σ (ev_send d bytes) = Some σ' → sys_inv n L term σ'.
Proof.
  intros I Hn. cbn [sys_exec]. destruct (ss_slots (sy_session σ) !! d) as [sl|] eqn:Hsl; cbn [mbind option_bind]; [|done].
  case_decide as Hg; [|done]. destruct Hg as (Hh & HK & Hoc).
  destruct (route_create _ _ _ _) as [r|] eqn:Hrc; cbn [mbind option_bind]; [|done]. intros [= <-].
  pose proof (client_reach_inv _ _ _ _ _ Hn (sv_client _ _ _ _ I)) as C.
  assert (sy_sent σ !! d = None) as Hns.
  { pose proof (sv_link _ _ _ _ I d) as Hl. rewrite Hh in Hl. by destruct (sy_sent σ !! d). }
  assert (L < d) as HLd.
  { destruct (ci_tracker _ _ _ _ _ C) as [[t0 R] _]. destruct (rf_dom _ _ _ R d sl Hsl) as [[Hd _] _].
    by rewrite (ci_login _ _ _ _ _ C) in Hd. }
  set (σ' := Mk_system _ _ _ _ _ _ _ _).
  assert (∀ d' id, acked_by σ' d' id → acked_by σ d' id) as Ha.
  { intros d' id (i & Hi & [(b & p & Hl)|(rs & Hrs & Hb)]); exists i; (split; [done|]).
    - left. exists b, p. unfold leg_at in *. simpl in Hl. rewrite lookup_insert in Hl.
      case_decide; [|done]. simpl in Hl. by apply lookup_replicate in Hl as [[=] _].
    - simpl in Hrs. rewrite lookup_insert in Hrs. case_decide; [|by right; exists rs].
      injection Hrs as <-. unfold holds in Hb. simpl in Hb. by rewrite Z.bits_0 in Hb. }
  pose proof I as []. split; simpl; try done; auto.
  - by eapply cr_send.
  - intros d' w. rewrite lookup_insert. case_decide; [|by apply sv_sent]. intros [= <-]. by subst.
  - intros d'. rewrite !lookup_insert. case_decide; [done|apply sv_link].
  - intros d'. rewrite !lookup_insert. case_decide; [eauto|apply sv_legs].
  - intros id d' s Hin HL' Hs He. destruct (sv_slots id d' s Hin HL' Hs He) as (w & Hw & Hsw). exists w.
    rewrite lookup_insert_ne by congruence. done.
  - intros d' rs i. rewrite lookup_insert. case_decide; [|by apply sv_bits]. intros [= <-].
    unfold holds. simpl. by rewrite Z.bits_0.
  - intros d' id HL' Hid Hv. eapply quorate_mono; [done| |by eapply sv_void]. naive_solver.
  - intros d' rs. rewrite lookup_insert. case_decide; [by intros [= <-]|apply sv_verdict].
  - intros i r0 Hr0. rewrite (synced_at_eq _ _ _ (create_synced _ _ _ _ _ Hrc)). by apply sv_synced.
Qed.

Lemma sys_inv_complete n L term σ d i σ' :
  sys_inv n L term σ → (1 ≤ n ≤ k_max_members)%nat → sys_exec σ (ev_complete d i) = Some σ' → sys_inv n L term σ'.
Proof.
  intros I Hn. cbn [sys_exec]. destruct (sy_hist σ !! d) as [rs|] eqn:Hrs; cbn [mbind option_bind]; [|done].
  destruct (leg_at σ d i) as [l|] eqn:Hl; cbn [mbind option_bind]; [|done].
  destruct (le_reply l) as [res|] eqn:Hres; cbn [mbind option_bind]; [|done].
  case_decide as Hg; [|done]. destruct Hg as [Hi Hnc].
  destruct (record_completion _ _ _ _) as [r|] eqn:Hrc; cbn [mbind option_bind]; [|done]. intros [= <-].
  pose proof (client_reach_inv _ _ _ _ _ Hn (sv_client _ _ _ _ I)) as C. rewrite (ci_n _ _ _ _ _ C) in Hi.
  assert (∀ j, holds (rs_holders (complete_slot rs (bit i) (is_ok res))) j = true →
    holds (rs_holders rs) j = true ∨ j = i ∧ is_ok res = true) as Hb.
  { intros j. simpl. destruct (is_ok res); [|by left]. rewrite holds_lor, orb_true_iff, bool_decide_eq_true. tauto. }
  apply sys_inv_hist; try done.
  - by eapply cr_complete; [apply I|..].
  - apply I.
  - intros j r0 Hr0. simpl. rewrite (synced_at_eq _ _ _ (record_synced _ _ _ _ _ Hrc)). by eapply sv_synced.
  - intros d'. rewrite lookup_insert. case_decide; [|apply I]. subst. pose proof (sv_link _ _ _ _ I d') as Hk.
    by rewrite Hrs in Hk.
  - intros d' rs' j. rewrite lookup_insert. case_decide; [|by apply I]. intros [= <-] [Hj|[-> _]]%Hb; [|done].
    by eapply (sv_bits _ _ _ _ I).
  - intros d' id (j & Hj & [Hleg|(rs' & Hrs' & Hh)]); left; exists j; (split; [done|]); [by left|].
    simpl in Hrs'. rewrite lookup_insert in Hrs'. case_decide; [|by right; exists rs'].
    injection Hrs' as <-. subst. apply Hb in Hh as [Hh|[-> Hok]]; [right; by exists rs|left].
    destruct l as [b rp]. simpl in Hres. subst. destruct res as [p|]; [|done]. eauto.
  - intros d' rs'. rewrite lookup_insert. case_decide; [|by apply I]. intros [= <-]. simpl.
    subst. by apply (sv_verdict _ _ _ _ I).
Qed.

Lemma retire_frame n L s h c i rr c' :
  client_inv n L s h c → resolution_retire c i rr = Some c' →
  cc_term c' = cc_term c ∧ DlsnTracker.lba_size_ (cc_tracker c') = DlsnTracker.lba_size_ (cc_tracker c) ∧
  ∀ j, synced_at (cc_route c') j = synced_at (cc_route c) j.
Proof.
  intros I. unfold resolution_retire.
  destruct (retire_upto_refines (note_filled_at i) s (cc_tracker c) (rs_resolved_upto rr) (rs_empty_slots rr)
    (Some (cc_route c)) (ci_tracker _ _ _ _ _ I)) as (t & Ht & R & _). rewrite Ht. cbn [mbind option_bind].
  destruct (foldl _ _ _) as [r|] eqn:Hr; cbn [mbind option_bind]; [|done]. intros [= <-]. simpl.
  destruct (clear_want_refines _ _ (rs_resolved_upto rr) R) as (_ & _ & ->).
  apply retire_upto_params in Ht as [-> _]. split_and!; [done..|]. intros j. by apply synced_at_eq, (filled_synced _ _ _ _ Hr).
Qed.

Lemma sys_inv_verdict n L term σ k σ' :
  sys_inv n L term σ → (1 ≤ n ≤ k_max_members)%nat → sys_exec σ (ev_verdict k) = Some σ' → sys_inv n L term σ'.
Proof.
  intros I Hn. cbn [sys_exec]. destruct (sy_rounds σ !! k) as [[i rr]|] eqn:Hk; cbn [mbind option_bind]; [|done].
  case_decide as Hg; [|done]. destruct Hg as [Hi Hkn].
  destruct (resolution_retire _ _ _) as [c'|] eqn:Hret; cbn [mbind option_bind]; [|done]. intros [= <-].
  pose proof (client_reach_inv _ _ _ _ _ Hn (sv_client _ _ _ _ I)) as C. rewrite (ci_n _ _ _ _ _ C) in Hi.
  destruct (retire_frame _ _ _ _ _ _ _ _ C Hret) as (Ht & Hlba & Hsy).
  apply list_elem_of_lookup_2 in Hk. destruct (sv_rounds _ _ _ _ I i rr Hk) as (id & Hid & Hd).
  set (ds := filled _ _ _ _).
  assert (∀ d, d ∈ ds → is_Some (sy_hist σ !! d) →
    L < d ∧ data_at (sy_net σ) d id ∧ quorate (sy_net σ) (data_at (sy_net σ) d)) as Hds.
  { intros d Hin [rs Hrs]. pose proof (sv_link _ _ _ _ I d) as Hl. rewrite Hrs in Hl.
    apply linked_hist in Hl as (w & Hw & _). destruct (sv_sent _ _ _ _ I d w Hw) as [HL _].
    apply filled_elem in Hin as (Hr & _ & _ & He). split; [done|]. apply Hd; [lia|done]. }
  apply sys_inv_hist; try done.
  - by eapply cr_round; [apply I|..].
  - eapply inv_small_ranges; [done|apply round_ranges].
  - intros j r Hr. rewrite Hsy. by eapply sv_synced.
  - intros d. pose proof (sv_link _ _ _ _ I d) as Hl. destruct (sy_hist σ !! d) as [rs|] eqn:Hrs.
    + destruct (hist_round_lookup n i ds (sy_hist σ) d rs Hrs) as (rs' & -> & Ha & Hle & _).
      destruct (sy_sent σ !! d); [|done]. simpl in *. by rewrite Ha, Hle.
    + destruct (hist_round i ds (sy_hist σ) !! d) as [rs'|] eqn:Hrs'; [|done].
      apply hist_round_inv in Hrs' as [? ?]. congruence.
  - intros d rs' j (rs & Hrs & _ & _ & Hb & _)%hist_round_origin [Hj|[-> _]]%Hb; [|done].
    by eapply (sv_bits _ _ _ _ I).
  - intros d id' (j & Hj & [Hleg|(rs' & Hrs' & Hh)]); [left; exists j; auto|]. simpl in Hrs'.
    apply hist_round_origin in Hrs' as (rs & Hrs & _ & _ & Hb & _). apply Hb in Hh as [Hh|[-> Hin]].
    + left. exists j. eauto.
    + right. simpl in Hj. rewrite Hid in Hj. injection Hj as <-. by apply Hds; [|eauto].
  - intros d rs' (rs & Hrs & _ & _ & _ & Hv)%hist_round_origin [?|Hin]%Hv; [by eapply (sv_verdict _ _ _ _ I)|].
    by apply Hds; [|eauto].
Qed.

Lemma sys_inv_round n L term σ i hdr upto σ' :
  sys_inv n L term σ → -1 ≤ L → sys_exec σ (ev_round i hdr upto) = Some σ' → sys_inv n L term σ'.
Proof.
  intros I HL. cbn [sys_exec]. destruct (member_id (sy_net σ) i) as [id|] eqn:Hid; cbn [mbind option_bind]; [|done].
  case_decide as Hg; [|done]. destruct Hg as [_ Hag].
  destruct (request_resolution _ _ _ _) as [res t'] eqn:Hr.
  destruct (resolution_done _ _ _ _ _ _ (sv_cluster _ _ _ _ I) Hag (member_id_ids _ _ _ Hid) Hr)
    as [[[e ->] ->]|(rr & -> & R)]; intros [= <-].
  - apply sys_inv_net; [done|apply I| |by intros ? ? ?%elem_of_nil]. split; try done. by intros ? r; exists r.
  - assert (sys_inv n L term (set_net σ t' [])) as I'.
    { apply (sys_inv_grow n L term σ t' (sy_legs σ) []); [done|by eapply round_grow|by intros ? ? ?%elem_of_nil]. }
    pose proof I' as []. split; simpl; try done.
    intros j rr' [Hin|[= -> ->]%list_elem_of_singleton]%elem_of_app; [by apply sv_rounds|]. exists id.
    destruct (rd_config _ _ _ _ R) as (Hm & _). split; [unfold member_id in *; by rewrite Hm|].
    intros d Hd He. eapply round_filled; [apply I|done|lia|done].
Qed.

(** The client's own accesses that leave the history alone. *)
Lemma sys_inv_local n L term σ e σ' :
  sys_inv n L term σ → (1 ≤ n ≤ k_max_members)%nat → sys_exec σ e = Some σ' →
  match e with
  | ev_take | ev_create _ _ _ | ev_settle _ _ | ev_synced _ _ | ev_fold _ | ev_flags _ _ | ev_want _ | ev_plan _ _ => True
  | _ => False
  end → sys_inv n L term σ'.
Proof.
  intros I Hn He Hk. pose proof (client_reach_inv _ _ _ _ _ Hn (sv_client _ _ _ _ I)) as C.
  pose proof (ci_n _ _ _ _ _ C) as Hcn. pose proof (ci_login _ _ _ _ _ C) as HcL.
  destruct e; try done; clear Hk; cbn [sys_exec] in He.
  - injection He as <-. apply sys_inv_client; try done; try apply I. by apply cr_take, I.
  - case_decide as Hg; [|done]. destruct Hg as (Hd & Hnone & Hok & Hlen & Hp).
    destruct (reserve_create _ _ _ _) as [t|] eqn:Hr; simpl in He; [|done]. injection He as <-.
    apply sys_inv_client; try done; try apply I.
    + eapply cr_create; try done; [apply I|lia].
    + unfold reserve_create in Hr. destruct (tracker_ _); simpl in Hr; [|done]. by injection Hr as <-.
    + intros i sl. simpl. rewrite lookup_insert. case_decide; [by intros [= <-]|apply I].
  - destruct (sy_hist σ !! d) as [rs|] eqn:Hrs; simpl in He; [|done]. case_decide as Hg; [|done].
    destruct Hg as [Hacks Hres]. destruct (resolve _ _ _) as [t|] eqn:Hr; simpl in He; [|done]. injection He as <-.
    rewrite Hcn in *. apply sys_inv_client; try done; try apply I.
    + eapply cr_settle; try done; [apply I|]. intros [? ?]%Hres. split; [done|by apply results_check_ok].
    + by apply resolve_params in Hr as [].
    + eapply inv_small_ranges; [done|apply resolve_ranges].
  - case_decide as Hg; [|done]. destruct Hg as [Hi Hin]. injection He as <-. rewrite Hcn in Hi.
    apply sys_inv_client; try done; try apply I; [by apply cr_synced; [apply I|]|].
    intros j r Hr. simpl. destruct (reach_inv _ _ _ _ Hn (ci_route _ _ _ _ _ C)) as (_ & _ & app0 & t0 & RI).
    rewrite synced_at_advance by (rewrite (proj2 (ri_arrays _ _ _ RI)); lia).
    pose proof (sv_synced _ _ _ _ I j r Hr). case_decide; [|done]. subst.
    destruct (sv_reports _ _ _ _ I _ _ Hin) as (r' & Hr' & HC). rewrite Hr in Hr'. injection Hr' as <-. lia.
  - case_decide; [|done]. destruct (fold_to _ _) as [r|] eqn:Hf; simpl in He; [|done]. injection He as <-.
    apply sys_inv_client; try done; try apply I; [by eapply cr_fold; [apply I|..]|].
    intros j r0 Hr0. simpl. rewrite (fold_synced _ _ _ _ Hf). by eapply sv_synced.
  - injection He as <-. apply sys_inv_client; try done; try apply I. by apply cr_flags, I.
  - injection He as <-. apply sys_inv_client; try done; try apply I; [by apply cr_want, I|].
    simpl. unfold note_resolution_want. by case_match.
  - destruct (compute _ _ _) as [[p t]|] eqn:Hc; simpl in He; [|done]. injection He as <-.
    apply sys_inv_client; try done; try apply I; [by eapply cr_plan; [apply I|]|].
    by apply compute_params in Hc as [].
Qed.

Lemma sys_exec_inv n L term σ e σ' :
  (1 ≤ n ≤ k_max_members)%nat → -1 ≤ L → sys_inv n L term σ → sys_exec σ e = Some σ' → sys_inv n L term σ'.
Proof.
  intros Hn HL I He. destruct e; try (by eapply sys_inv_local; [done..|]).
  - by eapply sys_inv_send.
  - by eapply sys_inv_deliver.
  - cbn [sys_exec] in He. destruct (leg_at σ d i) as [l|]; simpl in He; [|done]. case_decide; [|done].
    injection He as <-. by apply sys_inv_leg.
  - cbn [sys_exec] in He. destruct (leg_at σ d i) as [l|]; simpl in He; [|done]. case_decide; [|done].
    injection He as <-. by apply sys_inv_leg.
  - by eapply sys_inv_complete.
  - cbn [sys_exec] in He. case_decide; [|done]. destruct (on_member _ _ _) as [[res t']|] eqn:Ho; [|done].
    injection He as <-. eapply sys_inv_call; [done| |done]. intros r Ir. simpl.
    destruct (do_keep_alive r hdr) as [p r'] eqn:Hk. by eapply keep_alive_quiet.
  - cbn [sys_exec] in He. case_decide; [|done]. destruct (on_member _ _ _) as [[res t']|] eqn:Ho; [|done].
    injection He as <-. eapply sys_inv_call; [done| |done]. intros r Ir. simpl.
    destruct (do_read r hdr H addr len dest) as [[p r']|] eqn:Hk; [|split; [by apply quiet_refl|done]].
    destruct (read_quiet _ _ _ _ _ _ _ _ Ir Hk) as [Hq Hl]. destruct p as [[rr dst]|e]; simpl; [|done].
    split; [done|]. intros l [= <-]. by apply (Hl (rr, dst)).
  - by eapply sys_inv_round.
  - by eapply sys_inv_verdict.
  - cbn [sys_exec] in He. destruct (on_member _ _ _) as [[[] t']|] eqn:Ho; [|done]. injection He as <-.
    apply on_member_spec in Ho as (id & r & Hid & Hr & _ & ->). simpl.
    destruct (cv_replicas _ (sv_cluster _ _ _ _ I) id r Hr) as [Ir _].
    apply sys_inv_net; [done| | |by intros ? ? ?%elem_of_nil].
    + eapply cluster_inv_insert; [apply I|done|by apply mutate_faults_inv|done..].
    + by apply net_ext_insert with (r := r).
  - cbn [sys_exec] in He. injection He as <-. apply sys_inv_net; [done| | |by intros ? ? ?%elem_of_nil].
    + destruct (sv_cluster _ _ _ _ I). by split.
    + split; try done. by intros ? r; exists r.
Qed.

Lemma sys_run_inv n L term σ es σ' :
  (1 ≤ n ≤ k_max_members)%nat → -1 ≤ L → sys_inv n L term σ → sys_run σ es = Some σ' → sys_inv n L term σ'.
Proof.
  intros Hn HL. revert σ. induction es as [|e es IH]; intros σ I; simpl; [by intros [= <-]|].
  destruct (sys_exec σ e) as [σ1|] eqn:He; simpl; [|done]. apply IH. by eapply sys_exec_inv.
Qed.

(** ** What lasts *)

(** Data that a quorum has stays, and so does what was sent. *)
Record lasts (L : Z) σ σ' : Prop := {
  ls_members : members_ (sy_net σ') = members_ (sy_net σ);
  ls_lba : Cluster.lba_size_ (sy_net σ') = Cluster.lba_size_ (sy_net σ);
  ls_sent d w : sy_sent σ !! d = Some w → sy_sent σ' !! d = Some w;
  ls_data d id : L < d → id ∈ ids (sy_net σ) → quorate (sy_net σ) (data_at (sy_net σ) d) →
    data_at (sy_net σ) d id → data_at (sy_net σ') d id;
}.

Lemma lasts_same L σ σ' : sy_net σ' = sy_net σ → sy_sent σ' = sy_sent σ → lasts L σ σ'.
Proof. intros Hn Hs. by split; rewrite ?Hn, ?Hs. Qed.

Lemma lasts_grow L σ σ' legs' : net_grow σ (sy_net σ') legs' L → sy_sent σ' = sy_sent σ → lasts L σ σ'.
Proof. intros G Hs. split; rewrite ?Hs; try done; try apply G. intros d id HL Hid Hq. by apply G. Qed.

Lemma lasts_quorate L σ σ' d :
  lasts L σ σ' → L < d → quorate (sy_net σ) (data_at (sy_net σ) d) → quorate (sy_net σ') (data_at (sy_net σ') d).
Proof. intros La HL Hq. eapply (quorate_mono (sy_net σ)); [apply La| |done]. intros id Hid. by apply La. Qed.

Lemma lasts_trans L σ1 σ2 σ3 : lasts L σ1 σ2 → lasts L σ2 σ3 → lasts L σ1 σ3.
Proof.
  intros A B. pose proof (ls_members _ _ _ A) as Hm. split.
  - by rewrite (ls_members _ _ _ B).
  - by rewrite (ls_lba _ _ _ B), (ls_lba _ _ _ A).
  - intros d w Hw. by apply B, A.
  - intros d id HL Hid Hq Hd. apply B; [done|unfold ids; by rewrite Hm|by eapply lasts_quorate|by apply A].
Qed.

Lemma sys_exec_lasts n L term σ e σ' :
  (1 ≤ n ≤ k_max_members)%nat → -1 ≤ L → sys_inv n L term σ → sys_exec σ e = Some σ' → lasts L σ σ'.
Proof.
  intros Hn HL I He. destruct e; cbn [sys_exec] in He;
    try (repeat (case_match || simplify_option_eq); by apply lasts_same).
  - (* send *) destruct (ss_slots _ !! d) as [sl|]; simpl in He; [|done]. case_decide as Hg; [|done].
    destruct (route_create _ _ _ _) as [r|]; simpl in He; [|done]. injection He as <-. split; simpl; try done.
    intros d' w Hw. rewrite lookup_insert_ne; [done|]. intros <-.
    pose proof (sv_link _ _ _ _ I d) as Hlk. rewrite Hw in Hlk. apply linked_sent in Hlk as (rs & Hrs & _).
    destruct Hg as [Hno _]. congruence.
  - (* deliver *) destruct (deliver_grow n L term σ σ' d i I HL Hn He) as (legs' & rp & -> & G & _).
    by eapply lasts_grow.
  - (* keep_alive *) case_decide; [|done]. destruct (on_member _ _ _) as [[res t']|] eqn:Ho; [|done].
    injection He as <-. eapply lasts_grow; [|done]. eapply call_grow; [done| |done]. intros r Ir. simpl.
    destruct (do_keep_alive r hdr) as [p r'] eqn:Hk. by eapply keep_alive_quiet.
  - (* read *) case_decide; [|done]. destruct (on_member _ _ _) as [[res t']|] eqn:Ho; [|done].
    injection He as <-. eapply lasts_grow; [|done]. eapply call_grow; [done| |done]. intros r Ir. simpl.
    destruct (do_read r hdr H addr len dest) as [[p r']|] eqn:Hk; [|by apply quiet_refl].
    destruct (read_quiet _ _ _ _ _ _ _ _ Ir Hk) as [Hq _]. by destruct p as [[rr dst]|e].
  - (* round *) destruct (member_id _ _) as [id|] eqn:Hid; simpl in He; [|done]. case_decide as Hg; [|done].
    destruct (request_resolution _ _ _ _) as [res t'] eqn:Hr.
    destruct (resolution_done _ _ _ _ _ _ (sv_cluster _ _ _ _ I) (proj2 Hg) (member_id_ids _ _ _ Hid) Hr)
      as [[[e ->] ->]|(rr & -> & R)]; injection He as <-; [by apply lasts_same|].
    eapply lasts_grow; [|done]. by eapply round_grow.
  - (* faults *) destruct (on_member _ _ _) as [[[] t']|] eqn:Ho; [|done]. injection He as <-.
    eapply lasts_grow; [|done]. eapply call_grow; [done| |done]. intros r Ir. simpl.
    split; try done. by apply mutate_faults_inv.
  - (* leader *) injection He as <-. by split.
Qed.

Lemma sys_run_lasts n L term σ es σ' :
  (1 ≤ n ≤ k_max_members)%nat → -1 ≤ L → sys_inv n L term σ → sys_run σ es = Some σ' → lasts L σ σ'.
Proof.
  intros Hn HL. revert σ. induction es as [|e es IH]; intros σ I; simpl; [intros [= <-]; by apply lasts_same|].
  destruct (sys_exec σ e) as [σ1|] eqn:He; simpl; [|done]. intros Hr.
  eapply lasts_trans; [by eapply sys_exec_lasts|]. apply IH; [by eapply sys_exec_inv|done].
Qed.

(** ** The start *)

(** What a login leaves: the cluster after [run_login], with the term and start granted. *)
Lemma sys_login_ok t i tok c σ :
  cluster_inv t → term_ t < 2 ^ 64 - 1 → sys_login t i tok c = Some σ →
  ∃ id, member_id t i = Some id ∧ net_is_up t id = true ∧ id = leader_ t ∧
    (quorum (length (members_ t)) ≤ length (live_replicas t))%nat ∧
    ∃ t', run_login t id tok =
        (Ok (Mk_LoginResult (members_ t) (login_peek t (live_replicas t)) (term_ t + 1) (Cluster.lba_size_ t)
               (capacity_ t) nil_uuid (max_tx_ t)), t') ∧
      σ = Mk_system (Mk_session (login_peek t (live_replicas t)) (login_peek t (live_replicas t) + 1) ∅) ∅
            (login_accept c tok (Z.of_nat i)
               (Mk_LoginResult (members_ t) (login_peek t (live_replicas t)) (term_ t + 1) (Cluster.lba_size_ t)
                  (capacity_ t) nil_uuid (max_tx_ t))) t' ∅ ∅ [] [].
Proof.
  intros I Ht. unfold sys_login. destruct (member_id t i) as [id|] eqn:Hid; simpl; [|done]. unfold replica_login.
  destruct (net_is_up t id) eqn:Hup; simpl; [|done]. destruct (decide (id = leader_ t)) as [Hl|Hl].
  - destruct (decide (length (live_replicas t) < quorum (length (members_ t)))%nat) as [Hq|Hq%Nat.nlt_ge].
    { unfold run_login, login_gate. by rewrite Hup, bool_decide_eq_true_2, decide_True. }
    destruct (run_login_aux t id tok I Hup Hl Ht Hq) as (t' & Hr & _). rewrite Hr. cbv beta iota.
    destruct (lg_term _ =? 0); [done|]. intros [= <-]. exists id. split_and!; try done. by exists t'.
  - unfold run_login, login_gate. by rewrite Hup, bool_decide_eq_false_2.
Qed.

Lemma sys_login_inv t i tok c σ :
  cluster_inv t → term_ t < 2 ^ 64 - 1 → cc_n c = length (members_ t) → (cc_n c ≤ k_max_members)%nat →
  sys_login t i tok c = Some σ →
  (∀ id r, by_id_ t !! id = Some r → append_of r ≤ login_peek t (live_replicas t)) →
  -1 ≤ ss_login (sy_session σ) ∧ sys_inv (cc_n c) (ss_login (sy_session σ)) (term_ t + 1) σ.
Proof.
  intros I Ht Hn Hk Hs Htail.
  destruct (sys_login_ok t i tok c σ I Ht Hs) as (id & Hid & Hup & Hl & Hq & t' & Hr & ->).
  set (L := login_peek t (live_replicas t)) in *. simpl.
  destruct (login_peek_spec t (live_replicas t)) as (HL & _). fold L in HL. split; [done|].
  pose proof (run_login_lookup t id tok I Hup Hl Hq) as Hlk. rewrite Hr in Hlk.
  destruct Hlk as (_ & Hc & Hb). unfold same_config in Hc. simpl in Hc. destruct Hc as (Hm & _ & _ & Hlba & _).
  destruct (run_login_aux t id tok I Hup Hl Ht Hq) as (t1 & Hr1 & I' & _). rewrite Hr in Hr1. injection Hr1 as <-.
  assert (∀ id0 d s, slot_at t' id0 d = Some s → ¬ L < d) as Hnone.
  { intros id0 d s Hsl HLd. unfold slot_at, replica_for, peek_slot in Hsl. rewrite Hb in Hsl.
    destruct (by_id_ t !! id0) as [r|] eqn:Hr0; [|by case_decide].
    destruct (cv_replicas t I id0 r Hr0) as [Ir _]. pose proof (Htail id0 r Hr0) as Hap.
    assert (journal_ r !! d = Some s) as Hj.
    { case_decide; simpl in Hsl; [|done].
      destruct (login_replica_spec L tok (u64 (term_ t + 1)) r Ir Hap) as (_ & Hj & _). by rewrite <-Hj. }
    pose proof (rv_append r Ir d ltac:(eauto)). lia. }
  assert (0 ≤ Cluster.lba_size_ t) as Hz.
  { unfold member_id in Hid. apply fmap_Some in Hid as (m & Hm0 & ->).
    destruct (cv_registered t I m) as [r Hr0]; [by eapply list_elem_of_lookup_2|].
    rewrite <-(cv_page t I _ r Hr0). pose proof (rv_page r (proj1 (cv_replicas t I _ r Hr0))). lia. }
  split; simpl; try done; rewrite ?Hm, ?Hlba; try done.
  - by apply cr_login.
  - intros d. by rewrite !lookup_empty.
  - intros id0 d s _ HLd Hsl. by destruct (Hnone id0 d s Hsl).
  - intros d id0 (j & _ & [(b & p & Hl0)|(rs & Hrs & _)]).
    + unfold leg_at in Hl0. simpl in Hl0. by rewrite lookup_empty in Hl0.
    + simpl in Hrs. by rewrite lookup_empty in Hrs.
  - intros d id0 HLd _ (s & Hsl & _). by destruct (Hnone id0 d s Hsl).
  - by intros j rr ?%elem_of_nil.
  - by intros j C ?%elem_of_nil.
  - intros j r Hj. pose proof (member_lt _ _ _ Hj) as Hlt. rewrite Hm, <-Hn in Hlt.
    unfold member in Hj. apply bind_Some in Hj as (id0 & _ & Hj).
    pose proof (rv_commit r (proj1 (cv_replicas t' I' id0 r Hj))) as Hc.
    unfold synced_at. simpl. unfold fill.
    rewrite lookup_app_l by (rewrite length_replicate; simpl; unfold k_max_members in *; lia).
    rewrite lookup_replicate_2; [simpl; unfold k_unsynced; lia|]. simpl. unfold k_max_members in *. lia.
Qed.
End events.
