(* ===== verification/SystemRun.v ===== *)
(** * What a client reads back

    The runs of [System] end to end, under the conditions stated there.  A read that the
    client plans and routes, served by the member it chose, at once or any number of events
    later, returns for every block the payload of a write of the session at or above the last
    one acked for the block.  The last section runs a round of resolution between two
    deliveries of a write. *)

From S2P Require Import Prelude Codec WireTypes Wire Types Replica ReplicaSpec ReplicaRun Cluster ClusterSpec ClusterRun StreamTracker DlsnTracker DlsnSpec DlsnPlan IntervalMap ReadRoute RouteSpec Client ClientSpec ClientRun System SystemSpec SystemInv.

Local Open Scope craft_scope.
Local Open Scope Z_scope.

#[local] Existing Instance stable_sort.

(** The page a write gives block [b]. *)
Definition sent_block (page : Z) (w : sent) (b : Z) : list Z :=
  match se_bytes w with
  | None => replicate (Z.to_nat page) 0
  | Some bs => subspan (Z.to_nat (b * page - se_addr w)) (Z.to_nat page) bs
  end.

Lemma all_zero_replicate p : all_zero p = true → p = replicate (length p) 0.
Proof.
  induction p as [|x p IH]; simpl; [done|]. intros [->%Z.eqb_eq H]%andb_true_iff. by rewrite <-IH.
Qed.

(** A block whose highest version is a write of the session reads as the write's page. *)
Lemma image_sent page w b d :
  0 < page → (page | se_addr w) → slot_wf page (slot_of page w) → covers_block (slot_of page w) b = true →
  block_bytes page (image page b (Some (d, slot_of page w))) = sent_block page w b.
Proof.
  intros Hp [k Hk] Hwf Hc. unfold block_bytes, image, sent_block. simpl. destruct (se_bytes w) as [bs|] eqn:Hb; [|done].
  destruct Hwf as [?|(H0 & H1 & H2 & H3)]; [done|]. apply covers_block_iff in Hc; [|done..].
  simpl in *. rewrite Hb in H3. destruct H3 as (b0 & [= <-] & Hlen). rewrite Hk, Z.div_mul in * by lia.
  replace ((b - k) * page) with (b * page - k * page) by lia.
  set (pg := subspan _ _ bs). destruct (all_zero pg) eqn:Hz; [|done]. simpl.
  rewrite (all_zero_replicate pg Hz) at 1. f_equal. unfold pg, subspan. rewrite length_take, length_drop. nia.
Qed.

Section reads.
Context {T U M : Type} `{ST : !StreamTracker dlsn_slot T} `{SU : !StreamTracker route_slot U}
  `{IM : !IntervalMap M} `{MS : !MissSort}.
Implicit Types (σ : system T U M) (c : craft_client T U M).

Lemma member_at σ i r : member (sy_net σ) i = Some r →
  ∃ id, member_id (sy_net σ) i = Some id ∧ id ∈ ids (sy_net σ) ∧ by_id_ (sy_net σ) !! id = Some r.
Proof.
  unfold member. destruct (member_id (sy_net σ) i) as [id|] eqn:Hid; simpl; [|done]. intros Hr.
  exists id. split_and!; [done|by eapply member_id_ids|done].
Qed.

(** A sent write covers whole blocks, and its slot the same ones. *)
Lemma sent_geometry n L term σ d w :
  (1 ≤ n ≤ k_max_members)%nat → sys_inv n L term σ → sy_sent σ !! d = Some w → 0 < Cluster.lba_size_ (sy_net σ) →
  let page := Cluster.lba_size_ (sy_net σ) in
  (page | se_addr w) ∧ ∀ b, covers_block (slot_of page w) b = true ↔ se_addr w ≤ b * page < se_addr w + se_len w.
Proof.
  intros Hn I Hw Hpos page. pose proof (sv_link _ _ _ _ I d) as Hlk. rewrite Hw in Hlk.
  apply linked_sent in Hlk as (rs & Hrs & Ha & Hl).
  pose proof (client_reach_inv _ _ _ _ _ Hn (sv_client _ _ _ _ I)) as C.
  destruct (ci_link _ _ _ _ _ C d rs Hrs) as (sl & Hsl & Ha' & Hl').
  destruct (sv_small _ _ _ _ I d sl Hsl) as [(H0 & H1 & H2) H3].
  destruct (ci_aligned _ _ _ _ _ C d sl Hsl) as [Da Dl]. rewrite <-(sv_lba _ _ _ _ I) in Da, Dl. fold page in Da, Dl, Hpos.
  rewrite Ha', Hl', Ha, Hl in *. split; [done|]. intros b. destruct Da as [ka Hka], Dl as [kl Hkl].
  unfold slot_of. rewrite Hka, Hkl, !Z.div_mul by lia. rewrite covers_block_iff; simpl;
    unfold u32; rewrite ?wrap_small by (unfold in_u; nia); nia.
Qed.

Lemma present_data n L term σ d id :
  sys_inv n L term σ → L < d → quorate (sy_net σ) (data_at (sy_net σ) d) → id ∈ ids (sy_net σ) →
  is_Some (slot_at (sy_net σ) id d) → data_at (sy_net σ) d id.
Proof. intros I HL Hq Hid [?|Hv]%slot_cases; [done|]. by edestruct filled_not_void. Qed.

(** A member that provides a write has it, or a later one of the byte, in its journal. *)
Lemma provides_data n L term σ i id H d sl x :
  (1 ≤ n ≤ k_max_members)%nat → -1 ≤ L → sys_inv n L term σ → member_id (sy_net σ) i = Some id →
  ss_slots (sy_session σ) !! d = Some sl → ds_outcome sl = acked → covers sl x →
  provides n (sy_hist σ) (cc_route (sy_client σ)) i H d x →
  ∃ d1 w1, d ≤ d1 ≤ H ∧ L < d1 ∧ sy_sent σ !! d1 = Some w1 ∧ se_addr w1 ≤ x < se_addr w1 + se_len w1 ∧
    quorate (sy_net σ) (data_at (sy_net σ) d1) ∧ data_at (sy_net σ) d1 id.
Proof.
  intros Hn HL I Hid Hsl Hoc Hcov (HdH & rs & Hrs & Hcase).
  pose proof (member_id_ids _ _ _ Hid) as Hin. pose proof (client_reach_inv _ _ _ _ _ Hn (sv_client _ _ _ _ I)) as C.
  destruct (acked_data _ _ _ _ _ _ I Hn Hsl Hoc) as (HLd & _ & Hq).
  assert (∀ d rs, sy_hist σ !! d = Some rs → ∃ w, sy_sent σ !! d = Some w ∧ rs_addr rs = se_addr w ∧ rs_len rs = se_len w) as Hsent.
  { intros d0 rs0 H0. pose proof (sv_link _ _ _ _ I d0) as Hlk. rewrite H0 in Hlk. by apply linked_hist. }
  destruct (Hsent d rs Hrs) as (w & Hw & Ha & Hl).
  assert (se_addr w ≤ x < se_addr w + se_len w) as Hwx.
  { destruct (ci_link _ _ _ _ _ C d rs Hrs) as (sl' & Hsl' & Ha' & Hl'). rewrite Hsl in Hsl'. injection Hsl' as <-.
    unfold covers in Hcov. lia. }
  assert (∀ d rs, L < d → sy_hist σ !! d = Some rs → holds (rs_holders rs) i = true →
            quorate (sy_net σ) (data_at (sy_net σ) d) → data_at (sy_net σ) d id) as Hheld.
  { intros d0 rs0 HL0 H0 Hh Hq0. eapply present_data; try done. apply (sv_acked _ _ _ _ I). exists i. split; [done|]. right. eauto. }
  destruct Hcase as [Hh|[(d' & rs' & Hd' & Hrs' & Hdur & Hh & Hc')|Hsy]].
  - exists d, w. split_and!; try done; lia || by eapply Hheld.
  - destruct (Hsent d' rs' Hrs') as (w' & Hw' & Ha' & Hl').
    assert (quorate (sy_net σ) (data_at (sy_net σ) d')) as Hq' by (eapply durable_data; [done|lia|done|done|lia]).
    unfold rcovers in Hc'. exists d', w'. split_and!; try done; try lia. eapply Hheld; [lia|done..].
  - exists d, w. split_and!; try done; try lia. eapply present_data; try done.
    pose proof Hin as (m & -> & Hm)%list_elem_of_fmap.
    destruct (cv_registered _ (sv_cluster _ _ _ _ I) m Hm) as [r Hr]. rewrite (slot_at_lookup _ _ r) by done.
    destruct (cv_replicas _ (sv_cluster _ _ _ _ I) _ r Hr) as [Ir _]. apply (rv_prefix r Ir).
    assert (member (sy_net σ) i = Some r) as Hmi by (unfold member; by rewrite Hid).
    specialize (sv_synced _ _ _ _ I i r Hmi). lia.
Qed.

(** The block of a journal that holds a write of the session covering it. *)
Lemma read_image_sent n L term σ id r H b d w :
  (1 ≤ n ≤ k_max_members)%nat → -1 ≤ L → sys_inv n L term σ → id ∈ ids (sy_net σ) → by_id_ (sy_net σ) !! id = Some r →
  let page := page_size_ r in
  L < d ≤ H → sy_sent σ !! d = Some w → data_at (sy_net σ) d id → se_addr w ≤ b * page < se_addr w + se_len w →
  ∃ d' w', d ≤ d' ≤ H ∧ sy_sent σ !! d' = Some w' ∧ se_addr w' ≤ b * page < se_addr w' + se_len w' ∧
    block_bytes page (read_image r H b) = sent_block page w' b.
Proof.
  intros Hn HL I Hid Hr page Hd Hw (s & Hs & He) Hx.
  destruct (cv_replicas _ (sv_cluster _ _ _ _ I) id r Hr) as [Ir _]. pose proof (rv_page r Ir) as Hp.
  assert (Cluster.lba_size_ (sy_net σ) = page) as Hpg by (symmetry; by eapply cv_page; [apply I|]).
  destruct (sv_slots _ _ _ _ I id d s Hid ltac:(lia) Hs He) as (w0 & Hw0 & ->). rewrite Hw in Hw0. injection Hw0 as <-.
  assert (0 < Cluster.lba_size_ (sy_net σ)) as Hpos by (rewrite Hpg; unfold page; lia).
  pose proof (sent_geometry _ _ _ _ _ _ Hn I Hw Hpos) as [_ Hc].
  rewrite (slot_at_lookup _ _ r) in Hs by done.
  assert (version (-1) H b (d, slot_of (Cluster.lba_size_ (sy_net σ)) w) = true) as V.
  { apply version_iff. split_and!; try done; try lia. apply Hc. by rewrite Hpg. }
  unfold read_image. pose proof (latest_spec (journal_ r) (-1) H b) as Hl.
  destruct (latest (journal_ r) (-1) H b) as [[d2 s2]|]; simpl in Hl; [|by rewrite (Hl _ _ Hs) in V].
  destruct Hl as (Hs2 & V2 & Hmax). specialize (Hmax _ _ Hs V). apply version_iff in V2 as (Hd2 & He2 & Hc2).
  destruct (sv_slots _ _ _ _ I id d2 s2 Hid ltac:(lia)) as (w2 & Hw2 & ->); [by rewrite (slot_at_lookup _ _ r)|done|].
  destruct (sent_geometry _ _ _ _ _ _ Hn I Hw2 Hpos) as [Ha2 Hg2]. rewrite Hpg in *. fold page.
  exists d2, w2. split_and!; [lia|lia|done|by apply Hg2|by apply Hg2|]. apply image_sent; try done. by apply (rv_slots r Ir d2).
Qed.

(** A planned read, served by the chosen member now or later. *)
Lemma read_served_blocks n L term σ σ' addr len p tr rotor answers o idx r hdr sg dest :
  (1 ≤ n ≤ k_max_members)%nat → -1 ≤ L → sys_inv n L term σ → sys_inv n L term σ' → lasts L σ σ' →
  range_ok addr len → len < 2 ^ 32 → compute (cc_tracker (sy_client σ)) addr len = Some (p, tr) →
  read (with_tracker (sy_client σ) tr) addr len (Ok (po_segs p)) rotor answers = Some o → ro_served o = Some idx →
  member (sy_net σ') idx = Some r → hdr_ok (sy_client σ) hdr → term_of r = ch_term hdr → sg ∈ po_segs p →
  sg_len sg ≤ sg_size dest → sg_len sg ≤ Z.of_nat (length (concat (sg_iovs dest))) →
  let page := page_size_ r in
  ∃ rr iovs r',
    do_read r hdr (sg_H sg) (sg_addr sg) (sg_len sg) dest = Some (Ok (rr, Mk_sg (sg_size dest) iovs), r') ∧
    ∀ b d sl, sg_addr sg ≤ b * page < sg_addr sg + sg_len sg →
      ss_slots (sy_session σ) !! d = Some sl → ds_outcome sl = acked → covers sl (b * page) →
      ∃ d' w, d ≤ d' ∧ sy_sent σ' !! d' = Some w ∧ se_addr w ≤ b * page < se_addr w + se_len w ∧
        subspan (Z.to_nat (b * page - sg_addr sg)) (Z.to_nat page) (concat iovs) = sent_block page w b.
Proof.
  intros Hn HL I I' La Hrg Hlen Hcp Hrd Hsv Hm [Hht Hhc] Ht Hsg Hsz Hdst page.
  assert (po_segs p ≠ []) as Hne by (intros E; rewrite E in Hsg; by apply elem_of_nil in Hsg).
  destruct (read_served_plan _ _ _ _ _ _ _ _ _ _ _ _ _ Hn HL (sv_client _ _ _ _ I) Hrg Hcp Hne Hrd Hsv)
    as (Hcont & Hi & (Hlba & Da & Dl) & Hfr & Hprov).
  destruct (contiguous_within _ _ _ _ Hcont Hsg) as (Hs0 & Hs1 & Hs2).
  destruct (compute_aligned _ _ _ _ _ Hrg Hlba Da Dl Hcp sg Hsg) as [Dsa Dsl].
  destruct (member_at _ _ _ Hm) as (id & Hid & Hin & Hr).
  destruct (cv_replicas _ (sv_cluster _ _ _ _ I') id r Hr) as [Ir _].
  assert (page = DlsnTracker.lba_size_ (cc_tracker (sy_client σ))) as Hpg.
  { unfold page. rewrite (cv_page _ (sv_cluster _ _ _ _ I') id r Hr), (ls_lba _ _ _ La). apply I. }
  rewrite <-Hpg in Dsa, Dsl. destruct Dsa as [ka Hka], Dsl as [kl Hkl], Hrg as (Hr0 & Hr1 & Hr2).
  destruct (do_read_any r hdr (sg_H sg) (sg_addr sg) (sg_len sg) dest) as (rr & iovs & r' & Hdo & Hbytes); try done; try lia.
  { unfold misaligned. fold page. rewrite Hka, Hkl, !Z.mod_mul by lia. simpl. apply Z.eqb_neq. lia. }
  { fold page. rewrite Hkl, Z.div_mul by lia. nia. }
  exists rr, iovs, r'. split; [done|]. intros b d sl Hb Hsl Hoc Hcov.
  assert (member_id (sy_net σ) idx = Some id) as Hid0 by (unfold member_id in *; by rewrite <-(ls_members _ _ _ La)).
  destruct (provides_data _ _ _ _ _ _ _ _ _ _ Hn HL I Hid0 Hsl Hoc Hcov (Hprov sg _ Hsg Hb ltac:(lia) d sl Hsl Hoc Hcov))
    as (d1 & w1 & Hd1 & HL1 & Hw1 & Hx1 & Hq1 & Hdat1).
  destruct (read_image_sent n L term σ' id r (Z.max (sg_H sg) (commit_of (apply_up_to (ch_commit_lsn hdr) r))) b d1 w1)
    as (d2 & w2 & Hd2 & Hw2 & Hx2 & Hbb); try done; [lia|by apply La|by apply La; [|by eapply member_id_ids|..]|].
  exists d2, w2. split_and!; [lia|done|apply Hx2..|]. fold page in Hbytes, Hbb.
  rewrite Hbytes, <-Hbb, Hka, Hkl, !Z.div_mul by lia. replace (b * page - ka * page) with ((b - ka) * page) by lia.
  apply (subspan_blocks_app (λ x, block_bytes page (read_image r _ x))); [|lia|nia].
  intros y. by apply length_block.
Qed.

(** No member's journal goes past the watermark a login would return: no member that is down
    has writes the live members never saw, or truncated. *)
Definition no_tails (t : MemTransport) : Prop :=
  ∀ id r, by_id_ t !! id = Some r → append_of r ≤ login_peek t (live_replicas t).

(** C1: What a client reads back.  The conditions: at the login no member's journal goes past
    the watermark the login returns ([no_tails]); every round of resolution runs in one step,
    with no message reaching a member between its look at a slot and its mark, and only while
    the live members agree on which slots are Empty ([agreed_check]); the client plans the
    read, folds and chooses the member with no other verb of it running in between.  The
    first keeps entries of an earlier session from standing at dLSNs this one uses; without
    the second and the third the claim is false ([resolution_voids_acked_write],
    [read_race]).

    Under them, after the login and any run of the session's events (writes that reach some
    members, late and lost replies, timeouts, folds, keep-alives, reads, injected faults,
    rounds), let the client plan a read of whole blocks, of less than 4 GiB and into a
    destination with room, and its router choose a member; any further events may run before
    that member serves it.  If the member is still at the
    session's term, the read of every planned segment succeeds, and each of its blocks
    covered by a write that was acked when the read was planned holds the payload of a write
    of the session that covers the block and is that write or a later one. *)
Theorem acked_write_is_read t0 i tok c0 σ0 es σ addr len p tr rotor answers o idx es' σ' r hdr sg dest :
  cluster_inv t0 → term_ t0 < 2 ^ 64 - 1 → no_tails t0 →
  cc_n c0 = length (members_ t0) → (1 ≤ cc_n c0 ≤ k_max_members)%nat →
  sys_login t0 i tok c0 = Some σ0 → sys_run σ0 es = Some σ →
  range_ok addr len → len < 2 ^ 32 → compute (cc_tracker (sy_client σ)) addr len = Some (p, tr) →
  read (with_tracker (sy_client σ) tr) addr len (Ok (po_segs p)) rotor answers = Some o → ro_served o = Some idx →
  sys_run σ es' = Some σ' → member (sy_net σ') idx = Some r →
  hdr_ok (sy_client σ) hdr → term_of r = ch_term hdr → sg ∈ po_segs p →
  sg_len sg ≤ sg_size dest → sg_len sg ≤ Z.of_nat (length (concat (sg_iovs dest))) →
  let page := page_size_ r in
  ∃ rr iovs r',
    do_read r hdr (sg_H sg) (sg_addr sg) (sg_len sg) dest = Some (Ok (rr, Mk_sg (sg_size dest) iovs), r') ∧
    ∀ b d sl, sg_addr sg ≤ b * page < sg_addr sg + sg_len sg →
      ss_slots (sy_session σ) !! d = Some sl → ds_outcome sl = acked → covers sl (b * page) →
      ∃ d' w, d ≤ d' ∧ sy_sent σ' !! d' = Some w ∧ se_addr w ≤ b * page < se_addr w + se_len w ∧
        subspan (Z.to_nat (b * page - sg_addr sg)) (Z.to_nat page) (concat iovs) = sent_block page w b.
Proof.
  intros I0 Ht0 Hnt Hn0 Hn Hlog Hrun Hrg Hlen Hcp Hrd Hsv Hrun' Hm [Hht Hhc] Ht Hsg Hsz Hdst page.
  destruct (sys_login_inv t0 i tok c0 σ0 I0 Ht0 Hn0 ltac:(lia) Hlog Hnt) as [HL I].
  eapply sys_run_inv in I; [|done..].
  eapply (read_served_blocks _ _ _ σ σ'); try done; [by eapply sys_run_inv|by eapply sys_run_lasts].
Qed.
End reads.

(** ** A run

    Three members with pages of four bytes.  dLSN 0 is acked by members 0 and 1, and the
    read of its block is planned and routed; before the member serves it, dLSN 1 overwrites
    the block and reaches that member. *)
Section run.
Let T := MapTracker.t dlsn_slot.
Let U := MapTracker.t route_slot.
Let M := PointMap.t.

Definition run_client : craft_client T U M := mk_client 3 0 16.
Definition run_none : system T U M := Mk_system (Mk_session (-1) 0 ∅) ∅ run_client example_group ∅ ∅ [] [].
Definition run_start : system T U M := default run_none (sys_login example_group 0 9 run_client).
Definition run_after (σ : system T U M) (es : list sys_event) : system T U M := default run_none (sys_run σ es).
Definition run_write : list sys_event :=
  [ev_take; ev_create 0 0 4; ev_send 0 (Some [1; 2; 3; 4]); ev_deliver 0 1; ev_deliver 0 0;
   ev_complete 0 0; ev_complete 0 1; ev_settle 0 2].
Definition run_overwrite : list sys_event :=
  [ev_take; ev_create 1 0 4; ev_send 1 (Some [5; 6; 7; 8]); ev_deliver 1 0].
Definition run_acked : system T U M := run_after run_start run_write.
Definition run_later : system T U M := run_after run_acked run_overwrite.
Definition run_segment : read_segment := Mk_read_segment 0 4 0.

Lemma example_no_tails : no_tails example_group.
Proof.
  assert (map_Forall (λ _ r, append_of r ≤ login_peek example_group (live_replicas example_group)) (by_id_ example_group))
    as H by by_eval.
  exact H.
Qed.

Definition run_member : MemCraftReplica :=
  default (mk_replica (Mk_endpoint nil_uuid []) 4) (member (sy_net run_later) 0).

Lemma acked_write_is_read_witness :
  ∃ rr iovs r' d' w,
    do_read run_member (make_hdr (sy_client run_acked)) 0 0 4 (Mk_sg 4 [[9; 9; 9; 9]]) =
      Some (Ok (rr, Mk_sg 4 iovs), r') ∧
    0 ≤ d' ∧ sy_sent run_later !! d' = Some w ∧ subspan 0 4 (concat iovs) = sent_block 4 w 0.
Proof.
  destruct (acked_write_is_read example_group 0 9 run_client run_start run_write run_acked 0 4
    (Mk_plan_outcome [run_segment] false) (cc_tracker (sy_client run_acked)) 0 [Ok (Mk_lsn_pair 0 0)]
    (default (Mk_read_outcome (Err (ec_craft NO_QUORUM)) 0 None run_client)
       (read (with_tracker (sy_client run_acked) (cc_tracker (sy_client run_acked))) 0 4 (Ok [run_segment]) 0
          [Ok (Mk_lsn_pair 0 0)])) 0 run_overwrite run_later run_member (make_hdr (sy_client run_acked)) run_segment
    (Mk_sg 4 [[9; 9; 9; 9]])) as (rr & iovs & r' & Hr & Hb);
    [exact example_group_inv|by_eval|exact example_no_tails|by_eval|by_eval|vm_compute; reflexivity
    |vm_compute; reflexivity|unfold range_ok; lia|lia|vm_compute; reflexivity|vm_compute; reflexivity
    |vm_compute; reflexivity|vm_compute; reflexivity|vm_compute; reflexivity|by_eval|by_eval|by left|by_eval|by_eval|].
  destruct (Hb 0 0 (Mk_dlsn_slot 0 4 acked)) as (d' & w & Hd & Hs & _ & Hw);
    [vm_compute; split; congruence|vm_compute; reflexivity|done|vm_compute; split; congruence|].
  exists rr, iovs, r', d', w. split_and!; [exact Hr|exact Hd|exact Hs|exact Hw].
Defined.

(** ** A round that a write overtakes

    [run_resolution] looks at every live member's slot and then acts on what it saw; each
    member's lock is released in between. *)

Definition resolution_act (v : bool * option MemJournalSlot) (live : list peer_id_t) (t : MemTransport) (d : Z) :
    MemTransport :=
  match v with
  | (false, Some copy) =>
      foldl (λ t id, match replica_for t id ≫= λ r, peek_slot r d with
                     | Some _ => t
                     | None => on_replica (cold_install_slot d copy) t id
                     end) t live
  | _ => foldl (on_replica (cold_mark_empty d)) t live
  end.

Lemma resolution_slot_acts live t d : resolution_slot live t d = resolution_act (find_copy t d live None) live t d.
Proof. unfold resolution_slot, resolution_act. by destruct (find_copy t d live None) as [[] [|]]. Qed.

Definition overtaken_begin : list sys_event := [ev_take; ev_create 0 0 4; ev_send 0 (Some [1; 2; 3; 4])].
Definition overtaken_legs : list sys_event :=
  [ev_deliver 0 0; ev_deliver 0 1; ev_complete 0 0; ev_complete 0 1; ev_settle 0 2].

(** A round of resolution can undo an acknowledged write.  dLSN 0 has been sent and has
    reached no member when a round (for a later dLSN) looks for copies of it and finds none;
    the legs then arrive at members 0 and 1, both acknowledge, and the client returns the
    write to its caller as durable; the round goes on and marks the slot Empty on every
    member, the two that acknowledged it included, and each of them reads the block as
    zeros. *)
Theorem resolution_voids_acked_write :
  let before := run_after run_start overtaken_begin in
  let after := run_after before overtaken_legs in
  let live := live_replicas (sy_net before) in
  let t' := resolution_act (find_copy (sy_net before) 0 live None) live (sy_net after) 0 in
  sys_run run_start overtaken_begin = Some before ∧ sys_run before overtaken_legs = Some after ∧
  ss_slots (sy_session after) !! 0 = Some (Mk_dlsn_slot 0 4 acked) ∧
  (js_is_empty <$> slot_at (sy_net after) (example_id 0) 0) = Some false ∧
  Forall (λ id, (js_is_empty <$> slot_at t' id 0) = Some true ∧
    match by_id_ t' !! id with
    | Some r => match do_read r (make_hdr (sy_client after)) 0 0 4 (Mk_sg 4 [[9; 9; 9; 9]]) with
                | Some (Ok (_, dst), _) => concat (sg_iovs dst) = [0; 0; 0; 0]
                | _ => False
                end
    | None => False
    end) [example_id 0; example_id 1; example_id 2].
Proof.
  intros before after live t'. split_and!; [vm_compute; reflexivity..|].
  repeat (apply Forall_cons; split; [split; vm_compute; reflexivity|]). apply Forall_nil_2.
Qed.
End run.
